(* ===== verification/_CoqProject ===== *)
-Q . S2P
Prelude.v
RustStd.v
Float64.v
Errors.v
Crates.v
HttpApi.v
Buffer.v
Overlapped.v
Handshake.v
Iocp.v
Completion.v
Delivery.v
Response.v
Queue.v
Request.v
Init.v
Server.v
Steady.v
Shutdown.v
Slots.v
Serving.v
BenchFmt.v
BenchLoad.v
BenchCpu.v
BenchChart.v
BenchServers.v
BenchServing.v
BenchSweep.v
BenchRun.v
BenchMain.v
