(* ===== verification/Prelude.v ===== *)
(** * rust-http-sys: a verification library

    The program is a workspace of two Rust crates.  [crates/httpsys] serves HTTP
    from the Windows kernel driver http.sys through overlapped operations on an
    I/O completion port; [tools/httpbench] measures it against another server.
    This library translates both, component by component, into definitions that
    compute, and proves what each component promises to the others.

    ** The parts and how they fit together

    A [ServerBuilder] opens the API, a session, a URL group and a request queue
    (files [Init], [Queue]), registers routes, and [run] hands all of it to a
    thread that runs a number of slots ([Server], [Shutdown]).  A slot takes a
    buffer from its pool ([Buffer]), receives a request into it ([Queue.receive]),
    finds the handler by the request's URL context, and sends the response the
    handler returns ([Response]).  The handler reads the request through
    [Request].  Every call to the driver is an [Op] ([Overlapped]): a wrap shared
    by the submitting future and the kernel, completed by the threads of the
    completion port ([Iocp]) through a hand-made handshake of atomics
    ([Handshake]).

    ** Files and sources

    - [Prelude] (this file): machine integers, the state monad, transition systems
      with their executions, fairness and what a fair execution reaches
      ([fair_leads]: a rank that no step raises and a duty lowers, under a condition
      that holds until the goal), lemmas on lists, lookups and integers, and the
      tactics the files share.
    - [RustStd]: what the sources use of Rust's standard library: text as scalar
      values, UTF-8, integer parsing and printing, [Vec] over an interface for
      its growth ([VecAlloc]).
    - [Errors]: error.rs.  [Error] with its constructors, [check], [win32_code],
      [display] and the conversion from the windows crate's error.
    - [Crates]: interfaces (a class of operations and a class of laws each) for
      crossbeam's [ArrayQueue] and for [AtomicWaker], with an instance each, so
      that the laws are known to hold together.
    - [HttpApi]: the fields of the API structures the sources touch, the
      constants they name, and the driver's entry points as the class [HttpSys]:
      a kernel state and, per call, an answer and a next state.  Nothing is
      assumed about the answers except where a theorem says so.
    - [Buffer]: buffer.rs.  [RequestBuffer] ([grow_to], [declared_body_len],
      [prepare], [fit_body_inline]), [BufferPool], [BodyPool].
    - [Overlapped]: overlapped.rs.  A heap of [Arc]s with strong counts; [Op::new],
      [Op::finish] (as [finish_start] and [finish_end], around its await),
      [complete], [poll_complete], [reset], [give_back], [reclaim]; the step
      relation [op_step] in which any number of operations, completion packets
      and cancellations interleave, and in which the kernel acts by its own record
      of an operation ([kernel_owns]), whatever Rust has done with the memory; and [submit_and_finish], one operation run to
      its end, which the later files build on.
    - [Handshake]: overlapped.rs again, one atomic access at a time and with its
      memory ordering, in a release/acquire memory: [complete_code] and
      [is_completed_order] are the code, [race_step] the machine.
    - [Iocp]: iocp.rs.  [ioport_new], [associate] and [ioport_drop] as traces of
      calls over what the system answers; [port_step] has the kernel, the threads
      of [completion_loop] and the drop interleave, each thread at its own place, the
      posts of the drop failing or not.
    - [Completion]: [Overlapped] and [Iocp] put together, the operations and the port
      they complete on ([completion_step]): accepting a call puts a packet under way,
      [deliver_completion] has the pointer of the packet and nothing else, and the
      reference it took back is dropped in a step of its own.
    - [Delivery]: the same system under fairness, the way of a packet stage by stage.
    - [Response]: response.rs.  The builder; [to_raw] and [as_ptr] with pointers as
      the places they address, self-references included; [kernel_view] reads them.
    - [Queue]: queue.rs.  [queue_new] and [queue_drop] as traces; [receive],
      [read_entity_body] and [send_response] in a state monad over a [World].
    - [Request]: request.rs.  Accessors on the buffer the kernel filled, the verb,
      and [body] with its loop of reads.
    - [Init]: init.rs.  The handles, on a log of calls with the session's strong
      count; [holds] replays a log.
    - [Server]: server.rs.  Configuration, builder, routes, the handles' life, and
      [slot_turn] / [slot_loop].
    - [Steady]: a slot over many requests, on the definitions of [Server].
    - [Slots]: server.rs, queue.rs and request.rs once more, as programs of calls
      ([turn_prog], [receive_prog], [body_prog]) that [slots_step] interleaves: any
      number of slots over one kernel, one stop flag and one body pool; a task is
      suspended at a call that is awaited, and only there it can be aborted; a test
      of the flag may miss that it was set; and what dropping a slot's task leaves
      ([slot_drop]).
    - [Shutdown]: server.rs.  [run], [serve], its slots and the owner as one step
      relation ([thread_step], [slot_step] and [owner_step] make [serve_step]), over an
      interface for tokio's broadcast channel.  A slot is a place and no more.  The
      server thread ends with [drop(handles)]: in [Closing] it is in the drop of the
      queue's port, a port of [Iocp], and in [Gone] past it.
    - [Serving]: [Shutdown] and [Slots] put together, a server from [run] to [join]
      call by call: the stop flag is a word of the server's ([StopFlag]), a slot an
      entry of [Slots]; [view] is the system of [Shutdown] it is.
    - [Float64]: Rust's [f64] on the Standard Library's [SpecFloat] at binary64:
      arithmetic, [min] and [max], printing to a fixed number of decimals and
      parsing, durations; with the place of a number on the line ([rank]) and the
      bounds on rounding that the files below need.
    - [BenchFmt]: fmt.rs.  The texts of sizes, rates and times, and [parse_bytes].
    - [BenchLoad]: load.rs.  [connection_loop], [single_request] and
      [wait_until_ready] over the class [Network] (tokio and hyper), whose awaits may
      never return; [run_load] over [LoadHost] (the tasks of a run), the merge and
      the statistics.  [Failure] has the ways to end without a result: an error, a
      panic, and never.
    - [BenchCpu]: cpu.rs, over the class [ProcessApi].
    - [BenchChart]: chart.rs.  [bounds] and [pad]; [render] over the class [Plotters].
    - [BenchServers]: servers.rs.  [serve_httpsys] composed from the definitions of
      [Server], its two handlers from those of [Request] and [Response] in a world
      with the stop channel; [serve_axum] over the class [AxumHost].
    - [BenchServing]: servers.rs again, the server under test while it runs: the
      handlers of [BenchServers] as programs of calls, [Serving] with them, and the
      main thread, which waits for a stop message, shuts down and joins.
    - [BenchSweep]: sweep.rs without its effects: options, samples, the payload, the
      selection of samples, the charts, results.csv, the report.
    - [BenchRun]: sweep.rs, its effects: [ServerProcess], [measure], the two sweeps and
      [run], over the class [Harness] (processes, files, the console); a measurement
      is a [run_load].  A panic unwinds like an error; who never returns keeps what it
      owns.
    - [BenchMain]: main.rs.  The arguments, their dispatch, [ad_hoc_load],
      [parse_seconds].

    ** What the theorems show

    - Memory safety of operations.  [Overlapped.kernel_access_safe]: as long as the
      kernel may write to a wrap, by what it was asked and has answered, the wrap is
      allocated, in no pool and no other operation's, also when its future was
      dropped.  [references_exact]: strong
      counts equal the holders, pooled wraps are pristine, nothing leaks.
      [operation_result]: what an operation returns is what the kernel said.
      [submit_and_finish_refines] makes the sequential run used by [Queue] one of
      these interleavings.
    - The handshake.  [Handshake.poll_never_partial] and [no_lost_wakeup], for every
      interleaving and every stale read the orderings allow.
    - The port.  [Iocp.drop_delivers_queued]; [drop_terminates], every way an execution
      can stop, one of which is a drop that waits for a blocked thread; and
      [drop_can_hang], which exhibits that for two threads or more.
    - Operations over a port.  [Completion.completion_refines]: the pointer a thread
      is handed always leads to one live operation that is owed the packet, so that
      [Overlapped], where a delivery names its operation, and [Iocp], where a packet
      is opaque, are both projections of what happens.  [closed_port_settles]: when
      the queue was closed first, as [Drop for RequestQueue] says, the drop of the
      port leaves nothing leaked and no future waiting.  [Delivery.operation_ends]:
      every operation ends, given fair threads.
    - The queue.  [Queue.receive_refines] reduces [receive], with its wraps, pools
      and completion machinery, to a plain function of the kernel's answers;
      [receive_headers_only] and [read_entity_body_spec] say what the answers come
      to.
    - Data.  [Buffer.fit_body_inline_spec], [buffer_lifecycle_safe],
      [body_pool_bounded]; [Response.kernel_view_spec]; [Request.body_reads_all],
      [body_error_released].
    - The server.  [Server.slot_turn_spec], [slot_loop_safe], [routes_resolve],
      [with_config_releases], [teardown_order]; and the two runs that lose a request
      or never end, [Server.slot_loses_request] and [Shutdown.early_shutdown_hangs].
      [Steady.slot_settles]: a slot adapts its buffer to a body once, and from then
      on every receive is a single call into the same buffer.
    - The slots together.  [Slots.slot_turn_refines]: a turn of [Server]'s slot, with
      its wraps, pools and completions, is its program of calls.
      [Slots.slots_answer_once]: however the calls of the slots interleave, a slot
      answers the request it received with its body, once, before it receives again.
      [Owed] is the abstract slot, a monitor over its calls; of a request received
      without its body the id may be lost, which is what [Server.slot_loses_request]
      shows.
    - A server from run to join.  [Serving.serving_refines]: the detailed server, seen
      through [view], makes the moves of [Shutdown].  [serving_answers]: answered once
      holds of it too, whatever the owner and the server thread do.  And what it
      reaches, in every execution (a function of [nat]) that is weakly fair to the
      threads and in which the store of the stop flag is seen after a finite time
      ([seen_from]): [serving_joins], once a shutdown was heard every slot ends,
      however the clients and the driver behave, and then the owner joins or the
      server thread hangs in the drop of its port, as [drop_terminates] has it;
      [serving_drains], when every call is answered the slots wind down by themselves,
      each with what is left of its turn.  They rest on ranks that decrease
      ([Prelude.fair_leads]).
    - The servers under test.  [BenchServers.bench_turn_spec] composes [Server],
      [Queue], [Request] and [Response]: one turn of a slot from a received request
      to the bytes of its answer.  [serve_httpsys_spec]: every branch of building,
      registering and tearing down.  [BenchServing.bench_exits]: a process that was sent
      the stop message ends, once its server listens for it, or hangs in the drop of
      the port; [bench_hangs]: a shutdown before that is lost, and the process never
      ends.
    - The sweep.  [BenchRun.run_children]: no child process is left behind, but for
      one case, and by a run that never returns; [run_covers]: what is measured, how
      often and in which order, the load each sample is of, what its figures say
      about the requests of its run, and when a run panics or never ends.
      [BenchSweep.csv_wellformed]: results.csv reads back.
    - Load and text.  [BenchLoad.load_run_spec], every way a run ends, down to which
      sample p50 and p99 are ([Float64.f64_99_percent]) and between which the mean
      lies; [wait_until_ready_spec], which ends unless a probe does not;
      [BenchFmt.bytes_parse_roundtrip]; [BenchMain.parse_seconds_spec];
      [BenchChart.bounds_spec]; [BenchCpu.cpu_between_spec].

    ** Conventions, bounds and fuel

    A machine integer is a [Z]; [usize] has 64 bits.  Unnamed arithmetic wraps, as
    it does in the workspace's release profile.  A call trace lists the calls in
    program order together with the result.

    Loops whose number of turns the kernel decides take fuel.  [Request.body] reads
    at least one byte per turn or stops, so it needs one turn per byte the kernel
    still holds and one more ([body_reads_all] proves that this is enough).
    [payload_loop] gets one turn per eight bytes ([payload_spec]).  [slot_loop] runs
    until it is told to stop: its theorem holds for every fuel.  [request_loop] runs
    until its deadline, which the network decides: [LoadHost] gives a number of turns
    that is enough for every connection that ends at all ([LoadHostLaws]), so that a
    task is without an outcome exactly when no number is enough
    ([BenchLoad.never_ends]).  [ready_loop] sleeps 25 ms per turn, so that one turn per
    25 ms of the timeout and one more are enough ([wait_until_ready_spec]);
    [READY_FUEL] and [LOAD_FUEL] are that many.  [poll_child] polls forty times, as the code does.

    ** What is not modelled

    Messages on the standard error stream; the text Windows has for an error code
    (a parameter); the UTF-16 conversion of prefixes; the windows crate, tokio,
    hyper, axum, plotters and clap, which are classes or parameters; the constant
    styles of a chart's mesh and legend.  The connections of a run meet a network
    each.  An allocation the host refuses aborts the process and is left out; that a
    capacity does not fit a vector is modelled where a user of the tool gives it
    ([capacity_overflow]), not for the configuration of [httpsys].
    [GetQueuedCompletionStatusEx] fails only when the port is closed, and a child
    that was killed can be waited for.  A handler is a finite program of calls; a
    [Request] or a body it keeps past its end would keep the queue open, which
    [Serving] leaves out.  In [Slots] and [Serving] a call is answered in one step: the
    time between submitting and completing it is in [Overlapped] and [Completion].
    In those a packet is delivered only after its call has returned: the submitter
    does nothing in between that would tell.

    ** Plan

    Next: [requests_per_second] within the rounding of its division, as
    [Float64.f64_div_between] has it for [mean_ms]; [Completion] under the calls of
    [Slots], so that a call is answered in the steps of its operation. *)

From stdpp Require Export base tactics list numbers gmap relations.
From stdpp Require Export option strings.
From Stdlib Require Export ZArith Lia.

Declare Scope rust_scope.
Delimit Scope rust_scope with rust.
#[global] Open Scope Z_scope.
#[global] Open Scope rust_scope.

(** ** Machine integers

    A [u8], [u16], [u32], [u64] or [usize] is a [Z]; [usize] is 64 bits wide.
    Arithmetic that the source leaves to the build profile wraps, as in the
    release profile of the workspace; the saturating and checked operations are
    the ones the source calls by name. *)

Definition wrap (w z : Z) : Z := z mod 2 ^ w.
Definition umax (w : Z) : Z := 2 ^ w - 1.
Definition in_u (w z : Z) : Prop := 0 <= z < 2 ^ w.

Abbreviation wrap16 := (wrap 16).
Abbreviation wrap32 := (wrap 32).
Abbreviation wrap64 := (wrap 64).

(** [u64::saturating_add], [usize::saturating_sub], [usize::div_ceil]. *)
Definition saturating_add (w a b : Z) : Z := Z.min (a + b) (umax w).
Definition saturating_sub (a b : Z) : Z := Z.max (a - b) 0.
Definition div_ceil (a b : Z) : Z :=
  if a mod b =? 0 then a / b else a / b + 1.

#[global] Instance in_u_dec w z : Decision (in_u w z).
Proof. unfold in_u. apply _. Defined.

Lemma wrap_small w z : in_u w z -> wrap w z = z.
Proof. intros H. apply Z.mod_small, H. Qed.

Lemma wrap_in_u w z : 0 <= w -> in_u w (wrap w z).
Proof. intros Hw. apply Z.mod_pos_bound. lia. Qed.

Lemma wrap_lt w z : 0 <= w -> 0 <= wrap w z < 2 ^ w.
Proof. apply wrap_in_u. Qed.

Lemma wrap_idem w z : wrap w (wrap w z) = wrap w z.
Proof. unfold wrap. apply Zmod_mod. Qed.

Lemma div_ceil_spec a b :
  0 <= a -> 0 < b -> b * div_ceil a b - b < a <= b * div_ceil a b.
Proof.
  intros Ha Hb. unfold div_ceil.
  pose proof (Z.div_mod a b ltac:(lia)). pose proof (Z.mod_pos_bound a b Hb).
  destruct (Z.eqb_spec (a mod b) 0); nia.
Qed.

Lemma div_ceil_nonneg a b : 0 <= a -> 0 < b -> 0 <= div_ceil a b.
Proof.
  intros Ha Hb. unfold div_ceil. pose proof (Z.div_pos a b Ha Hb).
  destruct (_ =? _); lia.
Qed.

Create HintDb rust discriminated.
Create Rewrite HintDb zlen.
#[export] Hint Resolve wrap_in_u wrap_small div_ceil_nonneg : rust.

(** ** Results

    [std::result::Result], with the error type first so that [Result E] is a
    functor of its payload. *)

Inductive Result (E T : Type) : Type :=
  | Ok (x : T)
  | Err (e : E).
Arguments Ok {E T} x.
Arguments Err {E T} e.

#[export] Instance Result_eq_dec E T `{EqDecision E, EqDecision T} : EqDecision (Result E T).
Proof. solve_decision. Defined.

Definition is_ok {E T} (r : Result E T) : bool :=
  match r with Ok _ => true | Err _ => false end.

Definition result_map {E T U} (f : T -> U) (r : Result E T) : Result E U :=
  match r with Ok x => Ok (f x) | Err e => Err e end.

(** ** Stateful code

    A stateful operation takes the world and gives its result with the world it
    leaves.  [let! x := m in k] runs [m] then [k]; [let? x := m in k] is the
    question mark operator: it returns early with the error of [m]. *)

Definition M (W A : Type) : Type := W -> A * W.
Definition mret {W A} (a : A) : M W A := fun w => (a, w).
Definition mbind {W A B} (m : M W A) (k : A -> M W B) : M W B :=
  fun w => let '(a, w') := m w in k a w'.
Definition mtry {W E A B} (m : M W (Result E A)) (k : A -> M W (Result E B)) :
    M W (Result E B) :=
  mbind m (fun r => match r with Ok a => k a | Err e => mret (Err e) end).
Definition mget {W} : M W W := fun w => (w, w).
Definition mmodify {W} (f : W -> W) : M W unit := fun w => (tt, f w).

Notation "'let!' x := m 'in' k" := (mbind m (fun x => k))
  (at level 10, x pattern, m at level 100, k at level 200) : rust_scope.
Notation "'let?' x := m 'in' k" := (mtry m (fun x => k))
  (at level 10, x pattern, m at level 100, k at level 200) : rust_scope.

Lemma mbind_mret_l {W A B} (a : A) (k : A -> M W B) w : mbind (mret a) k w = k a w.
Proof. reflexivity. Qed.

Lemma mbind_assoc {W A B C} (m : M W A) (f : A -> M W B) (g : B -> M W C) w :
  mbind (mbind m f) g w = mbind m (fun a => mbind (f a) g) w.
Proof. unfold mbind. by destruct (m w). Qed.

Ltac monad_simpl := unfold mbind, mtry, mret, mget, mmodify in *; simpl in *.

(** ** Transition systems

    [rtc] is stdpp's reflexive transitive closure. *)

Section transition_systems.
Context {S : Type} (init : S -> Prop) (step : S -> S -> Prop).

Definition reachable (s : S) : Prop := exists s0, init s0 /\ rtc step s0 s.

Lemma reachable_init s : init s -> reachable s.
Proof. intros H. exists s. split; [done|apply rtc_refl]. Qed.

Lemma reachable_step s s' : reachable s -> step s s' -> reachable s'.
Proof.
  intros (s0 & Hi & Hr) Hs. exists s0. split; [done|]. by eapply rtc_r.
Qed.

Lemma rtc_invariant (I : S -> Prop) s s' :
  (forall a b, I a -> step a b -> I b) -> rtc step s s' -> I s -> I s'.
Proof. intros Hp Hr. induction Hr; eauto. Qed.

Lemma reachable_invariant (I : S -> Prop) :
  (forall s, init s -> I s) ->
  (forall a b, I a -> step a b -> I b) ->
  forall s, reachable s -> I s.
Proof. intros Hi Hp s (s0 & H0 & Hr). eapply rtc_invariant; eauto. Qed.
End transition_systems.

(** An invariant may use another invariant already proved. *)
Lemma reachable_invariant_strong {S} (init : S -> Prop) (step : S -> S -> Prop)
    (J I : S -> Prop) :
  (forall s, reachable init step s -> J s) ->
  (forall s, init s -> I s) ->
  (forall a b, J a -> I a -> step a b -> I b) ->
  forall s, reachable init step s -> I s.
Proof.
  intros HJ Hi Hp s Hs.
  apply (reachable_invariant init (fun a b => reachable init step a /\ step a b) I); eauto.
  - intros a b Ha [Hr Hst]. eauto.
  - destruct Hs as (s0 & H0 & Hr). exists s0. split; [done|].
    assert (Hs0 : reachable init step s0) by by apply reachable_init.
    clear H0. induction Hr as [|a b c Hab Hbc IH]; [apply rtc_refl|].
    eapply rtc_l; [split; eauto|]. apply IH. by eapply reachable_step.
Qed.

(** An execution is a function from [nat]; steps may be repeated states, so that a
    finite execution is one that repeats its last state.  A duty is weakly fair in
    an execution when, again and again, it is done or cannot be done. *)
Definition execution {S} (step : S -> S -> Prop) (e : nat -> S) : Prop :=
  forall i, e (1 + i)%nat = e i \/ step (e i) (e (1 + i)%nat).
Definition weakly_fair {S} (duty : S -> S -> Prop) (e : nat -> S) : Prop :=
  forall i, exists j, (i <= j)%nat /\
    (duty (e j) (e (1 + j)%nat) \/ ~ exists s', duty (e j) s').

(** What holds until the goal, with a rank that no step raises and the duty lowers:
    the duty leads to the goal after finitely many steps. *)
Lemma fair_leads {S R} (duty : S -> S -> Prop) (lt : R -> R -> Prop) (rank : S -> R)
    (P goal : S -> Prop) (e : nat -> S) i :
  weakly_fair duty e -> Acc lt (rank (e i)) -> P (e i) ->
  (forall j, (i <= j)%nat -> P (e j) -> goal (e (1 + j)%nat) \/
     P (e (1 + j)%nat) /\ (rank (e (1 + j)%nat) = rank (e j) \/ lt (rank (e (1 + j)%nat)) (rank (e j)))) ->
  (forall j, (i <= j)%nat -> P (e j) -> goal (e j) \/ exists s', duty (e j) s') ->
  (forall j, (i <= j)%nat -> P (e j) -> duty (e j) (e (1 + j)%nat) ->
     goal (e (1 + j)%nat) \/ lt (rank (e (1 + j)%nat)) (rank (e j))) ->
  exists k, (i <= k)%nat /\ goal (e k).
Proof.
  intros Hfair Hacc. remember (rank (e i)) as r eqn:Er. revert i Er.
  induction Hacc as [r _ IH]. intros i -> HP Hkeep Hlive Hduty.
  destruct (Hfair i) as (j & Hij & Hj). remember (j - i)%nat as n eqn:En.
  revert i IH HP Hkeep Hlive Hduty Hij En. induction n as [|n IHn]; intros i IH HP Hkeep Hlive Hduty Hij En;
    (destruct (Hkeep i) as [Hg|[HP' Hr]]; [lia|done|exists (1 + i)%nat; split; [lia|done]|]).
  - replace j with i in * by lia. destruct (Hlive i) as [Hg|Hd]; [lia|done|by exists i|].
    destruct Hj as [Hj|Hj]; [|done]. destruct (Hduty i) as [Hg|Hlt]; [lia|done|done|exists (1 + i)%nat; split; [lia|done]|].
    destruct (IH _ Hlt (1 + i)%nat eq_refl) as (k & Hk & Hg);
      [done|intros; apply Hkeep; [lia|done]|intros; apply Hlive; [lia|done]|intros; apply Hduty; [lia|done..]|].
    exists k. split; [lia|done].
  - destruct Hr as [Heq|Hlt].
    + destruct (IHn (1 + i)%nat) as (k & Hk & Hg); try lia; try done;
        [by rewrite Heq|intros; apply Hkeep; [lia|done]|intros; apply Hlive; [lia|done]
        |intros; apply Hduty; [lia|done..]|].
      exists k. split; [lia|done].
    + destruct (IH _ Hlt (1 + i)%nat eq_refl) as (k & Hk & Hg);
        [done|intros; apply Hkeep; [lia|done]|intros; apply Hlive; [lia|done]|intros; apply Hduty; [lia|done..]|].
      exists k. split; [lia|done].
Qed.

(** The same without a condition. *)
Lemma fair_reaches {S R} (duty : S -> S -> Prop) (lt : R -> R -> Prop) (rank : S -> R)
    (goal : S -> Prop) (e : nat -> S) i :
  weakly_fair duty e -> Acc lt (rank (e i)) ->
  (forall j, (i <= j)%nat -> rank (e (1 + j)%nat) = rank (e j) \/ lt (rank (e (1 + j)%nat)) (rank (e j))) ->
  (forall j, (i <= j)%nat -> goal (e j) \/ exists s', duty (e j) s') ->
  (forall j s', (i <= j)%nat -> duty (e j) s' -> lt (rank s') (rank (e j))) ->
  exists k, (i <= k)%nat /\ goal (e k).
Proof.
  intros Hfair Hacc Hdown Hlive Hduty.
  apply (fair_leads duty lt rank (fun _ => True) goal); eauto.
Qed.

(** With one step to do. *)
Lemma fair_ensures {S} (duty : S -> S -> Prop) (P goal : S -> Prop) (e : nat -> S) i :
  weakly_fair duty e -> P (e i) ->
  (forall j, (i <= j)%nat -> P (e j) -> goal (e (1 + j)%nat) \/ P (e (1 + j)%nat)) ->
  (forall j, (i <= j)%nat -> P (e j) -> exists s', duty (e j) s') ->
  (forall j, (i <= j)%nat -> P (e j) -> duty (e j) (e (1 + j)%nat) -> goal (e (1 + j)%nat)) ->
  exists k, (i <= k)%nat /\ goal (e k).
Proof.
  intros Hfair HP Hkeep Hlive Hduty.
  apply (fair_leads duty Nat.lt (fun _ => 0%nat) P goal); eauto using Nat.lt_wf_0.
  intros j Hj HPj. destruct (Hkeep j Hj HPj); auto.
Qed.

Lemma execution_reachable {St} (init : St -> Prop) (step : St -> St -> Prop) e i :
  execution step e -> reachable init step (e 0%nat) -> reachable init step (e i).
Proof.
  intros He H0. induction i as [|i IH]; [done|]. destruct (He i) as [Heq|Hs]; [|by eapply reachable_step].
  change (S i) with (1 + i)%nat. by rewrite Heq.
Qed.

(** A finite execution, listed, that comes to rest in [d]. *)
Fixpoint steps_to {St} (step : St -> St -> Prop) (l : list St) (d : St) : Prop :=
  match l with
  | [] => True
  | a :: l => step a (hd d l) /\ steps_to step l d
  end.

Lemma execution_steps {St} (step : St -> St -> Prop) l d :
  steps_to step l d -> execution step (fun i => nth i l d).
Proof.
  intros Hl i. revert i. induction l as [|a l IH]; intros i; [left; by destruct i|].
  destruct Hl as [Ha Hl], i as [|i]; [right|by apply (IH Hl)]. by destruct l.
Qed.

(** One that is made by a list of moves. *)
Definition run_moves {St M} (move : St -> M -> St) (s0 : St) (ms : list M) (i : nat) : St :=
  foldl move s0 (take i ms).

Lemma run_moves_end {St M} (move : St -> M -> St) s0 ms i :
  (length ms <= i)%nat -> run_moves move s0 ms i = foldl move s0 ms.
Proof. intros Hi. unfold run_moves. by rewrite take_ge. Qed.

Lemma execution_moves {St M} (step : St -> St -> Prop) (move : St -> M -> St) s0 ms :
  (forall s m, move s m = s \/ step s (move s m)) -> execution step (run_moves move s0 ms).
Proof.
  intros Hm i. unfold run_moves. destruct (ms !! i) as [m|] eqn:E.
  - change (1 + i)%nat with (Datatypes.S i). rewrite (take_S_r _ _ _ E), foldl_app. apply Hm.
  - left. apply lookup_ge_None in E. by rewrite !take_ge by lia.
Qed.

(** An execution that comes to rest is fair to a duty there is nothing left of. *)
Lemma execution_rests {St} (duty : St -> St -> Prop) (e : nat -> St) n d :
  (forall i, (n <= i)%nat -> e i = d) -> ~ (exists s', duty d s') -> weakly_fair duty e.
Proof. intros He Hd i. exists (n + i)%nat. split; [lia|right]. by rewrite He by lia. Qed.

(** A weakly fair execution seen through a function. *)
Lemma execution_map {S T} (step : S -> S -> Prop) (step' : T -> T -> Prop) (f : S -> T) e :
  execution step e -> (forall i, step (e i) (e (1 + i)%nat) ->
    f (e (1 + i)%nat) = f (e i) \/ step' (f (e i)) (f (e (1 + i)%nat))) ->
  execution step' (fun i => f (e i)).
Proof. intros He Hf i. destruct (He i) as [Heq|Hs]; [left; by rewrite Heq|by apply Hf]. Qed.

(** ** Lists *)

Lemma Forall_firstn {A} (P : A -> Prop) n l : Forall P l -> Forall P (take n l).
Proof. apply Forall_take. Qed.

Lemma take_app_le_exact {A} (l k : list A) : take (length l) (l ++ k) = l.
Proof. by rewrite take_app_length. Qed.

(** A list whose elements go down one at a time. *)
Definition one_less {A} (R : A -> A -> Prop) (l' l : list A) : Prop :=
  exists i x x', l !! i = Some x /\ R x' x /\ l' = <[i := x']> l.

Lemma Acc_one_less {A} (R : A -> A -> Prop) l : Forall (Acc R) l -> Acc (one_less R) l.
Proof.
  assert (Hcons : forall x, Acc R x -> forall l, Acc (one_less R) l -> Acc (one_less R) (x :: l)).
  { induction 1 as [x _ IHx]. induction 1 as [k Hk IHk]. constructor.
    intros l' ([|i] & y & y' & Hi & HR & ->); cbn in Hi.
    - injection Hi as ->. apply IHx; [done|by constructor].
    - change (<[S i := y']> (x :: k)) with (x :: <[i := y']> k). apply IHk. by exists i, y, y'. }
  induction 1 as [|x l Hx _ IH]; [|by apply Hcons].
  constructor. intros l' (i & x & x' & Hi & _). by rewrite lookup_nil in Hi.
Qed.

(** Length of a list as a machine length. *)
Definition zlen {A} (l : list A) : Z := Z.of_nat (length l).

Lemma zlen_nonneg {A} (l : list A) : 0 <= zlen l.
Proof. unfold zlen. lia. Qed.

Lemma zlen_app {A} (l k : list A) : zlen (l ++ k) = zlen l + zlen k.
Proof. unfold zlen. rewrite length_app. lia. Qed.

Lemma zlen_nil {A} : zlen (@nil A) = 0.
Proof. reflexivity. Qed.

Lemma zlen_cons {A} (x : A) l : zlen (x :: l) = 1 + zlen l.
Proof. unfold zlen. simpl length. lia. Qed.

#[export] Hint Rewrite @zlen_app @zlen_nil @zlen_cons : zlen.
#[export] Hint Resolve zlen_nonneg : rust.

(** Take and drop with machine-length arguments. *)
Definition ztake {A} (n : Z) (l : list A) : list A := take (Z.to_nat n) l.
Definition zdrop {A} (n : Z) (l : list A) : list A := drop (Z.to_nat n) l.

Lemma ztake_zdrop {A} n (l : list A) : ztake n l ++ zdrop n l = l.
Proof. apply take_drop. Qed.

Lemma zlen_ztake {A} n (l : list A) : 0 <= n -> zlen (ztake n l) = Z.min n (zlen l).
Proof. intros. unfold zlen, ztake. rewrite length_take. lia. Qed.

Lemma zlen_zdrop {A} n (l : list A) : 0 <= n -> zlen (zdrop n l) = Z.max 0 (zlen l - n).
Proof. intros. unfold zlen, zdrop. rewrite length_drop. lia. Qed.

Lemma ztake_all {A} n (l : list A) : zlen l <= n -> ztake n l = l.
Proof. intros. apply take_ge. unfold zlen in *. lia. Qed.

Lemma zlen_0_nil {A} (l : list A) : zlen l = 0 -> l = [].
Proof. destruct l; [done|]. rewrite zlen_cons. pose proof (zlen_nonneg l). lia. Qed.

(** Case analysis on the first [match] or [if] of a hypothesis or of the goal,
    keeping the equation, and turning boolean tests into propositions. *)
Ltac split_match :=
  match goal with
  | H : context [match ?x with _ => _ end] |- _ =>
      lazymatch x with context [match _ with _ => _ end] => fail | _ => destruct x eqn:? end
  | |- context [match ?x with _ => _ end] =>
      lazymatch x with context [match _ with _ => _ end] => fail | _ => destruct x eqn:? end
  end.

Ltac reflect_bools :=
  repeat match goal with
  | H : (_ && _)%bool = true |- _ => apply andb_true_iff in H; destruct H
  | H : (_ || _)%bool = false |- _ => apply orb_false_iff in H; destruct H
  | H : negb _ = true |- _ => apply negb_true_iff in H
  | H : negb _ = false |- _ => apply negb_false_iff in H
  | H : (_ =? _) = true |- _ => apply Z.eqb_eq in H
  | H : (_ =? _) = false |- _ => apply Z.eqb_neq in H
  | H : (_ <? _) = true |- _ => apply Z.ltb_lt in H
  | H : (_ <? _) = false |- _ => apply Z.ltb_ge in H
  | H : (_ <=? _) = true |- _ => apply Z.leb_le in H
  | H : (_ <=? _) = false |- _ => apply Z.leb_gt in H
  end.
