(* ===== verification/RustStd.v ===== *)
(** * The parts of the Rust standard library the sources use

    Text, UTF-8, integer parsing and formatting, and growable vectors.  A
    [&str] or a [String] is the list of its scalar values; [&[u8]] is a list of
    byte values.  Nothing here is code of the repository: these are the standard
    library's documented functions, written so that they compute. *)

From S2P Require Import Prelude.
From Stdlib Require Ascii String.
Local Open Scope Z_scope.

Abbreviation str := (list Z).
Abbreviation bytes := (list Z).

(** A source literal. *)
Definition lit (s : string) : str :=
  map (fun c => Z.of_nat (Ascii.nat_of_ascii c)) (String.list_ascii_of_string s).

(** ** UTF-8 *)

(** [char]: a Unicode scalar value. *)
Definition is_scalar (c : Z) : bool :=
  ((0 <=? c) && (c <? 0xD800)) || ((0xE000 <=? c) && (c <=? 0x10FFFF)).

Definition encode_char (c : Z) : bytes :=
  if c <? 0x80 then [c]
  else if c <? 0x800 then [0xC0 + c / 64; 0x80 + c mod 64]
  else if c <? 0x10000 then [0xE0 + c / 4096; 0x80 + c / 64 mod 64; 0x80 + c mod 64]
  else [0xF0 + c / 262144; 0x80 + c / 4096 mod 64; 0x80 + c / 64 mod 64; 0x80 + c mod 64].

(** [str::as_bytes]. *)
Definition as_bytes (s : str) : bytes := flat_map encode_char s.

Definition is_cont (b : Z) : bool := (0x80 <=? b) && (b <=? 0xBF).

(** The second byte allowed after a three- or four-byte lead. *)
Definition second_ok3 (b0 b1 : Z) : bool :=
  if b0 =? 0xE0 then (0xA0 <=? b1) && (b1 <=? 0xBF)
  else if b0 =? 0xED then (0x80 <=? b1) && (b1 <=? 0x9F)
  else is_cont b1.
Definition second_ok4 (b0 b1 : Z) : bool :=
  if b0 =? 0xF0 then (0x90 <=? b1) && (b1 <=? 0xBF)
  else if b0 =? 0xF4 then (0x80 <=? b1) && (b1 <=? 0x8F)
  else is_cont b1.

Definition acc2 (b0 b1 : Z) : Z := (b0 - 0xC0) * 64 + (b1 - 0x80).
Definition acc3 (b0 b1 b2 : Z) : Z := (b0 - 0xE0) * 4096 + (b1 - 0x80) * 64 + (b2 - 0x80).
Definition acc4 (b0 b1 b2 b3 : Z) : Z :=
  (b0 - 0xF0) * 262144 + (b1 - 0x80) * 4096 + (b2 - 0x80) * 64 + (b3 - 0x80).

(** One scan shared by [str::from_utf8] and [String::from_utf8_lossy]: a decoded
    scalar value, or [None] for each maximal ill-formed subsequence. *)
Fixpoint utf8_scan (bs : bytes) : list (option Z) :=
  match bs with
  | [] => []
  | b0 :: r0 =>
      if b0 <? 0x80 then Some b0 :: utf8_scan r0
      else if (0xC2 <=? b0) && (b0 <=? 0xDF) then
        match r0 with
        | b1 :: r1 =>
            if is_cont b1 then Some (acc2 b0 b1) :: utf8_scan r1
            else None :: utf8_scan r0
        | [] => [None]
        end
      else if (0xE0 <=? b0) && (b0 <=? 0xEF) then
        match r0 with
        | b1 :: r1 =>
            if second_ok3 b0 b1 then
              match r1 with
              | b2 :: r2 =>
                  if is_cont b2 then Some (acc3 b0 b1 b2) :: utf8_scan r2
                  else None :: utf8_scan r1
              | [] => [None]
              end
            else None :: utf8_scan r0
        | [] => [None]
        end
      else if (0xF0 <=? b0) && (b0 <=? 0xF4) then
        match r0 with
        | b1 :: r1 =>
            if second_ok4 b0 b1 then
              match r1 with
              | b2 :: r2 =>
                  if is_cont b2 then
                    match r2 with
                    | b3 :: r3 =>
                        if is_cont b3 then Some (acc4 b0 b1 b2 b3) :: utf8_scan r3
                        else None :: utf8_scan r2
                    | [] => [None]
                    end
                  else None :: utf8_scan r1
              | [] => [None]
              end
            else None :: utf8_scan r0
        | [] => [None]
        end
      else None :: utf8_scan r0
  end.

Fixpoint all_some {A} (l : list (option A)) : option (list A) :=
  match l with
  | [] => Some []
  | Some a :: l => match all_some l with Some r => Some (a :: r) | None => None end
  | None :: _ => None
  end.

(** [str::from_utf8(bytes).ok()] and [String::from_utf8_lossy]. *)
Definition from_utf8 (bs : bytes) : option str := all_some (utf8_scan bs).
Definition REPLACEMENT : Z := 0xFFFD.
Definition from_utf8_lossy (bs : bytes) : str := map (default REPLACEMENT) (utf8_scan bs).

(** ** Integers in text *)

Definition digit (c : Z) : option Z :=
  if (48 <=? c) && (c <=? 57) then Some (c - 48) else None.

Fixpoint parse_digits (w acc : Z) (s : str) : option Z :=
  match s with
  | [] => Some acc
  | c :: s =>
      match digit c with
      | Some d =>
          let acc := acc * 10 + d in
          if acc <=? umax w then parse_digits w acc s else None
      | None => None
      end
  end.

(** [s.parse::<uW>().ok()]: an optional plus sign, then at least one digit, no
    overflow. *)
Definition parse_uint (w : Z) (s : str) : option Z :=
  match s with
  | [] => None
  | c :: s' =>
      if (c =? 43) && negb (zlen s' =? 0) then parse_digits w 0 s' else parse_digits w 0 s
  end.

(** Decimal [Display] of an unsigned integer; the fuel is the bit length. *)
Fixpoint dec_digits (fuel : nat) (n : Z) (acc : str) : str :=
  match fuel with
  | O => acc
  | S fuel =>
      let acc := (48 + n mod 10) :: acc in
      if n <? 10 then acc else dec_digits fuel (n / 10) acc
  end.
Definition show_uint (n : Z) : str := dec_digits (S (Z.to_nat (Z.log2 n))) n [].

(** ** Text operations *)

(** [char::is_whitespace] (the [White_Space] property). *)
Definition is_whitespace (c : Z) : bool :=
  ((9 <=? c) && (c <=? 13)) || (c =? 32) || (c =? 0x85) || (c =? 0xA0) || (c =? 0x1680)
  || ((0x2000 <=? c) && (c <=? 0x200A)) || (c =? 0x2028) || (c =? 0x2029) || (c =? 0x202F)
  || (c =? 0x205F) || (c =? 0x3000).

Definition is_ascii_alphabetic (c : Z) : bool :=
  ((65 <=? c) && (c <=? 90)) || ((97 <=? c) && (c <=? 122)).

Definition to_ascii_lowercase (s : str) : str :=
  map (fun c => if (65 <=? c) && (c <=? 90) then c + 32 else c) s.

Fixpoint trim_start_matches (p : Z -> bool) (s : str) : str :=
  match s with
  | [] => []
  | c :: s' => if p c then trim_start_matches p s' else s
  end.
Definition trim_end_matches (p : Z -> bool) (s : str) : str :=
  rev (trim_start_matches p (rev s)).
Definition trim (s : str) : str :=
  trim_end_matches is_whitespace (trim_start_matches is_whitespace s).

Definition ends_with (suffix s : str) : bool :=
  bool_decide (drop (length s - length suffix) s = suffix).

(** [{:>w}] and [{:<w}] of a string. *)
Definition pad_left (w : nat) (s : str) : str := replicate (w - length s) 32 ++ s.
Definition pad_right (w : nat) (s : str) : str := s ++ replicate (w - length s) 32.

(** [s.rsplit_once(c)]. *)
Fixpoint split_once (c : Z) (s : str) : option (str * str) :=
  match s with
  | [] => None
  | d :: s =>
      if d =? c then Some ([], s)
      else match split_once c s with Some (a, b) => Some (d :: a, b) | None => None end
  end.
Definition rsplit_once (c : Z) (s : str) : option (str * str) :=
  match split_once c (rev s) with
  | Some (a, b) => Some (rev b, rev a)
  | None => None
  end.

(** ** Lemmas *)

(** Decide the integer comparisons of the goal by linear arithmetic, division
    and remainder included. *)
Ltac zarith := Z.to_euclidean_division_equations; lia.
Ltac ztests :=
  repeat match goal with
  | |- context [?a <? ?b] =>
      first [ replace (a <? b) with true by (symmetry; apply Z.ltb_lt; zarith)
            | replace (a <? b) with false by (symmetry; apply Z.ltb_ge; zarith) ]
  | |- context [?a <=? ?b] =>
      first [ replace (a <=? b) with true by (symmetry; apply Z.leb_le; zarith)
            | replace (a <=? b) with false by (symmetry; apply Z.leb_gt; zarith) ]
  | |- context [?a =? ?b] =>
      first [ replace (a =? b) with true by (symmetry; apply Z.eqb_eq; zarith)
            | replace (a =? b) with false by (symmetry; apply Z.eqb_neq; zarith) ]
  end; cbn [andb orb negb].

Lemma is_scalar_spec c :
  is_scalar c = true <-> 0 <= c < 0xD800 \/ 0xE000 <= c <= 0x10FFFF.
Proof.
  unfold is_scalar. rewrite orb_true_iff, !andb_true_iff, !Z.leb_le, !Z.ltb_lt. lia.
Qed.

Lemma second_ok3_spec b0 b1 :
  second_ok3 b0 b1 = true <->
  0x80 <= b1 <= 0xBF /\ (b0 = 0xE0 -> 0xA0 <= b1) /\ (b0 = 0xED -> b1 <= 0x9F).
Proof.
  unfold second_ok3, is_cont.
  destruct (Z.eqb_spec b0 0xE0); [|destruct (Z.eqb_spec b0 0xED)];
    rewrite andb_true_iff, !Z.leb_le; lia.
Qed.

Lemma second_ok4_spec b0 b1 :
  second_ok4 b0 b1 = true <->
  0x80 <= b1 <= 0xBF /\ (b0 = 0xF0 -> 0x90 <= b1) /\ (b0 = 0xF4 -> b1 <= 0x8F).
Proof.
  unfold second_ok4, is_cont.
  destruct (Z.eqb_spec b0 0xF0); [|destruct (Z.eqb_spec b0 0xF4)];
    rewrite andb_true_iff, !Z.leb_le; lia.
Qed.

Lemma is_cont_spec b : is_cont b = true <-> 0x80 <= b <= 0xBF.
Proof. unfold is_cont. rewrite andb_true_iff, !Z.leb_le. lia. Qed.

Lemma is_cont_intro b : 0x80 <= b <= 0xBF -> is_cont b = true.
Proof. apply is_cont_spec. Qed.

Lemma utf8_scan_encode c bs :
  is_scalar c = true -> utf8_scan (encode_char c ++ bs) = Some c :: utf8_scan bs.
Proof.
  rewrite is_scalar_spec. intros Hc. unfold encode_char.
  destruct (Z.ltb_spec c 0x80); [|destruct (Z.ltb_spec c 0x800);
    [|destruct (Z.ltb_spec c 0x10000)]];
    cbn [app utf8_scan]; ztests.
  - done.
  - rewrite is_cont_intro by zarith. do 2 f_equal. unfold acc2. zarith.
  - rewrite (proj2 (second_ok3_spec _ _)) by zarith.
    rewrite is_cont_intro by zarith. do 2 f_equal. unfold acc3. zarith.
  - rewrite (proj2 (second_ok4_spec _ _)) by zarith.
    rewrite !is_cont_intro by zarith. do 2 f_equal. unfold acc4. zarith.
Qed.

Lemma utf8_scan_as_bytes s :
  Forall (fun c => is_scalar c = true) s -> utf8_scan (as_bytes s) = map Some s.
Proof.
  induction 1 as [|c s Hc Hs IH]; [done|].
  unfold as_bytes. cbn [flat_map]. rewrite utf8_scan_encode by done.
  by cbn [map]; f_equal.
Qed.

Lemma all_some_map {A} (l : list A) : all_some (map Some l) = Some l.
Proof. induction l as [|a l IH]; [done|]. cbn. by rewrite IH. Qed.

Lemma all_some_None {A} (l : list (option A)) : all_some l = None -> None ∈ l.
Proof.
  induction l as [|[a|] l IH]; cbn; [done| |by constructor]. destruct (all_some l); [done|].
  intros _. constructor. by apply IH.
Qed.

Lemma all_some_Some {A} (l : list (option A)) r : all_some l = Some r -> l = map Some r.
Proof.
  revert r. induction l as [|[a|] l IH]; intros r H; cbn in H; [by simplify_eq|..|done].
  destruct (all_some l); [|done]. simplify_eq. cbn. by rewrite (IH _ eq_refl).
Qed.

Definition is_byte (b : Z) : Prop := 0 <= b < 256.

Lemma encode_acc2 b0 b1 :
  0xC2 <= b0 <= 0xDF -> 0x80 <= b1 <= 0xBF -> encode_char (acc2 b0 b1) = [b0; b1].
Proof.
  intros. unfold encode_char, acc2. ztests.
  f_equal; [zarith|f_equal; zarith].
Qed.

Lemma encode_acc3 b0 b1 b2 :
  0xE0 <= b0 <= 0xEF -> 0x80 <= b1 <= 0xBF -> (b0 = 0xE0 -> 0xA0 <= b1) ->
  0x80 <= b2 <= 0xBF -> encode_char (acc3 b0 b1 b2) = [b0; b1; b2].
Proof.
  intros. unfold encode_char, acc3. ztests.
  f_equal; [zarith|f_equal; [zarith|f_equal; zarith]].
Qed.

Lemma encode_acc4 b0 b1 b2 b3 :
  0xF0 <= b0 <= 0xF4 -> 0x80 <= b1 <= 0xBF -> (b0 = 0xF0 -> 0x90 <= b1) ->
  (b0 = 0xF4 -> b1 <= 0x8F) -> 0x80 <= b2 <= 0xBF -> 0x80 <= b3 <= 0xBF ->
  encode_char (acc4 b0 b1 b2 b3) = [b0; b1; b2; b3].
Proof.
  intros. unfold encode_char, acc4. ztests.
  f_equal; [zarith|f_equal; [zarith|f_equal; [zarith|f_equal; zarith]]].
Qed.

Lemma encode_ascii b : b < 0x80 -> encode_char b = [b].
Proof. intros. unfold encode_char. by ztests. Qed.

(** Side conditions of a decoded character: it is a scalar value, and encoding it
    gives the bytes back. *)
Ltac utf8_side :=
  reflect_bools; rewrite ?is_cont_spec, ?second_ok3_spec, ?second_ok4_spec in *;
  unfold is_byte in *; cbn [length] in *;
  repeat match goal with H : Forall _ (_ :: _) |- _ => apply Forall_cons in H as [? H] end;
  first [ lia | done
    | apply is_scalar_spec; unfold acc2, acc3, acc4; lia
    | first [ rewrite encode_acc2 by lia | rewrite encode_acc3 by lia
            | rewrite encode_acc4 by lia | rewrite encode_ascii by lia ]; done
    | repeat (apply Forall_cons_2; [done|]); done ].

(** Decoding inverts encoding. *)
Lemma from_utf8_as_bytes s :
  Forall (fun c => is_scalar c = true) s -> from_utf8 (as_bytes s) = Some s.
Proof. intros. unfold from_utf8. by rewrite utf8_scan_as_bytes, all_some_map. Qed.

Lemma from_utf8_lossy_as_bytes s :
  Forall (fun c => is_scalar c = true) s -> from_utf8_lossy (as_bytes s) = s.
Proof.
  intros. unfold from_utf8_lossy. rewrite utf8_scan_as_bytes by done.
  rewrite map_map. apply map_id.
Qed.

(** Every decoded character is a scalar value and encodes back to the bytes it
    was read from. *)
Lemma utf8_scan_sound bs :
  Forall is_byte bs ->
  Forall (fun o => forall c, o = Some c -> is_scalar c = true) (utf8_scan bs) /\
  (forall s, utf8_scan bs = map Some s -> as_bytes s = bs).
Proof.
  remember (length bs) as n eqn:Hn. assert (length bs <= n)%nat as Hle by lia. clear Hn.
  revert bs Hle. induction n as [|n IH]; intros bs Hle Hb.
  { destruct bs; [|simpl in Hle; lia]. split; [constructor|]. by intros [|]. }
  assert (Hbad : forall r, (length r <= n)%nat -> Forall is_byte r ->
    Forall (fun o => forall c, o = Some c -> is_scalar c = true) (None :: utf8_scan r) /\
    (forall s, None :: utf8_scan r = map Some s -> as_bytes s = bs)).
  { intros r Hr Hbr. destruct (IH r Hr Hbr) as [HF _].
    split; [by constructor|]. by intros []. }
  assert (Hgood : forall c r, (length r <= n)%nat -> Forall is_byte r ->
    is_scalar c = true -> encode_char c ++ r = bs ->
    Forall (fun o => forall c, o = Some c -> is_scalar c = true) (Some c :: utf8_scan r) /\
    (forall s, Some c :: utf8_scan r = map Some s -> as_bytes s = bs)).
  { intros c r Hr Hbr Hc He. destruct (IH r Hr Hbr) as [HF HE].
    split; [constructor; [by intros ? [= <-]|done]|].
    intros [|c' s] [= -> Hs]. rewrite <- He. cbn. f_equal. by apply HE. }
  clear IH.
  destruct bs as [|b0 r0]; [split; [constructor|]; by intros []|].
  apply Forall_cons in Hb as [Hb0 Hr0]. unfold is_byte in Hb0. cbn [length] in Hle.
  cbn [utf8_scan].
  assert (Hnone : Forall (fun o => forall c, o = Some c -> is_scalar c = true) [None] /\
    (forall s, [@None Z] = map Some s -> as_bytes s = b0 :: r0)).
  { split; [repeat constructor; done|]. by intros []. }
  repeat first [exact Hnone | split_match].
  all: first [apply Hbad | apply Hgood]; utf8_side.
Qed.

(** Decoding is exact: what it accepts is the encoding of what it returns. *)
Lemma from_utf8_sound bs s :
  Forall is_byte bs -> from_utf8 bs = Some s ->
  as_bytes s = bs /\ Forall (fun c => is_scalar c = true) s.
Proof.
  intros Hb H. apply all_some_Some in H. destruct (utf8_scan_sound bs Hb) as [HF HE].
  split; [by apply HE|]. rewrite H in HF. clear -HF.
  induction s as [|c s IH]; [constructor|]. cbn in HF.
  apply Forall_cons in HF as [Hc HF]. constructor; eauto.
Qed.

(** The lossy decoder always returns text, and agrees with the strict one. *)
Lemma from_utf8_lossy_scalar bs :
  Forall is_byte bs -> Forall (fun c => is_scalar c = true) (from_utf8_lossy bs).
Proof.
  intros Hb. destruct (utf8_scan_sound bs Hb) as [HF _]. unfold from_utf8_lossy.
  induction HF as [|[c|] l Hc HF IH]; cbn; constructor; eauto.
Qed.

Lemma from_utf8_lossy_valid bs s : from_utf8 bs = Some s -> from_utf8_lossy bs = s.
Proof.
  intros H%all_some_Some. unfold from_utf8_lossy. rewrite H, map_map. apply map_id.
Qed.

Lemma from_utf8_nil : from_utf8 [] = Some [].
Proof. reflexivity. Qed.

(** *** Integers in text *)

Lemma digit_char d : 0 <= d < 10 -> digit (48 + d) = Some d.
Proof. intros. unfold digit. ztests. f_equal. lia. Qed.

Lemma digit_Some c d : digit c = Some d -> 48 <= c <= 57 /\ d = c - 48.
Proof. unfold digit. intros. split_match; [|done]. simplify_eq. reflect_bools. lia. Qed.

Lemma parse_digits_bounds w s acc n :
  parse_digits w acc s = Some n -> 0 <= acc <= umax w -> 0 <= n <= umax w.
Proof.
  revert acc. induction s as [|c s IH]; cbn; intros acc H Hacc; [by simplify_eq|].
  destruct (digit c) as [d|] eqn:Hd; [|done]. apply digit_Some in Hd.
  destruct (Z.leb_spec (acc * 10 + d) (umax w)); [|done]. eapply IH; [done|lia].
Qed.

(** A parsed integer fits its width. *)
Lemma parse_uint_bounds w s n : 0 <= w -> parse_uint w s = Some n -> in_u w n.
Proof.
  intros Hw H.
  assert (exists s', parse_digits w 0 s' = Some n) as [s' Hs'].
  { unfold parse_uint in H. destruct s; [done|]. destruct (_ && _); eauto. }
  apply parse_digits_bounds in Hs'; unfold in_u, umax in *; [lia|].
  pose proof (Z.pow_pos_nonneg 2 w). lia.
Qed.

(** The digits of [n] come before those already produced. *)
Lemma dec_digits_app fuel n acc : dec_digits fuel n acc = dec_digits fuel n [] ++ acc.
Proof.
  revert n acc. induction fuel as [|fuel IH]; intros n acc; [done|]. cbn.
  destruct (n <? 10); [done|]. rewrite IH, (IH _ [_]), <- app_assoc. done.
Qed.

Lemma parse_digits_app w a s t :
  parse_digits w a (s ++ t) =
  match parse_digits w a s with Some b => parse_digits w b t | None => None end.
Proof.
  revert a. induction s as [|c s IH]; intros a; [done|]. cbn.
  destruct (digit c); [|done]. destruct (_ <=? _); [apply IH|done].
Qed.

Lemma parse_dec_digits w fuel n :
  0 <= n <= umax w -> n < 2 ^ Z.of_nat fuel -> (0 < fuel)%nat ->
  parse_digits w 0 (dec_digits fuel n []) = Some n.
Proof.
  revert n. induction fuel as [|fuel IH]; intros n Hn Hf Hlt; [lia|]. cbn [dec_digits].
  destruct (Z.ltb_spec n 10).
  - cbn [parse_digits]. rewrite Z.mod_small, digit_char by lia. rewrite Z.mul_0_l, Z.add_0_l.
    destruct (Z.leb_spec n (umax w)); [done|lia].
  - assert (Z.of_nat (S fuel) = Z.of_nat fuel + 1) as HS by lia.
    rewrite HS, Z.pow_add_r, Z.pow_1_r in Hf by lia.
    rewrite dec_digits_app, parse_digits_app, IH; [|zarith|zarith|destruct fuel; [cbn in Hf|]; lia].
    cbn [parse_digits]. rewrite digit_char by zarith.
    replace (n / 10 * 10 + n mod 10) with n by zarith.
    destruct (Z.leb_spec n (umax w)); [done|lia].
Qed.

Lemma dec_digits_head fuel n :
  0 <= n -> (0 < fuel)%nat -> exists c s, dec_digits fuel n [] = c :: s /\ 48 <= c <= 57.
Proof.
  revert n. induction fuel as [|fuel IH]; intros n Hn Hf; [lia|]. cbn [dec_digits].
  destruct (n <? 10); [do 2 eexists; split; [done|zarith]|].
  rewrite dec_digits_app. destruct fuel as [|fuel]; [cbn; do 2 eexists; split; [done|zarith]|].
  destruct (IH (n / 10)) as (c & s & -> & Hc); [zarith|lia|]. cbn. eauto.
Qed.

(** Formatting then parsing an unsigned integer is the identity. *)
Lemma parse_show_uint w n : in_u w n -> parse_uint w (show_uint n) = Some n.
Proof.
  intros Hn. unfold show_uint. set (fuel := S _).
  assert (n < 2 ^ Z.of_nat fuel) as Hf.
  { unfold fuel. rewrite Nat2Z.inj_succ, Z2Nat.id by apply Z.log2_nonneg.
    destruct (Z.eq_dec n 0) as [->|]; [by cbn|]. apply Z.log2_spec. unfold in_u in Hn. lia. }
  assert (parse_digits w 0 (dec_digits fuel n []) = Some n) as Hp.
  { apply parse_dec_digits; unfold in_u, umax, fuel in *; lia. }
  destruct (dec_digits_head fuel n) as (c & s & He & Hc); [unfold in_u in Hn; lia|unfold fuel; lia|].
  rewrite He in *. unfold parse_uint. destruct (Z.eqb_spec c 43); [lia|done].
Qed.

(** ** [Vec<u8>]

    A vector is its contents and its capacity.  How far an allocation grows is
    the standard library's choice: the documented guarantee is a class, and the
    policy of the current allocator an instance. *)

Record Vec := mkVec { vec_data : bytes; vec_cap : Z }.

Class VecAlloc := {
  (** New capacity of a vector of capacity [cap] and length [len] that must take
      [additional] more bytes and has no room for them. *)
  amortized_cap : Z -> Z -> Z -> Z;
  exact_cap : Z -> Z -> Z -> Z;
}.

Class VecAllocLaws `{VecAlloc} : Prop := {
  amortized_cap_enough : forall cap len add, len + add <= amortized_cap cap len add;
  exact_cap_enough : forall cap len add, len + add <= exact_cap cap len add;
}.

Section vec.
Context `{VecAlloc}.

Definition vec_new : Vec := mkVec [] 0.
Definition vec_len (v : Vec) : Z := zlen (vec_data v).
(** [Vec::reserve] and [Vec::reserve_exact]: nothing happens when there is room. *)
Definition vec_reserve (v : Vec) (additional : Z) : Vec :=
  if additional <=? vec_cap v - vec_len v then v
  else mkVec (vec_data v) (amortized_cap (vec_cap v) (vec_len v) additional).
Definition vec_reserve_exact (v : Vec) (additional : Z) : Vec :=
  if additional <=? vec_cap v - vec_len v then v
  else mkVec (vec_data v) (exact_cap (vec_cap v) (vec_len v) additional).
Definition vec_extend (v : Vec) (s : bytes) : Vec :=
  let v := vec_reserve v (zlen s) in mkVec (vec_data v ++ s) (vec_cap v).
Definition vec_clear (v : Vec) : Vec := mkVec [] (vec_cap v).

Definition vec_wf (v : Vec) : Prop := vec_len v <= vec_cap v.

Lemma vec_reserve_data v n : vec_data (vec_reserve v n) = vec_data v.
Proof. unfold vec_reserve. by split_match. Qed.
Lemma vec_reserve_exact_data v n : vec_data (vec_reserve_exact v n) = vec_data v.
Proof. unfold vec_reserve_exact. by split_match. Qed.
Lemma vec_extend_data v s : vec_data (vec_extend v s) = vec_data v ++ s.
Proof. unfold vec_extend. cbn. by rewrite vec_reserve_data. Qed.

Context `{!VecAllocLaws}.

Lemma vec_reserve_room v n : n <= vec_cap (vec_reserve v n) - vec_len v.
Proof.
  unfold vec_reserve. destruct (Z.leb_spec n (vec_cap v - vec_len v)); [lia|]. cbn.
  pose proof (amortized_cap_enough (vec_cap v) (vec_len v) n). lia.
Qed.
Lemma vec_reserve_exact_room v n : n <= vec_cap (vec_reserve_exact v n) - vec_len v.
Proof.
  unfold vec_reserve_exact. destruct (Z.leb_spec n (vec_cap v - vec_len v)); [lia|]. cbn.
  pose proof (exact_cap_enough (vec_cap v) (vec_len v) n). lia.
Qed.
Lemma vec_extend_wf v s : vec_wf (vec_extend v s).
Proof.
  unfold vec_wf, vec_extend, vec_len. cbn [vec_data vec_cap].
  rewrite vec_reserve_data, zlen_app.
  pose proof (vec_reserve_room v (zlen s)). unfold vec_len in *. lia.
Qed.
End vec.

(** [RawVec]'s policy for one-byte elements. *)
#[export] Instance raw_vec : VecAlloc := {
  amortized_cap cap len add := Z.max 8 (Z.max (cap * 2) (len + add));
  exact_cap _ len add := len + add;
}.

#[export] Instance raw_vec_laws : VecAllocLaws.
Proof. split; cbn; lia. Qed.

#[export] Hint Rewrite @vec_reserve_data @vec_reserve_exact_data @vec_extend_data : zlen.
