(* ===== verification/Float64.v ===== *)
(** * Binary64 arithmetic

    What the sources use of [f64]: conversions, arithmetic, comparisons, [min] and
    [max], the text of a number with a fixed number of decimals, its parsing, and
    [Duration].  The operations are those of the Standard Library's bit-exact
    [SpecFloat]; the facts about them are proved here, in integers: every finite
    binary64 number is a whole number of units of 2^-1074. *)

From S2P Require Import Prelude RustStd.
From Stdlib Require Import Floats.SpecFloat.
Set Warnings "-clear-no-such-hyp".
#[local] Open Scope Z_scope.
#[local] Open Scope rust_scope.

Abbreviation f64 := spec_float.

(** [n as f64]. *)
Definition f64_of (n : Z) : f64 := binary_normalize 53 1024 n 0 false.
Definition f64_add : f64 -> f64 -> f64 := SFadd 53 1024.
Definition f64_sub : f64 -> f64 -> f64 := SFsub 53 1024.
Definition f64_mul : f64 -> f64 -> f64 := SFmul 53 1024.
Definition f64_div : f64 -> f64 -> f64 := SFdiv 53 1024.
Definition f64_abs : f64 -> f64 := SFabs.
(** [x < y], [x <= y]; [x > y] and [x >= y] are these with the sides swapped. *)
Definition f64_lt (x y : f64) : bool := SFltb x y.
Definition f64_le (x y : f64) : bool := SFleb x y.
(** The literal [a / b] for small integers, as in [1.35]: division rounds
    correctly, so this is the float nearest to the decimal. *)
Definition f64_lit (a b : Z) : f64 := f64_div (f64_of a) (f64_of b).

Definition is_nan (x : f64) : bool := match x with S754_nan => true | _ => false end.
Definition is_finite (x : f64) : bool :=
  match x with S754_zero _ | S754_finite _ _ _ => true | _ => false end.
Definition sign_of (x : f64) : bool :=
  match x with S754_zero s | S754_infinity s | S754_finite s _ _ => s | S754_nan => false end.

(** [f64::min], [f64::max]: a NaN gives way to the other operand. *)
Definition f64_min (x y : f64) : f64 :=
  if is_nan x then y else if is_nan y then x else if f64_lt y x then y else x.
Definition f64_max (x y : f64) : f64 :=
  if is_nan x then y else if is_nan y then x else if f64_lt x y then y else x.

Definition INFINITY : f64 := S754_infinity false.
Definition NEG_INFINITY : f64 := S754_infinity true.
Definition MIN_POSITIVE : f64 := S754_finite false (2 ^ 52) (-1074).
Definition EPSILON : f64 := S754_finite false (2 ^ 52) (-104).

(** [x as usize]: truncates towards zero and saturates; NaN gives 0. *)
Definition f64_as_usize (x : f64) : Z :=
  match x with
  | S754_finite false m e =>
      Z.min (umax 64) (if 0 <=? e then Z.pos m * 2 ^ e else Z.pos m / 2 ^ (- e))
  | S754_infinity false => umax 64
  | _ => 0
  end.

(** A finite number in units of 2^-1074. *)
Definition UNIT : Z := 2 ^ 1074.
Definition units (x : f64) : Z :=
  match x with
  | S754_finite s m e => cond_Zopp s (Z.pos m * 2 ^ (e + 1074))
  | _ => 0
  end.
Definition valid (x : f64) : bool := valid_binary 53 1024 x.

(** The integer nearest to [a / b], ties to even. *)
Definition rne (a b : Z) : Z :=
  match 2 * (a mod b) ?= b with
  | Lt => a / b
  | Eq => if Z.even (a / b) then a / b else a / b + 1
  | Gt => a / b + 1
  end.

(** ** Text *)

Definition pad_zeros (k : nat) (s : str) : str := replicate (k - length s) 48 ++ s.

(** [format!("{x:.k}")]: the exact value, rounded to [k] decimals. *)
Definition show_fixed (k : nat) (x : f64) : str :=
  (if sign_of x then lit "-" else []) ++
  match x with
  | S754_nan => lit "NaN"
  | S754_infinity _ => lit "inf"
  | _ =>
      let q := rne (Z.abs (units x) * 10 ^ Z.of_nat k) UNIT in
      show_uint (q / 10 ^ Z.of_nat k) ++
      match k with
      | O => []
      | _ => lit "." ++ pad_zeros k (show_uint (q mod 10 ^ Z.of_nat k))
      end
  end.

(** [m * 10^k], correctly rounded. *)
Definition f64_decimal (s : bool) (m k : Z) : f64 :=
  if m <=? 0 then S754_zero s
  else if 0 <=? k then
    match m * 10 ^ k with
    | Z.pos p => binary_round 53 1024 s p 0
    | _ => S754_zero s
    end
  else
    let '(q, e, l) := SFdiv_core_binary 53 1024 m 0 (10 ^ (- k)) 0 in
    binary_round_aux 53 1024 s q e l.

(** The longest prefix of digits: its value, its length and the rest. *)
Fixpoint scan_digits (acc : Z) (n : nat) (s : str) : Z * nat * str :=
  match s with
  | [] => (acc, n, [])
  | c :: r =>
      match digit c with
      | Some d => scan_digits (acc * 10 + d) (S n) r
      | None => (acc, n, s)
      end
  end.

Definition scan_sign (s : str) : bool * str :=
  match s with
  | c :: r => if c =? 45 then (true, r) else if c =? 43 then (false, r) else (false, s)
  | [] => (false, [])
  end.

(** An exponent, which must take the whole rest. *)
Definition scan_exponent (s : str) : option Z :=
  match s with
  | [] => Some 0
  | c :: r =>
      if (c =? 101) || (c =? 69) then
        let '(neg, r) := scan_sign r in
        let '(v, n, rest) := scan_digits 0 0 r in
        match n, rest with
        | S _, [] => Some (if neg then - v else v)
        | _, _ => None
        end
      else None
  end.

(** [str::parse::<f64>]. *)
Definition parse_f64 (s : str) : option f64 :=
  let '(neg, r) := scan_sign s in
  let word := to_ascii_lowercase r in
  if bool_decide (word = lit "inf") || bool_decide (word = lit "infinity") then
    Some (S754_infinity neg)
  else if bool_decide (word = lit "nan") then Some S754_nan
  else
    let '(v, n, r) := scan_digits 0 0 r in
    let '(v, n, frac, r) :=
      match r with
      | c :: r' =>
          if c =? 46 then
            let '(v', n', r') := scan_digits v 0 r' in (v', (n + n')%nat, Z.of_nat n', r')
          else (v, n, 0, r)
      | [] => (v, n, 0, [])
      end in
    match n, scan_exponent r with
    | S _, Some e => Some (f64_decimal neg v (e - frac))
    | _, _ => None
    end.

(** ** Durations, in nanoseconds *)

Definition NANOS : Z := 1000000000.
(** [Duration::MAX]. *)
Definition DURATION_MAX : Z := umax 64 * NANOS + 999999999.

(** [Duration::as_secs_f64]. *)
Definition as_secs_f64 (d : Z) : f64 :=
  f64_add (f64_of (d / NANOS)) (f64_div (f64_of (d mod NANOS)) (f64_of NANOS)).

(** [Duration::from_secs_f64]; [None]: it panics. *)
Definition from_secs_f64 (x : f64) : option Z :=
  match x with
  | S754_zero _ => Some 0
  | S754_finite false _ _ =>
      if units x <? 2 ^ 64 * UNIT then Some (rne (units x * NANOS) UNIT) else None
  | _ => None
  end.

Example show_fixed_tests :
  show_fixed 0 (f64_lit 1 2) = lit "0" /\ show_fixed 0 (f64_lit 3 2) = lit "2" /\
  show_fixed 2 (f64_lit 1 3) = lit "0.33" /\ show_fixed 1 (f64_lit 1999 100) = lit "20.0" /\
  show_fixed 4 (f64_lit 1 100) = lit "0.0100" /\ show_fixed 1 (S754_zero true) = lit "-0.0".
Proof. vm_compute. repeat split. Qed.

Example parse_f64_tests :
  parse_f64 (lit "3") = Some (f64_of 3) /\ parse_f64 (lit "-2.5e1") = Some (f64_of (-25)) /\
  parse_f64 (lit ".5") = Some (f64_lit 1 2) /\ parse_f64 (lit "5.") = Some (f64_of 5) /\
  parse_f64 (lit ".") = None /\ parse_f64 [] = None /\ parse_f64 (lit "1e") = None /\
  parse_f64 (lit "0.1") = Some (f64_lit 1 10) /\ parse_f64 (lit "+Inf") = Some INFINITY /\
  parse_f64 (lit "1e400") = Some INFINITY /\ parse_f64 (lit "1e-400") = Some (S754_zero false).
Proof. vm_compute. repeat split. Qed.

Example duration_tests :
  from_secs_f64 (f64_lit 5 2) = Some 2500000000 /\ from_secs_f64 (f64_lit 1 10) = Some 100000000 /\
  from_secs_f64 (f64_of (2 ^ 64)) = None /\ as_secs_f64 1500000000 = f64_lit 3 2.
Proof. vm_compute. repeat split. Qed.

(** ** Rounding an integer ratio *)

Section rne_facts.
Context (a b : Z).
Hypothesis Hb : 0 < b.

Lemma rne_cases : rne a b = a / b \/ (rne a b = a / b + 1 /\ b <= 2 * (a mod b)).
Proof.
  unfold rne. destruct (Z.compare_spec (2 * (a mod b)) b) as [E|E|E]; auto with lia.
  destruct (Z.even (a / b)); auto with lia.
Qed.

Lemma rne_le y : a <= y * b -> rne a b <= y.
Proof.
  intros Hy. pose proof (Z.div_mod a b ltac:(lia)). pose proof (Z.mod_pos_bound a b Hb).
  destruct rne_cases as [->|[-> Hr]]; nia.
Qed.

Lemma rne_ge y : y * b <= a -> y <= rne a b.
Proof.
  intros Hy. pose proof (Z.div_le_lower_bound a b y Hb ltac:(lia)).
  destruct rne_cases as [->|[-> _]]; lia.
Qed.

(** The rounded value is within half of the divisor. *)
Lemma rne_near : Z.abs (2 * (b * rne a b - a)) <= b.
Proof.
  pose proof (Z.div_mod a b ltac:(lia)). pose proof (Z.mod_pos_bound a b Hb).
  unfold rne. destruct (Z.compare_spec (2 * (a mod b)) b) as [E|E|E];
    [destruct (Z.even (a / b))| |]; nia.
Qed.

(** The rounding of more is not less. *)
Lemma rne_mono a' : a <= a' -> rne a b <= rne a' b.
Proof.
  intros Ha. pose proof (Z.div_le_mono a a' b Hb Ha) as Hq.
  destruct (Z.le_gt_cases (a' / b) (a / b)) as [Hge|Hlt].
  - pose proof (Z.div_mod a b ltac:(lia)). pose proof (Z.div_mod a' b ltac:(lia)).
    assert (Heq : a' / b = a / b) by lia. unfold rne. rewrite Heq in *.
    destruct (Z.compare_spec (2 * (a mod b)) b), (Z.compare_spec (2 * (a' mod b)) b),
      (Z.even (a / b)); lia.
  - assert (rne a b <= a' / b); [|assert (a' / b <= rne a' b)]; [| |lia].
    + unfold rne. destruct (2 * (a mod b) ?= b), (Z.even (a / b)); lia.
    + unfold rne. destruct (2 * (a' mod b) ?= b), (Z.even (a' / b)); lia.
Qed.

(** Less than half below is as good. *)
Lemma rne_ge_near y : 2 * (y * b - a) < b -> y <= rne a b.
Proof. intros Hy. pose proof rne_near. nia. Qed.
End rne_facts.

Lemma rne_exact y b : 0 < b -> rne (y * b) b = y.
Proof.
  intros Hb. pose proof (rne_le (y * b) b Hb y ltac:(lia)).
  pose proof (rne_ge (y * b) b Hb y ltac:(lia)). lia.
Qed.

Lemma rne_nonneg a b : 0 < b -> 0 <= a -> 0 <= rne a b.
Proof. intros Hb Ha. apply rne_ge; lia. Qed.

Lemma rne_scale a b c : 0 < b -> 0 < c -> rne (a * c) (b * c) = rne a b.
Proof.
  intros Hb Hc. unfold rne. rewrite Z.div_mul_cancel_r, Z.mul_mod_distr_r by lia.
  replace (2 * (a mod b * c)) with (2 * (a mod b) * c) by lia.
  by rewrite <- (Zmult_compare_compat_r _ b c) by lia.
Qed.

(** ** Rounding to 53 bits *)

(** Where [num / den] lies between two integers. *)
Definition loc_of (r den : Z) : location :=
  if r =? 0 then loc_Exact else loc_Inexact (2 * r ?= den).
Definition located (num den m : Z) (l : location) : Prop :=
  0 < den /\ 0 <= num /\ m = num / den /\ l = loc_of (num mod den) den.

Lemma located_exact m : 0 <= m -> located m 1 m loc_Exact.
Proof. intros Hm. repeat split; try lia. by rewrite Z.div_1_r. by rewrite Z.mod_1_r. Qed.

Lemma new_location_spec den r : 0 < den -> 0 <= r < den -> new_location den r = loc_of r den.
Proof.
  intros Hd Hr. unfold new_location, new_location_even, new_location_odd, loc_of.
  destruct (Z.even den) eqn:E; destruct (r =? 0); try done. f_equal.
  destruct (Z.compare_spec (2 * r + 1) den) as [?|?|?];
    destruct (Z.compare_spec (2 * r) den) as [?|?|?]; try done; try lia.
  subst den. rewrite Z.even_mul in E. done.
Qed.

Lemma rne_located num den m l : located num den m l -> round_nearest_even m l = rne num den.
Proof.
  intros (Hd & Hn & -> & ->). unfold loc_of, rne.
  destruct (Z.eqb_spec (num mod den) 0) as [->|Hr]; cbn [round_nearest_even].
  - destruct (Z.compare_spec (2 * 0) den); done || lia.
  - by destruct (2 * (num mod den) ?= den).
Qed.

Definition located_rec (num den : Z) (s : shr_record) : Prop :=
  located num den (shr_m s) (loc_of_shr_record s).

Lemma located_rec_of num den m l : located num den m l -> located_rec num den (shr_record_of_loc m l).
Proof.
  intros H. unfold located_rec. destruct l as [|[]]; exact H.
Qed.

Lemma shr_1_spec num den s : located_rec num den s -> located_rec num (den * 2) (shr_1 s).
Proof.
  intros (Hd & Hn & Hm & Hl). pose proof (Z.div_mod num den ltac:(lia)) as Hdm.
  pose proof (Z.mod_pos_bound num den Hd) as Hr. destruct s as [m r t]; cbn [shr_m] in Hm.
  assert (Hm0 : 0 <= m) by (subst m; by apply Z.div_pos).
  (* the half that is shifted out *)
  assert (Hsplit : exists h b, m = 2 * h + b /\ 0 <= h /\ (b = 0 \/ b = 1) /\
    shr_1 (Build_shr_record m r t) = Build_shr_record h (b =? 1) (r || t)).
  { destruct m as [|[p|p|]|]; [exists 0, 0|exists (Z.pos p), 1|exists (Z.pos p), 0|exists 0, 1|lia];
      repeat split; auto; lia. }
  destruct Hsplit as (h & b & Hmb & Hh & Hb & ->).
  assert (Hq : num = den * 2 * h + (den * b + num mod den)) by nia.
  assert (Hlt : 0 <= den * b + num mod den < den * 2) by nia.
  assert (Hdiv : num / (den * 2) = h) by (symmetry; apply (Z.div_unique_pos _ _ _ _ Hlt Hq)).
  assert (Hmod : num mod (den * 2) = den * b + num mod den)
    by (symmetry; apply (Z.mod_unique_pos _ _ _ _ Hlt Hq)).
  split; [lia|]. split; [done|]. cbn [shr_m]. split; [done|]. rewrite Hmod.
  unfold loc_of in *. clear Hmod Hq Hdm Hlt. revert Hl Hr. generalize (num mod den). intros x Hl Hr.
  assert (Hrt : (r || t) = negb (x =? 0)).
  { destruct r, t; cbn in Hl; destruct (x =? 0) eqn:E; cbn; congruence. }
  rewrite Hrt. clear Hl Hrt. destruct (Z.eqb_spec x 0) as [Hx|Hx]; destruct Hb as [-> | ->]; cbn [negb];
    try rewrite Hx.
  - by replace (den * 0 + 0) with 0 by lia.
  - rewrite (proj2 (Z.eqb_neq (den * 1 + 0) 0)) by lia. cbn.
    replace (2 * (den * 1 + 0)) with (den * 2) by lia. by rewrite Z.compare_refl.
  - rewrite (proj2 (Z.eqb_neq (den * 0 + x) 0)) by lia. cbn.
    by rewrite (proj2 (Z.compare_lt_iff (2 * (den * 0 + x)) (den * 2))) by lia.
  - rewrite (proj2 (Z.eqb_neq (den * 1 + x) 0)) by lia. cbn.
    by rewrite (proj2 (Z.compare_gt_iff (2 * (den * 1 + x)) (den * 2))) by lia.
Qed.

Lemma iter_pos_nat {A} (f : A -> A) p x : iter_pos f p x = Nat.iter (Pos.to_nat p) f x.
Proof.
  revert x. induction p as [p IH|p IH|]; intros x; cbn [iter_pos]; [| |done];
    rewrite !IH, <- Nat.iter_add.
  - rewrite Pos2Nat.inj_xI. cbn [Nat.mul]. rewrite Nat.add_0_r.
    change (Nat.iter (S ?n) f x) with (f (Nat.iter n f x)). by rewrite <- Nat.iter_succ_r.
  - rewrite Pos2Nat.inj_xO. cbn [Nat.mul]. by rewrite Nat.add_0_r.
Qed.

Lemma shr_spec num den s e n :
  located_rec num den s -> 0 <= n ->
  located_rec num (den * 2 ^ n) (shr s e n).1 /\ (shr s e n).2 = e + n.
Proof.
  intros Hs Hn. destruct n as [|p|p]; [|clear Hn|lia]; cbn [shr].
  { rewrite Z.pow_0_r, Z.mul_1_r, Z.add_0_r. done. }
  split; [|done]. cbn [fst]. rewrite iter_pos_nat, <- (positive_nat_Z p).
  induction (Pos.to_nat p) as [|k IH].
  - by rewrite Z.pow_0_r, Z.mul_1_r.
  - rewrite Nat2Z.inj_succ, Z.pow_succ_r, (Z.mul_comm 2), Z.mul_assoc by lia.
    cbn [Nat.iter]. by apply shr_1_spec.
Qed.

Lemma digits2_pos_log2 m : Z.pos (digits2_pos m) = Z.log2 (Z.pos m) + 1.
Proof.
  induction m as [m IH|m IH|]; cbn [digits2_pos]; [| |done]; rewrite Pos2Z.inj_succ, IH.
  - rewrite Pos2Z.inj_xI, Z.log2_succ_double; lia.
  - rewrite Pos2Z.inj_xO, Z.log2_double; lia.
Qed.

(** The number of binary digits. *)
Lemma digits_bounds m : 0 < m -> 0 < Zdigits2 m /\ 2 ^ (Zdigits2 m - 1) <= m < 2 ^ Zdigits2 m.
Proof.
  destruct m as [|p|p]; try lia. intros _. cbn [Zdigits2]. rewrite digits2_pos_log2.
  pose proof (Z.log2_spec (Z.pos p) ltac:(lia)) as [H1 H2].
  pose proof (Z.log2_nonneg (Z.pos p)). rewrite Z.add_simpl_r. split; [lia|].
  unfold Z.succ in H2. done.
Qed.

Lemma digits_le m k : 0 <= m < 2 ^ k -> 0 <= k -> Zdigits2 m <= k.
Proof.
  intros Hm Hk. destruct (Z.eq_dec m 0) as [->|Hm0]; [done|].
  pose proof (digits_bounds m ltac:(lia)) as (Hd & H1 & _).
  destruct (Z.le_gt_cases (Zdigits2 m) k); [done|].
  pose proof (Z.pow_le_mono_r 2 k (Zdigits2 m - 1)). lia.
Qed.

Lemma digits_ge m k : 0 < k -> 2 ^ (k - 1) <= m -> k <= Zdigits2 m.
Proof.
  intros Hk Hm. assert (0 < m) by (pose proof (Z.pow_pos_nonneg 2 (k - 1)); lia).
  pose proof (digits_bounds m ltac:(done)) as (Hd & _ & H2).
  destruct (Z.le_gt_cases k (Zdigits2 m)); [done|].
  pose proof (Z.pow_le_mono_r 2 (Zdigits2 m) (k - 1)). lia.
Qed.

Lemma fexp_eq e : fexp 53 1024 e = Z.max (e - 53) (-1074).
Proof. done. Qed.

(** A canonical pair of mantissa and exponent. *)
Lemma bounded_spec m e :
  bounded 53 1024 m e = true <->
  Z.pos m < 2 ^ 53 /\ -1074 <= e <= 971 /\ (2 ^ 52 <= Z.pos m \/ e = -1074).
Proof.
  unfold bounded, canonical_mantissa. rewrite andb_true_iff, Z.eqb_eq, Z.leb_le, fexp_eq.
  change (1024 - 53) with 971. pose proof (digits_bounds (Z.pos m) ltac:(lia)) as (Hd & H1 & H2).
  cbn [Zdigits2] in *. set (d := Z.pos (digits2_pos m)) in *. split.
  - intros [He He2]. assert (Hd53 : d <= 53) by lia.
    pose proof (Z.pow_le_mono_r 2 d 53). split; [lia|]. split; [lia|].
    destruct (Z.eq_dec e (-1074)); [by right|left]. by replace 52 with (d - 1) by lia.
  - intros (Hm & He & Hc). split; [|lia].
    pose proof (digits_le (Z.pos m) 53 ltac:(lia) ltac:(lia)) as Hd53. cbn [Zdigits2] in Hd53.
    destruct Hc as [Hc| ->]; [|lia].
    pose proof (digits_ge (Z.pos m) 53 ltac:(lia) Hc) as Hd'. cbn [Zdigits2] in Hd'. lia.
Qed.

(** What rounding [num / den * 2^ex] gives: the nearest number of the format, or
    an infinity when that is too large. *)
Definition rounds_to (sx : bool) (m' e' : Z) (x : f64) : Prop :=
  valid x = true /\
  ((m' = 0 /\ x = S754_zero sx) \/
   (exists m e, x = S754_finite sx m e /\ Z.pos m * 2 ^ (e + 1074) = m' * 2 ^ (e' + 1074)) \/
   (x = S754_infinity sx /\ 2 ^ 2098 <= m' * 2 ^ (e' + 1074))).

Lemma grid_le num den mx lx ex :
  located num den mx lx -> let e' := fexp 53 1024 (Zdigits2 mx + ex) in ex <= e' ->
  num <= 2 ^ 53 * (den * 2 ^ (e' - ex)).
Proof.
  intros (Hd & Hn & Hm & _) e' He. pose proof (Z.div_mod num den ltac:(lia)) as Hdm.
  pose proof (Z.mod_pos_bound num den Hd). rewrite <- Hm in Hdm.
  pose proof (Z.div_pos num den Hn Hd) as Hm0. rewrite <- Hm in Hm0.
  assert (Hlt : mx < 2 ^ (53 + (e' - ex))).
  { destruct (Z.eq_dec mx 0) as [->|Hmx]; [apply Z.pow_pos_nonneg; lia|].
    pose proof (digits_bounds mx ltac:(lia)) as (Hd0 & _ & H2). eapply Z.lt_le_trans; [exact H2|].
    apply Z.pow_le_mono_r; [lia|]. unfold e'. rewrite fexp_eq. lia. }
  rewrite Z.pow_add_r in Hlt by lia. nia.
Qed.

Lemma grid_ge num den mx lx ex :
  located num den mx lx -> let e' := fexp 53 1024 (Zdigits2 mx + ex) in
  ex <= e' -> -1074 < e' -> 2 ^ 52 * (den * 2 ^ (e' - ex)) <= num.
Proof.
  intros (Hd & Hn & Hm & _) e' He Hmin. pose proof (Z.div_mod num den ltac:(lia)) as Hdm.
  pose proof (Z.mod_pos_bound num den Hd). rewrite <- Hm in Hdm.
  pose proof (Z.div_pos num den Hn Hd) as Hm0. rewrite <- Hm in Hm0.
  unfold e' in *. rewrite fexp_eq in *.
  destruct (Z.eq_dec mx 0) as [->|Hmx]; [cbn [Zdigits2] in *; lia|].
  pose proof (digits_bounds mx ltac:(lia)) as (Hd0 & H1 & _).
  replace (Z.max (Zdigits2 mx + ex - 53) (-1074) - ex) with (Zdigits2 mx - 53) in * by lia.
  replace (Zdigits2 mx - 1) with (52 + (Zdigits2 mx - 53)) in H1 by lia.
  rewrite Z.pow_add_r in H1 by lia. nia.
Qed.

Lemma round_aux_spec num den mx lx ex sx :
  located num den mx lx ->
  let e' := fexp 53 1024 (Zdigits2 mx + ex) in
  ex <= e' ->
  rounds_to sx (rne num (den * 2 ^ (e' - ex))) e' (binary_round_aux 53 1024 sx mx ex lx).
Proof.
  intros Hloc e' He. pose proof Hloc as (Hd & Hn & _).
  pose proof (grid_le _ _ _ _ ex Hloc He) as Hle. pose proof (grid_ge _ _ _ _ ex Hloc He) as Hge.
  fold e' in Hle, Hge. cbn zeta in Hge.
  assert (Hn0 : 0 < den * 2 ^ (e' - ex)) by (pose proof (Z.pow_pos_nonneg 2 (e' - ex)); nia).
  assert (Hmin : -1074 <= e') by (unfold e'; rewrite fexp_eq; lia).
  unfold binary_round_aux, shr_fexp. fold e'.
  destruct (shr_spec num den (shr_record_of_loc mx lx) ex (e' - ex)) as [H1 H2];
    [by apply located_rec_of|lia|].
  destruct (shr (shr_record_of_loc mx lx) ex (e' - ex)) as [mrs ex']. cbn [fst snd] in H1, H2.
  replace (ex + (e' - ex)) with e' in H2 by lia. subst ex'. rewrite (rne_located _ _ _ _ H1).
  set (m' := rne num (den * 2 ^ (e' - ex))) in *.
  assert (Hm0 : 0 <= m') by (by apply rne_nonneg).
  assert (Hm53 : m' <= 2 ^ 53) by (apply rne_le; lia).
  assert (Hm52 : -1074 < e' -> 2 ^ 52 <= m') by (intros; apply rne_ge; [lia|]; by apply Hge).
  clearbody m'. clear Hle Hge Hloc H1 mrs. rewrite fexp_eq.
  destruct (Z.eq_dec m' (2 ^ 53)) as [->|Hne].
  - change (Zdigits2 (2 ^ 53)) with 54. replace (Z.max (54 + e' - 53) (-1074) - e') with 1 by lia.
    change (shr (shr_record_of_loc (2 ^ 53) loc_Exact) e' 1) with
      ({| shr_m := Z.pos (2 ^ 52); shr_r := false; shr_s := false |}, e' + 1).
    cbn [shr_m]. destruct (Z.leb_spec (e' + 1) (1024 - 53)) as [Hov|Hov].
    + split; [apply bounded_spec; split; [lia|]; split; [lia|left; lia]|]. right. left.
      do 2 eexists. split; [done|]. replace (e' + 1 + 1074) with (1 + (e' + 1074)) by lia.
      rewrite (Z.pow_add_r 2 1) by lia. change (Z.pos (2 ^ 52)) with (2 ^ 52). lia.
    + split; [done|]. right. right. split; [done|].
      pose proof (Z.pow_le_mono_r 2 2045 (e' + 1074)). lia.
  - pose proof (digits_le m' 53 ltac:(lia) ltac:(lia)).
    assert (Hid : forall s : shr_record, shr s e' (Z.max (Zdigits2 m' + e' - 53) (-1074) - e') = (s, e')).
    { intros s. unfold shr. destruct (Z.max _ _ - e') eqn:E; [done|lia|done]. }
    rewrite Hid. cbn [shr_m shr_record_of_loc]. destruct m' as [|p|p]; [|clear Hm0|lia].
    { split; [done|]. by left. }
    destruct (Z.leb_spec e' (1024 - 53)) as [Hov|Hov].
    + split; [apply bounded_spec; split; [lia|]; split; lia|]. right. left. by do 2 eexists.
    + split; [done|]. right. right. split; [done|].
      pose proof (Z.pow_le_mono_r 2 2046 (e' + 1074)). lia.
Qed.

(** ** Order *)

(** The place of a number that is not a NaN on the line, infinities included. *)
Definition rank (x : f64) : Z :=
  match x with S754_infinity s => cond_Zopp s (2 ^ 2098) | _ => units x end.

Lemma units_pos m e : -1074 <= e -> 0 < Z.pos m * 2 ^ (e + 1074).
Proof. intros He. pose proof (Z.pow_pos_nonneg 2 (e + 1074)). lia. Qed.

Lemma units_bound m e : bounded 53 1024 m e = true -> Z.pos m * 2 ^ (e + 1074) < 2 ^ 2098.
Proof.
  intros (Hm & He & _)%bounded_spec. pose proof (Z.pow_le_mono_r 2 (e + 1074) 2045).
  change (2 ^ 2098) with (2 ^ 53 * 2 ^ 2045). pose proof (Z.pow_pos_nonneg 2 (e + 1074)). nia.
Qed.

(** A larger exponent means a larger number. *)
Lemma units_lt_exp m1 e1 m2 e2 :
  bounded 53 1024 m1 e1 = true -> bounded 53 1024 m2 e2 = true -> e1 < e2 ->
  Z.pos m1 * 2 ^ (e1 + 1074) < Z.pos m2 * 2 ^ (e2 + 1074).
Proof.
  intros (Hm1 & He1 & _)%bounded_spec (_ & He2 & Hc)%bounded_spec He.
  replace (e2 + 1074) with (e1 + 1074 + (1 + (e2 - e1 - 1))) by lia.
  set (a := e1 + 1074). rewrite !(Z.pow_add_r 2) by lia.
  pose proof (Z.pow_pos_nonneg 2 a). pose proof (Z.pow_pos_nonneg 2 (e2 - e1 - 1)).
  assert (Z.pos m1 < Z.pos m2 * (2 ^ 1 * 2 ^ (e2 - e1 - 1))) by nia. nia.
Qed.

Lemma compare_pos m1 e1 m2 e2 :
  bounded 53 1024 m1 e1 = true -> bounded 53 1024 m2 e2 = true ->
  match e1 ?= e2 with Lt => Lt | Gt => Gt | Eq => Pos.compare_cont Eq m1 m2 end =
    (Z.pos m1 * 2 ^ (e1 + 1074) ?= Z.pos m2 * 2 ^ (e2 + 1074)).
Proof.
  intros H1 H2. symmetry. destruct (Z.compare_spec e1 e2) as [->|He|He].
  - pose proof (proj1 (bounded_spec _ _) H2) as (_ & He & _).
    rewrite <- Zmult_compare_compat_r by (pose proof (Z.pow_pos_nonneg 2 (e2 + 1074)); lia). done.
  - apply Z.compare_lt_iff. by apply units_lt_exp.
  - apply Z.compare_gt_iff. by apply units_lt_exp.
Qed.

Lemma compare_rank x y :
  valid x = true -> valid y = true -> is_nan x = false -> is_nan y = false ->
  SFcompare x y = Some (rank x ?= rank y).
Proof.
  assert (Hbig : 0 < 2 ^ 2098) by reflexivity.
  assert (Hu : forall s m e, bounded 53 1024 m e = true ->
    Z.abs (cond_Zopp s (Z.pos m * 2 ^ (e + 1074))) < 2 ^ 2098 /\
    (0 < Z.pos m * 2 ^ (e + 1074))).
  { intros s m e He. pose proof (units_bound m e He). apply bounded_spec in He as (_ & He & _).
    pose proof (units_pos m e ltac:(lia)). destruct s; cbn [cond_Zopp]; lia. }
  intros Hx Hy Nx Ny. revert Hbig Hu. unfold rank. generalize (2 ^ 2098). intros big Hbig Hu.
  destruct x as [sx|sx| |sx mx ex], y as [sy|sy| |sy my ey]; try done;
    cbn [SFcompare units]; f_equal; symmetry;
    try (pose proof (Hu sx mx ex Hx) as [Hx1 Hx2]); try (pose proof (Hu sy my ey Hy) as [Hy1 Hy2]).
  1-7: repeat match goal with s : bool |- _ => destruct s end; cbn [cond_Zopp] in *;
    first [apply Z.compare_eq_iff; lia|apply Z.compare_lt_iff; lia|apply Z.compare_gt_iff; lia].
  - destruct sx, sy; cbn [cond_Zopp] in *.
    + rewrite Z.compare_opp, <- (compare_pos my ey mx ex Hy Hx).
      rewrite (Z.compare_antisym ey ex). destruct (ey ?= ex); [|done..]. cbn [CompOpp].
      exact (Pos.compare_antisym mx my).
    + apply Z.compare_lt_iff. lia.
    + apply Z.compare_gt_iff. lia.
    + by rewrite <- compare_pos.
Qed.

Lemma f64_le_rank x y :
  valid x = true -> valid y = true -> is_nan x = false -> is_nan y = false ->
  f64_le x y = (rank x <=? rank y).
Proof.
  intros. unfold f64_le, SFleb. rewrite compare_rank by done. unfold Z.leb.
  by destruct (rank x ?= rank y).
Qed.

Lemma f64_lt_rank x y :
  valid x = true -> valid y = true -> is_nan x = false -> is_nan y = false ->
  f64_lt x y = (rank x <? rank y).
Proof.
  intros. unfold f64_lt, SFltb. rewrite compare_rank by done. unfold Z.ltb.
  by destruct (rank x ?= rank y).
Qed.

(** Rounding crosses no number of the format. *)
Section no_crossing.
Context (num den mx : Z) (lx : location) (ex : Z) (my : positive) (ey k : Z).
Hypothesis Hloc : located num den mx lx.
Hypothesis Hex : ex <= fexp 53 1024 (Zdigits2 mx + ex).
Hypothesis Hy : bounded 53 1024 my ey = true.
Hypothesis Hk : k <= ex /\ k <= ey.

Let e' : Z := fexp 53 1024 (Zdigits2 mx + ex).
Let m' : Z := rne num (den * 2 ^ (e' - ex)).

Lemma e'_min : -1074 <= e'.
Proof. unfold e'. rewrite fexp_eq. lia. Qed.

Lemma den_pos : 0 < den * 2 ^ (e' - ex).
Proof. destruct Hloc as (Hd & _). pose proof (Z.pow_pos_nonneg 2 (e' - ex)). unfold e' in *. nia. Qed.

Lemma pow_split a b : 0 <= a -> 0 <= b -> 2 ^ (a + b) = 2 ^ a * 2 ^ b.
Proof. intros. by apply Z.pow_add_r. Qed.

(** Both sides over the exponent of the result, when the other number has it. *)
Lemma on_grid : e' <= ey ->
  num * 2 ^ (ex - k) * (den * 2 ^ (e' - ex)) = num * (den * 2 ^ (e' - ex)) * 2 ^ (ex - k) /\
  den * (Z.pos my * 2 ^ (ey - k)) = Z.pos my * 2 ^ (ey - e') * (den * 2 ^ (e' - ex)) * 2 ^ (ex - k).
Proof.
  intros He. split; [lia|]. fold e' in Hex.
  replace (ey - k) with (ey - e' + (e' - ex + (ex - k))) by lia.
  rewrite !pow_split by lia. lia.
Qed.

Lemma y_on_grid : e' <= ey ->
  Z.pos my * 2 ^ (ey - e') * 2 ^ (e' + 1074) = Z.pos my * 2 ^ (ey + 1074).
Proof.
  intros He. pose proof e'_min. rewrite <- Z.mul_assoc, <- pow_split by lia. do 2 f_equal. lia.
Qed.

(** A result with a larger exponent is a larger number. *)
Lemma off_grid : ey < e' ->
  Z.pos my * 2 ^ (ey + 1074) < 2 ^ 52 * 2 ^ (e' + 1074) /\
  den * (Z.pos my * 2 ^ (ey - k)) < num * 2 ^ (ex - k) /\ 2 ^ 52 <= m'.
Proof.
  intros He. fold e' in Hex. apply bounded_spec in Hy as (Hm & Hey & _).
  assert (Hgrid : 2 ^ 52 * (den * 2 ^ (e' - ex)) <= num) by (eapply grid_ge; [done|done|fold e'; lia]).
  pose proof den_pos. destruct Hloc as (Hd & _).
  pose proof (Z.pow_pos_nonneg 2 (ey + 1074)). pose proof (Z.pow_pos_nonneg 2 (e' - ey - 1)).
  split; [|split; [|apply rne_ge; [done|lia]]].
  - replace (e' + 1074) with (ey + 1074 + (1 + (e' - ey - 1))) by lia.
    set (a := ey + 1074) in *. rewrite !pow_split by lia. nia.
  - apply (Z.lt_le_trans _ (2 ^ 52 * (den * 2 ^ (e' - ex)) * 2 ^ (ex - k))).
    + rewrite <- !Z.mul_assoc, <- pow_split by lia.
      replace (e' - ex + (ex - k)) with (ey - k + (1 + (e' - ey - 1))) by lia.
      pose proof (Z.pow_pos_nonneg 2 (ey - k)). rewrite !pow_split by lia. 
      assert (Z.pos my < 2 ^ 52 * (2 ^ 1 * 2 ^ (e' - ey - 1))) by nia. nia.
    + apply Z.mul_le_mono_nonneg_r; [|done]. apply Z.pow_nonneg. lia.
Qed.

Lemma round_le :
  num * 2 ^ (ex - k) <= den * (Z.pos my * 2 ^ (ey - k)) ->
  m' * 2 ^ (e' + 1074) <= Z.pos my * 2 ^ (ey + 1074).
Proof.
  intros Hle. pose proof den_pos. destruct (Z.le_gt_cases e' ey) as [He|He].
  - rewrite <- y_on_grid by done. apply Z.mul_le_mono_nonneg_r; [apply Z.pow_nonneg; lia|].
    apply rne_le; [done|]. destruct (on_grid He) as [_ Hg]. rewrite Hg in Hle.
    apply Z.mul_le_mono_pos_r in Hle; [done|]. apply Z.pow_pos_nonneg; lia.
  - destruct (off_grid He) as (_ & Hlt & _). lia.
Qed.

Lemma round_ge :
  den * (Z.pos my * 2 ^ (ey - k)) <= num * 2 ^ (ex - k) ->
  Z.pos my * 2 ^ (ey + 1074) <= m' * 2 ^ (e' + 1074).
Proof.
  intros Hge. pose proof den_pos. pose proof e'_min. destruct (Z.le_gt_cases e' ey) as [He|He].
  - rewrite <- y_on_grid by done. apply Z.mul_le_mono_nonneg_r; [apply Z.pow_nonneg; lia|].
    apply rne_ge; [done|]. destruct (on_grid He) as [_ Hg]. rewrite Hg in Hge.
    apply Z.mul_le_mono_pos_r in Hge; [done|]. apply Z.pow_pos_nonneg; lia.
  - destruct (off_grid He) as (Hlt & _ & Hm). pose proof (Z.pow_pos_nonneg 2 (e' + 1074)). nia.
Qed.

Let x : f64 := binary_round_aux 53 1024 false mx ex lx.

Lemma round_rank_le :
  num * 2 ^ (ex - k) <= den * (Z.pos my * 2 ^ (ey - k)) ->
  rank x <= rank (S754_finite false my ey) /\ is_finite x = true.
Proof.
  intros Hle%round_le. pose proof (units_bound my ey Hy) as Hb. unfold rank, units. cbn [cond_Zopp].
  destruct (round_aux_spec num den mx lx ex false Hloc Hex) as (_ & [(Hm & E)|[(m & e & E & Hm)|(E & Hm)]]);
    fold x e' m' in E, Hm; rewrite E; cbn [cond_Zopp].
  - split; [|done]. apply bounded_spec in Hy as (_ & He & _). pose proof (units_pos my ey). lia.
  - split; [lia|done].
  - lia.
Qed.

Lemma round_rank_ge :
  den * (Z.pos my * 2 ^ (ey - k)) <= num * 2 ^ (ex - k) ->
  rank (S754_finite false my ey) <= rank x.
Proof.
  intros Hge%round_ge. pose proof (units_bound my ey Hy) as Hb. unfold rank, units. cbn [cond_Zopp].
  destruct (round_aux_spec num den mx lx ex false Hloc Hex) as (_ & [(Hm & E)|[(m & e & E & Hm)|(E & Hm)]]);
    fold x e' m' in E, Hm; rewrite E; cbn [cond_Zopp]; [rewrite Hm in Hge| |]; lia.
Qed.
End no_crossing.

(** A positive number of the format with [u] units. *)
Definition is_val (u : Z) (x : f64) : Prop :=
  exists m e, x = S754_finite false m e /\ bounded 53 1024 m e = true /\ Z.pos m * 2 ^ (e + 1074) = u.

Lemma is_val_units u x : is_val u x -> units x = u /\ is_finite x = true /\ sign_of x = false.
Proof. intros (m & e & -> & _ & <-). done. Qed.

Lemma is_val_rank u x : is_val u x -> rank x = u /\ valid x = true /\ is_nan x = false /\ 0 < u.
Proof.
  intros (m & e & -> & Hb & <-). repeat split; [done|].
  apply bounded_spec in Hb as (_ & He & _). apply units_pos. lia.
Qed.

(** A value that the format has is not rounded. *)
Lemma round_exact num den mx lx ex my ey k :
  located num den mx lx -> ex <= fexp 53 1024 (Zdigits2 mx + ex) ->
  bounded 53 1024 my ey = true -> k <= ex /\ k <= ey ->
  num * 2 ^ (ex - k) = den * (Z.pos my * 2 ^ (ey - k)) ->
  is_val (Z.pos my * 2 ^ (ey + 1074)) (binary_round_aux 53 1024 false mx ex lx).
Proof.
  intros Hloc Hex Hy Hk Heq.
  destruct (round_rank_le num den mx lx ex my ey k Hloc Hex Hy Hk ltac:(lia)) as [H1 Hfin].
  pose proof (round_rank_ge num den mx lx ex my ey k Hloc Hex Hy Hk ltac:(lia)) as H2.
  destruct (round_aux_spec num den mx lx ex false Hloc Hex) as (Hv & _).
  pose proof (proj1 (bounded_spec _ _) Hy) as (_ & He & _). pose proof (units_pos my ey ltac:(lia)).
  destruct (binary_round_aux 53 1024 false mx ex lx) as [s|s| |[] m e]; try done;
    cbn [rank units cond_Zopp] in *; [lia|..].
  - pose proof (Z.pow_nonneg 2 (e + 1074)). lia.
  - exists m, e. split; [done|]. split; [exact Hv|]. lia.
Qed.

(** A normalised mantissa for [n * 2^j]. *)
Lemma representable n j :
  0 < n < 2 ^ 53 -> -1021 <= j <= 918 ->
  exists m e, bounded 53 1024 m e = true /\ e <= j /\ Z.pos m = n * 2 ^ (j - e).
Proof.
  intros Hn Hj. pose proof (digits_bounds n ltac:(lia)) as (Hd & H1 & H2).
  pose proof (digits_le n 53 ltac:(lia) ltac:(lia)) as Hd53.
  set (d := Zdigits2 n) in *. pose proof (Z.pow_pos_nonneg 2 (53 - d)).
  exists (Z.to_pos (n * 2 ^ (53 - d))), (j + d - 53).
  replace (j - (j + d - 53)) with (53 - d) by lia. rewrite Z2Pos.id by nia.
  split; [|lia]. apply bounded_spec. rewrite Z2Pos.id by nia. split; [|split; [lia|left]].
  - replace (2 ^ 53) with (2 ^ d * 2 ^ (53 - d)) by (rewrite <- Z.pow_add_r by lia; f_equal; lia). nia.
  - replace (2 ^ 52) with (2 ^ (d - 1) * 2 ^ (53 - d))
      by (rewrite <- Z.pow_add_r by lia; f_equal; lia). nia.
Qed.

Lemma digits_shift m (d : positive) : Zdigits2 (Z.pos (Pos.iter xO m d)) = Zdigits2 (Z.pos m) + Z.pos d /\
  Z.pos (Pos.iter xO m d) = Z.pos m * 2 ^ Z.pos d.
Proof.
  induction d as [|d IH] using Pos.peano_ind.
  - cbn [Pos.iter Zdigits2 digits2_pos]. rewrite Pos2Z.inj_xO. lia.
  - rewrite Pos.iter_succ. destruct IH as [IH1 IH2]. cbn [Zdigits2 digits2_pos] in *.
    rewrite !Pos2Z.inj_succ, Pos2Z.inj_xO, IH2, Z.pow_succ_r by lia. lia.
Qed.

(** [binary_round] as the rounding of a located value. *)
Lemma binary_round_located s m e :
  exists mz ez d, 0 <= d /\ binary_round 53 1024 s m e = binary_round_aux 53 1024 s mz ez loc_Exact /\
    located mz 1 mz loc_Exact /\ ez <= fexp 53 1024 (Zdigits2 mz + ez) /\
    mz = Z.pos m * 2 ^ d /\ ez = e - d.
Proof.
  unfold binary_round, shl_align. set (e' := fexp 53 1024 (Z.pos (digits2_pos m) + e)).
  destruct (e' - e) as [|p|p] eqn:E.
  - exists (Z.pos m), e, 0. repeat split; try lia; [by rewrite Z.div_1_r|by rewrite Z.mod_1_r|].
    cbn [Zdigits2]. lia.
  - exists (Z.pos m), e, 0. repeat split; try lia; [by rewrite Z.div_1_r|by rewrite Z.mod_1_r|].
    cbn [Zdigits2]. fold e'. lia.
  - destruct (digits_shift m p) as [Hd Hm].
    exists (Z.pos (Pos.iter xO m p)), e', (Z.pos p).
    repeat split; try lia; [by rewrite Z.div_1_r|by rewrite Z.mod_1_r|].
    rewrite Hd. cbn [Zdigits2]. replace (Z.pos (digits2_pos m) + Z.pos p + e')
      with (Z.pos (digits2_pos m) + e) by lia. by fold e'.
Qed.

(** [n as f64] is exact below 2^53. *)
Lemma f64_of_val n : 0 < n < 2 ^ 53 -> is_val (n * UNIT) (f64_of n).
Proof.
  intros Hn. destruct n as [|n|n]; try lia. unfold f64_of, binary_normalize.
  destruct (binary_round_located false n 0) as (mz & ez & d & Hd & -> & Hloc & Hez & Hm & He).
  destruct (representable (Z.pos n) 0 Hn ltac:(lia)) as (my & ey & Hb & Hey & Hmy).
  pose proof (proj1 (bounded_spec _ _) Hb) as (_ & Hey2 & _).
  replace (Z.pos n * UNIT) with (Z.pos my * 2 ^ (ey + 1074)).
  - apply (round_exact mz 1 mz loc_Exact ez my ey (Z.min ez ey)); [done|done|done|lia|].
    rewrite Hm, Hmy, Z.mul_1_l, <- !Z.mul_assoc, <- !Z.pow_add_r by lia. do 2 f_equal. lia.
  - rewrite Hmy, <- Z.mul_assoc, <- Z.pow_add_r by lia. unfold UNIT. do 2 f_equal. lia.
Qed.

(** A quotient of positive numbers as a located value. *)
Lemma div_located m1 e1 m2 e2 :
  exists s mz ez lz, 0 <= s /\
    f64_div (S754_finite false m1 e1) (S754_finite false m2 e2) = binary_round_aux 53 1024 false mz ez lz /\
    located (Z.pos m1 * 2 ^ s) (Z.pos m2) mz lz /\ ez = e1 - e2 - s /\
    ez <= fexp 53 1024 (Zdigits2 mz + ez).
Proof.
  unfold f64_div, SFdiv, SFdiv_core_binary.
  set (d1 := Zdigits2 (Z.pos m1)). set (d2 := Zdigits2 (Z.pos m2)).
  set (e' := Z.min (fexp 53 1024 (d1 + e1 - (d2 + e2))) (e1 - e2)). set (s := e1 - e2 - e').
  assert (Hs : 0 <= s) by lia.
  replace (match s with 0 => Z.pos m1 | Z.pos _ => Z.shiftl (Z.pos m1) s | Z.neg _ => 0 end)
    with (Z.pos m1 * 2 ^ s).
  2: { destruct s as [|p|p] eqn:E; [by rewrite Z.pow_0_r, Z.mul_1_r|by rewrite Z.shiftl_mul_pow2|lia]. }
  set (num := Z.pos m1 * 2 ^ s). pose proof (Z.pow_pos_nonneg 2 s ltac:(lia) Hs) as Hp.
  pose proof (Z_div_mod num (Z.pos m2) ltac:(lia)) as Hdm.
  destruct (Z.div_eucl num (Z.pos m2)) as [q r] eqn:Hqr. destruct Hdm as [Hnum Hr].
  assert (Hq : q = num / Z.pos m2) by (apply (Z.div_unique_pos _ _ _ r); lia).
  assert (Hr' : r = num mod Z.pos m2) by (apply (Z.mod_unique_pos _ _ q); lia).
  exists s, q, e', (new_location (Z.pos m2) r). split; [done|]. split; [done|].
  split; [|split; [lia|]].
  - split; [lia|]. split; [lia|]. split; [done|]. fold num.
    rewrite <- Hr'. apply new_location_spec; lia.
  - (* the quotient has enough digits *)
    apply (Z.le_trans _ (fexp 53 1024 (d1 + e1 - (d2 + e2)))); [lia|]. rewrite !fexp_eq.
    enough (d1 + s - d2 <= Zdigits2 q) by lia.
    pose proof (digits_bounds (Z.pos m1) ltac:(lia)) as (_ & H1 & _).
    pose proof (digits_bounds (Z.pos m2) ltac:(lia)) as (Hd2 & _ & H2). fold d1 in H1. fold d2 in H2, Hd2.
    assert (Hq0 : 0 <= q) by (rewrite Hq; apply Z.div_pos; lia).
    destruct (Z.le_gt_cases (d1 + s - d2) 0) as [Hle|Hgt].
    { destruct q as [|q|q]; cbn [Zdigits2]; lia. }
    apply digits_ge; [done|]. rewrite Hq. apply Z.div_le_lower_bound; [lia|].
    apply (Z.le_trans _ (2 ^ d2 * 2 ^ (d1 + s - d2 - 1))).
    + apply Z.mul_le_mono_nonneg_r; [apply Z.pow_nonneg; lia|lia].
    + rewrite <- Z.pow_add_r by lia. replace (d2 + (d1 + s - d2 - 1)) with (d1 - 1 + s) by lia.
      rewrite Z.pow_add_r; [|cbn [Zdigits2] in *; lia|done]. unfold num. nia.
Qed.

Lemma mul_located m1 e1 m2 e2 :
  bounded 53 1024 m1 e1 = true -> bounded 53 1024 m2 e2 = true ->
  f64_mul (S754_finite false m1 e1) (S754_finite false m2 e2) =
    binary_round_aux 53 1024 false (Z.pos m1 * Z.pos m2) (e1 + e2) loc_Exact /\
  located (Z.pos m1 * Z.pos m2) 1 (Z.pos m1 * Z.pos m2) loc_Exact /\
  e1 + e2 <= fexp 53 1024 (Zdigits2 (Z.pos m1 * Z.pos m2) + (e1 + e2)).
Proof.
  intros (_ & He1 & Hc1)%bounded_spec (_ & He2 & Hc2)%bounded_spec. split; [done|].
  split; [apply located_exact; lia|]. rewrite fexp_eq.
  destruct (Z.le_gt_cases (e1 + e2) (-1074)); [lia|].
  enough (53 <= Zdigits2 (Z.pos m1 * Z.pos m2)) by lia. apply digits_ge; [lia|].
  destruct Hc1 as [Hc1| ->], Hc2 as [Hc2| ->]; try lia; nia.
Qed.

Lemma round_aux_valid num den mx lx ex :
  located num den mx lx -> ex <= fexp 53 1024 (Zdigits2 mx + ex) ->
  valid (binary_round_aux 53 1024 false mx ex lx) = true /\
  is_nan (binary_round_aux 53 1024 false mx ex lx) = false /\
  0 <= rank (binary_round_aux 53 1024 false mx ex lx).
Proof.
  intros Hloc Hex. destruct (round_aux_spec num den mx lx ex false Hloc Hex) as (Hv & Hc).
  split; [exact Hv|]. destruct Hc as [(_ & ->)|[(m & e & E & _)|(-> & _)]]; [done| |done].
  rewrite E in *. split; [done|]. apply bounded_spec in Hv as (_ & He & _).
  pose proof (units_pos m e ltac:(lia)). cbn [rank units cond_Zopp]. lia.
Qed.

(** At least one, in the integers of a mantissa and an exponent. *)
Lemma at_least_one m e a :
  UNIT <= Z.pos m * 2 ^ (e + 1074) -> -1074 <= e -> 0 <= a -> 0 <= a + e ->
  2 ^ a <= Z.pos m * 2 ^ (a + e).
Proof.
  intros H1 He Ha Hae. destruct (Z.le_gt_cases 0 e) as [Hpos|Hneg].
  - pose proof (Z.pow_le_mono_r 2 a (a + e)). pose proof (Z.pow_pos_nonneg 2 (a + e)). nia.
  - assert (Hm : 2 ^ (- e) <= Z.pos m).
    { unfold UNIT in H1. replace (2 ^ 1074) with (2 ^ (- e) * 2 ^ (e + 1074)) in H1
        by (rewrite <- Z.pow_add_r by lia; f_equal; lia).
      apply Z.mul_le_mono_pos_r in H1; [done|]. apply Z.pow_pos_nonneg; lia. }
    replace (2 ^ a) with (2 ^ (- e) * 2 ^ (a + e)) by (rewrite <- Z.pow_add_r by lia; f_equal; lia).
    apply Z.mul_le_mono_nonneg_r; [apply Z.pow_nonneg; lia|done].
Qed.

(** Dividing by one or more does not make a number larger. *)
Lemma f64_div_le u v x y :
  is_val u x -> is_val v y -> UNIT <= v ->
  let q := f64_div x y in valid q = true /\ is_nan q = false /\ 0 <= rank q <= u.
Proof.
  intros (m1 & e1 & -> & Hb1 & <-) (m2 & e2 & -> & Hb2 & <-) Hv. cbn zeta.
  destruct (div_located m1 e1 m2 e2) as (s & mz & ez & lz & Hs & -> & Hloc & Hez & Hfe).
  destruct (round_aux_valid _ _ _ _ _ Hloc Hfe) as (H1 & H2 & H3). split; [done|]. split; [done|].
  split; [done|].
  pose proof (proj1 (bounded_spec _ _) Hb2) as (_ & He2 & _).
  refine (proj1 (round_rank_le _ _ _ _ ez m1 e1 (Z.min ez e1) Hloc Hfe Hb1 ltac:(lia) _)).
  rewrite <- Z.mul_assoc, <- Z.pow_add_r by lia.
  replace (s + (ez - Z.min ez e1)) with (e1 - e2 - Z.min ez e1) by lia.
  set (a := e1 - e2 - Z.min ez e1). replace (e1 - Z.min ez e1) with (a + e2) by lia.
  pose proof (at_least_one m2 e2 a Hv ltac:(lia) ltac:(lia) ltac:(lia)). nia.
Qed.

(** A product and a number over a common exponent. *)
Lemma over_units m1 e1 m2 e2 m3 e3 :
  bounded 53 1024 m1 e1 = true -> bounded 53 1024 m2 e2 = true -> bounded 53 1024 m3 e3 = true ->
  let k := Z.min (e1 + e2) e3 in
  (Z.pos m3 * 2 ^ (e3 + 1074) * UNIT <= Z.pos m1 * 2 ^ (e1 + 1074) * (Z.pos m2 * 2 ^ (e2 + 1074)) ->
   1 * (Z.pos m3 * 2 ^ (e3 - k)) <= Z.pos m1 * Z.pos m2 * 2 ^ (e1 + e2 - k)) /\
  (Z.pos m3 * 2 ^ (e3 + 1074) * UNIT = Z.pos m1 * 2 ^ (e1 + 1074) * (Z.pos m2 * 2 ^ (e2 + 1074)) ->
   Z.pos m1 * Z.pos m2 * 2 ^ (e1 + e2 - k) = 1 * (Z.pos m3 * 2 ^ (e3 - k))).
Proof.
  intros (_ & He1 & _)%bounded_spec (_ & He2 & _)%bounded_spec (_ & He3 & _)%bounded_spec k.
  set (c := 2 ^ (k + 2148)). assert (Hc : 0 < c) by (apply Z.pow_pos_nonneg; lia).
  assert (Hr : Z.pos m3 * 2 ^ (e3 + 1074) * UNIT = 1 * (Z.pos m3 * 2 ^ (e3 - k)) * c).
  { unfold UNIT, c. rewrite Z.mul_1_l, <- !Z.mul_assoc, <- !Z.pow_add_r by lia. do 2 f_equal. lia. }
  assert (Hl : Z.pos m1 * 2 ^ (e1 + 1074) * (Z.pos m2 * 2 ^ (e2 + 1074)) =
      Z.pos m1 * Z.pos m2 * 2 ^ (e1 + e2 - k) * c).
  { replace (Z.pos m1 * 2 ^ (e1 + 1074) * (Z.pos m2 * 2 ^ (e2 + 1074))) with
      (Z.pos m1 * Z.pos m2 * (2 ^ (e1 + 1074) * 2 ^ (e2 + 1074))) by ring.
    unfold c. rewrite <- !Z.mul_assoc, <- !Z.pow_add_r by lia. do 3 f_equal. lia. }
  rewrite Hr, Hl. split; intros H.
  - by apply Z.mul_le_mono_pos_r in H.
  - symmetry. apply Z.mul_cancel_r in H; [done|lia].
Qed.

(** A product is not smaller than a number of the format that it is not smaller
    than. *)
Lemma f64_mul_ge_val u v w x y z :
  is_val u x -> is_val v y -> is_val w z -> w * UNIT <= u * v ->
  let p := f64_mul x y in valid p = true /\ is_nan p = false /\ w <= rank p.
Proof.
  intros (m1 & e1 & -> & Hb1 & <-) (m2 & e2 & -> & Hb2 & <-) (m3 & e3 & -> & Hb3 & <-) Hle. cbn zeta.
  destruct (mul_located m1 e1 m2 e2 Hb1 Hb2) as (-> & Hloc & Hfe).
  destruct (round_aux_valid _ _ _ _ _ Hloc Hfe) as (H1 & H2 & H3). split; [done|]. split; [done|].
  apply (round_rank_ge _ _ _ _ (e1 + e2) m3 e3 (Z.min (e1 + e2) e3) Hloc Hfe Hb3 ltac:(lia)).
  by apply (over_units m1 e1 m2 e2 m3 e3 Hb1 Hb2 Hb3).
Qed.

(** Multiplying by one or more does not make a number smaller. *)
Lemma f64_mul_ge u v x y :
  is_val u x -> is_val v y -> UNIT <= v ->
  let p := f64_mul x y in valid p = true /\ is_nan p = false /\ u <= rank p.
Proof.
  intros Hx Hy Hv. pose proof (is_val_rank _ _ Hx) as (_ & _ & _ & Hu).
  apply (f64_mul_ge_val u v u x y x Hx Hy Hx). nia.
Qed.

(** A product that the format has is exact. *)
Lemma f64_mul_exact u v w x y z :
  is_val u x -> is_val v y -> is_val w z -> w * UNIT = u * v -> is_val w (f64_mul x y).
Proof.
  intros (m1 & e1 & -> & Hb1 & <-) (m2 & e2 & -> & Hb2 & <-) (m3 & e3 & -> & Hb3 & <-) Heq.
  destruct (mul_located m1 e1 m2 e2 Hb1 Hb2) as (-> & Hloc & Hfe).
  apply (round_exact _ _ _ _ (e1 + e2) m3 e3 (Z.min (e1 + e2) e3) Hloc Hfe Hb3 ltac:(lia)).
  pose proof (over_units m1 e1 m2 e2 m3 e3 Hb1 Hb2 Hb3) as [_ H]. by apply H.
Qed.

(** Division by a power of two is exact. *)
Lemma f64_div_pow2 n j :
  0 < n < 2 ^ 53 -> 0 <= j <= 52 ->
  is_val (n * 2 ^ (1074 - j)) (f64_div (f64_of n) (f64_of (2 ^ j))).
Proof.
  intros Hn Hj. pose proof (Z.pow_pos_nonneg 2 j). pose proof (Z.pow_lt_mono_r 2 j 53).
  destruct (f64_of_val n Hn) as (m1 & e1 & -> & Hb1 & H1).
  destruct (f64_of_val (2 ^ j) ltac:(lia)) as (m2 & e2 & -> & Hb2 & H2).
  destruct (div_located m1 e1 m2 e2) as (s & mz & ez & lz & Hs & -> & Hloc & Hez & Hfe).
  destruct (representable n (- j) Hn ltac:(lia)) as (my & ey & Hb & Hey & Hmy).
  pose proof (proj1 (bounded_spec _ _) Hb) as (_ & Hey2 & _).
  pose proof (proj1 (bounded_spec _ _) Hb1) as (_ & He1 & _).
  pose proof (proj1 (bounded_spec _ _) Hb2) as (_ & He2 & _).
  replace (n * 2 ^ (1074 - j)) with (Z.pos my * 2 ^ (ey + 1074)).
  2: { rewrite Hmy, <- Z.mul_assoc, <- Z.pow_add_r by lia. do 2 f_equal. lia. }
  set (k := Z.min ez ey). apply (round_exact _ _ _ _ ez my ey k Hloc Hfe Hb ltac:(lia)).
  unfold UNIT in *.
  (* over a common power of two *)
  apply (Z.mul_cancel_r _ _ (2 ^ (j + e2 + 1074))); [apply Z.pow_nonzero; lia|].
  replace (Z.pos m1 * 2 ^ s * 2 ^ (ez - k) * 2 ^ (j + e2 + 1074)) with
    (Z.pos m1 * 2 ^ (e1 + 1074) * 2 ^ (j - k)).
  2: { rewrite <- !Z.mul_assoc, <- !Z.pow_add_r by lia. do 2 f_equal. lia. }
  rewrite H1, Hmy.
  replace (Z.pos m2 * (n * 2 ^ (- j - ey) * 2 ^ (ey - k)) * 2 ^ (j + e2 + 1074)) with
    (Z.pos m2 * 2 ^ (e2 + 1074) * (n * 2 ^ (- k))).
  2: { rewrite <- !Z.mul_assoc. f_equal. rewrite (Z.mul_comm (2 ^ (e2 + 1074))), <- !Z.mul_assoc. f_equal.
       rewrite <- !Z.pow_add_r by lia. f_equal. lia. }
  rewrite H2. replace (2 ^ (j - k)) with (2 ^ j * 2 ^ (- k)) by (rewrite <- Z.pow_add_r by lia; f_equal; lia).
  lia.
Qed.

Lemma f64_of_rank n :
  0 <= n < 2 ^ 53 ->
  rank (f64_of n) = n * UNIT /\ valid (f64_of n) = true /\ is_nan (f64_of n) = false /\
  units (f64_of n) = n * UNIT /\ sign_of (f64_of n) = false /\ is_finite (f64_of n) = true.
Proof.
  intros Hn. destruct (Z.eq_dec n 0) as [->|Hn0]; [by vm_compute|].
  destruct (f64_of_val n ltac:(lia)) as (m & e & -> & Hb & Hu). auto 10.
Qed.

Lemma f64_of_le a b : 0 <= a < 2 ^ 53 -> 0 <= b < 2 ^ 53 -> f64_le (f64_of a) (f64_of b) = (a <=? b).
Proof.
  intros Ha Hb. destruct (f64_of_rank a Ha) as (Ra & Va & Na & _).
  destruct (f64_of_rank b Hb) as (Rb & Vb & Nb & _). rewrite f64_le_rank, Ra, Rb by done.
  unfold Z.leb. by rewrite <- (Zmult_compare_compat_r a b UNIT) by reflexivity.
Qed.

(** The text of a whole part. *)
Lemma show_fixed_0 x u :
  units x = u -> sign_of x = false -> is_finite x = true -> 0 <= u ->
  show_fixed 0 x = show_uint (rne u UNIT).
Proof.
  intros Hu Hs Hf Hu0. unfold show_fixed. rewrite Hs, Hu. cbn [app].
  rewrite Z.pow_0_r, Z.mul_1_r, Z.div_1_r, Z.abs_eq, app_nil_r by done. by destruct x.
Qed.

(** [x / y] for [y] at most two is at least half of the smallest normal number when
    [x] is normal. *)
Lemma f64_div_ge u v x y :
  is_val u x -> is_val v y -> v <= 2 * UNIT -> 2 ^ 52 <= u -> 2 ^ 51 <= rank (f64_div x y).
Proof.
  intros (m1 & e1 & -> & Hb1 & <-) (m2 & e2 & -> & Hb2 & <-) Hv Hu.
  destruct (div_located m1 e1 m2 e2) as (s & mz & ez & lz & Hs & -> & Hloc & Hez & Hfe).
  pose proof (proj1 (bounded_spec _ _) Hb1) as (_ & He1 & _).
  pose proof (proj1 (bounded_spec _ _) Hb2) as (_ & He2 & _).
  set (k := Z.min ez (-1074)).
  pose proof (round_rank_ge _ _ _ _ ez (2 ^ 51) (-1074) k Hloc Hfe eq_refl ltac:(lia)) as Hr.
  change (rank (S754_finite false (2 ^ 51) (-1074))) with (2 ^ 51) in Hr. apply Hr. clear Hr.
  change (Z.pos (2 ^ 51)) with (2 ^ 51).
  (* both sides over a power of two *)
  apply (Z.mul_le_mono_pos_r _ _ (2 ^ (e2 + 1074))); [apply Z.pow_pos_nonneg; lia|].
  replace (Z.pos m1 * 2 ^ s * 2 ^ (ez - k) * 2 ^ (e2 + 1074)) with
    (Z.pos m1 * 2 ^ (e1 + 1074) * 2 ^ (- k)).
  2: { rewrite <- !Z.mul_assoc, <- !Z.pow_add_r by lia. do 2 f_equal. lia. }
  replace (Z.pos m2 * (2 ^ 51 * 2 ^ (-1074 - k)) * 2 ^ (e2 + 1074)) with
    (Z.pos m2 * 2 ^ (e2 + 1074) * 2 ^ (-1074 - k) * 2 ^ 51) by lia.
  apply (Z.le_trans _ (2 * UNIT * 2 ^ (-1074 - k) * 2 ^ 51)).
  - apply Z.mul_le_mono_nonneg_r; [done|]. apply Z.mul_le_mono_nonneg_r; [apply Z.pow_nonneg; lia|done].
  - replace (2 * UNIT * 2 ^ (-1074 - k) * 2 ^ 51) with (2 ^ 52 * 2 ^ (- k)).
    + apply Z.mul_le_mono_nonneg_r; [apply Z.pow_nonneg; lia|done].
    + unfold UNIT. change 2 with (2 ^ 1) at 4. change (2 ^ 52) with (2 ^ 1 * 2 ^ 51).
      rewrite (Z.mul_comm (2 ^ 1 * 2 ^ 1074 * _)), <- !Z.mul_assoc, <- !Z.pow_add_r by lia. f_equal. lia.
Qed.

(** ** Numbers that are not a NaN *)

Definition number (x : f64) : Prop := valid x = true /\ is_nan x = false.

Lemma is_val_number u x : is_val u x -> number x.
Proof. intros (_ & ? & ? & _)%is_val_rank. done. Qed.

Lemma number_pos x :
  number x -> 0 < rank x -> x = INFINITY \/ is_val (rank x) x.
Proof.
  intros [Hv Hn] Hr. destruct x as [s|[]| |[] m e]; try done; cbn [rank units cond_Zopp] in *;
    [by left| |right; by exists m, e].
  apply bounded_spec in Hv as (_ & He & _). pose proof (units_pos m e ltac:(lia)). lia.
Qed.

Lemma number_finite_rank x : number x -> is_finite x = true -> - 2 ^ 2098 < rank x < 2 ^ 2098.
Proof.
  intros [Hv _] Hf. destruct x as [s|s| |s m e]; try done.
  cbn [rank units]. pose proof (units_bound m e Hv).
  apply bounded_spec in Hv as (_ & He & _). pose proof (units_pos m e ltac:(lia)).
  revert H H0. generalize (2 ^ 2098). intros b. destruct s; cbn [cond_Zopp]; lia.
Qed.

Lemma f64_mul_ge_number v x y :
  number x -> 0 < rank x -> is_val v y -> UNIT <= v ->
  number (f64_mul x y) /\ rank x <= rank (f64_mul x y).
Proof.
  intros Hx Hr Hy Hv. destruct (number_pos x Hx Hr) as [->|Hval].
  - destruct Hy as (m & e & -> & _). done.
  - destruct (f64_mul_ge _ _ x y Hval Hy Hv) as (? & ? & ?). done.
Qed.

Lemma f64_min_number x y : number x -> number y ->
  number (f64_min x y) /\ rank (f64_min x y) = Z.min (rank x) (rank y) /\
  (f64_min x y = x \/ f64_min x y = y).
Proof.
  intros [Vx Nx] [Vy Ny]. unfold f64_min. rewrite Nx, Ny, f64_lt_rank by done.
  destruct (Z.ltb_spec (rank y) (rank x)); (split; [done|]; split; [lia|auto]).
Qed.

Lemma f64_max_number x y : number x -> number y ->
  number (f64_max x y) /\ rank (f64_max x y) = Z.max (rank x) (rank y) /\
  (f64_max x y = x \/ f64_max x y = y).
Proof.
  intros [Vx Nx] [Vy Ny]. unfold f64_max. rewrite Nx, Ny, f64_lt_rank by done.
  destruct (Z.ltb_spec (rank x) (rank y)); (split; [done|]; split; [lia|auto]).
Qed.

(** A cast is the whole part, kept below 2^64. *)
Lemma f64_as_usize_rank x : number x -> 0 < rank x -> f64_as_usize x = Z.min (umax 64) (rank x / UNIT).
Proof.
  intros Hx Hr. destruct (number_pos x Hx Hr) as [->|(m & e & -> & Hb & _)].
  - symmetry. apply Z.min_l. apply Z.div_le_lower_bound; [done|]. vm_compute. discriminate.
  - apply bounded_spec in Hb as (_ & He & _). cbn [f64_as_usize rank units cond_Zopp]. f_equal.
    destruct (Z.leb_spec 0 e).
    + replace (2 ^ (e + 1074)) with (2 ^ e * UNIT) by (unfold UNIT; rewrite <- Z.pow_add_r by lia; done).
      rewrite Z.mul_assoc, Z.div_mul; done.
    + replace UNIT with (2 ^ (- e) * 2 ^ (e + 1074)) by (unfold UNIT; rewrite <- Z.pow_add_r by lia; f_equal; lia).
      rewrite Z.div_mul_cancel_r; [done|apply Z.pow_nonzero; lia..].
Qed.

(** Half of a whole number. *)
Lemma f64_half n : 0 < n < 2 ^ 53 -> is_val (n * 2 ^ 1073) (f64_mul (f64_of n) (f64_lit 1 2)).
Proof.
  intros Hn. destruct (representable n (-1) Hn ltac:(lia)) as (m & e & Hb & He & Hm).
  pose proof (proj1 (bounded_spec _ _) Hb) as (_ & Hmin & _).
  apply (f64_mul_exact (n * UNIT) (2 ^ 1073) _ _ _ (S754_finite false m e)).
  - by apply f64_of_val.
  - exists (2 ^ 52)%positive, (-53). by vm_compute.
  - exists m, e. split; [done|]. split; [done|].
    rewrite Hm, <- Z.mul_assoc, <- Z.pow_add_r by lia. do 2 f_equal. lia.
  - lia.
Qed.

Lemma f64_as_usize_half n : 0 < n < 2 ^ 53 -> f64_as_usize (f64_mul (f64_of n) (f64_lit 1 2)) = n / 2.
Proof.
  intros Hn. pose proof (f64_half n Hn) as Hv. pose proof (is_val_rank _ _ Hv) as (Hr & _ & _ & Hpos).
  rewrite f64_as_usize_rank, Hr; [|by eapply is_val_number|lia].
  change UNIT with (2 * 2 ^ 1073). rewrite Z.div_mul_cancel_r by done.
  apply Z.min_r. pose proof (Z.div_lt_upper_bound n 2 (2 ^ 53)). unfold umax. lia.
Qed.

(** A product of two mantissas of 53 bits keeps 52 or 53 bits less. *)
Lemma mul_rounds m1 e1 m2 e2 :
  2 ^ 52 <= Z.pos m1 < 2 ^ 53 -> 2 ^ 52 <= Z.pos m2 < 2 ^ 53 -> -1074 <= e1 <= 971 -> -1074 <= e2 <= 971 ->
  -1074 <= e1 + e2 ->
  exists d, 52 <= d <= 53 /\
    rounds_to false (rne (Z.pos m1 * Z.pos m2) (2 ^ d)) (e1 + e2 + d)
      (f64_mul (S754_finite false m1 e1) (S754_finite false m2 e2)).
Proof.
  intros H1 H2 He1 He2 Hsum.
  destruct (mul_located m1 e1 m2 e2) as (-> & Hloc & Hfe); [apply bounded_spec; lia..|].
  set (p := Z.pos m1 * Z.pos m2) in *. assert (Hp : 2 ^ 104 <= p < 2 ^ 106) by nia.
  pose proof (digits_le p 106 ltac:(lia) ltac:(lia)).
  pose proof (digits_ge p 105 ltac:(lia) ltac:(lia)).
  exists (Zdigits2 p - 53). split; [lia|].
  pose proof (round_aux_spec p 1 p loc_Exact (e1 + e2) false Hloc Hfe) as Hr.
  rewrite fexp_eq, Z.mul_1_l in Hr.
  replace (Z.max (Zdigits2 p + (e1 + e2) - 53) (-1074)) with (e1 + e2 + (Zdigits2 p - 53)) in Hr by lia.
  by replace (e1 + e2 + (Zdigits2 p - 53) - (e1 + e2)) with (Zdigits2 p - 53) in Hr by lia.
Qed.

(** The whole part of a rounded number with [k] binary places. *)
Lemma rounds_to_usize m' k x :
  0 <= m' < 2 ^ 64 -> 0 <= k <= 1074 -> rounds_to false m' (- k) x -> f64_as_usize x = m' / 2 ^ k.
Proof.
  intros Hm Hk (Hv & [(-> & ->)|[(m & e & -> & Hval)|(_ & Hbig)]]).
  - by rewrite Z.div_0_l by (apply Z.pow_nonzero; lia).
  - pose proof (proj1 (bounded_spec _ _) Hv) as (_ & He & _).
    assert (Hr : rank (S754_finite false m e) = m' * 2 ^ (1074 - k)) by (cbn; rewrite Hval; do 2 f_equal; lia).
    rewrite f64_as_usize_rank; [|done|cbn; apply units_pos; lia]. rewrite Hr.
    replace UNIT with (2 ^ k * 2 ^ (1074 - k)) by (unfold UNIT; rewrite <- Z.pow_add_r by lia; f_equal; lia).
    rewrite Z.div_mul_cancel_r by (apply Z.pow_nonzero; lia).
    apply Z.min_r. pose proof (Z.pow_pos_nonneg 2 k ltac:(lia) ltac:(lia)).
    apply (Z.le_trans _ m'); [|unfold umax; lia]. apply Z.div_le_upper_bound; nia.
  - pose proof (Z.pow_le_mono_r 2 (- k + 1074) 1074 ltac:(lia) ltac:(lia)).
    pose proof (Z.pow_pos_nonneg 2 (- k + 1074) ltac:(lia) ltac:(lia)).
    assert (m' * 2 ^ (- k + 1074) < 2 ^ 64 * 2 ^ 1074) by nia. lia.
Qed.

(** [n] times the number nearest to 0.99, a little below it, rounds back to the
    exact whole part. *)
Lemma f64_99_percent n : 0 < n < 2 ^ 46 -> f64_as_usize (f64_mul (f64_of n) (f64_lit 99 100)) = 99 * n / 100.
Proof.
  intros Hn. destruct (f64_of_val n ltac:(lia)) as (m1 & e1 & -> & Hb & Hval).
  apply bounded_spec in Hb as (Hm1 & He1 & Hc).
  assert (Hlow : 2 ^ 52 <= Z.pos m1) by (destruct Hc as [| ->]; [done|]; unfold UNIT in Hval; cbn in Hval; lia).
  assert (He : - 52 <= e1 <= -7).
  { unfold UNIT in Hval. split.
    - destruct (Z.le_gt_cases (-52) e1); [done|].
      pose proof (Z.pow_le_mono_r 2 (e1 + 1074) 1021 ltac:(lia) ltac:(lia)).
      pose proof (Z.pow_pos_nonneg 2 (e1 + 1074) ltac:(lia) ltac:(lia)). nia.
    - destruct (Z.le_gt_cases e1 (-7)); [done|].
      pose proof (Z.pow_le_mono_r 2 1068 (e1 + 1074) ltac:(lia) ltac:(lia)). nia. }
  assert (Hm : Z.pos m1 = n * 2 ^ (- e1)).
  { apply (Z.mul_cancel_r _ _ (2 ^ (e1 + 1074))); [apply Z.pow_nonzero; lia|].
    rewrite Hval, <- Z.mul_assoc, <- Z.pow_add_r by lia. unfold UNIT. do 2 f_equal. lia. }
  change (f64_lit 99 100) with (S754_finite false 8917127262193582 (-53)).
  destruct (mul_rounds m1 e1 8917127262193582 (-53)) as (d & Hd & Hr); [lia..|].
  set (k := 53 - d - e1). set (r := rne _ _) in Hr.
  assert (Hpd : 2 ^ 52 <= 2 ^ d <= 2 ^ 53) by (split; apply Z.pow_le_mono_r; lia).
  assert (Hpk : 2 ^ k * 2 ^ d = 2 ^ 53 * 2 ^ (- e1)).
  { rewrite <- !Z.pow_add_r by lia. f_equal. lia. }
  pose proof (Z.pow_le_mono_r 2 7 (- e1) ltac:(lia) ltac:(lia)).
  pose proof (Z.div_mod (99 * n) 100 ltac:(lia)). pose proof (Z.mod_pos_bound (99 * n) 100 ltac:(lia)).
  set (q := 99 * n / 100) in *. assert (Hq : 0 <= q) by (apply Z.div_pos; lia).
  (* what is left is linear in the products with [2 ^ (- e1)] *)
  set (P := 2 ^ (- e1)) in *. assert (HqP : 100 * (q * P) <= 99 * (n * P)) by nia.
  assert (HqP' : 99 * (n * P) + P <= 100 * (q * P + P)) by nia.
  assert (Hge : q * 2 ^ k <= r).
  { apply rne_ge_near; [lia|]. replace (q * 2 ^ k * 2 ^ d) with (q * (2 ^ k * 2 ^ d)) by ring.
    rewrite Hpk, Hm. replace (q * (2 ^ 53 * P)) with (2 ^ 53 * (q * P)) by ring. lia. }
  assert (Hle : r <= (q + 1) * 2 ^ k - 1).
  { apply rne_le; [lia|].
    replace (((q + 1) * 2 ^ k - 1) * 2 ^ d) with ((q + 1) * (2 ^ k * 2 ^ d) - 2 ^ d) by ring.
    rewrite Hpk, Hm. replace ((q + 1) * (2 ^ 53 * P)) with (2 ^ 53 * (q * P + P)) by ring. lia. }
  rewrite (rounds_to_usize r k); [| |lia|by replace (- k) with (e1 + -53 + d) by lia].
  - symmetry. apply (Z.div_unique_pos _ _ _ (r - q * 2 ^ k)); lia.
  - split; [lia|].
    apply (Z.le_lt_trans _ (2 ^ 54)); [|lia]. apply rne_le; lia.
Qed.

(** ** Rounding keeps the order *)

Lemma rounds_to_rank m' e' x :
  0 <= m' -> rounds_to false m' e' x -> rank x = Z.min (2 ^ 2098) (m' * 2 ^ (e' + 1074)).
Proof.
  intros Hm (Hv & [(-> & ->)|[(m & e & -> & Hval)|(-> & Hbig)]]).
  - rewrite Z.mul_0_l. symmetry. by apply Z.min_r.
  - pose proof (units_bound m e Hv). cbn [rank units cond_Zopp]. lia.
  - cbn [rank cond_Zopp]. lia.
Qed.

Section order.
Context (num1 den1 mx1 : Z) (lx1 : location) (ex1 : Z) (num2 den2 mx2 : Z) (lx2 : location) (ex2 k : Z).
Hypothesis Hloc1 : located num1 den1 mx1 lx1.
Hypothesis Hloc2 : located num2 den2 mx2 lx2.
Hypothesis Hex1 : ex1 <= fexp 53 1024 (Zdigits2 mx1 + ex1).
Hypothesis Hex2 : ex2 <= fexp 53 1024 (Zdigits2 mx2 + ex2).
Hypothesis Hk : k <= ex1 /\ k <= ex2.
Hypothesis Hle : num1 * 2 ^ (ex1 - k) * den2 <= num2 * 2 ^ (ex2 - k) * den1.

Let e1' : Z := fexp 53 1024 (Zdigits2 mx1 + ex1).
Let e2' : Z := fexp 53 1024 (Zdigits2 mx2 + ex2).
Let m1' : Z := rne num1 (den1 * 2 ^ (e1' - ex1)).
Let m2' : Z := rne num2 (den2 * 2 ^ (e2' - ex2)).

(** Both values over the grid of exponent [e]. *)
Lemma to_grid den ex e : ex <= e -> k <= ex ->
  den * 2 ^ (e - k) = den * 2 ^ (e - ex) * 2 ^ (ex - k).
Proof. intros. rewrite <- Z.mul_assoc, <- Z.pow_add_r by lia. do 2 f_equal. lia. Qed.

Lemma order_same : e1' = e2' -> m1' <= m2'.
Proof.
  intros He. pose proof Hloc1 as (Hd1 & _). pose proof Hloc2 as (Hd2 & _). fold e1' in Hex1. fold e2' in Hex2.
  pose proof (Z.pow_pos_nonneg 2 (ex1 - k)). pose proof (Z.pow_pos_nonneg 2 (ex2 - k)).
  pose proof (Z.pow_pos_nonneg 2 (e1' - ex1)). pose proof (Z.pow_pos_nonneg 2 (e2' - ex2)).
  assert (E1 : m1' = rne (num1 * 2 ^ (ex1 - k) * den2) (den1 * 2 ^ (e1' - k) * den2)).
  { rewrite (to_grid den1 ex1 e1') by lia. rewrite !rne_scale by nia. done. }
  assert (E2 : m2' = rne (num2 * 2 ^ (ex2 - k) * den1) (den1 * 2 ^ (e1' - k) * den2)).
  { replace (den1 * 2 ^ (e1' - k) * den2) with (den2 * 2 ^ (e2' - k) * den1) by (rewrite He; ring).
    rewrite (to_grid den2 ex2 e2') by lia. rewrite !rne_scale by nia. done. }
  rewrite E1, E2. apply rne_mono; [|done]. pose proof (Z.pow_pos_nonneg 2 (e1' - k)). nia.
Qed.

(** A larger exponent is a larger value. *)
Lemma order_below : e1' < e2' -> m1' * 2 ^ (e1' + 1074) <= m2' * 2 ^ (e2' + 1074).
Proof.
  intros He. pose proof Hloc1 as (Hd1 & _). pose proof Hloc2 as (Hd2 & _).
  assert (Hmin : -1074 <= e1') by (unfold e1'; rewrite fexp_eq; lia).
  assert (L1 : m1' <= 2 ^ 53).
  { apply rne_le; [by apply (den_pos _ _ _ _ _ Hloc1)|by apply (grid_le _ _ _ _ _ Hloc1)]. }
  assert (L2 : 2 ^ 52 <= m2').
  { apply rne_ge; [by apply (den_pos _ _ _ _ _ Hloc2)|apply (grid_ge _ _ _ _ _ Hloc2); [done|fold e2'; lia]]. }
  replace (e2' + 1074) with (1 + (e1' + 1074) + (e2' - e1' - 1)) by lia.
  rewrite (Z.pow_add_r 2 (1 + (e1' + 1074))), (Z.pow_add_r 2 1) by lia.
  assert (Hp : 0 < 2 ^ (e1' + 1074)) by (apply Z.pow_pos_nonneg; lia).
  assert (Hq : 0 < 2 ^ (e2' - e1' - 1)) by (apply Z.pow_pos_nonneg; lia).
  revert Hp Hq. generalize (2 ^ (e1' + 1074)) (2 ^ (e2' - e1' - 1)). intros p q Hp Hq.
  apply (Z.le_trans _ (2 ^ 53 * p)); [by apply Z.mul_le_mono_nonneg_r; lia|].
  assert (2 ^ 52 * p <= m2' * p) by (apply Z.mul_le_mono_nonneg_r; lia). nia.
Qed.

(** The smaller value has the larger exponent only when both are a power of two. *)
Lemma order_above : e2' < e1' -> m1' * 2 ^ (e1' + 1074) <= m2' * 2 ^ (e2' + 1074).
Proof.
  intros He. pose proof Hloc1 as (Hd1 & _). pose proof Hloc2 as (Hd2 & _).
  assert (Hmin : -1074 <= e2') by (unfold e2'; rewrite fexp_eq; lia).
  pose proof (grid_ge _ _ _ _ _ Hloc1 Hex1 ltac:(fold e1'; lia)) as G1.
  pose proof (grid_le _ _ _ _ _ Hloc2 Hex2) as G2. fold e1' in G1, Hex1. fold e2' in G2, Hex2.
  set (a := 2 ^ (ex1 - k)) in *. set (b := 2 ^ (ex2 - k)) in *.
  assert (Ha : 0 < a) by (apply Z.pow_pos_nonneg; lia). assert (Hb : 0 < b) by (apply Z.pow_pos_nonneg; lia).
  set (v := 2 ^ (e2' - k)). assert (Hv : 0 < v) by (apply Z.pow_pos_nonneg; lia).
  set (c := 2 ^ (e1' - e2' - 1)). assert (Hc : 0 < c) by (apply Z.pow_pos_nonneg; lia).
  assert (T1 : den1 * (2 * c * v) = den1 * 2 ^ (e1' - ex1) * a).
  { unfold a. rewrite <- to_grid by lia. f_equal. unfold c, v. change 2 with (2 ^ 1) at 1.
    rewrite <- !Z.pow_add_r by lia. f_equal. lia. }
  assert (T2 : den2 * v = den2 * 2 ^ (e2' - ex2) * b).
  { unfold v, b. rewrite <- to_grid by lia. done. }
  (* the lower bound of the first value and the upper bound of the second *)
  set (g1 := den1 * 2 ^ (e1' - ex1)) in *. set (g2 := den2 * 2 ^ (e2' - ex2)) in *.
  assert (B1 : 2 ^ 52 * (g1 * a * den2) <= num1 * a * den2).
  { replace (2 ^ 52 * (g1 * a * den2)) with (2 ^ 52 * g1 * (a * den2)) by ring. rewrite <- (Z.mul_assoc num1).
    apply Z.mul_le_mono_nonneg_r; [nia|done]. }
  assert (B2 : num2 * b * den1 <= 2 ^ 53 * (g2 * b * den1)).
  { replace (2 ^ 53 * (g2 * b * den1)) with (2 ^ 53 * g2 * (b * den1)) by ring. rewrite <- (Z.mul_assoc num2).
    apply Z.mul_le_mono_nonneg_r; [nia|done]. }
  set (X := den1 * den2 * v). assert (HX : 0 < X) by (unfold X; nia).
  replace (g1 * a * den2) with (2 * c * X) in B1 by (rewrite <- T1; unfold X; ring).
  replace (g2 * b * den1) with X in B2 by (rewrite <- T2; unfold X; ring).
  assert (Hc1 : c = 1) by nia.
  assert (He1 : e1' = e2' + 1).
  { destruct (Z.eq_dec (e1' - e2' - 1) 0) as [|Hne]; [lia|].
    pose proof (Z.pow_gt_1 2 (e1' - e2' - 1) ltac:(lia)) as Hgt. fold c in Hgt. lia. }
  assert (L1 : m1' <= 2 ^ 52).
  { apply rne_le; [by apply (den_pos _ _ _ _ _ Hloc1)|]. fold g1.
    apply (Z.mul_le_mono_pos_r _ _ (a * den2)); [nia|].
    replace (2 ^ 52 * g1 * (a * den2)) with (2 ^ 52 * (g1 * a) * den2) by ring. rewrite <- T1, Hc1.
    replace (2 ^ 52 * (den1 * (2 * 1 * v)) * den2) with (2 ^ 53 * X) by (unfold X; ring). lia. }
  assert (L2 : 2 ^ 53 <= m2').
  { apply rne_ge; [by apply (den_pos _ _ _ _ _ Hloc2)|]. fold g2.
    apply (Z.mul_le_mono_pos_r _ _ (b * den1)); [nia|].
    replace (2 ^ 53 * g2 * (b * den1)) with (2 ^ 53 * (g2 * b) * den1) by ring. rewrite <- T2.
    replace (2 ^ 53 * (den2 * v) * den1) with (2 ^ 53 * X) by (unfold X; ring). lia. }
  rewrite He1. replace (e2' + 1 + 1074) with (1 + (e2' + 1074)) by lia. rewrite (Z.pow_add_r 2 1) by lia.
  pose proof (Z.pow_pos_nonneg 2 (e2' + 1074)). nia.
Qed.

Lemma round_mono :
  rank (binary_round_aux 53 1024 false mx1 ex1 lx1) <= rank (binary_round_aux 53 1024 false mx2 ex2 lx2).
Proof.
  pose proof (round_aux_spec _ _ _ _ _ false Hloc1 Hex1) as R1.
  pose proof (round_aux_spec _ _ _ _ _ false Hloc2 Hex2) as R2. cbn zeta in R1, R2.
  pose proof Hloc1 as (_ & Hn1 & _). pose proof Hloc2 as (_ & Hn2 & _).
  pose proof (den_pos _ _ _ _ _ Hloc1 Hex1) as Hp1. pose proof (den_pos _ _ _ _ _ Hloc2 Hex2) as Hp2.
  apply rounds_to_rank in R1; [|by apply rne_nonneg]. apply rounds_to_rank in R2; [|by apply rne_nonneg].
  rewrite R1, R2. apply Z.min_le_compat_l. fold e1' e2' m1' m2'.
  destruct (Z.lt_trichotomy e1' e2') as [He|[He|He]]; [by apply order_below| |by apply order_above].
  rewrite <- He. apply Z.mul_le_mono_nonneg_r; [apply Z.pow_nonneg; lia|by apply order_same].
Qed.
End order.

(** [n as f64] for any [u64]. *)
Lemma f64_of_mono a b : 0 < a <= b -> rank (f64_of a) <= rank (f64_of b).
Proof.
  intros Hab. destruct a as [|a|a], b as [|b|b]; try lia. unfold f64_of, binary_normalize.
  destruct (binary_round_located false a 0) as (m1 & e1 & d1 & Hd1 & -> & Hl1 & Hx1 & Hm1 & He1).
  destruct (binary_round_located false b 0) as (m2 & e2 & d2 & Hd2 & -> & Hl2 & Hx2 & Hm2 & He2).
  apply (round_mono m1 1 m1 _ e1 m2 1 m2 _ e2 (Z.min e1 e2) Hl1 Hl2 Hx1 Hx2 ltac:(lia)).
  rewrite Hm1, Hm2, !Z.mul_1_r, <- !Z.mul_assoc, <- !Z.pow_add_r by lia.
  replace (d1 + (e1 - Z.min e1 e2)) with (d2 + (e2 - Z.min e1 e2)) by lia.
  apply Z.mul_le_mono_nonneg_r; [apply Z.pow_nonneg; lia|lia].
Qed.

Lemma f64_of_u64 n : 0 < n < 2 ^ 64 -> exists u, is_val u (f64_of n) /\ UNIT <= u.
Proof.
  intros Hn. pose proof (f64_of_mono 1 n ltac:(lia)) as Hlo. pose proof (f64_of_mono n (2 ^ 64) ltac:(lia)) as Hhi.
  change (rank (f64_of 1)) with UNIT in Hlo. change (rank (f64_of (2 ^ 64))) with (2 ^ 64 * UNIT) in Hhi.
  assert (Hnum : number (f64_of n)).
  { destruct n as [|n|n]; try lia. unfold f64_of, binary_normalize.
    destruct (binary_round_located false n 0) as (m & e & d & _ & -> & Hl & Hx & _).
    destruct (round_aux_valid _ _ _ _ _ Hl Hx) as (? & ? & _). done. }
  exists (rank (f64_of n)). split; [|done].
  destruct (number_pos _ Hnum) as [E|Hv]; [unfold UNIT in *; lia| |done].
  rewrite E in Hhi. unfold UNIT in Hhi. cbn in Hhi. lia.
Qed.

(** A quotient grows with what is divided. *)
Lemma f64_div_mono u1 u2 v x1 x2 y :
  is_val u1 x1 -> is_val u2 x2 -> is_val v y -> u1 <= u2 -> rank (f64_div x1 y) <= rank (f64_div x2 y).
Proof.
  intros (m1 & e1 & -> & Hb1 & <-) (m2 & e2 & -> & Hb2 & <-) (m & e & -> & Hb & _) Hu.
  apply bounded_spec in Hb1 as (_ & He1 & _). apply bounded_spec in Hb2 as (_ & He2 & _).
  destruct (div_located m1 e1 m e) as (s1 & mz1 & ez1 & lz1 & Hs1 & -> & Hl1 & Hz1 & Hx1).
  destruct (div_located m2 e2 m e) as (s2 & mz2 & ez2 & lz2 & Hs2 & -> & Hl2 & Hz2 & Hx2).
  set (k := Z.min (Z.min ez1 ez2) (- 1074 - e)).
  apply (round_mono _ _ _ _ ez1 _ _ _ _ ez2 k Hl1 Hl2 Hx1 Hx2 ltac:(lia)).
  apply Z.mul_le_mono_nonneg_r; [lia|]. rewrite <- !Z.mul_assoc, <- !Z.pow_add_r by lia.
  replace (s1 + (ez1 - k)) with (e1 + 1074 + (- 1074 - e - k)) by lia.
  replace (s2 + (ez2 - k)) with (e2 + 1074 + (- 1074 - e - k)) by lia.
  rewrite !(Z.pow_add_r 2 _ (- 1074 - e - k)), !Z.mul_assoc by lia.
  apply Z.mul_le_mono_nonneg_r; [apply Z.pow_nonneg; lia|done].
Qed.

(** A quotient is not rounded past a number of the format. *)
Lemma f64_div_between u v w x y z :
  is_val u x -> is_val v y -> is_val w z ->
  (u * UNIT <= w * v -> rank (f64_div x y) <= w) /\ (w * v <= u * UNIT -> w <= rank (f64_div x y)).
Proof.
  intros (m1 & e1 & -> & Hb1 & <-) (m2 & e2 & -> & Hb2 & <-) (m & e & -> & Hb & <-).
  destruct (div_located m1 e1 m2 e2) as (s & mz & ez & lz & Hs & -> & Hloc & Hez & Hfe).
  apply bounded_spec in Hb1 as (_ & He1 & _). apply bounded_spec in Hb2 as (_ & He2 & _).
  pose proof (proj1 (bounded_spec _ _) Hb) as (_ & He & _).
  set (k := Z.min (Z.min ez e) (- e2 - 2148)).
  pose proof (Z.pow_nonneg 2 (- k - e2 - 2148) ltac:(lia)) as Hpow.
  assert (Hl : Z.pos m1 * 2 ^ s * 2 ^ (ez - k) = Z.pos m1 * 2 ^ (e1 + 1074) * UNIT * 2 ^ (- k - e2 - 2148)).
  { unfold UNIT. rewrite <- !Z.mul_assoc, <- !Z.pow_add_r by lia. do 2 f_equal. lia. }
  assert (Hr : Z.pos m2 * (Z.pos m * 2 ^ (e - k)) =
    Z.pos m * 2 ^ (e + 1074) * (Z.pos m2 * 2 ^ (e2 + 1074)) * 2 ^ (- k - e2 - 2148)).
  { replace (e - k) with ((e + 1074) + (e2 + 1074) + (- k - e2 - 2148)) by lia. rewrite !Z.pow_add_r by lia. ring. }
  split; intros Hle.
  - refine (proj1 (round_rank_le _ _ _ _ ez m e k Hloc Hfe Hb ltac:(lia) _)). rewrite Hl, Hr.
    by apply Z.mul_le_mono_nonneg_r.
  - refine (round_rank_ge _ _ _ _ ez m e k Hloc Hfe Hb ltac:(lia) _). rewrite Hl, Hr.
    by apply Z.mul_le_mono_nonneg_r.
Qed.
