(* ===== verification/Errors.v ===== *)
(** * Errors (crates/httpsys/src/error.rs)

    The error type of the crate, the mapping of raw status codes into results,
    and its [Display].  The text Windows has for a code and the conversion of a
    code to an [HRESULT] belong to the [windows] crate and are parameters. *)

From S2P Require Import Prelude RustStd.

Inductive Error :=
  | Win32 (code : Z)
  | HeadersTooLarge (needed : Z)
  | QueueClosed.

#[export] Instance Error_eq_dec : EqDecision Error.
Proof. solve_decision. Defined.

Abbreviation result := (Result Error).

(** [Error::win32_code]. *)
Definition win32_code (e : Error) : option Z :=
  match e with
  | Win32 code => Some code
  | _ => None
  end.

(** [Error::check]. *)
Definition check (ec : Z) : result unit :=
  if ec =? 0 then Ok tt else Err (Win32 ec).

(** [From<windows::core::Error>]: [e.code().0] is an [i32]; the cast to [u32]
    reads its two's complement. *)
Definition from_windows_error (hresult : Z) : Error :=
  Win32 (Z.land (wrap32 hresult) 0xFFFF).

Section display.
(** [windows::core::Error::from(WIN32_ERROR(code)).message()]. *)
Context (os_message : Z -> str).

(** [Display for Error]. *)
Definition display (e : Error) : str :=
  match e with
  | Win32 code =>
      let msg := trim (os_message code) in
      if zlen msg =? 0 then lit "Win32 error " ++ show_uint code
      else lit "Win32 error " ++ show_uint code ++ lit ": " ++ msg
  | HeadersTooLarge needed =>
      lit "request headers too large: " ++ show_uint needed ++ lit " bytes needed"
  | QueueClosed => lit "request queue closed"
  end.
End display.

(** [HRESULT_FROM_WIN32], as documented: severity 1, facility 7 around the low
    sixteen bits of a positive code, as an [i32]. *)
Definition hresult_from_win32_spec (hresult_from_win32 : Z -> Z) : Prop :=
  forall code, 0 < code < 0x10000 ->
    hresult_from_win32 code = Z.lor code 0x80070000 - 2 ^ 32.

Lemma from_windows_error_in_u hr : exists c, from_windows_error hr = Win32 c /\ in_u 16 c.
Proof.
  eexists. split; [done|]. change 0xFFFF with (Z.ones 16).
  rewrite Z.land_ones by lia. apply wrap_in_u. lia.
Qed.

Lemma lor_land_facility code :
  0 <= code < 0x10000 -> Z.land (Z.lor code 0x80070000) 0xFFFF = code.
Proof.
  intros Hc. change 0xFFFF with (Z.ones 16). rewrite Z.land_lor_distr_l.
  change (Z.land 0x80070000 (Z.ones 16)) with 0.
  rewrite Z.lor_0_r, Z.land_ones by lia. apply Z.mod_small. lia.
Qed.

Lemma lor_facility_bound code :
  0 <= code < 0x10000 -> 0 <= Z.lor code 0x80070000 < 2 ^ 32.
Proof.
  intros Hc. split; [apply Z.lor_nonneg; lia|].
  destruct (Z.eq_dec code 0) as [->|]; [by cbn|].
  apply Z.log2_lt_pow2.
  - assert (0 <= Z.lor code 0x80070000) by (apply Z.lor_nonneg; lia).
    destruct (Z.eq_dec (Z.lor code 0x80070000) 0) as [E|]; [|lia].
    apply Z.lor_eq_0_iff in E. lia.
  - rewrite Z.log2_lor by lia. apply Z.max_lub_lt; [|by cbn].
    apply Z.log2_lt_pow2; lia.
Qed.

(** The Win32 code survives the trip through a [windows] error: for every
    documented code (positive, sixteen bits) an error built by
    [HRESULT_FROM_WIN32] converts back to exactly that code, never an
    [HRESULT]. *)
Theorem from_windows_error_roundtrip (hresult_from_win32 : Z -> Z) code :
  hresult_from_win32_spec hresult_from_win32 ->
  0 < code < 0x10000 ->
  win32_code (from_windows_error (hresult_from_win32 code)) = Some code.
Proof.
  intros Hspec Hc. cbn. f_equal. rewrite Hspec by done.
  rewrite <- (lor_land_facility code) at 2 by lia. f_equal.
  pose proof (lor_facility_bound code ltac:(lia)).
  unfold wrap. symmetry. apply Z.mod_unique_pos with (q := -1); lia.
Qed.

Lemma from_windows_error_roundtrip_witness :
  win32_code (from_windows_error (Z.lor 995 0x80070000 - 2 ^ 32)) = Some 995.
Proof.
  apply (from_windows_error_roundtrip (fun code => Z.lor code 0x80070000 - 2 ^ 32));
    [intros ? ?; reflexivity | lia].
Defined.

Lemma check_ok ec : check ec = Ok tt <-> ec = 0.
Proof. unfold check. destruct (Z.eqb_spec ec 0); naive_solver. Qed.
