(* ===== verification/Crates.v ===== *)
(** * Third-party crates, as interfaces

    [crossbeam_queue::ArrayQueue] and [atomic_waker::AtomicWaker] are not part of
    the repository.  Each is a class of operations with a class of the documented
    laws the sources rely on, and one instance that shows the laws can hold and
    lets witnesses compute. *)

From S2P Require Import Prelude.

(** ** [ArrayQueue]: a bounded multi-producer multi-consumer FIFO queue *)

Class ArrayQueue (Q : Type -> Type) := {
  (** [ArrayQueue::new(cap)]; the crate panics for 0, which the sources avoid. *)
  aq_new {A} : Z -> Q A;
  (** [pop]: the value taken, if any, and the queue left. *)
  aq_pop {A} : Q A -> option A * Q A;
  (** [push]: [Some v] gives the rejected value back when the queue is full. *)
  aq_push {A} : A -> Q A -> option A * Q A;
  (** The elements in order, and the capacity: used in statements only. *)
  aq_items {A} : Q A -> list A;
  aq_cap {A} : Q A -> Z;
}.

Class ArrayQueueLaws Q `{ArrayQueue Q} : Prop := {
  aq_new_items {A} n : 0 < n -> aq_items (aq_new (A := A) n) = [];
  aq_new_cap {A} n : 0 < n -> aq_cap (aq_new (A := A) n) = n;
  aq_pop_items {A} (q : Q A) :
    match aq_items q with
    | [] => fst (aq_pop q) = None /\ aq_items (snd (aq_pop q)) = []
    | x :: l => fst (aq_pop q) = Some x /\ aq_items (snd (aq_pop q)) = l
    end;
  aq_pop_cap {A} (q : Q A) : aq_cap (snd (aq_pop q)) = aq_cap q;
  aq_push_room {A} (x : A) q :
    zlen (aq_items q) < aq_cap q ->
    fst (aq_push x q) = None /\ aq_items (snd (aq_push x q)) = aq_items q ++ [x];
  aq_push_full {A} (x : A) q :
    aq_cap q <= zlen (aq_items q) ->
    fst (aq_push x q) = Some x /\ aq_items (snd (aq_push x q)) = aq_items q;
  aq_push_cap {A} (x : A) q : aq_cap (snd (aq_push x q)) = aq_cap q;
}.

Section array_queue.
Context `{ArrayQueueLaws Q} {A : Type}.
Implicit Types (q : Q A) (x : A).

(** The two outcomes of a pop. *)
Lemma aq_pop_cases q o q' :
  aq_pop q = (o, q') ->
  aq_cap q' = aq_cap q /\
  match o with
  | None => aq_items q = [] /\ aq_items q' = []
  | Some x => aq_items q = x :: aq_items q'
  end.
Proof.
  intros E. pose proof (aq_pop_items q) as Hp. pose proof (aq_pop_cap q) as Hc.
  rewrite E in *. cbn in *. destruct (aq_items q); destruct Hp as [-> ->]; done.
Qed.

(** The two outcomes of a push. *)
Lemma aq_push_cases x q o q' :
  aq_push x q = (o, q') ->
  aq_cap q' = aq_cap q /\
  match o with
  | None => zlen (aq_items q) < aq_cap q /\ aq_items q' = aq_items q ++ [x]
  | Some y => y = x /\ aq_cap q <= zlen (aq_items q) /\ aq_items q' = aq_items q
  end.
Proof.
  intros E. pose proof (aq_push_cap x q) as Hc. rewrite E in Hc. cbn in Hc. split; [done|].
  destruct (Z.lt_ge_cases (zlen (aq_items q)) (aq_cap q)) as [Hl|Hl].
  - pose proof (aq_push_room x q Hl) as [H1 H2]. rewrite E in *. cbn in *. by subst o.
  - pose proof (aq_push_full x q Hl) as [H1 H2]. rewrite E in *. cbn in *. by subst o.
Qed.

(** A queue never holds more than its capacity if it starts so. *)
Definition aq_ok q : Prop := zlen (aq_items q) <= aq_cap q.

Lemma aq_new_ok n : 0 < n -> aq_ok (aq_new (A := A) n).
Proof. intros. unfold aq_ok. rewrite aq_new_items, aq_new_cap, zlen_nil by done. lia. Qed.

Lemma aq_push_ok x q o q' : aq_push x q = (o, q') -> aq_ok q -> aq_ok q'.
Proof.
  intros [Hc Hp]%aq_push_cases Hok. unfold aq_ok in *. rewrite Hc.
  destruct o as [y|]; destruct Hp as [? Hp].
  - destruct Hp as [? ->]. lia.
  - rewrite Hp, zlen_app, zlen_cons, zlen_nil. lia.
Qed.

Lemma aq_pop_ok q o q' : aq_pop q = (o, q') -> aq_ok q -> aq_ok q'.
Proof.
  intros [Hc Hp]%aq_pop_cases Hok. unfold aq_ok in *. rewrite Hc. destruct o.
  - rewrite Hp, zlen_cons in Hok. lia.
  - destruct Hp as [Hp ->]. by rewrite Hp in Hok.
Qed.
End array_queue.

(** An instance: the queue as its capacity and its elements. *)
Record list_queue (A : Type) := mkListQueue { lq_cap : Z; lq_items : list A }.
Arguments mkListQueue {A}.
Arguments lq_cap {A}.
Arguments lq_items {A}.

#[export] Instance list_array_queue : ArrayQueue list_queue := {
  aq_new A n := mkListQueue n [];
  aq_pop A q :=
    match lq_items q with
    | [] => (None, q)
    | x :: l => (Some x, mkListQueue (lq_cap q) l)
    end;
  aq_push A x q :=
    if zlen (lq_items q) <? lq_cap q
    then (None, mkListQueue (lq_cap q) (lq_items q ++ [x]))
    else (Some x, q);
  aq_items A q := lq_items q;
  aq_cap A q := lq_cap q;
}.

#[export] Instance list_array_queue_laws : ArrayQueueLaws list_queue.
Proof.
  split; intros; cbn in *; try done.
  - by destruct q as [c [|x l]].
  - by destruct q as [c [|x l]].
  - destruct (Z.ltb_spec (zlen (lq_items q)) (lq_cap q)); [done|lia].
  - destruct (Z.ltb_spec (zlen (lq_items q)) (lq_cap q)); [lia|done].
  - by destruct (_ <? _).
Qed.

(** ** [AtomicWaker]: at most one registered waker *)

Class AtomicWaker (W AW : Type) := {
  aw_new : AW;
  aw_register : W -> AW -> AW;
  (** [wake] takes the registered waker, if any, and wakes it. *)
  aw_wake : AW -> option W * AW;
}.

Class AtomicWakerLaws W AW `{AtomicWaker W AW} : Prop := {
  aw_wake_new : fst (aw_wake aw_new) = None;
  aw_wake_registered w a : fst (aw_wake (aw_register w a)) = Some w;
  aw_wake_empties a : fst (aw_wake (snd (aw_wake a))) = None;
}.

#[export] Instance option_waker W : AtomicWaker W (option W) := {
  aw_new := None;
  aw_register w _ := Some w;
  aw_wake a := (a, None);
}.

#[export] Instance option_waker_laws W : AtomicWakerLaws W (option W).
Proof. by split. Qed.
