(* ===== verification/HttpApi.v ===== *)
(** * The http.sys interface, as the sources see it

    The [windows] crate and the kernel are not part of the repository.  This file
    holds the fields of the API structures the sources read and write, the
    documented constants they name, and the kernel entry points as a class: the
    kernel is a state [K] and each call gives an answer and the next state.

    A raw pointer into the receive buffer is the offset of the byte it addresses,
    or [None] for null.  [pEntityChunks] addresses one chunk structure that the
    kernel writes into the same buffer: it is that structure, or [None]. *)

From S2P Require Import Prelude.

(** ** Constants *)

Definition ERROR_INVALID_HANDLE : Z := 6.
Definition ERROR_NO_MORE_FILES : Z := 18.
Definition ERROR_OPERATION_ABORTED : Z := 995.

Definition HttpVerbOPTIONS : Z := 3.
Definition HttpVerbGET : Z := 4.
Definition HttpVerbHEAD : Z := 5.
Definition HttpVerbPOST : Z := 6.
Definition HttpVerbPUT : Z := 7.
Definition HttpVerbDELETE : Z := 8.
Definition HttpVerbTRACE : Z := 9.
Definition HttpVerbCONNECT : Z := 10.

(** [HTTP_HEADER_ID]: request and response headers share the low indices. *)
Definition HttpHeaderConnection : nat := 1.
Definition HttpHeaderContentLength : nat := 11.
Definition HttpHeaderContentType : nat := 12.
Definition HttpHeaderHost : nat := 28.
Definition HttpHeaderUserAgent : nat := 40.
Definition HttpHeaderRequestMaximum : nat := 41.

Definition HTTP_REQUEST_FLAG_MORE_ENTITY_BODY_EXISTS : Z := 1.
Definition HTTP_RECEIVE_REQUEST_FLAG_COPY_BODY : Z := 1.

(** ** Requests *)

Record HTTP_KNOWN_HEADER := mkKnown { RawValueLength : Z; pRawValue : option Z }.
Record HTTP_DATA_CHUNK_MEMORY := mkChunk { pBuffer : option Z; BufferLength : Z }.

(** The fields of [HTTP_REQUEST_V2] (its [Base]) the sources read. *)
Record HTTP_REQUEST_V2 := mkRequestV2 {
  Flags : Z;
  ConnectionId : Z;
  RequestId : Z;
  UrlContext : Z;
  Verb : Z;
  UnknownVerbLength : Z;
  RawUrlLength : Z;
  pUnknownVerb : option Z;
  pRawUrl : option Z;
  KnownHeaders : list HTTP_KNOWN_HEADER;
  EntityChunkCount : Z;
  pEntityChunks : option HTTP_DATA_CHUNK_MEMORY;
}.

Definition zero_header : HTTP_KNOWN_HEADER := mkKnown 0 None.
(** The all-zero bit pattern. *)
Definition zero_request : HTTP_REQUEST_V2 :=
  mkRequestV2 0 0 0 0 0 0 0 None None (replicate HttpHeaderRequestMaximum zero_header) 0 None.

(** Contents of the buffer by offset; an absent offset is the zero it was
    allocated with. *)
Abbreviation memory := (gmap Z Z).

(** [std::slice::from_raw_parts(p, len)]. *)
Definition slice_from_raw_parts (m : memory) (p : option Z) (len : Z) : list Z :=
  map (fun i => default 0 (m !! (default 0 p + i))) (seqZ 0 len).

Lemma zlen_slice m p len : 0 <= len -> zlen (slice_from_raw_parts m p len) = len.
Proof. intros. unfold zlen, slice_from_raw_parts. rewrite length_map, length_seqZ. lia. Qed.

Lemma slice_nil m p : slice_from_raw_parts m p 0 = [].
Proof. reflexivity. Qed.

(** Storing a byte string at an offset, for concrete kernels. *)
Definition write_at (off : Z) (bs : list Z) (m : memory) : memory :=
  list_to_map (zip (seqZ off (zlen bs)) bs) ∪ m.

(** ** Asynchronous calls

    What the kernel does with one overlapped submission: the status code the
    call returns, the value of [*pBytesReturned] at that point, what it left in
    the [OVERLAPPED], the completion packet it posts if it posts one, and
    whether the completion thread still holds its reference when the submitter
    resumes. *)

(** [p_status]: [GetOverlappedResult] succeeds ([None]) or fails with an
    [HRESULT]. *)
Record Packet := mkPacket { p_status : option Z; p_bytes : Z }.

Record IoAnswer := mkIo {
  io_ec : Z;
  io_reported : Z;
  io_scribble : Z * Z;
  io_packet : Packet;
  io_lag : bool;
}.

(** [HTTP_CACHE_POLICY] with the time-to-live policy. *)
Record HTTP_CACHE_POLICY := mkPolicy { SecondsToLive : Z }.

(** [R] is the response structure the caller builds. *)
Class HttpSys (K R : Type) := {
  HttpReceiveHttpRequest :
    K -> Z -> Z -> Z -> HTTP_REQUEST_V2 * memory -> (IoAnswer * (HTTP_REQUEST_V2 * memory)) * K;
  HttpReceiveRequestEntityBody : K -> Z -> Z -> (IoAnswer * list Z) * K;
  HttpSendHttpResponse : K -> Z -> R -> option HTTP_CACHE_POLICY -> IoAnswer * K;
  HttpShutdownRequestQueue : K -> Z * K;
  (** The server's stop flag, set by another task, as a load sees it now. *)
  stop_requested : K -> bool;
}.
