(* ===== verification/Buffer.v ===== *)
(** * Pooled buffers (crates/httpsys/src/buffer.rs)

    [RequestBuffer] with the request the kernel wrote in it, the per-slot
    [BufferPool], and the shared [BodyPool] of body vectors. *)

From S2P Require Import Prelude RustStd Crates HttpApi.

Definition HEADER_SLACK : Z := 8 * 1024.

(** [words] is the length of the boxed slice; [header] and [mem] are what its
    memory holds: the structure at its front, and the bytes behind pointers. *)
Record RequestBuffer := mkBuffer { words : Z; header : HTTP_REQUEST_V2; mem : memory }.

Section request_buffer.
(** [size_of::<HTTP_REQUEST_V2>()]. *)
Context (size_of_request : Z).

Definition buffer_new (bytes : Z) : RequestBuffer :=
  let min_words := div_ceil size_of_request 8 + 1 in
  mkBuffer (Z.max (div_ceil bytes 8) min_words) zero_request ∅.

Definition capacity (b : RequestBuffer) : Z := wrap32 (wrap64 (words b * 8)).

Definition grow_to (b : RequestBuffer) (bytes : Z) : RequestBuffer :=
  if capacity b <? bytes then buffer_new bytes else b.

(** [prepare]: zero the header block, keep the rest. *)
Definition prepare (b : RequestBuffer) : RequestBuffer := mkBuffer (words b) zero_request (mem b).

Definition known_header_bytes (b : RequestBuffer) (id : nat) : option bytes :=
  let h := default zero_header (KnownHeaders (header b) !! id) in
  if (RawValueLength h =? 0) || bool_decide (pRawValue h = None) then None
  else Some (slice_from_raw_parts (mem b) (pRawValue h) (RawValueLength h)).

Definition declared_body_len (b : RequestBuffer) : option Z :=
  match known_header_bytes b HttpHeaderContentLength with
  | None => None
  | Some bytes =>
      match from_utf8 bytes with
      | Some text => match parse_uint 64 text with Some n => Some n | None => Some (umax 64) end
      | None => Some (umax 64)
      end
  end.

Definition buffer_request_id (b : RequestBuffer) : Z := RequestId (header b).

(** ** The per-slot pool of receive buffers *)

Section pool.
Context `{ArrayQueue Q}.

Record BufferPool := mkBufferPool {
  bp_free : Q RequestBuffer;
  bp_bytes : Z;
  bp_max_bytes : Z;
}.

Definition buffer_pool_new (slots bytes max_bytes : Z) : BufferPool :=
  mkBufferPool (aq_new (Z.max slots 1)) bytes (Z.max max_bytes bytes).

Definition buffer_take (p : BufferPool) : RequestBuffer * BufferPool :=
  let '(o, free) := aq_pop (bp_free p) in
  (match o with Some b => b | None => buffer_new (bp_bytes p) end,
   mkBufferPool free (bp_bytes p) (bp_max_bytes p)).

(** [PooledBuffer::drop]: a full pool lets the surplus buffer go. *)
Definition buffer_drop (b : RequestBuffer) (p : BufferPool) : BufferPool :=
  let '(_, free) := aq_push b (bp_free p) in
  mkBufferPool free (bp_bytes p) (bp_max_bytes p).

(** [PooledBuffer::fit_body_inline]. *)
Definition fit_body_inline (p : BufferPool) (b : RequestBuffer) : bool * RequestBuffer :=
  match declared_body_len b with
  | None => (true, b)
  | Some declared =>
      let needed := saturating_add 64 declared HEADER_SLACK in
      if bp_max_bytes p <? needed then (false, b) else (true, grow_to b needed)
  end.
End pool.
End request_buffer.

Arguments BufferPool Q : clear implicits.

(** ** The pool of body buffers *)

Section body_pool.
Context `{ArrayQueue Q} `{VecAlloc}.

Record BodyPool := mkBodyPool { body_free : Q Vec; max_retained : Z }.

Definition body_pool_new (slots max_retained : Z) : BodyPool :=
  mkBodyPool (aq_new (Z.max slots 1)) max_retained.

Definition body_take (p : BodyPool) (capacity : Z) : Vec * BodyPool :=
  let '(o, free) := aq_pop (body_free p) in
  let vec := default vec_new o in
  (vec_reserve_exact vec (saturating_sub capacity (vec_cap vec)), mkBodyPool free (max_retained p)).

(** [PooledVec::drop]. *)
Definition body_drop (v : Vec) (p : BodyPool) : BodyPool :=
  if vec_cap v <=? max_retained p then
    let '(_, free) := aq_push (vec_clear v) (body_free p) in mkBodyPool free (max_retained p)
  else p.
End body_pool.

Arguments BodyPool Q : clear implicits.

(** ** Properties of receive buffers *)

Section request_buffer_facts.
Context (size_of_request : Z).
Hypothesis size_pos : 0 < size_of_request < 0x10000.

(** The allocation is big enough for the header block and its size is what
    [capacity] says, with no truncation. *)
Definition buffer_wf (b : RequestBuffer) : Prop :=
  size_of_request < words b * 8 /\ capacity b = words b * 8.

Lemma buffer_new_words bytes :
  0 <= bytes -> bytes <= words (buffer_new size_of_request bytes) * 8 /\
  size_of_request < words (buffer_new size_of_request bytes) * 8 /\
  words (buffer_new size_of_request bytes) * 8 <= Z.max bytes (size_of_request + 8) + 7.
Proof.
  intros Hb. unfold buffer_new. cbv zeta. cbn [words].
  pose proof (div_ceil_spec bytes 8 Hb ltac:(lia)).
  pose proof (div_ceil_spec size_of_request 8 ltac:(lia) ltac:(lia)). lia.
Qed.

Lemma capacity_exact b : 0 <= words b * 8 < 2 ^ 32 -> capacity b = words b * 8.
Proof. intros. unfold capacity. rewrite (wrap_small 64), (wrap_small 32); unfold in_u; lia. Qed.

Lemma buffer_new_wf bytes : 0 <= bytes < 2 ^ 32 - 8 -> buffer_wf (buffer_new size_of_request bytes).
Proof.
  intros Hb. pose proof (buffer_new_words bytes ltac:(lia)).
  split; [lia|]. apply capacity_exact. lia.
Qed.

Lemma buffer_new_capacity bytes :
  0 <= bytes < 2 ^ 32 - 8 -> bytes <= capacity (buffer_new size_of_request bytes).
Proof.
  intros Hb. destruct (buffer_new_wf bytes Hb) as [_ ->].
  pose proof (buffer_new_words bytes ltac:(lia)). lia.
Qed.

Lemma grow_to_wf b bytes :
  buffer_wf b -> 0 <= bytes < 2 ^ 32 - 8 -> buffer_wf (grow_to size_of_request b bytes).
Proof.
  intros. unfold grow_to. destruct (_ <? _); [by apply buffer_new_wf|done].
Qed.

Lemma grow_to_capacity b bytes :
  0 <= bytes < 2 ^ 32 - 8 -> Z.max (capacity b) bytes <= capacity (grow_to size_of_request b bytes).
Proof.
  intros. unfold grow_to. pose proof (buffer_new_capacity bytes ltac:(done)).
  destruct (Z.ltb_spec (capacity b) bytes); lia.
Qed.

(** Growing is not a resize: either nothing changes or the contents are gone. *)
Lemma grow_to_cases b bytes :
  (bytes <= capacity b /\ grow_to size_of_request b bytes = b) \/
  (capacity b < bytes /\ header (grow_to size_of_request b bytes) = zero_request /\ mem (grow_to size_of_request b bytes) = ∅).
Proof.
  unfold grow_to. destruct (Z.ltb_spec (capacity b) bytes); [right|left]; done.
Qed.

Lemma prepare_wf b : buffer_wf b -> buffer_wf (prepare b).
Proof. done. Qed.

Lemma declared_body_len_in_u b d : declared_body_len b = Some d -> in_u 64 d.
Proof.
  unfold declared_body_len. intros H.
  repeat split_match; simplify_eq; [by eapply parse_uint_bounds|..];
    unfold in_u, umax; lia.
Qed.

(** After [prepare] no field is stale: every accessor finds zero or null. *)
Lemma prepare_known_header b id : known_header_bytes (prepare b) id = None.
Proof.
  unfold known_header_bytes, prepare. cbn [header KnownHeaders zero_request].
  destruct (replicate _ _ !! id) as [h|] eqn:E; [|done].
  apply lookup_replicate in E as [-> _]. done.
Qed.

Lemma prepare_declared b : declared_body_len (prepare b) = None.
Proof. unfold declared_body_len. by rewrite prepare_known_header. Qed.

Section pool_facts.
Context `{ArrayQueueLaws Q}.

Lemma needed_spec d :
  in_u 64 d -> saturating_add 64 d HEADER_SLACK = Z.min (d + HEADER_SLACK) (2 ^ 64 - 1).
Proof. done. Qed.

(** [fit_body_inline] on every branch.  With no declared length it answers
    [true] and leaves the buffer alone.  With a declared length [d] it answers
    [true] exactly when [d] plus the header slack is within the configured
    maximum; then the buffer that comes back has room for both, it never
    shrank, and its size is still exact and large enough for the header
    block. *)
Theorem fit_body_inline_spec (p : BufferPool Q) b ok b' :
  buffer_wf b -> 0 <= bp_max_bytes p < 2 ^ 32 - 8 ->
  fit_body_inline size_of_request p b = (ok, b') ->
  buffer_wf b' /\ capacity b <= capacity b' /\
  match declared_body_len b with
  | None => ok = true /\ b' = b
  | Some d =>
      (ok = true <-> d + HEADER_SLACK <= bp_max_bytes p) /\
      (ok = true -> d + HEADER_SLACK <= capacity b') /\
      (ok = false -> b' = b)
  end.
Proof.
  intros Hwf Hmax. unfold fit_body_inline.
  destruct (declared_body_len b) as [d|] eqn:Hd; [|by intros [= <- <-]].
  apply declared_body_len_in_u in Hd. unfold in_u in Hd.
  unfold saturating_add, HEADER_SLACK, umax.
  destruct (Z.ltb_spec (bp_max_bytes p) (Z.min (d + 8 * 1024) (2 ^ 64 - 1)));
    intros [= <- <-].
  - split; [done|]. split; [lia|]. split; [split; [done|lia]|]. done.
  - pose proof (grow_to_capacity b (Z.min (d + 8 * 1024) (2 ^ 64 - 1)) ltac:(lia)).
    split; [apply grow_to_wf; [done|lia]|]. split; [lia|].
    split; [split; [lia|done]|]. split; [lia|done].
Qed.

(** The request survives [fit_body_inline] unless the buffer had to grow, in
    which case nothing of it is left. *)
Lemma fit_body_inline_contents (p : BufferPool Q) b ok b' :
  fit_body_inline size_of_request p b = (ok, b') ->
  b' = b \/ (ok = true /\ header b' = zero_request /\ mem b' = ∅).
Proof.
  unfold fit_body_inline. destruct (declared_body_len b); [|intros [= <- <-]; auto].
  destruct (_ <? _); intros [= <- <-]; [auto|].
  destruct (grow_to_cases b (saturating_add 64 z HEADER_SLACK)) as [[_ ->]|(? & ? & ?)]; auto.
Qed.

Lemma fit_body_inline_grows (p : BufferPool Q) b d :
  declared_body_len b = Some d -> d + HEADER_SLACK <= bp_max_bytes p < 2 ^ 64 - 1 ->
  capacity b < d + HEADER_SLACK ->
  exists b', fit_body_inline size_of_request p b = (true, b') /\ header b' = zero_request.
Proof.
  intros Hd Hmax Hcap. unfold fit_body_inline. rewrite Hd.
  unfold saturating_add, umax. rewrite Z.min_l by lia.
  destruct (Z.ltb_spec (bp_max_bytes p) (d + HEADER_SLACK)); [lia|].
  eexists. split; [done|].
  destruct (grow_to_cases b (d + HEADER_SLACK)) as [[? _]|(_ & ? & _)]; [lia|done].
Qed.

(** ** One slot's buffer over its life *)

(** The buffers of a slot: the pool and the one checked out.  The kernel may
    write anything through the pointer it is given. *)
Inductive buffer_step : BufferPool Q * option RequestBuffer ->
                        BufferPool Q * option RequestBuffer -> Prop :=
  | step_take p b p' :
      buffer_take size_of_request p = (b, p') -> buffer_step (p, None) (p', Some b)
  | step_prepare p b : buffer_step (p, Some b) (p, Some (prepare b))
  | step_kernel p b h m :
      buffer_step (p, Some b) (p, Some (mkBuffer (words b) h m))
  | step_fit p b ok b' :
      fit_body_inline size_of_request p b = (ok, b') -> buffer_step (p, Some b) (p, Some b')
  | step_drop p b : buffer_step (p, Some b) (buffer_drop b p, None).

Definition pool_ok (n : Z) (p : BufferPool Q) : Prop :=
  zlen (aq_items (bp_free p)) <= n /\ aq_cap (bp_free p) = n /\
  0 <= bp_bytes p <= bp_max_bytes p /\ bp_max_bytes p < 2 ^ 32 - 8 /\
  Forall buffer_wf (aq_items (bp_free p)).

Lemma fit_body_inline_wf (p : BufferPool Q) b ok b' n :
  pool_ok n p -> buffer_wf b -> fit_body_inline size_of_request p b = (ok, b') -> buffer_wf b'.
Proof.
  intros (_ & _ & Hb & Hm & _) Hwf. unfold fit_body_inline.
  destruct (declared_body_len b) as [d|] eqn:Hd; [|by intros [= <- <-]].
  apply declared_body_len_in_u in Hd. unfold in_u in Hd.
  unfold saturating_add, HEADER_SLACK, umax.
  destruct (Z.ltb_spec (bp_max_bytes p) (Z.min (d + 8 * 1024) (2 ^ 64 - 1)));
    intros [= <- <-]; [done|]. apply grow_to_wf; [done|lia].
Qed.

Lemma buffer_step_inv n s s' :
  buffer_step s s' ->
  pool_ok n s.1 /\ (forall b, s.2 = Some b -> buffer_wf b) ->
  pool_ok n s'.1 /\ (forall b, s'.2 = Some b -> buffer_wf b).
Proof.
  intros Hstep [(Hlen & Hcap & Hb & Hm & HF) Hcur].
  destruct Hstep as [p b p' Ht|p b|p b h m|p b ok b' Hf|p b]; cbn in *.
  - unfold buffer_take in Ht. destruct (aq_pop (bp_free p)) as [o free] eqn:Hp.
    apply aq_pop_cases in Hp as [Hc Ho]. simplify_eq. cbn.
    split; [repeat split|]; cbn; try lia.
    + destruct o; [rewrite Ho, zlen_cons in Hlen; lia|destruct Ho as [Ho ->]; by rewrite Ho in Hlen].
    + destruct o; [by rewrite Ho in HF; apply Forall_cons in HF as [_ ?]|].
      destruct Ho as [_ ->]. constructor.
    + intros b' [= <-]. destruct o; [rewrite Ho in HF; by apply Forall_cons in HF as [? _]|].
      apply buffer_new_wf. lia.
  - split; [done|]. intros b' [= <-]. by apply prepare_wf, Hcur.
  - split; [done|]. intros b' [= <-]. by apply (Hcur b).
  - split; [done|]. intros ? [= <-]. eapply fit_body_inline_wf; [|by apply Hcur|done].
    done.
  - split; [|done]. unfold buffer_drop. destruct (aq_push b (bp_free p)) as [o free] eqn:Hp.
    apply aq_push_cases in Hp as [Hc Ho]. repeat split; cbn; try lia.
    + destruct o; destruct Ho as [? Ho]; [destruct Ho as [? ->]; lia|].
      rewrite Ho, zlen_app, zlen_cons, zlen_nil. lia.
    + destruct o; destruct Ho as [? Ho]; [by destruct Ho as [? ->]|].
      rewrite Ho. apply Forall_app. auto.
Qed.

(** C21. Buffer safety over the whole life of a slot.  Whatever sequence of
    takes, prepares, kernel writes, resizes and drops a slot performs, the
    buffer checked out is larger than the header block it is cast to, the
    length handed to the kernel is its true length, and the free list never
    holds more than the number of slots it was created with. *)
Theorem buffer_lifecycle_safe slots bytes max_bytes s :
  0 <= bytes < 2 ^ 32 - 8 -> max_bytes < 2 ^ 32 - 8 ->
  rtc buffer_step (buffer_pool_new slots bytes max_bytes, None) s ->
  zlen (aq_items (bp_free s.1)) <= Z.max slots 1 /\
  forall b, s.2 = Some b ->
    size_of_request < capacity b /\ capacity b = words b * 8 /\ in_u 32 (words b * 8).
Proof.
  intros Hb Hm Hr.
  assert (pool_ok (Z.max slots 1) s.1 /\ (forall b, s.2 = Some b -> buffer_wf b)) as [Hp Hwf].
  { eapply (rtc_invariant buffer_step
      (fun s => pool_ok (Z.max slots 1) s.1 /\ (forall b, s.2 = Some b -> buffer_wf b)));
      [|exact Hr|].
    - intros a b ? ?. by apply (buffer_step_inv _ a b).
    - split; [|done]. unfold pool_ok. cbn.
      rewrite aq_new_items, aq_new_cap, zlen_nil by lia. repeat split; lia || constructor. }
  split; [by destruct Hp|]. intros b Hs. destruct (Hwf b Hs) as [H1 H2].
  split; [lia|]. split; [done|]. rewrite <- H2. apply wrap_in_u. lia.
Qed.

(** A slot's own buffer comes back to it: dropped into an empty pool, it is
    the next one taken. *)
Lemma buffer_recycled (p : BufferPool Q) b :
  aq_items (bp_free p) = [] -> 0 < aq_cap (bp_free p) ->
  fst (buffer_take size_of_request (buffer_drop b p)) = b.
Proof.
  intros Hi Hc. unfold buffer_drop, buffer_take.
  destruct (aq_push b (bp_free p)) as [o free] eqn:Hp.
  apply aq_push_cases in Hp as [_ Ho]. rewrite Hi, zlen_nil in Ho.
  destruct o; [lia|]. destruct Ho as [_ Ho]. cbn in *.
  destruct (aq_pop free) as [o' free'] eqn:Hp. apply aq_pop_cases in Hp as [_ Hp].
  rewrite Ho in Hp. destruct o'; cbn; [by simplify_eq|by destruct Hp].
Qed.
End pool_facts.
End request_buffer_facts.

(** ** Properties of body buffers *)

Section body_pool_facts.
Context `{ArrayQueueLaws Q} `{VecAllocLaws}.

(** Everything in the free list is empty and small enough to keep. *)
Definition body_pool_ok (n cap : Z) (p : BodyPool Q) : Prop :=
  aq_cap (body_free p) = n /\ zlen (aq_items (body_free p)) <= n /\ max_retained p = cap /\
  Forall (fun v => vec_data v = [] /\ vec_cap v <= cap) (aq_items (body_free p)).

Lemma body_pool_new_ok slots cap : body_pool_ok (Z.max slots 1) cap (body_pool_new slots cap).
Proof.
  unfold body_pool_ok, body_pool_new. cbn [body_free max_retained].
  rewrite aq_new_cap, aq_new_items, zlen_nil by lia. repeat split; lia || constructor.
Qed.

Lemma body_take_ok n cap p capacity v p' :
  body_pool_ok n cap p -> body_take p capacity = (v, p') ->
  body_pool_ok n cap p' /\ vec_data v = [].
Proof.
  intros (Hn & Hl & Hm & HF). unfold body_take.
  destruct (aq_pop (body_free p)) as [o free] eqn:Hp. apply aq_pop_cases in Hp as [Hc Hp].
  intros [= <- <-]. unfold body_pool_ok. cbn. rewrite vec_reserve_exact_data. destruct o as [v|].
  - rewrite Hp in *. apply Forall_cons in HF as [[Hv _] HF]. rewrite zlen_cons in Hl.
    repeat split; try done; lia.
  - destruct Hp as [Hp Hf]. rewrite Hp in Hl. rewrite Hf. repeat split; try done; lia.
Qed.

Lemma body_drop_ok n cap p v : body_pool_ok n cap p -> body_pool_ok n cap (body_drop v p).
Proof.
  intros (Hn & Hl & Hm & HF). unfold body_drop.
  destruct (Z.leb_spec (vec_cap v) (max_retained p)); [|done].
  destruct (aq_push (vec_clear v) (body_free p)) as [o free] eqn:Hp.
  apply aq_push_cases in Hp as [Hc Hp]. unfold body_pool_ok. cbn.
  destruct o; destruct Hp as [Hlt Hp].
  - destruct Hp as [? ->]. repeat split; try done; lia.
  - rewrite Hp, zlen_app, zlen_cons, zlen_nil, Forall_app. repeat split; try done; try lia.
    constructor; [|done]. split; [done|]. cbn. lia.
Qed.

(** What tasks do to the shared pool: take with any capacity, drop any vector. *)
Inductive body_step : BodyPool Q -> BodyPool Q -> Prop :=
  | body_step_take p capacity v p' : body_take p capacity = (v, p') -> body_step p p'
  | body_step_drop p v : body_step p (body_drop v p).

Lemma body_step_ok n cap p p' : body_step p p' -> body_pool_ok n cap p -> body_pool_ok n cap p'.
Proof. intros Hs Hok; destruct Hs; [by eapply body_take_ok|by apply body_drop_ok]. Qed.

Definition retained_bytes (p : BodyPool Q) : Z :=
  foldr Z.add 0 (map vec_cap (aq_items (body_free p))).

Lemma foldr_add_bound (l : list Vec) cap :
  Forall (fun v => vec_data v = [] /\ vec_cap v <= cap) l ->
  foldr Z.add 0 (map vec_cap l) <= zlen l * cap.
Proof.
  induction 1 as [|v l [_ Hv] _ IH]; simpl foldr; [done|].
  rewrite zlen_cons. lia.
Qed.

(** C22. One outsized upload cannot pin memory.  After any sequence of takes and
    drops by any tasks, the shared pool retains at most [slots] vectors, each
    empty and of capacity at most [max_retained], so at most
    [slots * max_retained] bytes in total. *)
Theorem body_pool_bounded slots cap p :
  0 <= cap -> rtc body_step (body_pool_new slots cap) p ->
  retained_bytes p <= Z.max slots 1 * cap /\
  Forall (fun v => vec_data v = [] /\ vec_cap v <= cap) (aq_items (body_free p)).
Proof.
  intros Hcap Hr.
  assert (body_pool_ok (Z.max slots 1) cap p) as (_ & Hl & _ & HF).
  { eapply (rtc_invariant body_step); [|exact Hr|apply body_pool_new_ok].
    intros; by eapply body_step_ok. }
  split; [|done]. pose proof (foldr_add_bound _ _ HF). unfold retained_bytes. nia.
Qed.

(** The capacity of the vector the free list would give next. *)
Definition recycled_cap (p : BodyPool Q) : Z :=
  match aq_items (body_free p) with v :: _ => vec_cap v | [] => 0 end.

Lemma body_take_vec n cap p capacity :
  body_pool_ok n cap p ->
  (body_take p capacity).1 =
  vec_reserve_exact (mkVec [] (recycled_cap p)) (saturating_sub capacity (recycled_cap p)).
Proof.
  intros (_ & _ & _ & HF). unfold body_take, recycled_cap.
  destruct (aq_pop (body_free p)) as [o free] eqn:Hp. apply aq_pop_cases in Hp as [_ Hp].
  destruct o as [v|].
  - rewrite Hp in *. apply Forall_cons in HF as [[Hv _] _]. cbn. destruct v as [d c].
    cbn in *. by subst d.
  - destruct Hp as [-> _]. done.
Qed.
End body_pool_facts.

(** What [BodyPool::take] really reserves.  [reserve_exact] counts from the
    length of the vector, which is zero, while the caller subtracts the recycled
    capacity [c]: the capacity that comes back is the larger of [c] and
    [capacity - c].  It therefore covers the request exactly when nothing was
    recycled or the recycled vector was already big enough; in between, the
    vector is short of the "room for at least [capacity] bytes" the doc comment
    promises. *)
Theorem body_take_capacity `{ArrayQueueLaws Q} n cap (p : BodyPool Q) capacity :
  body_pool_ok n cap p -> 0 <= capacity -> 0 <= recycled_cap p ->
  vec_data (body_take p capacity).1 = [] /\
  vec_cap (body_take p capacity).1 = Z.max (recycled_cap p) (capacity - recycled_cap p) /\
  (capacity <= vec_cap (body_take p capacity).1 <->
   recycled_cap p = 0 \/ capacity <= recycled_cap p).
Proof.
  intros Hok Hc Hr. rewrite (body_take_vec n cap) by done. set (c := recycled_cap p) in *.
  rewrite vec_reserve_exact_data. split; [done|].
  unfold vec_reserve_exact, saturating_sub, vec_len. cbn [vec_cap vec_data]. change (zlen (@nil Z)) with 0.
  destruct (Z.leb_spec (Z.max (capacity - c) 0) (c - 0)); cbn; lia.
Qed.

(** ** Witnesses *)

(** A received request whose [Content-Length] is the text [t], in a buffer of
    [w] words. *)
Definition sample_buffer (w : Z) (id ctx : Z) (t : str) : RequestBuffer :=
  mkBuffer w
    (mkRequestV2 0 7 id ctx HttpVerbPOST 0 0 None None
       (<[HttpHeaderContentLength := mkKnown (zlen t) (Some 1024)]>
          (replicate HttpHeaderRequestMaximum zero_header)) 0 None)
    (write_at 1024 t ∅).

Example sample_declared : declared_body_len (sample_buffer 2048 1 1 (lit "65536")) = Some 65536.
Proof. vm_compute. reflexivity. Qed.

Lemma fit_body_inline_spec_witness :
  let p := buffer_pool_new (Q := list_queue) 1 16384 131072 in
  let b := sample_buffer 2048 1 1 (lit "65536") in
  exists b', fit_body_inline 1000 p b = (true, b') /\ 65536 + HEADER_SLACK <= capacity b'.
Proof.
  intros p b. exists (buffer_new 1000 73728). split; [vm_compute; reflexivity|].
  assert (Hf : fit_body_inline 1000 p b = (true, buffer_new 1000 73728))
    by (vm_compute; reflexivity).
  apply (fit_body_inline_spec 1000 ltac:(lia) p b) in Hf.
  - destruct Hf as (_ & _ & _ & Hroom & _). by apply Hroom.
  - split; vm_compute; reflexivity.
  - vm_compute. split; congruence.
Defined.

Lemma buffer_lifecycle_safe_witness :
  1000 < capacity (buffer_new 1000 16384).
Proof.
  refine (proj1 (proj2 (buffer_lifecycle_safe (Q := list_queue) 1000 ltac:(lia) 1 16384 131072
    (buffer_pool_new 1 16384 131072, Some (buffer_new 1000 16384))
    ltac:(lia) ltac:(lia) _) _ eq_refl)).
  eapply rtc_once. apply step_take. vm_compute. reflexivity.
Defined.

Lemma body_pool_bounded_witness :
  retained_bytes (body_drop (mkVec [1; 2] 900) (body_pool_new (Q := list_queue) 4 1024)) <= 4 * 1024.
Proof.
  refine (proj1 (body_pool_bounded (Q := list_queue) 4 1024 _ ltac:(lia) _)).
  eapply rtc_once. apply body_step_drop.
Defined.

(** Concretely: asked for 6000 bytes with a 4096-byte vector in the free list,
    the pool hands out 4096. *)
Lemma body_take_capacity_witness :
  vec_cap (body_take (body_drop (mkVec [] 4096) (body_pool_new (Q := list_queue) 2 1048576)) 6000).1
  = 4096.
Proof.
  set (p := body_drop _ _).
  assert (Hok : body_pool_ok (Z.max 2 1) 1048576 p) by apply body_drop_ok, body_pool_new_ok.
  destruct (body_take_capacity _ _ p 6000 Hok) as (_ & Hcap & _); [done|done|].
  exact Hcap.
Defined.
