(* ===== verification/Overlapped.v ===== *)
(** * Overlapped operations (crates/httpsys/src/overlapped.rs)

    [OverlappedWrap] behind its [Arc], the pool of finished wraps, and the life
    of one operation: from [Op::new], which hands a strong reference to the
    kernel, to [Op::finish], a completion thread or a cancelled future, which
    take it back.  The heap of [Arc]s is explicit, so that reference counts and
    aliasing are those of the code.

    The file has the operations as functions on that heap, the run of one
    operation to completion ([submit_and_finish]), and the interleaved system
    [op_step] in which completion threads, pollers, cancellation and the kernel
    take steps in any order. *)

From S2P Require Import Prelude Errors Crates HttpApi.
Set Warnings "-clear-no-such-hyp".

Definition ERROR_IO_PENDING : Z := 997.

Inductive Poll (A : Type) :=
  | Ready (a : A)
  | Pending.
Arguments Ready {A}.
Arguments Pending {A}.

Section overlapped.
Context `{ArrayQueue Q} `{AtomicWaker W AW}.

Record OverlappedWrap := mkWrap {
  inner : Z * Z;
  w_bytes : Z;
  completed : bool;
  waker : AW;
  err : Z;
  len : Z;
}.

Definition wrap_new : OverlappedWrap := mkWrap (0, 0) 0 false aw_new 0 0.

(** [complete] also says which waker it woke. *)
Definition complete (win32_err bytes : Z) (w : OverlappedWrap) : option W * OverlappedWrap :=
  let '(woken, a) := aw_wake (waker w) in
  (woken, mkWrap (inner w) (w_bytes w) true a win32_err bytes).

Definition is_completed (w : OverlappedWrap) : bool := completed w.

Definition wrap_result (w : OverlappedWrap) : result Z :=
  if err w =? 0 then Ok (len w) else Err (Win32 (err w)).

Definition register (cx : W) (w : OverlappedWrap) : OverlappedWrap :=
  mkWrap (inner w) (w_bytes w) (completed w) (aw_register cx (waker w)) (err w) (len w).

Definition poll_complete (cx : W) (w : OverlappedWrap) : Poll (result Z) * OverlappedWrap :=
  if is_completed w then (Ready (wrap_result w), w)
  else
    let w := register cx w in
    if is_completed w then (Ready (wrap_result w), w) else (Pending, w).

(** [reset] assigns every field. *)
Definition reset (w : OverlappedWrap) : OverlappedWrap :=
  let w := mkWrap (0, 0) (w_bytes w) (completed w) (waker w) (err w) (len w) in
  let w := mkWrap (inner w) 0 (completed w) (waker w) (err w) (len w) in
  let w := mkWrap (inner w) (w_bytes w) false (waker w) (err w) (len w) in
  let w := mkWrap (inner w) (w_bytes w) (completed w) aw_new (err w) (len w) in
  let w := mkWrap (inner w) (w_bytes w) (completed w) (waker w) 0 (len w) in
  mkWrap (inner w) (w_bytes w) (completed w) (waker w) (err w) 0.

(** ** The heap of [Arc]s and the pool *)

Record Heap := mkHeap { arcs : gmap nat (nat * OverlappedWrap); free : Q nat }.

Definition op_pool_new (slots : Z) : Heap := mkHeap ∅ (aq_new (Z.max slots 1)).

Definition arc_new (w : OverlappedWrap) (h : Heap) : nat * Heap :=
  let l := fresh (dom (arcs h)) in (l, mkHeap (<[l := (1%nat, w)]> (arcs h)) (free h)).
Definition arc_clone (l : nat) (h : Heap) : Heap :=
  match arcs h !! l with
  | Some (n, w) => mkHeap (<[l := (S n, w)]> (arcs h)) (free h)
  | None => h
  end.
Definition arc_drop (l : nat) (h : Heap) : Heap :=
  match arcs h !! l with
  | Some (S (S n), w) => mkHeap (<[l := (S n, w)]> (arcs h)) (free h)
  | Some _ => mkHeap (delete l (arcs h)) (free h)
  | None => h
  end.
Definition arc_get_mut (l : nat) (h : Heap) : option OverlappedWrap :=
  match arcs h !! l with Some (1%nat, w) => Some w | _ => None end.
(** A write through the shared pointer. *)
Definition arc_set (l : nat) (w : OverlappedWrap) (h : Heap) : Heap :=
  match arcs h !! l with
  | Some (n, _) => mkHeap (<[l := (n, w)]> (arcs h)) (free h)
  | None => h
  end.
Definition arc_read (l : nat) (h : Heap) : option OverlappedWrap := snd <$> arcs h !! l.

Definition op_take (h : Heap) : nat * Heap :=
  let '(o, q) := aq_pop (free h) in
  let h := mkHeap (arcs h) q in
  match o with Some l => (l, h) | None => arc_new wrap_new h end.

Definition give_back (l : nat) (h : Heap) : Heap :=
  match arc_get_mut l h with
  | None => arc_drop l h
  | Some unique =>
      let h := arc_set l (reset unique) h in
      let '(rejected, q) := aq_push l (free h) in
      let h := mkHeap (arcs h) q in
      match rejected with Some l => arc_drop l h | None => h end
  end.

(** ** Operations *)

Record Op := mkOp { op_wrap : nat; leaked : nat; skip_on_success : bool }.

Definition op_new (skip : bool) (h : Heap) : Op * Heap :=
  let '(l, h) := op_take h in
  (mkOp l l skip, arc_clone l h).

(** [*self.wrap.bytes.get()]. *)
Definition reported_bytes (op : Op) (h : Heap) : Z :=
  match arc_read (op_wrap op) h with Some w => w_bytes w | None => 0 end.

Definition reclaim (op : Op) (h : Heap) : Heap := arc_drop (leaked op) h.

(** [finish], split at its await.  [finish_start] runs up to it: either it
    returns, or it has made the future, whose clone it holds. *)
Definition finish_start (op : Op) (ec : Z) (h : Heap) : option (result Z) * Heap :=
  if (ec =? 0) && skip_on_success op then
    let bytes := reported_bytes op h in
    (Some (Ok bytes), give_back (op_wrap op) (reclaim op h))
  else if (ec =? 0) || (ec =? ERROR_IO_PENDING) then
    (None, arc_clone (op_wrap op) h)
  else
    (Some (Err (Win32 ec)), give_back (op_wrap op) (reclaim op h)).
(** After the await: the future is dropped, then the wrap goes back. *)
Definition finish_end (op : Op) (h : Heap) : Heap :=
  give_back (op_wrap op) (arc_drop (op_wrap op) h).

(** [deliver_completion], split between the completion and the drop of the
    reference it reclaimed. *)
Definition packet_err (p : Packet) : Z :=
  match p_status p with
  | None => 0
  | Some e => default 0 (win32_code (from_windows_error e))
  end.
Definition deliver_complete (l : nat) (p : Packet) (h : Heap) : Heap :=
  match arc_read l h with
  | Some w => arc_set l (snd (complete (packet_err p) (p_bytes p) w)) h
  | None => h
  end.

(** What the kernel writes while it holds its reference. *)
Definition kernel_write (l : nat) (scribble : Z * Z) (bytes : Z) (h : Heap) : Heap :=
  match arc_read l h with
  | Some w => arc_set l (mkWrap scribble bytes (completed w) (waker w) (err w) (len w)) h
  | None => h
  end.

(** ** One operation run to its end

    The submission answers [a]; when a packet is due it is delivered while the
    submitter awaits, the future is polled ready, and the completion thread
    drops its reference before or, when [io_lag a], after the wrap is given
    back. *)
Definition op_finish (op : Op) (a : IoAnswer) (h : Heap) : result Z * Heap :=
  match finish_start op (io_ec a) h with
  | (Some r, h) => (r, h)
  | (None, h) =>
      let h := deliver_complete (leaked op) (io_packet a) h in
      let h := if io_lag a then h else arc_drop (leaked op) h in
      let r := match arc_read (op_wrap op) h with
               | Some w => wrap_result w
               | None => Ok 0
               end in
      let h := finish_end op h in
      (r, if io_lag a then arc_drop (leaked op) h else h)
  end.

Definition submit_and_finish (skip : bool) (a : IoAnswer) (h : Heap) : result Z * Heap :=
  let '(op, h) := op_new skip h in
  op_finish op a (kernel_write (leaked op) (io_scribble a) (io_reported a) h).

(** What an operation yields, as a function of the kernel's answer alone. *)
Definition io_result (skip : bool) (a : IoAnswer) : result Z :=
  if (io_ec a =? 0) && skip then Ok (io_reported a)
  else if (io_ec a =? 0) || (io_ec a =? ERROR_IO_PENDING) then
    if packet_err (io_packet a) =? 0 then Ok (p_bytes (io_packet a))
    else Err (Win32 (packet_err (io_packet a)))
  else Err (Win32 (io_ec a)).

(** ** The interleaved system *)

Inductive Phase :=
  | Submitting                  (* between [Op::new] and the return of the call *)
  | Submitted (ec reported : Z) (* the call returned; [finish] not yet polled *)
  | Awaiting                    (* suspended on [AsyncOverlappedFuture] *)
  | Cancelling                  (* its drop has called [CancelIoEx] and spins *)
  | Returned (r : result Z)
  | Dropped.                    (* cancelled, every Rust reference gone *)

(** One operation.  [o_answer] and [o_packet] record what the kernel did: its
    answer to the call and the packet it posted.  [o_kern] and [o_thr] record what
    Rust did: whether the reference leaked for the kernel is still leaked, and
    whether a completion thread has turned it back into an [Arc]. *)
Record OpState := mkOpState {
  o_op : Op;
  o_phase : Phase;
  o_kern : bool;
  o_thr : bool;
  o_answer : option (Z * Z);
  o_packet : option Packet;
}.

Record Sys := mkSys { heap : Heap; ops : gmap nat OpState }.

(** No packet will come for this status. *)
Definition packet_due (skip : bool) (ec : Z) : bool :=
  (ec =? ERROR_IO_PENDING) || ((ec =? 0) && negb skip).

(** What the kernel may still do to an operation, from its own doings alone: after
    the answer it owes the packet that is due and has not been posted, and before
    the packet it may still write.  Whether Rust has kept the memory for it is not
    the kernel's to know. *)
Definition kernel_owes (o : OpState) : bool :=
  match o_answer o, o_packet o with
  | Some (ec, _), None => packet_due (skip_on_success (o_op o)) ec
  | _, _ => false
  end.
Definition kernel_owns (o : OpState) : bool :=
  match o_answer o with
  | None => true                (* the call is in progress *)
  | Some _ => kernel_owes o
  end.

Inductive op_step : Sys -> Sys -> Prop :=
  | step_new s i skip op h :
      ops s !! i = None -> op_new skip (heap s) = (op, h) ->
      op_step s (mkSys h (<[i := mkOpState op Submitting true false None None]> (ops s)))
  (* the call returns; the kernel acts whatever Rust did with the leaked reference *)
  | step_submit s i op ec scribble bytes :
      ops s !! i = Some (mkOpState op Submitting true false None None) ->
      op_step s (mkSys (kernel_write (leaked op) scribble bytes (heap s))
        (<[i := mkOpState op (Submitted ec bytes) true false (Some (ec, bytes)) None]> (ops s)))
  | step_kernel_write s i o scribble bytes :
      ops s !! i = Some o -> kernel_owns o = true ->
      op_step s (mkSys (kernel_write (leaked (o_op o)) scribble bytes (heap s)) (ops s))
  | step_finish_returns s i op ec bytes k t p r h :
      (* it has reclaimed the leaked reference *)
      ops s !! i = Some (mkOpState op (Submitted ec bytes) k t (Some (ec, bytes)) p) ->
      finish_start op ec (heap s) = (Some r, h) ->
      op_step s (mkSys h
        (<[i := mkOpState op (Returned r) false t (Some (ec, bytes)) p]> (ops s)))
  | step_finish_awaits s i op ec bytes k t p h :
      ops s !! i = Some (mkOpState op (Submitted ec bytes) k t (Some (ec, bytes)) p) ->
      finish_start op ec (heap s) = (None, h) ->
      op_step s (mkSys h (<[i := mkOpState op Awaiting k t (Some (ec, bytes)) p]> (ops s)))
  | step_deliver s i op ph k ec bytes p :
      ops s !! i = Some (mkOpState op ph k false (Some (ec, bytes)) None) ->
      packet_due (skip_on_success op) ec = true ->
      op_step s (mkSys (deliver_complete (leaked op) p (heap s))
        (<[i := mkOpState op ph false true (Some (ec, bytes)) (Some p)]> (ops s)))
  | step_thread_drop s i op ph k a p :
      ops s !! i = Some (mkOpState op ph k true a p) ->
      op_step s (mkSys (arc_drop (leaked op) (heap s))
        (<[i := mkOpState op ph k false a p]> (ops s)))
  | step_poll_pending s i op k t a p cx w w' :
      ops s !! i = Some (mkOpState op Awaiting k t a p) ->
      arc_read (op_wrap op) (heap s) = Some w ->
      poll_complete cx w = (Pending, w') ->
      op_step s (mkSys (arc_set (op_wrap op) w' (heap s)) (ops s))
  | step_poll_ready s i op k t a p cx w w' r :
      ops s !! i = Some (mkOpState op Awaiting k t a p) ->
      arc_read (op_wrap op) (heap s) = Some w ->
      poll_complete cx w = (Ready r, w') ->
      op_step s (mkSys (finish_end op (heap s))
        (<[i := mkOpState op (Returned r) k t a p]> (ops s)))
  | step_cancel s i op k t a p w :
      (* the drop of the future finds [completed] unset *)
      ops s !! i = Some (mkOpState op Awaiting k t a p) ->
      arc_read (op_wrap op) (heap s) = Some w -> is_completed w = false ->
      op_step s (mkSys (heap s) (<[i := mkOpState op Cancelling k t a p]> (ops s)))
  | step_future_dropped s i op ph k t a p w :
      (* the drop of the future finds it set, at once or after spinning *)
      ops s !! i = Some (mkOpState op ph k t a p) -> (ph = Awaiting \/ ph = Cancelling) ->
      arc_read (op_wrap op) (heap s) = Some w -> is_completed w = true ->
      op_step s (mkSys (arc_drop (op_wrap op) (arc_drop (op_wrap op) (heap s)))
        (<[i := mkOpState op Dropped k t a p]> (ops s))).

Definition sys_init (slots : Z) (s : Sys) : Prop := s = mkSys (op_pool_new slots) ∅.
End overlapped.

Arguments OverlappedWrap AW : clear implicits.
Arguments Heap Q AW : clear implicits.
Arguments Sys Q AW : clear implicits.

(** ** The heap and its owners

    [R] says how many references each wrap outside the pool has among operations,
    the kernel and completion threads. *)

Section heap_facts.
Context `{ArrayQueueLaws Q} `{AtomicWaker W AW}.
Implicit Types (h : Heap Q AW) (R : gmap nat nat) (w : OverlappedWrap AW).

Record heap_ok h R : Prop := {
  ho_owned l n : R !! l = Some n -> (0 < n)%nat /\ exists w, arcs h !! l = Some (n, w);
  ho_pool l : l ∈ aq_items (free h) -> R !! l = None /\ arcs h !! l = Some (1%nat, wrap_new);
  ho_nodup : NoDup (aq_items (free h));
  ho_all l x : arcs h !! l = Some x -> is_Some (R !! l) \/ l ∈ aq_items (free h);
}.

Lemma heap_ok_init slots : heap_ok (op_pool_new slots) ∅.
Proof.
  split; cbn [op_pool_new arcs free]; rewrite ?aq_new_items by lia.
  - done.
  - by intros l ?%elem_of_nil.
  - constructor.
  - done.
Qed.

Lemma reset_pristine w : reset w = wrap_new.
Proof. done. Qed.

Lemma arc_read_owned h R l n : heap_ok h R -> R !! l = Some n -> is_Some (arc_read l h).
Proof. intros Hok Hl. destruct (ho_owned _ _ Hok l n Hl) as (_ & w & Hw). exists w. unfold arc_read. by rewrite Hw. Qed.

(** Replacing one owned entry keeps the rest. *)
Lemma heap_ok_update h R l n m w :
  heap_ok h R -> R !! l = Some n -> (0 < m)%nat ->
  heap_ok (mkHeap (<[l := (m, w)]> (arcs h)) (free h)) (<[l := m]> R).
Proof.
  intros [Ho Hp Hn Ha] Hl Hm. split; cbn [arcs free].
  - intros k x. rewrite !lookup_insert. case_decide; [intros; simplify_eq; eauto|apply Ho].
  - intros k Hk. destruct (Hp k Hk). assert (l <> k) by congruence.
    by rewrite !lookup_insert_ne.
  - done.
  - intros k x. rewrite !lookup_insert. case_decide; [eauto|]. intros Hx. destruct (Ha k x Hx); eauto.
Qed.

Lemma heap_ok_delete h R l n :
  heap_ok h R -> R !! l = Some n ->
  heap_ok (mkHeap (delete l (arcs h)) (free h)) (delete l R).
Proof.
  intros [Ho Hp Hn Ha] Hl. split; cbn [arcs free].
  - intros k x. rewrite !lookup_delete. case_decide; [done|apply Ho].
  - intros k Hk. destruct (Hp k Hk). assert (l <> k) by congruence.
    by rewrite !lookup_delete_ne.
  - done.
  - intros k x. rewrite !lookup_delete. case_decide; [done|]. apply Ha.
Qed.

Lemma arc_clone_ok h R l n :
  heap_ok h R -> R !! l = Some n -> heap_ok (arc_clone l h) (<[l := S n]> R).
Proof.
  intros Hok Hl. destruct (ho_owned _ _ Hok l n Hl) as (_ & w & Hw).
  unfold arc_clone. rewrite Hw. eapply heap_ok_update; eauto. lia.
Qed.

Lemma arc_set_ok h R l n w : heap_ok h R -> R !! l = Some n -> heap_ok (arc_set l w h) R.
Proof.
  intros Hok Hl. destruct (ho_owned _ _ Hok l n Hl) as (? & w' & Hw).
  unfold arc_set. rewrite Hw. rewrite <- (insert_id R l n Hl). by eapply heap_ok_update.
Qed.

(** The owners after one of [n] references to [l] is gone. *)
Definition less_one (l n : nat) R : gmap nat nat :=
  match n with S (S n) => <[l := S n]> R | _ => delete l R end.

Lemma arc_drop_ok h R l n :
  heap_ok h R -> R !! l = Some n -> heap_ok (arc_drop l h) (less_one l n R).
Proof.
  intros Hok Hl. destruct (ho_owned _ _ Hok l n Hl) as (? & w & Hw).
  unfold arc_drop. rewrite Hw. destruct n as [|[|n]]; cbn [less_one]; [lia|..].
  - by eapply heap_ok_delete.
  - eapply heap_ok_update; eauto. lia.
Qed.

Lemma less_one_lookup_ne l k n R : l <> k -> less_one l n R !! k = R !! k.
Proof. intros. destruct n as [|[|n]]; cbn; by rewrite ?lookup_delete_ne, ?lookup_insert_ne. Qed.

Lemma less_one_lookup l n R :
  less_one l n R !! l = match n with S (S n) => Some (S n) | _ => None end.
Proof. destruct n as [|[|n]]; cbn; by rewrite ?lookup_delete_eq, ?lookup_insert_eq. Qed.

Lemma op_take_ok h R l h' :
  heap_ok h R -> op_take h = (l, h') ->
  R !! l = None /\ arcs h' !! l = Some (1%nat, wrap_new) /\ heap_ok h' (<[l := 1%nat]> R).
Proof.
  intros [Ho Hp Hn Ha]. unfold op_take. destruct (aq_pop (free h)) as [o q] eqn:Hq.
  apply aq_pop_cases in Hq as [_ Hq]. destruct o as [l'|].
  - intros [= <- <-]. cbn [arcs]. rewrite Hq in *. apply NoDup_cons in Hn as [Hnin Hn].
    destruct (Hp l') as [Hl Hw]; [by apply elem_of_cons; left|].
    split; [done|]. split; [done|]. split; cbn [arcs free].
    + intros k n. rewrite lookup_insert. case_decide; [|apply Ho]. intros [= <-]. subst. eauto.
    + intros k Hk. destruct (Hp k) as [Hk1 Hk2]; [by apply elem_of_cons; right|].
      assert (l' <> k) by (intros ->; contradiction). by rewrite lookup_insert_ne.
    + done.
    + intros k x Hx. rewrite lookup_insert. case_decide; [eauto|].
      destruct (Ha k x Hx) as [|Hin]; [auto|]. apply elem_of_cons in Hin as [->|]; [done|auto].
  - destruct Hq as [Hq1 Hq2]. unfold arc_new. cbn [arcs free]. intros [= <- <-]. cbn [arcs].
    set (l := fresh (dom (arcs h))).
    assert (arcs h !! l = None) as Hl by apply not_elem_of_dom, is_fresh.
    assert (R !! l = None) as HR.
    { destruct (R !! l) eqn:E; [|done]. destruct (Ho _ _ E) as (_ & w & ?). congruence. }
    split; [done|]. split; [by rewrite lookup_insert_eq|]. split; cbn [arcs free].
    + intros k n. rewrite !lookup_insert. case_decide; [|apply Ho]. intros [= <-]. eauto.
    + rewrite Hq2. by intros k ?%elem_of_nil.
    + rewrite Hq2. constructor.
    + intros k x. rewrite !lookup_insert. case_decide; [eauto|]. rewrite Hq1, Hq2 in *. apply Ha.
Qed.

Lemma op_new_ok h R skip op h' :
  heap_ok h R -> op_new skip h = (op, h') ->
  leaked op = op_wrap op /\ skip_on_success op = skip /\ R !! op_wrap op = None /\
  arcs h' !! op_wrap op = Some (2%nat, wrap_new) /\ heap_ok h' (<[op_wrap op := 2%nat]> R).
Proof.
  intros Hok. unfold op_new. destruct (op_take h) as [l h1] eqn:Ht. intros [= <- <-]. cbn [op_wrap leaked skip_on_success].
  destruct (op_take_ok h R l h1 Hok Ht) as (HR & Hw & Hok1).
  do 2 (split; [done|]). split; [done|]. split.
  - unfold arc_clone. rewrite Hw. cbn. by rewrite lookup_insert_eq.
  - rewrite <- (insert_insert_eq R l 2 1)%nat. apply arc_clone_ok; [done|]. apply lookup_insert_eq.
Qed.

(** Giving a wrap back: pooled, reset, when it was the last reference. *)
Lemma give_back_ok h R l n :
  heap_ok h R -> R !! l = Some n -> heap_ok (give_back l h) (less_one l n R).
Proof.
  intros Hok Hl. pose proof (ho_owned _ _ Hok l n Hl) as (Hn & w & Hw).
  unfold give_back, arc_get_mut. rewrite Hw.
  destruct n as [|[|n]]; [lia| |by apply arc_drop_ok]. cbn [less_one].
  assert (Hset : heap_ok (arc_set l (reset w) h) R) by by eapply arc_set_ok.
  destruct (aq_push l (free (arc_set l (reset w) h))) as [rej q] eqn:Hp.
  apply aq_push_cases in Hp as [_ Hp].
  assert (Harcs : arcs (arc_set l (reset w) h) = <[l := (1%nat, wrap_new)]> (arcs h)).
  { unfold arc_set. by rewrite Hw. }
  revert Hset Hp. generalize (arc_set l (reset w) h) Harcs. intros h1 Harcs1 Hset Hp.
  destruct Hset as [Ho Hpool Hnd Ha]. destruct rej as [l'|].
  - destruct Hp as (-> & _ & Hq). unfold arc_drop. cbn [arcs]. rewrite Harcs1, lookup_insert_eq.
    rewrite <- Harcs1. cbn [arcs free].
    apply (heap_ok_delete (mkHeap (arcs h1) q) R l 1); [|done].
    split; cbn [arcs free]; rewrite ?Hq; eauto.
  - destruct Hp as [_ Hq]. split; cbn [arcs free].
    + intros k m. rewrite lookup_delete. case_decide; [done|apply Ho].
    + intros k. rewrite Hq, elem_of_app, list_elem_of_singleton, lookup_delete, Harcs1.
      intros [Hk| ->].
      * destruct (Hpool k Hk) as [HR Hk1]. case_decide; [congruence|]. rewrite <- Harcs1. done.
      * case_decide; [|done]. by rewrite lookup_insert_eq.
    + rewrite Hq. apply NoDup_app. split; [done|]. split; [|apply NoDup_singleton].
      intros k Hk ->%list_elem_of_singleton. destruct (Hpool _ Hk). congruence.
    + intros k x Hx. rewrite Hq, elem_of_app, list_elem_of_singleton, lookup_delete.
      case_decide; [auto|]. destruct (Ha k x Hx); auto.
Qed.

(** Each operation touches only the wrap it is about. *)
Lemma arc_clone_frame l k h : l <> k -> arcs (arc_clone l h) !! k = arcs h !! k.
Proof. intros. unfold arc_clone. split_match; [|done]. split_match. cbn. by rewrite lookup_insert_ne. Qed.
Lemma arc_drop_frame l k h : l <> k -> arcs (arc_drop l h) !! k = arcs h !! k.
Proof.
  intros. unfold arc_drop. destruct (arcs h !! l) as [[[|[|n]] w]|]; cbn;
    by rewrite ?lookup_delete_ne, ?lookup_insert_ne.
Qed.
Lemma arc_set_frame l k w h : l <> k -> arcs (arc_set l w h) !! k = arcs h !! k.
Proof. intros. unfold arc_set. split_match; [|done]. split_match. cbn. by rewrite lookup_insert_ne. Qed.
Lemma give_back_frame l k h : l <> k -> arcs (give_back l h) !! k = arcs h !! k.
Proof.
  intros. unfold give_back. destruct (arc_get_mut l h) as [w|]; [|by apply arc_drop_frame].
  destruct (aq_push l (free (arc_set l (reset w) h))) as [[l'|] q] eqn:Hp; cbn.
  - apply aq_push_cases in Hp as (_ & -> & _). rewrite arc_drop_frame by done.
    by apply arc_set_frame.
  - by apply arc_set_frame.
Qed.
Lemma op_new_frame skip op h h' k :
  op_new skip h = (op, h') -> op_wrap op <> k -> arcs h' !! k = arcs h !! k.
Proof.
  unfold op_new, op_take, arc_new. destruct (aq_pop (free h)) as [[l|] q]; cbn;
    intros [= <- <-] Hne; cbn in *; rewrite arc_clone_frame by done; [done|].
  cbn. by rewrite lookup_insert_ne.
Qed.

(** Dropping one of several references leaves the contents. *)
Lemma arc_drop_read h R l n :
  heap_ok h R -> R !! l = Some n -> (1 < n)%nat -> arc_read l (arc_drop l h) = arc_read l h.
Proof.
  intros Hok Hl Hn. destruct (ho_owned _ _ Hok l n Hl) as (_ & w & Hw).
  unfold arc_drop, arc_read. rewrite Hw. destruct n as [|[|n]]; [lia..|]. cbn.
  by rewrite lookup_insert_eq.
Qed.
Lemma give_back_read h R l n :
  heap_ok h R -> R !! l = Some n -> (1 < n)%nat -> arc_read l (give_back l h) = arc_read l h.
Proof.
  intros Hok Hl Hn. pose proof (ho_owned _ _ Hok l n Hl) as (_ & w & Hw).
  unfold give_back, arc_get_mut. rewrite Hw. destruct n as [|[|n]]; [lia..|].
  by eapply arc_drop_read.
Qed.
Lemma arc_clone_read l k h : arc_read k (arc_clone l h) = arc_read k h.
Proof.
  unfold arc_clone, arc_read. destruct (arcs h !! l) as [[n w]|] eqn:E; [|done]. cbn.
  rewrite lookup_insert. case_decide; [|done]. subst. by rewrite E.
Qed.
Lemma arc_set_read l w h : is_Some (arc_read l h) -> arc_read l (arc_set l w h) = Some w.
Proof.
  unfold arc_set, arc_read. intros [x Hx]. destruct (arcs h !! l) as [[n w']|]; [|done]. cbn.
  by rewrite lookup_insert_eq.
Qed.
Lemma arc_read_frame l k h h' :
  (forall k, l <> k -> arcs h' !! k = arcs h !! k) -> l <> k -> arc_read k h' = arc_read k h.
Proof. intros Hf Hk. unfold arc_read. by rewrite Hf. Qed.
End heap_facts.

(** ** How one step changes the owners of one wrap *)

Section evolution.
Context `{ArrayQueueLaws Q} `{AtomicWaker W AW}.
Implicit Types (h : Heap Q AW) (R : gmap nat nat) (w : OverlappedWrap AW).

Definition set_owner (l m : nat) R : gmap nat nat :=
  match m with O => delete l R | _ => <[l := m]> R end.

(** From [n] references to [l] in [h] to [m] in [h']; other wraps untouched, and
    [l]'s contents too while it is owned. *)
Definition evolves (l : nat) h (n : nat) h' (m : nat) : Prop :=
  forall R, heap_ok h R -> R !! l = Some n ->
    heap_ok h' (set_owner l m R) /\
    (forall k, l <> k -> arcs h' !! k = arcs h !! k) /\
    ((0 < m)%nat -> arc_read l h' = arc_read l h).

Lemma set_owner_lookup l m R : set_owner l m R !! l = match m with O => None | _ => Some m end.
Proof. destruct m; cbn; by rewrite ?lookup_delete_eq, ?lookup_insert_eq. Qed.
Lemma set_owner_lookup_ne l k m R : l <> k -> set_owner l m R !! k = R !! k.
Proof. intros. destruct m; cbn; by rewrite ?lookup_delete_ne, ?lookup_insert_ne. Qed.
Lemma set_owner_twice l m k R : set_owner l k (set_owner l m R) = set_owner l k R.
Proof.
  destruct k, m; cbn; rewrite ?insert_insert_eq, ?insert_delete_eq, ?delete_insert_eq,
    ?delete_delete_eq; done.
Qed.
Lemma less_one_set l n R : less_one l n R = set_owner l (pred n) R.
Proof. by destruct n as [|[|n]]. Qed.

Lemma evolves_refl l h n : evolves l h n h n.
Proof.
  intros R Hok Hl. split; [|done].
  destruct n; cbn; [|by rewrite insert_id]. destruct (ho_owned _ _ Hok _ _ Hl). lia.
Qed.

Lemma evolves_trans l h n h1 m h2 k :
  evolves l h n h1 m -> (0 < m)%nat -> evolves l h1 m h2 k -> evolves l h n h2 k.
Proof.
  intros Hev1 Hm Hev2 R Hok Hl. destruct (Hev1 R Hok Hl) as (Hok1 & Hf1 & Hr1).
  destruct (Hev2 (set_owner l m R)) as (Hok2 & Hf2 & Hr2).
  { done. }
  { rewrite set_owner_lookup. destruct m; [lia|done]. }
  rewrite set_owner_twice in Hok2. split; [done|]. split.
  - intros. by rewrite Hf2, Hf1.
  - intros. by rewrite Hr2, Hr1.
Qed.

Lemma evolves_drop l h n : (0 < n)%nat -> evolves l h n (arc_drop l h) (pred n).
Proof.
  intros Hn R Hok Hl. rewrite <- less_one_set. split; [by apply arc_drop_ok|].
  split; [intros; by apply arc_drop_frame|]. intros. eapply arc_drop_read; eauto. lia.
Qed.
Lemma evolves_give_back l h n : (0 < n)%nat -> evolves l h n (give_back l h) (pred n).
Proof.
  intros Hn R Hok Hl. rewrite <- less_one_set. split; [by apply give_back_ok|].
  split; [intros; by apply give_back_frame|]. intros. eapply give_back_read; eauto. lia.
Qed.
Lemma evolves_clone l h n : (0 < n)%nat -> evolves l h n (arc_clone l h) (S n).
Proof.
  intros Hn R Hok Hl. split; [by apply arc_clone_ok|].
  split; [intros; by apply arc_clone_frame|]. intros. apply arc_clone_read.
Qed.

(** [finish_end]: the future's reference, then the operation's. *)
Lemma evolves_finish_end op h n :
  (1 < n)%nat -> evolves (op_wrap op) h n (finish_end op h) (pred (pred n)).
Proof.
  intros. unfold finish_end. eapply evolves_trans; [apply evolves_drop; lia|lia|].
  apply evolves_give_back. lia.
Qed.
Lemma evolves_reclaim_give_back op h n :
  leaked op = op_wrap op -> (1 < n)%nat ->
  evolves (op_wrap op) h n (give_back (op_wrap op) (reclaim op h)) (pred (pred n)).
Proof.
  intros Hl Hn. unfold reclaim. rewrite Hl.
  eapply evolves_trans; [apply evolves_drop; lia|lia|]. apply evolves_give_back. lia.
Qed.

(** Status codes split [finish] three ways. *)
Lemma finish_start_cases op ec h :
  finish_start op ec h =
  if packet_due (skip_on_success op) ec then (None, arc_clone (op_wrap op) h)
  else (Some (if ec =? 0 then Ok (reported_bytes op h) else Err (Win32 ec)),
        give_back (op_wrap op) (reclaim op h)).
Proof.
  unfold finish_start, packet_due, ERROR_IO_PENDING.
  destruct (Z.eqb_spec ec 0) as [->|]; [by destruct (skip_on_success op)|].
  cbn. by destruct (ec =? 997).
Qed.
End evolution.

(** ** The invariant of the interleaved system *)

Section system_facts.
Context `{ArrayQueueLaws Q} `{AtomicWaker W AW}.
Implicit Types (h : Heap Q AW) (R : gmap nat nat) (w : OverlappedWrap AW).
Implicit Types (s : Sys Q AW) (o : OpState).

Definition phase_refs (ph : Phase) : nat :=
  match ph with
  | Submitting | Submitted _ _ => 1
  | Awaiting | Cancelling => 2
  | Returned _ | Dropped => 0
  end.
(** References to the operation's wrap, over all their holders. *)
Definition refs o : nat :=
  (phase_refs (o_phase o) + Nat.b2n (o_kern o) + Nat.b2n (o_thr o))%nat.

Local Abbreviation loc o := (op_wrap (o_op o)).

(** The result an operation may return, from what the kernel answered. *)
Definition expected_result (skip : bool) (ec bytes : Z) (p : option Packet) : option (result Z) :=
  if packet_due skip ec then
    (fun p => if packet_err p =? 0 then Ok (p_bytes p) else Err (Win32 (packet_err p))) <$> p
  else Some (if ec =? 0 then Ok bytes else Err (Win32 ec)).

(** The reference handed over is with the kernel until a packet reclaims it. *)
Definition in_flight o : Prop :=
  (o_kern o = true /\ o_thr o = false /\ o_packet o = None) \/
  (o_kern o = false /\ is_Some (o_packet o) /\
   exists ec b, o_answer o = Some (ec, b) /\ packet_due (skip_on_success (o_op o)) ec = true).

Definition op_ok o : Prop :=
  leaked (o_op o) = op_wrap (o_op o) /\
  match o_phase o with
  | Submitting => o_kern o = true /\ o_thr o = false /\ o_packet o = None /\ o_answer o = None
  | Submitted ec b => o_answer o = Some (ec, b) /\ in_flight o
  | Awaiting | Cancelling =>
      in_flight o /\
      exists ec b, o_answer o = Some (ec, b) /\ packet_due (skip_on_success (o_op o)) ec = true
  | Returned r =>
      o_kern o = false /\ (o_packet o = None -> o_thr o = false) /\
      exists ec b, o_answer o = Some (ec, b) /\
        expected_result (skip_on_success (o_op o)) ec b (o_packet o) = Some r
  | Dropped => o_kern o = false /\ is_Some (o_packet o) /\ is_Some (o_answer o)
  end.

Definition wrap_matches o w : Prop :=
  match o_packet o with
  | None => completed w = false
  | Some p => completed w = true /\ err w = packet_err p /\ len w = p_bytes p
  end /\
  (forall ec b, o_phase o = Submitted ec b -> packet_due (skip_on_success (o_op o)) ec = false ->
     w_bytes w = b).

Record sys_ok s R : Prop := {
  so_heap : heap_ok (heap s) R;
  so_op i o : ops s !! i = Some o -> op_ok o;
  so_refs i o : ops s !! i = Some o -> (0 < refs o)%nat ->
    R !! loc o = Some (refs o) /\ exists w, arc_read (loc o) (heap s) = Some w /\ wrap_matches o w;
  so_distinct i j o o' : ops s !! i = Some o -> ops s !! j = Some o' ->
    (0 < refs o)%nat -> (0 < refs o')%nat -> loc o = loc o' -> i = j;
  so_owned l n : R !! l = Some n ->
    exists i o, ops s !! i = Some o /\ (0 < refs o)%nat /\ loc o = l;
}.

Lemma sys_ok_init slots s : sys_init slots s -> sys_ok s ∅.
Proof.
  intros ->. split; cbn [heap ops]; [apply heap_ok_init|done..].
Qed.

(** A step of operation [i] that only concerns its own wrap. *)
Lemma sys_ok_local s R i o o' h' :
  sys_ok s R -> ops s !! i = Some o -> (0 < refs o)%nat -> loc o' = loc o ->
  heap_ok h' (set_owner (loc o) (refs o') R) ->
  (forall k, loc o <> k -> arcs h' !! k = arcs (heap s) !! k) ->
  op_ok o' ->
  ((0 < refs o')%nat -> exists w, arc_read (loc o) h' = Some w /\ wrap_matches o' w) ->
  sys_ok (mkSys h' (<[i := o']> (ops s))) (set_owner (loc o) (refs o') R).
Proof.
  intros [Hh Hop Hrefs Hdist Hown] Hi Hpos Hloc Hh' Hframe Hok' Hread.
  split; cbn [heap ops]; [done|..].
  - intros j oj. rewrite lookup_insert. case_decide; [by intros [= <-]|apply Hop].
  - intros j oj. rewrite lookup_insert. case_decide.
    + intros [= <-] Hr. rewrite Hloc, set_owner_lookup. split; [|by apply Hread].
      destruct (refs o'); [lia|done].
    + intros Hj Hr. destruct (decide (loc o = loc oj)) as [E|E].
      { assert (i = j) by (eapply Hdist; eauto). congruence. }
      rewrite set_owner_lookup_ne by done. destruct (Hrefs j oj Hj Hr) as (HR & w & Hw & Hm).
      split; [done|]. exists w. split; [|done]. unfold arc_read in *. by rewrite Hframe.
  - intros j k oj ok. rewrite !lookup_insert. case_decide; case_decide; try congruence.
    + intros [= <-] Hk _ Hrk. rewrite Hloc. intros E.
      assert (i = k) by (eapply Hdist; eauto). congruence.
    + intros Hj [= <-] Hrj _. rewrite Hloc. intros E.
      assert (j = i) by (eapply Hdist; eauto). congruence.
    + intros Hj Hk ???. by eapply (Hdist j k oj ok).
  - intros l n. destruct (decide (loc o = l)) as [<-|E].
    + rewrite set_owner_lookup. intros HR. exists i, o'. rewrite lookup_insert_eq.
      destruct (refs o'); [done|]. repeat split; [lia|done].
    + rewrite set_owner_lookup_ne by done. intros HR. destruct (Hown l n HR) as (j & oj & Hj & Hr & Hl).
      exists j, oj. rewrite lookup_insert_ne; [done|]. intros ->. congruence.
Qed.

(** The same, for heap changes described by [evolves]. *)
Lemma sys_ok_evolves s R i o o' l h' :
  sys_ok s R -> ops s !! i = Some o -> (0 < refs o)%nat -> loc o = l -> loc o' = l ->
  evolves l (heap s) (refs o) h' (refs o') -> op_ok o' ->
  (forall w, wrap_matches o w -> wrap_matches o' w) ->
  sys_ok (mkSys h' (<[i := o']> (ops s))) (set_owner l (refs o') R).
Proof.
  intros Hs Hi Hpos <- Hloc Hev Hok' Hm.
  destruct (so_refs _ _ Hs i o Hi Hpos) as (HR & w & Hw & Hwm).
  destruct (Hev R (so_heap _ _ Hs) HR) as (Hh' & Hf & Hr).
  eapply sys_ok_local; eauto. intros Hp. exists w. rewrite Hr by done. eauto.
Qed.

(** The same, for a write through the shared pointer. *)
Lemma sys_ok_write s R i o o' l w w' :
  sys_ok s R -> ops s !! i = Some o -> (0 < refs o)%nat -> loc o = l -> loc o' = l ->
  refs o' = refs o -> arc_read l (heap s) = Some w -> op_ok o' -> wrap_matches o' w' ->
  sys_ok (mkSys (arc_set l w' (heap s)) (<[i := o']> (ops s))) R.
Proof.
  intros Hs Hi Hpos <- Hloc Hrefs Hw Hok' Hm. destruct (so_refs _ _ Hs i o Hi Hpos) as (HR & _).
  assert (set_owner (loc o) (refs o') R = R) as HRR.
  { rewrite Hrefs. destruct (refs o); [lia|]. by apply insert_id. }
  rewrite <- HRR. apply (sys_ok_local s R i o o'); try done.
  - rewrite HRR. eapply arc_set_ok; eauto using so_heap.
  - intros. by apply arc_set_frame.
  - intros _. exists w'. rewrite arc_set_read; [done|]. by rewrite Hw.
Qed.

Lemma refs_pos_phase o : (0 < phase_refs (o_phase o))%nat -> (0 < refs o)%nat.
Proof. unfold refs. lia. Qed.
Lemma refs_pos_kern o : o_kern o = true -> (0 < refs o)%nat.
Proof. unfold refs. intros ->. cbn. lia. Qed.
Lemma refs_pos_thr o : o_thr o = true -> (0 < refs o)%nat.
Proof. unfold refs. intros ->. cbn. lia. Qed.
Hint Resolve refs_pos_phase refs_pos_kern refs_pos_thr : core.

Lemma step_new_ok s R i skip op h :
  sys_ok s R -> ops s !! i = None -> op_new skip (heap s) = (op, h) ->
  sys_ok (mkSys h (<[i := mkOpState op Submitting true false None None]> (ops s)))
    (<[op_wrap op := 2%nat]> R).
Proof.
  intros [Hh Hop Hrefs Hdist Hown] Hi Hnew.
  destruct (op_new_ok _ _ _ _ _ Hh Hnew) as (Hl & Hs & HR & Hw & Hh').
  assert (Hfresh : forall j oj, ops s !! j = Some oj -> (0 < refs oj)%nat -> loc oj <> op_wrap op).
  { intros j oj Hj Hr E. destruct (Hrefs j oj Hj Hr) as [HRj _]. congruence. }
  split; cbn [heap ops]; [done|..].
  - intros j oj. rewrite lookup_insert. case_decide; [|apply Hop]. by intros [= <-].
  - intros j oj. rewrite lookup_insert. case_decide.
    + intros [= <-] _. cbn. rewrite lookup_insert_eq. split; [done|].
      exists wrap_new. unfold arc_read. rewrite Hw. done.
    + intros Hj Hr. pose proof (Hfresh j oj Hj Hr). rewrite lookup_insert_ne by done.
      destruct (Hrefs j oj Hj Hr) as (HRj & w & Hwj & Hm). split; [done|].
      exists w. split; [|done]. unfold arc_read in *. by erewrite op_new_frame by eauto.
  - intros j k oj ok. rewrite !lookup_insert. case_decide; case_decide; try congruence.
    + intros [= <-] Hk _ Hr E. by apply (Hfresh k ok) in Hk.
    + intros Hj [= <-] Hr _ E. by apply (Hfresh j oj) in Hj.
    + intros Hj Hk ???. by eapply (Hdist j k oj ok).
  - intros l n. rewrite lookup_insert. case_decide.
    + intros [= <-]. eexists i, _. rewrite lookup_insert_eq. split; [done|]. cbn. split; [lia|done].
    + intros HRl. destruct (Hown l n HRl) as (j & oj & Hj & Hr & Hlj).
      exists j, oj. rewrite lookup_insert_ne; [done|]. congruence.
Qed.

Lemma step_submit_ok s R i op ec scribble bytes :
  sys_ok s R -> ops s !! i = Some (mkOpState op Submitting true false None None) ->
  sys_ok (mkSys (kernel_write (leaked op) scribble bytes (heap s))
    (<[i := mkOpState op (Submitted ec bytes) true false (Some (ec, bytes)) None]> (ops s))) R.
Proof.
  intros Hs Hi. pose proof (so_op _ _ Hs _ _ Hi) as [Hl _]. cbn in Hl.
  destruct (so_refs _ _ Hs _ _ Hi) as (HR & w & Hw & Hm & _); [cbn; lia|].
  unfold kernel_write. rewrite Hl. cbn in Hw. rewrite Hw.
  eapply (sys_ok_write s R i _ _ _ w); [done|exact Hi|cbn; lia|done|done|done|done|..].
  - split; [done|]. cbn. split; [done|]. by left.
  - split; cbn; [done|]. by intros ?? [= -> ->].
Qed.

(** While the kernel may still act, the reference leaked for it is still leaked, no
    packet has come, and the submitter has not let go of the operation. *)
Lemma kernel_owns_kern o :
  op_ok o -> kernel_owns o = true ->
  o_kern o = true /\ o_thr o = false /\ o_packet o = None /\
  (forall r, o_phase o <> Returned r) /\ o_phase o <> Dropped.
Proof.
  intros [_ Hok] Ho. unfold kernel_owns, kernel_owes in Ho.
  assert (Hfl : in_flight o -> is_Some (o_answer o) -> o_kern o = true /\ o_thr o = false /\ o_packet o = None).
  { intros [?|(_ & [? E] & _)] [[??] Ea]; [done|]. by rewrite E, Ea in Ho. }
  destruct (o_phase o).
  - by destruct Hok as (? & ? & ? & ?).
  - destruct Hok as [Ea Hok]. destruct Hfl as (? & ? & ?); [done|by eexists|done].
  - destruct Hok as (Hok & ec & b & Ea & _). destruct Hfl as (? & ? & ?); [done|by eexists|done].
  - destruct Hok as (Hok & ec & b & Ea & _). destruct Hfl as (? & ? & ?); [done|by eexists|done].
  - destruct Hok as (_ & _ & ec & b & Ea & Hr). rewrite Ea in Ho. unfold expected_result in Hr.
    destruct (o_packet o); [done|]. by rewrite Ho in Hr.
  - destruct Hok as (_ & [p E] & [[??] Ea]). by rewrite Ea, E in Ho.
Qed.

Lemma step_kernel_write_ok s R i o scribble bytes :
  sys_ok s R -> ops s !! i = Some o -> kernel_owns o = true ->
  sys_ok (mkSys (kernel_write (leaked (o_op o)) scribble bytes (heap s)) (ops s)) R.
Proof.
  intros Hs Hi Ho. pose proof (so_op _ _ Hs _ _ Hi) as Hok. pose proof Hok as [Hl Hph].
  destruct (kernel_owns_kern _ Hok Ho) as (Hk & _ & Hp & _).
  destruct (so_refs _ _ Hs _ _ Hi) as (HR & w & Hw & Hm & _); [by apply refs_pos_kern|].
  unfold kernel_write. rewrite Hl, Hw.
  rewrite <- (insert_id (ops s) i _ Hi).
  eapply (sys_ok_write s R i _ _ _ w); [done|exact Hi|by apply refs_pos_kern|done..|].
  split; cbn; [done|]. intros ec b E Hdue. rewrite E in Hph. destruct Hph as [Ea _].
  unfold kernel_owns, kernel_owes in Ho. rewrite Ea, Hp in Ho. congruence.
Qed.

Lemma step_finish_returns_ok s R i op ec bytes k t p r h :
  sys_ok s R ->
  ops s !! i = Some (mkOpState op (Submitted ec bytes) k t (Some (ec, bytes)) p) ->
  finish_start op ec (heap s) = (Some r, h) ->
  exists R', sys_ok (mkSys h
    (<[i := mkOpState op (Returned r) false t (Some (ec, bytes)) p]> (ops s))) R'.
Proof.
  intros Hs Hi. pose proof (so_op _ _ Hs _ _ Hi) as (Hl & _ & Hfl). cbn in Hl.
  rewrite finish_start_cases. destruct (packet_due _ ec) eqn:Hdue; [done|]. intros [= <- <-].
  assert (k = true /\ t = false /\ p = None) as (-> & -> & ->).
  { destruct Hfl as [?|(_ & _ & ec' & b' & [= <- <-] & Hd)]; [done|]. cbn in Hd. congruence. }
  destruct (so_refs _ _ Hs _ _ Hi) as (HR & w & Hw & Hm & Hb); [by apply refs_pos_kern|].
  eexists. eapply (sys_ok_evolves s R i _ _ (op_wrap op)); [done|exact Hi|by apply refs_pos_kern|done|done|..].
  - by apply evolves_reclaim_give_back; [|cbn; lia].
  - split; [done|]. cbn. split; [done|]. split; [done|]. exists ec, bytes. split; [done|].
    unfold expected_result. rewrite Hdue. unfold reported_bytes. cbn in Hw.
    cbn in Hw. rewrite Hw. cbn in Hb. by rewrite (Hb ec bytes).
  - intros w' [Hm' _]. by split.
Qed.

Lemma step_finish_awaits_ok s R i op ec bytes k t p h :
  sys_ok s R ->
  ops s !! i = Some (mkOpState op (Submitted ec bytes) k t (Some (ec, bytes)) p) ->
  finish_start op ec (heap s) = (None, h) ->
  exists R', sys_ok (mkSys h
    (<[i := mkOpState op Awaiting k t (Some (ec, bytes)) p]> (ops s))) R'.
Proof.
  intros Hs Hi. pose proof (so_op _ _ Hs _ _ Hi) as (Hl & _ & Hfl). cbn in Hl.
  rewrite finish_start_cases. destruct (packet_due _ ec) eqn:Hdue; [|done]. intros [= <-].
  eexists. eapply (sys_ok_evolves s R i _ _ (op_wrap op)); [done|exact Hi|by apply refs_pos_phase; cbn; lia|done|done|..].
  - apply evolves_clone. cbn. lia.
  - split; [done|]. cbn. split; [exact Hfl|]. eauto.
  - intros w' [Hm' _]. by split.
Qed.

Lemma step_deliver_ok s R i op ph k ec bytes p :
  sys_ok s R -> ops s !! i = Some (mkOpState op ph k false (Some (ec, bytes)) None) ->
  packet_due (skip_on_success op) ec = true ->
  sys_ok (mkSys (deliver_complete (leaked op) p (heap s))
    (<[i := mkOpState op ph false true (Some (ec, bytes)) (Some p)]> (ops s))) R.
Proof.
  intros Hs Hi Hdue. pose proof (so_op _ _ Hs _ _ Hi) as Hop.
  destruct (kernel_owns_kern _ Hop Hdue) as (Hk & _). cbn in Hk. subst k.
  destruct Hop as [Hl Hok]. cbn in Hl.
  destruct (so_refs _ _ Hs _ _ Hi) as (HR & w & Hw & Hm & Hb); [by apply refs_pos_kern|].
  unfold deliver_complete. rewrite Hl. cbn in Hw. rewrite Hw.
  eapply (sys_ok_write s R i _ _ _ w);
    [done|exact Hi|by apply refs_pos_kern|done|done|unfold refs; cbn; lia|done|..].
  - assert (Hfl : in_flight (mkOpState op ph false true (Some (ec, bytes)) (Some p)))
      by (right; cbn; split_and!; [done|by eexists|by eauto]).
    split; [done|]. destruct ph; cbn in *; try naive_solver.
  - unfold complete. destruct (aw_wake (waker w)). split; cbn; [done|]. exact Hb.
Qed.

Lemma step_thread_drop_ok s R i op ph k a p :
  sys_ok s R -> ops s !! i = Some (mkOpState op ph k true a p) ->
  exists R', sys_ok (mkSys (arc_drop (leaked op) (heap s))
    (<[i := mkOpState op ph k false a p]> (ops s))) R'.
Proof.
  intros Hs Hi. pose proof (so_op _ _ Hs _ _ Hi) as [Hl Hok]. cbn in Hl. rewrite Hl.
  eexists. eapply (sys_ok_evolves s R i _ _ (op_wrap op)); [done|exact Hi|by apply refs_pos_thr|done|done|..].
  - replace (refs (mkOpState op ph k false a p)) with (pred (refs (mkOpState op ph k true a p)))
      by (unfold refs; cbn [o_phase o_kern o_thr Nat.b2n]; lia).
    apply evolves_drop. by apply refs_pos_thr.
  - split; [done|]. destruct ph; unfold in_flight in *; cbn in *; naive_solver.
  - intros w' Hm. done.
Qed.

Lemma poll_complete_cases cx w :
  poll_complete cx w =
  if completed w then (Ready (wrap_result w), w) else (Pending, register cx w).
Proof. unfold poll_complete, is_completed. by destruct (completed w) eqn:E; cbn; rewrite ?E. Qed.

(** A completed wrap holds the packet's result, and its packet was due. *)
Lemma completed_result o w :
  op_ok o -> wrap_matches o w -> completed w = true ->
  o_phase o = Awaiting \/ o_phase o = Cancelling ->
  exists ec b, o_answer o = Some (ec, b) /\ o_kern o = false /\ is_Some (o_packet o) /\
    expected_result (skip_on_success (o_op o)) ec b (o_packet o) = Some (wrap_result w).
Proof.
  intros [_ Hok] [Hm _] Hc Hph.
  assert (in_flight o /\ exists ec b, o_answer o = Some (ec, b) /\
    packet_due (skip_on_success (o_op o)) ec = true) as [Hfl (ec & b & Ha & Hdue)]
    by (by destruct Hph as [E|E]; rewrite E in Hok).
  exists ec, b. split; [done|]. destruct Hfl as [(_ & _ & E)|(Hk & [p Hp] & _)].
  { rewrite E in Hm. congruence. }
  rewrite Hp in *. destruct Hm as (_ & He & Hl). split; [done|]. split; [by eexists|].
  unfold expected_result, wrap_result. by rewrite Hdue, He, Hl.
Qed.

Lemma step_poll_pending_ok s R i op k t a p cx w w' :
  sys_ok s R -> ops s !! i = Some (mkOpState op Awaiting k t a p) ->
  arc_read (op_wrap op) (heap s) = Some w -> poll_complete cx w = (Pending, w') ->
  sys_ok (mkSys (arc_set (op_wrap op) w' (heap s)) (ops s)) R.
Proof.
  intros Hs Hi Hw. rewrite poll_complete_cases. destruct (completed w) eqn:Hc; [done|].
  intros [= <-]. pose proof (so_op _ _ Hs _ _ Hi) as Hok.
  destruct (so_refs _ _ Hs _ _ Hi) as (_ & w0 & Hw0 & Hm); [by apply refs_pos_phase; cbn; lia|].
  cbn in Hw0. simplify_eq. rewrite <- (insert_id (ops s) i _ Hi).
  eapply (sys_ok_write s R i _ _ (op_wrap op) w);
    [done|exact Hi|by apply refs_pos_phase; cbn; lia|done..].
Qed.

Lemma refs_consume_future op ph k t a p r :
  ph = Awaiting \/ ph = Cancelling -> phase_refs r = O ->
  refs (mkOpState op r k t a p) = pred (pred (refs (mkOpState op ph k t a p))) /\
  (1 < refs (mkOpState op ph k t a p))%nat.
Proof. unfold refs. intros [-> | ->] E; cbn [o_phase o_kern o_thr phase_refs]; rewrite E; lia. Qed.

Lemma step_poll_ready_ok s R i op k t a p cx w w' r :
  sys_ok s R -> ops s !! i = Some (mkOpState op Awaiting k t a p) ->
  arc_read (op_wrap op) (heap s) = Some w -> poll_complete cx w = (Ready r, w') ->
  exists R', sys_ok (mkSys (finish_end op (heap s))
    (<[i := mkOpState op (Returned r) k t a p]> (ops s))) R'.
Proof.
  intros Hs Hi Hw. rewrite poll_complete_cases. destruct (completed w) eqn:Hc; [|done].
  intros [= <- <-]. pose proof (so_op _ _ Hs _ _ Hi) as Hok.
  destruct (so_refs _ _ Hs _ _ Hi) as (_ & w0 & Hw0 & Hm); [by apply refs_pos_phase; cbn; lia|].
  cbn in Hw0. simplify_eq.
  destruct (completed_result _ _ Hok Hm Hc ltac:(by left)) as (ec & b & Ha & Hk & [q Hq] & Hr).
  cbn in Ha, Hk, Hq, Hr. subst.
  destruct (refs_consume_future op Awaiting false t (Some (ec, b)) (Some q)
    (Returned (wrap_result w)) ltac:(by left) eq_refl) as [Hrefs Hpos].
  eexists. eapply (sys_ok_evolves s R i _ _ (op_wrap op));
    [done|exact Hi|by apply refs_pos_phase; cbn; lia|done|done|..].
  - rewrite Hrefs. by apply evolves_finish_end.
  - split; [apply Hok|]. cbn. split; [done|]. split; [done|]. by exists ec, b.
  - intros w1 [Hm1 _]. by split.
Qed.

Lemma step_cancel_ok s R i op k t a p :
  sys_ok s R -> ops s !! i = Some (mkOpState op Awaiting k t a p) ->
  exists R', sys_ok (mkSys (heap s) (<[i := mkOpState op Cancelling k t a p]> (ops s))) R'.
Proof.
  intros Hs Hi. pose proof (so_op _ _ Hs _ _ Hi) as Hok.
  eexists. eapply (sys_ok_evolves s R i _ _ (op_wrap op));
    [done|exact Hi|by apply refs_pos_phase; cbn; lia|done|done|..].
  - apply evolves_refl.
  - exact Hok.
  - intros w1 [Hm1 _]. by split.
Qed.

Lemma step_future_dropped_ok s R i op ph k t a p w :
  sys_ok s R -> ops s !! i = Some (mkOpState op ph k t a p) ->
  (ph = Awaiting \/ ph = Cancelling) ->
  arc_read (op_wrap op) (heap s) = Some w -> is_completed w = true ->
  exists R', sys_ok (mkSys (arc_drop (op_wrap op) (arc_drop (op_wrap op) (heap s)))
    (<[i := mkOpState op Dropped k t a p]> (ops s))) R'.
Proof.
  intros Hs Hi Hph Hw Hc. pose proof (so_op _ _ Hs _ _ Hi) as Hok.
  destruct (refs_consume_future op ph k t a p Dropped Hph eq_refl) as [Hrefs Hpos].
  destruct (so_refs _ _ Hs _ _ Hi) as (_ & w0 & Hw0 & Hm); [lia|].
  cbn in Hw0. simplify_eq.
  destruct (completed_result _ _ Hok Hm Hc Hph) as (ec & b & Ha & Hk & Hp & _).
  eexists. eapply (sys_ok_evolves s R i _ _ (op_wrap op)); [done|exact Hi|lia|done|done|..].
  - rewrite Hrefs. eapply evolves_trans; [apply evolves_drop; lia|lia|].
    apply evolves_drop. lia.
  - split; [apply Hok|]. cbn in Ha |- *. by rewrite Ha.
  - intros w1 [Hm1 _]. by split.
Qed.

Lemma op_step_ok s s' R : sys_ok s R -> op_step s s' -> exists R', sys_ok s' R'.
Proof.
  intros Hs Hstep. destruct Hstep.
  - eexists. by eapply step_new_ok.
  - eexists. by eapply step_submit_ok.
  - eexists. by eapply step_kernel_write_ok.
  - by eapply step_finish_returns_ok.
  - by eapply step_finish_awaits_ok.
  - eexists. by eapply step_deliver_ok.
  - by eapply step_thread_drop_ok.
  - eexists. by eapply step_poll_pending_ok.
  - by eapply step_poll_ready_ok.
  - by eapply step_cancel_ok.
  - by eapply step_future_dropped_ok.
Qed.

Lemma reachable_sys_ok slots s : reachable (sys_init slots) op_step s -> exists R, sys_ok s R.
Proof.
  apply (reachable_invariant _ _ (fun s => exists R, sys_ok s R)).
  - intros ? ?. eexists. by eapply sys_ok_init.
  - intros a b [R Ha] Hab. by eapply op_step_ok.
Qed.

(** C1. The kernel never acts on memory Rust has reused.  In every reachable
    state of any number of concurrent operations, completion threads and
    cancellations: as long as the kernel may still act on an operation (its call
    is in progress, or a packet is due and has not come; what Rust did has no part
    in this), the reference leaked for it is still leaked, its wrap is allocated,
    is not in the free list and belongs to no other live operation, and the
    submitting future has neither returned nor finished being dropped, so the
    buffers it borrows are still in place.  Whatever the kernel still writes, and
    the pointer its packet still brings, therefore reach this operation alone. *)
Theorem kernel_access_safe slots s i o :
  reachable (sys_init slots) op_step s -> ops s !! i = Some o -> kernel_owns o = true ->
  o_kern o = true /\
  leaked (o_op o) = op_wrap (o_op o) /\
  is_Some (arc_read (op_wrap (o_op o)) (heap s)) /\
  (op_wrap (o_op o) ∉ aq_items (free (heap s))) /\
  (forall j o', ops s !! j = Some o' -> (0 < refs o')%nat ->
     op_wrap (o_op o') = op_wrap (o_op o) -> j = i) /\
  (forall r, o_phase o <> Returned r) /\ o_phase o <> Dropped.
Proof.
  intros Hreach Hi Ho. destruct (reachable_sys_ok _ _ Hreach) as [R Hs].
  pose proof (so_op _ _ Hs _ _ Hi) as Hok. destruct (kernel_owns_kern _ Hok Ho) as (Hk & _ & _ & Hph).
  destruct (so_refs _ _ Hs _ _ Hi) as (HR & w & Hw & _); [by apply refs_pos_kern|].
  split; [done|]. split; [apply Hok|]. split; [by exists w|]. split; [|split; [|exact Hph]].
  - intros Hin. destruct (ho_pool _ _ (so_heap _ _ Hs) _ Hin). congruence.
  - intros j o' Hj Hr E. by eapply (so_distinct _ _ Hs j i); eauto.
Qed.

(** C2. Reference counts are exact.  The count of a wrap in use is the number of
    its holders: the operation, its future, the kernel, a completion thread.  A
    pooled wrap has one reference, the pool's, and is indistinguishable from a
    new one.  Nothing else is allocated, so once no operation holds a reference
    every wrap is in the pool: the reference given to the kernel was reclaimed
    exactly once, never leaked and never reclaimed twice. *)
Theorem references_exact slots s :
  reachable (sys_init slots) op_step s ->
  (forall i o, ops s !! i = Some o -> (0 < refs o)%nat ->
     exists w, arcs (heap s) !! op_wrap (o_op o) = Some (refs o, w)) /\
  (forall l, l ∈ aq_items (free (heap s)) -> arcs (heap s) !! l = Some (1%nat, wrap_new)) /\
  NoDup (aq_items (free (heap s))) /\
  ((forall i o, ops s !! i = Some o -> refs o = O) ->
     forall l, l ∈ dom (arcs (heap s)) <-> l ∈ aq_items (free (heap s))).
Proof.
  intros Hreach. destruct (reachable_sys_ok _ _ Hreach) as [R Hs].
  pose proof (so_heap _ _ Hs) as Hh. split; [|split; [|split]].
  - intros i o Hi Hr. destruct (so_refs _ _ Hs _ _ Hi Hr) as [HR _].
    by destruct (ho_owned _ _ Hh _ _ HR).
  - intros l Hin. by apply (ho_pool _ _ Hh).
  - apply (ho_nodup _ _ Hh).
  - intros Hidle l. rewrite elem_of_dom. split.
    + intros [x Hx]. destruct (ho_all _ _ Hh l x Hx) as [[n HR]|]; [|done].
      destruct (so_owned _ _ Hs l n HR) as (i & o & Hi & Hr & _). rewrite (Hidle i o Hi) in Hr. lia.
    + intros Hin. destruct (ho_pool _ _ Hh l Hin) as [_ ->]. eauto.
Qed.

(** C3. Every operation that returns, returns what the kernel answered: the
    byte count left in place for an inline success, the status and length of
    its own completion packet when one was due, and the refusal otherwise,
    whatever the interleaving with other operations. *)
Theorem operation_result slots s i o r :
  reachable (sys_init slots) op_step s -> ops s !! i = Some o -> o_phase o = Returned r ->
  exists ec bytes, o_answer o = Some (ec, bytes) /\
    expected_result (skip_on_success (o_op o)) ec bytes (o_packet o) = Some r.
Proof.
  intros Hreach Hi Hr. destruct (reachable_sys_ok _ _ Hreach) as [R Hs].
  destruct (so_op _ _ Hs _ _ Hi) as [_ Hok]. rewrite Hr in Hok. by destruct Hok as (_ & _ & ?).
Qed.

(** ** One operation run alone is a run of the system *)

Lemma sys_ok_read s R i op ph k t a p :
  sys_ok s R -> ops s !! i = Some (mkOpState op ph k t a (Some p)) ->
  (0 < phase_refs ph)%nat ->
  exists w, arc_read (op_wrap op) (heap s) = Some w /\ completed w = true /\
    wrap_result w = if packet_err p =? 0 then Ok (p_bytes p) else Err (Win32 (packet_err p)).
Proof.
  intros Hs Hi Hph. destruct (so_refs _ _ Hs _ _ Hi) as (_ & w & Hw & (Hc & He & Hl) & _).
  { by apply refs_pos_phase. }
  exists w. split; [done|]. split; [done|]. unfold wrap_result. by rewrite He, Hl.
Qed.

(** The steps of an operation from its creation to the status of the call. *)
Lemma run_submit s i skip a op h :
  ops s !! i = None -> op_new skip (heap s) = (op, h) ->
  rtc op_step s
    (mkSys (kernel_write (leaked op) (io_scribble a) (io_reported a) h)
      (<[i := mkOpState op (Submitted (io_ec a) (io_reported a)) true false
                (Some (io_ec a, io_reported a)) None]> (ops s))).
Proof.
  intros Hi Hnew. eapply rtc_l; [by apply (step_new s i skip)|].
  eapply rtc_l.
  { apply (step_submit _ i op (io_ec a) (io_scribble a) (io_reported a)). apply lookup_insert_eq. }
  cbn [heap ops]. rewrite insert_insert_eq. apply rtc_refl.
Qed.

(** The steps from the delivery of its packet to its result, with the completion
    thread dropping its reference before or after. *)
Lemma run_deliver (cx : W) s R i op a :
  sys_ok s R ->
  ops s !! i = Some (mkOpState op Awaiting true false (Some (io_ec a, io_reported a)) None) ->
  packet_due (skip_on_success op) (io_ec a) = true ->
  let h := deliver_complete (leaked op) (io_packet a) (heap s) in
  let h := if io_lag a then h else arc_drop (leaked op) h in
  let h' := finish_end op h in
  let h' := if io_lag a then arc_drop (leaked op) h' else h' in
  exists r, (wrap_result <$> arc_read (op_wrap op) h) = Some r /\
    r = (if packet_err (io_packet a) =? 0 then Ok (p_bytes (io_packet a))
         else Err (Win32 (packet_err (io_packet a)))) /\
    rtc op_step s (mkSys h' (<[i := mkOpState op (Returned r) false false
      (Some (io_ec a, io_reported a)) (Some (io_packet a))]> (ops s))).
Proof.
  intros Hs Hi Hdue h1 h2 h3 h4.
  pose proof (step_deliver s i op Awaiting _ _ _ (io_packet a) Hi Hdue) as Hd.
  pose proof (step_deliver_ok s R i op Awaiting _ _ _ (io_packet a) Hs Hi Hdue) as Hs1.
  fold h1 in Hd, Hs1. set (s1 := mkSys h1 _) in *.
  assert (Hi1 : ops s1 !! i = Some (mkOpState op Awaiting false true
    (Some (io_ec a, io_reported a)) (Some (io_packet a)))) by apply lookup_insert_eq.
  destruct (io_lag a).
  - destruct (sys_ok_read _ _ _ _ _ _ _ _ _ Hs1 Hi1) as (w & Hw & Hc & Hr); [cbn; lia|].
    eexists. unfold h2. cbn [heap s1] in Hw. rewrite Hw. cbn. split; [done|]. split; [done|].
    eapply rtc_l; [exact Hd|]. eapply rtc_l.
    { eapply (step_poll_ready s1 i op _ _ _ _ cx w w); [exact Hi1|exact Hw|].
      by rewrite poll_complete_cases, Hc. }
    eapply rtc_l.
    { eapply (step_thread_drop _ i); apply lookup_insert_eq. }
    cbn [heap ops s1]. rewrite !insert_insert_eq. apply rtc_refl.
  - pose proof (step_thread_drop s1 i _ _ _ _ _ Hi1) as Ht.
    destruct (step_thread_drop_ok _ _ _ _ _ _ _ _ Hs1 Hi1) as [R2 Hs2].
    set (s2 := mkSys (arc_drop _ _) _) in *.
    assert (Hi2 : ops s2 !! i = Some (mkOpState op Awaiting false false
      (Some (io_ec a, io_reported a)) (Some (io_packet a)))) by apply lookup_insert_eq.
    destruct (sys_ok_read _ _ _ _ _ _ _ _ _ Hs2 Hi2) as (w & Hw & Hc & Hr); [cbn; lia|].
    eexists. unfold h2. cbn [heap s2 s1] in Hw. rewrite Hw. cbn. split; [done|]. split; [done|].
    eapply rtc_l; [exact Hd|]. eapply rtc_l; [exact Ht|]. eapply rtc_l.
    { eapply (step_poll_ready s2 i op _ _ _ _ cx w w); [exact Hi2|exact Hw|].
      by rewrite poll_complete_cases, Hc. }
    cbn [heap ops s2 s1]. rewrite !insert_insert_eq. apply rtc_refl.
Qed.

Lemma rtc_sys_ok s s' R : rtc op_step s s' -> sys_ok s R -> exists R', sys_ok s' R'.
Proof.
  intros Hr Hs. revert Hr. intros Hr.
  eapply (rtc_invariant op_step (fun s => exists R, sys_ok s R)); [|exact Hr|eauto].
  intros a b [R0 Ha] Hab. by eapply op_step_ok.
Qed.

Lemma submit_and_finish_run (cx : W) s R i skip a :
  sys_ok s R -> ops s !! i = None ->
  exists o, rtc op_step s (mkSys (submit_and_finish skip a (heap s)).2 (<[i := o]> (ops s))) /\
    o_phase o = Returned (submit_and_finish skip a (heap s)).1 /\ refs o = O /\
    (submit_and_finish skip a (heap s)).1 = io_result skip a.
Proof.
  intros Hs Hi. unfold submit_and_finish, op_finish. destruct (op_new skip (heap s)) as [op h] eqn:Hnew.
  destruct (op_new_ok _ _ _ _ _ (so_heap _ _ Hs) Hnew) as (Hl & <- & _).
  pose proof (run_submit s i _ a op h Hi Hnew) as Hrun.
  destruct (rtc_sys_ok _ _ _ Hrun Hs) as [R1 Hs1].
  set (h1 := kernel_write _ _ _ h) in *. set (s1 := mkSys h1 _) in *.
  assert (Hi1 : ops s1 !! i = Some (mkOpState op (Submitted (io_ec a) (io_reported a)) true false
    (Some (io_ec a, io_reported a)) None)) by apply lookup_insert_eq.
  destruct (finish_start op (io_ec a) h1) as [[r|] h2] eqn:Hf.
  - pose proof (step_finish_returns s1 i op _ _ _ _ _ r h2 Hi1 Hf) as Hstep.
    destruct (step_finish_returns_ok _ _ _ _ _ _ _ _ _ _ _ Hs1 Hi1 Hf) as [R2 Hs2].
    destruct (so_op _ _ Hs2 i _ (lookup_insert_eq _ _ _)) as (_ & _ & _ & ec & b & [= <- <-] & Hr).
    eexists. cbn [fst snd]. split; [eapply rtc_r; [exact Hrun|]|].
    + cbn [s1 ops] in Hstep. rewrite insert_insert_eq in Hstep. exact Hstep.
    + split; [done|]. split; [done|]. cbn in Hr. unfold expected_result in Hr. unfold io_result.
      rewrite finish_start_cases in Hf. unfold packet_due, ERROR_IO_PENDING in *.
      destruct (Z.eqb_spec (io_ec a) 0) as [E|E]; cbn in *.
      * rewrite E in *. destruct (skip_on_success op); cbn in *; by simplify_eq.
      * destruct (Z.eqb_spec (io_ec a) 997); cbn in *; by simplify_eq.
  - pose proof (step_finish_awaits s1 i op _ _ _ _ _ h2 Hi1 Hf) as Hstep.
    destruct (step_finish_awaits_ok _ _ _ _ _ _ _ _ _ _ Hs1 Hi1 Hf) as [R2 Hs2].
    assert (Hdue : packet_due (skip_on_success op) (io_ec a) = true).
    { rewrite finish_start_cases in Hf. by destruct (packet_due _ _). }
    destruct (run_deliver cx _ _ i op a Hs2 (lookup_insert_eq _ _ _) Hdue)
      as (r & Hread & Hr & Hrun2).
    cbn [heap ops s1] in *. destruct (arc_read (op_wrap op) _) as [w|] eqn:Hw in Hread; [|done].
    injection Hread as Hread. rewrite Hw, Hread. cbn [fst snd].
    rewrite !insert_insert_eq in Hrun2. eexists. split; [etrans; [exact Hrun|]|].
    + eapply rtc_l; [exact Hstep|]. cbn [s1 ops]. rewrite insert_insert_eq. exact Hrun2.
    + split; [done|]. split; [done|]. rewrite Hr. unfold io_result, packet_due in *.
      unfold ERROR_IO_PENDING in *. destruct (Z.eqb_spec (io_ec a) 0) as [E|E].
      * rewrite E in *. by destruct (skip_on_success op).
      * by destruct (io_ec a =? 997).
Qed.

(** Running an operation to its end at once is one of the interleavings of
    the system, and gives the result that depends on the kernel's answer
    alone: the sequential description used for the callers of [Op] refines the
    concurrent one. *)
Theorem submit_and_finish_refines (cx : W) slots s i skip a :
  reachable (sys_init slots) op_step s -> ops s !! i = None ->
  exists o, rtc op_step s (mkSys (submit_and_finish skip a (heap s)).2 (<[i := o]> (ops s))) /\
    o_phase o = Returned (io_result skip a) /\ refs o = O /\
    (submit_and_finish skip a (heap s)).1 = io_result skip a.
Proof.
  intros [R Hs]%reachable_sys_ok Hi.
  destruct (submit_and_finish_run cx s R i skip a Hs Hi) as (o & Hr & Hp & Hrefs & E).
  exists o. by rewrite <- E.
Qed.

(** A heap with no operation in flight. *)
Definition quiescent h : Prop := heap_ok h ∅.

Lemma op_pool_new_quiescent slots : quiescent (op_pool_new slots).
Proof. apply heap_ok_init. Qed.

Lemma submit_and_finish_spec (cx : W) h skip a :
  quiescent h ->
  (submit_and_finish skip a h).1 = io_result skip a /\ quiescent (submit_and_finish skip a h).2.
Proof.
  intros Hq. assert (Hs : sys_ok (mkSys h ∅) ∅) by (split; done).
  destruct (submit_and_finish_run cx _ _ O skip a Hs (lookup_empty _)) as (o & Hr & _ & Hrefs & E).
  split; [done|]. destruct (rtc_sys_ok _ _ _ Hr Hs) as [R' Hs']. cbn [heap] in *.
  assert (R' = ∅) as ->; [|apply (so_heap _ _ Hs')].
  apply map_eq. intros l. rewrite lookup_empty. destruct (R' !! l) as [n|] eqn:HR; [|done].
  destruct (so_owned _ _ Hs' l n HR) as (j & oj & Hj & Hpos & _). cbn [ops] in Hj.
  rewrite lookup_insert in Hj. case_decide; [|done]. simplify_eq. lia.
Qed.

(** The byte count the submitter reads back is the one the kernel wrote. *)
Lemma reported_bytes_written h skip op h' scribble bytes :
  quiescent h -> op_new skip h = (op, h') ->
  reported_bytes op (kernel_write (leaked op) scribble bytes h') = bytes.
Proof.
  intros Hq Hnew. destruct (op_new_ok _ _ _ _ _ Hq Hnew) as (Hl & _ & _ & Hw' & _).
  assert (arc_read (op_wrap op) h' = Some wrap_new) as Hw by (unfold arc_read; by rewrite Hw').
  unfold reported_bytes, kernel_write. rewrite Hl, Hw. by rewrite arc_set_read by eauto.
Qed.
End system_facts.

(** ** Witnesses: one operation on a queue in skip-on-success mode *)

Section witnesses.
Local Abbreviation SysT := (Sys list_queue (option unit)).
Local Abbreviation empty := (op_pool_new (Q := list_queue) (AW := option unit) 2).

Definition demo_op : Op := (op_new true empty).1.
Definition demo_submitted (ec bytes : Z) : SysT :=
  mkSys (kernel_write (leaked demo_op) (0, 0) bytes (op_new true empty).2)
    {[ O := mkOpState demo_op (Submitted ec bytes) true false (Some (ec, bytes)) None ]}.
Definition demo_returned : SysT :=
  mkSys (finish_start demo_op 0 (heap (demo_submitted 0 5))).2
    (<[ O := mkOpState demo_op (Returned (Ok 5)) false false (Some (0, 5)) None ]>
       (ops (demo_submitted 0 5))).

Lemma demo_submitted_reachable ec bytes :
  reachable (sys_init 2) op_step (demo_submitted ec bytes).
Proof.
  exists (mkSys empty ∅). split; [done|].
  eapply rtc_l; [by apply (step_new _ O true)|].
  eapply rtc_l.
  { apply (step_submit _ O demo_op ec (0, 0) bytes). apply lookup_insert_eq. }
  cbn [heap ops]. rewrite insert_insert_eq. apply rtc_refl.
Qed.

Lemma demo_returned_reachable : reachable (sys_init 2) op_step demo_returned.
Proof.
  eapply reachable_step; [apply (demo_submitted_reachable 0 5)|].
  by apply (step_finish_returns (demo_submitted 0 5) O demo_op 0 5 true false None (Ok 5)).
Qed.

Lemma kernel_access_safe_witness :
  is_Some (arc_read (leaked demo_op) (heap (demo_submitted 997 0))) /\
  ~ (leaked demo_op ∈ aq_items (free (heap (demo_submitted 997 0)))).
Proof.
  destruct (kernel_access_safe 2 (demo_submitted 997 0) O
    (mkOpState demo_op (Submitted 997 0) true false (Some (997, 0)) None)
    (demo_submitted_reachable 997 0) eq_refl eq_refl) as (_ & _ & H1 & H2 & _).
  split; [exact H1|exact H2].
Defined.

Lemma references_exact_witness : leaked demo_op ∈ aq_items (free (heap demo_returned)).
Proof.
  apply (references_exact 2 demo_returned demo_returned_reachable).
  - intros i o. unfold demo_returned, demo_submitted. cbn [ops].
    rewrite lookup_insert, lookup_singleton. case_decide; [by intros [= <-]|done].
  - apply elem_of_dom. by eexists.
Defined.

Lemma operation_result_witness :
  exists ec bytes, expected_result true ec bytes None = Some (Ok 5).
Proof.
  destruct (operation_result 2 demo_returned O
    (mkOpState demo_op (Returned (Ok 5)) false false (Some (0, 5)) None) (Ok 5)
    demo_returned_reachable eq_refl eq_refl) as (ec & b & _ & H).
  exists ec, b. exact H.
Defined.

(** A receive that pends and is completed by a packet of 120 bytes, the
    completion thread lagging behind. *)
Lemma submit_and_finish_refines_witness :
  (submit_and_finish true (mkIo 997 0 (0, 0) (mkPacket None 120) true) empty).1 = Ok 120.
Proof.
  destruct (submit_and_finish_refines tt 2 (mkSys empty ∅) O true
    (mkIo 997 0 (0, 0) (mkPacket None 120) true)
    (reachable_init (sys_init 2) op_step (mkSys empty ∅) eq_refl) eq_refl) as (o & _ & _ & _ & H).
  exact H.
Defined.
End witnesses.
