(* ===== verification/Handshake.v ===== *)
(** * The completion handshake under weak memory (crates/httpsys/src/overlapped.rs)

    [OverlappedWrap::complete] on a completion thread against
    [OverlappedWrap::poll_complete] and [block_until_complete] on the thread that
    polls or drops the future, one atomic access at a time.

    Memory is the release/acquire fragment of the language's model: each location
    has its stores in modification order, a thread may read any store not older
    than the one its view requires, a release store publishes the storing
    thread's view and an acquire load joins the view of the store it reads.  A
    relaxed access carries no view.  [AtomicWaker] is the interface of [Crates]
    together with its documented ordering: [register] and [wake] are totally
    ordered and each synchronises with the one before it. *)

From S2P Require Import Prelude Errors Crates Overlapped.
Set Warnings "-clear-no-such-hyp".

Inductive Loc := CompletedL | ErrL | LenL.
Inductive Ordering := Relaxed | Acquire | Release.

#[export] Instance Loc_eq_dec : EqDecision Loc.
Proof. solve_decision. Defined.

Definition view : Type := Loc -> nat.
Definition view_zero : view := fun _ => O.
Definition view_join (a b : view) : view := fun l => Nat.max (a l) (b l).
Definition view_at (l : Loc) (ts : nat) : view := fun l' => if decide (l' = l) then ts else O.

Record Msg := mkMsg { m_val : Z; m_view : view }.
Definition memory : Type := Loc -> list Msg.
(** [OverlappedWrap::new]: every atomic holds 0 (or [false]). *)
Definition memory_new : memory := fun _ => [mkMsg 0 view_zero].

Definition mem_store (l : Loc) (v : Z) (o : Ordering) (tv : view) (m : memory) : view * memory :=
  let ts := length (m l) in
  let tv := view_join tv (view_at l ts) in
  let msg := mkMsg v (match o with Release => tv | _ => view_at l ts end) in
  (tv, fun l' => if decide (l' = l) then m l ++ [msg] else m l').

(** Reading the store at position [ts] of the modification order. *)
Definition mem_load (l : Loc) (o : Ordering) (ts : nat) (tv : view) (m : memory) :
    option (Z * view) :=
  match m l !! ts with
  | Some msg =>
      if (tv l <=? ts)%nat then
        let tv := view_join tv (view_at l ts) in
        Some (m_val msg, match o with Acquire => view_join tv (m_view msg) | _ => tv end)
      else None
  | None => None
  end.

(** ** The code of the two sides *)

Inductive Instr :=
  | Store (l : Loc) (v : Z) (o : Ordering)
  | Wake.

(** [OverlappedWrap::complete]. *)
Definition complete_code (win32_err bytes : Z) : list Instr :=
  [ Store ErrL win32_err Relaxed;
    Store LenL bytes Relaxed;
    Store CompletedL 1 Release;
    Wake ].

(** Where the polling side is: the two loads and the registration of
    [poll_complete], the two loads of [result], or the spin of
    [block_until_complete]. *)
Inductive PollPc :=
  | Load1
  | Register
  | Load2
  | LoadErr
  | LoadLen
  | Parked          (* returned [Pending] *)
  | Polled (r : result Z)
  | Spinning
  | Unblocked.

(** The ordering of [is_completed]. *)
Definition is_completed_order : Ordering := Acquire.

(** What the polling side does after an [is_completed] load. *)
Definition after_load (pc : PollPc) (v : Z) : PollPc :=
  let done := negb (v =? 0) in
  match pc with
  | Load1 => if done then LoadErr else Register
  | Load2 => if done then LoadErr else Parked
  | Spinning => if done then Unblocked else Spinning
  | pc => pc
  end.

Section handshake.
Context `{AtomicWakerLaws unit AW}.
(** The status and length of the completion packet. *)
Context (e n : Z).

Record Race := mkRace {
  r_mem : memory;
  r_todo : list Instr;      (* what [complete] has left to do *)
  r_cview : view;
  r_pc : PollPc;
  r_pview : view;
  r_cell : AW;
  r_cell_view : view;
  r_woken : option view;    (* the task was woken, by a thread with this view *)
}.

Definition race_init (s : Race) : Prop :=
  s = mkRace memory_new (complete_code e n) view_zero Load1 view_zero aw_new view_zero None.

Inductive race_step : Race -> Race -> Prop :=
  | race_store m l v o todo cv pc pv a av w cv' m' :
      mem_store l v o cv m = (cv', m') ->
      race_step (mkRace m (Store l v o :: todo) cv pc pv a av w)
                (mkRace m' todo cv' pc pv a av w)
  | race_wake m todo cv pc pv a av w a' o :
      aw_wake a = (o, a') ->
      race_step (mkRace m (Wake :: todo) cv pc pv a av w)
                (mkRace m todo (view_join cv av) pc pv a' (view_join av cv)
                   (match o with Some tt => Some (view_join cv av) | None => w end))
  | race_load m todo cv pc pv a av w ts v pv' :
      pc = Load1 \/ pc = Load2 \/ pc = Spinning ->
      mem_load CompletedL is_completed_order ts pv m = Some (v, pv') ->
      race_step (mkRace m todo cv pc pv a av w) (mkRace m todo cv (after_load pc v) pv' a av w)
  | race_register m todo cv pv a av w :
      race_step (mkRace m todo cv Register pv a av w)
                (mkRace m todo cv Load2 (view_join pv av) (aw_register tt a) (view_join av pv) w)
  | race_load_err m todo cv pv a av w ts v pv' :
      mem_load ErrL Relaxed ts pv m = Some (v, pv') ->
      race_step (mkRace m todo cv LoadErr pv a av w)
                (mkRace m todo cv (if v =? 0 then LoadLen else Polled (Err (Win32 v))) pv' a av w)
  | race_load_len m todo cv pv a av w ts v pv' :
      mem_load LenL Relaxed ts pv m = Some (v, pv') ->
      race_step (mkRace m todo cv LoadLen pv a av w)
                (mkRace m todo cv (Polled (Ok v)) pv' a av w)
  | race_repoll m todo cv pv a av w :
      (* the executor polls again, after a wake or spuriously *)
      race_step (mkRace m todo cv Parked pv a av w)
                (mkRace m todo cv Load1 (view_join pv (default view_zero w)) a av None)
  | race_cancel m todo cv pv a av w :
      (* the future is dropped while parked: [CancelIoEx], then spin *)
      race_step (mkRace m todo cv Parked pv a av w) (mkRace m todo cv Spinning pv a av w).
End handshake.

(** ** What the views guarantee *)

Lemma mem_load_Some l o ts tv m v tv' :
  mem_load l o ts tv m = Some (v, tv') ->
  (tv l <= ts)%nat /\ exists msg, m l !! ts = Some msg /\ v = m_val msg /\
  tv' = match o with
        | Acquire => view_join (view_join tv (view_at l ts)) (m_view msg)
        | _ => view_join tv (view_at l ts)
        end.
Proof.
  unfold mem_load. destruct (m l !! ts) as [msg|]; [|done].
  destruct (Nat.leb_spec (tv l) ts); [|done]. intros [= <- <-]. split; [done|].
  exists msg. by destruct o.
Qed.

Lemma view_at_eq l ts : view_at l ts l = ts.
Proof. unfold view_at. by rewrite decide_True. Qed.
Lemma view_at_ne l l' ts : l' <> l -> view_at l ts l' = O.
Proof. intros. unfold view_at. by rewrite decide_False. Qed.

Section handshake_facts.
Context `{AtomicWakerLaws unit AW}.
Context (e n : Z).
Implicit Types (s : Race (AW := AW)) (v : view).

(** A view that has seen the flag has seen the payload. *)
Definition synced v : Prop := (1 <= v CompletedL -> 1 <= v ErrL /\ 1 <= v LenL)%nat.
Definition payload v : Prop := (1 <= v ErrL /\ 1 <= v LenL)%nat.

Lemma synced_zero : synced view_zero.
Proof. unfold synced, view_zero. lia. Qed.
Lemma synced_join v v' : synced v -> synced v' -> synced (view_join v v').
Proof. unfold synced, view_join. lia. Qed.
Hint Resolve synced_zero synced_join : core.

(** The stores after [k] instructions of [complete]. *)
Definition stored (k : nat) (m : memory) : Prop :=
  (exists ms, m ErrL = mkMsg 0 view_zero :: ms /\
     match k with O => ms = [] | _ => exists w, ms = [mkMsg e w] end) /\
  (exists ms, m LenL = mkMsg 0 view_zero :: ms /\
     match k with O | 1%nat => ms = [] | _ => exists w, ms = [mkMsg n w] end) /\
  (exists ms, m CompletedL = mkMsg 0 view_zero :: ms /\
     match k with O | 1%nat | 2%nat => ms = []
     | _ => exists w, ms = [mkMsg 1 w] /\ payload w end).

Definition cview_ok (k : nat) v : Prop :=
  ((1 <= k -> 1 <= v ErrL) /\ (2 <= k -> 1 <= v LenL) /\ (3 <= k -> 1 <= v CompletedL) /\
   (v CompletedL = 0 \/ 3 <= k))%nat.

Definition registered (a : AW) : Prop := exists a0, a = aw_register tt a0.

(** What is known at each point of the polling side; [k] as above. *)
Definition pc_ok (k : nat) s : Prop :=
  match r_pc s with
  | LoadErr => payload (r_pview s)
  | LoadLen => payload (r_pview s) /\ e = 0
  | Polled r => r = if e =? 0 then Ok n else Err (Win32 e)
  | Unblocked => payload (r_pview s)
  | Load2 => r_woken s = None -> (registered (r_cell s) /\ (k <= 3)%nat) \/ (1 <= r_pview s CompletedL)%nat
  | Parked => (exists v, r_woken s = Some v /\ (1 <= v CompletedL)%nat) \/
              (registered (r_cell s) /\ (k <= 3)%nat /\ r_woken s = None)
  | _ => True
  end.

Record race_ok (k : nat) s : Prop := {
  ro_le : (k <= 4)%nat;
  ro_todo : r_todo s = drop k (complete_code e n);
  ro_stored : stored k (r_mem s);
  ro_cview : cview_ok k (r_cview s);
  ro_psync : synced (r_pview s);
  ro_async : synced (r_cell_view s);
  ro_cell : k = 4%nat -> (1 <= r_cell_view s CompletedL)%nat;
  ro_woken v : r_woken s = Some v -> synced v /\ (1 <= v CompletedL)%nat;
  ro_pc : pc_ok k s;
}.

Lemma race_ok_init s : race_init e n s -> race_ok 0 s.
Proof.
  intros ->. split; cbn; try done; [lia|..].
  - repeat split; exists []; done.
  - repeat split; try lia. by left.
Qed.

Lemma cview_synced k v : cview_ok k v -> synced v.
Proof. intros (H1 & H2 & _ & [?|?]) ?; lia. Qed.

(** A load of the flag: either it is the initial [false], and the reader had not
    seen the flag, or it is [true] and brings the payload with it. *)
Lemma load_flag k m ts pv (v : Z) pv' :
  stored k m -> synced pv ->
  mem_load CompletedL is_completed_order ts pv m = Some (v, pv') ->
  synced pv' /\ ((v = 0 /\ pv CompletedL = O) \/ (v = 1 /\ payload pv')).
Proof.
  intros (_ & _ & ms & Hm & Hk) Hs Hl. apply mem_load_Some in Hl as (Hts & msg & Hmsg & -> & ->).
  rewrite Hm in Hmsg. cbn [is_completed_order]. destruct ts as [|ts].
  - cbn in Hmsg. simplify_eq. split; [|left; cbn; split; [done|lia]].
    apply synced_join; [apply synced_join; [done|]|done].
    intros ?. rewrite view_at_eq in *. lia.
  - assert (exists w, msg = mkMsg 1 w /\ payload w) as (w & -> & Hw).
    { destruct k as [|[|[|k]]]; [by subst ms; destruct ts..|].
      destruct Hk as (w & -> & Hw). destruct ts; [|by destruct ts]. cbn in Hmsg. simplify_eq. eauto. }
    cbn [m_val m_view]. unfold synced, payload, view_join in *. split; [lia|right; lia].
Qed.

(** A relaxed load of the payload by a reader whose view has it. *)
Lemma load_payload l x w ts pv (v : Z) pv' m :
  m l = [mkMsg 0 view_zero; mkMsg x w] -> (1 <= pv l)%nat ->
  mem_load l Relaxed ts pv m = Some (v, pv') ->
  v = x /\ pv' = view_join pv (view_at l ts).
Proof.
  intros Hm Hv Hl. apply mem_load_Some in Hl as (Hts & msg & Hmsg & -> & ->).
  rewrite Hm in Hmsg. destruct ts as [|[|ts]]; [lia| |done]. cbn in Hmsg. by simplify_eq.
Qed.

Lemma stored_load_err k m ts pv (v : Z) pv' :
  stored k m -> payload pv -> mem_load ErrL Relaxed ts pv m = Some (v, pv') ->
  v = e /\ pv' = view_join pv (view_at ErrL ts).
Proof.
  intros ((ms & Hm & Hk) & _) [Hp _] Hl. destruct k.
  - subst ms. apply mem_load_Some in Hl as (? & msg & Hmsg & _). rewrite Hm in Hmsg.
    destruct ts as [|ts]; [lia|]. by destruct ts.
  - destruct Hk as [w ->]. by eapply load_payload.
Qed.

Lemma stored_load_len k m ts pv (v : Z) pv' :
  stored k m -> payload pv -> mem_load LenL Relaxed ts pv m = Some (v, pv') ->
  v = n /\ pv' = view_join pv (view_at LenL ts).
Proof.
  intros (_ & (ms & Hm & Hk) & _) [_ Hp] Hl. destruct k as [|[|k]].
  1,2: subst ms; apply mem_load_Some in Hl as (? & msg & Hmsg & _); rewrite Hm in Hmsg;
    destruct ts as [|ts]; [lia|]; by destruct ts.
  destruct Hk as [w ->]. by eapply load_payload.
Qed.

Lemma synced_at l ts v : payload v -> synced (view_join v (view_at l ts)).
Proof. unfold payload, synced, view_join. lia. Qed.

(** The stores of [complete] extend what is stored, in order. *)
Lemma stored_step k m cv l (v : Z) o todo cv' m' :
  (k <= 4)%nat -> Store l v o :: todo = drop k (complete_code e n) ->
  stored k m -> cview_ok k cv -> mem_store l v o cv m = (cv', m') ->
  todo = drop (S k) (complete_code e n) /\ stored (S k) m' /\ cview_ok (S k) cv' /\ (k < 3)%nat.
Proof.
  intros Hk Hcode (HE & HL & HC) Hcv [= <- <-].
  assert (Hlen : forall l ms, m l = mkMsg 0 view_zero :: ms -> (1 <= length (m l))%nat)
    by (intros l' ms ->; cbn; lia).
  destruct HE as (mE & HE & HEk), HL as (mL & HL & HLk), HC as (mC & HC & HCk).
  pose proof (Hlen _ _ HE). pose proof (Hlen _ _ HL). pose proof (Hlen _ _ HC).
  destruct Hcv as (Hc1 & Hc2 & Hc3 & Hc4).
  destruct k as [|[|[|[|k]]]]; cbn in Hcode; simplify_eq; [..|by destruct k].
  - split; [done|]. split; [|split; [|lia]].
    + split_and!; eexists; repeat case_decide; try congruence; rewrite ?HE, ?HL, ?HC; by eauto.
    + unfold cview_ok, view_join, view_at. repeat case_decide; try congruence; lia.
  - split; [done|]. split; [|split; [|lia]].
    + split_and!; eexists; repeat case_decide; try congruence; rewrite ?HE, ?HL, ?HC; by eauto.
    + unfold cview_ok, view_join, view_at. repeat case_decide; try congruence; lia.
  - split; [done|]. split; [|split; [|lia]].
    + split_and!; eexists; repeat case_decide; try congruence; rewrite ?HE, ?HL, ?HC; [by eauto..|].
      split; [done|]. eexists. split; [by subst|].
      unfold payload, view_join, view_at. repeat case_decide; try congruence; lia.
    + unfold cview_ok, view_join, view_at. repeat case_decide; try congruence; lia.
Qed.

Lemma race_store_ok k m l (v : Z) o todo cv pc pv a av w cv' m' :
  race_ok k (mkRace m (Store l v o :: todo) cv pc pv a av w) ->
  mem_store l v o cv m = (cv', m') ->
  race_ok (S k) (mkRace m' todo cv' pc pv a av w).
Proof.
  intros [Hle Htodo Hst Hcv Hps Has Hcell Hwok Hpc] Hm. cbn in *.
  destruct (stored_step _ _ _ _ _ _ _ _ _ Hle Htodo Hst Hcv Hm) as (Ht & Hst' & Hcv' & Hlt).
  split; cbn; try done; [lia|lia|].
  destruct pc; cbn in *; try done.
  - intros Hw. destruct (Hpc Hw) as [[? _]|?]; [left; split; [done|lia]|by right].
  - destruct Hpc as [?|(? & _ & ?)]; [by left|right]. split; [done|]. split; [lia|done].
Qed.

Lemma race_wake_ok k m todo cv pc pv a av w a' o :
  race_ok k (mkRace m (Wake :: todo) cv pc pv a av w) -> aw_wake a = (o, a') ->
  race_ok (S k) (mkRace m todo (view_join cv av) pc pv a' (view_join av cv)
    (match o with Some tt => Some (view_join cv av) | None => w end)).
Proof.
  intros [Hle Htodo Hst Hcv Hps Has Hcell Hwok Hpc] Hwk. cbn in *.
  destruct k as [|[|[|[|k]]]]; cbn in Htodo; simplify_eq; [|by destruct k].
  pose proof (cview_synced _ _ Hcv) as Hcs. destruct Hcv as (Hc1 & Hc2 & Hc3 & Hc4).
  assert (Hjoin : synced (view_join cv av) /\ (1 <= view_join cv av CompletedL)%nat)
    by (split; [by apply synced_join|unfold view_join; lia]).
  assert (Hreg : registered a -> o = Some tt).
  { intros [a0 ->]. pose proof (aw_wake_registered tt a0) as E. by rewrite Hwk in E. }
  split; cbn; try done.
  - unfold cview_ok, view_join. lia.
  - by apply synced_join.
  - intros _. unfold view_join. lia.
  - intros v. destruct o as [[]|]; [by intros [= <-]|apply Hwok].
  - destruct pc; cbn in *; try done.
    + destruct o as [[]|]; [done|]. intros Hw.
      destruct (Hpc Hw) as [[Hr _]|?]; [by apply Hreg in Hr|by right].
    + destruct o as [[]|]; [left; eexists; split; [done|apply Hjoin]|].
      destruct Hpc as [?|(Hr & _)]; [by left|]. by apply Hreg in Hr.
Qed.

Lemma race_load_ok k m todo cv pc pv a av w ts (v : Z) pv' :
  race_ok k (mkRace m todo cv pc pv a av w) -> pc = Load1 \/ pc = Load2 \/ pc = Spinning ->
  mem_load CompletedL is_completed_order ts pv m = Some (v, pv') ->
  race_ok k (mkRace m todo cv (after_load pc v) pv' a av w).
Proof.
  intros [Hle Htodo Hst Hcv Hps Has Hcell Hwok Hpc] Hpcs Hl. cbn in *.
  destruct (load_flag _ _ _ _ _ _ Hst Hps Hl) as [Hps' Hv].
  split; cbn; try done.
  destruct Hv as [[-> Hz]|[-> Hp]]; destruct Hpcs as [->|[->| ->]]; cbn in *; try done.
  destruct w as [x|].
  - left. exists x. split; [done|]. by apply Hwok.
  - right. destruct (Hpc eq_refl) as [[? ?]|?]; [done|lia].
Qed.

Lemma race_step_ok k s s' : race_ok k s -> race_step s s' -> exists k', race_ok k' s'.
Proof.
  intros Hs Hstep. destruct Hstep.
  - eexists. by eapply race_store_ok.
  - eexists. by eapply race_wake_ok.
  - exists k. by eapply race_load_ok.
  - exists k. destruct Hs as [Hle Htodo Hst Hcv Hps Has Hcell Hwok Hpc]. cbn in *.
    split; cbn; try done.
    + by apply synced_join.
    + by apply synced_join.
    + intros Hk. specialize (Hcell Hk). unfold view_join. lia.
    + intros _. destruct (decide (k = 4)%nat) as [Hk|Hk].
      * right. specialize (Hcell Hk). unfold view_join. lia.
      * left. split; [by eexists|lia].
  - exists k. destruct Hs as [Hle Htodo Hst Hcv Hps Has Hcell Hwok Hpc]. cbn in *.
    match goal with H : mem_load ErrL _ _ _ _ = _ |- _ =>
      destruct (stored_load_err _ _ _ _ _ _ Hst Hpc H) as [-> ->] end.
    split; cbn; try done; [by apply synced_at|].
    destruct (Z.eqb_spec e 0) as [E|E]; cbn.
    + split; [|done]. unfold payload, view_join in *. lia.
    + destruct (Z.eqb_spec e 0); [done|done].
  - exists k. destruct Hs as [Hle Htodo Hst Hcv Hps Has Hcell Hwok Hpc]. cbn in *.
    destruct Hpc as [Hp He].
    match goal with H : mem_load LenL _ _ _ _ = _ |- _ =>
      destruct (stored_load_len _ _ _ _ _ _ Hst Hp H) as [-> ->] end.
    split; cbn; try done; [by apply synced_at|]. by rewrite He.
  - exists k. destruct Hs as [Hle Htodo Hst Hcv Hps Has Hcell Hwok Hpc]. cbn in *.
    split; cbn; try done. apply synced_join; [done|].
    destruct w; cbn; [by apply Hwok|apply synced_zero].
  - exists k. destruct Hs as [Hle Htodo Hst Hcv Hps Has Hcell Hwok Hpc]. cbn in *.
    split; cbn; done.
Qed.

Lemma reachable_race_ok s : reachable (race_init e n) race_step s -> exists k, race_ok k s.
Proof.
  apply (reachable_invariant _ _ (fun s => exists k, race_ok k s)).
  - intros ? ?. eexists. by eapply race_ok_init.
  - intros a b [k Ha] Hab. by eapply race_step_ok.
Qed.

(** C4. No interleaving and no reordering the memory model allows lets the
    future observe half a completion: whatever [poll_complete] returns as ready is
    the status and length stored by [complete], and when
    [block_until_complete] returns, both are visible to the thread that waited. *)
Theorem poll_never_partial s :
  reachable (race_init e n) race_step s ->
  (forall r, r_pc s = Polled r -> r = if e =? 0 then Ok n else Err (Win32 e)) /\
  (r_pc s = Unblocked ->
    forall ts (v : Z) pv', mem_load ErrL Relaxed ts (r_pview s) (r_mem s) = Some (v, pv') -> v = e).
Proof.
  intros [k Hs]%reachable_race_ok. pose proof (ro_pc _ _ Hs) as Hpc. unfold pc_ok in Hpc. split.
  - intros r E. by rewrite E in Hpc.
  - intros E ts v pv' Hl. rewrite E in Hpc.
    by destruct (stored_load_err _ _ _ _ _ _ (ro_stored _ _ Hs) Hpc Hl).
Qed.

(** C5. No lost wakeup.  Once [complete] has run, a future that has returned
    [Pending] has been woken, and in the poll that follows the wake every load
    of the flag the memory model allows reads [true]: the poll is ready. *)
Theorem no_lost_wakeup s :
  reachable (race_init e n) race_step s -> r_todo s = [] -> r_pc s = Parked ->
  exists v, r_woken s = Some v /\
    forall ts (x : Z) pv',
      mem_load CompletedL is_completed_order ts (view_join (r_pview s) v) (r_mem s) = Some (x, pv') ->
      after_load Load1 x = LoadErr.
Proof.
  intros [k Hs]%reachable_race_ok Htodo Hpark. pose proof (ro_pc _ _ Hs) as Hpc.
  unfold pc_ok in Hpc. rewrite Hpark in Hpc.
  assert (k = 4%nat) as ->.
  { pose proof (ro_todo _ _ Hs) as E. pose proof (ro_le _ _ Hs). rewrite Htodo in E.
    destruct k as [|[|[|[|k]]]]; cbn in E; try done. lia. }
  destruct Hpc as [(v & Hv & Hc)|(_ & ? & _)]; [|lia].
  exists v. split; [done|]. intros ts x pv' Hl.
  destruct (ro_woken _ _ Hs v Hv) as [Hsv _].
  destruct (load_flag 4 _ _ _ _ _ (ro_stored _ _ Hs)
    (synced_join _ _ (ro_psync _ _ Hs) Hsv) Hl) as [_ [[_ Hz]|[-> _]]]; [|done].
  unfold view_join in Hz. lia.
Qed.
End handshake_facts.

(** ** Witnesses *)

Section handshake_witnesses.
Local Abbreviation RaceT := (Race (AW := option unit)).

Ltac race_run := eapply rtc_l.

(** A poll that runs after the three stores. *)
Lemma polled_after_complete :
  exists s : RaceT, reachable (race_init 0 42) race_step s /\ r_pc s = Polled (Ok 42).
Proof.
  eexists. split.
  - eexists. split; [reflexivity|]. do 3 (race_run; [by eapply race_store|]).
    race_run; [by eapply (race_load _ _ _ _ _ _ _ _ 1); [left|]|].
    race_run; [by eapply (race_load_err _ _ _ _ _ _ _ 1)|].
    race_run; [by eapply (race_load_len _ _ _ _ _ _ _ 1)|]. apply rtc_refl.
  - reflexivity.
Qed.

(** A poll that registers first and is woken. *)
Lemma parked_then_completed :
  exists s : RaceT, reachable (race_init 0 42) race_step s /\ r_todo s = [] /\ r_pc s = Parked.
Proof.
  eexists. split.
  - eexists. split; [reflexivity|].
    race_run; [by eapply (race_load _ _ _ _ _ _ _ _ 0); [left|]|].
    race_run; [by eapply race_register|].
    race_run; [by eapply (race_load _ _ _ _ _ _ _ _ 0); [right; left|]|].
    do 3 (race_run; [by eapply race_store|]).
    race_run; [by eapply race_wake|]. apply rtc_refl.
  - done.
Qed.

Lemma poll_never_partial_witness :
  exists s : RaceT, r_pc s = Polled (Ok 42) /\ forall r, r_pc s = Polled r -> r = Ok 42.
Proof.
  destruct polled_after_complete as (s & Hr & Hp). exists s. split; [exact Hp|].
  exact (proj1 (poll_never_partial 0 42 s Hr)).
Defined.

Lemma no_lost_wakeup_witness :
  exists s : RaceT, r_pc s = Parked /\ exists v, r_woken s = Some v.
Proof.
  destruct parked_then_completed as (s & Hr & Ht & Hp). exists s. split; [exact Hp|].
  destruct (no_lost_wakeup 0 42 s Hr Ht Hp) as (v & Hv & _). exists v. exact Hv.
Defined.
End handshake_witnesses.
