(* ===== verification/Iocp.v ===== *)
(** * The completion port and its threads (crates/httpsys/src/iocp.rs)

    [IoPort::new], [associate] and [Drop] as functions over the answers of the
    operating system, and the port at work: the kernel posting packets, the
    threads of [completion_loop] draining it in batches, and [IoPort::drop]
    posting sentinels and joining, as a step relation in which the three
    interleave freely. *)

From S2P Require Import Prelude RustStd Errors HttpApi.
Set Warnings "-clear-no-such-hyp".

Definition BATCH : nat := 64.
(** [usize::MAX]. *)
Definition SHUTDOWN_KEY : Z := umax 64.
Definition FILE_SKIP_COMPLETION_PORT_ON_SUCCESS : Z := 0x1.
Definition FILE_SKIP_SET_EVENT_ON_HANDLE : Z := 0x2.
(** The code [IoPort::new] falls back to when the OS error has none. *)
Definition ERROR_NOT_ENOUGH_MEMORY : Z := 8.

(** [OVERLAPPED_ENTRY]: the wrap the packet is for, and the packet. *)
Record OVERLAPPED_ENTRY := mkEntry {
  lpCompletionKey : Z;
  lpOverlapped : nat;
  e_packet : Packet;
}.

#[export] Instance Packet_eq_dec : EqDecision Packet.
Proof. solve_decision. Defined.
#[export] Instance OVERLAPPED_ENTRY_eq_dec : EqDecision OVERLAPPED_ENTRY.
Proof. solve_decision. Defined.

(** ** Creating and dropping a port

    What the operating system is asked, in order.  [port_threads] is the number
    of join handles in the vector. *)

Inductive IoCall :=
  | CreatePort (existing : option Z) (file : option Z) (key : Z) (concurrency : Z)
  | SpawnThread (index : nat)
  | PostSentinel
  | JoinThread (index : nat)
  | ClosePort (port : Z)
  | SetNotificationModes (file : Z) (flags : Z).

Record IoPort := mkIoPort { port : Z; port_threads : nat }.

Definition Trace (A : Type) : Type := list IoCall * A.

(** [Drop for IoPort]. *)
Definition ioport_drop (p : IoPort) : list IoCall :=
  replicate (port_threads p) PostSentinel ++
  map JoinThread (seq 0 (port_threads p)) ++
  [ClosePort (port p)].

(** The spawning loop of [IoPort::new] from index [i] with [n] threads to go;
    [spawn i] is the outcome of the [i]th spawn, an error with its OS code if it
    has one.  An early return drops the guard. *)
Fixpoint spawn_loop (spawn : nat -> Result (option Z) unit) (guard : IoPort) (i n : nat) :
    Trace (result IoPort) :=
  match n with
  | O => ([], Ok guard)
  | S n =>
      match spawn i with
      | Err os =>
          (SpawnThread i :: ioport_drop guard,
           Err (Win32 (wrap32 (default ERROR_NOT_ENOUGH_MEMORY os))))
      | Ok _ =>
          let '(calls, r) :=
            spawn_loop spawn (mkIoPort (port guard) (S (port_threads guard))) (S i) n in
          (SpawnThread i :: calls, r)
      end
  end.

(** [IoPort::new]; [create] is the outcome of [CreateIoCompletionPort], an
    [HRESULT] on failure. *)
Definition ioport_new (threads : Z) (create : Result Z Z)
    (spawn : nat -> Result (option Z) unit) : Trace (result IoPort) :=
  let threads := Z.max threads 1 in
  let call := CreatePort None None 0 (wrap32 threads) in
  match create with
  | Err hresult => ([call], Err (from_windows_error hresult))
  | Ok handle =>
      let '(calls, r) := spawn_loop spawn (mkIoPort handle 0) 0 (Z.to_nat threads) in
      (call :: calls, r)
  end.

(** [IoPort::associate]. *)
Definition associate (p : IoPort) (file : Z) (attach : Result Z Z) (modes : Result Z unit) :
    Trace (result bool) :=
  let call := CreatePort (Some (port p)) (Some file) (wrap64 file) 0 in
  match attach with
  | Err hresult => ([call], Err (from_windows_error hresult))
  | Ok _ =>
      ([call;
        SetNotificationModes file
          (Z.lor FILE_SKIP_COMPLETION_PORT_ON_SUCCESS FILE_SKIP_SET_EVENT_ON_HANDLE)],
       Ok (is_ok modes))
  end.

(** ** The port at work *)

(** One iteration of the loop over a batch: the packet to deliver, if any, and
    the new value of [stop]. *)
Definition handle_entry (e : OVERLAPPED_ENTRY) (stop : bool) : option OVERLAPPED_ENTRY * bool :=
  if lpCompletionKey e =? SHUTDOWN_KEY then (None, true) else (Some e, stop).

(** A completion thread: blocked in [GetQueuedCompletionStatusEx], inside a
    batch with the entries still to process, or returned. *)
Inductive ThreadPc :=
  | Dequeuing
  | InBatch (entries : list OVERLAPPED_ENTRY) (stop : bool)
  | Returned.

(** [IoPort::drop]: not called; [n] sentinels to post and [posted] in the queue
    already; joining thread [k] after that many were posted; done.  A post may
    fail: the code discards its result, and goes on with one sentinel fewer. *)
Inductive DropPc :=
  | NotDropped
  | Posting (n posted : nat)
  | Joining (k posted : nat)
  | Closed.

#[export] Instance DropPc_eq_dec : EqDecision DropPc.
Proof. solve_decision. Defined.

(** [kernel] holds the packets of operations the kernel has not finished;
    [delivered] logs the calls of [deliver_completion]. *)
Record Port := mkPort {
  queue : list OVERLAPPED_ENTRY;
  kernel : list OVERLAPPED_ENTRY;
  threads : list ThreadPc;
  dropper : DropPc;
  delivered : list OVERLAPPED_ENTRY;
}.

Definition sentinel : OVERLAPPED_ENTRY := mkEntry SHUTDOWN_KEY 0 (mkPacket None 0).
Definition is_sentinel (e : OVERLAPPED_ENTRY) : bool := lpCompletionKey e =? SHUTDOWN_KEY.

Inductive port_step : Port -> Port -> Prop :=
  (* the kernel finishes an operation *)
  | port_arrive q k1 e k2 ts d log :
      d <> Closed ->
      port_step (mkPort q (k1 ++ e :: k2) ts d log) (mkPort (q ++ [e]) (k1 ++ k2) ts d log)
  (* a thread is handed between one and [BATCH] packets in queue order *)
  | port_dequeue q k ts d log i n :
      ts !! i = Some Dequeuing -> (1 <= n <= BATCH)%nat -> (n <= length q)%nat -> d <> Closed ->
      port_step (mkPort q k ts d log)
        (mkPort (drop n q) k (<[i := InBatch (take n q) false]> ts) d log)
  (* the port was closed underneath the thread *)
  | port_dequeue_err q k ts log i :
      ts !! i = Some Dequeuing ->
      port_step (mkPort q k ts Closed log) (mkPort q k (<[i := Returned]> ts) Closed log)
  | port_entry q k ts d log i e es stop out stop' :
      ts !! i = Some (InBatch (e :: es) stop) ->
      handle_entry e stop = (out, stop') ->
      port_step (mkPort q k ts d log)
        (mkPort q k (<[i := InBatch es stop']> ts) d (log ++ option_list out))
  | port_batch_done q k ts d log i (stop : bool) :
      ts !! i = Some (InBatch [] stop) ->
      port_step (mkPort q k ts d log)
        (mkPort q k (<[i := if stop then Returned else Dequeuing]> ts) d log)
  | port_drop q k ts log :
      port_step (mkPort q k ts NotDropped log) (mkPort q k ts (Posting (length ts) 0) log)
  | port_post q k ts n m log :
      port_step (mkPort q k ts (Posting (S n) m) log)
        (mkPort (q ++ [sentinel]) k ts (Posting n (S m)) log)
  | port_post_fail q k ts n m log :
      port_step (mkPort q k ts (Posting (S n) m) log) (mkPort q k ts (Posting n m) log)
  | port_posted q k ts m log :
      port_step (mkPort q k ts (Posting 0 m) log) (mkPort q k ts (Joining 0 m) log)
  | port_join q k ts n m log :
      ts !! n = Some Returned ->
      port_step (mkPort q k ts (Joining n m) log) (mkPort q k ts (Joining (S n) m) log)
  | port_close q k ts n m log :
      n = length ts ->
      port_step (mkPort q k ts (Joining n m) log) (mkPort q k ts Closed log).

(** A port with [n] threads, and the packets the kernel will ever post on it. *)
Definition port_init (n : nat) (pending : list OVERLAPPED_ENTRY) (s : Port) : Prop :=
  s = mkPort [] pending (replicate n Dequeuing) NotDropped [].

(** A real key is a handle value, and [-1] is no handle. *)
Definition real_keys (es : list OVERLAPPED_ENTRY) : Prop :=
  Forall (fun e => is_sentinel e = false) es.

(** ** Creation and drop: what is called on every path *)

Lemma spawn_loop_ok spawn guard i n :
  (forall j, (i <= j < i + n)%nat -> is_ok (spawn j) = true) ->
  spawn_loop spawn guard i n =
    (map SpawnThread (seq i n), Ok (mkIoPort (port guard) (port_threads guard + n))).
Proof.
  revert guard i. induction n as [|n IH]; intros guard i Hok; cbn.
  - rewrite Nat.add_0_r. by destruct guard.
  - pose proof (Hok i ltac:(lia)) as Hi. destruct (spawn i); [|done].
    rewrite IH by (intros; apply Hok; lia). cbn. by rewrite Nat.add_succ_r.
Qed.

Lemma spawn_loop_err spawn guard i n j os :
  (i <= j < i + n)%nat -> spawn j = Err os ->
  (forall k, (i <= k < j)%nat -> is_ok (spawn k) = true) ->
  spawn_loop spawn guard i n =
    (map SpawnThread (seq i (S j - i)) ++
     ioport_drop (mkIoPort (port guard) (port_threads guard + (j - i))),
     Err (Win32 (wrap32 (default ERROR_NOT_ENOUGH_MEMORY os)))).
Proof.
  revert guard i. induction n as [|n IH]; intros guard i Hj He Hok; [lia|].
  destruct (decide (i = j)) as [->|Hne]; cbn.
  - rewrite He, Nat.sub_diag, Nat.sub_succ_l, Nat.sub_diag, Nat.add_0_r by lia.
    by destruct guard.
  - pose proof (Hok i ltac:(lia)) as Hi. destruct (spawn i); [|done].
    rewrite (IH _ (S i) ltac:(lia) He) by (intros; apply Hok; lia).
    replace (S j - i)%nat with (S (S j - S i)) by lia.
    replace (j - i)%nat with (S (j - S i)) by lia. by rewrite Nat.add_succ_r.
Qed.

(** Either every thread starts or there is a first one that does not. *)
Lemma first_failure (spawn : nat -> Result (option Z) unit) n :
  (forall i, (i < n)%nat -> is_ok (spawn i) = true) \/
  exists j os, (j < n)%nat /\ spawn j = Err os /\
    forall i, (i < j)%nat -> is_ok (spawn i) = true.
Proof.
  induction n as [|n IH]; [left; lia|].
  destruct IH as [IH|(j & os & ? & ? & ?)].
  - destruct (spawn n) as [[]|os] eqn:E.
    + left. intros i Hi. destruct (decide (i = n)) as [->|]; [by rewrite E|apply IH; lia].
    + right. exists n, os. eauto.
  - right. exists j, os. eauto with lia.
Qed.

(** A port that was made has the threads asked for. *)
Lemma ioport_new_ok threads create spawn calls io :
  ioport_new threads create spawn = (calls, Ok io) ->
  exists h, create = Ok h /\ io = mkIoPort h (Z.to_nat (Z.max threads 1)).
Proof.
  unfold ioport_new. destruct create as [h|hr]; [|done].
  set (n := Z.to_nat (Z.max threads 1)).
  destruct (first_failure spawn n) as [Hok|(j & os & Hj & He & Hok)].
  - rewrite spawn_loop_ok by (intros; apply Hok; lia). intros [= _ <-]. by exists h.
  - by rewrite (spawn_loop_err _ _ 0 n j os ltac:(lia) He) by (intros; apply Hok; lia).
Qed.

(** [IoPort::new] on every branch.  It asks for [max(threads, 1)] threads.  If
    they all start, the port owns exactly those threads and nothing has been
    closed.  If the [j]th spawn is the first to fail, the error carries its OS
    code (8 when it has none), the [j] threads before it each get one sentinel
    and are joined, and the port is closed: no handle and no thread is left.  If
    the port cannot be created nothing else is called. *)
Theorem ioport_new_spec (threads : Z) (create : Result Z Z)
    (spawn : nat -> Result (option Z) unit) :
  let n := Z.to_nat (Z.max threads 1) in
  let call := CreatePort None None 0 (wrap32 (Z.max threads 1)) in
  match create with
  | Err hr => ioport_new threads create spawn = ([call], Err (from_windows_error hr))
  | Ok h =>
      ((forall i, (i < n)%nat -> is_ok (spawn i) = true) /\
       ioport_new threads create spawn =
         (call :: map SpawnThread (seq 0 n), Ok (mkIoPort h n)))
      \/
      (exists j os, (j < n)%nat /\ spawn j = Err os /\
         (forall i, (i < j)%nat -> is_ok (spawn i) = true) /\
         ioport_new threads create spawn =
           (call :: map SpawnThread (seq 0 (S j)) ++
              replicate j PostSentinel ++ map JoinThread (seq 0 j) ++ [ClosePort h],
            Err (Win32 (wrap32 (default 8 os)))))
  end.
Proof.
  cbn zeta. unfold ioport_new. destruct create as [h|hr]; [|done].
  set (n := Z.to_nat (Z.max threads 1)).
  destruct (first_failure spawn n) as [Hok|(j & os & Hj & He & Hok)]; [left|right].
  - split; [done|]. rewrite spawn_loop_ok by (intros; apply Hok; lia). done.
  - exists j, os. repeat (split; [done|]).
    rewrite (spawn_loop_err _ _ 0 n j os ltac:(lia) He) by (intros; apply Hok; lia).
    cbn. by rewrite Nat.sub_0_r.
Qed.

(** ** What the port holds *)

Definition batch_of (t : ThreadPc) : list OVERLAPPED_ENTRY :=
  match t with InBatch es _ => es | _ => [] end.
Definition in_batches (ts : list ThreadPc) : list OVERLAPPED_ENTRY := ts ≫= batch_of.
Definition reals (es : list OVERLAPPED_ENTRY) : list OVERLAPPED_ENTRY :=
  filter (fun e => is_sentinel e = false) es.
(** A thread that has taken a sentinel and will not dequeue again. *)
Definition stopping (t : ThreadPc) : bool :=
  match t with
  | Dequeuing => false
  | InBatch es stop => stop || existsb is_sentinel es
  | Returned => true
  end.
Definition stoppers (ts : list ThreadPc) : nat := length (filter (fun t => stopping t = true) ts).
Definition sentinels (es : list OVERLAPPED_ENTRY) : nat :=
  length (filter (fun e => is_sentinel e = true) es).
(** Sentinels [IoPort::drop] has posted so far on a port of [n] threads, at most. *)
Definition posted (n : nat) (d : DropPc) : nat :=
  match d with NotDropped => 0 | Posting _ m | Joining _ m => m | Closed => n end.

#[local] Arguments in_batches : simpl never.
#[local] Arguments reals : simpl never.
#[local] Arguments stoppers : simpl never.
#[local] Arguments sentinels : simpl never.

Lemma split_at {A} (l : list A) i x :
  l !! i = Some x ->
  exists l1 l2, l = l1 ++ x :: l2 /\ forall y, <[i := y]> l = l1 ++ y :: l2.
Proof.
  intros Hi. exists (take i l), (drop (S i) l). split; [by rewrite take_drop_middle|].
  intros y. apply insert_take_drop. by eapply lookup_lt_Some.
Qed.

Lemma in_batches_app ts1 t ts2 :
  in_batches (ts1 ++ t :: ts2) = in_batches ts1 ++ batch_of t ++ in_batches ts2.
Proof. unfold in_batches. by rewrite bind_app, bind_cons. Qed.

Lemma stoppers_app ts1 t ts2 :
  stoppers (ts1 ++ t :: ts2) =
    (stoppers ts1 + (if stopping t then 1 else 0) + stoppers ts2)%nat.
Proof.
  unfold stoppers. rewrite filter_app, filter_cons, length_app.
  destruct (stopping t); case_decide; cbn; try done; lia.
Qed.

Lemma reals_app l k : reals (l ++ k) = reals l ++ reals k.
Proof. apply filter_app. Qed.

Lemma sentinels_app l k : sentinels (l ++ k) = (sentinels l + sentinels k)%nat.
Proof. unfold sentinels. by rewrite filter_app, length_app. Qed.

Lemma reals_id es : real_keys es -> reals es = es.
Proof.
  induction 1 as [|e es He Hes IH]; [done|]. unfold reals in *.
  rewrite filter_cons, decide_True by done. by rewrite IH.
Qed.

Lemma existsb_sentinels es : existsb is_sentinel es = negb (sentinels es =? 0)%nat.
Proof.
  induction es as [|e es IH]; [done|]. cbn [existsb]. rewrite IH. unfold sentinels.
  rewrite filter_cons. by destruct (is_sentinel e).
Qed.

Lemma reals_cons e es :
  reals (e :: es) = if is_sentinel e then reals es else e :: reals es.
Proof. unfold reals. rewrite filter_cons. destruct (is_sentinel e); by case_decide. Qed.

Lemma handle_entry_cases e stop out stop' :
  handle_entry e stop = (out, stop') ->
  (is_sentinel e = true /\ out = None /\ stop' = true) \/
  (is_sentinel e = false /\ out = Some e /\ stop' = stop).
Proof.
  unfold handle_entry, is_sentinel. destruct (_ =? _); intros [= <- <-]; auto.
Qed.

(** Processing one entry keeps the thread's verdict. *)
Lemma stopping_entry e es stop out stop' :
  handle_entry e stop = (out, stop') ->
  stopping (InBatch es stop') = stopping (InBatch (e :: es) stop).
Proof.
  intros [(He & -> & ->)|(He & -> & ->)]%handle_entry_cases; cbn; rewrite He;
    by destruct stop, (existsb _ es).
Qed.

Lemma entry_out e es stop out stop' :
  handle_entry e stop = (out, stop') ->
  reals (e :: es) = option_list out ++ reals es.
Proof.
  intros [(He & -> & ->)|(He & -> & ->)]%handle_entry_cases.
  - by rewrite reals_cons, He.
  - by rewrite reals_cons, He.
Qed.

(** ** The invariant *)

Record port_ok (n : nat) (pending : list OVERLAPPED_ENTRY) (s : Port) : Prop := {
  pok_threads : length (threads s) = n;
  pok_kernel : real_keys (kernel s);
  pok_log : real_keys (delivered s);
  pok_conserved :
    delivered s ++ reals (in_batches (threads s)) ++ reals (queue s) ++ kernel s ≡ₚ pending;
  pok_at_most : (stoppers (threads s) + sentinels (queue s) <= posted n (dropper s))%nat;
  pok_at_least : dropper s <> Closed ->
    (0 < posted n (dropper s) -> 0 < stoppers (threads s) + sentinels (queue s))%nat;
  pok_posting : forall i m, dropper s = Posting i m -> (i + m <= n)%nat;
  pok_posted : (posted n (dropper s) <= n)%nat;
  pok_joined : forall k m, dropper s = Joining k m ->
    forall j, (j < k)%nat -> threads s !! j = Some Returned;
  pok_closed : dropper s = Closed -> Forall (fun t => t = Returned) (threads s);
}.

Lemma stoppers_replicate n : stoppers (replicate n Dequeuing) = O.
Proof. induction n; [done|]. unfold stoppers in *. by rewrite replicate_S, filter_cons. Qed.

Lemma in_batches_replicate n : in_batches (replicate n Dequeuing) = [].
Proof. by induction n. Qed.

Lemma port_ok_init n pending s : real_keys pending -> port_init n pending s -> port_ok n pending s.
Proof.
  intros Hp ->. split; cbn; rewrite ?length_replicate, ?in_batches_replicate, ?stoppers_replicate;
    try done; try lia; by constructor.
Qed.

(** A thread changes: the invariant's view of the vector. *)
Lemma threads_change ts i t t' :
  ts !! i = Some t ->
  length (<[i := t']> ts) = length ts /\
  (stoppers (<[i := t']> ts) + (if stopping t then 1 else 0) =
   stoppers ts + (if stopping t' then 1 else 0))%nat /\
  ((if stopping t then 1 else 0) <= stoppers ts)%nat /\
  in_batches (<[i := t']> ts) ++ batch_of t ≡ₚ in_batches ts ++ batch_of t'.
Proof.
  intros Hi. split; [apply length_insert|].
  destruct (split_at _ _ _ Hi) as (l1 & l2 & -> & Hins). rewrite Hins.
  rewrite !stoppers_app, !in_batches_app. do 2 (split; [lia|]).
  rewrite <- !(assoc_L (++)). apply Permutation_app_head. solve_Permutation.
Qed.

Lemma joined_change (ts : list ThreadPc) (i : nat) t t' (j : nat) :
  ts !! i = Some t -> t <> Returned -> ts !! j = Some Returned ->
  <[i := t']> ts !! j = Some Returned.
Proof. intros Hi Ht Hj. rewrite list_lookup_insert_ne; [done|naive_solver]. Qed.

Lemma not_closed_thread (ts : list ThreadPc) (i : nat) t :
  Forall (fun t => t = Returned) ts -> ts !! i = Some t -> t = Returned.
Proof. intros Hf Hi. by eapply Forall_lookup_1 in Hf. Qed.

(** The queue entries handed to a thread, or the entry it processed. *)
Lemma port_ok_thread n pending q q' k ts d log log' i t t' :
  port_ok n pending (mkPort q k ts d log) ->
  ts !! i = Some t -> t <> Returned ->
  log' ++ reals (batch_of t') ++ reals q' ≡ₚ log ++ reals (batch_of t) ++ reals q ->
  real_keys log' ->
  ((if stopping t' then 1 else 0) + sentinels q' <=
   (if stopping t then 1 else 0) + sentinels q)%nat ->
  (0 < (if stopping t then 1 else 0) + sentinels q ->
   0 < (if stopping t' then 1 else 0) + sentinels q')%nat ->
  port_ok n pending (mkPort q' k (<[i := t']> ts) d log').
Proof.
  intros [H1 H2 H3 H4 H5 H6 H7 H7b H8 H9] Hi Ht Hperm Hlog Hle Hge. cbn in *.
  destruct (threads_change ts i t t' Hi) as (Hlen & Hst & Hle' & Hb).
  split; cbn; try done.
  - congruence.
  - rewrite <- H4.
    assert (reals (in_batches (<[i:=t']> ts)) ++ reals (batch_of t) ≡ₚ
            reals (in_batches ts) ++ reals (batch_of t')) as Hr
      by (rewrite <- !reals_app; unfold reals; by rewrite Hb).
    apply (inj (.++ (reals (batch_of t) ++ reals (batch_of t')))).
    transitivity ((log' ++ reals (batch_of t') ++ reals q') ++
      (reals (in_batches (<[i:=t']> ts)) ++ reals (batch_of t)) ++ k); [solve_Permutation|].
    rewrite Hperm, Hr. solve_Permutation.
  - lia.
  - intros Hd Hp. specialize (H6 Hd Hp). lia.
  - intros j m Hd i' Hj. eapply joined_change; eauto.
  - intros Hd. destruct Ht. exact (not_closed_thread _ _ _ (H9 Hd) Hi).
Qed.

Local Ltac open_ok Hok := destruct Hok as [H1 H2 H3 H4 H5 H6 H7 H7b H8 H9]; cbn in *.

Lemma port_step_ok n pending s s' : port_ok n pending s -> port_step s s' -> port_ok n pending s'.
Proof.
  intros Hok Hs.
  destruct Hs as [q k1 e k2 ts d log Hd|q k ts d log i m Hi Hm Hq Hd|q k ts log i Hi
    |q k ts d log i e es stop out stop' Hi He|q k ts d log i stop Hi|q k ts log|q k ts m a log
    |q k ts m a log|q k ts a log|q k ts m a log Hj|q k ts m a log Hm].
  - open_ok Hok.
    apply Forall_app in H2 as [Hk1 [He Hk2]%Forall_cons].
    assert (sentinels [e] = 0)%nat as Hs by (unfold sentinels; rewrite filter_cons; by rewrite He).
    split; cbn; rewrite ?sentinels_app, ?Hs, ?Nat.add_0_r; try done.
    + by apply Forall_app.
    + rewrite <- H4, reals_app, reals_cons, He. solve_Permutation.
  - eapply port_ok_thread; eauto; cbn; [|apply Hok| |].
    + rewrite <- (take_drop m q) at 3. by rewrite reals_app.
    + rewrite <- (take_drop m q) at 3. rewrite sentinels_app, existsb_sentinels.
      destruct (Nat.eqb_spec (sentinels (take m q)) 0); cbn; lia.
    + rewrite <- (take_drop m q) at 1. rewrite sentinels_app, existsb_sentinels.
      destruct (Nat.eqb_spec (sentinels (take m q)) 0); cbn; lia.
  - pose proof (pok_closed _ _ _ Hok eq_refl) as Hc. cbn in Hc.
    by pose proof (not_closed_thread _ _ _ Hc Hi).
  - pose proof (stopping_entry _ es _ _ _ He) as Hst.
    eapply port_ok_thread; eauto; rewrite ?Hst; try done.
    + cbn [batch_of]. rewrite (entry_out _ es _ _ _ He). solve_Permutation.
    + apply Forall_app; split; [apply Hok|].
      apply handle_entry_cases in He as [(? & -> & _)|(? & -> & _)]; cbn; by repeat constructor.
  - eapply port_ok_thread; eauto; [|apply Hok| |]; destruct stop; cbn; done.
  - open_ok Hok. split; cbn; try done; try lia. intros i m [= <- <-]. lia.
  - open_ok Hok. specialize (H7 _ _ eq_refl).
    assert (sentinels [sentinel] = 1)%nat as Hs by done.
    split; cbn; rewrite ?sentinels_app, ?Hs; try done; try lia.
    + rewrite reals_app. by rewrite app_nil_r.
    + intros i m' [= <- <-]. lia.
  - open_ok Hok. specialize (H7 _ _ eq_refl).
    split; cbn; try done; auto. intros i m' [= <- <-]. lia.
  - open_ok Hok. split; cbn; try done; auto. intros k' m' [= <- <-]. lia.
  - open_ok Hok.
    split; cbn; try done; auto. intros k' m' [= <- <-] j Hjk.
    destruct (decide (j = m)) as [->|]; [done|]. apply (H8 m a eq_refl). lia.
  - open_ok Hok. subst m.
    split; cbn; try done; try lia. intros _. apply Forall_lookup_2. intros j t Hj.
    rewrite (H8 _ _ eq_refl j) in Hj by (by eapply lookup_lt_Some). congruence.
Qed.

Lemma reachable_port_ok n pending s :
  real_keys pending -> reachable (port_init n pending) port_step s -> port_ok n pending s.
Proof.
  intros Hp. apply reachable_invariant; [intros; by apply port_ok_init|].
  intros a b. apply port_step_ok.
Qed.

(** ** Every execution ends *)

Definition thread_weight (t : ThreadPc) : nat :=
  match t with Dequeuing => 1 | InBatch es _ => 2 + length es | Returned => 0 end.
Definition drop_weight (n : nat) (d : DropPc) : nat :=
  match d with
  | NotDropped => 5 * n + 4
  | Posting m _ => 4 * m + n + 3
  | Joining k _ => (n - k) + 2
  | Closed => 0
  end.
Definition port_weight (s : Port) : nat :=
  4 * length (kernel s) + 3 * length (queue s) + sum_list_with thread_weight (threads s) +
  drop_weight (length (threads s)) (dropper s).

Lemma sum_weight_insert ts i t t' :
  ts !! i = Some t ->
  (sum_list_with thread_weight (<[i := t']> ts) + thread_weight t =
   sum_list_with thread_weight ts + thread_weight t')%nat.
Proof.
  intros Hi. destruct (split_at _ _ _ Hi) as (l1 & l2 & -> & Hins). rewrite Hins.
  rewrite !sum_list_with_app. cbn [sum_list_with]. lia.
Qed.

Lemma port_step_weight s s' : port_step s s' -> (port_weight s' < port_weight s)%nat.
Proof.
  intros Hs. unfold port_weight.
  destruct Hs as [q k1 e k2 ts d log Hd|q k ts d log i m Hi Hm Hq Hd|q k ts log i Hi
    |q k ts d log i e es stop out stop' Hi He|q k ts d log i stop Hi|q k ts log|q k ts m a log
    |q k ts m a log|q k ts a log|q k ts m a log Hj|q k ts m a log Hm];
    cbn [kernel queue threads dropper];
    rewrite ?length_insert, ?length_app, ?length_drop; cbn [length];
    try match goal with
    | Hi : _ !! _ = Some ?t |- context [<[_ := ?t']> _] =>
        pose proof (sum_weight_insert _ _ _ t' Hi); cbn in *
    end; rewrite ?length_take in *; cbn [drop_weight] in *; try lia.
  - destruct stop; cbn in *; lia.
  - apply lookup_lt_Some in Hj. lia.
Qed.

Lemma port_terminates s : sn port_step s.
Proof.
  induction (Wf_nat.well_founded_ltof _ port_weight s) as [s _ IH].
  constructor. intros s' Hs. by apply IH, port_step_weight.
Qed.

Definition is_batch (t : ThreadPc) : bool := match t with InBatch _ _ => true | _ => false end.
(** A join that waits for a thread blocked on an empty port. *)
Definition join_blocked (s : Port) : Prop :=
  exists k m, dropper s = Joining k m /\ threads s !! k = Some Dequeuing /\ queue s = [] /\ kernel s = [] /\
    Forall (fun t => is_batch t = false) (threads s).

Lemma join_blocked_stuck s : join_blocked s -> nf port_step s.
Proof.
  intros (k & m & Hd & Hk & Hq & Hker & Hts) [s' Hs]. rewrite Forall_lookup in Hts.
  destruct Hs as [? k1 ? k2 ? ? ?| | | ? ? ? ? ? ? ? ? ? ? ? Hi|? ? ? ? ? ? ? Hi| | | | |? ? ? ? ? ? Hj|? ? ? ? ? ? ->];
    cbn in *; simplify_eq; try done.
  - by destruct k1.
  - cbn in *. lia.
  - by specialize (Hts _ _ Hi).
  - by specialize (Hts _ _ Hi).
  - apply lookup_lt_Some in Hk. lia.
Qed.

(** A port is closed, can go on, or is at such a join. *)
Lemma port_progress n pending s :
  port_ok n pending s -> dropper s = Closed \/ (exists s', port_step s s') \/ join_blocked s.
Proof.
  intros Hok. destruct s as [q k ts d log].
  destruct (decide (d = Closed)) as [->|Hd]; [by left|right].
  destruct k as [|e k]; [|left; eexists; by apply (port_arrive q [] e k)].
  assert (Hts : (exists s', port_step (mkPort q [] ts d log) s') \/
    Forall (fun t => is_batch t = false) ts).
  { destruct (decide (Forall (fun t => is_batch t = false) ts)) as [Hf|Hf].
    - right. eapply Forall_impl; [exact Hf|]. by intros [].
    - left. apply not_Forall_Exists in Hf; [|apply _]. apply Exists_exists in Hf as (t & Hin & Ht).
      apply list_elem_of_lookup in Hin as [i Hi]. destruct t as [|[|e es] stop|]; [by destruct Ht| | |by destruct Ht].
      + eexists. by apply port_batch_done.
      + destruct (handle_entry e stop) eqn:He. eexists. by eapply port_entry. }
  destruct Hts as [|Hts]; [by left|]. destruct d as [|[|m] a|j a|]; [left..| |done].
  - eexists. apply port_drop.
  - eexists. apply port_posted.
  - eexists. apply port_post.
  - destruct (ts !! j) as [t|] eqn:Hj.
    + destruct t as [|es stop|].
      * destruct q as [|e q].
        -- right. by exists j, a.
        -- left. eexists. by apply (port_dequeue _ _ _ _ _ j 1); [|unfold BATCH; lia|cbn; lia|].
      * rewrite Forall_lookup in Hts. by specialize (Hts _ _ Hj).
      * left. eexists. by apply port_join.
    + left. eexists. apply port_close. apply lookup_ge_None in Hj.
      destruct (decide (j = length ts)) as [|Hne]; [done|].
      pose proof (pok_joined _ _ _ Hok j a eq_refl (length ts) ltac:(lia)) as Hr.
      apply lookup_lt_Some in Hr. cbn in Hr. lia.
Qed.

(** Where an execution can stop: a port that was closed, or a thread blocked on
    an empty port. *)
Lemma port_stuck n pending s :
  port_ok n pending s -> nf port_step s -> dropper s = Closed \/ join_blocked s.
Proof. intros Hok Hnf. destruct (port_progress _ _ _ Hok) as [|[[s' Hs]|]]; auto. destruct Hnf. by exists s'. Qed.

(** What leaves a thread blocked: two threads or more, one of which may take several
    sentinels in a batch, or a sentinel that could not be posted. *)
Lemma port_stuck_why n pending s k m i :
  (0 < n)%nat -> port_ok n pending s -> dropper s = Joining k m -> queue s = [] ->
  threads s !! i = Some Dequeuing -> (2 <= n)%nat \/ (m < n)%nat.
Proof.
  intros Hn [H1 _ _ _ _ H6 _ H7 _ _] Hk Hq Hi. rewrite Hk, Hq in H6. rewrite Hk in H7. cbn in H6, H7.
  destruct (decide (m < n)%nat) as [|Hm]; [by right|]. left.
  destruct (decide (n = 1%nat)) as [->|]; [|lia].
  destruct (threads s) as [|t [|]] eqn:Ht; try discriminate.
  destruct i as [|i]; [|done]. injection Hi as ->.
  specialize (H6 ltac:(done) ltac:(lia)). exfalso.
  assert (stoppers [Dequeuing] + sentinels [] = 0)%nat by done. lia.
Qed.


(** ** Nothing queued before the drop is lost *)

(** [L] is delivered, being delivered, or at the front of the queue before every
    sentinel, and then no thread has seen a sentinel yet. *)
Definition kept (L : list OVERLAPPED_ENTRY) (s : Port) : Prop :=
  exists q1 q2, queue s = q1 ++ q2 /\ real_keys q1 /\
    L ⊆+ delivered s ++ reals (in_batches (threads s)) ++ q1 /\
    (q1 = [] \/ stoppers (threads s) = O).

Lemma stoppers_O ts i t : stoppers ts = O -> ts !! i = Some t -> stopping t = false.
Proof.
  intros H0 Hi. destruct (split_at _ _ _ Hi) as (l1 & l2 & -> & _).
  rewrite stoppers_app in H0. destruct (stopping t); [lia|done].
Qed.

Lemma kept_thread L q1 q1' q2 k ts d log log' i t t' :
  L ⊆+ log ++ reals (in_batches ts) ++ q1 ->
  ts !! i = Some t ->
  log' ++ reals (batch_of t') ++ q1' ≡ₚ log ++ reals (batch_of t) ++ q1 ++ q2 ->
  real_keys q1' ->
  (q1' = [] \/ (stoppers ts = O /\ (stopping t = false -> stopping t' = false))) ->
  forall q2', kept L (mkPort (q1' ++ q2') k (<[i := t']> ts) d log').
Proof.
  intros HL Hi Hperm Hr Hst q2'. exists q1', q2'. cbn. repeat (split; [done|]).
  destruct (threads_change ts i t t' Hi) as (_ & Hs & _ & Hb). split.
  - trans ((log ++ reals (in_batches ts) ++ q1)); [done|].
    assert (reals (in_batches (<[i:=t']> ts)) ++ reals (batch_of t) ≡ₚ
            reals (in_batches ts) ++ reals (batch_of t')) as HR
      by (rewrite <- !reals_app; unfold reals; by rewrite Hb).
    assert (log' ++ reals (in_batches (<[i:=t']> ts)) ++ q1' ≡ₚ
            (log ++ reals (in_batches ts) ++ q1) ++ q2) as ->.
    { apply (inj (.++ (reals (batch_of t) ++ reals (batch_of t')))).
      transitivity ((log' ++ reals (batch_of t') ++ q1') ++
        (reals (in_batches (<[i:=t']> ts)) ++ reals (batch_of t))); [solve_Permutation|].
      rewrite Hperm, HR. solve_Permutation. }
    by apply submseteq_inserts_r.
  - destruct Hst as [->|[H0 Hst]]; [auto|right].
    pose proof (stoppers_O _ _ _ H0 Hi) as Ht. rewrite Ht, (Hst Ht) in Hs. lia.
Qed.

Lemma kept_queue L q q' k k' ts d d' log :
  kept L (mkPort q k ts d log) -> kept L (mkPort (q ++ q') k' ts d' log).
Proof.
  intros (q1 & q2 & Hq & ? & ? & ?). cbn in *. subst q. exists q1, (q2 ++ q'). cbn.
  by rewrite <- (assoc_L (++)).
Qed.

Lemma take_app_real m (q1 q2 : list OVERLAPPED_ENTRY) :
  real_keys q1 ->
  reals (take m (q1 ++ q2)) = take m q1 ++ reals (take (m - length q1) q2).
Proof.
  intros Hr. rewrite take_app, reals_app. f_equal. apply reals_id. by apply Forall_take.
Qed.

Lemma kept_step n pending L s s' :
  port_ok n pending s -> kept L s -> port_step s s' -> kept L s'.
Proof.
  intros Hok HK Hs.
  destruct Hs as [q k1 e k2 ts d log Hd|q k ts d log i m Hi Hm Hq Hd|q k ts log i Hi
    |q k ts d log i e es stop out stop' Hi He|q k ts d log i stop Hi|q k ts log|q k ts m a log
    |q k ts m a log|q k ts a log|q k ts m a log Hj|q k ts m a log Hm];
    try (by eapply kept_queue); try exact HK;
    destruct HK as (q1 & q2 & Hq12 & Hr1 & HL & Hst); cbn in *; subst q.
  - rewrite drop_app.
    eapply (kept_thread _ q1 _ (reals (take (m - length q1) q2))); eauto.
    + cbn [batch_of]. rewrite take_app_real by done. cbn.
      rewrite <- (take_drop m q1) at 4. solve_Permutation.
    + by apply Forall_drop.
    + destruct (decide (length q1 <= m)%nat) as [|Hlt]; [left; by apply drop_ge|right].
      split; [destruct Hst as [->|]; [cbn in *; lia|done]|]. intros _. cbn.
      rewrite take_app_le by lia. apply Bool.not_true_iff_false. intros Hex.
      apply existsb_exists in Hex as (e & He & Hs).
      apply (Forall_take _ m) in Hr1. rewrite Forall_forall in Hr1.
      rewrite (Hr1 e) in Hs; [done|]. by apply list_elem_of_In.
  - pose proof (pok_closed _ _ _ Hok eq_refl) as Hc.
    by pose proof (not_closed_thread _ _ _ Hc Hi).
  - eapply (kept_thread _ q1 _ []); eauto.
    + rewrite app_nil_r. cbn [batch_of]. rewrite (entry_out _ es _ _ _ He). solve_Permutation.
    + destruct Hst; [auto|right]. split; [done|]. by rewrite (stopping_entry _ es _ _ _ He).
  - eapply (kept_thread _ q1 _ []); eauto.
    + rewrite app_nil_r. by destruct stop.
    + destruct Hst; [auto|right]. split; [done|]. by destruct stop.
Qed.

Lemma all_returned ts :
  Forall (fun t => t = Returned) ts -> in_batches ts = [] /\ stoppers ts = length ts.
Proof.
  induction 1 as [|t ts -> _ [IH1 IH2]]; [done|]. split; [done|].
  unfold stoppers in *. rewrite filter_cons, decide_True by done. cbn. by rewrite IH2.
Qed.

Lemma no_sentinels es : sentinels es = O -> real_keys es.
Proof.
  induction es as [|e es IH]; [constructor|]. unfold sentinels in *. rewrite filter_cons.
  destruct (is_sentinel e) eqn:He; case_decide; try done.
  intros Hs. constructor; [done|by apply IH].
Qed.

(** Before the drop no sentinel is anywhere. *)
Lemma not_dropped_clean n pending s :
  port_ok n pending s -> dropper s = NotDropped ->
  real_keys (queue s) /\ stoppers (threads s) = O /\ real_keys (in_batches (threads s)).
Proof.
  intros [_ _ _ _ H5 _ _ _ _ _] Hd. rewrite Hd in H5. cbn in H5.
  split; [apply no_sentinels; lia|]. assert (stoppers (threads s) = O) as H0 by lia.
  split; [done|]. revert H0. generalize (threads s) as ts.
  induction ts as [|t ts IH]; [constructor|].
  intros H0. change (t :: ts) with ([] ++ t :: ts) in H0. rewrite stoppers_app in H0.
  change (stoppers []) with O in H0. unfold in_batches. rewrite bind_cons.
  apply Forall_app. split; [|apply IH; lia].
  destruct t as [|es stop|]; [constructor| |constructor]. cbn in *.
  rewrite existsb_sentinels in H0. apply no_sentinels.
  destruct stop, (Nat.eqb_spec (sentinels es) 0); cbn in *; lia.
Qed.

(** C9. Every completion that reached the port before it was dropped is delivered by
    the time the drop returns, whatever the number of threads and however the
    kernel deals the packets out; and over the whole life of the port no packet
    is delivered twice and none is made up.  (The log counts calls of
    [deliver_completion] as a multiset.) *)
Theorem drop_delivers_queued n pending s s' :
  (0 < n)%nat -> real_keys pending ->
  reachable (port_init n pending) port_step s -> dropper s = NotDropped ->
  rtc port_step s s' -> dropper s' = Closed ->
  delivered s ++ in_batches (threads s) ++ queue s ⊆+ delivered s' /\
  delivered s' ⊆+ pending.
Proof.
  intros Hn Hp Hr Hd Hrtc Hc.
  pose proof (reachable_port_ok _ _ _ Hp Hr) as Hok.
  assert (reachable (port_init n pending) port_step s') as Hr'.
  { destruct Hr as (s0 & ? & ?). exists s0. split; [done|]. by trans s. }
  pose proof (reachable_port_ok _ _ _ Hp Hr') as Hok'.
  split; [|rewrite <- (pok_conserved _ _ _ Hok'); by apply submseteq_inserts_r].
  pose proof (not_dropped_clean _ _ _ Hok Hd) as (Hq & Hst & Hb).
  assert (kept (delivered s ++ in_batches (threads s) ++ queue s) s) as HK.
  { exists (queue s), []. rewrite app_nil_r, (reals_id _ Hb). auto. }
  revert HK. generalize (delivered s ++ in_batches (threads s) ++ queue s) as L. intros L HK.
  assert (port_ok n pending s' /\ kept L s') as [_ HK'].
  { apply (rtc_invariant port_step (fun s => port_ok n pending s /\ kept L s) s s'); auto.
    intros a b [? ?] ?. split; [by eapply port_step_ok|by eapply kept_step]. }
  destruct HK' as (q1 & q2 & _ & _ & HL & Hq1).
  pose proof (pok_closed _ _ _ Hok' Hc) as Hret.
  destruct (all_returned _ Hret) as [Hb' Hst'].
  rewrite Hst', (pok_threads _ _ _ Hok'), Hb' in *.
  destruct Hq1 as [->|]; [|lia]. by rewrite app_nil_r in HL.
Qed.

(** ** Two threads, one batch *)

Lemma rtc_post q ts m a log :
  rtc port_step (mkPort q [] ts (Posting m a) log)
    (mkPort (q ++ replicate m sentinel) [] ts (Posting 0 (m + a)) log).
Proof.
  revert q a. induction m as [|m IH]; intros q a; [by rewrite app_nil_r|].
  eapply rtc_l; [apply port_post|]. specialize (IH (q ++ [sentinel]) (S a)).
  by rewrite <- (assoc_L (++)), Nat.add_succ_r in IH.
Qed.

Lemma rtc_batch q k ts m (stop : bool) d log :
  rtc port_step (mkPort q k (InBatch (replicate m sentinel) stop :: ts) d log)
    (mkPort q k (InBatch [] (stop || negb (m =? 0)%nat) :: ts) d log).
Proof.
  revert stop. induction m as [|m IH]; intros stop; [by rewrite orb_false_r|].
  eapply rtc_l; [by apply (port_entry _ _ _ _ _ 0 sentinel (replicate m sentinel) stop None true)|].
  cbn. rewrite app_nil_r, orb_true_r.
  apply (IH true).
Qed.

(** C26. A batch may hold several sentinels and its thread stops once: with between 2
    and [BATCH] threads there is an execution in which every sentinel is posted, the
    first thread to wake takes them all, returns and is joined, and
    [IoPort::drop] then waits for ever for a second thread that is blocked on an
    empty port.  No step is possible from there, so the port is never closed. *)
Theorem drop_can_hang n :
  (2 <= n <= BATCH)%nat ->
  let s := mkPort [] [] (Returned :: replicate (n - 1) Dequeuing) (Joining 1 n) [] in
  reachable (port_init n []) port_step s /\ nf port_step s.
Proof.
  intros Hn. cbn zeta. destruct n as [|n]; [lia|]. rewrite Nat.sub_succ, Nat.sub_0_r. split.
  - eexists. split; [done|]. unfold port_init.
    eapply rtc_l; [apply port_drop|]. etrans; [apply rtc_post|].
    eapply rtc_l; [apply port_posted|]. rewrite length_replicate, Nat.add_0_r. cbn [app].
    eapply rtc_l; [apply (port_dequeue _ _ _ _ _ 0 (S n)); rewrite ?length_replicate; auto; lia|].
    rewrite take_ge, drop_ge by (by rewrite length_replicate). cbn [replicate insert list_insert].
    etrans; [apply (rtc_batch [] [] _ (S n))|].
    eapply rtc_l; [by apply (port_batch_done _ _ _ _ _ 0 true)|]. cbn.
    eapply rtc_l; [by apply port_join|]. apply rtc_refl.
  - intros [s' Hs]. inversion Hs; subst;
      repeat match goal with
      | Hk : ?l ++ _ :: _ = [] |- _ => by destruct l
      | Hi : (Returned :: _) !! ?i = Some _ |- _ =>
          destruct i; cbn in Hi; [discriminate|by apply lookup_replicate in Hi as [? _]]
      end; try done; cbn in *; rewrite ?length_replicate in *; try lia.
    all: by match goal with Hi : _ !! _ = Some _ |- _ => apply lookup_replicate in Hi as [? _] end.
Qed.

(** ** A drop that goes well: each thread takes one sentinel, in its turn to be joined *)

Definition port_start (n : nat) : Port := mkPort [] [] (replicate n Dequeuing) NotDropped [].

Definition port_go (s : Port) : Port :=
  let '(mkPort q k ts d log) := s in
  match d with
  | NotDropped => mkPort q k ts (Posting (length ts) 0) log
  | Posting (S n) m => mkPort (q ++ [sentinel]) k ts (Posting n (S m)) log
  | Posting 0 m => mkPort q k ts (Joining 0 m) log
  | Joining j m =>
      match ts !! j, q with
      | None, _ => if (j =? length ts)%nat then mkPort q k ts Closed log else s
      | Some Dequeuing, e :: q' => mkPort q' k (<[j := InBatch [e] false]> ts) d log
      | Some (InBatch (e :: es) stop), _ =>
          let '(out, stop) := handle_entry e stop in
          mkPort q k (<[j := InBatch es stop]> ts) d (log ++ option_list out)
      | Some (InBatch [] stop), _ => mkPort q k (<[j := if stop then Returned else Dequeuing]> ts) d log
      | Some Returned, _ => mkPort q k ts (Joining (S j) m) log
      | _, _ => s
      end
  | Closed => s
  end.

Lemma port_go_step s : port_go s = s \/ port_step s (port_go s).
Proof.
  destruct s as [q k ts [|[|n] m|j m|] log]; cbn [port_go].
  - right. apply port_drop.
  - right. apply port_posted.
  - right. apply port_post.
  - destruct (ts !! j) as [[|[|e es] stop|]|] eqn:Hj.
    + destruct q as [|e q]; [by left|right].
      by apply (port_dequeue (e :: q) k ts _ log j 1); [|unfold BATCH; lia|cbn; lia|].
    + right. by apply port_batch_done.
    + destruct (handle_entry e stop) as [out stop'] eqn:He. right. by eapply port_entry.
    + right. by apply port_join.
    + destruct (Nat.eqb_spec j (length ts)) as [->|]; [right; by apply port_close|by left].
  - by left.
Qed.

Section iocp_witnesses.
Definition demo_entry : OVERLAPPED_ENTRY := mkEntry 0x44 1 (mkPacket None 17).
Definition demo_queued : Port := mkPort [demo_entry] [] [Dequeuing] NotDropped [].
Definition demo_closed : Port := mkPort [] [] [Returned] Closed [demo_entry].

Lemma demo_queued_reachable : reachable (port_init 1 [demo_entry]) port_step demo_queued.
Proof.
  eexists. split; [done|]. eapply rtc_l; [by apply (port_arrive [] [] demo_entry [])|apply rtc_refl].
Qed.

Lemma demo_run : rtc port_step demo_queued demo_closed.
Proof.
  eapply rtc_l; [apply port_drop|]. eapply rtc_l; [apply port_post|].
  eapply rtc_l; [apply port_posted|]. cbn.
  eapply rtc_l; [apply (port_dequeue _ _ _ _ _ 0 2); [done|unfold BATCH; lia|done|done]|]. cbn.
  eapply rtc_l; [by eapply (port_entry _ _ _ _ _ 0)|]. cbn.
  eapply rtc_l; [by eapply (port_entry _ _ _ _ _ 0)|]. cbn.
  eapply rtc_l; [by apply (port_batch_done _ _ _ _ _ 0 true)|]. cbn.
  eapply rtc_l; [by apply port_join|]. eapply rtc_l; [by apply port_close|]. apply rtc_refl.
Qed.

Lemma real_demo : real_keys [demo_entry].
Proof. by repeat constructor. Qed.
End iocp_witnesses.


Lemma drop_delivers_queued_witness : [demo_entry] ⊆+ delivered demo_closed.
Proof.
  apply (drop_delivers_queued 1 [demo_entry] demo_queued demo_closed);
    [lia|apply real_demo|apply demo_queued_reachable|reflexivity|apply demo_run|reflexivity].
Defined.

Lemma drop_can_hang_witness :
  nf port_step (mkPort [] [] [Returned; Dequeuing] (Joining 1 2) []).
Proof. apply (drop_can_hang 2). unfold BATCH. lia. Defined.
