(* ===== verification/Completion.v ===== *)
(** * Operations over a completion port (crates/httpsys/src/overlapped.rs, iocp.rs)

    The operations of [Overlapped] and the port of [Iocp] as one system.  A call the
    kernel accepts puts a packet under way; the threads of the port take it out of
    the queue and call [deliver_completion] on the pointer it carries; nothing but
    that pointer leads them to the operation.  The file has the system, its
    invariant, how it refines the two it is made of, and what is left when the
    port is dropped; that every operation ends is in [Delivery]. *)

From S2P Require Import Prelude Errors Crates HttpApi Overlapped Iocp.
Set Warnings "-clear-no-such-hyp".

(** ** The system *)

Section completion.
Context `{ArrayQueue Q} `{AtomicWaker W AW}.
(** The file the operations are on. *)
Context (file : Z).

(** [c_held]: the references that threads have taken back with [Arc::from_raw] and
    not yet dropped, by thread. *)
Record Completion := mkCompletion {
  c_port : Port;
  c_sys : Sys Q AW;
  c_held : gmap nat nat;
}.

(** The kernel has accepted operations and will post these packets for them. *)
Definition accept (es : list OVERLAPPED_ENTRY) (p : Port) : Port :=
  mkPort (queue p) (kernel p ++ es) (threads p) (dropper p) (delivered p).

(** The part of an operation that its submitter has no hand in. *)
Definition mark (o : OpState) : option (Z * Z) * option Packet * bool := (o_answer o, o_packet o, o_thr o).
Definition marks (s : Sys Q AW) (i : nat) : option (Z * Z) * option Packet * bool :=
  match ops s !! i with Some o => mark o | None => (None, None, false) end.

(** What a delivery to [l], and the drop of the reference to it, say of the
    operation whose wrap that is. *)
Definition mark_delivered (l : nat) (p : Packet) (o : OpState) : OpState :=
  if bool_decide (leaked (o_op o) = l) && kernel_owes o
  then mkOpState (o_op o) (o_phase o) false true (o_answer o) (Some p) else o.
Definition mark_dropped (l : nat) (o : OpState) : OpState :=
  if bool_decide (leaked (o_op o) = l) && o_thr o
  then mkOpState (o_op o) (o_phase o) (o_kern o) false (o_answer o) (o_packet o) else o.

Inductive completion_step : Completion -> Completion -> Prop :=
  (* the call of operation [i] returns *)
  | c_submit p s hd i op ec scribble bytes pk :
      ops s !! i = Some (mkOpState op Submitting true false None None) ->
      completion_step (mkCompletion p s hd)
        (mkCompletion (accept (if packet_due (skip_on_success op) ec then [mkEntry (wrap64 file) (leaked op) pk] else []) p)
          (mkSys (kernel_write (leaked op) scribble bytes (heap s))
            (<[i := mkOpState op (Submitted ec bytes) true false (Some (ec, bytes)) None]> (ops s))) hd)
  (* a step of a submitter, or a write of the kernel *)
  | c_own p s s' hd :
      op_step s s' -> (forall i, marks s' i = marks s i) ->
      completion_step (mkCompletion p s hd) (mkCompletion p s' hd)
  (* the kernel posts, a thread takes a batch or leaves one, [IoPort::drop]; a thread
     that holds a reference first drops it *)
  | c_move p p' s hd :
      port_step p p' -> delivered p' = delivered p ->
      (forall t, is_Some (hd !! t) -> threads p' !! t = threads p !! t) ->
      completion_step (mkCompletion p s hd) (mkCompletion p' s hd)
  (* [deliver_completion]: the pointer of the entry is completed *)
  | c_deliver q k ts d log s hd t e es (stop : bool) :
      ts !! t = Some (InBatch (e :: es) stop) -> hd !! t = None ->
      handle_entry e stop = (Some e, stop) ->
      completion_step (mkCompletion (mkPort q k ts d log) s hd)
        (mkCompletion (mkPort q k (<[t := InBatch es stop]> ts) d (log ++ [e]))
          (mkSys (deliver_complete (lpOverlapped e) (e_packet e) (heap s))
            (mark_delivered (lpOverlapped e) (e_packet e) <$> ops s))
          (<[t := lpOverlapped e]> hd))
  (* its end: the reference is dropped *)
  | c_drop p s hd t l :
      hd !! t = Some l ->
      completion_step (mkCompletion p s hd)
        (mkCompletion p (mkSys (arc_drop l (heap s)) (mark_dropped l <$> ops s)) (delete t hd)).

(** A port of [n] threads and a pool, nothing submitted. *)
Definition completion_init (n : nat) (slots : Z) (c : Completion) : Prop :=
  c = mkCompletion (mkPort [] [] (replicate n Dequeuing) NotDropped []) (mkSys (op_pool_new slots) ∅) ∅.

(** Packets that are in the kernel, in the queue or in a batch. *)
Definition undelivered (p : Port) : list OVERLAPPED_ENTRY :=
  reals (in_batches (threads p)) ++ reals (queue p) ++ kernel p.

(** The operation was accepted and its packet has not been delivered. *)
Definition under_way (o : OpState) : Prop :=
  o_packet o = None /\ exists ec b, o_answer o = Some (ec, b) /\ packet_due (skip_on_success (o_op o)) ec = true.
End completion.

Arguments Completion Q AW : clear implicits.

(** ** The port of a growing kernel *)

Lemma accept_step es p p' : port_step p p' -> port_step (accept es p) (accept es p').
Proof.
  destruct 1; unfold accept; cbn [queue kernel threads dropper delivered];
    rewrite <- ?(assoc_L (++)); cbn [app]; by econstructor.
Qed.

Lemma accept_run es p p' : rtc port_step p p' -> rtc port_step (accept es p) (accept es p').
Proof. induction 1; [apply rtc_refl|]. eapply rtc_l; [by apply accept_step|done]. Qed.

Lemma accept_nil p : accept [] p = p.
Proof. unfold accept. rewrite app_nil_r. by destruct p. Qed.

Lemma accept_accept es es' p : accept es' (accept es p) = accept (es ++ es') p.
Proof. unfold accept. cbn. by rewrite (assoc_L (++)). Qed.

Lemma accept_reachable n pending es p :
  reachable (port_init n pending) port_step p -> reachable (port_init n (pending ++ es)) port_step (accept es p).
Proof.
  intros (p0 & -> & Hr). eexists. split; [done|]. apply (accept_run es) in Hr. exact Hr.
Qed.

Lemma real_keys_app es es' : real_keys es -> real_keys es' -> real_keys (es ++ es').
Proof. intros. by apply Forall_app. Qed.

Lemma port_ok_accept n pending es p :
  real_keys es -> port_ok n pending p -> port_ok n (pending ++ es) (accept es p).
Proof.
  intros Hes [H1 H2 H3 H4 H5 H6 H7 H8 H9]. split; try done; cbn.
  - by apply real_keys_app.
  - rewrite <- H4. by rewrite !(assoc_L (++)).
Qed.

(** A step that delivers nothing leaves what is undelivered. *)
Lemma undelivered_step n pending p p' :
  port_ok n pending p -> port_step p p' -> delivered p' = delivered p -> undelivered p' ≡ₚ undelivered p.
Proof.
  intros Hok Hs Hd. pose proof (port_step_ok _ _ _ _ Hok Hs) as Hok'.
  apply (inj (delivered p ++.)). rewrite <- Hd at 1.
  etrans; [apply (pok_conserved _ _ _ Hok')|]. symmetry. apply (pok_conserved _ _ _ Hok).
Qed.

Lemma undelivered_accept es p : undelivered (accept es p) = undelivered p ++ es.
Proof. unfold undelivered, accept. cbn. by rewrite <- !(assoc_L (++)). Qed.

(** ** How an operation goes on *)

Section facts.
Context `{ArrayQueueLaws Q} `{AtomicWaker W AW}.
Context (file : Z).
(** A key is a handle value, and [-1] is no handle. *)
Context (is_handle : wrap64 file <> SHUTDOWN_KEY).
Implicit Types (s : Sys Q AW) (c : Completion Q AW) (o : OpState).

Local Abbreviation step := (completion_step file).

Definition phase_rank (ph : Phase) : nat :=
  match ph with
  | Submitting => 4
  | Submitted _ _ => 3
  | Awaiting => 2
  | Cancelling => 1
  | Overlapped.Returned _ | Dropped => 0
  end.

Definition goes_on o o' : Prop :=
  o_op o' = o_op o /\
  (o_phase o' = o_phase o \/ (phase_rank (o_phase o') < phase_rank (o_phase o))%nat).

Lemma goes_on_refl o : goes_on o o.
Proof. split; auto. Qed.

Lemma op_step_goes_on s s' x o :
  op_step s s' -> ops s !! x = Some o -> exists o', ops s' !! x = Some o' /\ goes_on o o'.
Proof.
  intros Hs Ho. assert (Hkeep : exists o', ops s !! x = Some o' /\ goes_on o o') by eauto using goes_on_refl.
  destruct Hs; cbn [ops]; try done;
    (destruct (decide (i = x)) as [->|Hne]; [simplify_eq; rewrite lookup_insert_eq|by rewrite lookup_insert_ne]);
    eexists; (split; [done|]); (split; [done|]); cbn; auto with lia.
  match goal with Hph : _ \/ _ |- _ => destruct Hph as [->| ->] end; cbn; auto with lia.
Qed.

(** ** The invariant *)

(** The submitter's state says whether a packet is under way. *)
Lemma under_way_kern o : op_ok o -> under_way o -> o_kern o = true /\ o_thr o = false.
Proof.
  intros [_ Hok] (Hp & ec & b & Ha & Hdue).
  assert (Hfl : in_flight o -> o_kern o = true /\ o_thr o = false).
  { intros [(? & ? & _)|(_ & [? Hp'] & _)]; [done|congruence]. }
  destruct (o_phase o).
  - destruct Hok as (_ & _ & _ & ?). congruence.
  - by apply Hfl, Hok.
  - by apply Hfl, Hok.
  - by apply Hfl, Hok.
  - destruct Hok as (_ & _ & ec' & b' & Ha' & Hr). rewrite Ha in Ha'. injection Ha' as <- <-.
    unfold expected_result in Hr. by rewrite Hdue, Hp in Hr.
  - destruct Hok as (_ & [? Hp'] & _). congruence.
Qed.

Lemma packet_no_kern o : op_ok o -> is_Some (o_packet o) -> o_kern o = false.
Proof.
  intros [_ Hok] [p Hp].
  assert (Hfl : in_flight o -> o_kern o = false) by (intros [(_ & _ & ?)|(? & _)]; [congruence|done]).
  destruct (o_phase o); try (by apply Hfl, Hok); [|by apply Hok..].
  destruct Hok as (_ & _ & ? & _). congruence.
Qed.

Lemma under_way_mark o o' : mark o = mark o' -> o_op o = o_op o' -> under_way o -> under_way o'.
Proof. unfold under_way, mark. by intros [= -> -> _] ->. Qed.

Record completion_ok (n : nat) c : Prop := {
  ck_sys : exists R, sys_ok (c_sys c) R;
  ck_port : exists pending, port_ok n pending (c_port c);
  ck_nodup : NoDup (map lpOverlapped (undelivered (c_port c)));
  ck_entry l : l ∈ map lpOverlapped (undelivered (c_port c)) <->
    exists i o, ops (c_sys c) !! i = Some o /\ under_way o /\ leaked (o_op o) = l;
  ck_held t l : c_held c !! t = Some l ->
    (exists es stop, threads (c_port c) !! t = Some (InBatch es stop)) /\
    exists i o, ops (c_sys c) !! i = Some o /\ o_thr o = true /\ leaked (o_op o) = l;
  ck_inj t t' l : c_held c !! t = Some l -> c_held c !! t' = Some l -> t = t';
  ck_thr i o : ops (c_sys c) !! i = Some o -> o_thr o = true ->
    exists t, c_held c !! t = Some (leaked (o_op o));
}.

Lemma completion_ok_init n slots c : completion_init n slots c -> completion_ok n c.
Proof.
  intros ->. split; cbn [c_port c_sys c_held ops heap].
  - exists ∅. by apply (sys_ok_init slots).
  - exists []. apply port_ok_init; [constructor|done].
  - unfold undelivered. cbn. rewrite in_batches_replicate. constructor.
  - intros l. unfold undelivered. cbn. rewrite in_batches_replicate. split; [by intros ?%elem_of_nil|].
    by intros (i & o & Ho & _).
  - done.
  - done.
  - done.
Qed.

(** The operation a pointer leads to is the only one with a share in its wrap. *)
Lemma owner_unique s R i j o o' :
  sys_ok s R -> ops s !! i = Some o -> ops s !! j = Some o' -> (0 < refs o)%nat -> (0 < refs o')%nat ->
  leaked (o_op o) = leaked (o_op o') -> i = j.
Proof.
  intros Hs Hi Hj Hr Hr' E. apply (so_distinct _ _ Hs i j o o'); try done.
  destruct (so_op _ _ Hs _ _ Hi) as [<- _]. by destruct (so_op _ _ Hs _ _ Hj) as [<- _].
Qed.

(** Marking the operations of a wrap marks one. *)
Lemma mark_one (f : OpState -> OpState) s i o :
  ops s !! i = Some o ->
  (forall j oj, ops s !! j = Some oj -> j <> i -> f oj = oj) ->
  f <$> ops s = <[i := f o]> (ops s).
Proof.
  intros Hi Hf. apply map_eq. intros j. rewrite lookup_fmap. destruct (decide (i = j)) as [<-|Hne].
  - by rewrite Hi, lookup_insert_eq.
  - rewrite lookup_insert_ne by done. destruct (ops s !! j) as [oj|] eqn:Hj; [|done]. cbn. by rewrite (Hf j oj).
Qed.

Lemma kernel_owes_under_way o : kernel_owes o = true <-> under_way o.
Proof.
  clear is_handle file. unfold kernel_owes, under_way.
  destruct (o_answer o) as [[ec b]|], (o_packet o); naive_solver.
Qed.

Lemma mark_delivered_one s R i op ph ec b l p :
  sys_ok s R -> ops s !! i = Some (mkOpState op ph true false (Some (ec, b)) None) ->
  packet_due (skip_on_success op) ec = true -> leaked op = l ->
  mark_delivered l p <$> ops s = <[i := mkOpState op ph false true (Some (ec, b)) (Some p)]> (ops s).
Proof.
  intros Hs Hi Hdue <-.
  replace (mkOpState op ph false true (Some (ec, b)) (Some p)) with
    (mark_delivered (leaked op) p (mkOpState op ph true false (Some (ec, b)) None))
    by (unfold mark_delivered, kernel_owes; cbn; rewrite Hdue; by case_bool_decide).
  apply mark_one; [done|]. intros j oj Hj Hne. unfold mark_delivered.
  case_bool_decide as El; [|done]. destruct (kernel_owes oj) eqn:Ek; [|done]. destruct Hne.
  apply (owner_unique s R j i _ _ Hs Hj Hi); [|by apply refs_pos_kern|done].
  apply refs_pos_kern, (under_way_kern oj); [by eapply so_op|by apply kernel_owes_under_way].
Qed.

Lemma mark_dropped_one s R i op ph k a p l :
  sys_ok s R -> ops s !! i = Some (mkOpState op ph k true a p) -> leaked op = l ->
  mark_dropped l <$> ops s = <[i := mkOpState op ph k false a p]> (ops s).
Proof.
  intros Hs Hi <-.
  replace (mkOpState op ph k false a p) with
    (mark_dropped (leaked op) (mkOpState op ph k true a p)) by (unfold mark_dropped; by case_bool_decide).
  apply mark_one; [done|]. intros j oj Hj Hne. unfold mark_dropped.
  case_bool_decide as El; [|done]. destruct (o_thr oj) eqn:Ek; [|done]. destruct Hne.
  apply (owner_unique s R j i _ _ Hs Hj Hi); [by apply refs_pos_thr|by apply refs_pos_thr|done].
Qed.

(** ** It is kept *)

Lemma own_step_op s s' i o :
  op_step s s' -> (forall j, marks s' j = marks s j) -> mark o <> (None, None, false) ->
  ops s' !! i = Some o -> exists o0, ops s !! i = Some o0 /\ mark o0 = mark o /\ o_op o0 = o_op o.
Proof.
  intros Hs Hm Hne Hi. specialize (Hm i). unfold marks in Hm. rewrite Hi in Hm.
  destruct (ops s !! i) as [o0|] eqn:Hi0; [|congruence]. exists o0. split; [done|]. split; [done|].
  destruct (op_step_goes_on _ _ _ _ Hs Hi0) as (o1 & Hi1 & E & _). rewrite Hi in Hi1. by injection Hi1 as <-.
Qed.

Lemma own_step_op_back s s' i o :
  op_step s s' -> (forall j, marks s' j = marks s j) ->
  ops s !! i = Some o -> exists o', ops s' !! i = Some o' /\ mark o' = mark o /\ o_op o' = o_op o.
Proof.
  intros Hs Hm Hi. destruct (op_step_goes_on _ _ _ _ Hs Hi) as (o' & Hi' & E & _).
  exists o'. split; [done|]. split; [|done]. specialize (Hm i). unfold marks in Hm. by rewrite Hi, Hi' in Hm.
Qed.

Lemma completion_ok_own n p s s' hd :
  completion_ok n (mkCompletion p s hd) -> op_step s s' -> (forall i, marks s' i = marks s i) ->
  completion_ok n (mkCompletion p s' hd).
Proof.
  intros [[R Hs] Hp Hnd He Hh Hi Ht] Hst Hm. cbn in *. split; cbn; try done.
  - by eapply op_step_ok.
  - intros l. rewrite He. split; intros (i & o & Ho & Hu & Hl).
    + destruct (own_step_op_back _ _ _ _ Hst Hm Ho) as (o' & Ho' & Em & Eo). exists i, o'.
      split; [done|]. split; [by eapply under_way_mark|]. by rewrite Eo.
    + destruct (own_step_op _ _ i o Hst Hm) as (o' & Ho' & Em & Eo); [|exact Ho|].
      { destruct Hu as (_ & ec & b & Ha & _). unfold mark. by rewrite Ha. }
      exists i, o'. split; [done|]. split; [by eapply under_way_mark|]. by rewrite Eo.
  - intros t l Hl. destruct (Hh t l Hl) as [Hb (i & o & Ho & Htr & El)]. split; [done|].
    destruct (own_step_op_back _ _ _ _ Hst Hm Ho) as (o' & Ho' & Em & Eo). exists i, o'. split; [done|].
    rewrite Eo. split; [|done]. unfold mark in Em. congruence.
  - intros i o Ho Htr. destruct (own_step_op _ _ i o Hst Hm) as (o' & Ho' & Em & Eo); [|exact Ho|].
    { unfold mark. by rewrite Htr. }
    rewrite <- Eo. apply (Ht i o' Ho'). unfold mark in Em. congruence.
Qed.

Lemma submitted_keys op ec pk :
  real_keys (if packet_due (skip_on_success op) ec then [mkEntry (wrap64 file) (leaked op) pk] else []).
Proof. destruct (packet_due _ _); [|constructor]. constructor; [by apply Z.eqb_neq|constructor]. Qed.

Lemma completion_ok_submit n p s hd i op ec scribble bytes pk :
  completion_ok n (mkCompletion p s hd) -> ops s !! i = Some (mkOpState op Submitting true false None None) ->
  completion_ok n (mkCompletion
    (accept (if packet_due (skip_on_success op) ec then [mkEntry (wrap64 file) (leaked op) pk] else []) p)
    (mkSys (kernel_write (leaked op) scribble bytes (heap s))
      (<[i := mkOpState op (Submitted ec bytes) true false (Some (ec, bytes)) None]> (ops s))) hd).
Proof.
  intros [[R Hs] [pend Hp] Hnd He Hh Hinj Ht] Hi. cbn in *. pose proof (submitted_keys op ec pk) as Hes.
  set (due := packet_due (skip_on_success op) ec). set (es := if due then _ else []).
  assert (Hel : map lpOverlapped es = if due then [leaked op] else []) by (unfold es; by destruct due).
  set (o' := mkOpState op (Submitted ec bytes) true false (Some (ec, bytes)) None).
  assert (Hother : forall j o, j <> i -> <[i:=o']> (ops s) !! j = Some o <-> ops s !! j = Some o)
    by (intros; by rewrite lookup_insert_ne by done).
  split; cbn [c_port c_sys c_held ops heap].
  - exists R. by apply step_submit_ok.
  - exists (pend ++ es). by apply port_ok_accept.
  - rewrite undelivered_accept, map_app, Hel. apply NoDup_app. split; [done|].
    destruct due; [|split; [by intros ???%elem_of_nil|constructor]]. split; [|apply NoDup_singleton].
    intros l Hl ->%list_elem_of_singleton. apply He in Hl as (j & o & Hj & Hu & El).
    assert (j = i) as ->.
    { apply (owner_unique s R j i _ _ Hs Hj Hi); [|cbn; lia|done].
      apply refs_pos_kern, (under_way_kern o); [by eapply so_op|done]. }
    rewrite Hi in Hj. injection Hj as <-. by destruct Hu as (_ & ? & ? & ? & _).
  - intros l. rewrite undelivered_accept, map_app, Hel, elem_of_app, He. split.
    + intros [(j & o & Hj & Hu & El)|Hl].
      * exists j, o. rewrite Hother; [done|]. intros ->. rewrite Hi in Hj. injection Hj as <-.
        by destruct Hu as (_ & ? & ? & ? & _).
      * unfold due in *. destruct (packet_due _ ec) eqn:Hd; [|by apply elem_of_nil in Hl].
        apply list_elem_of_singleton in Hl as ->. exists i, o'. rewrite lookup_insert_eq.
        split; [done|]. split; [|done]. split; [done|]. by exists ec, bytes.
    + intros (j & o & Hj & Hu & El). destruct (decide (j = i)) as [->|Hne].
      * rewrite lookup_insert_eq in Hj. injection Hj as <-. right. destruct Hu as (_ & ec' & b' & [= <- <-] & Hd).
        cbn in Hd. fold due in Hd. rewrite Hd. apply list_elem_of_singleton. by rewrite <- El.
      * left. exists j, o. by rewrite Hother in Hj.
  - intros t l Hl. destruct (Hh t l Hl) as [Hb (j & o & Hj & Htr & El)]. split; [done|].
    exists j, o. split; [|done]. apply Hother; [|done]. intros ->. rewrite Hi in Hj. by injection Hj as <-.
  - done.
  - intros j o. destruct (decide (j = i)) as [->|Hne]; [rewrite lookup_insert_eq; by intros [= <-]|].
    rewrite Hother by done. apply Ht.
Qed.

Lemma completion_ok_move n p p' s hd :
  completion_ok n (mkCompletion p s hd) -> port_step p p' -> delivered p' = delivered p ->
  (forall t, is_Some (hd !! t) -> threads p' !! t = threads p !! t) ->
  completion_ok n (mkCompletion p' s hd).
Proof.
  intros [Hs [pend Hp] Hnd He Hh Hinj Ht] Hst Hd Hthr. cbn in *.
  pose proof (undelivered_step _ _ _ _ Hp Hst Hd) as Hperm. split; cbn; try done.
  - exists pend. by eapply port_step_ok.
  - by rewrite Hperm.
  - intros l. by rewrite Hperm, He.
  - intros t l Hl. destruct (Hh t l Hl) as [Hb Ho]. split; [|done]. rewrite Hthr; [done|by eexists].
Qed.

(** The entry a thread comes to leads to one operation, which waits for it. *)
Lemma entry_owner n q k ts d log s hd t e es stop :
  completion_ok n (mkCompletion (mkPort q k ts d log) s hd) ->
  ts !! t = Some (InBatch (e :: es) stop) -> handle_entry e stop = (Some e, stop) ->
  undelivered (mkPort q k ts d log) ≡ₚ e :: undelivered (mkPort q k (<[t := InBatch es stop]> ts) d (log ++ [e])) /\
  exists x op ph ec b,
    ops s !! x = Some (mkOpState op ph true false (Some (ec, b)) None) /\ leaked op = lpOverlapped e /\
    packet_due (skip_on_success op) ec = true.
Proof.
  intros [[R Hs] [pend Hp] Hnd He Hh Hinj Ht] Hb Hent. cbn in *.
  pose proof (port_step_ok _ _ _ _ Hp (port_entry q k ts d log t e es stop _ _ Hb Hent)) as Hp'.
  assert (Hperm : undelivered (mkPort q k ts d log) ≡ₚ
      e :: undelivered (mkPort q k (<[t:=InBatch es stop]> ts) d (log ++ [e]))).
  { apply (inj (log ++.)). etrans; [apply (pok_conserved _ _ _ Hp)|].
    rewrite <- (pok_conserved _ _ _ Hp'). cbn. unfold undelivered. cbn. by rewrite <- !(assoc_L (++)). }
  split; [done|]. assert (Hin : lpOverlapped e ∈ map lpOverlapped (undelivered (mkPort q k ts d log)))
    by (rewrite Hperm; by left).
  apply He in Hin as (x & o & Hx & Hu & El).
  destruct (under_way_kern o ltac:(by eapply so_op) Hu) as [Hk Htr]. destruct Hu as (Hpk & ec & b & Ha & Hd).
  destruct o as [op ph kr th a pk]. cbn in *. subst. by exists x, op, ph, ec, b.
Qed.

(** No thread holds a reference to the wrap of an operation the kernel has. *)
Lemma kernel_not_held n c x o t :
  completion_ok n c -> ops (c_sys c) !! x = Some o -> o_kern o = true -> o_thr o = false ->
  c_held c !! t <> Some (leaked (o_op o)).
Proof.
  intros Hok Ho Hk Ht Hl. destruct (ck_sys _ _ Hok) as [R HR].
  destruct (ck_held _ _ Hok t _ Hl) as [_ (y & oy & Hy & Hty & Ely)].
  assert (y = x) as ->; [|congruence].
  apply (owner_unique _ R y x _ _ HR Hy Ho); [by apply refs_pos_thr|by apply refs_pos_kern|done].
Qed.

Lemma completion_ok_deliver n q k ts d log s hd t e es stop :
  completion_ok n (mkCompletion (mkPort q k ts d log) s hd) ->
  ts !! t = Some (InBatch (e :: es) stop) -> hd !! t = None -> handle_entry e stop = (Some e, stop) ->
  completion_ok n (mkCompletion (mkPort q k (<[t := InBatch es stop]> ts) d (log ++ [e]))
    (mkSys (deliver_complete (lpOverlapped e) (e_packet e) (heap s))
      (mark_delivered (lpOverlapped e) (e_packet e) <$> ops s))
    (<[t := lpOverlapped e]> hd)).
Proof.
  intros Hok Hb Hnone Hent.
  destruct (entry_owner _ _ _ _ _ _ _ _ _ _ _ _ Hok Hb Hent) as (Hperm & x & op & ph & ec & b & Hx & El & Hd).
  pose proof (fun t' => kernel_not_held _ _ _ _ t' Hok Hx eq_refl eq_refl) as Hfresh. cbn in Hfresh.
  destruct Hok as [[R Hs] [pend Hp] Hnd He Hh Hinj Ht]. cbn in *.
  pose proof (port_step_ok _ _ _ _ Hp (port_entry q k ts d log t e es stop _ _ Hb Hent)) as Hp'.
  rewrite (mark_delivered_one s R x op ph _ _ _ _ Hs Hx Hd El). rewrite <- El.
  set (o' := mkOpState op ph false true (Some (ec, b)) (Some (e_packet e))).
  assert (Huniq : forall j oj, ops s !! j = Some oj -> (0 < refs oj)%nat -> leaked (o_op oj) = leaked op -> j = x).
  { intros j oj Hj Hr E. apply (owner_unique s R j x _ _ Hs Hj Hx); [done|by apply refs_pos_kern|done]. }
  rewrite Hperm in Hnd. cbn [map] in Hnd. rewrite <- El in Hnd. apply NoDup_cons in Hnd as [Hnin Hnd].
  assert (He' : forall l, l = leaked op \/ l ∈ map lpOverlapped (undelivered (mkPort q k (<[t:=InBatch es stop]> ts) d (log ++ [e]))) <->
    exists i o, ops s !! i = Some o /\ under_way o /\ leaked (o_op o) = l).
  { intros l. rewrite <- He, Hperm. cbn [map]. rewrite elem_of_cons. by rewrite El. }
  split; cbn [c_port c_sys c_held ops heap threads].
  - exists R. by apply (step_deliver_ok s R x op ph true ec b).
  - by exists pend.
  - done.
  - intros l. split.
    + intros Hl. destruct (proj1 (He' l) (or_intror Hl)) as (j & o & Hj & Hu & Eo). exists j, o.
      rewrite lookup_insert_ne; [done|]. intros <-. rewrite Hx in Hj. injection Hj as <-. cbn in Eo. by subst l.
    + intros (j & o & Hj & Hu & Eo). destruct (decide (x = j)) as [<-|Hne].
      { rewrite lookup_insert_eq in Hj. injection Hj as <-. by destruct Hu as [? _]. }
      rewrite lookup_insert_ne in Hj by done. destruct (proj2 (He' l)) as [->|]; [by exists j, o| |done].
      destruct Hne. symmetry. apply (Huniq j o Hj); [|done].
      apply refs_pos_kern, (under_way_kern o); [by eapply so_op|done].
  - intros t' l. rewrite lookup_insert. case_decide as Et.
    + intros [= <-]. subst t'. split.
      * rewrite list_lookup_insert_eq; [eauto|]. by eapply lookup_lt_Some.
      * exists x, o'. by rewrite lookup_insert_eq.
    + intros Hl. destruct (Hh t' l Hl) as [Hb' (j & o & Hj & Htr & Eo)].
      rewrite list_lookup_insert_ne by done. split; [done|]. exists j, o.
      rewrite lookup_insert_ne; [done|]. intros <-. rewrite Hx in Hj. by injection Hj as <-.
  - intros t1 t2 l. rewrite !lookup_insert. pose proof (Hfresh t1). pose proof (Hfresh t2).
    repeat case_decide; try congruence. apply Hinj.
  - intros j o. rewrite lookup_insert. case_decide as Ej.
    + intros [= <-] _. exists t. cbn. by rewrite lookup_insert_eq.
    + intros Hj Htr. destruct (Ht j o Hj Htr) as [t' Ht']. exists t'.
      rewrite lookup_insert_ne; [done|]. intros <-. congruence.
Qed.

(** The reference a thread holds is to the wrap of one operation. *)
Lemma held_owner n p s hd t l :
  completion_ok n (mkCompletion p s hd) -> hd !! t = Some l ->
  exists x op ph k a pk, ops s !! x = Some (mkOpState op ph k true a pk) /\ leaked op = l.
Proof.
  intros Hok Hl. destruct (ck_held _ _ Hok t l Hl) as [_ (x & [op ph k th a pk] & Hx & Htr & El)].
  cbn in *. subst. by exists x, op, ph, k, a, pk.
Qed.

Lemma completion_ok_drop n p s hd t l :
  completion_ok n (mkCompletion p s hd) -> hd !! t = Some l ->
  completion_ok n (mkCompletion p (mkSys (arc_drop l (heap s)) (mark_dropped l <$> ops s)) (delete t hd)).
Proof.
  intros Hok Hl. destruct (held_owner _ _ _ _ _ _ Hok Hl) as (x & op & ph & k & a & pk & Hx & El).
  destruct Hok as [[R Hs] [pend Hp] Hnd He Hh Hinj Ht]. cbn in *.
  rewrite (mark_dropped_one s R x op ph k a pk l Hs Hx El). rewrite <- El in *.
  set (o' := mkOpState op ph k false a pk).
  assert (Huniq : forall j oj, ops s !! j = Some oj -> o_thr oj = true -> leaked (o_op oj) = leaked op -> j = x).
  { intros j oj Hj Hr E. apply (owner_unique s R j x _ _ Hs Hj Hx); [by apply refs_pos_thr|by apply refs_pos_thr|done]. }
  split; cbn [c_port c_sys c_held ops heap].
  - by apply (step_thread_drop_ok s R x op ph k a pk).
  - by exists pend.
  - done.
  - intros l'. rewrite He. split; intros (j & o & Hj & Hu & Eo); destruct (decide (x = j)) as [<-|Hne].
    + rewrite Hx in Hj. injection Hj as <-. exists x, o'. by rewrite lookup_insert_eq.
    + exists j, o. by rewrite lookup_insert_ne.
    + rewrite lookup_insert_eq in Hj. injection Hj as <-. by eexists x, _.
    + exists j, o. by rewrite lookup_insert_ne in Hj.
  - intros t' l'. rewrite lookup_delete. case_decide as Et; [done|]. intros Hl'.
    destruct (Hh t' l' Hl') as [Hb' (j & o & Hj & Htr & Eo)]. split; [done|]. exists j, o.
    rewrite lookup_insert_ne; [done|]. intros <-. rewrite Hx in Hj. injection Hj as <-. cbn in Eo. subst l'.
    by destruct Et, (Hinj _ _ _ Hl Hl').
  - intros t1 t2 l'. rewrite !lookup_delete. repeat case_decide; try done. apply Hinj.
  - intros j o. rewrite lookup_insert. case_decide as Ej; [by intros [= <-]|]. intros Hj Htr.
    destruct (Ht j o Hj Htr) as [t' Ht']. exists t'. rewrite lookup_delete_ne; [done|]. intros <-.
    destruct Ej. symmetry. apply (Huniq j o Hj Htr). congruence.
Qed.

Lemma completion_step_ok n c c' :
  completion_ok n c -> step c c' -> completion_ok n c'.
Proof.
  intros Hok Hs. destruct Hs.
  - by apply completion_ok_submit.
  - by eapply completion_ok_own.
  - by eapply completion_ok_move.
  - by apply completion_ok_deliver.
  - by apply completion_ok_drop.
Qed.

Lemma reachable_completion_ok n slots c :
  reachable (completion_init n slots) step c -> completion_ok n c.
Proof.
  apply reachable_invariant; [apply completion_ok_init|]. intros a b. by apply completion_step_ok.
Qed.

(** ** What each component sees *)

Lemma step_projects n c c' :
  completion_ok n c -> step c c' ->
  (c_sys c' = c_sys c \/ op_step (c_sys c) (c_sys c')) /\
  ((exists es, real_keys es /\ c_port c' = accept es (c_port c)) \/ port_step (c_port c) (c_port c')).
Proof.
  intros Hok Hs. destruct Hs as [p s hd i op ec scr b pk Hi|p s s' hd Hst Hm|p p' s hd Hst Hd Ht
    |q k ts d log s hd t e es stop Hb Hn He|p s hd t l Hl]; cbn.
  - split; [right; by apply (step_submit s i op ec scr b)|left]. eexists; split; [apply submitted_keys|reflexivity].
  - split; [by right|]. left. exists []. rewrite accept_nil. split; [constructor|done].
  - split; [by left|by right].
  - destruct (entry_owner _ _ _ _ _ _ _ _ _ _ _ _ Hok Hb He) as (_ & x & op & ph & ec & b & Hx & El & Hd).
    destruct (ck_sys _ _ Hok) as [R HR]. cbn in HR. split.
    + right. rewrite (mark_delivered_one s R x op ph _ _ _ _ HR Hx Hd El), <- El.
      by apply (step_deliver s x op ph true ec b).
    + right. by apply (port_entry q k ts d log t e es stop (Some e) stop).
  - destruct (held_owner _ _ _ _ _ _ Hok Hl) as (x & op & ph & k & a & pk & Hx & El).
    destruct (ck_sys _ _ Hok) as [R HR]. cbn in HR. split.
    + right. rewrite (mark_dropped_one s R x op ph k a pk l HR Hx El), <- El.
      by apply (step_thread_drop s x op ph k a pk).
    + left. exists []. rewrite accept_nil. split; [constructor|done].
Qed.

Lemma completion_projects n slots c :
  reachable (completion_init n slots) step c ->
  completion_ok n c /\ reachable (sys_init slots) op_step (c_sys c) /\
  exists pending, real_keys pending /\ reachable (port_init n pending) port_step (c_port c).
Proof.
  apply (reachable_invariant (completion_init n slots) step (fun c => completion_ok n c /\
    reachable (sys_init slots) op_step (c_sys c) /\
    exists pending, real_keys pending /\ reachable (port_init n pending) port_step (c_port c))).
  - intros a Ha. split; [by eapply completion_ok_init|]. unfold completion_init in Ha. subst a. cbn.
    split; [by apply reachable_init|]. exists []. split; [by apply Forall_nil|by apply reachable_init].
  - intros a b (Hok & Hs & pending & Hp & Hr) Hab. split; [by eapply completion_step_ok|].
    destruct (step_projects _ _ _ Hok Hab) as [Hsys Hport]. split.
    + destruct Hsys as [->|]; [done|by eapply reachable_step].
    + destruct Hport as [(es & Hes & ->)|Hst].
      * exists (pending ++ es). split; [by apply real_keys_app|by apply accept_reachable].
      * exists pending. split; [done|by eapply reachable_step].
Qed.

(** C6. The pointer of a packet is all a completion thread has, and it is enough.  In
    every reachable state of a port, its threads and any number of operations:
    each packet that is in the kernel, in the queue or in a batch leads to a
    wrap that is still allocated, held by the kernel for exactly one operation,
    which was accepted and has had no packet; each such operation has its packet
    there, and no two packets carry the same pointer.  So what the port does is a run of the port,
    what happens to the operations is a run of the system of operations, and
    every step of the whole is at most one step of each. *)
Theorem completion_refines n slots c :
  reachable (completion_init n slots) step c ->
  (forall e, e ∈ undelivered (c_port c) ->
     is_Some (arc_read (lpOverlapped e) (heap (c_sys c))) /\
     exists i o, ops (c_sys c) !! i = Some o /\ under_way o /\ o_kern o = true /\ leaked (o_op o) = lpOverlapped e /\
       forall j o', ops (c_sys c) !! j = Some o' -> o_kern o' = true -> leaked (o_op o') = lpOverlapped e -> j = i) /\
  (forall i o, ops (c_sys c) !! i = Some o -> under_way o -> leaked (o_op o) ∈ map lpOverlapped (undelivered (c_port c))) /\
  NoDup (map lpOverlapped (undelivered (c_port c))) /\
  reachable (sys_init slots) op_step (c_sys c) /\
  (exists pending, real_keys pending /\ reachable (port_init n pending) port_step (c_port c)) /\
  forall c', step c c' ->
    (c_sys c' = c_sys c \/ op_step (c_sys c) (c_sys c')) /\
    ((exists es, real_keys es /\ c_port c' = accept es (c_port c)) \/ port_step (c_port c) (c_port c')).
Proof.
  intros (Hok & Hs & Hp)%completion_projects. split; [|split; [|split; [apply Hok|split; [done|split; [done|]]]]].
  - intros e Hin. assert (lpOverlapped e ∈ map lpOverlapped (undelivered (c_port c))) as Hl
      by (by apply list_elem_of_fmap_2).
    apply (ck_entry _ _ Hok) in Hl as (i & o & Hi & Hu & El).
    destruct (ck_sys _ _ Hok) as [R HR]. destruct (under_way_kern o ltac:(by eapply so_op) Hu) as [Hk _].
    destruct (so_refs _ _ HR _ _ Hi) as (_ & w & Hw & _); [by apply refs_pos_kern|].
    destruct (so_op _ _ HR _ _ Hi) as [Ew _]. rewrite <- Ew, El in Hw. split; [by eexists|].
    exists i, o. repeat (split; [done|]). intros j o' Hj Hk' El'.
    apply (owner_unique _ R j i _ _ HR Hj Hi); [by apply refs_pos_kern..|congruence].
  - intros i o Hi Hu. apply (ck_entry _ _ Hok). eauto.
  - intros c' Hst. by eapply step_projects.
Qed.

(** ** What is left when the port is closed *)

(** The operation has had its packet, or the packet is before every sentinel. *)
Definition settling (i : nat) (op : Op) c : Prop :=
  exists o, ops (c_sys c) !! i = Some o /\ o_op o = op /\
    (is_Some (o_packet o) \/
     under_way o /\ exists e, lpOverlapped e = leaked op /\ kept (delivered (c_port c) ++ [e]) (c_port c)).

Lemma kept_next p e e' :
  kept (delivered p ++ [e]) p -> e' ∈ reals (in_batches (threads p)) -> e' <> e ->
  kept ((delivered p ++ [e']) ++ [e]) p.
Proof.
  intros (q1 & q2 & Hq & Hr & HL & Hst) He' Hne. exists q1, q2. do 2 (split; [done|]). split; [|done].
  rewrite <- (assoc_L (++)). apply submseteq_skips_l. apply submseteq_app_inv_l in HL.
  assert (e ∈ reals (in_batches (threads p)) ++ q1) as He
    by (eapply elem_of_submseteq; [by apply list_elem_of_singleton|exact HL]).
  apply elem_of_Permutation in He' as [r Hp]. rewrite Hp in He |- *. cbn in He |- *.
  apply submseteq_skip. apply elem_of_cons in He as [|He]; [congruence|].
  by apply singleton_submseteq_l.
Qed.

Lemma kept_accept L es p : kept L p -> kept L (accept es p).
Proof. destruct p as [q k ts d log]. intros HK. unfold accept. cbn. rewrite <- (app_nil_r q). by eapply kept_queue. Qed.

Lemma settling_step n i op c c' :
  completion_ok n c -> settling i op c -> step c c' -> settling i op c'.
Proof.
  intros Hok (o & Ho & Eop & Hset) Hs. destruct (ck_sys _ _ Hok) as [R HR].
  destruct Hs as [p s hd j op' ec scr b pk Hj|p s s' hd Hst Hm|p p' s hd Hst Hd Ht
    |q k ts d log s hd t e es stop Hb Hn He|p s hd t l Hl]; cbn in *.
  - exists o. cbn. split.
    + rewrite lookup_insert_ne; [done|]. intros ->. rewrite Hj in Ho. injection Ho as <-.
      destruct Hset as [[? ?]|((_ & ? & ? & ? & _) & _)]; done.
    + split; [done|]. destruct Hset as [|(Hu & e & El & HK)]; [by left|right]. eauto using kept_accept.
  - destruct (own_step_op_back _ _ _ _ Hst Hm Ho) as (o' & Ho' & Em & Eo). exists o'. split; [done|].
    split; [congruence|]. destruct Hset as [Hp|[Hu HK]]; [left|right].
    + unfold mark in Em. congruence.
    + split; [by eapply under_way_mark|done].
  - exists o. do 2 (split; [done|]). destruct Hset as [|(Hu & e & El & HK)]; [by left|right].
    split; [done|]. exists e. split; [done|]. cbn. rewrite Hd. destruct (ck_port _ _ Hok) as [pend Hp].
    by eapply kept_step.
  - eexists. cbn. rewrite lookup_fmap, Ho. split; [reflexivity|]. unfold mark_delivered.
    case_bool_decide as E; cbn.
    + destruct (kernel_owes o) eqn:Ek; cbn; [eauto|]. split; [done|]. destruct Hset as [|[Hu _]]; [by left|].
      apply kernel_owes_under_way in Hu. congruence.
    + split; [done|]. destruct Hset as [|(Hu & e' & El & HK)]; [by left|right]. split; [done|]. exists e'.
      split; [done|]. destruct (ck_port _ _ Hok) as [pend Hp].
      eapply kept_step; [exact Hp| |by apply (port_entry q k ts d log t e es stop (Some e) stop)].
      apply (kept_next (mkPort q k ts d log)); [done| |congruence]. cbn.
      apply list_elem_of_filter. split.
      * apply handle_entry_cases in He as [(_ & [=] & _)|(? & _)]. done.
      * destruct (split_at _ _ _ Hb) as (l1 & l2 & -> & _). rewrite in_batches_app. cbn. set_solver.
  - eexists. cbn. rewrite lookup_fmap, Ho. split; [reflexivity|]. unfold mark_dropped.
    case_bool_decide as E; cbn; [|done]. destruct (o_thr o) eqn:Et; cbn; [|done]. split; [done|].
    destruct Hset as [|[Hu _]]; [by left|]. destruct (under_way_kern o ltac:(by eapply so_op) Hu). congruence.
Qed.

(** An operation that is under way while the kernel holds no packet is one of them. *)
Lemma settling_start n i o c :
  completion_ok n c -> dropper (c_port c) = NotDropped -> kernel (c_port c) = [] ->
  ops (c_sys c) !! i = Some o -> under_way o -> settling i (o_op o) c.
Proof.
  intros Hok Hd Hk Ho Hu. exists o. do 2 (split; [done|]). right. split; [done|].
  assert (leaked (o_op o) ∈ map lpOverlapped (undelivered (c_port c))) as Hl by (apply (ck_entry _ _ Hok); eauto).
  apply list_elem_of_fmap in Hl as (e & El & He). exists e. split; [done|].
  destruct (ck_port _ _ Hok) as [pend Hp]. destruct (not_dropped_clean _ _ _ Hp Hd) as (Hq & Hst & _).
  exists (queue (c_port c)), []. rewrite app_nil_r. do 2 (split; [done|]). split; [|by right].
  unfold undelivered in He. rewrite Hk, app_nil_r, (reals_id _ Hq) in He.
  apply submseteq_skips_l. by apply singleton_submseteq_l.
Qed.

Lemma settling_end n i op c :
  (0 < n)%nat -> completion_ok n c -> settling i op c -> dropper (c_port c) = Closed ->
  c_held c = ∅ /\ exists o, ops (c_sys c) !! i = Some o /\ o_op o = op /\ o_kern o = false /\ o_thr o = false /\
    is_Some (o_packet o).
Proof.
  intros Hn Hok (o & Ho & Eop & Hset) Hc. destruct (ck_port _ _ Hok) as [pend Hp].
  pose proof (pok_closed _ _ _ Hp Hc) as Hret. destruct (all_returned _ Hret) as [Hb Hst].
  assert (Hheld : c_held c = ∅).
  { apply map_eq. intros t. rewrite lookup_empty. destruct (c_held c !! t) as [l|] eqn:Hl; [|done].
    destruct (ck_held _ _ Hok t l Hl) as [(es & stop & Ht) _]. by pose proof (not_closed_thread _ _ _ Hret Ht). }
  split; [done|]. exists o. do 2 (split; [done|]).
  assert (Hpk : is_Some (o_packet o)).
  { destruct Hset as [|(_ & e & _ & q1 & q2 & _ & _ & HL & Hq1)]; [done|]. exfalso.
    rewrite Hst, (pok_threads _ _ _ Hp), Hb in *. destruct Hq1 as [->|]; [|lia].
    apply submseteq_length in HL. rewrite !length_app in HL. cbn in HL. lia. }
  destruct (ck_sys _ _ Hok) as [R HR]. split; [|split; [|done]].
  - by apply (packet_no_kern o); [eapply so_op|].
  - destruct (o_thr o) eqn:Et; [|done]. destruct (ck_thr _ _ Hok i o Ho Et) as [t Ht].
    by rewrite Hheld, lookup_empty in Ht.
Qed.

(** C7. When a request queue goes, its handle is closed first, so that the kernel has
    posted every packet it owes before the port is dropped.  Then, whatever the
    number of threads and the order of events, by the time the drop has closed
    the port every operation that was accepted before has been completed with
    its packet, the reference handed to the kernel for it has been taken back
    and dropped, and no thread holds one: nothing is leaked and no future is
    left waiting. *)
Theorem closed_port_settles n slots c c' i o :
  (0 < n)%nat -> reachable (completion_init n slots) step c ->
  dropper (c_port c) = NotDropped -> kernel (c_port c) = [] ->
  ops (c_sys c) !! i = Some o -> under_way o ->
  rtc step c c' -> dropper (c_port c') = Closed ->
  c_held c' = ∅ /\ exists o', ops (c_sys c') !! i = Some o' /\ o_op o' = o_op o /\
    o_kern o' = false /\ o_thr o' = false /\ is_Some (o_packet o').
Proof.
  intros Hn Hr Hd Hk Ho Hu Hrtc Hc. pose proof (reachable_completion_ok _ _ _ Hr) as Hok.
  assert (completion_ok n c' /\ settling i (o_op o) c') as [Hok' Hset].
  { apply (rtc_invariant step (fun c => completion_ok n c /\ settling i (o_op o) c) c c').
    - intros a b [? ?] ?. split; [by eapply completion_step_ok|by eapply settling_step].
    - done.
    - split; [done|by eapply settling_start]. }
  by eapply settling_end.
Qed.
End facts.

(** ** Witnesses: one pending operation, its packet in the queue when the port is dropped *)

Section witnesses.
Local Abbreviation SysT := (Sys list_queue (option unit)).
Local Abbreviation CompletionT := (Completion list_queue (option unit)).

Definition demo_packet : Packet := mkPacket None 120.
Definition demo_done : OVERLAPPED_ENTRY := mkEntry (wrap64 0x44) (leaked demo_op) demo_packet.
Definition demo_new : SysT :=
  mkSys (op_new true (op_pool_new 2)).2 (<[O := mkOpState demo_op Submitting true false None None]> ∅).
Definition demo_pending : SysT :=
  mkSys (kernel_write (leaked demo_op) (0, 0) 0 (heap demo_new))
    (<[O := mkOpState demo_op (Submitted 997 0) true false (Some (997, 0)) None]> (ops demo_new)).
Definition demo_completed : SysT :=
  mkSys (deliver_complete (leaked demo_op) demo_packet (heap demo_pending))
    (mark_delivered (leaked demo_op) demo_packet <$> ops demo_pending).
Definition demo_let_go : SysT :=
  mkSys (arc_drop (leaked demo_op) (heap demo_completed)) (mark_dropped (leaked demo_op) <$> ops demo_completed).

Definition demo_start : CompletionT := mkCompletion (mkPort [] [] [Dequeuing] NotDropped []) (mkSys (op_pool_new 2) ∅) ∅.
Definition demo_accepted : CompletionT := mkCompletion (mkPort [] [demo_done] [Dequeuing] NotDropped []) demo_pending ∅.
Definition demo_waiting : CompletionT := mkCompletion (mkPort [demo_done] [] [Dequeuing] NotDropped []) demo_pending ∅.
Definition demo_settled : CompletionT := mkCompletion (mkPort [] [] [Returned] Closed [demo_done]) demo_let_go ∅.

Lemma demo_step_new : completion_step 0x44 demo_start (mkCompletion (c_port demo_start) demo_new ∅).
Proof.
  apply c_own; [by apply (step_new (mkSys (op_pool_new 2) ∅) O true)|].
  intros i. unfold marks, demo_new. cbn [ops]. rewrite lookup_insert. by case_decide.
Qed.

Lemma demo_step_submit : completion_step 0x44 (mkCompletion (c_port demo_start) demo_new ∅) demo_accepted.
Proof. by apply (c_submit 0x44 (c_port demo_start) demo_new ∅ O demo_op 997 (0, 0) 0 demo_packet). Qed.

Lemma demo_step_arrive : completion_step 0x44 demo_accepted demo_waiting.
Proof. by apply c_move; [apply (port_arrive [] [] demo_done [])| |]. Qed.

Lemma demo_waiting_reachable : reachable (completion_init 1 2) (completion_step 0x44) demo_waiting.
Proof.
  exists demo_start. split; [done|]. eapply rtc_l; [apply demo_step_new|].
  eapply rtc_l; [apply demo_step_submit|]. eapply rtc_l; [apply demo_step_arrive|apply rtc_refl].
Qed.

(** The drop, to its end. *)
Lemma demo_settles : rtc (completion_step 0x44) demo_waiting demo_settled.
Proof.
  assert (Hm : forall p p' s, port_step p p' -> delivered p' = delivered p ->
    completion_step 0x44 (mkCompletion p s ∅) (mkCompletion (Q := list_queue) (AW := option unit) p' s ∅)).
  { intros p p' s Hp Hd. apply c_move; [done|done|]. by intros t [? ?]. }
  eapply rtc_l; [by apply Hm; [apply port_drop|]|]. eapply rtc_l; [by apply Hm; [apply port_post|]|].
  eapply rtc_l; [by apply Hm; [apply port_posted|]|]. cbn.
  eapply rtc_l; [apply Hm; [by apply (port_dequeue _ _ _ _ _ 0 2); [|unfold BATCH; lia| |]|done]|]. cbn.
  eapply rtc_l; [by apply (c_deliver _ _ _ _ _ _ _ _ 0 demo_done [sentinel] false)|]. cbn.
  eapply rtc_l; [by apply (c_drop _ _ _ _ 0)|]. rewrite delete_insert_eq, delete_empty.
  eapply rtc_l; [by apply Hm; [apply (port_entry _ _ _ _ _ 0 sentinel [] false None true)|]|]. cbn.
  eapply rtc_l; [by apply Hm; [apply (port_batch_done _ _ _ _ _ 0 true)|]|]. cbn.
  eapply rtc_l; [by apply Hm; [apply port_join|]|]. eapply rtc_l; [by apply Hm; [apply port_close|]|]. apply rtc_refl.
Qed.

Lemma completion_refines_witness : is_Some (arc_read (lpOverlapped demo_done) (heap (c_sys demo_waiting))).
Proof.
  destruct (completion_refines 0x44 ltac:(by vm_compute) 1 2 demo_waiting demo_waiting_reachable) as [Hp _].
  apply (Hp demo_done). by left.
Defined.

Lemma closed_port_settles_witness : c_held demo_settled = ∅.
Proof.
  apply (closed_port_settles 0x44 ltac:(by vm_compute) 1 2 demo_waiting demo_settled O
    (mkOpState demo_op (Submitted 997 0) true false (Some (997, 0)) None));
    [lia|apply demo_waiting_reachable|reflexivity|reflexivity|reflexivity| |apply demo_settles|reflexivity].
  split; [done|]. exists 997, 0. split; reflexivity.
Defined.
End witnesses.
