(* ===== verification/Delivery.v ===== *)
(** * Every operation over a port ends (crates/httpsys/src/overlapped.rs, iocp.rs)

    The system of [Completion] under fairness: the kernel goes on finishing
    operations, each thread of the port goes on, and so does each task.  The file
    has the way of a packet from the kernel to its operation, as what one step
    may do to the port and to the references in the threads' hands, and the
    theorem that an operation which has been started ends. *)

From Stdlib Require Import Relations.Relation_Operators Wellfounded.Lexicographic_Product.
From S2P Require Import Prelude Errors Crates HttpApi Overlapped Iocp Completion.
Set Warnings "-clear-no-such-hyp".

(** ** What a step does to a port that is not being dropped *)

Implicit Types (p : Port) (hd : gmap nat nat).

Inductive turn p p' hd hd' : Prop :=
  | turn_grow es :
      queue p' = queue p -> kernel p' = kernel p ++ es -> threads p' = threads p -> hd' = hd -> turn p p' hd hd'
  | turn_post k1 e k2 :
      kernel p = k1 ++ e :: k2 -> kernel p' = k1 ++ k2 -> queue p' = queue p ++ [e] -> threads p' = threads p ->
      hd' = hd -> turn p p' hd hd'
  | turn_take t m :
      threads p !! t = Some Dequeuing -> (1 <= m <= length (queue p))%nat -> queue p' = drop m (queue p) ->
      kernel p' = kernel p -> threads p' = <[t := InBatch (take m (queue p)) false]> (threads p) ->
      hd !! t = None -> hd' = hd ->
      turn p p' hd hd'
  | turn_leave t :
      threads p !! t = Some (InBatch [] false) -> queue p' = queue p -> kernel p' = kernel p ->
      threads p' = <[t := Dequeuing]> (threads p) -> hd !! t = None -> hd' = hd -> turn p p' hd hd'
  | turn_deliver t e es :
      threads p !! t = Some (InBatch (e :: es) false) -> queue p' = queue p -> kernel p' = kernel p ->
      threads p' = <[t := InBatch es false]> (threads p) -> hd !! t = None -> hd' = <[t := lpOverlapped e]> hd ->
      turn p p' hd hd'
  | turn_drop t l :
      hd !! t = Some l -> queue p' = queue p -> kernel p' = kernel p -> threads p' = threads p ->
      hd' = delete t hd -> turn p p' hd hd'.

(** What thread [t] has before it until it blocks. *)
Definition load (t : nat) p hd : nat :=
  (match threads p !! t with Some (InBatch es _) => 1 + 2 * length es | _ => 0 end +
   match hd !! t with Some _ => 1 | None => 0 end)%nat.

(** Packets before the one of [l] in the queue. *)
Fixpoint ahead (l : nat) (q : list OVERLAPPED_ENTRY) : nat :=
  match q with
  | [] => 0
  | e :: q => if bool_decide (lpOverlapped e = l) then 0 else S (ahead l q)
  end.

Definition in_batch (t l : nat) p : Prop :=
  exists es (stop : bool), threads p !! t = Some (InBatch es stop) /\ l ∈ map lpOverlapped es.

Lemma ahead_app l q q' : l ∈ map lpOverlapped q -> ahead l (q ++ q') = ahead l q.
Proof.
  induction q as [|e q IH]; cbn; [by intros ?%elem_of_nil|]. intros [->|Hl]%elem_of_cons.
  - by rewrite bool_decide_true.
  - case_bool_decide; [done|]. by rewrite IH.
Qed.

(** Taking packets from the front brings [l] nearer, or takes it. *)
Lemma ahead_drop l m q :
  l ∈ map lpOverlapped q -> (1 <= m)%nat ->
  l ∈ map lpOverlapped (take m q) \/
  l ∈ map lpOverlapped (drop m q) /\ (ahead l (drop m q) < ahead l q)%nat.
Proof.
  revert m. induction q as [|e q IH]; intros [|m] Hl Hm; cbn in *; try lia; [by apply elem_of_nil in Hl|].
  rewrite elem_of_cons in Hl |- *. case_bool_decide as E; [auto|]. destruct Hl as [|Hl]; [by left; left|].
  destruct m as [|m]; [right; rewrite drop_0; auto with lia|].
  destruct (IH (S m) Hl ltac:(lia)) as [|[Hin Hlt]]; [by left; right|right]. split; [done|lia].
Qed.

Lemma kernel_turn p p' hd hd' l :
  turn p p' hd hd' -> l ∈ map lpOverlapped (kernel p) ->
  l ∈ map lpOverlapped (kernel p') \/ l ∈ map lpOverlapped (queue p').
Proof.
  destruct 1 as [es Hq Hk|k1 e k2 Hk Hk' Hq|t m _ _ _ Hk|t _ _ Hk|t e es _ _ Hk|t l' _ _ Hk];
    try (rewrite Hk; by left).
  - rewrite Hk, map_app, elem_of_app. auto.
  - rewrite Hk, Hk', Hq, !map_app. cbn. set_solver.
Qed.

(** The queue moves on; a thread that takes packets brings [l] nearer. *)
Lemma queue_turn p p' hd hd' l :
  turn p p' hd hd' -> l ∈ map lpOverlapped (queue p) ->
  (exists t, in_batch t l p') \/
  l ∈ map lpOverlapped (queue p') /\
    (ahead l (queue p') = ahead l (queue p) \/ (ahead l (queue p') < ahead l (queue p))%nat).
Proof.
  intros Ht Hl.
  destruct Ht as [es Hq|k1 e k2 _ _ Hq|t m Ht Hm Hq _ Hts|t _ Hq|t e es _ Hq|t l' _ Hq];
    try (rewrite Hq; by auto).
  - right. rewrite Hq, map_app, elem_of_app, ahead_app by done. auto.
  - destruct (ahead_drop l m (queue p) Hl ltac:(lia)) as [Hin|[Hin Hlt]]; [left|right].
    + exists t. do 2 eexists. rewrite Hts, list_lookup_insert_eq; [done|by eapply lookup_lt_Some].
    + rewrite Hq. auto.
Qed.

Lemma batch_turn p p' hd hd' t l :
  turn p p' hd hd' -> in_batch t l p -> in_batch t l p' \/ hd' !! t = Some l.
Proof.
  intros Ht (es0 & stop & Hb & Hl). assert (Hsame : threads p' !! t = threads p !! t -> in_batch t l p')
    by (intros E; exists es0, stop; by rewrite E).
  destruct Ht as [es _ _ Hts|k1 e k2 _ _ _ Hts|t' m Ht' _ _ _ Hts|t' Ht' _ _ Hts|t' e es Ht' _ _ Hts _ Hhd|t' l' _ _ _ Hts];
    try (left; apply Hsame; congruence);
    (destruct (decide (t' = t)) as [->|Hne]; [|left; apply Hsame; rewrite Hts; by apply list_lookup_insert_ne]);
    rewrite Hb in Ht'; try done.
  - injection Ht' as -> _. by apply elem_of_nil in Hl.
  - injection Ht' as -> ->. cbn in Hl. apply elem_of_cons in Hl as [->|Hl].
    + right. by rewrite Hhd, lookup_insert_eq.
    + left. exists es, false. rewrite Hts, list_lookup_insert_eq; [done|by eapply lookup_lt_Some].
Qed.

(** A thread that holds a reference can only drop it. *)
Lemma held_turn p p' hd hd' t l :
  turn p p' hd hd' -> hd !! t = Some l ->
  (threads p' !! t = threads p !! t /\ hd' !! t = Some l) \/ hd' = delete t hd.
Proof.
  intros Ht Hl. destruct Ht as [es _ _ -> ->|k1 e k2 _ _ _ -> ->|t' m _ _ _ _ -> Hn ->|t' _ _ _ -> Hn ->
    |t' e es _ _ _ -> Hn ->|t' l' _ _ _ -> ->]; auto;
    (destruct (decide (t' = t)) as [->|]; [try congruence; by right|left]);
    by rewrite ?list_lookup_insert_ne, ?lookup_insert_ne, ?lookup_delete_ne.
Qed.

(** The place of [l] in the queue, then what thread [t] has before it. *)
Definition queue_rank (t l : nat) p hd : nat * nat := (ahead l (queue p), load t p hd).
Definition rank_lt : nat * nat -> nat * nat -> Prop := slexprod nat nat lt lt.

Lemma rank_lt_wf r : Acc rank_lt r.
Proof. apply wf_slexprod; apply Nat.lt_wf_0. Qed.

(** A thread that does not take packets has less before it for what it does. *)
Lemma load_turn p p' hd hd' t :
  turn p p' hd hd' ->
  (threads p' !! t = threads p !! t /\ hd' !! t = hd !! t) \/ (load t p' hd' < load t p hd)%nat \/
  (threads p !! t = Some Dequeuing /\ exists m, (1 <= m)%nat /\ queue p' = drop m (queue p) /\
     threads p' !! t = Some (InBatch (take m (queue p)) false)).
Proof.
  intros Ht. unfold load.
  destruct Ht as [es _ _ -> ->|k1 e k2 _ _ _ -> ->|t' m Ht' Hm Hq _ Hts _ ->|t' Ht' _ _ Hts _ ->|t' e es Ht' _ _ Hts Hn ->
    |t' l' Hl _ _ -> ->]; auto;
    (destruct (decide (t' = t)) as [->|Hne];
      [|left; rewrite ?Hts, ?list_lookup_insert_ne, ?lookup_insert_ne, ?lookup_delete_ne by done; done]);
    try (assert (t < length (threads p))%nat as Hlt by (by eapply lookup_lt_Some));
    rewrite ?Hts, ?list_lookup_insert_eq by done.
  - right; right. split; [done|]. exists m. split; [lia|done].
  - right; left. rewrite Ht'. cbn. lia.
  - right; left. rewrite Ht', Hn, lookup_insert_eq. cbn. lia.
  - right; left. rewrite Hl, lookup_delete_eq. lia.
Qed.

Lemma queue_rank_turn p p' hd hd' t l :
  turn p p' hd hd' -> l ∈ map lpOverlapped (queue p) ->
  (exists t', in_batch t' l p') \/
  l ∈ map lpOverlapped (queue p') /\
    ((threads p' !! t = threads p !! t /\ hd' !! t = hd !! t /\ queue_rank t l p' hd' = queue_rank t l p hd) \/
     rank_lt (queue_rank t l p' hd') (queue_rank t l p hd)).
Proof.
  intros Ht Hl. destruct (queue_turn _ _ _ _ l Ht Hl) as [|[Hl' Hq]]; [by left|].
  destruct Hq as [Hq|Hq]; [|right; split; [done|right; by left]]. unfold queue_rank. rewrite Hq.
  destruct (load_turn _ _ _ _ t Ht) as [[Hts Hhd]|[Hlt|(_ & m & Hm & Hdrop & Hb)]].
  - right. split; [done|left]. unfold load. by rewrite Hts, Hhd.
  - right. split; [done|right; by right].
  - left. destruct (ahead_drop l m (queue p) Hl Hm) as [Hin|[_ Hlt]]; [|rewrite Hdrop in Hq; lia].
    exists t. by do 2 eexists.
Qed.

(** ** Operations and their packets *)

Section delivery.
Context `{ArrayQueueLaws Q} `{AtomicWaker W AW}.
Context (file : Z).
Context (is_handle : wrap64 file <> SHUTDOWN_KEY).
Implicit Types (s : Sys Q AW) (c : Completion Q AW) (o : OpState).

Local Abbreviation step := (completion_step file).

(** The kernel finishes the operation of [l]. *)
Definition kernel_posts (l : nat) c c' : Prop :=
  step c c' /\ l ∈ map lpOverlapped (kernel (c_port c)) /\ l ∉ map lpOverlapped (kernel (c_port c')).
(** Thread [t] goes on: takes a batch, delivers, drops its reference, leaves a batch. *)
Definition thread_turn (t : nat) c c' : Prop :=
  step c c' /\ (threads (c_port c') !! t <> threads (c_port c) !! t \/ c_held c' !! t <> c_held c !! t).
(** The task of operation [i] goes on.  It is never bound to drop a future that waits. *)
Definition task_turn (i : nat) c c' : Prop :=
  step c c' /\ exists o o', ops (c_sys c) !! i = Some o /\ ops (c_sys c') !! i = Some o' /\
    o_phase o' <> o_phase o /\ o_phase o' <> Cancelling.

Definition live n c : Prop := completion_ok n c /\ dropper (c_port c) = NotDropped.

Lemma turn_of n c c' :
  live n c -> dropper (c_port c') = NotDropped -> step c c' ->
  turn (c_port c) (c_port c') (c_held c) (c_held c').
Proof.
  intros [Hok Hd] Hd' Hs. destruct (ck_port _ _ Hok) as [pend Hp].
  destruct (not_dropped_clean _ _ _ Hp Hd) as (_ & Hst & _).
  destruct Hs as [p s hd j op' ec scr b pk Hj|p s s' hd Hst' Hm|p p' s hd Hps Hdel Hthr
    |q k ts d log s hd t e es stop Hb Hn He|p s hd t l Hl]; cbn in *.
  - by eapply turn_grow.
  - eapply (turn_grow _ _ _ _ []); try done. by rewrite app_nil_r.
  - assert (Hfree : forall t, threads p' !! t <> threads p !! t -> hd !! t = None).
    { intros t Hne. destruct (hd !! t) eqn:E; [|done]. destruct Hne. apply Hthr. by eexists. }
    destruct Hps as [q k1 e k2 ts d log|q k ts d log t m Ht Hm Hq|q k ts log t Ht
      |q k ts d log t e es stop out stop' Ht He|q k ts d log t stop Ht|q k ts log|q k ts m a log
      |q k ts m a log|q k ts a log|q k ts m a log Hj|q k ts m a log Hm]; cbn in *; try done.
    + by eapply turn_post.
    + eapply (turn_take _ _ _ _ t m); try done; cbn; [lia|]. apply Hfree.
      rewrite list_lookup_insert_eq by (by eapply lookup_lt_Some). congruence.
    + pose proof (stoppers_O _ _ _ Hst Ht) as Hstop. cbn in Hstop.
      apply handle_entry_cases in He as [(E & _)|(_ & -> & _)].
      * rewrite E in Hstop. by destruct stop.
      * apply (f_equal length) in Hdel. rewrite length_app in Hdel. cbn in Hdel. lia.
    + pose proof (stoppers_O _ _ _ Hst Ht) as Hstop. cbn in Hstop. rewrite orb_false_r in Hstop. subst stop.
      eapply turn_leave; try done. apply Hfree.
      rewrite list_lookup_insert_eq by (by eapply lookup_lt_Some). cbn. congruence.
  - pose proof (stoppers_O _ _ _ Hst Hb) as Hstop. cbn in Hstop. apply orb_false_iff in Hstop as [-> _].
    by eapply (turn_deliver _ _ _ _ t e es).
  - by eapply (turn_drop _ _ _ _ t l).
Qed.

(** Operation [i], on the wrap [l], waits for its packet; it has had it; nothing but
    its submitter has a hand in it any more. *)
Definition awaits (i l : nat) c : Prop :=
  exists o, ops (c_sys c) !! i = Some o /\ under_way o /\ leaked (o_op o) = l.
Definition completed_on (i l : nat) c : Prop :=
  exists o, ops (c_sys c) !! i = Some o /\ is_Some (o_packet o) /\ leaked (o_op o) = l.
Definition is_settled o : Prop :=
  o_thr o = false /\
  (is_Some (o_packet o) \/ exists ec b, o_answer o = Some (ec, b) /\ packet_due (skip_on_success (o_op o)) ec = false).

Lemma op_step_of n c c' i o :
  completion_ok n c -> step c c' -> ops (c_sys c) !! i = Some o ->
  exists o', ops (c_sys c') !! i = Some o' /\ goes_on o o'.
Proof.
  intros Hok Hs Ho. destruct (step_projects file is_handle _ _ _ Hok Hs) as [[->|Hst] _].
  - exists o. split; [done|apply goes_on_refl].
  - by eapply op_step_goes_on.
Qed.

Lemma awaits_step n c c' i l :
  completion_ok n c -> step c c' -> awaits i l c -> awaits i l c' \/ completed_on i l c'.
Proof.
  intros Hok Hs (o & Ho & Hu & El). destruct (ck_sys _ _ Hok) as [R HR].
  destruct (under_way_kern o ltac:(by eapply so_op) Hu) as [Hk Ht].
  destruct Hs as [p s hd j op' ec scr b pk Hj|p s s' hd Hst' Hm|p p' s hd Hps Hdel Hthr
    |q k ts d log s hd t e es stop Hb Hn He|p s hd t l' Hl]; cbn in *.
  - left. exists o. cbn. rewrite lookup_insert_ne; [done|]. intros ->. rewrite Hj in Ho. injection Ho as <-.
    by destruct Hu as (_ & ? & ? & ? & _).
  - left. destruct (own_step_op_back _ _ _ _ Hst' Hm Ho) as (o' & Ho' & Em & Eo). exists o'. split; [done|].
    rewrite Eo. split; [by eapply under_way_mark|done].
  - left. by exists o.
  - unfold awaits, completed_on. cbn. rewrite lookup_fmap, Ho. cbn. unfold mark_delivered. case_bool_decide as E.
    + right. eexists. split; [reflexivity|]. rewrite (proj2 (kernel_owes_under_way o) Hu). cbn. by split; [eexists|].
    + left. by eexists.
  - left. unfold awaits. cbn. rewrite lookup_fmap, Ho. cbn. unfold mark_dropped. rewrite Ht, andb_false_r. by eexists.
Qed.

Lemma completed_step n c c' i l :
  completion_ok n c -> step c c' -> completed_on i l c -> completed_on i l c'.
Proof.
  intros Hok Hs (o & Ho & Hp & El).
  destruct Hs as [p s hd j op' ec scr b pk Hj|p s s' hd Hst' Hm|p p' s hd Hps Hdel Hthr
    |q k ts d log s hd t e es stop Hb Hn He|p s hd t l' Hl]; unfold completed_on; cbn in *.
  - exists o. rewrite lookup_insert_ne; [done|]. intros ->. rewrite Hj in Ho. injection Ho as <-. by destruct Hp.
  - destruct (own_step_op_back _ _ _ _ Hst' Hm Ho) as (o' & Ho' & Em & Eo). exists o'. split; [done|].
    rewrite Eo. unfold mark in Em. split; congruence.
  - by exists o.
  - rewrite lookup_fmap, Ho. eexists. split; [reflexivity|]. unfold mark_delivered. by destruct (_ && _); cbn; [split|].
  - rewrite lookup_fmap, Ho. eexists. split; [reflexivity|]. unfold mark_dropped. by destruct (_ && _).
Qed.

Lemma settled_step n c c' i o :
  completion_ok n c -> step c c' -> ops (c_sys c) !! i = Some o -> is_settled o ->
  exists o', ops (c_sys c') !! i = Some o' /\ is_settled o' /\ goes_on o o'.
Proof.
  intros Hok Hs Ho [Ht Hset]. destruct (ck_sys _ _ Hok) as [R HR].
  destruct (op_step_of _ _ _ _ _ Hok Hs Ho) as (o' & Ho' & Hg). exists o'. split; [done|]. split; [|done].
  destruct Hs as [p s hd j op' ec scr b pk Hj|p s s' hd Hst' Hm|p p' s hd Hps Hdel Hthr
    |q k ts d log s hd t e es stop Hb Hn He|p s hd t l' Hl]; cbn in *.
  - rewrite lookup_insert_ne in Ho'; [by simplify_eq|]. intros ->. rewrite Hj in Ho. injection Ho as <-.
    cbn in Hset. by destruct Hset as [[? ?]|(? & ? & ? & _)].
  - destruct (own_step_op_back _ _ _ _ Hst' Hm Ho) as (o1 & Ho1 & Em & Eo). rewrite Ho' in Ho1. injection Ho1 as <-.
    unfold is_settled. rewrite Eo. unfold mark in Em. by injection Em as -> -> ->.
  - by simplify_eq.
  - destruct (entry_owner _ _ _ _ _ _ _ _ _ _ _ _ Hok Hb He) as (_ & x & op & ph & ec & b & Hx & El & Hd).
    rewrite (mark_delivered_one s R x op ph _ _ _ _ HR Hx Hd El) in Ho'. cbn in Ho'.
    rewrite lookup_insert_ne in Ho'; [by simplify_eq|]. intros ->. rewrite Hx in Ho. injection Ho as <-. cbn in *.
    destruct Hset as [[? ?]|(? & ? & [= <- <-] & ?)]; congruence.
  - rewrite lookup_fmap, Ho in Ho'. cbn in Ho'. injection Ho' as <-. unfold mark_dropped.
    by rewrite Ht, andb_false_r.
Qed.

(** What a thread has taken back for [l], the operation on [l] has been given. *)
Lemma awaits_not_held n c i l t : completion_ok n c -> awaits i l c -> c_held c !! t <> Some l.
Proof.
  intros Hok (o & Ho & Hu & <-). destruct (ck_sys _ _ Hok) as [R HR].
  destruct (under_way_kern o ltac:(by eapply so_op) Hu) as [Hk Ht]. by eapply kernel_not_held.
Qed.

(** ** Someone can always go on *)

Lemma kernel_live n c l :
  live n c -> l ∈ map lpOverlapped (kernel (c_port c)) -> exists c', kernel_posts l c c'.
Proof.
  intros [Hok Hd] Hl. pose proof (ck_nodup _ _ Hok) as Hnd. unfold undelivered in Hnd.
  destruct c as [[q k ts d log] s hd]. cbn in *. subst d.
  rewrite !map_app, !NoDup_app in Hnd. destruct Hnd as (_ & _ & _ & _ & Hnd).
  apply list_elem_of_fmap in Hl as (e & -> & (k1 & k2 & ->)%list_elem_of_split).
  exists (mkCompletion (mkPort (q ++ [e]) (k1 ++ k2) ts NotDropped log) s hd). split; [|split; cbn].
  - by eapply c_move; [apply port_arrive|..].
  - rewrite map_app. set_solver.
  - rewrite map_app in Hnd |- *. cbn in Hnd. apply NoDup_app in Hnd as (_ & H1' & [H2 _]%NoDup_cons).
    rewrite elem_of_app. intros [Hl|Hl]; [|done]. apply (H1' _ Hl). by left.
Qed.

(** A thread that holds a reference, or is in a batch, or could take one, goes on. *)
Lemma thread_live n c t :
  live n c -> (t < n)%nat ->
  is_Some (c_held c !! t) \/ threads (c_port c) !! t <> Some Dequeuing \/ queue (c_port c) <> [] ->
  exists c', thread_turn t c c'.
Proof.
  intros [Hok Hd] Hlt Hgo. destruct (ck_port _ _ Hok) as [pend Hp].
  destruct (not_dropped_clean _ _ _ Hp Hd) as (_ & Hst & _). pose proof (pok_threads _ _ _ Hp) as Hlen.
  destruct c as [[q k ts d log] s hd]. cbn in *. subst d.
  destruct (hd !! t) as [l|] eqn:Hl.
  { eexists. split; [by apply (c_drop _ _ s hd t l)|]. cbn. right. by rewrite lookup_delete_eq, Hl. }
  assert (Hfree : forall t', is_Some (hd !! t') -> t' <> t) by (intros t' [? ?] ->; congruence).
  destruct (lookup_lt_is_Some_2 ts t) as [th Ht]; [lia|].
  pose proof (stoppers_O _ _ _ Hst Ht) as Hstop. destruct th as [|[|e es] stop|]; [| | |done]; cbn in Hstop.
  - destruct Hgo as [[? ?]|[?|Hq]]; [done|congruence|]. destruct q as [|e q]; [done|].
    eexists. split.
    + eapply c_move; [by apply (port_dequeue (e :: q) k ts NotDropped log t 1); [|unfold BATCH; lia|cbn; lia|]|done|].
      intros t' Ht'%Hfree. cbn. by rewrite list_lookup_insert_ne.
    + cbn. left. rewrite list_lookup_insert_eq by lia. congruence.
  - rewrite orb_false_r in Hstop. subst stop. eexists. split.
    + eapply c_move; [by apply (port_batch_done q k ts NotDropped log t false)|done|].
      intros t' Ht'%Hfree. cbn. by rewrite list_lookup_insert_ne.
    + cbn. left. rewrite list_lookup_insert_eq by lia. congruence.
  - apply orb_false_iff in Hstop as [-> [He _]%orb_false_iff]. eexists. split.
    + apply (c_deliver _ q k ts NotDropped log s hd t e es false Ht Hl). unfold handle_entry.
      unfold is_sentinel in He. by rewrite He.
    + cbn. right. by rewrite lookup_insert_eq, Hl.
Qed.

Lemma marks_insert s (h : Heap Q AW) i o o' j :
  ops s !! i = Some o -> mark o' = mark o -> marks (mkSys h (<[i := o']> (ops s))) j = marks s j.
Proof.
  intros Hi Hm. unfold marks. cbn. rewrite lookup_insert. case_decide; [|done]. subst. by rewrite Hi.
Qed.

(** A step of the submitter's own. *)
Lemma task_own c i o o' (h : Heap Q AW) :
  ops (c_sys c) !! i = Some o -> mark o' = mark o -> o_phase o' <> o_phase o -> o_phase o' <> Cancelling ->
  op_step (c_sys c) (mkSys h (<[i := o']> (ops (c_sys c)))) -> exists c', task_turn i c c'.
Proof.
  intros Hi Hm Hne Hnc Hst. destruct c as [p s hd]. cbn in *. eexists. split.
  - apply c_own; [exact Hst|]. intros j. by eapply marks_insert.
  - exists o, o'. cbn. by rewrite lookup_insert_eq.
Qed.

Lemma submitting_live n c i o :
  completion_ok n c -> ops (c_sys c) !! i = Some o -> o_phase o = Submitting -> exists c', task_turn i c c'.
Proof.
  intros Hok Hi Hph. destruct (ck_sys _ _ Hok) as [R HR]. destruct (so_op _ _ HR _ _ Hi) as [_ Ho].
  rewrite Hph in Ho. destruct Ho as (Hk & Ht & Hp & Ha). destruct o as [op ph k t a pk], c as [p s hd]. cbn in *. subst.
  eexists. split; [by apply (c_submit _ p s hd i op 0 (0, 0) 0 (mkPacket None 0))|].
  do 2 eexists. cbn. rewrite lookup_insert_eq. split; [exact Hi|]. by split.
Qed.

Lemma settled_live (cx : W) n c i o :
  completion_ok n c -> ops (c_sys c) !! i = Some o -> is_settled o -> o_phase o <> Submitting ->
  (0 < refs o)%nat -> exists c', task_turn i c c'.
Proof.
  intros Hok Hi [Ht Hset] Hph Hr. destruct (ck_sys _ _ Hok) as [R HR].
  destruct (so_op _ _ HR _ _ Hi) as [Hl Ho]. destruct (so_refs _ _ HR _ _ Hi Hr) as (_ & w & Hw & Hwm & _).
  destruct o as [op ph k t a pk]. unfold refs in Hr. cbn in *. subst t.
  assert (Hcompl : ph = Awaiting \/ ph = Cancelling -> completed w = true).
  { intros Hor. assert (exists ec b, a = Some (ec, b) /\ packet_due (skip_on_success op) ec = true) as (ec & b & -> & Hd)
      by (by destruct Hor as [->| ->]; destruct Ho).
    destruct Hset as [[p' Hp']|(? & ? & [= <- <-] & ?)]; [subst pk; apply Hwm|congruence]. }
  destruct ph as [|ec b| | |r|]; [done| | | | |].
  - destruct Ho as [-> Hfl]. destruct (packet_due (skip_on_success op) ec) eqn:Hd.
    + eapply (task_own c i _ (mkOpState op Awaiting k false (Some (ec, b)) pk)); [exact Hi|done..|].
      apply (step_finish_awaits _ _ _ _ _ _ _ _ _ Hi). by rewrite finish_start_cases, Hd.
    + destruct Hfl as [(Hk & _ & Hp)|(_ & _ & ec' & b' & [= <- <-] & ?)]; [|cbn in *; congruence]. cbn in *. subst k pk.
      eapply (task_own c i _ (mkOpState op (Overlapped.Returned _) false false (Some (ec, b)) None)); [exact Hi|..].
      1: done. 1, 2: done.
      eapply (step_finish_returns _ _ _ _ _ _ _ _ _ _ Hi). by rewrite finish_start_cases, Hd.
  - eapply (task_own c i _ (mkOpState op (Overlapped.Returned _) k false a pk)); [exact Hi|done..|].
    eapply (step_poll_ready _ _ _ _ _ _ _ cx _ _ _ Hi Hw). rewrite poll_complete_cases, Hcompl by auto. done.
  - eapply (task_own c i _ (mkOpState op Dropped k false a pk)); [exact Hi|done..|].
    eapply (step_future_dropped _ _ _ _ _ _ _ _ _ Hi); [by right|exact Hw|by apply Hcompl; right].
  - destruct Ho as (-> & _). cbn in Hr. lia.
  - destruct Ho as (-> & _). cbn in Hr. lia.
Qed.

(** ** The way of an operation *)

(** What has been accepted waits for its packet, has had it, or needs none. *)
Lemma op_answered o :
  op_ok o -> o_phase o <> Submitting -> under_way o \/ is_Some (o_packet o) \/ is_settled o.
Proof.
  intros [_ Hok] Hph. destruct (o_packet o) as [pk|] eqn:Hpk; [by right; left; eexists|].
  assert (Hans : exists ec b, o_answer o = Some (ec, b) /\
    (packet_due (skip_on_success (o_op o)) ec = false -> o_thr o = false)).
  { assert (Hfl : in_flight o -> o_thr o = false) by (intros [(_ & ? & _)|(_ & [? ?] & _)]; [done|congruence]).
    destruct (o_phase o) as [|ec b| | |r|]; [done| | | | |].
    - destruct Hok as [-> ?]. eauto.
    - destruct Hok as [? (ec & b & -> & _)]. eauto 6.
    - destruct Hok as [? (ec & b & -> & _)]. eauto 6.
    - destruct Hok as (_ & Ht & ec & b & -> & _). eauto 6.
    - destruct Hok as (_ & [? ?] & _). congruence. }
  destruct Hans as (ec & b & Ha & Ht). destruct (packet_due (skip_on_success (o_op o)) ec) eqn:Hd.
  - left. split; [done|]. eauto.
  - right; right. split; [by apply Ht|]. right. eauto.
Qed.

Section fair.
Context (n : nat) (slots : Z) (e : nat -> Completion Q AW).
Context (Hex : execution step e) (Hinit : completion_init n slots (e 0%nat)).
Context (Hlive : forall k, dropper (c_port (e k)) = NotDropped).

Lemma live_at j : live n (e j).
Proof.
  split; [|done]. apply (reachable_completion_ok file is_handle n slots).
  apply execution_reachable; [done|by apply reachable_init].
Qed.

Lemma ok_at j : completion_ok n (e j).
Proof. apply live_at. Qed.

(** What one step of the execution does. *)
Lemma turn_at j :
  e (1 + j)%nat = e j \/
  step (e j) (e (1 + j)%nat) /\
    turn (c_port (e j)) (c_port (e (1 + j)%nat)) (c_held (e j)) (c_held (e (1 + j)%nat)).
Proof.
  destruct (Hex j) as [|Hs]; [by left|right]. split; [done|]. by apply (turn_of n); [apply live_at| |].
Qed.

Lemma kernel_leads j i l :
  weakly_fair (kernel_posts l) e -> awaits i l (e j) -> l ∈ map lpOverlapped (kernel (c_port (e j))) ->
  exists k, (j <= k)%nat /\
    ((awaits i l (e k) /\ l ∈ map lpOverlapped (queue (c_port (e k)))) \/ completed_on i l (e k)).
Proof.
  intros Hfair Ha Hl.
  assert (Hstep : forall k, step (e k) (e (1 + k)%nat) -> awaits i l (e k) ->
    awaits i l (e (1 + k)%nat) \/ completed_on i l (e (1 + k)%nat))
    by (intros k Hs; by apply (awaits_step n); [apply ok_at|]).
  apply (fair_ensures (kernel_posts l) (fun c => awaits i l c /\ l ∈ map lpOverlapped (kernel (c_port c)))
    (fun c => (awaits i l c /\ l ∈ map lpOverlapped (queue (c_port c))) \/ completed_on i l c) e j);
    [done|done| | |].
  - intros k _ [Hak Hlk]. destruct (turn_at k) as [->|[Hs Ht]]; [by right|].
    destruct (Hstep k Hs Hak); [|by auto]. destruct (kernel_turn _ _ _ _ _ Ht Hlk); auto.
  - intros k _ [_ Hlk]. by apply (kernel_live n); [apply live_at|].
  - intros k _ [Hak Hlk] (_ & _ & Hnot). destruct (turn_at k) as [E|[Hs Ht]]; [by rewrite E in Hnot|].
    destruct (Hstep k Hs Hak); [|by auto]. destruct (kernel_turn _ _ _ _ _ Ht Hlk); [done|auto].
Qed.

Lemma queue_leads j i l :
  (0 < n)%nat -> weakly_fair (thread_turn 0) e ->
  awaits i l (e j) -> l ∈ map lpOverlapped (queue (c_port (e j))) ->
  exists k, (j <= k)%nat /\
    ((awaits i l (e k) /\ exists t, in_batch t l (c_port (e k))) \/ completed_on i l (e k)).
Proof.
  intros Hn Hfair Ha Hl.
  apply (fair_leads (thread_turn 0) rank_lt (fun c => queue_rank 0 l (c_port c) (c_held c))
    (fun c => awaits i l c /\ l ∈ map lpOverlapped (queue (c_port c)))
    (fun c => (awaits i l c /\ exists t, in_batch t l (c_port c)) \/ completed_on i l c) e j); [done|apply rank_lt_wf|done| | |].
  - intros k _ [Hak Hlk]. destruct (turn_at k) as [->|[Hs Ht]]; [auto|].
    destruct (awaits_step n _ _ i l (ok_at k) Hs Hak); [|by auto].
    destruct (queue_rank_turn _ _ _ _ 0 _ Ht Hlk) as [|[? [(_ & _ & ?)|?]]]; auto.
  - intros k _ [_ Hlk]. right. apply (thread_live n); [apply live_at|done|]. right; right.
    intros E. rewrite E in Hlk. by apply elem_of_nil in Hlk.
  - intros k _ [Hak Hlk] (_ & Hne). destruct (turn_at k) as [E|[Hs Ht]]; [rewrite E in Hne; by destruct Hne|].
    destruct (awaits_step n _ _ i l (ok_at k) Hs Hak); [|by auto].
    destruct (queue_rank_turn _ _ _ _ 0 _ Ht Hlk) as [|[? [(? & ? & _)|?]]]; auto. by destruct Hne.
Qed.

Lemma batch_leads j i l t :
  weakly_fair (thread_turn t) e -> awaits i l (e j) -> in_batch t l (c_port (e j)) ->
  exists k, (j <= k)%nat /\ completed_on i l (e k).
Proof.
  intros Hfair Ha Hb.
  assert (Hstep : forall k, awaits i l (e k) /\ in_batch t l (c_port (e k)) ->
    completed_on i l (e (1 + k)%nat) \/ (awaits i l (e (1 + k)%nat) /\ in_batch t l (c_port (e (1 + k)%nat))) /\
      ((threads (c_port (e (1 + k)%nat)) !! t = threads (c_port (e k)) !! t /\
        c_held (e (1 + k)%nat) !! t = c_held (e k) !! t) \/
       (load t (c_port (e (1 + k)%nat)) (c_held (e (1 + k)%nat)) < load t (c_port (e k)) (c_held (e k)))%nat)).
  { intros k [Hak Hbk]. destruct (turn_at k) as [->|[Hs Ht]]; [auto|].
    destruct (awaits_step n _ _ i l (ok_at k) Hs Hak) as [Hak'|]; [right|by left].
    destruct (batch_turn _ _ _ _ _ _ Ht Hbk) as [Hbk'|Hh];
      [|by apply (awaits_not_held n _ i l t (ok_at _)) in Hh].
    split; [done|]. destruct (load_turn _ _ _ _ t Ht) as [|[|(Hd & _)]]; auto.
    destruct Hbk as (es & stop & Hbk & _). congruence. }
  apply (fair_leads (thread_turn t) lt (fun c => load t (c_port c) (c_held c))
    (fun c => awaits i l c /\ in_batch t l (c_port c)) (completed_on i l) e j); [done|apply Nat.lt_wf_0|done| | |].
  - intros k _ HP. destruct (Hstep k HP) as [|[? [[Hts Hhd]|?]]]; auto. right. split; [done|left].
    unfold load. by rewrite Hts, Hhd.
  - intros k _ [_ (es & stop & Hbk & _)]. right. destruct (ck_port _ _ (ok_at k)) as [pend Hp].
    apply (thread_live n); [apply live_at| |right; left; congruence].
    rewrite <- (pok_threads _ _ _ Hp). by eapply lookup_lt_Some.
  - intros k _ HP [_ Hne]. destruct (Hstep k HP) as [|[? [[Hts Hhd]|?]]]; auto. by destruct Hne.
Qed.

(** The packet of an accepted operation reaches it. *)
Lemma packet_leads j i l :
  (0 < n)%nat -> weakly_fair (kernel_posts l) e -> (forall t, weakly_fair (thread_turn t) e) ->
  awaits i l (e j) -> exists k, (j <= k)%nat /\ completed_on i l (e k).
Proof.
  intros Hn Hk Ht Ha.
  assert (Hb : forall k t, awaits i l (e k) -> in_batch t l (c_port (e k)) ->
    exists k', (k <= k')%nat /\ completed_on i l (e k')) by (intros; by eapply batch_leads).
  assert (Hq : forall k, awaits i l (e k) -> l ∈ map lpOverlapped (queue (c_port (e k))) ->
    exists k', (k <= k')%nat /\ completed_on i l (e k')).
  { intros k Hak Hlk. destruct (queue_leads k i l Hn (Ht 0%nat) Hak Hlk) as (k1 & ? & [[Hak1 [t Hbt]]|?]); [|eauto].
    destruct (Hb k1 t Hak1 Hbt) as (k2 & ? & ?). exists k2. split; [lia|done]. }
  assert (Hl : l ∈ map lpOverlapped (undelivered (c_port (e j)))) by (apply (ck_entry _ _ (ok_at j)); by exists i).
  unfold undelivered in Hl. rewrite !map_app, !elem_of_app in Hl. destruct Hl as [Hl|[Hl|Hl]].
  - apply list_elem_of_fmap in Hl as (x & -> & Hx). apply list_elem_of_filter in Hx as [_ Hx].
    apply list_elem_of_bind in Hx as (th & Hx & Hth). apply list_elem_of_lookup in Hth as [t Hth].
    destruct th as [|es stop|]; cbn in Hx; try (by apply elem_of_nil in Hx).
    apply (Hb j t Ha). exists es, stop. split; [done|]. by apply list_elem_of_fmap_2.
  - apply (Hq j Ha). apply list_elem_of_fmap in Hl as (x & -> & Hx). apply list_elem_of_filter in Hx as [_ Hx].
    by apply list_elem_of_fmap_2.
  - destruct (kernel_leads j i l Hk Ha Hl) as (k & ? & [[Hak Hlk]|?]); [|eauto].
    destruct (Hq k Hak Hlk) as (k2 & ? & ?). exists k2. split; [lia|done].
Qed.

(** The thread that delivered it drops its reference. *)
Lemma held_leads j i l :
  (forall t, weakly_fair (thread_turn t) e) -> completed_on i l (e j) ->
  exists k, (j <= k)%nat /\ exists o, ops (c_sys (e k)) !! i = Some o /\ is_settled o.
Proof.
  intros Hfair Hc. destruct Hc as (o & Ho & Hp & El). destruct (o_thr o) eqn:Et.
  2: { exists j. split; [lia|]. exists o. split; [done|]. split; auto. }
  destruct (ck_thr _ _ (ok_at j) i o Ho Et) as [t Ht]. rewrite El in Ht.
  assert (Hstep : forall k, completed_on i l (e k) /\ c_held (e k) !! t = Some l ->
    (exists o, ops (c_sys (e (1 + k)%nat)) !! i = Some o /\ is_settled o) \/
    (completed_on i l (e (1 + k)%nat) /\ c_held (e (1 + k)%nat) !! t = Some l) /\
      threads (c_port (e (1 + k)%nat)) !! t = threads (c_port (e k)) !! t).
  { intros k [Hck Hhk]. destruct (turn_at k) as [->|[Hs Htn]]; [auto|].
    pose proof (completed_step n _ _ i l (ok_at k) Hs Hck) as Hck'.
    destruct (held_turn _ _ _ _ _ _ Htn Hhk) as [[? ?]|Hdel]; [auto|left].
    destruct Hck' as (o1 & Ho1 & Hp1 & El1). exists o1. split; [done|]. split; [|by left].
    destruct (o_thr o1) eqn:Et1; [|done]. destruct (ck_thr _ _ (ok_at _) i o1 Ho1 Et1) as [t1 Ht1].
    rewrite El1, Hdel in Ht1. apply lookup_delete_Some in Ht1 as [Hne Ht1].
    by destruct Hne, (ck_inj _ _ (ok_at k) _ _ _ Hhk Ht1). }
  apply (fair_ensures (thread_turn t) (fun c => completed_on i l c /\ c_held c !! t = Some l)
    (fun c => exists o, ops (c_sys c) !! i = Some o /\ is_settled o) e j); [done| | | |].
  - split; [by exists o|done].
  - intros k _ HP. destruct (Hstep k HP) as [|[? _]]; auto.
  - intros k _ [_ Hhk]. destruct (ck_held _ _ (ok_at k) t l Hhk) as [(es & stop & Hth) _].
    destruct (ck_port _ _ (ok_at k)) as [pend Hpk]. apply (thread_live n); [apply live_at| |left; by eexists].
    rewrite <- (pok_threads _ _ _ Hpk). by eapply lookup_lt_Some.
  - intros k _ HP [_ Hne]. destruct (Hstep k HP) as [|[[_ Hh] Hth]]; [done|]. destruct HP as [_ HP].
    destruct Hne; congruence.
Qed.

(** The task answers, and lets go. *)
Lemma task_leads (cx : W) j i o :
  weakly_fair (task_turn i) e -> ops (c_sys (e j)) !! i = Some o -> is_settled o -> o_phase o <> Submitting ->
  exists k, (j <= k)%nat /\ exists o', ops (c_sys (e k)) !! i = Some o' /\ refs o' = O.
Proof.
  intros Hfair Ho Hset Hph.
  set (rank := fun c => match ops (c_sys c) !! i with Some o => phase_rank (o_phase o) | None => O end).
  set (P := fun c => exists o, ops (c_sys c) !! i = Some o /\ is_settled o /\ (phase_rank (o_phase o) < 4)%nat).
  assert (Hstep : forall k, P (e k) -> P (e (1 + k)%nat) /\
    ((forall o o', ops (c_sys (e k)) !! i = Some o -> ops (c_sys (e (1 + k)%nat)) !! i = Some o' -> o_phase o' = o_phase o) /\
     rank (e (1 + k)%nat) = rank (e k) \/ (rank (e (1 + k)%nat) < rank (e k))%nat)).
  { intros k (o1 & Ho1 & Hs1 & Hr1). destruct (Hex k) as [->|Hs].
    { split; [by exists o1|]. left. split; [|done]. intros; by simplify_eq. }
    destruct (settled_step n _ _ i o1 (ok_at k) Hs Ho1 Hs1) as (o2 & Ho2 & Hs2 & _ & Hg).
    unfold rank. rewrite Ho1, Ho2. split.
    - exists o2. do 2 (split; [done|]). destruct Hg as [->|]; lia.
    - destruct Hg as [E|]; [left|by right]. rewrite E. split; [|done]. intros; by simplify_eq. }
  apply (fair_leads (task_turn i) lt rank P (fun c => exists o, ops (c_sys c) !! i = Some o /\ refs o = O) e j); [done|apply Nat.lt_wf_0| | | |].
  - exists o. do 2 (split; [done|]). destruct (o_phase o); cbn; try lia; done.
  - intros k _ HP. right. destruct (Hstep k HP) as [? [[_ ?]|?]]; auto.
  - intros k _ (o1 & Ho1 & Hs1 & Hr1). destruct (decide (refs o1 = O)) as [|Hr]; [left; eauto|right].
    apply (settled_live cx n _ i o1); [apply ok_at|done|done| |lia]. intros E. rewrite E in Hr1. cbn in Hr1. lia.
  - intros k _ HP (_ & o1 & o2 & Ho1 & Ho2 & Hne & _). right.
    destruct (Hstep k HP) as [_ [[Hsame _]|]]; [|done]. by destruct Hne, (Hsame o1 o2 Ho1 Ho2).
Qed.

(** The call of a submission returns. *)
Lemma submit_leads j i o :
  weakly_fair (task_turn i) e -> ops (c_sys (e j)) !! i = Some o ->
  exists k, (j <= k)%nat /\ exists o', ops (c_sys (e k)) !! i = Some o' /\ o_phase o' <> Submitting.
Proof.
  intros Hfair Ho. destruct (decide (phase_rank (o_phase o) = 4)%nat) as [Hph|Hph].
  2: { exists j. split; [done|]. exists o. split; [done|]. intros E. by rewrite E in Hph. }
  apply (fair_ensures (task_turn i) (fun c => exists o, ops (c_sys c) !! i = Some o /\ o_phase o = Submitting)
    (fun c => exists o, ops (c_sys c) !! i = Some o /\ o_phase o <> Submitting) e j).
  - done.
  - exists o. split; [done|]. by destruct (o_phase o).
  - intros k _ (o1 & Ho1 & E1). destruct (Hex k) as [->|Hs]; [right; eauto|].
    destruct (op_step_of n _ _ i o1 (ok_at k) Hs Ho1) as (o2 & Ho2 & _ & Hg). rewrite E1 in Hg.
    destruct Hg as [E2|Hlt]; [right; eauto|left]. exists o2. split; [done|]. intros E2. rewrite E2 in Hlt. cbn in Hlt. lia.
  - intros k _ (o1 & Ho1 & E1). by eapply (submitting_live n); [apply ok_at| |].
  - intros k _ (o1 & Ho1 & E1) (_ & o1' & o2 & Ho1' & Ho2 & Hne & _). exists o2. split; [done|]. congruence.
Qed.
End fair.

(** C8. Every operation ends.  On a port with threads that is not being dropped, let
    the kernel go on finishing operations, each thread go on and the task of the
    operation go on, whatever else happens in between and in whatever order.
    Then an operation that has been started comes to hold no reference to its
    wrap: the call is answered, its packet, when one is due, finds its way from
    the kernel through the queue and a batch to the future, the thread lets the
    wrap go, and the submitter has what the kernel answered or has dropped its
    future. *)
Theorem operation_ends (cx : W) n slots (e : nat -> Completion Q AW) j i o :
  (0 < n)%nat -> execution step e -> completion_init n slots (e 0%nat) ->
  (forall k, dropper (c_port (e k)) = NotDropped) ->
  (forall l, weakly_fair (kernel_posts l) e) -> (forall t, weakly_fair (thread_turn t) e) ->
  weakly_fair (task_turn i) e ->
  ops (c_sys (e j)) !! i = Some o ->
  exists k o', (j <= k)%nat /\ ops (c_sys (e k)) !! i = Some o' /\ refs o' = O /\
    (o_phase o' = Dropped \/
     exists r ec b, o_phase o' = Overlapped.Returned r /\ o_answer o' = Some (ec, b) /\
       expected_result (skip_on_success (o_op o')) ec b (o_packet o') = Some r).
Proof.
  intros Hn Hex Hinit Hlive Hk Ht Hi Ho.
  pose proof (ok_at n slots e Hex Hinit Hlive) as Hok.
  destruct (submit_leads n slots e Hex Hinit Hlive j i o Hi Ho) as (k1 & H1' & o1 & Ho1 & Hp1).
  assert (Hset : exists k2, (k1 <= k2)%nat /\ exists o2, ops (c_sys (e k2)) !! i = Some o2 /\ is_settled o2).
  { destruct (ck_sys _ _ (Hok k1)) as [R HR].
    destruct (op_answered o1 ltac:(by eapply so_op) Hp1) as [Hu|[Hpk|Hs]]; [| |by exists k1; eauto].
    - destruct (packet_leads n slots e Hex Hinit Hlive k1 i (leaked (o_op o1)) Hn (Hk _) Ht) as (k2 & ? & Hc);
        [by exists o1|].
      destruct (held_leads n slots e Hex Hinit Hlive k2 i _ Ht Hc) as (k3 & ? & Hs). exists k3. split; [lia|done].
    - apply (held_leads n slots e Hex Hinit Hlive k1 i (leaked (o_op o1)) Ht). by exists o1. }
  destruct Hset as (k2 & H2 & o2 & Ho2 & Hs2).
  assert (o_phase o2 <> Submitting) as Hp2.
  { destruct (ck_sys _ _ (Hok k2)) as [R HR]. destruct (so_op _ _ HR _ _ Ho2) as [_ Hok2]. intros E.
    rewrite E in Hok2. destruct Hok2 as (_ & _ & Ep & Ea). destruct Hs2 as [_ [[? ?]|(? & ? & ? & _)]]; congruence. }
  destruct (task_leads n slots e Hex Hinit Hlive cx k2 i o2 Hi Ho2 Hs2 Hp2) as (k3 & H3 & o3 & Ho3 & Hr3).
  exists k3, o3. split; [lia|]. do 2 (split; [done|]). destruct (ck_sys _ _ (Hok k3)) as [R HR].
  destruct (so_op _ _ HR _ _ Ho3) as [_ Hok3]. unfold refs in Hr3.
  destruct (o_phase o3) as [|ec b| | |r|]; cbn in Hr3; try lia; [right|by left].
  destruct Hok3 as (_ & _ & ec & b & Ha & He). eauto 6.
Qed.
End delivery.

(** ** Witness: one receive that pends, on a port of one thread *)

Section witnesses.
Local Abbreviation SysT := (Sys list_queue (option unit)).
Local Abbreviation CompletionT := (Completion list_queue (option unit)).

Definition demo_awaiting : SysT :=
  mkSys (finish_start demo_op 997 (heap demo_let_go)).2
    (<[O := mkOpState demo_op Awaiting false false (Some (997, 0)) (Some demo_packet)]> (ops demo_let_go)).
Definition demo_answered : SysT :=
  mkSys (finish_end demo_op (heap demo_awaiting))
    (<[O := mkOpState demo_op (Overlapped.Returned (Ok 120)) false false (Some (997, 0)) (Some demo_packet)]>
       (ops demo_awaiting)).

Definition demo_port (th : ThreadPc) (log : list OVERLAPPED_ENTRY) : Port := mkPort [] [] [th] NotDropped log.
Definition demo_rest : CompletionT := mkCompletion (demo_port Dequeuing [demo_done]) demo_answered ∅.
Definition demo_way : list CompletionT :=
  [demo_start; mkCompletion (c_port demo_start) demo_new ∅; demo_accepted; demo_waiting;
   mkCompletion (demo_port (InBatch [demo_done] false) []) demo_pending ∅;
   mkCompletion (demo_port (InBatch [] false) [demo_done]) demo_completed {[O := leaked demo_op]};
   mkCompletion (demo_port (InBatch [] false) [demo_done]) demo_let_go ∅;
   mkCompletion (demo_port Dequeuing [demo_done]) demo_let_go ∅;
   mkCompletion (demo_port Dequeuing [demo_done]) demo_awaiting ∅].
Definition demo_at (k : nat) : CompletionT := nth k demo_way demo_rest.

Lemma demo_way_steps : steps_to (completion_step 0x44) demo_way demo_rest.
Proof.
  assert (Hm : forall p p' s, port_step p p' -> delivered p' = delivered p ->
    completion_step 0x44 (mkCompletion p s ∅) (mkCompletion (Q := list_queue) (AW := option unit) p' s ∅)).
  { intros p p' s Hp Hd. apply c_move; [done|done|]. by intros t [? ?]. }
  assert (Hown : forall p s (h : Heap list_queue (option unit)) o o',
    op_step s (mkSys h (<[O := o']> (ops s))) -> ops s !! O = Some o -> mark o' = mark o ->
    completion_step 0x44 (mkCompletion p s ∅) (mkCompletion p (mkSys h (<[O := o']> (ops s))) ∅)).
  { intros p s h o o' Hs Ho E. apply c_own; [done|]. intros i. by eapply marks_insert. }
  cbn [steps_to demo_way hd]. repeat split.
  - apply demo_step_new.
  - apply demo_step_submit.
  - apply demo_step_arrive.
  - by apply Hm; [apply (port_dequeue [demo_done] [] [Dequeuing] NotDropped [] 0 1); [|unfold BATCH; lia| |]|].
  - by apply (c_deliver 0x44 [] [] [InBatch [demo_done] false] NotDropped [] demo_pending ∅ 0 demo_done [] false).
  - rewrite <- (delete_singleton_eq O (leaked demo_op)).
    apply (c_drop 0x44 _ demo_completed {[O := leaked demo_op]} 0 (leaked demo_op)). apply lookup_singleton_eq.
  - by apply Hm; [apply (port_batch_done [] [] [InBatch [] false] NotDropped [demo_done] 0 false)|].
  - eapply Hown; [|reflexivity|reflexivity].
    by eapply (step_finish_awaits demo_let_go O demo_op 997 0 false false (Some demo_packet)).
  - eapply Hown; [|reflexivity|reflexivity]. by eapply (step_poll_ready demo_awaiting O demo_op _ _ _ _ tt).
Qed.

Lemma demo_at_execution : execution (completion_step 0x44) demo_at.
Proof. apply execution_steps, demo_way_steps. Qed.

Lemma demo_at_rest i : (9 <= i)%nat -> demo_at i = demo_rest.
Proof. intros. unfold demo_at. by rewrite nth_overflow. Qed.

Lemma demo_never_dropped k : dropper (c_port (demo_at k)) = NotDropped.
Proof. by do 10 (destruct k as [|k]; [done|]). Qed.

Lemma demo_kernel_fair l : weakly_fair (kernel_posts 0x44 l) demo_at.
Proof. apply (execution_rests _ _ 9 demo_rest demo_at_rest). by intros (c' & _ & ?%elem_of_nil & _). Qed.

Lemma demo_thread_fair t : weakly_fair (thread_turn 0x44 t) demo_at.
Proof.
  apply (execution_rests _ _ 9 demo_rest demo_at_rest). intros (c' & Hs & Hne).
  inversion Hs as [| |p p' s hd Hp Hd Ht|q k ts d log s hd t' e es stop Hb|p s hd t' l Hl]; subst; cbn in *.
  - by destruct Hne.
  - by destruct Hne.
  - inversion Hp; subst; cbn in *; try (by destruct Hne); try lia;
      try match goal with Hi : [_] !! ?i = Some _ |- _ => by destruct i end.
  - by destruct t'.
  - done.
Qed.

Lemma demo_task_fair : weakly_fair (task_turn 0x44 O) demo_at.
Proof.
  apply (execution_rests _ _ 9 demo_rest demo_at_rest). intros (c' & Hs & o & o' & Ho & Ho' & Hne & _).
  assert (Hok : completion_ok 1 demo_rest).
  { rewrite <- (demo_at_rest 9) by lia. apply (reachable_completion_ok 0x44 ltac:(by vm_compute) 1 2).
    apply execution_reachable; [apply demo_at_execution|by apply reachable_init]. }
  destruct (op_step_of 0x44 ltac:(by vm_compute) 1 _ _ _ _ Hok Hs Ho) as (o1 & Ho1 & _ & Hg).
  rewrite Ho' in Ho1. injection Ho1 as <-. destruct Hg as [|Hlt]; [done|].
  assert (E : o_phase <$> ops (c_sys demo_rest) !! O = Some (Overlapped.Returned (Ok 120))) by reflexivity.
  rewrite Ho in E. injection E as E. rewrite E in Hlt. cbn in Hlt. lia.
Qed.

Lemma operation_ends_witness : exists k o, ops (c_sys (demo_at k)) !! O = Some o /\ refs o = O.
Proof.
  destruct (operation_ends 0x44 ltac:(by vm_compute) tt 1 2 demo_at 1 O
    (mkOpState demo_op Submitting true false None None) ltac:(lia) demo_at_execution eq_refl demo_never_dropped
    demo_kernel_fair demo_thread_fair demo_task_fair eq_refl) as (k & o & _ & Ho & Hr & _).
  exists k, o. split; [exact Ho|exact Hr].
Defined.
End witnesses.
