(* ===== verification/Response.v ===== *)
(** * Responses (crates/httpsys/src/response.rs)

    The [Response] builder and the raw structure handed to the kernel.  A pointer
    in the raw structure is the place it addresses: a string or the body of the
    borrowed response, the heap array of unknown headers, or the chunk that lies
    inside the raw structure itself, at the address the structure had when the
    pointer was taken.  [kernel_view] is what a reader of the structure finds. *)

From S2P Require Import Prelude RustStd HttpApi.

(** ** The response *)

Module status.
Definition OK : Z := 200.
Definition NO_CONTENT : Z := 204.
Definition BAD_REQUEST : Z := 400.
Definition NOT_FOUND : Z := 404.
Definition METHOD_NOT_ALLOWED : Z := 405.
Definition PAYLOAD_TOO_LARGE : Z := 413.
Definition HEADERS_TOO_LARGE : Z := 431.
Definition INTERNAL_SERVER_ERROR : Z := 500.
Definition SERVICE_UNAVAILABLE : Z := 503.
End status.

Record Response := mkResponse {
  r_status : Z;
  reason : str;
  content_type : option str;
  headers : list (str * str);
  body : bytes;
  cache_seconds : option Z;
}.

Definition reason_phrase (status : Z) : str :=
  lit match status with
  | 200 => "OK"
  | 201 => "Created"
  | 202 => "Accepted"
  | 204 => "No Content"
  | 301 => "Moved Permanently"
  | 302 => "Found"
  | 304 => "Not Modified"
  | 400 => "Bad Request"
  | 401 => "Unauthorized"
  | 403 => "Forbidden"
  | 404 => "Not Found"
  | 405 => "Method Not Allowed"
  | 409 => "Conflict"
  | 413 => "Content Too Large"
  | 429 => "Too Many Requests"
  | 431 => "Request Header Fields Too Large"
  | 500 => "Internal Server Error"
  | 501 => "Not Implemented"
  | 502 => "Bad Gateway"
  | 503 => "Service Unavailable"
  | 504 => "Gateway Timeout"
  | _ => "Unknown"
  end.

Definition response_new (status : Z) : Response :=
  mkResponse status (reason_phrase status) None [] [] None.
Definition response_default : Response := response_new status.OK.

Definition with_body (r : Response) (b : bytes) : Response :=
  mkResponse (r_status r) (reason r) (content_type r) (headers r) b (cache_seconds r).
Definition with_content_type (r : Response) (t : str) : Response :=
  mkResponse (r_status r) (reason r) (Some t) (headers r) (body r) (cache_seconds r).
Definition with_header (r : Response) (name value : str) : Response :=
  mkResponse (r_status r) (reason r) (content_type r) (headers r ++ [(name, value)]) (body r)
    (cache_seconds r).
Definition cache_in_kernel_for_secs (r : Response) (seconds : Z) : Response :=
  mkResponse (r_status r) (reason r) (content_type r) (headers r) (body r) (Some seconds).

Definition ok_json (b : bytes) : Response :=
  with_body (with_content_type (response_new status.OK) (lit "application/json")) b.
Definition ok_text (b : bytes) : Response :=
  with_body (with_content_type (response_new status.OK) (lit "text/plain; charset=utf-8")) b.

(** ** The raw structure *)

(** The number of known response headers. *)
Definition HttpHeaderResponseMaximum : nat := 30.

Inductive Place :=
  | ReasonOf
  | ContentTypeOf
  | NameOf (i : nat)
  | ValueOf (i : nat)
  | BodyOf
  (* the elements of the vector of unknown headers *)
  | UnknownVec
  (* the chunk of a raw response that lies at this address *)
  | ChunkAt (address : Z).

#[export] Instance Place_eq_dec : EqDecision Place.
Proof. solve_decision. Defined.

Record RawHeader := mkRawHeader { rh_length : Z; rh_value : option Place }.
Record HTTP_UNKNOWN_HEADER := mkUnknown {
  NameLength : Z;
  pName : Place;
  uh_RawValueLength : Z;
  uh_pRawValue : Place;
}.
Record HTTP_RESPONSE_V2 := mkResponseV2 {
  StatusCode : Z;
  ReasonLength : Z;
  pReason : option Place;
  ResponseKnownHeaders : list RawHeader;
  UnknownHeaderCount : Z;
  pUnknownHeaders : option Place;
  ResponseChunkCount : Z;
  pResponseChunks : option Place;
}.
(** The chunk: [pBuffer] and [BufferLength] of its [FromMemory] variant. *)
Record RawResponse := mkRaw {
  raw : HTTP_RESPONSE_V2;
  chunk : Place * Z;
  unknown : list HTTP_UNKNOWN_HEADER;
}.

Definition str_len (s : str) : Z := zlen (as_bytes s).

(** [Response::to_raw]. *)
Definition to_raw (r : Response) : RawResponse :=
  let known := replicate HttpHeaderResponseMaximum (mkRawHeader 0 None) in
  let known :=
    match content_type r with
    | Some t => <[HttpHeaderContentType := mkRawHeader (wrap16 (str_len t)) (Some ContentTypeOf)]> known
    | None => known
    end in
  mkRaw
    (mkResponseV2 (r_status r) (wrap16 (str_len (reason r))) (Some ReasonOf) known 0 None 0 None)
    (BodyOf, wrap32 (zlen (body r)))
    (imap (fun i '(name, value) =>
             mkUnknown (wrap16 (str_len name)) (NameOf i) (wrap16 (str_len value)) (ValueOf i))
       (headers r)).

(** [RawResponse::as_ptr] on a raw response that lies at [address]. *)
Definition as_ptr (address : Z) (w : RawResponse) : RawResponse :=
  let v := raw w in
  let v :=
    if 0 <? snd (chunk w) then
      mkResponseV2 (StatusCode v) (ReasonLength v) (pReason v) (ResponseKnownHeaders v)
        (UnknownHeaderCount v) (pUnknownHeaders v) 1 (Some (ChunkAt address))
    else v in
  let v :=
    if negb (zlen (unknown w) =? 0) then
      mkResponseV2 (StatusCode v) (ReasonLength v) (pReason v) (ResponseKnownHeaders v)
        (wrap16 (zlen (unknown w))) (Some UnknownVec) (ResponseChunkCount v) (pResponseChunks v)
    else v in
  mkRaw v (chunk w) (unknown w).

(** ** What a reader finds *)

Section view.
Context (r : Response).

(** The bytes at a place of the borrowed response. *)
Definition bytes_at (p : Place) : option bytes :=
  match p with
  | ReasonOf => Some (as_bytes (reason r))
  | ContentTypeOf => as_bytes <$> content_type r
  | NameOf i => (fun h => as_bytes (fst h)) <$> headers r !! i
  | ValueOf i => (fun h => as_bytes (snd h)) <$> headers r !! i
  | BodyOf => Some (body r)
  | UnknownVec | ChunkAt _ => None
  end.

(** [len] bytes from a place; [None] when the read leaves the object. *)
Definition read_at (p : Place) (len : Z) : option bytes :=
  match bytes_at p with
  | Some bs => if len <=? zlen bs then Some (ztake len bs) else None
  | None => None
  end.

Record View := mkView {
  v_status : Z;
  v_reason : bytes;
  v_content_type : option bytes;
  v_headers : list (bytes * bytes);
  v_body : bytes;
}.

Definition view_header (h : HTTP_UNKNOWN_HEADER) : option (bytes * bytes) :=
  n ← read_at (pName h) (NameLength h);
  v ← read_at (uh_pRawValue h) (uh_RawValueLength h);
  Some (n, v).

(** A reader of the raw response [w], now at [address]; [None] when it follows a
    dangling pointer or reads past an object. *)
Definition kernel_view (address : Z) (w : RawResponse) : option View :=
  let v := raw w in
  p ← pReason v;
  reason ← read_at p (ReasonLength v);
  h ← ResponseKnownHeaders v !! HttpHeaderContentType;
  ct ← match rh_value h with
       | Some p => if rh_length h =? 0 then Some None else Some <$> read_at p (rh_length h)
       | None => Some None
       end;
  hs ← match pUnknownHeaders v with
       | Some UnknownVec => mapM view_header (ztake (UnknownHeaderCount v) (unknown w))
       | Some _ => None
       | None => Some []
       end;
  b ← if ResponseChunkCount v =? 0 then Some []
      else match pResponseChunks v with
           | Some (ChunkAt a) =>
               if a =? address then read_at (fst (chunk w)) (snd (chunk w)) else None
           | _ => None
           end;
  Some (mkView (StatusCode v) reason ct hs b).

(** A string as the kernel gets it: its length is kept in sixteen bits. *)
Definition cut16 (s : str) : bytes := ztake (wrap16 (str_len s)) (as_bytes s).
End view.

(** ** Facts *)

Lemma wrap_le w z : 0 <= w -> 0 <= z -> 0 <= wrap w z <= z.
Proof.
  intros Hw Hz. pose proof (wrap_lt w z Hw). unfold wrap in *.
  pose proof (Z.mod_le z (2 ^ w) Hz ltac:(lia)). lia.
Qed.

Lemma str_len_nonneg s : 0 <= str_len s.
Proof. apply zlen_nonneg. Qed.

Lemma read_at_wrap r p bs w n :
  0 <= w -> bytes_at r p = Some bs -> n = zlen bs ->
  read_at r p (wrap w n) = Some (ztake (wrap w n) bs).
Proof.
  intros Hw Hp ->. unfold read_at. rewrite Hp.
  pose proof (wrap_le w (zlen bs) Hw (zlen_nonneg bs)).
  by rewrite (proj2 (Z.leb_le _ _)) by lia.
Qed.

Lemma cut16_exact s : str_len s < 2 ^ 16 -> cut16 s = as_bytes s.
Proof.
  intros Hs. unfold cut16. rewrite wrap_small by (split; [apply str_len_nonneg|done]).
  by apply ztake_all.
Qed.

Lemma view_headers r n :
  mapM (view_header r) (ztake n (unknown (to_raw r))) =
    Some (ztake n (map (fun '(name, value) => (cut16 name, cut16 value)) (headers r))).
Proof.
  apply mapM_Some_2, Forall2_take, Forall2_lookup. intros i. cbn.
  rewrite list_lookup_imap. change (map ?f ?l) with (f <$> l). rewrite list_lookup_fmap.
  destruct (headers r !! i) as [[name value]|] eqn:Hi; cbn; constructor.
  unfold view_header. cbn.
  rewrite (read_at_wrap r (NameOf i) (as_bytes name)) by (cbn; rewrite ?Hi; done || lia). cbn.
  by rewrite (read_at_wrap r (ValueOf i) (as_bytes value)) by (cbn; rewrite ?Hi; done || lia).
Qed.

(** What [as_ptr] leaves and what it links. *)
Lemma as_ptr_status a w : StatusCode (raw (as_ptr a w)) = StatusCode (raw w).
Proof. unfold as_ptr. by do 2 case_match. Qed.
Lemma as_ptr_reason a w :
  pReason (raw (as_ptr a w)) = pReason (raw w) /\
  ReasonLength (raw (as_ptr a w)) = ReasonLength (raw w).
Proof. unfold as_ptr. by do 2 case_match. Qed.
Lemma as_ptr_known a w :
  ResponseKnownHeaders (raw (as_ptr a w)) = ResponseKnownHeaders (raw w).
Proof. unfold as_ptr. by do 2 case_match. Qed.

Lemma as_ptr_chunks a w :
  ResponseChunkCount (raw (as_ptr a w)) =
    (if 0 <? snd (chunk w) then 1 else ResponseChunkCount (raw w)) /\
  pResponseChunks (raw (as_ptr a w)) =
    (if 0 <? snd (chunk w) then Some (ChunkAt a) else pResponseChunks (raw w)).
Proof. unfold as_ptr. by do 2 case_match. Qed.

Lemma to_raw_content_type r :
  ResponseKnownHeaders (raw (to_raw r)) !! HttpHeaderContentType =
    Some (match content_type r with
          | Some t => mkRawHeader (wrap16 (str_len t)) (Some ContentTypeOf)
          | None => mkRawHeader 0 None
          end).
Proof. cbn. by destruct (content_type r). Qed.

Lemma view_unknown r a :
  match pUnknownHeaders (raw (as_ptr a (to_raw r))) with
  | Some UnknownVec =>
      mapM (view_header r)
        (ztake (UnknownHeaderCount (raw (as_ptr a (to_raw r)))) (unknown (as_ptr a (to_raw r))))
  | Some _ => None
  | None => Some []
  end =
    Some (ztake (wrap16 (zlen (headers r)))
      (map (fun '(name, value) => (cut16 name, cut16 value)) (headers r))).
Proof.
  assert (Hu : zlen (unknown (to_raw r)) = zlen (headers r))
    by (unfold zlen; cbn; by rewrite length_imap).
  rewrite <- Hu, <- view_headers. unfold as_ptr.
  destruct (Z.eqb_spec (zlen (unknown (to_raw r))) 0) as [E|E];
    [apply zlen_0_nil in E; rewrite E|]; destruct (0 <? (chunk (to_raw r)).2); reflexivity.
Qed.

Lemma view_chunk r a :
  (if ResponseChunkCount (raw (as_ptr a (to_raw r))) =? 0 then Some []
   else match pResponseChunks (raw (as_ptr a (to_raw r))) with
        | Some (ChunkAt a') =>
            if a' =? a then
              read_at r (fst (chunk (as_ptr a (to_raw r)))) (snd (chunk (as_ptr a (to_raw r))))
            else None
        | _ => None
        end) = Some (ztake (wrap32 (zlen (body r))) (body r)).
Proof.
  pose proof (wrap_lt 32 (zlen (body r)) ltac:(lia)) as Hb.
  change (chunk (as_ptr a (to_raw r))) with (BodyOf, wrap32 (zlen (body r))).
  destruct (as_ptr_chunks a (to_raw r)) as [-> ->]. change (snd (chunk (to_raw r))) with
    (wrap32 (zlen (body r))). cbn [fst snd].
  destruct (Z.ltb_spec 0 (wrap32 (zlen (body r)))) as [Hp|Hp]; cbn [Z.eqb].
  - rewrite Z.eqb_refl. by apply read_at_wrap.
  - by replace (wrap32 (zlen (body r))) with 0 by lia.
Qed.

(** What the kernel gets of a response: each part cut to its field. *)
Definition cut_view (r : Response) : View :=
  mkView (r_status r) (cut16 (reason r))
    (match content_type r with
     | Some t => if wrap16 (str_len t) =? 0 then None else Some (cut16 t)
     | None => None
     end)
    (ztake (wrap16 (zlen (headers r)))
       (map (fun '(name, value) => (cut16 name, cut16 value)) (headers r)))
    (ztake (wrap32 (zlen (body r))) (body r)).

Lemma kernel_view_cut r address :
  kernel_view r address (as_ptr address (to_raw r)) = Some (cut_view r).
Proof.
  unfold kernel_view, cut_view. destruct (as_ptr_reason address (to_raw r)) as [-> ->].
  rewrite as_ptr_status, as_ptr_known.
  change (pReason (raw (to_raw r))) with (Some ReasonOf).
  change (ReasonLength (raw (to_raw r))) with (wrap16 (str_len (reason r))). cbn [base.mbind option_bind].
  rewrite (read_at_wrap r ReasonOf (as_bytes (reason r))) by (done || lia). cbn [base.mbind option_bind].
  rewrite to_raw_content_type, view_unknown, view_chunk.
  destruct (content_type r) as [t|] eqn:Ht; cbn [base.mbind option_bind rh_value rh_length]; [|done].
  destruct (wrap16 (str_len t) =? 0); [done|].
  by rewrite (read_at_wrap r ContentTypeOf (as_bytes t)) by (cbn; rewrite ?Ht; done || lia).
Qed.

(** C24. What the kernel gets, for every response.  Reading the raw structure at the
    address [as_ptr] was called on never leaves an object or follows a dangling
    pointer, and gives: the status; the reason, content type, header names and
    header values cut to their length modulo 2^16; the first [n mod 2^16] of [n]
    added headers, in the order they were added; and the first [n mod 2^32] bytes
    of a body of [n].  A content type of cut length 0 is not sent. *)
Theorem kernel_view_spec r address :
  kernel_view r address (as_ptr address (to_raw r)) =
    Some (mkView (r_status r) (cut16 (reason r))
      (match content_type r with
       | Some t => if wrap16 (str_len t) =? 0 then None else Some (cut16 t)
       | None => None
       end)
      (ztake (wrap16 (zlen (headers r)))
         (map (fun '(name, value) => (cut16 name, cut16 value)) (headers r)))
      (ztake (wrap32 (zlen (body r))) (body r))).
Proof. apply kernel_view_cut. Qed.

(** The strings and counts of a response all fit the kernel's fields. *)
Definition fits (r : Response) : Prop :=
  str_len (reason r) < 2 ^ 16 /\
  (forall t, content_type r = Some t -> 0 < str_len t < 2 ^ 16) /\
  Forall (fun '(name, value) => str_len name < 2 ^ 16 /\ str_len value < 2 ^ 16) (headers r) /\
  zlen (headers r) < 2 ^ 16 /\ zlen (body r) < 2 ^ 32.

Lemma reason_phrase_fits st : str_len (reason_phrase st) < 2 ^ 16.
Proof. unfold reason_phrase. repeat case_match; vm_compute; reflexivity. Qed.

Lemma cut_view_fits r :
  fits r ->
  cut_view r = mkView (r_status r) (as_bytes (reason r)) (as_bytes <$> content_type r)
    (map (fun '(name, value) => (as_bytes name, as_bytes value)) (headers r)) (body r).
Proof.
  intros (Hr & Hct & Hh & Hn & Hb). unfold cut_view. rewrite cut16_exact by done.
  rewrite (wrap_small 16) by (split; [apply zlen_nonneg|done]).
  rewrite (wrap_small 32) by (split; [apply zlen_nonneg|done]).
  rewrite !ztake_all by (unfold zlen; rewrite ?length_map; lia).
  f_equal.
  - destruct (content_type r) as [t|]; [|done]. specialize (Hct t eq_refl).
    rewrite wrap_small by (split; [apply str_len_nonneg|lia]).
    destruct (Z.eqb_spec (str_len t) 0); [lia|]. cbn. by rewrite cut16_exact by lia.
  - clear -Hh. induction Hh as [|[name value] l [H1 H2] Hl IH]; [done|]. cbn.
    by rewrite IH, !cut16_exact.
Qed.

(** A response whose strings and counts fit their fields reaches the kernel
    byte for byte: status, reason, content type, every header in order, and the
    whole body. *)
Theorem kernel_view_exact r address :
  fits r ->
  kernel_view r address (as_ptr address (to_raw r)) =
    Some (mkView (r_status r) (as_bytes (reason r)) (as_bytes <$> content_type r)
      (map (fun '(name, value) => (as_bytes name, as_bytes value)) (headers r)) (body r)).
Proof. intros Hf. by rewrite kernel_view_cut, cut_view_fits. Qed.

Lemma bind_None_all {A B} (m : option A) (f : A -> option B) :
  (forall x, f x = None) -> m ≫= f = None.
Proof. intros Hf. destruct m; [apply Hf|done]. Qed.

(** The raw response links to its own chunk: moved to another address after
    [as_ptr], its body pointer dangles, unless no chunk was linked (a body of
    length 0 modulo 2^32), in which case the move changes nothing. *)
Theorem kernel_view_moved r address address' :
  address <> address' ->
  kernel_view r address' (as_ptr address (to_raw r)) =
    if wrap32 (zlen (body r)) =? 0
    then kernel_view r address (as_ptr address (to_raw r))
    else None.
Proof.
  intros Hne. unfold kernel_view.
  change (chunk (as_ptr address (to_raw r))) with (BodyOf, wrap32 (zlen (body r))).
  destruct (as_ptr_chunks address (to_raw r)) as [-> ->].
  change (snd (chunk (to_raw r))) with (wrap32 (zlen (body r))).
  pose proof (wrap_lt 32 (zlen (body r)) ltac:(lia)) as Hb.
  destruct (Z.eqb_spec (wrap32 (zlen (body r))) 0) as [Hz|Hz].
  - rewrite Hz. reflexivity.
  - rewrite (proj2 (Z.ltb_lt _ _)), (proj2 (Z.eqb_neq address address')) by lia. cbn [Z.eqb].
    do 5 (apply bind_None_all; intros). reflexivity.
Qed.

Section response_witnesses.
Definition demo_response : Response :=
  with_header (ok_text (lit "hello")) (lit "X-Trace") (lit "abc").

Lemma demo_fits : fits demo_response.
Proof.
  split; [reflexivity|]. split; [intros t [= <-]; vm_compute; split; congruence|].
  split; [repeat constructor|]. split; reflexivity.
Qed.
End response_witnesses.

Lemma kernel_view_exact_witness :
  kernel_view demo_response 64 (as_ptr 64 (to_raw demo_response)) =
    Some (mkView 200 (lit "OK") (Some (lit "text/plain; charset=utf-8"))
      [(lit "X-Trace", lit "abc")] (lit "hello")).
Proof. rewrite (kernel_view_exact _ 64 demo_fits). reflexivity. Defined.

Lemma kernel_view_moved_witness :
  kernel_view demo_response 128 (as_ptr 64 (to_raw demo_response)) = None.
Proof. rewrite (kernel_view_moved demo_response 64 128); [reflexivity|lia]. Defined.
