(* ===== verification/Queue.v ===== *)
(** * The request queue (crates/httpsys/src/queue.rs)

    Creation and drop of a queue as calls to the operating system, and the four
    asynchronous operations as stateful functions over a [World]: the kernel
    behind the [HttpSys] interface, the heap of operation wraps of [Overlapped],
    and the pool of body buffers.  An operation is run to its end; that this is
    one of its interleavings is [Overlapped.submit_and_finish_refines]. *)

From S2P Require Import Prelude RustStd Errors Crates HttpApi Buffer Overlapped Iocp Response.
Set Warnings "-clear-no-such-hyp".

Definition ERROR_HANDLE_EOF : Z := 38.
Definition ERROR_MORE_DATA : Z := 234.
Definition HTTP_RECEIVE_REQUEST_ENTITY_BODY_FLAG_FILL_BUFFER : Z := 1.

(** ** Creation and drop *)

Inductive QueueCall :=
  | CreateRequestQueue
  | CloseRequestQueue (handle : Z)
  | SetQueueLength (handle requests : Z)
  | Io (c : IoCall).

Record RequestQueue := mkQueue {
  q_handle : Z;
  q_io : IoPort;
  q_skip_on_success : bool;
  (* [OpPool::new]'s argument *)
  q_ops : Z;
}.

(** What the operating system answers to [RequestQueue::new]. *)
Record NewAnswers := mkNewAnswers {
  an_create : Z;
  an_handle : Z;
  an_port : Result Z Z;
  an_spawn : nat -> Result (option Z) unit;
  an_attach : Result Z Z;
  an_modes : Result Z unit;
}.

Definition queue_new (io_threads concurrency : Z) (an : NewAnswers) :
    list QueueCall * result RequestQueue :=
  match check (an_create an) with
  | Err e => ([CreateRequestQueue], Err e)
  | Ok _ =>
      let '(calls, io) := ioport_new io_threads (an_port an) (an_spawn an) in
      let calls := CreateRequestQueue :: map Io calls in
      match io with
      | Err e => (calls, Err e)
      | Ok io =>
          let '(more, skip) := associate io (an_handle an) (an_attach an) (an_modes an) in
          let calls := calls ++ map Io more in
          match skip with
          | Err e =>
              (calls ++ CloseRequestQueue (an_handle an) :: map Io (ioport_drop io), Err e)
          | Ok skip =>
              (calls, Ok (mkQueue (an_handle an) io skip (wrap64 (concurrency * 2))))
          end
      end
  end.

(** [Drop for RequestQueue], then the drop of its fields. *)
Definition queue_drop (q : RequestQueue) : list QueueCall :=
  CloseRequestQueue (q_handle q) :: map Io (ioport_drop (q_io q)).

(** [set_queue_length]; [ec] is the kernel's answer. *)
Definition set_queue_length (q : RequestQueue) (requests ec : Z) : list QueueCall * result unit :=
  ([SetQueueLength (q_handle q) requests], check ec).

(** ** The world of a running queue *)

Section queue.
Context `{ArrayQueue Q} `{AtomicWaker W AW} `{HttpSys K (option View)}.

Record World := mkWorld {
  w_kern : K;
  w_heap : Heap Q AW;
  w_bodies : BodyPool Q;
}.

(** Submit one overlapped call and finish it.  [call] hands the kernel its
    arguments; what it wrote in the caller's memory comes back beside the
    answer, and beside the byte count as it was when the call returned. *)
Definition submit {A} (skip : bool) (call : K -> (IoAnswer * A) * K) :
    M World (result Z * Z * Z * A) :=
  fun w =>
    let '(op, h) := op_new skip (w_heap w) in
    let '((a, out), k) := call (w_kern w) in
    let h := kernel_write (leaked op) (io_scribble a) (io_reported a) h in
    let reported := reported_bytes op h in
    let '(r, h) := op_finish op a h in
    ((r, io_ec a, reported, out), mkWorld k h (w_bodies w)).

(** ** Receive *)

Record ReceiveMode := mkMode { copy_body : bool }.
Definition receive_mode_default : ReceiveMode := mkMode true.

(** [size_of::<HTTP_REQUEST_V2>()], whether the queue is in skip-on-success
    mode, and the address of the future that holds a raw response. *)
Context (size_of_request : Z) (skip : bool) (address : Z).

(** [receive_once]: the buffer and [needed] are passed in and out. *)
Definition receive_once (b : RequestBuffer) (request_id flags needed : Z) :
    M World (result unit * RequestBuffer * Z) :=
  let capacity := capacity b in
  let target := prepare b in
  let! (r, ec, reported, (hdr, m)) :=
    submit skip (fun k =>
      HttpReceiveHttpRequest k request_id flags capacity (header target, mem target)) in
  let needed := if ec =? ERROR_MORE_DATA then reported else needed in
  mret (result_map (fun _ => tt) r, mkBuffer (words target) hdr m, needed).

(** [receive]; [pool] is the pool the buffer belongs to. *)
Definition receive (pool : BufferPool Q) (b : RequestBuffer) (mode : ReceiveMode) :
    M World (result unit * RequestBuffer * ReceiveMode) :=
  let second b request_id needed mode :=
    let! (r, b, needed) := receive_once b request_id 0 needed in
    mret match r with
         | Err (Win32 code) =>
             if code =? ERROR_MORE_DATA then (Err (HeadersTooLarge needed), b, mode)
             else (r, b, mode)
         | Err _ => (r, b, mode)
         | Ok _ =>
             let '(fits, b) := fit_body_inline size_of_request pool b in
             (Ok tt, b, mkMode fits)
         end in
  if copy_body mode then
    let! (r, b, needed) := receive_once b 0 HTTP_RECEIVE_REQUEST_FLAG_COPY_BODY 0 in
    match r with
    | Err (Win32 code) =>
        if code =? ERROR_MORE_DATA then second b (buffer_request_id b) needed (mkMode false)
        else mret (r, b, mode)
    | _ => mret (r, b, mode)
    end
  else second b 0 0 mode.

(** ** Entity body, response, shutdown *)

(** [read_entity_body] into a slice of [len] bytes; the bytes the kernel wrote at
    its front come back beside the result. *)
Definition read_entity_body (request_id len : Z) : M World (result (option Z) * list Z) :=
  if len =? 0 then mret (Ok (Some 0), [])
  else
    let! (r, _, _, data) :=
      submit skip (fun k => HttpReceiveRequestEntityBody k request_id (wrap32 len)) in
    mret (match r with
          | Ok read => Ok (Some read)
          | Err (Win32 code) => if code =? ERROR_HANDLE_EOF then Ok None else Err (Win32 code)
          | Err e => Err e
          end, data).

(** [send_response]: what the kernel finds through the pointer, and the policy. *)
Definition send_response (request_id : Z) (r : Response) : M World (result Z) :=
  let linked := as_ptr address (to_raw r) in
  let cache := mkPolicy <$> cache_seconds r in
  let! (res, _, _, _) :=
    submit skip (fun k =>
      let '(a, k) := HttpSendHttpResponse k request_id (kernel_view r address linked) cache in
      ((a, tt), k)) in
  mret res.

(** [shutdown]. *)
Definition shutdown : M World (result unit) :=
  fun w =>
    let '(ec, k) := HttpShutdownRequestQueue (w_kern w) in
    (check ec, mkWorld k (w_heap w) (w_bodies w)).
End queue.

Arguments World Q AW K : clear implicits.

(** ** Creation: which handles are left *)

(** [RequestQueue::new] on every branch.  When it succeeds it owns the queue
    handle, a port with [max(io_threads, 1)] threads, and two wraps per slot.
    When the handle cannot be associated, the queue is closed and the port torn
    down.  When the port itself cannot be made the queue handle is not closed by
    anybody: the only calls are its creation and those of [IoPort::new]. *)
Theorem queue_new_spec io_threads concurrency an :
  let n := Z.to_nat (Z.max io_threads 1) in
  let '(calls, r) := queue_new io_threads concurrency an in
  match r with
  | Ok q =>
      an_create an = 0 /\ q_handle q = an_handle an /\
      port_threads (q_io q) = n /\ an_port an = Ok (port (q_io q)) /\
      q_skip_on_success q = is_ok (an_modes an) /\ q_ops q = wrap64 (concurrency * 2) /\
      CloseRequestQueue (an_handle an) ∉ calls
  | Err e =>
      (* nothing was created *)
      (an_create an <> 0 /\ calls = [CreateRequestQueue] /\ e = Win32 (an_create an)) \/
      (* no port: the queue handle is leaked *)
      (an_create an = 0 /\ (ioport_new io_threads (an_port an) (an_spawn an)).2 = Err e /\
       CloseRequestQueue (an_handle an) ∉ calls) \/
      (* not associated: everything is released, the queue first *)
      (exists h before, an_create an = 0 /\ an_port an = Ok h /\
       (exists hr, an_attach an = Err hr /\ e = from_windows_error hr) /\
       calls = before ++
         [CloseRequestQueue (an_handle an)] ++
         map Io (replicate n PostSentinel ++ map JoinThread (seq 0 n) ++ [ClosePort h]))
  end.
Proof.
  cbn zeta. unfold queue_new, check.
  destruct (Z.eqb_spec (an_create an) 0) as [Hc|Hc]; [|by left].
  assert (Hio : forall l, CloseRequestQueue (an_handle an) ∉ CreateRequestQueue :: map Io l).
  { intros l [|Hl]%elem_of_cons; [done|]. change (map Io l) with (Io <$> l) in Hl.
    by apply list_elem_of_fmap in Hl as (? & ? & _). }
  destruct (ioport_new io_threads (an_port an) (an_spawn an)) as [calls [io|e]] eqn:Hnew;
    [|by right; left].
  apply ioport_new_ok in Hnew as (h & -> & ->).
  unfold associate. destruct (an_attach an) as [x|hr] eqn:Ha; cbn [app].
  - repeat (split; [done|]). rewrite <- map_app. apply Hio.
  - right. right. exists h. eexists. split; [done|]. split; [done|]. split; [by exists hr|].
    rewrite app_comm_cons, <- map_app. reflexivity.
Qed.

(** ** The asynchronous operations *)

Section queue_facts.
Context `{ArrayQueueLaws Q} `{AtomicWaker W AW} `{HttpSys K (option View)}.
Context (cx : W) (size_of_request : Z) (skip : bool) (address : Z).
Implicit Types (w : World Q AW K) (k : K).

(** A run from [w] yields [x] and leaves the kernel in [k], no operation in
    flight, every operation wrap back in its pool, and the body pool alone. *)
Definition runs_to {A} (m : M (World Q AW K) A) w (x : A) k : Prop :=
  exists h, m w = (x, mkWorld k h (w_bodies w)) /\ quiescent h.

Lemma runs_ret {A} (x : A) w : quiescent (w_heap w) -> runs_to (mret x) w x (w_kern w).
Proof. intros Hq. exists (w_heap w). destruct w. auto. Qed.

Lemma runs_bind {A B} (m : M (World Q AW K) A) (f : A -> M (World Q AW K) B) w x k y k' :
  runs_to m w x k ->
  (forall h, quiescent h -> runs_to (f x) (mkWorld k h (w_bodies w)) y k') ->
  runs_to (mbind m f) w y k'.
Proof.
  intros (h & Hm & Hh) Hf. destruct (Hf h Hh) as (h' & Hf' & Hh').
  exists h'. unfold mbind. by rewrite Hm.
Qed.

Lemma runs_submit {A} (call : K -> (IoAnswer * A) * K) w a out k :
  quiescent (w_heap w) -> call (w_kern w) = ((a, out), k) ->
  runs_to (submit skip call) w (io_result skip a, io_ec a, io_reported a, out) k.
Proof.
  intros Hq Hcall. unfold runs_to, submit. rewrite Hcall.
  pose proof (submit_and_finish_spec cx (w_heap w) skip a Hq) as [Hr Hq'].
  unfold submit_and_finish in Hr, Hq'.
  destruct (op_new skip (w_heap w)) as [op h] eqn:Hnew.
  rewrite (reported_bytes_written _ _ _ _ _ _ Hq Hnew).
  destruct (op_finish op a _) as [r h'] eqn:Hf. cbn in Hr, Hq'. subst r. eauto.
Qed.

(** The kernel's side of one receive: its answer, the buffer as it left it, and
    its next state. *)
Definition attempt k b (request_id flags : Z) : IoAnswer * RequestBuffer * K :=
  let '((a, (hdr, m)), k) :=
    HttpReceiveHttpRequest k request_id flags (capacity b) (zero_request, mem b) in
  (a, mkBuffer (words b) hdr m, k).

Definition needed_after (a : IoAnswer) (needed : Z) : Z :=
  if io_ec a =? ERROR_MORE_DATA then io_reported a else needed.

Lemma runs_receive_once w b request_id flags needed a b' k :
  quiescent (w_heap w) -> attempt (w_kern w) b request_id flags = (a, b', k) ->
  runs_to (receive_once skip b request_id flags needed) w
    (result_map (fun _ => tt) (io_result skip a), b', needed_after a needed) k.
Proof.
  intros Hq Ha. unfold attempt in Ha. unfold receive_once.
  destruct (HttpReceiveHttpRequest _ _ _ _ _) as [[a0 [hdr m]] k0] eqn:Hcall.
  injection Ha as -> <- ->.
  eapply runs_bind; [by eapply runs_submit|]. intros h Hh. cbn beta iota.
  by apply (runs_ret (_, _, _) (mkWorld k h (w_bodies w))).
Qed.

Definition more_data (a : IoAnswer) : bool := bool_decide (io_result skip a = Err (Win32 ERROR_MORE_DATA)).

(** How [receive] ends after its last attempt. *)
Definition conclude (pool : BufferPool Q) (a : IoAnswer) b needed mode :
    result unit * RequestBuffer * ReceiveMode :=
  match io_result skip a with
  | Ok _ => (Ok tt, (fit_body_inline size_of_request pool b).2,
             mkMode (fit_body_inline size_of_request pool b).1)
  | Err e =>
      ((if more_data a then Err (HeadersTooLarge needed) else Err e), b, mode)
  end.

(** [receive] as a function of the kernel's answers. *)
Definition receive_spec (pool : BufferPool Q) b mode k :
    (result unit * RequestBuffer * ReceiveMode) * K :=
  let second b request_id needed mode k :=
    let '(a, b, k) := attempt k b request_id 0 in
    (conclude pool a b (needed_after a needed) mode, k) in
  if copy_body mode then
    let '(a, b, k) := attempt k b 0 HTTP_RECEIVE_REQUEST_FLAG_COPY_BODY in
    if more_data a then second b (RequestId (header b)) (needed_after a 0) (mkMode false) k
    else ((result_map (fun _ => tt) (io_result skip a), b, mode), k)
  else second b 0 0 mode k.

Lemma io_result_cases a :
  (exists n, io_result skip a = Ok n) \/ (exists c, io_result skip a = Err (Win32 c)).
Proof. unfold io_result. repeat case_match; eauto. Qed.

Lemma runs_receive w pool b mode :
  quiescent (w_heap w) ->
  let '(x, k) := receive_spec pool b mode (w_kern w) in
  runs_to (receive size_of_request skip pool b mode) w x k.
Proof.
  intros Hq. unfold receive_spec, receive.
  assert (Hsecond : forall w b id needed mode, quiescent (w_heap w) ->
    let '(a, b', k) := attempt (w_kern w) b id 0 in
    runs_to
      (let! (r, b, needed) := receive_once skip b id 0 needed in
       mret match r with
            | Err (Win32 code) =>
                if code =? ERROR_MORE_DATA then (Err (HeadersTooLarge needed), b, mode)
                else (r, b, mode)
            | Err _ => (r, b, mode)
            | Ok _ =>
                let '(fits, b) := fit_body_inline size_of_request pool b in
                (Ok tt, b, mkMode fits)
            end) w (conclude pool a b' (needed_after a needed) mode) k).
  { clear w b mode Hq. intros w b id needed mode Hq.
    destruct (attempt (w_kern w) b id 0) as [[a b'] k] eqn:Ha.
    eapply runs_bind; [by apply runs_receive_once|]. intros h Hh. cbn beta iota.
    match goal with |- runs_to (mret ?x) _ ?y _ => enough (x = y) as -> by by apply runs_ret end.
    unfold conclude, more_data.
    destruct (io_result_cases a) as [[n ->]|[c ->]]; cbn.
    - by destruct (fit_body_inline _ pool b').
    - destruct (Z.eqb_spec c ERROR_MORE_DATA) as [->|]; case_bool_decide; congruence. }
  destruct (copy_body mode).
  - destruct (attempt (w_kern w) b 0 _) as [[a b'] k] eqn:Ha.
    pose proof (runs_receive_once w b 0 _ 0 a b' k Hq Ha) as Hfirst. unfold more_data.
    destruct (io_result_cases a) as [[n Hn]|[c Hn]]; rewrite Hn in *; cbn in Hfirst |- *.
    + case_bool_decide; [done|]. eapply runs_bind; [exact Hfirst|]. intros h Hh. by apply runs_ret.
    + destruct (Z.eqb_spec c ERROR_MORE_DATA) as [->|Hc].
      * rewrite bool_decide_eq_true_2 by done.
        destruct (attempt k b' (RequestId (header b')) 0) as [[a2 b2] k2] eqn:Ha2.
        eapply runs_bind; [exact Hfirst|]. intros h Hh. cbn beta iota. rewrite Z.eqb_refl.
        specialize (Hsecond (mkWorld k h (w_bodies w)) b' (RequestId (header b'))
          (needed_after a 0) (mkMode false) Hh). cbn [w_kern] in Hsecond.
        by rewrite Ha2 in Hsecond.
      * rewrite bool_decide_eq_false_2 by congruence.
        eapply runs_bind; [exact Hfirst|]. intros h Hh. cbn beta iota.
        rewrite (proj2 (Z.eqb_neq _ _) Hc). by apply runs_ret.
  - specialize (Hsecond w b 0 0 mode Hq).
    by destruct (attempt (w_kern w) b 0 0) as [[a b'] k].
Qed.

(** C10. The refinement of [receive]: through the heap of wraps, the completion
    machinery and the early returns, what it computes is [receive_spec] of the
    kernel's answers: which calls are made and in which order, with which
    request id, flags and buffer length, and what each outcome leaves in the
    buffer and the mode.  No reference to an operation is left behind. *)
Theorem receive_refines w pool b mode :
  quiescent (w_heap w) ->
  let '(x, k) := receive_spec pool b mode (w_kern w) in
  runs_to (receive size_of_request skip pool b mode) w x k.
Proof. apply runs_receive. Qed.

(** The headers-only call of a receive: made at once in headers-only mode, and
    after a copying call that ran out of room, then for that request. *)
Definition headers_only_call mode b k : option (RequestBuffer * Z * K) :=
  if copy_body mode then
    let '(a, b, k) := attempt k b 0 HTTP_RECEIVE_REQUEST_FLAG_COPY_BODY in
    if more_data a then Some (b, RequestId (header b), k) else None
  else Some (b, 0, k).

(** The byte count known before the headers-only call. *)
Definition needed_before mode b k : Z :=
  if copy_body mode then
    needed_after (attempt k b 0 HTTP_RECEIVE_REQUEST_FLAG_COPY_BODY).1.1 0
  else 0.

Lemma runs_headers_only w pool b mode b1 id k1 a b2 k2 :
  quiescent (w_heap w) ->
  headers_only_call mode b (w_kern w) = Some (b1, id, k1) ->
  attempt k1 b1 id 0 = (a, b2, k2) ->
  runs_to (receive size_of_request skip pool b mode) w
    (conclude pool a b2 (needed_after a (needed_before mode b (w_kern w))) (mkMode false)) k2.
Proof.
  intros Hq Hcall Ha. pose proof (runs_receive w pool b mode Hq) as Hr.
  unfold receive_spec, headers_only_call, needed_before in *. destruct mode as [[]]; cbn in *.
  - destruct (attempt (w_kern w) b 0 _) as [[a1 b1'] k1'].
    destruct (more_data a1); [|done]. simplify_eq. by rewrite Ha in Hr.
  - simplify_eq. by rewrite Ha in Hr.
Qed.

(** C23. A headers-only receive that the kernel satisfies, on every branch.  The
    request stays in the buffer, exactly as the kernel wrote it, when it declares
    no body, or one that already fits beside its headers, or one beyond the
    maximum; the mode then says whether the next request should be copied.  When
    the body is within the maximum and the buffer is too small for it, [receive]
    still answers [Ok(())] but the buffer is a new one: its request id and URL
    context are 0 and none of the request is left. *)
Theorem receive_headers_only w pool b mode b1 id k1 a b2 k2 n :
  quiescent (w_heap w) -> 0 <= bp_max_bytes pool < 2 ^ 64 - 1 ->
  headers_only_call mode b (w_kern w) = Some (b1, id, k1) ->
  attempt k1 b1 id 0 = (a, b2, k2) -> io_result skip a = Ok n ->
  let run := runs_to (receive size_of_request skip pool b mode) w in
  match declared_body_len b2 with
  | None => run (Ok tt, b2, mkMode true) k2
  | Some d =>
      if bp_max_bytes pool <? d + HEADER_SLACK then run (Ok tt, b2, mkMode false) k2
      else if d + HEADER_SLACK <=? capacity b2 then run (Ok tt, b2, mkMode true) k2
      else exists b3, run (Ok tt, b3, mkMode true) k2 /\
             buffer_request_id b3 = 0 /\ UrlContext (header b3) = 0 /\
             header b3 = zero_request /\ mem b3 = ∅
  end.
Proof.
  intros Hq Hmax Hcall Ha Hn. cbn zeta.
  pose proof (runs_headers_only w pool b mode b1 id k1 a b2 k2 Hq Hcall Ha) as Hr.
  unfold conclude in Hr. rewrite Hn in Hr.
  destruct (declared_body_len b2) as [d|] eqn:Hd.
  - pose proof (declared_body_len_in_u _ _ Hd) as Hu. unfold in_u in Hu.
    unfold fit_body_inline in Hr. rewrite Hd in Hr.
    unfold saturating_add, umax, HEADER_SLACK in *.
    destruct (Z.ltb_spec (bp_max_bytes pool) (d + 8 * 1024)) as [Hlt|Hge].
    + rewrite (proj2 (Z.ltb_lt _ _)) in Hr by lia. done.
    + rewrite Z.min_l, (proj2 (Z.ltb_ge _ _)) in Hr by lia. cbn [fst snd] in Hr.
      destruct (grow_to_cases size_of_request b2 (d + 8 * 1024)) as [[Hc E]|(Hc & Hh & Hm)].
      * rewrite E in Hr. by rewrite (proj2 (Z.leb_le _ _)) by lia.
      * rewrite (proj2 (Z.leb_gt _ _)) by lia. eexists. split; [exact Hr|].
        unfold buffer_request_id. by rewrite Hh.
  - unfold fit_body_inline in Hr. by rewrite Hd in Hr.
Qed.

(** [HeadersTooLarge] reports the byte count of a call that failed at once.  When
    the kernel pends the headers-only receive and reports the shortage through
    the completion packet, as it does for a request that arrives later, the count
    is the one of the copying call before it, and 0 if there was none. *)
Theorem headers_too_large_needed w pool b mode b1 id k1 a b2 k2 :
  quiescent (w_heap w) ->
  headers_only_call mode b (w_kern w) = Some (b1, id, k1) ->
  attempt k1 b1 id 0 = (a, b2, k2) -> io_result skip a = Err (Win32 ERROR_MORE_DATA) ->
  runs_to (receive size_of_request skip pool b mode) w
    (Err (HeadersTooLarge
       (if io_ec a =? ERROR_MORE_DATA then io_reported a
        else needed_before mode b (w_kern w))), b2, mkMode false) k2.
Proof.
  intros Hq Hcall Ha Hr.
  pose proof (runs_headers_only w pool b mode b1 id k1 a b2 k2 Hq Hcall Ha) as Hrun.
  unfold conclude, more_data in Hrun. rewrite Hr in Hrun. by rewrite bool_decide_eq_true_2 in Hrun.
Qed.

Lemma runs_read_entity_body w request_id len a data k :
  quiescent (w_heap w) -> len <> 0 ->
  HttpReceiveRequestEntityBody (w_kern w) request_id (wrap32 len) = ((a, data), k) ->
  runs_to (read_entity_body skip request_id len) w
    (match io_result skip a with
     | Ok n => Ok (Some n)
     | Err e => if bool_decide (e = Win32 ERROR_HANDLE_EOF) then Ok None else Err e
     end, data) k.
Proof.
  intros Hq Hlen Hcall. unfold read_entity_body. rewrite (proj2 (Z.eqb_neq _ _) Hlen).
  eapply runs_bind; [by apply (runs_submit _ _ a data k)|]. intros h Hh. cbn beta iota.
  match goal with |- runs_to (mret ?x) _ ?y _ => enough (x = y) as -> by by apply runs_ret end.
  destruct (io_result_cases a) as [[n ->]|[c ->]]; [done|].
  destruct (Z.eqb_spec c ERROR_HANDLE_EOF) as [->|]; case_bool_decide; congruence.
Qed.

(** [read_entity_body] on every branch: an empty slice costs no call; otherwise
    the kernel is asked for the slice's length modulo 2^32 and a count is passed
    on, the end of the body is [None], and any other error is passed on. *)
Theorem read_entity_body_spec w request_id len :
  quiescent (w_heap w) ->
  if len =? 0 then
    runs_to (read_entity_body skip request_id len) w (Ok (Some 0), []) (w_kern w)
  else
    let '((a, data), k) := HttpReceiveRequestEntityBody (w_kern w) request_id (wrap32 len) in
    runs_to (read_entity_body skip request_id len) w
      (match io_result skip a with
       | Ok n => Ok (Some n)
       | Err e => if bool_decide (e = Win32 ERROR_HANDLE_EOF) then Ok None else Err e
       end, data) k.
Proof.
  intros Hq. destruct (Z.eqb_spec len 0) as [->|Hlen]; [by apply runs_ret|].
  destruct (HttpReceiveRequestEntityBody _ _ _) as [[a data] k] eqn:Hcall.
  by apply runs_read_entity_body.
Qed.

(** [send_response]: one call, for the given request, with the requested
    time-to-live if any; what the kernel finds through the raw pointer is the
    response itself when its strings and counts fit their fields; the result is
    the kernel's. *)
Theorem send_response_spec w request_id r :
  quiescent (w_heap w) -> fits r ->
  let view := mkView (r_status r) (as_bytes (reason r)) (as_bytes <$> content_type r)
    (map (fun '(name, value) => (as_bytes name, as_bytes value)) (headers r)) (body r) in
  let '(a, k) :=
    HttpSendHttpResponse (w_kern w) request_id (Some view) (mkPolicy <$> cache_seconds r) in
  runs_to (send_response skip address request_id r) w (io_result skip a) k.
Proof.
  intros Hq Hfits view. unfold send_response. rewrite kernel_view_cut, (cut_view_fits r Hfits).
  fold view. destruct (HttpSendHttpResponse _ _ _ _) as [a k] eqn:Hcall.
  eapply runs_bind; [apply (runs_submit _ _ a tt k); [done|by rewrite Hcall]|].
  intros h Hh. cbn beta iota. by apply runs_ret.
Qed.
End queue_facts.

(** ** A scripted kernel, for witnesses

    It answers from lists, logs what it is sent, and asks the server to stop when
    there is nothing left to receive. *)

Inductive Sent := SentResponse (id : Z) (v : option View) (policy : option HTTP_CACHE_POLICY).

Record Script := mkScript {
  sc_receives : list (IoAnswer * (HTTP_REQUEST_V2 * memory));
  sc_bodies : list (IoAnswer * list Z);
  sc_sent : list Sent;
}.

Definition io_now (ec bytes : Z) : IoAnswer := mkIo ec bytes (0, 0) (mkPacket None bytes) false.
Definition io_later (status : option Z) (bytes : Z) : IoAnswer :=
  mkIo ERROR_IO_PENDING 0 (0, 0) (mkPacket status bytes) true.

#[export] Instance script_http_sys : HttpSys Script (option View) := {
  HttpReceiveHttpRequest k _ _ _ target :=
    match sc_receives k with
    | [] => ((io_now ERROR_OPERATION_ABORTED 0, target), k)
    | x :: l => (x, mkScript l (sc_bodies k) (sc_sent k))
    end;
  HttpReceiveRequestEntityBody k _ _ :=
    match sc_bodies k with
    | [] => ((io_now ERROR_HANDLE_EOF 0, []), k)
    | x :: l => (x, mkScript (sc_receives k) l (sc_sent k))
    end;
  HttpSendHttpResponse k id v policy :=
    (io_now 0 100, mkScript (sc_receives k) (sc_bodies k) (sc_sent k ++ [SentResponse id v policy]));
  HttpShutdownRequestQueue k := (0, k);
  stop_requested k := bool_decide (sc_receives k = []);
}.

Definition demo_world (k : Script) : World list_queue (option unit) Script :=
  mkWorld k (op_pool_new 4) (body_pool_new 2 1048576).

Lemma demo_quiescent k : quiescent (w_heap (demo_world k)).
Proof. apply op_pool_new_quiescent. Qed.

(** A request of 65536 body bytes for the URL context 7, received headers only
    into a 16 KiB buffer, with growth allowed up to 128 KiB. *)
Definition demo_pool : BufferPool list_queue := buffer_pool_new 1 16384 131072.
Definition demo_received : RequestBuffer := sample_buffer 2048 42 7 (lit "65536").
Definition demo_script : Script :=
  mkScript [(io_now 0 500, (header demo_received, mem demo_received))] [] [].

Lemma queue_new_spec_witness :
  let an := mkNewAnswers 0 68 (Err 8) (fun _ => Ok tt) (Ok 1) (Ok tt) in
  CloseRequestQueue 68 ∉ (queue_new 2 64 an).1.
Proof.
  intros an. pose proof (queue_new_spec 2 64 an) as Hs.
  destruct (queue_new 2 64 an) as [calls r] eqn:E. vm_compute in E.
  injection E as <- <-. destruct Hs as [[Ha _]|[(_ & _ & Hn)|(h & b & _ & Hp & _)]];
    [by destruct Ha|exact Hn|discriminate].
Defined.

Lemma receive_refines_witness :
  let '(x, k) := receive_spec 1000 true demo_pool demo_received (mkMode false) demo_script in
  runs_to (receive 1000 true demo_pool demo_received (mkMode false)) (demo_world demo_script) x k.
Proof.
  exact (receive_refines tt 1000 true (demo_world demo_script) demo_pool demo_received (mkMode false)
    (demo_quiescent demo_script)).
Defined.

Lemma receive_headers_only_witness :
  exists b, runs_to (receive 1000 true demo_pool demo_received (mkMode false))
    (demo_world demo_script) (Ok tt, b, mkMode true) (mkScript [] [] []) /\
    buffer_request_id b = 0 /\ UrlContext (header b) = 0.
Proof.
  pose proof (receive_headers_only tt 1000 true (demo_world demo_script) demo_pool demo_received
    (mkMode false) demo_received 0 demo_script (io_now 0 500) demo_received (mkScript [] [] []) 500
    (demo_quiescent demo_script)) as H.
  change (declared_body_len demo_received) with (declared_body_len (sample_buffer 2048 42 7 (lit "65536"))) in H.
  assert (E : declared_body_len (sample_buffer 2048 42 7 (lit "65536")) = Some 65536)
    by (vm_compute; reflexivity).
  rewrite E in H. destruct H as (b & Hr & Hid & Hctx & _); try reflexivity; [split; vm_compute; congruence|].
  exists b. auto.
Defined.

Lemma headers_too_large_needed_witness :
  let k := mkScript [(io_later (Some (Z.lor ERROR_MORE_DATA 0x80070000)) 20000,
                      (header demo_received, mem demo_received))] [] [] in
  exists b, runs_to (receive 1000 true demo_pool demo_received (mkMode false)) (demo_world k)
    (Err (HeadersTooLarge 0), b, mkMode false) (mkScript [] [] []).
Proof.
  intros k. exists demo_received.
  exact (headers_too_large_needed tt 1000 true (demo_world k) demo_pool demo_received (mkMode false)
    demo_received 0 k (io_later (Some (Z.lor ERROR_MORE_DATA 0x80070000)) 20000) demo_received
    (mkScript [] [] []) (demo_quiescent k) eq_refl eq_refl eq_refl).
Defined.

Lemma read_entity_body_spec_witness :
  runs_to (read_entity_body true 42 3) (demo_world (mkScript [] [(io_later None 2, [8; 9])] []))
    (Ok (Some 2), [8; 9]) (mkScript [] [] []).
Proof.
  exact (read_entity_body_spec tt true (demo_world (mkScript [] [(io_later None 2, [8; 9])] [])) 42 3
    (demo_quiescent _)).
Defined.

Lemma send_response_spec_witness :
  exists k, runs_to (send_response true 64 42 demo_response) (demo_world (mkScript [] [] []))
    (Ok 100) k /\ length (sc_sent k) = 1%nat.
Proof.
  eexists. split.
  - exact (send_response_spec tt true 64 (demo_world (mkScript [] [] [])) 42 demo_response
      (demo_quiescent _) demo_fits).
  - reflexivity.
Defined.
