(* ===== verification/Request.v ===== *)
(** * Requests (crates/httpsys/src/request.rs)

    The accessors of [Request] over the buffer the kernel filled, and the reading
    of the whole body: inline, or through the pool and a loop of
    [read_entity_body] calls. *)

From S2P Require Import Prelude RustStd Errors Crates HttpApi Buffer Overlapped Response Queue.
Set Warnings "-clear-no-such-hyp".

Definition MAX_BODY_RESERVE : Z := 8 * 1024 * 1024.
Definition BODY_CHUNK_BYTES : Z := 256 * 1024.

Inductive Method :=
  | Get
  | Post
  | Put
  | Delete
  | Head
  | Options
  | Patch
  | Trace
  | Connect
  | Other (s : str).

#[export] Instance Method_eq_dec : EqDecision Method.
Proof. solve_decision. Defined.

(** [FromStr for Method]: infallible. *)
Definition from_str (s : str) : Method :=
  if bool_decide (s = lit "GET") then Get
  else if bool_decide (s = lit "POST") then Post
  else if bool_decide (s = lit "PUT") then Put
  else if bool_decide (s = lit "DELETE") then Delete
  else if bool_decide (s = lit "HEAD") then Head
  else if bool_decide (s = lit "OPTIONS") then Options
  else if bool_decide (s = lit "PATCH") then Patch
  else if bool_decide (s = lit "TRACE") then Trace
  else if bool_decide (s = lit "CONNECT") then Connect
  else Other s.

(** ** Accessors: a request is the buffer it owns *)

Section accessors.
(** [{:?}] of an [HTTP_VERB]. *)
Context (verb_debug : Z -> str).
Implicit Type b : RequestBuffer.

Definition base b : HTTP_REQUEST_V2 := header b.
Definition url_context b : Z := UrlContext (base b).
Definition request_id b : Z := RequestId (base b).
Definition connection_id b : Z := ConnectionId (base b).

Definition method b : Method :=
  let base := base b in
  let unknown_len := UnknownVerbLength base in
  if 0 <? unknown_len then
    from_str (from_utf8_lossy (slice_from_raw_parts (mem b) (pUnknownVerb base) unknown_len))
  else
    let v := Verb base in
    if v =? HttpVerbGET then Get
    else if v =? HttpVerbPOST then Post
    else if v =? HttpVerbPUT then Put
    else if v =? HttpVerbDELETE then Delete
    else if v =? HttpVerbHEAD then Head
    else if v =? HttpVerbOPTIONS then Options
    else if v =? HttpVerbTRACE then Trace
    else if v =? HttpVerbCONNECT then Connect
    else Other (verb_debug v).

Definition url b : str :=
  let base := base b in
  let len := RawUrlLength base in
  if (len =? 0) || bool_decide (pRawUrl base = None) then []
  else from_utf8_lossy (slice_from_raw_parts (mem b) (pRawUrl base) len).

Definition has_more_body b : bool :=
  negb (Z.land (Flags (base b)) HTTP_REQUEST_FLAG_MORE_ENTITY_BODY_EXISTS =? 0).

Definition inline_body b : bytes :=
  if EntityChunkCount (base b) =? 0 then []
  else
    match pEntityChunks (base b) with
    | None => []
    | Some chunk =>
        if bool_decide (pBuffer chunk = None) || (BufferLength chunk =? 0) then []
        else slice_from_raw_parts (mem b) (pBuffer chunk) (BufferLength chunk)
    end.

Definition known_header b (id : nat) : option str :=
  let h := default zero_header (KnownHeaders (base b) !! id) in
  if (RawValueLength h =? 0) || bool_decide (pRawValue h = None) then None
  else from_utf8 (slice_from_raw_parts (mem b) (pRawValue h) (RawValueLength h)).

Definition host b : option str := known_header b HttpHeaderHost.
Definition user_agent b : option str := known_header b HttpHeaderUserAgent.
Definition request_content_type b : option str := known_header b HttpHeaderContentType.
Definition content_length b : option Z :=
  match known_header b HttpHeaderContentLength with
  | Some s => parse_uint 64 s
  | None => None
  end.
Definition connection b : option str := known_header b HttpHeaderConnection.
End accessors.

(** ** The body *)

(** [Body]: the borrowed part, and the pooled vector if one was filled. *)
Record Body := mkBody { b_inline : bytes; owned : option Vec }.
Definition is_inline (x : Body) : bool := match owned x with None => true | Some _ => false end.
Definition deref (x : Body) : bytes :=
  match owned x with Some v => vec_data v | None => b_inline x end.

Section body.
Context `{ArrayQueue Q} `{VecAlloc} `{AtomicWaker W AW} `{HttpSys K (option View)}.
Context (skip : bool).

(** One turn of the loop.  [None] as the first component: go round again. *)
Definition read_turn (id : Z) (v : Vec) : M (World Q AW K) (option (result unit) * Vec) :=
  let v := if vec_len v =? vec_cap v then vec_reserve v BODY_CHUNK_BYTES else v in
  let spare := vec_cap v - vec_len v in
  let! (r, data) := read_entity_body skip id spare in
  mret match r with
       | Err e => (Some (Err e), v)
       | Ok (Some n) =>
           if n =? 0 then (Some (Ok tt), v)
           else (None, mkVec (vec_data v ++ ztake n data) (vec_cap v))
       | Ok None => (Some (Ok tt), v)
       end.

(** [read_remaining_body_into] with [fuel] turns; [None]: still reading. *)
Fixpoint read_remaining_body_into (fuel : nat) (id : Z) (v : Vec) :
    M (World Q AW K) (option (result unit) * Vec) :=
  match fuel with
  | O => mret (None, v)
  | S fuel =>
      let! (r, v) := read_turn id v in
      match r with
      | Some r => mret (Some r, v)
      | None => read_remaining_body_into fuel id v
      end
  end.

Definition take_body (capacity : Z) : M (World Q AW K) Vec :=
  fun w =>
    let '(v, p) := body_take (w_bodies w) capacity in (v, mkWorld (w_kern w) (w_heap w) p).
Definition drop_vec (v : Vec) : M (World Q AW K) unit :=
  fun w => (tt, mkWorld (w_kern w) (w_heap w) (body_drop v (w_bodies w))).

(** The capacity [body] asks of the pool. *)
Definition body_capacity (b : RequestBuffer) : Z :=
  let inline := inline_body b in
  let declared := Z.min (default 0 (content_length b)) MAX_BODY_RESERVE in
  if zlen inline <? declared then declared else zlen inline + BODY_CHUNK_BYTES.

(** [Request::body]; an error returns the vector to the pool. *)
Definition body (fuel : nat) (b : RequestBuffer) : M (World Q AW K) (option (result Body)) :=
  let inline := inline_body b in
  if negb (has_more_body b) then mret (Some (Ok (mkBody inline None)))
  else
    let! v := take_body (body_capacity b) in
    let v := vec_extend v inline in
    let! (r, v) := read_remaining_body_into fuel (request_id b) v in
    match r with
    | None => mret None
    | Some (Err e) => let! _ := drop_vec v in mret (Some (Err e))
    | Some (Ok _) => mret (Some (Ok (mkBody inline (Some v))))
    end.

(** Dropping a [Body]. *)
Definition body_value_drop (x : Body) : M (World Q AW K) unit :=
  match owned x with Some v => drop_vec v | None => mret tt end.

(** [read_body_chunk]. *)
Definition read_body_chunk (b : RequestBuffer) (len : Z) :
    M (World Q AW K) (result (option Z) * list Z) :=
  read_entity_body skip (request_id b) len.
End body.

(** ** What the kernel promises about a body

    [remaining k id] is what is left of the body of request [id].  A call with
    room for [n] bytes hands over some of the front of it, at least one byte, or
    reports the end; http.sys with [FILL_BUFFER] hands over as much as fits. *)
Class EntityBody (K : Type) `{HttpSys K (option View)} (skip : bool) := {
  remaining : K -> Z -> bytes;
  entity_body_end k id n :
    0 < n -> remaining k id = [] ->
    exists a data k', HttpReceiveRequestEntityBody k id n = ((a, data), k') /\
      io_result skip a = Err (Win32 ERROR_HANDLE_EOF) /\ remaining k' id = [];
  entity_body_data k id n :
    0 < n -> remaining k id <> [] ->
    exists a m k', HttpReceiveRequestEntityBody k id n = ((a, ztake m (remaining k id)), k') /\
      io_result skip a = Ok m /\ 1 <= m <= n /\ m <= zlen (remaining k id) /\
      remaining k' id = zdrop m (remaining k id);
}.

(** How far an allocation may grow. *)
Class VecGrowth `{VecAlloc} : Prop := {
  amortized_cap_most cap len add :
    0 <= len -> 0 <= add -> amortized_cap cap len add <= Z.max 8 (Z.max (2 * cap) (len + add));
  exact_cap_most cap len add :
    0 <= len -> 0 <= add -> exact_cap cap len add <= Z.max cap (len + add);
}.

#[export] Instance raw_vec_growth : VecGrowth.
Proof. split; cbn; lia. Qed.

(** ** Facts about methods *)

(** The text a method was parsed from. *)
Definition method_text (m : Method) : str :=
  match m with
  | Get => lit "GET"
  | Post => lit "POST"
  | Put => lit "PUT"
  | Delete => lit "DELETE"
  | Head => lit "HEAD"
  | Options => lit "OPTIONS"
  | Patch => lit "PATCH"
  | Trace => lit "TRACE"
  | Connect => lit "CONNECT"
  | Other s => s
  end.

Lemma method_text_from_str s : method_text (from_str s) = s.
Proof. unfold from_str. by repeat case_bool_decide. Qed.

(** An extension method keeps its text: for any verb text that is valid UTF-8,
    at any offset of the buffer, [method] gives the constructor of that name, or
    [Other] with exactly that text; two requests have the same method only if
    they carried the same text. *)
Theorem method_extension (verb_debug : Z -> str) b s :
  Forall (fun c => is_scalar c = true) s ->
  0 < UnknownVerbLength (header b) ->
  slice_from_raw_parts (mem b) (pUnknownVerb (header b)) (UnknownVerbLength (header b)) =
    as_bytes s ->
  method verb_debug b = from_str s /\ method_text (method verb_debug b) = s.
Proof.
  intros Hs Hlen Hbytes. assert (Hm : method verb_debug b = from_str s).
  { unfold method, base. rewrite (proj2 (Z.ltb_lt _ _) Hlen), Hbytes.
    by rewrite from_utf8_lossy_as_bytes. }
  split; [done|]. rewrite Hm. apply method_text_from_str.
Qed.

(** [content_length] agrees with what the receive path sizes the buffer from, on
    every request where it has a value. *)
Lemma content_length_declared b n : content_length b = Some n -> declared_body_len b = Some n.
Proof.
  unfold content_length, declared_body_len, known_header, known_header_bytes.
  destruct (_ || _); [done|].
  intros Hc. destruct (from_utf8 _); [|done]. by rewrite Hc.
Qed.

(** ** Reading the body *)

Section body_facts.
Context `{ArrayQueueLaws Q} `{VecAllocLaws} `{!VecGrowth} `{AtomicWaker W AW}.
Context `{HttpSys K (option View)} (cx : W) (skip : bool) `{!EntityBody K skip}.
Implicit Types (w : World Q AW K) (k : K) (v : Vec).

(** The bytes a reader has, those it will get, and a bound on what it may hold
    that keeps every spare length in thirty-two bits. *)
Definition GiB : Z := 2 ^ 30.
Definition vec_ready v : Prop := vec_len v <= vec_cap v < 4 * GiB.

Lemma grow_ready v :
  vec_ready v -> vec_len v < GiB ->
  let v' := if vec_len v =? vec_cap v then vec_reserve v BODY_CHUNK_BYTES else v in
  vec_data v' = vec_data v /\ vec_len v' < vec_cap v' < 4 * GiB.
Proof.
  intros [Hle Hcap] Hlen. cbn zeta. unfold GiB, BODY_CHUNK_BYTES in *.
  pose proof (zlen_nonneg (vec_data v)) as Hpos. fold (vec_len v) in Hpos.
  destruct (Z.eqb_spec (vec_len v) (vec_cap v)); [|split; [done|lia]].
  split; [apply vec_reserve_data|]. pose proof (vec_reserve_room v (256 * 1024)) as Hroom.
  unfold vec_len in *. rewrite vec_reserve_data. split; [lia|].
  unfold vec_reserve. destruct (_ <=? _); cbn [vec_cap]; [lia|].
  pose proof (amortized_cap_most (vec_cap v) (vec_len v) (256 * 1024)
    ltac:(unfold vec_len; lia) ltac:(lia)). unfold vec_len in *. lia.
Qed.

(** From kernel [k] to [k'] by reads of the body of request [id] and nothing else. *)
Inductive body_reads (id : Z) : K -> K -> Prop :=
  | no_read k : body_reads id k k
  | one_read k n x k1 k2 :
      HttpReceiveRequestEntityBody k id n = (x, k1) -> body_reads id k1 k2 -> body_reads id k k2.

(** One turn of the loop: either the end of the body, or a nonempty piece of it
    appended. *)
Lemma read_turn_spec w id v :
  quiescent (w_heap w) -> vec_ready v -> vec_len v < GiB ->
  exists v' k', vec_ready v' /\ body_reads id (w_kern w) k' /\
    (remaining (w_kern w) id = [] /\ remaining k' id = [] /\ vec_data v' = vec_data v /\
       runs_to (read_turn skip id v) w (Some (Ok tt), v') k' \/
     exists m, 1 <= m <= zlen (remaining (w_kern w) id) /\
       remaining k' id = zdrop m (remaining (w_kern w) id) /\
       vec_data v' = vec_data v ++ ztake m (remaining (w_kern w) id) /\
       runs_to (read_turn skip id v) w (None, v') k').
Proof.
  intros Hq Hv Hlen. destruct (grow_ready v Hv Hlen) as [Hdata Hroom].
  unfold read_turn. set (v1 := if _ =? _ then _ else v) in *.
  assert (Hspare : wrap32 (vec_cap v1 - vec_len v1) = vec_cap v1 - vec_len v1).
  { apply wrap_small. split; [lia|]. pose proof (zlen_nonneg (vec_data v1)).
    unfold vec_len, GiB in *. lia. }
  pose proof (fun a data k => runs_read_entity_body cx skip w id (vec_cap v1 - vec_len v1) a data k Hq
    ltac:(lia)) as Hread.
  rewrite Hspare in Hread.
  destruct (remaining (w_kern w) id) as [|x l] eqn:Hrem.
  - destruct (entity_body_end (w_kern w) id (vec_cap v1 - vec_len v1))
      as (a & data & k' & Hcall & Hres & Hk'); [lia|done|].
    specialize (Hread a data k' Hcall). rewrite Hres, bool_decide_eq_true_2 in Hread by done.
    exists v1, k'. split; [unfold vec_ready; lia|]. split; [by econstructor; [|constructor]|]. left. do 3 (split; [done|]).
    eapply runs_bind; [exact Hread|]. intros h Hh. by apply runs_ret.
  - destruct (entity_body_data (w_kern w) id (vec_cap v1 - vec_len v1))
      as (a & m & k' & Hcall & Hres & Hm & Hml & Hk'); [lia|by rewrite Hrem|].
    specialize (Hread _ _ k' Hcall). rewrite Hres in Hread. rewrite Hrem in *.
    exists (mkVec (vec_data v1 ++ ztake m (x :: l)) (vec_cap v1)), k'.
    split; [|split; [by econstructor; [|constructor]|];
      right; exists m; split; [lia|]; split; [done|]; split; [by rewrite <- Hdata|]].
    + unfold vec_ready, vec_len in *. cbn [vec_data vec_cap]. rewrite zlen_app, zlen_ztake by lia. lia.
    + eapply runs_bind; [exact Hread|]. intros h Hh. cbn beta iota.
      rewrite (proj2 (Z.eqb_neq m 0)) by lia.
      rewrite (ztake_all m (ztake m (x :: l))) by (rewrite zlen_ztake by lia; lia).
      by apply runs_ret.
Qed.

Lemma body_reads_trans id k1 k2 k3 : body_reads id k1 k2 -> body_reads id k2 k3 -> body_reads id k1 k3.
Proof. intros H12 H23. induction H12; [done|]. econstructor; eauto. Qed.

(** The loop ends, and has appended everything that was left: [fuel] turns are
    enough as soon as they outnumber the bytes left. *)
Lemma read_remaining_spec fuel w id v :
  quiescent (w_heap w) -> vec_ready v ->
  vec_len v + zlen (remaining (w_kern w) id) < GiB ->
  zlen (remaining (w_kern w) id) < Z.of_nat fuel ->
  exists v' k', vec_data v' = vec_data v ++ remaining (w_kern w) id /\ remaining k' id = [] /\
    body_reads id (w_kern w) k' /\
    runs_to (read_remaining_body_into skip fuel id v) w (Some (Ok tt), v') k'.
Proof.
  revert w v. induction fuel as [|fuel IH]; intros w v Hq Hv Hsum Hfuel;
    pose proof (zlen_nonneg (remaining (w_kern w) id)) as Hpos; [lia|].
  destruct (read_turn_spec w id v Hq Hv ltac:(lia))
    as (v1 & k1 & Hv1 & Hbr & [(Hrem & Hk & Hd & Hrun)|(m & Hm & Hk & Hd & Hrun)]); cbn.
  - exists v1, k1. rewrite Hrem, app_nil_r. do 3 (split; [done|]).
    eapply runs_bind; [exact Hrun|]. intros h Hh. by apply runs_ret.
  - assert (Hlen1 : vec_len v1 + zlen (remaining k1 id) = vec_len v + zlen (remaining (w_kern w) id)).
    { unfold vec_len. rewrite Hd, Hk, zlen_app, zlen_ztake, zlen_zdrop by lia. lia. }
    assert (Hrem1 : zlen (remaining k1 id) < zlen (remaining (w_kern w) id))
      by (rewrite Hk, zlen_zdrop by lia; lia).
    destruct Hrun as (h1 & Hrun & Hq1).
    destruct (IH (mkWorld k1 h1 (w_bodies w)) v1 Hq1 Hv1) as (v' & k' & Hd' & Hk' & Hbr' & h' & Hrun' & Hq');
      cbn [w_kern] in *; [lia|lia|].
    exists v', k'. split; [|split; [done|split; [by apply (body_reads_trans id _ k1)|]]].
    + rewrite Hd', Hd, Hk, <- (assoc_L (++)). f_equal. apply ztake_zdrop.
    + exists h'. split; [|done]. unfold mbind. rewrite Hrun. exact Hrun'.
Qed.

Lemma content_length_bounds b n : content_length b = Some n -> 0 <= n.
Proof.
  unfold content_length. destruct (known_header b _); [|done].
  intros Hp. apply parse_uint_bounds in Hp; [apply Hp|lia].
Qed.

Lemma body_capacity_bounds b :
  0 <= body_capacity b <= Z.max MAX_BODY_RESERVE (zlen (inline_body b) + BODY_CHUNK_BYTES).
Proof.
  unfold body_capacity, BODY_CHUNK_BYTES, MAX_BODY_RESERVE. pose proof (zlen_nonneg (inline_body b)).
  destruct (Z.ltb_spec (zlen (inline_body b))
    (Z.min (default 0 (content_length b)) (8 * 1024 * 1024))); lia.
Qed.

(** The vector [body] starts from holds the inline part and is of bounded size. *)
Lemma body_start n cap (p : BodyPool Q) b v p' :
  body_pool_ok n cap p -> 0 <= recycled_cap p -> cap < GiB -> zlen (inline_body b) < GiB ->
  body_take p (body_capacity b) = (v, p') ->
  body_pool_ok n cap p' /\ vec_data (vec_extend v (inline_body b)) = inline_body b /\
  vec_ready (vec_extend v (inline_body b)).
Proof.
  intros Hp Hc0 Hcap Hin Ht. destruct (body_take_ok n cap p _ v p' Hp Ht) as [Hp' Hv].
  split; [done|]. split; [by rewrite vec_extend_data, Hv|].
  split; [apply vec_extend_wf|]. unfold vec_extend. cbn [vec_cap]. unfold GiB in *.
  pose proof (zlen_nonneg (inline_body b)).
  assert (Hvc : vec_cap v <= 2 ^ 30 + 2 ^ 18).
  { pose proof (body_take_vec n cap p (body_capacity b) Hp) as Hvec. rewrite Ht in Hvec.
    cbn [fst] in Hvec. subst v. pose proof (body_capacity_bounds b).
    unfold MAX_BODY_RESERVE, BODY_CHUNK_BYTES in *.
    assert (Hc : recycled_cap p <= Z.max cap 0).
    { destruct Hp as (_ & _ & _ & HF). unfold recycled_cap.
      destruct (aq_items (body_free p)); [lia|]. apply Forall_cons in HF as [[_ ?] _]. lia. }
    unfold vec_reserve_exact, saturating_sub. cbn [vec_cap vec_data].
    destruct (_ <=? _); cbn [vec_cap]; [lia|].
    pose proof (exact_cap_most (recycled_cap p) 0 (Z.max (body_capacity b - recycled_cap p) 0)
      ltac:(lia) ltac:(lia)). change (vec_len (mkVec [] (recycled_cap p))) with 0.
    match goal with Hex : exact_cap ?c ?l ?m <= _, Hb : _ <= body_capacity b <= _ |- _ =>
      destruct Hb as [_ Hb]; revert Hex Hb Hc Hin Hcap Hc0; generalize (exact_cap c l m) end.
    generalize (recycled_cap p) (body_capacity b) (zlen (inline_body b)). clear. intros. lia. }
  unfold vec_reserve. destruct (_ <=? _); cbn [vec_cap]; [lia|].
  pose proof (amortized_cap_most (vec_cap v) (vec_len v) (zlen (inline_body b))
    ltac:(apply zlen_nonneg) ltac:(lia)).
  unfold vec_len in *. rewrite Hv in *. change (zlen (@nil Z)) with 0 in *. lia.
Qed.

(** [body] on both branches. *)
Lemma body_run fuel w b n cap :
  quiescent (w_heap w) -> body_pool_ok n cap (w_bodies w) -> 0 <= recycled_cap (w_bodies w) ->
  cap < GiB ->
  zlen (inline_body b) + zlen (remaining (w_kern w) (request_id b)) < GiB ->
  zlen (remaining (w_kern w) (request_id b)) < Z.of_nat fuel ->
  exists x w', body skip fuel b w = (Some (Ok x), w') /\
    quiescent (w_heap w') /\ body_pool_ok n cap (w_bodies w') /\
    if has_more_body b then
      is_inline x = false /\
      deref x = inline_body b ++ remaining (w_kern w) (request_id b) /\
      remaining (w_kern w') (request_id b) = [] /\
      body_reads (request_id b) (w_kern w) (w_kern w')
    else is_inline x = true /\ deref x = inline_body b /\ w' = w.
Proof.
  intros Hq Hp Hc0 Hcap Hsum Hfuel. unfold body.
  destruct (has_more_body b); cbn [negb]; [|by exists (mkBody (inline_body b) None), w].
  pose proof (zlen_nonneg (inline_body b)).
  pose proof (zlen_nonneg (remaining (w_kern w) (request_id b))).
  unfold take_body, mbind. destruct (body_take (w_bodies w) (body_capacity b)) as [v p'] eqn:Ht.
  destruct (body_start n cap _ b v p' Hp Hc0 Hcap ltac:(lia) Ht) as (Hp' & Hd & Hready).
  destruct (read_remaining_spec fuel (mkWorld (w_kern w) (w_heap w) p') (request_id b)
    (vec_extend v (inline_body b)) Hq Hready) as (v' & k' & Hd' & Hk' & Hbr & h' & Hrun & Hq').
  { unfold vec_len. rewrite Hd. exact Hsum. }
  { exact Hfuel. }
  rewrite Hrun. exists (mkBody (inline_body b) (Some v')), (mkWorld k' h' p').
  split; [done|]. do 2 (split; [done|]). split; [done|]. split; [|done]. cbn.
  by rewrite Hd', Hd.
Qed.
(** C11. [Request::body], the whole of it.  With nothing left in the kernel the body
    is the inline part, borrowed: no call, no change of the world.  Otherwise the
    loop ends by itself and the body is the inline part followed by every byte
    the kernel still held, in order; the kernel holds no more of it and was asked
    for nothing else, no operation is in flight, and the pool is as it should be.  [fuel] bounds the
    number of calls: one more than the bytes left is always enough.  Bodies are
    below 1 GiB, where no length is cut to thirty-two bits. *)
Theorem body_reads_all fuel w b n cap :
  quiescent (w_heap w) -> body_pool_ok n cap (w_bodies w) -> 0 <= recycled_cap (w_bodies w) ->
  cap < GiB ->
  zlen (inline_body b) + zlen (remaining (w_kern w) (request_id b)) < GiB ->
  zlen (remaining (w_kern w) (request_id b)) < Z.of_nat fuel ->
  exists x w', body skip fuel b w = (Some (Ok x), w') /\
    quiescent (w_heap w') /\ body_pool_ok n cap (w_bodies w') /\
    if has_more_body b then
      is_inline x = false /\
      deref x = inline_body b ++ remaining (w_kern w) (request_id b) /\
      remaining (w_kern w') (request_id b) = [] /\
      body_reads (request_id b) (w_kern w) (w_kern w')
    else is_inline x = true /\ deref x = inline_body b /\ w' = w.
Proof. apply body_run. Qed.
End body_facts.

(** A body the kernel fails to deliver: the error reaches the caller, and the
    vector goes back through the pool. *)
Theorem body_error_released `{ArrayQueueLaws Q} `{VecAllocLaws} `{AtomicWaker W AW}
    `{HttpSys K (option View)} (cx : W) skip fuel (w : World Q AW K) b n cap c a data k' :
  quiescent (w_heap w) -> body_pool_ok n cap (w_bodies w) -> has_more_body b = true ->
  (forall len, HttpReceiveRequestEntityBody (w_kern w) (request_id b) len = ((a, data), k')) ->
  io_result skip a = Err (Win32 c) -> c <> ERROR_HANDLE_EOF ->
  exists w', body skip (S fuel) b w = (Some (Err (Win32 c)), w') /\
    w_kern w' = k' /\ quiescent (w_heap w') /\ body_pool_ok n cap (w_bodies w').
Proof.
  intros Hq Hp Hmore Hcall Hres Hc. unfold body. rewrite Hmore. cbn [negb].
  unfold take_body, mbind at 1. destruct (body_take (w_bodies w) (body_capacity b)) as [v p'] eqn:Ht.
  destruct (body_take_ok n cap _ _ v p' Hp Ht) as [Hp' _].
  cbn [read_remaining_body_into]. unfold read_turn.
  set (v0 := vec_extend v (inline_body b)). set (v1 := if _ =? _ then _ else v0).
  assert (Hroom : vec_len v1 < vec_cap v1).
  { pose proof (vec_extend_wf v (inline_body b)) as Hwf. fold v0 in Hwf. unfold vec_wf in Hwf.
    subst v1. destruct (Z.eqb_spec (vec_len v0) (vec_cap v0)); [|lia].
    pose proof (vec_reserve_room v0 BODY_CHUNK_BYTES) as Hr.
    unfold vec_len in *. rewrite vec_reserve_data. unfold BODY_CHUNK_BYTES in *. lia. }
  pose proof (runs_read_entity_body cx skip (mkWorld (w_kern w) (w_heap w) p') (request_id b)
    (vec_cap v1 - vec_len v1) a data k' Hq ltac:(lia) (Hcall _)) as Hread.
  rewrite Hres, bool_decide_eq_false_2 in Hread by congruence.
  destruct Hread as (h & Hrun & Hqh). unfold mbind. rewrite Hrun. cbn.
  eexists. split; [done|]. cbn. split; [done|]. split; [done|]. by apply body_drop_ok.
Qed.

(** ** A kernel that holds one body, for witnesses *)

#[export] Instance stream_http_sys : HttpSys bytes (option View) := {
  HttpReceiveHttpRequest k _ _ _ target := ((io_now ERROR_OPERATION_ABORTED 0, target), k);
  HttpReceiveRequestEntityBody k _ n :=
    if zlen k =? 0 then ((io_now ERROR_HANDLE_EOF 0, []), k)
    else
      let m := Z.min n (zlen k) in ((io_later None m, ztake m k), zdrop m k);
  HttpSendHttpResponse k _ _ _ := (io_now 0 0, k);
  HttpShutdownRequestQueue k := (0, k);
  stop_requested k := true;
}.

#[export] Program Instance stream_entity_body : EntityBody bytes true := {
  remaining k _ := k;
}.
Next Obligation. intros k id n Hn ->. cbn. eauto 10. Qed.
Next Obligation.
  intros k id n Hn Hk. cbn. pose proof (zlen_nonneg k).
  destruct (Z.eqb_spec (zlen k) 0) as [E|E]; [by apply zlen_0_nil in E|].
  exists (io_later None (Z.min n (zlen k))), (Z.min n (zlen k)), (zdrop (Z.min n (zlen k)) k).
  split; [done|]. split; [done|]. split; [lia|]. split; [lia|done].
Qed.

(** A request with more body in the kernel, nothing inline. *)
Definition demo_request : RequestBuffer :=
  mkBuffer 2048
    (mkRequestV2 1 7 42 1 0 5 0 (Some 512) None
      (replicate HttpHeaderRequestMaximum zero_header) 0 None)
    (write_at 512 (lit "PATCH") ∅).

Lemma method_extension_witness : method (fun _ => []) demo_request = Patch.
Proof.
  rewrite (proj1 (method_extension (fun _ => []) demo_request (lit "PATCH")
    ltac:(repeat constructor) ltac:(reflexivity) ltac:(vm_compute; reflexivity))).
  reflexivity.
Defined.

Lemma body_reads_all_witness :
  let w := mkWorld (lit "body") (op_pool_new (Q := list_queue) (AW := option unit) 4)
             (body_pool_new 2 1048576) in
  exists x w', body true 5 demo_request w = (Some (Ok x), w') /\ deref x = lit "body".
Proof.
  intros w.
  destruct (body_reads_all (Q := list_queue) (AW := option unit) tt true 5 w demo_request 2 1048576)
    as (x & w' & Hrun & _ & _ & _ & Hx & _);
    [apply op_pool_new_quiescent|apply body_pool_new_ok|vm_compute; congruence|
     vm_compute; reflexivity|vm_compute; reflexivity|vm_compute; reflexivity|].
  exists x, w'. split; [exact Hrun|]. rewrite Hx. reflexivity.
Defined.

Lemma body_error_released_witness :
  let w := demo_world (mkScript [] [(io_now 1229 0, [])] []) in
  exists w', body true 1 demo_request w = (Some (Err (Win32 1229)), w') /\
    body_pool_ok 2 1048576 (w_bodies w').
Proof.
  intros w.
  destruct (body_error_released (Q := list_queue) (AW := option unit) tt true 0 w demo_request 2
    1048576 1229 (io_now 1229 0) [] (mkScript [] [] []))
    as (w' & Hrun & _ & _ & Hp);
    [apply demo_quiescent|apply body_pool_new_ok|reflexivity|reflexivity|reflexivity|discriminate|].
  exists w'. auto.
Defined.
