(* ===== verification/Init.v ===== *)
(** * Initialisation handles (crates/httpsys/src/init.rs)

    [HttpInitializer], [ServerSession] and [UrlGroup] as operations on a log of
    the calls they make, with the status each opening call got, and the strong
    counts of the handles that are shared.  [holds] replays a log and finds what is
    still open, or that a handle was closed under one that depends on it. *)

From S2P Require Import Prelude RustStd Errors Iocp Queue.

Inductive HttpCall :=
  | HttpInitialize
  | HttpTerminate
  | HttpCreateServerSession (id : Z)
  | HttpCloseServerSession (id : Z)
  | HttpCreateUrlGroup (session id : Z)
  | HttpCloseUrlGroup (id : Z)
  | HttpSetUrlGroupProperty (group queue : Z)
  | HttpAddUrlToUrlGroup (group : Z) (url : str) (context : Z)
  | OnQueue (c : QueueCall).

(** The calls so far with their status, and the strong counts of the session and
    of the queue. *)
Record Os := mkOs {
  os_log : list (HttpCall * Z);
  session_refs : nat;
  queue_refs : nat;
}.

Definition call (c : HttpCall) (ec : Z) : M Os unit :=
  mmodify (fun s => mkOs (os_log s ++ [(c, ec)]) (session_refs s) (queue_refs s)).
Fixpoint calls (cs : list (HttpCall * Z)) : M Os unit :=
  match cs with
  | [] => mret tt
  | (c, ec) :: cs => let! _ := call c ec in calls cs
  end.

(** ** The operations *)

(** [HttpInitializer::new] and its drop. *)
Definition initializer_new (ec : Z) : M Os (result unit) :=
  let! _ := call HttpInitialize ec in mret (check ec).
Definition initializer_drop : M Os unit := call HttpTerminate 0.

(** [Arc::new(ServerSession::new()?)], a clone, and the drop of a reference. *)
Definition session_new (ec id : Z) : M Os (result Z) :=
  let! _ := call (HttpCreateServerSession id) ec in
  let? _ := mret (check ec) in
  let! _ := mmodify (fun s => mkOs (os_log s) 1 (queue_refs s)) in
  mret (Ok id).
Definition session_clone : M Os unit :=
  mmodify (fun s => mkOs (os_log s) (S (session_refs s)) (queue_refs s)).
Definition session_drop (id : Z) : M Os unit :=
  let! s := mget in
  let! _ := mmodify (fun s => mkOs (os_log s) (pred (session_refs s)) (queue_refs s)) in
  if (session_refs s =? 1)%nat then call (HttpCloseServerSession id) 0 else mret tt.

Record UrlGroup := mkGroup { g_session : Z; g_id : Z }.

(** [UrlGroup::new], and its drop: the group, then its reference to the session. *)
Definition group_new (session ec id : Z) : M Os (result UrlGroup) :=
  let! _ := call (HttpCreateUrlGroup session id) ec in
  let? _ := mret (check ec) in
  let! _ := session_clone in
  mret (Ok (mkGroup session id)).
Definition group_drop (g : UrlGroup) : M Os unit :=
  let! _ := call (HttpCloseUrlGroup (g_id g)) 0 in session_drop (g_session g).

Definition bind_to_queue (g : UrlGroup) (queue_handle ec : Z) : M Os (result unit) :=
  let! _ := call (HttpSetUrlGroupProperty (g_id g) queue_handle) ec in mret (check ec).

Definition normalize_prefix (url : str) : str :=
  if ends_with (lit "/") url then url else url ++ lit "/".

Definition add_url (g : UrlGroup) (url : str) (context ec : Z) : M Os (result unit) :=
  let! _ := call (HttpAddUrlToUrlGroup (g_id g) (normalize_prefix url) context) ec in
  mret (check ec).

(** [Arc::new(RequestQueue::new(..)?)] and the drop of a reference to it. *)
Definition queue_status (an : NewAnswers) (c : QueueCall) : Z :=
  match c with CreateRequestQueue => an_create an | _ => 0 end.
Definition queue_arc_new (io_threads concurrency : Z) (an : NewAnswers) : M Os (result RequestQueue) :=
  let '(cs, r) := queue_new io_threads concurrency an in
  let! _ := calls (map (fun c => (OnQueue c, queue_status an c)) cs) in
  let? q := mret r in
  let! _ := mmodify (fun s => mkOs (os_log s) (session_refs s) 1) in
  mret (Ok q).
Definition queue_arc_clone : M Os unit :=
  mmodify (fun s => mkOs (os_log s) (session_refs s) (S (queue_refs s))).
Definition queue_arc_drop (q : RequestQueue) : M Os unit :=
  let! s := mget in
  let! _ := mmodify (fun s => mkOs (os_log s) (session_refs s) (pred (queue_refs s))) in
  if (queue_refs s =? 1)%nat then calls (map (fun c => (OnQueue c, 0)) (queue_drop q)) else mret tt.

(** ** What a log leaves open *)

Inductive Resource :=
  | RInit
  | RSession (id : Z)
  | RGroup (session id : Z)
  | RQueue.

#[export] Instance Resource_eq_dec : EqDecision Resource.
Proof. solve_decision. Defined.

Definition remove (r : Resource) (open : list Resource) : option (list Resource) :=
  if bool_decide (r ∈ open) then Some (filter (fun x => x <> r) open) else None.

(** One call: [None] when it closes something that is not open, terminates the
    API before everything else is closed, or closes a session that has a group. *)
Definition hold_step (open : list Resource) (c : HttpCall) (ec : Z) : option (list Resource) :=
  match c with
  | HttpInitialize => Some (if ec =? 0 then RInit :: open else open)
  | HttpTerminate =>
      if bool_decide (open = [RInit]) then Some [] else None
  | HttpCreateServerSession id => Some (if ec =? 0 then RSession id :: open else open)
  | HttpCloseServerSession id =>
      if existsb (fun r => match r with RGroup s _ => s =? id | _ => false end) open
      then None else remove (RSession id) open
  | HttpCreateUrlGroup s id => Some (if ec =? 0 then RGroup s id :: open else open)
  | HttpCloseUrlGroup id =>
      match find (fun r => match r with RGroup _ g => g =? id | _ => false end) open with
      | Some r => remove r open
      | None => None
      end
  | OnQueue CreateRequestQueue => Some (if ec =? 0 then RQueue :: open else open)
  | OnQueue (CloseRequestQueue _) => remove RQueue open
  | _ => Some open
  end.

Fixpoint holds (open : list Resource) (log : list (HttpCall * Z)) : option (list Resource) :=
  match log with
  | [] => Some open
  | (c, ec) :: log =>
      match hold_step open c ec with
      | Some open => holds open log
      | None => None
      end
  end.

(** ** Facts *)

Lemma holds_app open l1 l2 :
  holds open (l1 ++ l2) =
    match holds open l1 with Some o => holds o l2 | None => None end.
Proof.
  revert open. induction l1 as [|[c ec] l1 IH]; intros open; [done|]. cbn.
  by destruct (hold_step open c ec).
Qed.

Lemma calls_spec cs s :
  calls cs s = (tt, mkOs (os_log s ++ cs) (session_refs s) (queue_refs s)).
Proof.
  revert s. induction cs as [|[c ec] cs IH]; intros s; cbn.
  - unfold mret. destruct s. cbn. by rewrite app_nil_r.
  - unfold mbind, call, mmodify. rewrite IH. cbn. by rewrite <- (assoc_L (++)).
Qed.

Lemma ends_with_slash s : ends_with (lit "/") s = true <-> exists s', s = s' ++ lit "/".
Proof.
  unfold ends_with. rewrite bool_decide_eq_true. change (length (lit "/")) with 1%nat. split.
  - intros E. exists (take (length s - 1) s). rewrite <- E. symmetry. apply take_drop.
  - intros [s' ->]. rewrite length_app. cbn [length].
    by rewrite Nat.add_sub, drop_app_length.
Qed.

(** The prefix handed to http.sys: it always ends in a slash, it is the caller's
    text with at most that slash added, and normalising it again changes
    nothing. *)
Theorem normalize_prefix_spec url :
  (exists p, normalize_prefix url = p ++ lit "/") /\
  (normalize_prefix url = url \/
   (normalize_prefix url = url ++ lit "/" /\ ~ exists p, url = p ++ lit "/")) /\
  normalize_prefix (normalize_prefix url) = normalize_prefix url.
Proof.
  assert (Hend : exists p, normalize_prefix url = p ++ lit "/").
  { unfold normalize_prefix. destruct (ends_with (lit "/") url) eqn:E; [|eauto].
    by apply ends_with_slash. }
  split; [done|]. split.
  - unfold normalize_prefix. destruct (ends_with (lit "/") url) eqn:E; [by left|right].
    split; [done|]. intros Hs%ends_with_slash. congruence.
  - apply ends_with_slash in Hend. unfold normalize_prefix at 1. by rewrite Hend.
Qed.
