(* ===== verification/Server.v ===== *)
(** * The server (crates/httpsys/src/server.rs)

    The builder and its routes over the handles of [Init], and the loop of one
    request slot over the queue operations of [Queue].  A handler is a stateful
    function of the request it is given, and the request's buffer goes back to
    the slot's pool when the handler is done with it.  Messages written to the
    standard error stream are left out. *)

From S2P Require Import Prelude RustStd Errors Crates HttpApi Buffer Overlapped Iocp Response Queue.
From S2P Require Import Request Init.
Set Warnings "-clear-no-such-hyp".

(** ** Configuration *)

Record ServerConfig := mkConfig {
  concurrency : Z;
  io_threads : Z;
  request_buffer_bytes : Z;
  max_request_buffer_bytes : Z;
  queue_length : Z;
  max_pooled_body_bytes : Z;
  (* in seconds *)
  shutdown_timeout : Z;
}.

(** [Default for ServerConfig]; the argument is the answer of
    [available_parallelism]. *)
Definition config_default (parallelism : option Z) : ServerConfig :=
  let cores := default 2 parallelism in
  mkConfig (wrap64 (cores * 32)) (Z.max (cores / 2) 2) (16 * 1024) (128 * 1024) 3000
    (1024 * 1024) 30.

(** ** The builder *)

(** What the operating system answers to [with_config]. *)
Record BuildAnswers := mkBuildAnswers {
  ba_init : Z;
  ba_session : Z * Z;
  ba_group : Z * Z;
  ba_queue : NewAnswers;
  ba_bind : Z;
  ba_length : Z;
}.

Section builder.
(** The type of erased handlers. *)
Context {Hd : Type}.

Record ServerBuilder := mkBuilder {
  sb_session : Z;
  sb_group : UrlGroup;
  sb_queue : RequestQueue;
  sb_routes : gmap Z Hd;
  sb_next_id : Z;
  sb_config : ServerConfig;
}.

(** The rest of [with_config] once a handle exists: an error drops the handle
    and is passed on. *)
Definition guarded {A} (m : M Os (result A)) (drop : M Os unit) : M Os (result A) :=
  let! r := m in
  match r with
  | Ok x => mret (Ok x)
  | Err e => let! _ := drop in mret (Err e)
  end.

Definition with_config (config : ServerConfig) (ba : BuildAnswers) : M Os (result ServerBuilder) :=
  let? _ := initializer_new (ba_init ba) in
  guarded
    (let? session := session_new (fst (ba_session ba)) (snd (ba_session ba)) in
     guarded
       (let? group := group_new session (fst (ba_group ba)) (snd (ba_group ba)) in
        guarded
          (let? queue := queue_arc_new (io_threads config) (concurrency config) (ba_queue ba) in
           guarded
             (let? _ := bind_to_queue group (q_handle queue) (ba_bind ba) in
              let! _ := call (OnQueue (SetQueueLength (q_handle queue) (queue_length config)))
                          (ba_length ba) in
              let? _ := mret (check (ba_length ba)) in
              mret (Ok (mkBuilder session group queue ∅ 1 config)))
             (queue_arc_drop queue))
          (group_drop group))
       (session_drop session))
    initializer_drop.

(** [ServerBuilder::route]; [ec] is the kernel's answer to the new prefix. *)
Definition route (b : ServerBuilder) (url : str) (handler : Hd) (ec : Z) :
    M Os (result unit * ServerBuilder) :=
  let id := sb_next_id b in
  let next := wrap64 (id + 1) in
  let! r := add_url (sb_group b) url id ec in
  mret match r with
       | Err e =>
           (Err e, mkBuilder (sb_session b) (sb_group b) (sb_queue b) (sb_routes b) next (sb_config b))
       | Ok _ =>
           (Ok tt, mkBuilder (sb_session b) (sb_group b) (sb_queue b) (<[id := handler]> (sb_routes b))
                     next (sb_config b))
       end.

(** Drop of a builder that was never run: its fields, in their order. *)
Definition builder_drop (b : ServerBuilder) : M Os unit :=
  let! _ := initializer_drop in
  let! _ := session_drop (sb_session b) in
  let! _ := group_drop (sb_group b) in
  queue_arc_drop (sb_queue b).

(** [run]: the queue is shared with [serve], which gives its reference back when
    it ends; then [OwnedHandles] is dropped, its fields in their order. *)
Definition run_start (b : ServerBuilder) : M Os unit := queue_arc_clone.
Definition serve_end (b : ServerBuilder) : M Os unit := queue_arc_drop (sb_queue b).
Definition handles_drop (b : ServerBuilder) : M Os unit :=
  let! _ := queue_arc_drop (sb_queue b) in
  let! _ := group_drop (sb_group b) in
  let! _ := session_drop (sb_session b) in
  initializer_drop.

(** Register routes one after the other, whatever each one answers. *)
Fixpoint route_all (b : ServerBuilder) (rs : list (str * Hd * Z)) : M Os ServerBuilder :=
  match rs with
  | [] => mret b
  | (url, handler, ec) :: rs =>
      let! (_, b) := route b url handler ec in route_all b rs
  end.
End builder.
Arguments ServerBuilder Hd : clear implicits.

(** ** One request slot *)

Definition is_terminal (e : Error) : bool :=
  match win32_code e with
  | Some code =>
      (code =? ERROR_OPERATION_ABORTED) || (code =? ERROR_INVALID_HANDLE)
      || (code =? ERROR_NO_MORE_FILES)
  | None => false
  end.

Section slot.
Context `{ArrayQueue Q} `{AtomicWaker W AW} `{HttpSys K (option View)}.
Context (size_of_request : Z) (skip : bool) (address : Z).

(** [ErasedHandler::invoke]: what the handler does with the request, up to its
    response. *)
Definition Handler : Type := RequestBuffer -> M (World Q AW K) Response.
Context (routes : gmap Z Handler).

Definition reply (b : RequestBuffer) (response : Response) : M (World Q AW K) unit :=
  let request_id := buffer_request_id b in
  if negb (request_id =? 0) then
    let! _ := send_response skip address request_id response in mret tt
  else mret tt.

(** One turn of the loop after the stop flag was found clear: whether to go on,
    with the slot's pool and mode. *)
Definition slot_turn (buffers : BufferPool Q) (mode : ReceiveMode) :
    M (World Q AW K) (bool * BufferPool Q * ReceiveMode) :=
  let '(buffer, buffers) := buffer_take size_of_request buffers in
  let! (r, buffer, mode) := receive size_of_request skip buffers buffer mode in
  match r with
  | Err (HeadersTooLarge needed) =>
      let! _ := reply buffer (response_new status.HEADERS_TOO_LARGE) in
      mret (true, buffer_drop buffer buffers, mode)
  | Err e => mret (negb (is_terminal e), buffer_drop buffer buffers, mode)
  | Ok _ =>
      let request_id := buffer_request_id buffer in
      let! response :=
        match routes !! url_context buffer with
        | Some handler => handler buffer
        | None => mret (response_new status.NOT_FOUND)
        end in
      let buffers := buffer_drop buffer buffers in
      let! _ := send_response skip address request_id response in
      mret (true, buffers, mode)
  end.

(** [slot_loop] for at most [fuel] turns; [true]: it returned. *)
Fixpoint slot_loop (fuel : nat) (buffers : BufferPool Q) (mode : ReceiveMode) :
    M (World Q AW K) bool :=
  match fuel with
  | O => mret false
  | S fuel =>
      let! w := mget in
      if stop_requested (w_kern w) then mret true
      else
        let! (go_on, buffers, mode) := slot_turn buffers mode in
        if go_on then slot_loop fuel buffers mode else mret true
  end.
End slot.

(** ** Building and tearing down *)

Section builder_facts.
Context {Hd : Type}.

Lemma holds_io (f : QueueCall -> Z) open l : holds open (map (fun c => (OnQueue c, f c)) (map Io l)) = Some open.
Proof. induction l; [done|]. cbn. done. Qed.

Lemma remove_head r0 open : r0 ∉ open -> remove r0 (r0 :: open) = Some open.
Proof.
  intros Hn. unfold remove. rewrite bool_decide_eq_true_2 by set_solver.
  rewrite filter_cons, decide_False by auto. f_equal.
  induction open as [|r open IH]; [done|]. apply not_elem_of_cons in Hn as [Hr Hn].
  rewrite filter_cons, decide_True by congruence. by rewrite IH.
Qed.

(** The queue handle alone among the calls of [RequestQueue::new]. *)
Lemma queue_new_holds n m an open :
  RQueue ∉ open ->
  let log := map (fun c => (OnQueue c, queue_status an c)) (queue_new n m an).1 in
  match (queue_new n m an).2 with
  | Ok _ => holds open log = Some (RQueue :: open)
  | Err _ =>
      holds open log = Some open \/
      (an_create an = 0 /\ is_ok (ioport_new n (an_port an) (an_spawn an)).2 = false /\
       holds open log = Some (RQueue :: open))
  end.
Proof.
  intros Hn. cbn zeta. unfold queue_new, check.
  destruct (Z.eqb_spec (an_create an) 0) as [Hc|Hc].
  - destruct (ioport_new n (an_port an) (an_spawn an)) as [cs [io|e]]; cbn [snd fst].
    + unfold associate. destruct (an_attach an) as [x|hr]; cbn [fst snd app];
        rewrite ?map_cons, ?map_app, ?map_cons; cbn [queue_status holds hold_step]; rewrite Hc; cbn [Z.eqb].
      * by rewrite holds_app, holds_io.
      * left. rewrite !holds_app, holds_io. cbn [map holds hold_step queue_status].
        rewrite remove_head by done. apply holds_io.
    + right. split; [done|]. split; [done|]. cbn [map holds hold_step queue_status].
      rewrite Hc. apply holds_io.
  - left. cbn. by rewrite (proj2 (Z.eqb_neq _ _) Hc).
Qed.

Lemma queue_drop_holds q open :
  RQueue ∉ open ->
  holds (RQueue :: open) (map (fun c => (OnQueue c, 0)) (queue_drop q)) = Some open.
Proof.
  intros Hn. cbn [queue_drop map holds hold_step]. rewrite remove_head by done. apply (holds_io (fun _ => 0)).
Qed.

(** The world a program starts in, and the resources of a builder. *)
Definition os_start : Os := mkOs [] 0 0.
Definition built (g : UrlGroup) : list Resource :=
  [RQueue; RGroup (g_session g) (g_id g); RSession (g_session g); RInit].


Definition in_state (open : list Resource) (sr qr : nat) (s : Os) : Prop :=
  holds [] (os_log s) = Some open /\ session_refs s = sr /\ queue_refs s = qr.

(** A partial-correctness triple for operations on the log. *)
Definition hoare {A} (P : Os -> Prop) (m : M Os A) (R : A -> Os -> Prop) : Prop :=
  forall s, P s -> R (m s).1 (m s).2.

Lemma hoare_bind {A B} P (m : M Os A) (f : A -> M Os B) R R' :
  hoare P m R -> (forall x, hoare (R x) (f x) R') -> hoare P (mbind m f) R'.
Proof.
  intros Hm Hf s Hs. unfold mbind. specialize (Hm s Hs). destruct (m s) as [x s']. by apply Hf.
Qed.

Lemma hoare_ret {A} (P : Os -> Prop) (x : A) (R : A -> Os -> Prop) :
  (forall s, P s -> R x s) -> hoare P (mret x) R.
Proof. intros H s Hs. by apply H. Qed.

Lemma hoare_pure {A} (p : Prop) (P : Os -> Prop) (m : M Os A) R :
  (p -> hoare P m R) -> hoare (fun s => p /\ P s) m R.
Proof. intros Hm s [Hp Hs]. by apply Hm. Qed.

Lemma hoare_call c ec open open' sr qr :
  hold_step open c ec = Some open' ->
  hoare (in_state open sr qr) (call c ec) (fun _ => in_state open' sr qr).
Proof.
  intros Hstep s (Ho & Hs & Hq). unfold call, mmodify. cbn. split; [|done].
  cbn. by rewrite holds_app, Ho, <- Hstep; cbn; destruct (hold_step open c ec).
Qed.

Lemma hoare_calls cs open open' sr qr :
  holds open cs = Some open' ->
  hoare (in_state open sr qr) (calls cs) (fun _ => in_state open' sr qr).
Proof.
  intros Hh s (Ho & Hs & Hq). rewrite calls_spec. split; [|done]. cbn. by rewrite holds_app, Ho.
Qed.

(** Each drop undoes its creation. *)
Lemma hoare_initializer_drop qr sr :
  hoare (in_state [RInit] sr qr) initializer_drop (fun _ => in_state [] sr qr).
Proof. by apply hoare_call. Qed.

Lemma hoare_session_drop id qr :
  hoare (in_state [RSession id; RInit] 1 qr) (session_drop id) (fun _ => in_state [RInit] 0 qr).
Proof.
  intros s (Ho & Hs & Hq). unfold session_drop, mbind, mget, mmodify. rewrite Hs. cbn.
  apply (hoare_call (HttpCloseServerSession id) 0 [RSession id; RInit] [RInit] 0 qr) with
    (s := mkOs (os_log s) 0 (queue_refs s)); [|done].
  cbn [hold_step existsb orb]. apply remove_head. set_solver.
Qed.

Lemma hoare_group_drop g qr :
  hoare (in_state [RGroup (g_session g) (g_id g); RSession (g_session g); RInit] 2 qr) (group_drop g)
    (fun _ => in_state [RSession (g_session g); RInit] 1 qr).
Proof.
  eapply hoare_bind.
  - eapply (hoare_call _ 0 _ [RSession (g_session g); RInit]). cbn [hold_step find].
    rewrite Z.eqb_refl. apply remove_head. set_solver.
  - intros _ s (Ho & Hs & Hq). unfold session_drop, mbind, mget, mmodify. rewrite Hs. done.
Qed.

Lemma hoare_queue_drop g q :
  hoare (in_state (built g) 2 1) (queue_arc_drop q)
    (fun _ => in_state [RGroup (g_session g) (g_id g); RSession (g_session g); RInit] 2 0).
Proof.
  intros s (Ho & Hs & Hq). unfold queue_arc_drop, mbind, mget, mmodify. rewrite Hq. cbn.
  apply (hoare_calls (map (fun c => (OnQueue c, 0)) (queue_drop q)) (built g)) with
    (s := mkOs (os_log s) (session_refs s) 0); [|done]. apply queue_drop_holds. set_solver.
Qed.

(** ** [with_config] *)

(** The one way to lose a handle: the queue was created and its port was not. *)
Definition queue_leaks (config : ServerConfig) (ba : BuildAnswers) : Prop :=
  an_create (ba_queue ba) = 0 /\
  is_ok (ioport_new (io_threads config) (an_port (ba_queue ba)) (an_spawn (ba_queue ba))).2 = false.

Section with_config.
Context (config : ServerConfig) (ba : BuildAnswers).

(** The state on a failing path, with what the path still has to drop. *)
Definition failing (open : list Resource) (sr : nat) (s : Os) : Prop :=
  in_state open sr 0 s \/ (queue_leaks config ba /\ in_state (RQueue :: open) sr 0 s).

Definition outcome {A} (RO : A -> Os -> Prop) (RE : Os -> Prop) (r : result A) : Os -> Prop :=
  match r with Ok x => RO x | Err _ => RE end.

Lemma hoare_guarded {A} P (m : M Os (result A)) drop RO RE RE' :
  hoare P m (outcome RO RE) -> hoare RE drop (fun _ => RE') ->
  hoare P (guarded m drop) (outcome RO RE').
Proof.
  intros Hm Hdrop. eapply hoare_bind; [exact Hm|]. intros [x|e].
  - by apply hoare_ret.
  - eapply hoare_bind; [exact Hdrop|]. intros []. by apply hoare_ret.
Qed.

Lemma hoare_try {A B} P (m : M Os (result A)) (f : A -> M Os (result B)) RO RO' RE :
  hoare P m (outcome RO RE) -> (forall x, hoare (RO x) (f x) (outcome RO' RE)) ->
  hoare P (mtry m f) (outcome RO' RE).
Proof.
  intros Hm Hf. eapply hoare_bind; [exact Hm|]. intros [x|e]; [apply Hf|]. by apply hoare_ret.
Qed.

(** A call whose status decides between going on and failing. *)
Lemma hoare_checked {A} c ec open open' sr qr (f : unit -> M Os (result A)) RO (RE : Os -> Prop) :
  hold_step open c ec = Some (if ec =? 0 then open' else open) ->
  hoare (in_state open' sr qr) (f tt) (outcome RO RE) ->
  (forall s, in_state open sr qr s -> RE s) ->
  hoare (in_state open sr qr) (let! _ := call c ec in mtry (mret (check ec)) f) (outcome RO RE).
Proof.
  intros Hstep Hf HE. eapply hoare_bind; [by apply hoare_call|]. intros [].
  unfold check. destruct (ec =? 0).
  - apply Hf.
  - apply hoare_ret. exact HE.
Qed.

Lemma remove_second r1 r2 open :
  r1 <> r2 -> r2 ∉ open -> remove r2 (r1 :: r2 :: open) = Some (r1 :: open).
Proof.
  intros Hne Hn. pose proof (remove_head r2 open Hn) as Hr. unfold remove in *.
  rewrite bool_decide_eq_true_2 in * by set_solver. injection Hr as Hr.
  by rewrite filter_cons, decide_True, Hr by done.
Qed.

Lemma failing_session_drop id :
  hoare (failing [RSession id; RInit] 1) (session_drop id) (fun _ => failing [RInit] 0).
Proof.
  intros s [Hs|[HL (Ho & Hs & Hq)]].
  - left. by apply hoare_session_drop.
  - right. split; [done|]. unfold session_drop, mbind, mget, mmodify. rewrite Hs. cbn.
    apply (hoare_call (HttpCloseServerSession id) 0 [RQueue; RSession id; RInit] [RQueue; RInit] 0 0)
      with (s := mkOs (os_log s) 0 (queue_refs s)); [|done].
    cbn [hold_step existsb orb]. apply remove_second; [done|set_solver].
Qed.

Lemma failing_group_drop g :
  hoare (failing [RGroup (g_session g) (g_id g); RSession (g_session g); RInit] 2) (group_drop g)
    (fun _ => failing [RSession (g_session g); RInit] 1).
Proof.
  intros s [Hs|[HL Hs]]; [left; by apply hoare_group_drop|right; split; [done|]].
  revert s Hs. change (hoare
    (in_state (RQueue :: [RGroup (g_session g) (g_id g); RSession (g_session g); RInit]) 2 0)
    (group_drop g) (fun _ => in_state (RQueue :: [RSession (g_session g); RInit]) 1 0)).
  eapply hoare_bind.
  - eapply (hoare_call _ 0 _ [RQueue; RSession (g_session g); RInit]). cbn [hold_step find].
    rewrite Z.eqb_refl. apply remove_second; [done|set_solver].
  - intros [] s (Ho & Hs & Hq). unfold session_drop, mbind, mget, mmodify. rewrite Hs. done.
Qed.

(** Everything released, or the queue handle leaked under [HttpTerminate]. *)
Definition released (s : Os) : Prop :=
  in_state [] 0 0 s \/ (queue_leaks config ba /\ holds [] (os_log s) = None).

Lemma failing_initializer_drop : hoare (failing [RInit] 0) initializer_drop (fun _ => released).
Proof.
  intros s [Hs|[HL (Ho & _)]]; [left; by apply hoare_initializer_drop|right].
  split; [done|]. cbn. by rewrite holds_app, Ho.
Qed.

Definition fresh_builder (b : ServerBuilder Hd) (s : Os) : Prop :=
  in_state (built (sb_group b)) 2 1 s /\ g_session (sb_group b) = sb_session b /\
  sb_routes b = ∅ /\ sb_next_id b = 1 /\ sb_config b = config.

Lemma hoare_queue_new open sr :
  RQueue ∉ open ->
  hoare (in_state open sr 0) (queue_arc_new (io_threads config) (concurrency config) (ba_queue ba))
    (outcome (fun _ => in_state (RQueue :: open) sr 1) (failing open sr)).
Proof.
  intros Hn. pose proof (queue_new_holds (io_threads config) (concurrency config) (ba_queue ba) open Hn)
    as Hh. cbn zeta in Hh. unfold queue_arc_new.
  destruct (queue_new (io_threads config) (concurrency config) (ba_queue ba)) as [cs [q|e]];
    cbn [fst snd] in Hh.
  - eapply hoare_bind; [by apply hoare_calls|]. intros [] s (? & ? & ?). done.
  - destruct Hh as [Hh|(? & ? & Hh)]; (eapply hoare_bind; [by apply hoare_calls|]);
      intros [] s Hs; [by left|right; split; done].
Qed.

Lemma with_config_spec :
  hoare (fun s => s = os_start) (with_config config ba) (outcome fresh_builder released).
Proof.
  enough (H : hoare (in_state [] 0 0) (with_config config ba) (outcome fresh_builder released))
    by (intros s ->; by apply H).
  unfold with_config. eapply (hoare_try _ _ _ (fun _ => in_state [RInit] 0 0)).
  { eapply hoare_bind; [by apply hoare_call|]. intros []. unfold check.
    destruct (ba_init ba =? 0); apply hoare_ret; [done|]. intros s Hs. by left. }
  intros []. eapply hoare_guarded; [|apply failing_initializer_drop].
  set (sid := (ba_session ba).2). set (gid := (ba_group ba).2).
  eapply (hoare_try _ _ _ (fun id s => id = sid /\ in_state [RSession id; RInit] 1 0 s)).
  { eapply hoare_checked; [reflexivity| |intros s Hs; by left]. by intros s (? & ? & ?). }
  intros id. apply hoare_pure. intros ->.
  eapply hoare_guarded; [|apply failing_session_drop].
  set (g := mkGroup sid gid).
  eapply (hoare_try _ _ _ (fun x s => x = g /\ in_state [RGroup sid gid; RSession sid; RInit] 2 0 s)).
  { eapply hoare_checked; [reflexivity| |intros s Hs; by left].
    intros s (? & Hs & ?). cbn. by rewrite Hs. }
  intros x. apply hoare_pure. intros ->.
  eapply hoare_guarded; [|apply failing_group_drop].
  eapply hoare_try; [apply hoare_queue_new; set_solver|]. intros q.
  change (RQueue :: _) with (built g).
  eapply (hoare_guarded _ _ _ _ (in_state (built g) 2 1));
    [|intros s Hs; left; by apply hoare_queue_drop].
  eapply (hoare_try _ _ _ (fun _ => in_state (built g) 2 1)).
  { eapply hoare_bind; [by apply hoare_call|]. intros []. unfold check.
    destruct (ba_bind ba =? 0); by apply hoare_ret. }
  intros []. eapply (hoare_checked _ _ _ (built g)); [by destruct (ba_length ba =? 0)| |done].
  apply hoare_ret. intros s Hs. by repeat split; try apply Hs.
Qed.
End with_config.

(** C29. [ServerBuilder::with_config] on every branch.  Success leaves exactly the
    four handles open, the session shared with the group, no route, and ids
    starting at 1.  Failure, wherever it happens, has closed everything it
    opened, each handle before the ones it depends on, the API last; the one
    exception is a queue whose port could not be made, which is still open when
    the API is terminated. *)
Theorem with_config_releases config ba :
  let '(r, s) := with_config config ba os_start in
  match r with
  | Ok b =>
      holds [] (os_log s) =
        Some [RQueue; RGroup (sb_session b) (g_id (sb_group b)); RSession (sb_session b); RInit] /\
      session_refs s = 2%nat /\ queue_refs s = 1%nat /\
      sb_routes b = (∅ : gmap Z Hd) /\ sb_next_id b = 1 /\ sb_config b = config
  | Err _ =>
      holds [] (os_log s) = Some [] \/ (queue_leaks config ba /\ holds [] (os_log s) = None)
  end.
Proof.
  pose proof (with_config_spec config ba os_start eq_refl) as Hs.
  destruct (with_config config ba os_start) as [[b|e] s]; cbn in Hs.
  - destruct Hs as ((Ho & H1 & H2) & Hg & H3 & H4 & H5). unfold built in Ho. rewrite Hg in Ho. auto 10.
  - destruct Hs as [(Ho & _)|Hs]; [by left|by right].
Qed.

(** ** Routes *)

Lemma route_state (b : ServerBuilder Hd) url handler ec open sr qr s :
  in_state open sr qr s ->
  in_state open sr qr (route b url handler ec s).2 /\
  sb_session (route b url handler ec s).1.2 = sb_session b /\
  sb_group (route b url handler ec s).1.2 = sb_group b /\
  sb_queue (route b url handler ec s).1.2 = sb_queue b.
Proof.
  intros (Ho & Hs & Hq). unfold route, add_url, mbind, call, mmodify, mret, in_state.
  cbn [os_log session_refs queue_refs snd fst].
  destruct (check ec); cbn; rewrite holds_app, Ho; cbn; auto 10.
Qed.

Lemma route_all_state rs (b : ServerBuilder Hd) open sr qr s :
  in_state open sr qr s ->
  in_state open sr qr (route_all b rs s).2 /\
  sb_session (route_all b rs s).1 = sb_session b /\
  sb_group (route_all b rs s).1 = sb_group b /\
  sb_queue (route_all b rs s).1 = sb_queue b.
Proof.
  revert b s. induction rs as [|[[url handler] ec] rs IH]; intros b s Hs; [done|].
  cbn [route_all]. unfold mbind. pose proof (route_state b url handler ec open sr qr s Hs) as (Hs' & H1 & H2 & H3).
  destruct (route b url handler ec s) as [[r b'] s'] eqn:E. cbn [fst snd] in *.
  destruct (IH b' s' Hs') as (? & ? & ? & ?). split; [done|]. repeat split; congruence.
Qed.

(** A log that closed something too early stays wrong. *)
Definition broken (s : Os) : Prop := holds [] (os_log s) = None.

Lemma broken_call c ec : hoare broken (call c ec) (fun _ => broken).
Proof. intros s Hs. unfold broken in *. cbn. by rewrite holds_app, Hs. Qed.

Lemma broken_calls cs : hoare broken (calls cs) (fun _ => broken).
Proof. intros s Hs. unfold broken in *. rewrite calls_spec. cbn. by rewrite holds_app, Hs. Qed.

Lemma broken_session_drop id : hoare broken (session_drop id) (fun _ => broken).
Proof.
  intros s Hs. unfold session_drop, mbind, mget, mmodify. cbn.
  destruct (_ =? _)%nat; [|exact Hs]. by apply (broken_call _ _ (mkOs (os_log s) _ _)).
Qed.

Lemma broken_queue_drop q : hoare broken (queue_arc_drop q) (fun _ => broken).
Proof.
  intros s Hs. unfold queue_arc_drop, mbind, mget, mmodify. cbn -[calls].
  destruct (_ =? _)%nat; [|exact Hs]. by apply (broken_calls _ (mkOs (os_log s) _ _)).
Qed.

(** A server that is run and stopped closes everything in order. *)
Lemma run_teardown (b : ServerBuilder Hd) :
  g_session (sb_group b) = sb_session b ->
  hoare (in_state (built (sb_group b)) 2 1)
    (let! _ := run_start b in let! _ := serve_end b in handles_drop b) (fun _ => in_state [] 0 0).
Proof.
  intros Hg. eapply (hoare_bind _ _ _ (fun _ => in_state (built (sb_group b)) 2 2)).
  { intros s0 (? & ? & Hq). unfold run_start, queue_arc_clone, mmodify. cbn. by rewrite Hq. }
  intros []. eapply (hoare_bind _ _ _ (fun _ => in_state (built (sb_group b)) 2 1)).
  { intros s0 (? & ? & Hq). unfold serve_end, queue_arc_drop, mbind, mget, mmodify. rewrite Hq. done. }
  intros []. unfold handles_drop.
  eapply hoare_bind; [apply hoare_queue_drop|]. intros [].
  eapply hoare_bind; [apply hoare_group_drop|]. intros []. rewrite Hg.
  eapply hoare_bind; [apply hoare_session_drop|]. intros []. apply hoare_initializer_drop.
Qed.

(** A builder dropped without being run terminates the API first. *)
Lemma builder_drop_broken (b : ServerBuilder Hd) :
  hoare (in_state (built (sb_group b)) 2 1) (builder_drop b) (fun _ => broken).
Proof.
  unfold builder_drop. eapply (hoare_bind _ _ _ (fun _ => broken)).
  { intros s0 (Ho & _). unfold broken. cbn. by rewrite holds_app, Ho. }
  intros []. eapply hoare_bind; [apply broken_session_drop|]. intros [].
  eapply (hoare_bind _ _ _ (fun _ => broken)); [|intros []; apply broken_queue_drop].
  eapply hoare_bind; [apply broken_call|]. intros []. apply broken_session_drop.
Qed.

(** C28. Tearing a server down.  Built, given any routes, run and stopped, it closes
    every handle in the right order: the queue, the group, the session, and
    only then the API.  Built, given the same routes and dropped without being
    run, it does not: the builder's fields are dropped in another order, and the
    API is terminated while the queue, the group and the session are open. *)
Theorem teardown_order config ba rs b s :
  with_config config ba os_start = (Ok b, s) ->
  let '(b, s) := route_all (b : ServerBuilder Hd) rs s in
  holds [] (os_log
    ((let! _ := run_start b in let! _ := serve_end b in handles_drop b) s).2) = Some [] /\
  holds [] (os_log (builder_drop b s).2) = None.
Proof.
  intros Hb. pose proof (with_config_spec config ba os_start eq_refl) as Hf. rewrite Hb in Hf.
  destruct Hf as (Hst & Hg & _). cbn [fst snd] in Hst.
  destruct (route_all_state rs b (built (sb_group b)) 2 1 s Hst) as (Hst' & E1 & E2 & E3).
  destruct (route_all b rs s) as [b' s']. cbn [fst snd] in *.
  assert (Hg' : g_session (sb_group b') = sb_session b') by congruence.
  rewrite <- E2 in Hst'. split; [by apply (run_teardown b' Hg')|by apply builder_drop_broken].
Qed.

Lemma route_eq (b : ServerBuilder Hd) url handler ec s :
  route b url handler ec s =
    ((check ec,
      mkBuilder (sb_session b) (sb_group b) (sb_queue b)
        (if ec =? 0 then <[sb_next_id b := handler]> (sb_routes b) else sb_routes b)
        (wrap64 (sb_next_id b + 1)) (sb_config b)),
     mkOs (os_log s ++
       [(HttpAddUrlToUrlGroup (g_id (sb_group b)) (normalize_prefix url) (sb_next_id b), ec)])
       (session_refs s) (queue_refs s)).
Proof.
  unfold route, add_url, mbind, call, mmodify, mret, check. by destruct (ec =? 0).
Qed.

Lemma route_all_spec rs (b : ServerBuilder Hd) s :
  0 <= sb_next_id b -> sb_next_id b + zlen rs < 2 ^ 64 ->
  (forall k, sb_next_id b <= k -> sb_routes b !! k = None) ->
  let b' := (route_all b rs s).1 in
  os_log (route_all b rs s).2 =
    os_log s ++ imap (fun i '(url, _, ec) =>
      (HttpAddUrlToUrlGroup (g_id (sb_group b)) (normalize_prefix url) (sb_next_id b + Z.of_nat i), ec)) rs /\
  (forall k h, sb_routes b' !! k = Some h <->
     (sb_routes b !! k = Some h \/
      exists i url, rs !! i = Some (url, h, 0) /\ k = sb_next_id b + Z.of_nat i)) /\
  sb_next_id b' = sb_next_id b + zlen rs.
Proof.
  revert b s. induction rs as [|[[url handler] ec] rs IH]; intros b s Hn Hlt Hfree; cbn zeta.
  { cbn. rewrite app_nil_r. split; [done|]. split; [|change (zlen []) with 0; lia].
    intros k h. split; [auto|]. intros [?|(i & url & Hi & _)]; [done|]. by rewrite lookup_nil in Hi. }
  rewrite zlen_cons in *. pose proof (zlen_nonneg rs).
  assert (Hw : wrap64 (sb_next_id b + 1) = sb_next_id b + 1) by (apply wrap_small; split; lia).
  cbn [route_all]. unfold mbind. rewrite route_eq, Hw.
  set (b1 := mkBuilder _ _ _ _ _ _). set (s1 := mkOs _ _ _).
  destruct (IH b1 s1) as (Hlog & Hroutes & Hnext).
  { cbn. lia. }
  { cbn. lia. }
  { intros k Hk. cbn in *. destruct (ec =? 0); [rewrite lookup_insert_ne by lia|]; apply Hfree; lia. }
  split; [|split].
  - rewrite Hlog. unfold s1. cbn [os_log imap]. rewrite <- (assoc_L (++)). f_equal.
    cbn [app]. rewrite Z.add_0_r. f_equal.
    apply imap_ext. intros i [[url' h'] ec'] _. cbn. do 2 f_equal. lia.
  - intros k h. rewrite Hroutes. cbn [sb_routes sb_next_id b1]. split.
    + intros [Hk|(i & url' & Hi & ->)].
      * destruct (Z.eqb_spec ec 0) as [->|]; [|auto].
        apply lookup_insert_Some in Hk as [[<- <-]|[_ Hk]]; [|auto].
        right. exists O, url. split; [done|lia].
      * right. exists (S i), url'. split; [done|lia].
    + intros [Hk|([|i] & url' & Hi & ->)].
      * left. destruct (ec =? 0); [|done]. rewrite lookup_insert_ne; [done|].
        intros <-. rewrite Hfree in Hk by lia. done.
      * left. cbn in Hi. simplify_eq. cbn [Z.eqb]. rewrite Z.add_0_r. apply lookup_insert_eq.
      * right. exists i, url'. split; [done|lia].
  - rewrite Hnext. cbn. lia.
Qed.

(** C18. Which handler answers which prefix.  After any sequence of [route] calls on a
    new builder, the [i]th call has registered its prefix, normalised, with the
    context [i + 1] at the kernel, and the routes map exactly the contexts of the
    calls that succeeded to the handlers given in those calls.  No two calls
    share a context, a failed call's context is never used again, and context 0
    has no handler. *)
Theorem routes_resolve config ba (b : ServerBuilder Hd) s rs :
  with_config config ba os_start = (Ok b, s) -> zlen rs < 2 ^ 64 - 1 ->
  let '(b', s') := route_all b rs s in
  (forall i url h ec, rs !! i = Some (url, h, ec) ->
     os_log s' !! (length (os_log s) + i)%nat =
       Some (HttpAddUrlToUrlGroup (g_id (sb_group b)) (normalize_prefix url) (Z.of_nat i + 1), ec)) /\
  (forall k h, sb_routes b' !! k = Some h <->
     exists i url, rs !! i = Some (url, h, 0) /\ k = Z.of_nat i + 1) /\
  sb_routes b' !! 0 = None.
Proof.
  intros Hb Hlen. pose proof (with_config_spec config ba os_start eq_refl) as Hf. rewrite Hb in Hf.
  destruct Hf as (_ & _ & Hr & Hn & _).
  destruct (route_all_spec rs b s) as (Hlog & Hroutes & _); [lia|lia|by intros; rewrite Hr|].
  destruct (route_all b rs s) as [b' s']. cbn [fst snd] in *. rewrite Hn, Hr in *.
  assert (Hiff : forall k h, sb_routes b' !! k = Some h <->
     exists i url, rs !! i = Some (url, h, 0) /\ k = Z.of_nat i + 1).
  { intros k h. rewrite Hroutes, lookup_empty. split.
    - intros [?|(i & url & ? & ->)]; [done|]. exists i, url. split; [done|lia].
    - intros (i & url & ? & ->). right. exists i, url. split; [done|lia]. }
  split; [|split; [exact Hiff|]].
  - intros i url h ec Hi. rewrite Hlog, lookup_app_r by lia. rewrite Nat.add_sub_swap, Nat.sub_diag by lia.
    cbn [Nat.add]. rewrite list_lookup_imap, Hi. cbn. by rewrite Z.add_comm.
  - destruct (sb_routes b' !! 0) as [h|] eqn:E; [|done].
    apply Hiff in E as (i & url & _ & ?). lia.
Qed.
End builder_facts.

(** ** The slot *)

Section slot_facts.
Context `{ArrayQueueLaws Q} `{AtomicWaker W AW} `{HttpSys K (option View)}.
Context (cx : W) (size_of_request : Z) (skip : bool) (address : Z).
Context (routes : gmap Z (Handler (Q := Q) (AW := AW) (K := K))).
Implicit Types (w : World Q AW K) (k : K).

Lemma mbind_run {Wd A B} (m : M Wd A) (f : A -> M Wd B) (w : Wd) x (w' : Wd) :
  m w = (x, w') -> mbind m f w = f x w'.
Proof. intros E. unfold mbind. by rewrite E. Qed.

(** The kernel after it was given response [r] for request [id]. *)
Definition answered k (id : Z) (r : Response) : K :=
  (HttpSendHttpResponse k id (kernel_view r address (as_ptr address (to_raw r)))
     (mkPolicy <$> cache_seconds r)).2.

Lemma runs_send w id r :
  quiescent (w_heap w) ->
  exists res, runs_to (send_response skip address id r) w res (answered (w_kern w) id r).
Proof.
  intros Hq. unfold send_response, answered.
  destruct (HttpSendHttpResponse _ _ _ _) as [a k] eqn:Hcall.
  eexists. eapply runs_bind; [apply (runs_submit cx _ _ _ a tt k); [done|by rewrite Hcall]|].
  intros h Hh. cbn beta iota. by apply (runs_ret _ (mkWorld k h (w_bodies w))).
Qed.

(** What a handler does with a request: from kernel [k] and body pool [p] it
    answers [r] and leaves kernel [k'] and pool [p'], with its own operations
    finished. *)
Definition handles (h : Handler) (b : RequestBuffer) k (p : BodyPool Q) (r : Response) k'
    (p' : BodyPool Q) : Prop :=
  forall heap, quiescent heap ->
    exists heap', h b (mkWorld k heap p) = (r, mkWorld k' heap' p') /\ quiescent heap'.

(** The response to a received request, and the world it leaves. *)
Definition dispatch (b : RequestBuffer) k (p : BodyPool Q) (r : Response) k' (p' : BodyPool Q) : Prop :=
  match routes !! url_context b with
  | Some h => handles h b k p r k' p'
  | None => r = response_new status.NOT_FOUND /\ k' = k /\ p' = p
  end.

(** A turn that received a request for a registered handler, whatever the handler
    does with the state of the operations. *)
Lemma slot_turn_handled w pool mode b0 pool0 b mode' k1 (h : Handler (Q := Q) (AW := AW) (K := K))
    (R : Response -> K -> BodyPool Q -> Prop) :
  quiescent (w_heap w) ->
  buffer_take size_of_request pool = (b0, pool0) ->
  receive_spec size_of_request skip pool0 b0 mode (w_kern w) = ((Ok tt, b, mode'), k1) ->
  routes !! url_context b = Some h ->
  (forall heap, quiescent heap -> exists r w2,
     h b (mkWorld k1 heap (w_bodies w)) = (r, w2) /\ quiescent (w_heap w2) /\
     R r (w_kern w2) (w_bodies w2)) ->
  exists r k2 p2 heap, R r k2 p2 /\ quiescent heap /\
    slot_turn size_of_request skip address routes pool mode w =
      ((true, buffer_drop b pool0, mode'), mkWorld (answered k2 (buffer_request_id b) r) heap p2).
Proof.
  intros Hq Htake Hspec Hroute Hh.
  pose proof (runs_receive cx size_of_request skip w pool0 b0 mode Hq) as Hr.
  rewrite Hspec in Hr. destruct Hr as (h1 & Hrun & Hq1).
  destruct (Hh h1 Hq1) as (r & w2 & Hrun2 & Hq2 & HR).
  destruct (runs_send w2 (buffer_request_id b) r Hq2) as (res & h3 & Hs & Hq3).
  exists r, (w_kern w2), (w_bodies w2), h3. split; [done|]. split; [done|].
  assert (Hm : (match routes !! url_context b with
      | Some handler => handler b
      | None => mret (response_new status.NOT_FOUND)
      end) (mkWorld k1 h1 (w_bodies w)) = (r, w2)).
  { exact (eq_trans (f_equal (fun o => match o with
        | Some handler => handler b
        | None => mret (response_new status.NOT_FOUND)
        end (mkWorld k1 h1 (w_bodies w))) Hroute) Hrun2). }
  unfold slot_turn. rewrite Htake, (mbind_run _ _ _ _ _ Hrun). unfold mbind. by rewrite Hm, Hs.
Qed.

(** A turn that received a request. *)
Lemma slot_turn_received w pool mode b0 pool0 b mode' k1 r k2 p2 :
  quiescent (w_heap w) ->
  buffer_take size_of_request pool = (b0, pool0) ->
  receive_spec size_of_request skip pool0 b0 mode (w_kern w) = ((Ok tt, b, mode'), k1) ->
  dispatch b k1 (w_bodies w) r k2 p2 ->
  exists heap, quiescent heap /\
    slot_turn size_of_request skip address routes pool mode w =
      ((true, buffer_drop b pool0, mode'), mkWorld (answered k2 (buffer_request_id b) r) heap p2).
Proof.
  intros Hq Htake Hspec Hd. unfold dispatch in Hd. destruct (routes !! url_context b) as [h|] eqn:Hroute.
  - destruct (slot_turn_handled w pool mode b0 pool0 b mode' k1 h
      (fun r' k p => r' = r /\ k = k2 /\ p = p2) Hq Htake Hspec Hroute)
      as (r' & k & p & heap & (-> & -> & ->) & Hqh & Hturn); [|by exists heap].
    intros h1 Hq1. destruct (Hd h1 Hq1) as (h2 & Hh & Hq2). by exists r, (mkWorld k2 h2 p2).
  - destruct Hd as (-> & -> & ->).
    pose proof (runs_receive cx size_of_request skip w pool0 b0 mode Hq) as Hr.
    rewrite Hspec in Hr. destruct Hr as (h1 & Hrun & Hq1).
    destruct (runs_send (mkWorld k1 h1 (w_bodies w)) (buffer_request_id b)
      (response_new status.NOT_FOUND) Hq1) as (res & h3 & Hs & Hq3).
    exists h3. split; [done|].
    unfold slot_turn. rewrite Htake, (mbind_run _ _ _ _ _ Hrun). unfold mbind at 1.
    match goal with |- context [match routes !! ?c with Some _ => _ | None => _ end] =>
      replace (routes !! c) with (@None (Handler (Q := Q) (AW := AW) (K := K))) by (symmetry; exact Hroute)
    end.
    unfold mbind, mret. by rewrite Hs.
Qed.

(** C12. One turn of a slot on every branch.  Whatever the kernel answers, the buffer
    goes back to the slot's pool and no operation is left in flight.  A received
    request is given to the handler registered for its context, or answered 404
    when there is none, and exactly one response is sent, to the id the buffer
    holds.  Headers that do not fit get a 431 if the buffer holds an id at all.
    Any other error is answered to nobody, and ends the slot when it is
    terminal. *)
Theorem slot_turn_spec w pool mode b0 pool0 x b mode' k1 :
  quiescent (w_heap w) ->
  buffer_take size_of_request pool = (b0, pool0) ->
  receive_spec size_of_request skip pool0 b0 mode (w_kern w) = ((x, b, mode'), k1) ->
  let turn := slot_turn size_of_request skip address routes pool mode w in
  let slot go_on := (go_on, buffer_drop b pool0, mode') in
  match x with
  | Ok _ =>
      forall r k2 p2, dispatch b k1 (w_bodies w) r k2 p2 ->
        exists heap, quiescent heap /\
          turn = (slot true, mkWorld (answered k2 (buffer_request_id b) r) heap p2)
  | Err (HeadersTooLarge _) =>
      exists heap, quiescent heap /\
        turn = (slot true,
          mkWorld (if buffer_request_id b =? 0 then k1
                   else answered k1 (buffer_request_id b) (response_new status.HEADERS_TOO_LARGE))
            heap (w_bodies w))
  | Err e =>
      exists heap, quiescent heap /\
        turn = (slot (negb (is_terminal e)), mkWorld k1 heap (w_bodies w))
  end.
Proof.
  intros Hq Htake Hspec. cbn zeta. destruct x as [[]|err].
  { intros r k2 p2. by eapply slot_turn_received. }
  pose proof (runs_receive cx size_of_request skip w pool0 b0 mode Hq) as Hr.
  rewrite Hspec in Hr. destruct Hr as (h1 & Hrun & Hq1).
  unfold slot_turn. rewrite Htake, !(mbind_run _ _ _ _ _ Hrun). destruct err as [code|needed|].
  - exists h1. split; done.
  - unfold reply. destruct (Z.eqb_spec (buffer_request_id b) 0) as [Hz|Hz]; cbn [negb].
    + exists h1. split; done.
    + destruct (runs_send (mkWorld k1 h1 (w_bodies w)) (buffer_request_id b)
        (response_new status.HEADERS_TOO_LARGE) Hq1) as (res & h3 & Hs & Hq3).
      exists h3. split; [done|]. unfold mbind. rewrite Hs. done.
  - exists h1. split; done.
Qed.

(** C25. A request the slot loses.  The slot is in headers-only mode; the kernel hands
    over request [id] of a registered context, declaring a body the buffer is too
    small for but the configuration allows.  Then, since context 0 has no
    handler, no handler runs: the one response sent is a 404 addressed to request
    0, and request [id] gets none. *)
Theorem slot_loses_request w pool b0 pool0 a b k1 n d :
  quiescent (w_heap w) -> routes !! 0 = None ->
  buffer_take size_of_request pool = (b0, pool0) ->
  attempt (w_kern w) b0 0 0 = (a, b, k1) -> io_result skip a = Ok n ->
  declared_body_len b = Some d ->
  capacity b < d + HEADER_SLACK -> d + HEADER_SLACK <= bp_max_bytes pool0 ->
  bp_max_bytes pool0 < 2 ^ 64 - 1 ->
  exists heap pool' mode',
    slot_turn size_of_request skip address routes pool (mkMode false) w =
      ((true, pool', mode'),
       mkWorld (answered k1 0 (response_new status.NOT_FOUND)) heap (w_bodies w)).
Proof.
  intros Hq Hroute Htake Ha Hn Hd Hsmall Hfits Hmax.
  destruct (fit_body_inline_grows size_of_request pool0 b d Hd ltac:(lia) ltac:(lia)) as (b' & Hfit & Hh).
  assert (Hspec : receive_spec size_of_request skip pool0 b0 (mkMode false) (w_kern w) =
    ((Ok tt, b', mkMode true), k1)).
  { unfold receive_spec. cbn [copy_body]. rewrite Ha. unfold conclude. by rewrite Hn, Hfit. }
  destruct (slot_turn_received w pool (mkMode false) b0 pool0 _ _ _ (response_new status.NOT_FOUND)
    k1 (w_bodies w) Hq Htake Hspec) as (heap & _ & Hturn).
  { unfold dispatch, url_context, base. rewrite Hh. cbn. by rewrite Hroute. }
  exists heap, (buffer_drop b' pool0), (mkMode true). rewrite Hturn.
  unfold buffer_request_id. by rewrite Hh.
Qed.

(** A handler that finishes its operations and puts back the vectors it takes. *)
Definition handler_safe (n cap : Z) (h : Handler) : Prop :=
  forall b w, quiescent (w_heap w) -> body_pool_ok n cap (w_bodies w) ->
    quiescent (w_heap (h b w).2) /\ body_pool_ok n cap (w_bodies (h b w).2).

Lemma slot_turn_safe n cap w pool mode :
  map_Forall (fun _ => handler_safe n cap) routes ->
  quiescent (w_heap w) -> body_pool_ok n cap (w_bodies w) ->
  let w' := (slot_turn size_of_request skip address routes pool mode w).2 in
  quiescent (w_heap w') /\ body_pool_ok n cap (w_bodies w').
Proof.
  intros Hsafe Hq Hp. cbn zeta.
  destruct (buffer_take size_of_request pool) as [b0 pool0] eqn:Htake.
  destruct (receive_spec size_of_request skip pool0 b0 mode (w_kern w)) as [[[x b] mode'] k1] eqn:Hspec.
  pose proof (runs_receive cx size_of_request skip w pool0 b0 mode Hq) as Hr.
  rewrite Hspec in Hr. destruct Hr as (h1 & Hrun & Hq1).
  unfold slot_turn. rewrite Htake, (mbind_run _ _ _ _ _ Hrun). set (w1 := mkWorld k1 h1 (w_bodies w)).
  destruct x as [[]|[code|needed|]]; [|by split| |by split].
  - assert (Hd : let r := (match routes !! url_context b with
        | Some handler => handler b
        | None => mret (response_new status.NOT_FOUND)
        end) w1 in quiescent (w_heap r.2) /\ body_pool_ok n cap (w_bodies r.2)).
    { destruct (routes !! url_context b) as [h|] eqn:Hh; [|by split].
      by apply (Hsafe _ _ Hh b w1). }
    destruct (_ w1) as [r w2] eqn:E in Hd. destruct Hd as [Hq2 Hp2]. rewrite (mbind_run _ _ _ _ _ E).
    destruct (runs_send w2 (buffer_request_id b) r Hq2) as (res & h3 & Hs & Hq3).
    rewrite (mbind_run _ _ _ _ _ Hs). by split.
  - unfold reply. destruct (negb _); [|by split].
    destruct (runs_send w1 (buffer_request_id b) (response_new status.HEADERS_TOO_LARGE) Hq1)
      as (res & h3 & Hs & Hq3).
    unfold mbind. rewrite Hs. by split.
Qed.

(** Whatever the kernel answers and however long it runs, a slot whose handlers
    clean up after themselves never leaves an operation in flight, and the body
    pool it shares keeps to its bounds. *)
Theorem slot_loop_safe n cap fuel w pool mode :
  map_Forall (fun _ => handler_safe n cap) routes ->
  quiescent (w_heap w) -> body_pool_ok n cap (w_bodies w) ->
  let w' := (slot_loop size_of_request skip address routes fuel pool mode w).2 in
  quiescent (w_heap w') /\ body_pool_ok n cap (w_bodies w').
Proof.
  intros Hsafe. cbn zeta. revert w pool mode.
  induction fuel as [|fuel IH]; intros w pool mode Hq Hp; [done|]. cbn [slot_loop].
  rewrite (mbind_run mget _ w w w eq_refl). destruct (stop_requested (w_kern w)); [done|].
  pose proof (slot_turn_safe n cap w pool mode Hsafe Hq Hp) as [Hq' Hp'].
  destruct (slot_turn size_of_request skip address routes pool mode w) as [[[go pool'] mode'] w'] eqn:E.
  rewrite (mbind_run _ _ _ _ _ E). destruct go; [by apply IH|done].
Qed.
End slot_facts.

(** ** Witnesses *)

Section server_witnesses.
Definition demo_answers : BuildAnswers :=
  mkBuildAnswers 0 (0, 11) (0, 12)
    (mkNewAnswers 0 68 (Ok 70) (fun _ => Ok tt) (Ok 70) (Ok tt)) 0 0.

(** A handler that says hello to everybody. *)
Definition hello : Handler (Q := list_queue) (AW := option unit) (K := Script) :=
  fun _ => mret (ok_text (lit "hello")).

Lemma hello_safe n cap : handler_safe n cap hello.
Proof. intros b w Hq Hp. by split. Qed.

Definition demo_empty : BufferPool list_queue :=
  mkBufferPool (aq_new 1) 16384 131072.
End server_witnesses.

Lemma teardown_order_witness :
  exists (b : ServerBuilder unit) s,
    with_config (config_default (Some 8)) demo_answers os_start = (Ok b, s) /\
    holds [] (os_log (builder_drop b s).2) = None.
Proof.
  destruct (with_config (Hd := unit) (config_default (Some 8)) demo_answers os_start) as [[b|e] s] eqn:E;
    [|exfalso; vm_compute in E; discriminate].
  exists b, s. split; [done|].
  exact (proj2 (teardown_order (config_default (Some 8)) demo_answers [] b s E)).
Defined.

Lemma routes_resolve_witness :
  exists (b : ServerBuilder nat) s,
    with_config (config_default None) demo_answers os_start = (Ok b, s) /\
    forall k h,
      sb_routes (route_all b [(lit "http://+:80/a", 1%nat, 5); (lit "http://+:80/b/", 2%nat, 0)] s).1
        !! k = Some h <-> k = 2 /\ h = 2%nat.
Proof.
  destruct (with_config (Hd := nat) (config_default None) demo_answers os_start) as [[b|e] s] eqn:E;
    [|exfalso; vm_compute in E; discriminate].
  exists b, s. split; [done|]. intros k h.
  pose proof (routes_resolve (config_default None) demo_answers b s
    [(lit "http://+:80/a", 1%nat, 5); (lit "http://+:80/b/", 2%nat, 0)] E ltac:(reflexivity)) as H.
  destruct (route_all b _ s) as [b' s']. destruct H as (_ & Hiff & _). cbn [fst]. rewrite Hiff. split.
  - intros ([|[|i]] & url & Hi & ->); cbn in Hi; [congruence| |discriminate].
    injection Hi as _ <-. done.
  - intros [-> ->]. exists 1%nat, (lit "http://+:80/b/"). done.
Defined.

Lemma slot_loses_request_witness :
  exists heap pool mode,
    slot_turn 1000 true 64 {[7 := hello]} demo_empty (mkMode false) (demo_world demo_script) =
      ((true, pool, mode),
       mkWorld (answered 64 (mkScript [] [] []) 0 (response_new status.NOT_FOUND)) heap
         (body_pool_new 2 1048576)).
Proof.
  refine (slot_loses_request tt 1000 true 64 {[7 := hello]} (demo_world demo_script) demo_empty
    (buffer_new 1000 16384) demo_empty (io_now 0 500) demo_received (mkScript [] [] []) 500 65536
    (demo_quiescent demo_script) _ _ _ _ _ _ _ _); try reflexivity.
  vm_compute. congruence.
Defined.

Lemma slot_turn_spec_witness :
  exists heap mode,
    slot_turn 1000 true 64 {[7 := hello]} demo_empty (mkMode true)
      (demo_world (mkScript [(io_now 5 0, (zero_request, ∅))] [] [])) =
      ((true, buffer_drop (buffer_new 1000 16384) demo_empty, mode),
       mkWorld (mkScript [] [] []) heap (body_pool_new 2 1048576)).
Proof.
  destruct (slot_turn_spec tt 1000 true 64 {[7 := hello]}
    (demo_world (mkScript [(io_now 5 0, (zero_request, ∅))] [] [])) demo_empty (mkMode true)
    (buffer_new 1000 16384) demo_empty (Err (Win32 5)) (buffer_new 1000 16384) (mkMode true)
    (mkScript [] [] []) (demo_quiescent _)) as (heap & _ & Hturn); try reflexivity.
  exists heap, (mkMode true). exact Hturn.
Defined.

Lemma slot_loop_safe_witness :
  quiescent (w_heap (slot_loop 1000 true 64 {[7 := hello]} 3 demo_empty (mkMode true)
    (demo_world demo_script)).2).
Proof.
  refine (proj1 (slot_loop_safe tt 1000 true 64 {[7 := hello]} 2 1048576 3 (demo_world demo_script)
    demo_empty (mkMode true) _ (demo_quiescent demo_script) (body_pool_new_ok 2 1048576))).
  intros i h Hi. apply lookup_singleton_Some in Hi as [_ <-]. apply hello_safe.
Defined.
