(* ===== verification/Steady.v ===== *)
(** * A slot over many requests (crates/httpsys/src/server.rs, queue.rs, buffer.rs)

    How a slot adapts to what it is sent: the buffer and the receive mode it keeps
    from one turn of [slot_loop] to the next. *)

From S2P Require Import Prelude RustStd Errors Crates HttpApi Buffer Overlapped Response Queue.
From S2P Require Import Request Server.
Set Warnings "-clear-no-such-hyp".

Section steady.
Context `{ArrayQueueLaws Q} `{AtomicWaker W AW} `{HttpSys K (option View)}.
Context (cx : W) (size_of_request : Z) (skip : bool) (address : Z).
Hypothesis size_pos : 0 < size_of_request < 0x10000.
Context (routes : gmap Z (Handler (Q := Q) (AW := AW) (K := K))).
Implicit Types (w : World Q AW K) (k : K) (pool : BufferPool Q).

(** What a slot keeps between its turns, with the world it shares. *)
Definition SlotState : Type := BufferPool Q * ReceiveMode * World Q AW K.

(** [n] turns of the slot. *)
Fixpoint turns (n : nat) (s : SlotState) : SlotState :=
  match n with
  | O => s
  | S n =>
      let '(pool, mode, w) := s in
      let '((_, pool, mode), w) := slot_turn size_of_request skip address routes pool mode w in
      turns n (pool, mode, w)
  end.

(** The copying call the next receive makes, if it is in that mode. *)
Definition next_copy (s : SlotState) : IoAnswer * RequestBuffer * K :=
  let '(pool, _, w) := s in
  attempt (w_kern w) (buffer_take size_of_request pool).1 0 HTTP_RECEIVE_REQUEST_FLAG_COPY_BODY.

(** The slot copies bodies inline into the one buffer it owns, which has [n] words
    and room for [need] bytes. *)
Definition settled (n need : Z) (s : SlotState) : Prop :=
  let '(pool, mode, _) := s in
  copy_body mode = true /\ aq_cap (bp_free pool) = 1 /\
  exists b, aq_items (bp_free pool) = [b] /\ words b = n /\ need <= capacity b.

(** The next receive is the one copying call [next_copy], whatever it gives. *)
Definition one_call (s : SlotState) : Prop :=
  let '(pool, mode, w) := s in
  let '(b, pool0) := buffer_take size_of_request pool in
  let '(a, b', k) := next_copy s in
  runs_to (receive size_of_request skip pool0 b mode) w
    (result_map (fun _ => tt) (io_result skip a), b', mode) k.

(** A slot's pool gives back the one buffer that was put in it. *)
Lemma buffer_take_one pool b :
  aq_items (bp_free pool) = [b] ->
  exists pool0, buffer_take size_of_request pool = (b, pool0) /\
    aq_items (bp_free pool0) = [] /\ aq_cap (bp_free pool0) = aq_cap (bp_free pool).
Proof.
  intros Hi. unfold buffer_take. destruct (aq_pop (bp_free pool)) as [o free] eqn:Hp.
  apply aq_pop_cases in Hp as [Hc Ho]. rewrite Hi in Ho.
  destruct o as [x|]; [|by destruct Ho]. injection Ho as <- Ho. by eexists.
Qed.

Lemma buffer_drop_one b pool0 :
  aq_items (bp_free pool0) = [] -> aq_cap (bp_free pool0) = 1 ->
  aq_items (bp_free (buffer_drop b pool0)) = [b] /\ aq_cap (bp_free (buffer_drop b pool0)) = 1.
Proof.
  intros Hi Hc. unfold buffer_drop. destruct (aq_push b (bp_free pool0)) as [o free] eqn:Hp.
  apply aq_push_cases in Hp as [Hc' Ho]. cbn. rewrite Hi, Hc in *. change (zlen []) with 0 in Ho.
  destruct o; [lia|]. by destruct Ho as [_ ->].
Qed.

(** Whatever the handler and the responses do, a turn leaves in the slot the
    buffer and the mode of its receive. *)
Lemma slot_turn_keeps w pool mode b0 pool0 :
  quiescent (w_heap w) -> buffer_take size_of_request pool = (b0, pool0) ->
  let r := (receive_spec size_of_request skip pool0 b0 mode (w_kern w)).1 in
  exists go, (slot_turn size_of_request skip address routes pool mode w).1 =
    (go, buffer_drop r.1.2 pool0, r.2).
Proof.
  intros Hq Htake. cbn zeta.
  pose proof (runs_receive cx size_of_request skip w pool0 b0 mode Hq) as Hr.
  destruct (receive_spec size_of_request skip pool0 b0 mode (w_kern w)) as [[[x b] mode'] k1].
  destruct Hr as (h1 & Hrun & _). unfold slot_turn. rewrite Htake, (mbind_run _ _ _ _ _ Hrun).
  destruct x as [[]|[code|needed|]]; cbn [fst snd]; try by eexists.
  - unfold mbind, mret. destruct (routes !! url_context b) as [h|]; [destruct (h b _) as [r w2]|]; cbn beta iota;
      destruct (send_response _ _ _ _ _) as [res w3]; by eexists.
  - unfold mbind. destruct (reply _ _ _ _ _) as [res w3]. by eexists.
Qed.

(** A copying receive that the buffer has room for is one call, and changes
    neither the size of the buffer nor the mode. *)
Lemma receive_spec_copied pool b mode k a b' k' :
  copy_body mode = true ->
  attempt k b 0 HTTP_RECEIVE_REQUEST_FLAG_COPY_BODY = (a, b', k') -> more_data skip a = false ->
  receive_spec size_of_request skip pool b mode k =
    ((result_map (fun _ => tt) (io_result skip a), b', mode), k') /\ words b' = words b.
Proof.
  intros Hm Ha Hmore. unfold receive_spec. rewrite Hm, Ha, Hmore. split; [done|].
  unfold attempt in Ha. destruct (HttpReceiveHttpRequest _ _ _ _ _) as [[? [? ?]] ?].
  by injection Ha as <- <- <-.
Qed.

Lemma settled_turn n need pool mode w :
  quiescent (w_heap w) -> settled n need (pool, mode, w) ->
  more_data skip (next_copy (pool, mode, w)).1.1 = false ->
  settled n need (turns 1 (pool, mode, w)) /\ one_call (pool, mode, w).
Proof.
  intros Hq (Hm & Hc & b & Hb & Hw & Hn) Hfits.
  destruct (buffer_take_one pool b Hb) as (pool0 & Htake & Hi0 & Hc0).
  destruct (slot_turn_keeps w pool mode b pool0 Hq Htake) as (go & Hgo).
  pose proof (runs_receive cx size_of_request skip w pool0 b mode Hq) as Hrun.
  unfold one_call, next_copy in *. rewrite Htake in *. cbn [fst] in *.
  destruct (attempt _ b 0 _) as [[a b'] k'] eqn:Ha.
  destruct (receive_spec_copied pool0 b mode _ a b' k' Hm Ha Hfits) as [Hrs Hw'].
  rewrite Hrs in *. split; [|exact Hrun]. cbn [fst snd] in Hgo. cbn [turns].
  destruct (slot_turn _ _ _ _ _ _ _) as [[[go' pool'] mode'] w']. cbn in Hgo. simplify_eq.
  destruct (buffer_drop_one b' pool0) as [Hi Hc']; [done|congruence|].
  split; [done|]. split; [done|]. exists b'. unfold capacity. by rewrite Hw'.
Qed.

(** A headers-only receive of a body the configuration allows settles the
    slot. *)
Lemma settles_first w pool mode b0 pool0 b1 id k1 a b2 k2 n d :
  quiescent (w_heap w) -> buffer_take size_of_request pool = (b0, pool0) ->
  aq_items (bp_free pool0) = [] -> aq_cap (bp_free pool0) = 1 ->
  headers_only_call skip mode b0 (w_kern w) = Some (b1, id, k1) ->
  attempt k1 b1 id 0 = (a, b2, k2) -> io_result skip a = Ok n ->
  declared_body_len b2 = Some d -> d + HEADER_SLACK <= bp_max_bytes pool0 < 2 ^ 32 - 8 ->
  settled (words (grow_to size_of_request b2 (d + HEADER_SLACK))) (d + HEADER_SLACK)
    (turns 1 (pool, mode, w)).
Proof.
  intros Hq Htake Hi Hc Hcall Ha Hn Hd Hmax.
  assert (Hr : (receive_spec size_of_request skip pool0 b0 mode (w_kern w)).1 =
    (Ok tt, grow_to size_of_request b2 (d + HEADER_SLACK), mkMode true)).
  { assert (Hfit : fit_body_inline size_of_request pool0 b2 =
      (true, grow_to size_of_request b2 (d + HEADER_SLACK))).
    { unfold fit_body_inline, saturating_add, umax. rewrite Hd, Z.min_l by lia.
      by rewrite (proj2 (Z.ltb_ge _ _)) by lia. }
    unfold receive_spec. unfold headers_only_call in Hcall. destruct (copy_body mode).
    - destruct (attempt (w_kern w) b0 0 _) as [[a1 b1'] k1']. destruct (more_data skip a1); [|done].
      simplify_eq. rewrite Ha. unfold conclude. by rewrite Hn, Hfit.
    - simplify_eq. rewrite Ha. unfold conclude. by rewrite Hn, Hfit. }
  destruct (slot_turn_keeps w pool mode b0 pool0 Hq Htake) as (go & Hgo).
  rewrite Hr in Hgo. cbn [fst snd] in Hgo. cbn [turns].
  destruct (slot_turn _ _ _ _ _ _ _) as [[[go' pool'] mode'] w']. cbn in Hgo. simplify_eq.
  destruct (buffer_drop_one (grow_to size_of_request b2 (d + HEADER_SLACK)) pool0 Hi Hc).
  pose proof (declared_body_len_in_u _ _ Hd) as Hu. unfold in_u in Hu.
  pose proof (grow_to_capacity size_of_request size_pos b2 (d + HEADER_SLACK)) as Hg.
  split; [done|]. split; [done|]. eexists. split; [done|]. split; [done|].
  unfold HEADER_SLACK in *. lia.
Qed.

Lemma turns_succ n s : turns (S n) s = turns 1 (turns n s).
Proof.
  revert s. induction n as [|n IH]; intros [[pool mode] w]; [done|].
  cbn [turns] in *. destruct (slot_turn _ _ _ _ _ _ _) as [[[go pool'] mode'] w'].
  apply (IH (pool', mode', w')).
Qed.

Lemma turns_safe slots cap n pool mode w :
  map_Forall (fun _ => handler_safe slots cap) routes ->
  quiescent (w_heap w) -> body_pool_ok slots cap (w_bodies w) ->
  let w' := (turns n (pool, mode, w)).2 in
  quiescent (w_heap w') /\ body_pool_ok slots cap (w_bodies w').
Proof.
  intros Hsafe. cbn zeta. revert pool mode w. induction n as [|n IH]; intros pool mode w Hq Hp; [done|].
  pose proof (slot_turn_safe cx size_of_request skip address routes slots cap w pool mode Hsafe Hq Hp) as Ht.
  cbn [turns]. destruct (slot_turn _ _ _ _ _ _ _) as [[[go pool'] mode'] w']. apply IH; apply Ht.
Qed.

(** C20. A slot adapts once and then stays adapted.  Its first request declares a body
    of [d] bytes that the configuration allows and is received headers-only,
    because the copying call ran out of room or the slot was in that mode.  From
    the next turn on, as long as each copying call finds the room the slot now
    offers, every receive is that one call, offering at least the body and the
    header slack, and the same buffer is used again and again: it is neither
    reallocated nor lost, whatever the handlers and the other answers of the
    kernel are. *)
Theorem slot_settles slots cap w pool mode b0 pool0 b1 id k1 a b2 k2 m d n :
  map_Forall (fun _ => handler_safe slots cap) routes ->
  quiescent (w_heap w) -> body_pool_ok slots cap (w_bodies w) ->
  buffer_take size_of_request pool = (b0, pool0) ->
  aq_items (bp_free pool0) = [] -> aq_cap (bp_free pool0) = 1 ->
  headers_only_call skip mode b0 (w_kern w) = Some (b1, id, k1) ->
  attempt k1 b1 id 0 = (a, b2, k2) -> io_result skip a = Ok m ->
  declared_body_len b2 = Some d -> d + HEADER_SLACK <= bp_max_bytes pool0 < 2 ^ 32 - 8 ->
  let s i := turns i (pool, mode, w) in
  (forall i, (1 <= i < n)%nat -> more_data skip (next_copy (s i)).1.1 = false) ->
  exists size, (forall i, (1 <= i <= n)%nat -> settled size (d + HEADER_SLACK) (s i)) /\
    (forall i, (1 <= i < n)%nat -> one_call (s i)).
Proof.
  intros Hsafe Hq Hp Htake Hi Hc Hcall Ha Hm Hd Hmax s Hfits.
  exists (words (grow_to size_of_request b2 (d + HEADER_SLACK))). set (size := words _).
  assert (Hstep : forall i, (1 <= i < n)%nat -> settled size (d + HEADER_SLACK) (s i) ->
    settled size (d + HEADER_SLACK) (s (S i)) /\ one_call (s i)).
  { intros i Hin Hs. unfold s. rewrite turns_succ. specialize (Hfits i Hin).
    pose proof (turns_safe slots cap i pool mode w Hsafe Hq Hp) as [Hqi _].
    fold (s i) in *. destruct (s i) as [[pool_i mode_i] w_i]. by apply settled_turn. }
  assert (Hall : forall i, (1 <= i <= n)%nat -> settled size (d + HEADER_SLACK) (s i)).
  { induction i as [|i IH]; [lia|]. intros Hin. destruct i as [|i].
    - by eapply settles_first.
    - apply Hstep; [lia|]. apply IH. lia. }
  split; [done|]. intros i Hin. apply Hstep; [done|]. apply Hall. lia.
Qed.
End steady.

(** A kernel that hands over four uploads of 64 KiB: the first one does not fit the
    initial buffer, is asked for again, and the rest are copied inline. *)
Definition demo_uploads : Script :=
  let request := (header demo_received, mem demo_received) in
  mkScript [(io_now ERROR_MORE_DATA 66000, request); (io_now 0 500, request);
            (io_later None 66000, request); (io_later None 66000, request);
            (io_later None 66000, request)] [] [].

Lemma hello_routes_safe :
  map_Forall (fun _ => handler_safe 2 1048576) ({[7 := hello]} : gmap Z _).
Proof. intros i h Hi. apply lookup_singleton_Some in Hi as [_ <-]. apply hello_safe. Qed.

Lemma slot_settles_witness :
  exists size, settled size (65536 + HEADER_SLACK)
    (turns 1000 true 64 {[7 := hello]} 3 (demo_empty, mkMode true, demo_world demo_uploads)).
Proof.
  pose proof (slot_settles tt 1000 true 64 ltac:(lia) {[7 := hello]} 2 1048576 (demo_world demo_uploads)
    demo_empty (mkMode true) (buffer_new 1000 16384) demo_empty demo_received 42
    (mkScript (tail (sc_receives demo_uploads)) [] []) (io_now 0 500) demo_received
    (mkScript (drop 2 (sc_receives demo_uploads)) [] []) 500 65536 3 hello_routes_safe
    (demo_quiescent _) (body_pool_new_ok 2 1048576)) as H.
  do 6 specialize (H ltac:(reflexivity)). specialize (H ltac:(reflexivity)).
  specialize (H ltac:(split; vm_compute; congruence)).
  destruct H as (size & Hs & _).
  - intros [|[|[|i]]] Hi; [lia| | |lia]; vm_compute; reflexivity.
  - exists size. apply Hs. lia.
Defined.
