(* ===== verification/Shutdown.v ===== *)
(** * Starting and stopping a server (crates/httpsys/src/server.rs)

    [ServerBuilder::run], the server thread inside [serve] and in the drop of its
    handles, its slots, and the owner of the [Server], as one step relation.  The
    broadcast channel of the runtime is an interface; time is the freedom of the
    timeout to elapse at any moment once the drain has begun; a task that is
    aborted ends where it is suspended; the stop flag is relaxed, so that a slot
    may still find it down after it was set.  The drop of the handles is the drop
    of the port of [Iocp], which may never end. *)

From S2P Require Import Prelude RustStd Errors HttpApi Iocp.
Set Warnings "-clear-no-such-hyp".

(** ** The channel

    [tokio::sync::broadcast] with one subscriber: it sees only the values sent
    after it subscribed; a value sent to nobody is dropped; a receive completes
    when there is a value, or when every sender is gone, which cannot happen here
    because the server thread keeps a sender itself. *)
Class Broadcast (C : Type) := {
  bc_channel : C;
  bc_send : C -> C;
  bc_subscribe : C -> C;
  bc_ready : C -> bool;
  bc_subscribed : C -> bool;
}.

Class BroadcastLaws C `{Broadcast C} : Prop := {
  bc_channel_subscribed : bc_subscribed bc_channel = false;
  bc_subscribe_subscribed c : bc_subscribed (bc_subscribe c) = true;
  bc_subscribe_ready c : bc_subscribed c = false -> bc_ready (bc_subscribe c) = false;
  bc_send_subscribed c : bc_subscribed (bc_send c) = bc_subscribed c;
  bc_send_ready c : bc_subscribed c = true -> bc_ready (bc_send c) = true;
}.

(** A model of one value and one subscriber. *)
#[export] Instance slot_broadcast : Broadcast (option bool) := {
  bc_channel := None;
  bc_send c := match c with Some _ => Some true | None => None end;
  bc_subscribe _ := Some false;
  bc_ready c := match c with Some b => b | None => false end;
  bc_subscribed c := match c with Some _ => true | None => false end;
}.

#[export] Instance slot_broadcast_laws : BroadcastLaws (option bool).
Proof. split; try done; by intros [b|]. Qed.

(** ** The system *)

(** Where the server thread is in [serve]; past it; in [drop(handles)], which closes
    the request queue and then drops its port; and at its end. *)
Inductive WorkerPc :=
  | Spawning (left : nat)
  | Subscribing
  | AwaitingShutdown
  | SettingStop
  | ShuttingQueue
  | Draining
  | Aborting
  | Exited
  | Closing (p : Port)
  | Gone.

(** It has left [serve]. *)
Definition left_serve (w : WorkerPc) : Prop :=
  match w with Exited | Closing _ | Gone => True | _ => False end.

(** A slot: its task not polled yet, at the loop's test, in a receive, in a handler or
    a send, or ended; in a receive, a handler or a send it may be suspended. *)
Inductive SlotPc :=
  | Unpolled
  | Testing
  | Receiving (parked : bool)
  | Handling (parked : bool)
  | Ended.
Definition parked (t : SlotPc) : bool :=
  match t with
  | Unpolled => true
  | Receiving b | Handling b => b
  | Testing | Ended => false
  end.

(** The owner: holding the server, inside [join], or past it. *)
Inductive OwnerPc :=
  | Owning
  | Joining
  | Joined.

#[export] Instance SlotPc_eq_dec : EqDecision SlotPc.
Proof. solve_decision. Defined.
#[export] Instance OwnerPc_eq_dec : EqDecision OwnerPc.
Proof. solve_decision. Defined.

(** The port of a queue with [io] threads as the drop of the queue finds it. *)
Definition open_port (io : nat) (p : Port) : Prop :=
  dropper p = NotDropped /\
  exists pending, real_keys pending /\ reachable (port_init io pending) port_step p.

Section shutdown.
Context `{Broadcast C}.
(** The threads of the completion port. *)
Context (io : nat).

Record Running := mkRunning {
  chan : C;
  worker : WorkerPc;
  owner : OwnerPc;
  stop : bool;
  queue_down : bool;
  slots : list SlotPc;
}.

(** [run] on a builder configured for [n] slots. *)
Definition run_init (n : nat) (s : Running) : Prop :=
  s = mkRunning bc_channel (Spawning n) Owning false false [].

(** What the server thread and the runtime do: [serve], the end of aborted tasks,
    the drop of the handles, with what the port's threads do meanwhile, and the
    return of the owner's join. *)
Inductive thread_step : Running -> Running -> Prop :=
  | serve_spawn c n o st q sl :
      thread_step (mkRunning c (Spawning (S n)) o st q sl)
        (mkRunning c (Spawning n) o st q (sl ++ [Unpolled]))
  | serve_spawned c o st q sl :
      thread_step (mkRunning c (Spawning 0) o st q sl) (mkRunning c Subscribing o st q sl)
  | serve_subscribe c o st q sl :
      thread_step (mkRunning c Subscribing o st q sl)
        (mkRunning (bc_subscribe c) AwaitingShutdown o st q sl)
  | serve_recv c o st q sl :
      bc_ready c = true ->
      thread_step (mkRunning c AwaitingShutdown o st q sl) (mkRunning c SettingStop o st q sl)
  | serve_stop c o st q sl :
      thread_step (mkRunning c SettingStop o st q sl) (mkRunning c ShuttingQueue o true q sl)
  (* an error of [queue.shutdown] is only reported *)
  | serve_shutdown c o st q sl (ok : bool) :
      thread_step (mkRunning c ShuttingQueue o st q sl) (mkRunning c Draining o st (q || ok) sl)
  | serve_drained c o st q sl :
      Forall (fun t => t = Ended) sl ->
      thread_step (mkRunning c Draining o st q sl) (mkRunning c Exited o st q sl)
  | serve_timeout c o st q sl :
      thread_step (mkRunning c Draining o st q sl) (mkRunning c Aborting o st q sl)
  | serve_aborted c o st q sl :
      Forall (fun t => t = Ended) sl ->
      thread_step (mkRunning c Aborting o st q sl) (mkRunning c Exited o st q sl)
  (* an aborted task ends where it is suspended *)
  | slot_abort c o st q sl i t :
      sl !! i = Some t -> parked t = true ->
      thread_step (mkRunning c Aborting o st q sl) (mkRunning c Aborting o st q (<[i := Ended]> sl))
  (* [drop(handles)], down to [IoPort::drop] *)
  | serve_close c o st q sl p :
      open_port io p ->
      thread_step (mkRunning c Exited o st q sl) (mkRunning c (Closing p) o st q sl)
  | serve_closing c o st q sl p p' :
      port_step p p' ->
      thread_step (mkRunning c (Closing p) o st q sl) (mkRunning c (Closing p') o st q sl)
  | serve_closed c o st q sl p :
      dropper p = Closed ->
      thread_step (mkRunning c (Closing p) o st q sl) (mkRunning c Gone o st q sl)
  | owner_joined c st q sl :
      thread_step (mkRunning c Gone Joining st q sl) (mkRunning c Gone Joined st q sl).

(** A slot, in [slot_loop]. *)
Inductive slot_step : Running -> Running -> Prop :=
  | slot_start c w o st q sl i :
      sl !! i = Some Unpolled ->
      slot_step (mkRunning c w o st q sl) (mkRunning c w o st q (<[i := Testing]> sl))
  (* what it sees of the flag may be from before it was set *)
  | slot_test c w o st q sl i (seen : bool) :
      sl !! i = Some Testing -> (seen = true -> st = true) ->
      slot_step (mkRunning c w o st q sl)
        (mkRunning c w o st q (<[i := if seen then Ended else Receiving false]> sl))
  | slot_receives c w o st q sl i :
      sl !! i = Some (Receiving false) ->
      slot_step (mkRunning c w o st q sl) (mkRunning c w o st q (<[i := Receiving true]> sl))
  (* woken, and back for the receive's second call or for its end *)
  | slot_woken c w o st q sl i :
      sl !! i = Some (Receiving true) ->
      slot_step (mkRunning c w o st q sl) (mkRunning c w o st q (<[i := Receiving false]> sl))
  | slot_received c w o st q sl i b :
      sl !! i = Some (Receiving b) ->
      slot_step (mkRunning c w o st q sl) (mkRunning c w o st q (<[i := Handling false]> sl))
  (* an error that is not terminal *)
  | slot_receive_failed c w o st q sl i b :
      sl !! i = Some (Receiving b) ->
      slot_step (mkRunning c w o st q sl) (mkRunning c w o st q (<[i := Testing]> sl))
  (* one that is, such as that of a queue that was shut down *)
  | slot_receive_ended c w o st q sl i :
      sl !! i = Some (Receiving false) ->
      slot_step (mkRunning c w o st q sl) (mkRunning c w o st q (<[i := Ended]> sl))
  | slot_awaits c w o st q sl i :
      sl !! i = Some (Handling false) ->
      slot_step (mkRunning c w o st q sl) (mkRunning c w o st q (<[i := Handling true]> sl))
  | slot_resumed c w o st q sl i :
      sl !! i = Some (Handling true) ->
      slot_step (mkRunning c w o st q sl) (mkRunning c w o st q (<[i := Handling false]> sl))
  | slot_replied c w o st q sl i b :
      sl !! i = Some (Handling b) ->
      slot_step (mkRunning c w o st q sl) (mkRunning c w o st q (<[i := Testing]> sl))
  (* the task ends with its handler's panic *)
  | slot_panicked c w o st q sl i :
      sl !! i = Some (Handling false) ->
      slot_step (mkRunning c w o st q sl) (mkRunning c w o st q (<[i := Ended]> sl)).

(** The owner: [Server::shutdown], [Server::join], and the drop, which does both. *)
Inductive owner_step : Running -> Running -> Prop :=
  | owner_shutdown c w st q sl :
      owner_step (mkRunning c w Owning st q sl) (mkRunning (bc_send c) w Owning st q sl)
  | owner_join c w st q sl :
      owner_step (mkRunning c w Owning st q sl) (mkRunning c w Joining st q sl)
  | owner_drop c w st q sl :
      owner_step (mkRunning c w Owning st q sl) (mkRunning (bc_send c) w Joining st q sl).

Definition serve_step (s s' : Running) : Prop := thread_step s s' \/ slot_step s s' \/ owner_step s s'.
End shutdown.

Arguments Running C : clear implicits.

(** ** Facts *)

Section shutdown_facts.
Context `{BroadcastLaws C}.
Context (io : nat).
Implicit Type s : Running C.
Local Abbreviation serve_step := (serve_step io).

Definition before_subscribe (w : WorkerPc) : Prop :=
  match w with Spawning _ | Subscribing => True | _ => False end.

(** The subscription is made exactly once, a slot is only touched by the end of the
    server after it has ended, and the port that is being dropped is one of [io]
    threads. *)
Record run_ok s : Prop := {
  rok_subscribed : bc_subscribed (chan s) = false <-> before_subscribe (worker s);
  rok_ended : left_serve (worker s) -> Forall (fun t => t = Ended) (slots s);
  rok_joined : owner s = Joined -> worker s = Gone;
  rok_stop : stop s = true <->
    match worker s with ShuttingQueue | Draining | Aborting | Exited | Closing _ | Gone => True | _ => False end;
  rok_port p : worker s = Closing p ->
    exists pending, real_keys pending /\ reachable (port_init io pending) port_step p;
}.

Lemma run_ok_init n s : run_init n s -> run_ok s.
Proof. intros ->. split; cbn; try done. by rewrite bc_channel_subscribed. Qed.

Lemma ended_lookup (sl : list SlotPc) (i : nat) t :
  Forall (fun t => t = Ended) sl -> sl !! i = Some t -> t = Ended.
Proof. intros Hf Hi. by eapply Forall_lookup_1 in Hf. Qed.

Lemma thread_step_ok s s' : run_ok s -> thread_step io s s' -> run_ok s'.
Proof.
  intros [H1 H2 H3 H4 H5] Hs. destruct Hs; split; cbn in *; try tauto; try done;
    rewrite ?bc_subscribe_subscribed, ?bc_send_subscribed; try tauto; try done.
  all: try (intros Hx; specialize (H3 Hx); discriminate).
  all: try (split; intros Hx; try done; by apply H1 in Hx).
  - intros p' [= <-]. by match goal with Hp : open_port _ _ |- _ => destruct Hp end.
  - intros p2 [= <-]. destruct (H5 p eq_refl) as (pending & Hr & Hp). exists pending. split; [done|].
    by eapply reachable_step.
Qed.

Lemma slot_step_ok s s' : run_ok s -> slot_step s s' -> run_ok s'.
Proof.
  intros [H1 H2 H3 H4 H5] Hs. destruct Hs; split; cbn in *; try tauto; try done;
    intros Hw; specialize (H2 Hw);
    match goal with Hi : _ !! _ = Some _ |- _ => by pose proof (ended_lookup _ _ _ H2 Hi) end.
Qed.

Lemma serve_step_ok s s' : run_ok s -> serve_step s s' -> run_ok s'.
Proof.
  intros Hok [Hs|[Hs|Hs]]; [by eapply thread_step_ok|by eapply slot_step_ok|].
  destruct Hok as [H1 H2 H3 H4 H5]. destruct Hs; split; cbn in *; try done; by rewrite ?bc_send_subscribed.
Qed.

Lemma stop_step s s' : stop s = true -> serve_step s s' -> stop s' = true.
Proof. intros Hst [Hs|[Hs|Hs]]; by destruct Hs. Qed.

Lemma reachable_run_ok n s : reachable (run_init n) serve_step s -> run_ok s.
Proof.
  apply reachable_invariant; [apply run_ok_init|]. intros a b. apply serve_step_ok.
Qed.

(** The owner is inside its join and the server thread waits, or will wait, for a
    value that was already dropped. *)
Definition lost s : Prop :=
  owner s = Joining /\
  (bc_subscribed (chan s) = false /\ before_subscribe (worker s) \/
   worker s = AwaitingShutdown /\ bc_ready (chan s) = false).

Lemma lost_step s s' : lost s -> serve_step s s' -> lost s'.
Proof.
  intros [Ho Hw] Hs; destruct Hs as [Hs|[Hs|Hs]]; destruct Hs; cbn in *; subst; try discriminate;
    destruct Hw as [[Hc Hw]|[Hw Hr]]; try discriminate; try done;
    (split; [done|]); cbn; try (left; done); try (right; done).
  - right. split; [done|]. by apply bc_subscribe_ready.
  - congruence.
Qed.

(** C27. A shutdown that comes too early is lost.  If the owner is in [join], or in the
    drop of the [Server], and the server thread has not subscribed to the channel
    yet, then whatever happens afterwards the owner stays in its join: the value
    it sent had no receiver, and the thread will wait for another one. *)
Theorem early_shutdown_hangs n s :
  reachable (run_init n) serve_step s ->
  owner s = Joining -> before_subscribe (worker s) ->
  forall s', rtc serve_step s s' -> owner s' = Joining.
Proof.
  intros Hr Ho Hw s' Hs'. pose proof (reachable_run_ok _ _ Hr) as Hok.
  assert (Hl : lost s) by (split; [done|left; split; [by apply rok_subscribed|done]]).
  eapply (rtc_invariant serve_step lost s s') in Hl as [? _]; [done|apply lost_step|done].
Qed.

End shutdown_facts.

(** ** Witnesses *)

(** One slot; the owner drops the server before the thread has subscribed. *)
Definition demo_early : Running (option bool) :=
  mkRunning None (Spawning 1) Joining false false [].

Lemma demo_early_reachable : reachable (run_init 1) (serve_step 2) demo_early.
Proof.
  eexists. split; [reflexivity|]. eapply rtc_once. do 2 right.
  exact (owner_drop (C := option bool) None (Spawning 1) false false []).
Qed.

Lemma early_shutdown_hangs_witness :
  owner (mkRunning (Some false) AwaitingShutdown Joining false false [Unpolled] : Running (option bool))
  = Joining.
Proof.
  refine (early_shutdown_hangs 2 1 demo_early demo_early_reachable eq_refl I _ _).
  eapply rtc_l; [left; apply (serve_spawn (C := option bool))|].
  eapply rtc_l; [left; apply serve_spawned|].
  eapply rtc_once. left. exact (serve_subscribe (C := option bool) 2 None Joining false false [Unpolled]).
Defined.
