(* ===== verification/Slots.v ===== *)
(** * Many slots over one kernel (crates/httpsys/src/server.rs, queue.rs, request.rs)

    A slot as a program of calls: [slot_turn], [receive], [send_response] and [body]
    are the interpretation of programs that say, call by call, what is asked of the
    kernel and of the shared body pool.  Programs can be interleaved: [slots_step]
    has any number of slots take turns at their calls, while the kernel goes its own
    way in between.  A task is suspended before its first poll and, if the call is
    one that is awaited, at it; the stop flag is read relaxed, so that a slot may
    still find it down after it was set. *)

From S2P Require Import Prelude RustStd Errors Crates HttpApi Buffer Overlapped Iocp Response Queue.
From S2P Require Import Request Init Server.
Set Warnings "-clear-no-such-hyp".

(** ** Programs of calls *)

(** What an overlapped call comes to, as [submit] gives it: the result, the status
    and the byte count on return, and what was written in the caller's memory. *)
Definition Finished (A : Type) : Type := result Z * Z * Z * A.

Section programs.
Context {K : Type}.

(** The calls of a slot; the body pool's are one pop and one push of a lock-free
    queue, and the last one is whatever else a handler does outside the server. *)
Inductive Call : Type -> Type :=
  | CReceive (id flags len : Z) (target : HTTP_REQUEST_V2 * memory) : Call (Finished (HTTP_REQUEST_V2 * memory))
  | CReadBody (id len : Z) : Call (Finished (list Z))
  | CSend (id : Z) (v : option View) (policy : option HTTP_CACHE_POLICY) : Call (Finished unit)
  | CStop : Call bool
  | CTakeBody (capacity : Z) : Call Vec
  | CDropBody (v : Vec) : Call unit
  | COther {X} (f : K -> X * K) : Call X.

Inductive Prog (A : Type) : Type :=
  | Ret (a : A)
  | Do {X} (c : Call X) (k : X -> Prog A).
#[global] Arguments Ret {A} a.
#[global] Arguments Do {A X} c k.

Fixpoint pbind {A B} (p : Prog A) (f : A -> Prog B) : Prog B :=
  match p with
  | Ret a => f a
  | Do c k => Do c (fun x => pbind (k x) f)
  end.
Definition ask {X} (c : Call X) : Prog X := Do c Ret.

(** A program all of whose calls are as described. *)
Fixpoint only (P : forall X, Call X -> Prop) {A} (p : Prog A) : Prop :=
  match p with
  | Ret _ => True
  | Do c k => P _ c /\ forall x, only P (k x)
  end.

(** What a handler may do: it has the request, its body and the body pool. *)
Definition handler_call X (c : Call X) : Prop :=
  match c with CReceive _ _ _ _ | CSend _ _ _ | CStop => False | _ => True end.

(** What reading a body takes of it. *)
Definition body_call X (c : Call X) : Prop :=
  match c with CReadBody _ _ | CTakeBody _ | CDropBody _ => True | _ => False end.

(** A program that only receives. *)
Definition receive_call X (c : Call X) : Prop :=
  match c with CReceive _ _ _ _ => True | _ => False end.

Lemma only_bind P {A B} (p : Prog A) (f : A -> Prog B) :
  only P p -> (forall a, only P (f a)) -> only P (pbind p f).
Proof. intros Hp Hf. induction p as [a|X c k IH]; [apply Hf|]. destruct Hp. split; auto. Qed.

Lemma only_impl (P P' : forall X, Call X -> Prop) {A} (p : Prog A) :
  (forall X c, P X c -> P' X c) -> only P p -> only P' p.
Proof. intros HP. induction p as [a|X c k IH]; [done|]. intros [H1 H2]. split; auto. Qed.
End programs.
Arguments Call K : clear implicits.
Arguments Prog K : clear implicits.

Notation "'prog!' x := m 'in' k" := (pbind m (fun x => k))
  (at level 10, x pattern, m at level 100, k at level 200) : rust_scope.

Section slots.
Context `{ArrayQueue Q} `{VecAlloc} `{AtomicWaker W AW} `{HttpSys K (option View)}.
Context (size_of_request : Z) (skip : bool) (address : Z).

(** ** The programs of the operations *)

Definition receive_once_prog (b : RequestBuffer) (request_id flags needed : Z) :
    Prog K (result unit * RequestBuffer * Z) :=
  let target := prepare b in
  prog! (r, ec, reported, (hdr, m)) :=
    ask (CReceive request_id flags (capacity b) (header target, mem target)) in
  let needed := if ec =? ERROR_MORE_DATA then reported else needed in
  Ret (result_map (fun _ => tt) r, mkBuffer (words target) hdr m, needed).

Definition second_prog (pool : BufferPool Q) (b : RequestBuffer) (request_id needed : Z) (mode : ReceiveMode) :
    Prog K (result unit * RequestBuffer * ReceiveMode) :=
  prog! (r, b, needed) := receive_once_prog b request_id 0 needed in
  Ret match r with
      | Err (Win32 code) =>
          if code =? ERROR_MORE_DATA then (Err (HeadersTooLarge needed), b, mode) else (r, b, mode)
      | Err _ => (r, b, mode)
      | Ok _ =>
          let '(fits, b) := fit_body_inline size_of_request pool b in
          (Ok tt, b, mkMode fits)
      end.

Definition receive_prog (pool : BufferPool Q) (b : RequestBuffer) (mode : ReceiveMode) :
    Prog K (result unit * RequestBuffer * ReceiveMode) :=
  if copy_body mode then
    prog! (r, b, needed) := receive_once_prog b 0 HTTP_RECEIVE_REQUEST_FLAG_COPY_BODY 0 in
    match r with
    | Err (Win32 code) =>
        if code =? ERROR_MORE_DATA then second_prog pool b (buffer_request_id b) needed (mkMode false)
        else Ret (r, b, mode)
    | _ => Ret (r, b, mode)
    end
  else second_prog pool b 0 0 mode.

Definition send_prog (request_id : Z) (r : Response) : Prog K (result Z) :=
  prog! (res, _, _, _) :=
    ask (CSend request_id (kernel_view r address (as_ptr address (to_raw r))) (mkPolicy <$> cache_seconds r)) in
  Ret res.

Definition reply_prog (b : RequestBuffer) (response : Response) : Prog K unit :=
  let request_id := buffer_request_id b in
  if negb (request_id =? 0) then prog! _ := send_prog request_id response in Ret tt else Ret tt.

Context (handlers : gmap Z (RequestBuffer -> Prog K Response)).

Definition turn_prog (buffers : BufferPool Q) (mode : ReceiveMode) :
    Prog K (bool * BufferPool Q * ReceiveMode) :=
  let '(buffer, buffers) := buffer_take size_of_request buffers in
  prog! (r, buffer, mode) := receive_prog buffers buffer mode in
  match r with
  | Err (HeadersTooLarge needed) =>
      prog! _ := reply_prog buffer (response_new status.HEADERS_TOO_LARGE) in
      Ret (true, buffer_drop buffer buffers, mode)
  | Err e => Ret (negb (is_terminal e), buffer_drop buffer buffers, mode)
  | Ok _ =>
      let request_id := buffer_request_id buffer in
      prog! response :=
        match handlers !! url_context buffer with
        | Some handler => handler buffer
        | None => Ret (response_new status.NOT_FOUND)
        end in
      let buffers := buffer_drop buffer buffers in
      prog! _ := send_prog request_id response in
      Ret (true, buffers, mode)
  end.

(** The reads of a body. *)
Definition read_body_prog (request_id len : Z) : Prog K (result (option Z) * list Z) :=
  if len =? 0 then Ret (Ok (Some 0), [])
  else
    prog! (r, _, _, data) := ask (CReadBody request_id (wrap32 len)) in
    Ret (match r with
         | Ok read => Ok (Some read)
         | Err (Win32 code) => if code =? ERROR_HANDLE_EOF then Ok None else Err (Win32 code)
         | Err e => Err e
         end, data).

Definition read_turn_prog (id : Z) (v : Vec) : Prog K (option (result unit) * Vec) :=
  let v := if vec_len v =? vec_cap v then vec_reserve v BODY_CHUNK_BYTES else v in
  let spare := vec_cap v - vec_len v in
  prog! (r, data) := read_body_prog id spare in
  Ret match r with
      | Err e => (Some (Err e), v)
      | Ok (Some n) =>
          if n =? 0 then (Some (Ok tt), v)
          else (None, mkVec (vec_data v ++ ztake n data) (vec_cap v))
      | Ok None => (Some (Ok tt), v)
      end.

Fixpoint read_remaining_prog (fuel : nat) (id : Z) (v : Vec) : Prog K (option (result unit) * Vec) :=
  match fuel with
  | O => Ret (None, v)
  | S fuel =>
      prog! (r, v) := read_turn_prog id v in
      match r with
      | Some r => Ret (Some r, v)
      | None => read_remaining_prog fuel id v
      end
  end.

Definition body_prog (fuel : nat) (b : RequestBuffer) : Prog K (option (result Body)) :=
  let inline := inline_body b in
  if negb (has_more_body b) then Ret (Some (Ok (mkBody inline None)))
  else
    prog! v := ask (CTakeBody (body_capacity b)) in
    let v := vec_extend v inline in
    prog! (r, v) := read_remaining_prog fuel (request_id b) v in
    match r with
    | None => Ret None
    | Some (Err e) => prog! _ := ask (CDropBody v) in Ret (Some (Err e))
    | Some (Ok _) => Ret (Some (Ok (mkBody inline (Some v))))
    end.

(** The drop of a body. *)
Definition body_value_drop_prog (x : Body) : Prog K unit :=
  match owned x with
  | Some v => ask (CDropBody v)
  | None => Ret tt
  end.

(** ** What a program does *)

(** On a world, through the operations' wraps. *)
Definition interp_call {X} (c : Call K X) : M (World Q AW K) X :=
  match c in Call _ X return M (World Q AW K) X with
  | CReceive id flags len target => submit skip (fun k => HttpReceiveHttpRequest k id flags len target)
  | CReadBody id len => submit skip (fun k => HttpReceiveRequestEntityBody k id len)
  | CSend id v policy =>
      submit skip (fun k => let '(a, k) := HttpSendHttpResponse k id v policy in ((a, tt), k))
  | CStop => let! w := mget in mret (stop_requested (w_kern w))
  | CTakeBody capacity => take_body capacity
  | CDropBody v => drop_vec v
  | COther f => fun w => let '(x, k) := f (w_kern w) in (x, mkWorld k (w_heap w) (w_bodies w))
  end.

Fixpoint interp {A} (p : Prog K A) : M (World Q AW K) A :=
  match p with
  | Ret a => mret a
  | Do c k => let! x := interp_call c in interp (k x)
  end.

(** On the kernel and the body pool alone. *)
Definition finished {A} (a : IoAnswer) (out : A) : Finished A := (io_result skip a, io_ec a, io_reported a, out).

Definition exec {X} (c : Call K X) (s : K * BodyPool Q) : X * (K * BodyPool Q) :=
  let '(k, p) := s in
  match c in Call _ X return X * (K * BodyPool Q) with
  | CReceive id flags len target =>
      let '((a, out), k) := HttpReceiveHttpRequest k id flags len target in (finished a out, (k, p))
  | CReadBody id len =>
      let '((a, out), k) := HttpReceiveRequestEntityBody k id len in (finished a out, (k, p))
  | CSend id v policy =>
      let '(a, k) := HttpSendHttpResponse k id v policy in (finished a tt, (k, p))
  | CStop => (stop_requested k, (k, p))
  | CTakeBody capacity => let '(v, p) := body_take p capacity in (v, (k, p))
  | CDropBody v => (tt, (k, body_drop v p))
  | COther f => let '(x, k) := f k in (x, (k, p))
  end.

Fixpoint prun {A} (p : Prog K A) (s : K * BodyPool Q) : A * (K * BodyPool Q) :=
  match p with
  | Ret a => (a, s)
  | Do c k => let '(x, s) := exec c s in prun (k x) s
  end.

(** ** Slots that take turns *)

(** The calls that are awaited, at which a task may be suspended.  What a handler does
    outside may be one, or may return at once. *)
Definition awaited {X} (c : Call K X) : bool :=
  match c with
  | CReceive _ _ _ _ | CReadBody _ _ | CSend _ _ _ | COther _ => true
  | CStop | CTakeBody _ | CDropBody _ => false
  end.

(** Not polled yet, between two turns, in a turn, suspended in one at an awaited
    call, ended by itself, or ended with its task: aborted, or by a panic of the
    handler. *)
Inductive SlotState :=
  | Spawned (buffers : BufferPool Q) (mode : ReceiveMode)
  | Idle (buffers : BufferPool Q) (mode : ReceiveMode)
  | Busy (p : Prog K (bool * BufferPool Q * ReceiveMode))
  | Waiting {X} (c : Call K X) (k : X -> Prog K (bool * BufferPool Q * ReceiveMode))
  | Over
  | Dropped.

(** A call and its answer. *)
Definition Event : Type := { X : Type & (Call K X * X)%type }.
Definition event {X} (c : Call K X) (x : X) : Event := existT X (c, x).

Record System := mkSystem {
  shared : K * BodyPool Q;
  slots : list SlotState;
  trace : list (nat * Event);
}.

(** What the kernel does by itself between two calls. *)
Context (kernel_step : K -> K -> Prop).

(** What slot [i] does.  Its test of the flag may miss that it was set: the load and
    the store are relaxed.  A call is made from the turn or, when its task was
    suspended at it, on waking up. *)
Inductive slot_move (i : nat) : System -> System -> Prop :=
  | step_start s sl tr buffers mode :
      sl !! i = Some (Spawned buffers mode) ->
      slot_move i (mkSystem s sl tr) (mkSystem s (<[i := Idle buffers mode]> sl) tr)
  | step_check s sl tr buffers mode (stop : bool) :
      sl !! i = Some (Idle buffers mode) -> (stop = true -> stop_requested (fst s) = true) ->
      slot_move i (mkSystem s sl tr)
        (mkSystem s (<[i := if stop then Over else Busy (turn_prog buffers mode)]> sl)
           (tr ++ [(i, event CStop stop)]))
  | step_park s sl tr X (c : Call K X) k :
      sl !! i = Some (Busy (Do c k)) -> awaited c = true ->
      slot_move i (mkSystem s sl tr) (mkSystem s (<[i := Waiting c k]> sl) tr)
  | step_call s sl tr X (c : Call K X) k x s' :
      sl !! i = Some (Busy (Do c k)) \/ sl !! i = Some (Waiting c k) -> exec c s = (x, s') ->
      slot_move i (mkSystem s sl tr)
        (mkSystem s' (<[i := Busy (k x)]> sl) (tr ++ [(i, event c x)]))
  | step_turn s sl tr go buffers mode :
      sl !! i = Some (Busy (Ret (go, buffers, mode))) ->
      slot_move i (mkSystem s sl tr) (mkSystem s (<[i := if go then Idle buffers mode else Over]> sl) tr).

Inductive slots_step : System -> System -> Prop :=
  | step_kernel k k' p sl tr :
      kernel_step k k' -> slots_step (mkSystem (k, p) sl tr) (mkSystem (k', p) sl tr)
  | step_slot i s s' : slot_move i s s' -> slots_step s s'.

Definition live (sl : SlotState) : bool :=
  match sl with Over | Dropped => false | _ => true end.
(** The task is not being polled. *)
Definition suspended (sl : SlotState) : bool :=
  match sl with Spawned _ _ | Waiting _ _ => true | _ => false end.
(** The rest of the turn. *)
Definition rest_of_turn (sl : SlotState) : option (Prog K (bool * BufferPool Q * ReceiveMode)) :=
  match sl with Busy p => Some p | Waiting c k => Some (Do c k) | _ => None end.

(** The task of a slot goes away.  An operation in flight is cancelled and waited for;
    the vector its handler may hold goes back to the pool. *)
Inductive slot_drop (i : nat) : System -> System -> Prop :=
  | drop_slot k p p' sl tr t :
      sl !! i = Some t -> live t = true -> p' = p \/ (exists v, p' = body_drop v p) ->
      slot_drop i (mkSystem (k, p) sl tr) (mkSystem (k, p') (<[i := Dropped]> sl) tr).

Definition slots_init (s : System) : Prop :=
  trace s = [] /\
  Forall (fun sl => exists buffers mode, sl = Spawned buffers mode \/ sl = Idle buffers mode) (slots s).
End slots.
Arguments Event K : clear implicits.

(** ** Interpreting programs *)

Section interp_facts.
Context `{ArrayQueueLaws Q} `{VecAlloc} `{AtomicWaker W AW} `{HttpSys K (option View)}.
Context (cx : W) (size_of_request : Z) (skip : bool) (address : Z).
Implicit Types (w : World Q AW K).

Lemma interp_bind {A B} (p : Prog K A) (f : A -> Prog K B) w :
  interp skip (pbind p f) w = mbind (interp skip p) (fun a => interp skip (f a)) w.
Proof.
  revert w. induction p as [a|X c k IH]; intros w; [done|]. cbn [pbind interp].
  unfold mbind. destruct (interp_call skip c w) as [x w']. by rewrite IH.
Qed.

(** Two computations with the same runs. *)
Lemma mbind_ext {Wd A B} (m m' : M Wd A) (f f' : A -> M Wd B) (w : Wd) :
  m w = m' w -> (forall a (u : Wd), f a u = f' a u) -> mbind m f w = mbind m' f' w.
Proof. intros Hm Hf. unfold mbind. rewrite Hm. by destruct (m' w). Qed.

Ltac interp_step :=
  first [rewrite interp_bind; apply mbind_ext; [|intros ? ?] | apply mbind_ext; [|intros ? ?]].

Lemma receive_once_interp b id flags needed w :
  interp skip (receive_once_prog b id flags needed) w = receive_once skip b id flags needed w.
Proof.
  unfold receive_once_prog, receive_once, ask. cbn [pbind interp interp_call].
  apply mbind_ext; [done|]. intros [[[r ec] reported] [hdr m]] w'. done.
Qed.

Lemma second_interp (pool : BufferPool Q) b id needed mode w :
  interp skip (second_prog size_of_request pool b id needed mode) w =
  (let! (r, b, needed) := receive_once skip b id 0 needed in
   mret match r with
        | Err (Win32 code) =>
            if code =? ERROR_MORE_DATA then (Err (HeadersTooLarge needed), b, mode)
            else (r, b, mode)
        | Err _ => (r, b, mode)
        | Ok _ =>
            let '(fits, b) := fit_body_inline size_of_request pool b in
            (Ok tt, b, mkMode fits)
        end) w.
Proof.
  unfold second_prog. interp_step; [apply receive_once_interp|]. by destruct a as [[r b'] needed'].
Qed.

Lemma receive_interp (pool : BufferPool Q) b mode w :
  interp skip (receive_prog size_of_request pool b mode) w = receive size_of_request skip pool b mode w.
Proof.
  unfold receive_prog, receive. destruct (copy_body mode); [|apply second_interp].
  interp_step; [apply receive_once_interp|]. destruct a as [[[[]|[code| |]] b'] needed']; try done.
  destruct (code =? ERROR_MORE_DATA); [apply second_interp|done].
Qed.

Lemma send_interp id r w : interp skip (send_prog address id r) w = send_response skip address id r w.
Proof.
  unfold send_prog, send_response, ask. cbn [pbind interp interp_call].
  apply mbind_ext; [done|]. by intros [[[res ?] ?] ?] w'.
Qed.

Lemma reply_interp b r w : interp skip (reply_prog address b r) w = reply skip address b r w.
Proof.
  unfold reply_prog, reply. destruct (negb _); [|done]. interp_step; [apply send_interp|done].
Qed.

Lemma read_body_interp id len w : interp skip (read_body_prog id len) w = read_entity_body skip id len w.
Proof.
  unfold read_body_prog, read_entity_body, ask. destruct (len =? 0); [done|]. cbn [pbind interp interp_call].
  apply mbind_ext; [done|]. by intros [[[r ?] ?] data] w'.
Qed.

Lemma read_turn_interp id v w : interp skip (read_turn_prog id v) w = read_turn skip id v w.
Proof.
  unfold read_turn_prog, read_turn. interp_step; [apply read_body_interp|]. by destruct a as [r data].
Qed.

Lemma read_remaining_interp fuel id v w :
  interp skip (read_remaining_prog fuel id v) w = read_remaining_body_into skip fuel id v w.
Proof.
  revert v w. induction fuel as [|fuel IH]; intros v w; [done|]. cbn [read_remaining_prog read_remaining_body_into].
  interp_step; [apply read_turn_interp|]. destruct a as [[r|] v']; [done|apply IH].
Qed.

Lemma body_interp fuel b w : interp skip (body_prog fuel b) w = Request.body skip fuel b w.
Proof.
  unfold body_prog, Request.body, ask. destruct (negb (has_more_body b)); [done|]. cbn [pbind interp interp_call].
  apply mbind_ext; [done|]. intros v w1. interp_step; [apply read_remaining_interp|].
  by destruct a as [[[[]|e]|] v'].
Qed.

Lemma body_value_drop_interp x w : interp skip (body_value_drop_prog x) w = body_value_drop x w.
Proof. unfold body_value_drop_prog, body_value_drop. by destruct (owned x). Qed.

(** The handlers of a server, from their programs. *)
Definition interp_handlers (handlers : gmap Z (RequestBuffer -> Prog K Response)) :
    gmap Z (Handler (Q := Q) (AW := AW) (K := K)) :=
  (fun h b => interp skip (h b)) <$> handlers.

(** On any world whatever, one turn of [slot_turn] does what the program says, call by
    call: the receive and its retry, the handler, the one response. *)
Lemma slot_turn_interp handlers buffers mode w :
  slot_turn size_of_request skip address (interp_handlers handlers) buffers mode w =
  interp skip (turn_prog size_of_request address handlers buffers mode) w.
Proof.
  symmetry. unfold turn_prog, slot_turn.
  destruct (buffer_take size_of_request buffers) as [buffer pool].
  interp_step; [apply receive_interp|]. destruct a as [[[[]|[code|needed|]] b] mode']; try done.
  - interp_step.
    + unfold interp_handlers. rewrite lookup_fmap. by destruct (handlers !! url_context b).
    + interp_step; [apply send_interp|done].
  - interp_step; [apply reply_interp|done].
Qed.

(** A call on a world in which no operation is in flight. *)
Lemma interp_call_exec {X} (c : Call K X) w :
  quiescent (w_heap w) ->
  let '(x, (k, p)) := exec skip c (w_kern w, w_bodies w) in
  exists h, interp_call skip c w = (x, mkWorld k h p) /\ quiescent h.
Proof.
  intros Hq. destruct c as [id flags len target|id len|id v policy| |capacity|v|X f]; cbn [exec interp_call].
  - destruct (HttpReceiveHttpRequest _ _ _ _ _) as [[a out] k] eqn:E. by apply (runs_submit cx).
  - destruct (HttpReceiveRequestEntityBody _ _ _) as [[a out] k] eqn:E. by apply (runs_submit cx).
  - destruct (HttpSendHttpResponse _ _ _ _) as [a k] eqn:E. apply (runs_submit cx); [done|]. by rewrite E.
  - exists (w_heap w). by destruct w.
  - unfold take_body. destruct (body_take (w_bodies w) capacity) as [v p]. by exists (w_heap w).
  - by exists (w_heap w).
  - destruct (f (w_kern w)) as [x k]. by exists (w_heap w).
Qed.

(** A program run through the operations' wraps, their allocation, their pool and
    their completions does what it does on the kernel and the body pool alone. *)
Lemma interp_refines {A} (p : Prog K A) w :
  quiescent (w_heap w) ->
  let '(x, (k, bodies)) := prun skip p (w_kern w, w_bodies w) in
  exists h, interp skip p w = (x, mkWorld k h bodies) /\ quiescent h.
Proof.
  revert w. induction p as [a|X c f IH]; intros w Hq; cbn [prun interp].
  - exists (w_heap w). by destruct w.
  - pose proof (interp_call_exec c w Hq) as Hc.
    destruct (exec skip c (w_kern w, w_bodies w)) as [x [k p]]. destruct Hc as (h & Hc & Hh).
    specialize (IH x (mkWorld k h p) Hh). cbn [w_kern w_bodies] in IH.
    destruct (prun skip (f x) (k, p)) as [y [k' p']]. destruct IH as (h' & Hi & Hh').
    exists h'. split; [|done]. unfold mbind. by rewrite Hc.
Qed.

(** C17. The slot of [Server] is the program whose calls the slots below interleave.
    From any world with no operation in flight, one turn of [slot_turn], through
    the wraps of its operations, their pool and their completions and with the
    handlers' own calls, gives the result, the kernel and the body pool of
    [turn_prog] run on the kernel and the pool alone, whatever the kernel answers,
    and it leaves no operation in flight. *)
Theorem slot_turn_refines handlers buffers mode w :
  quiescent (w_heap w) ->
  let '(x, (k, bodies)) :=
    prun skip (turn_prog size_of_request address handlers buffers mode) (w_kern w, w_bodies w) in
  exists h,
    slot_turn size_of_request skip address (interp_handlers handlers) buffers mode w = (x, mkWorld k h bodies) /\
    quiescent h.
Proof. intros Hq. rewrite slot_turn_interp. by apply interp_refines. Qed.
End interp_facts.

(** ** The calls of a turn *)

Section turn_calls.
Context `{ArrayQueue Q} (size_of_request address : Z) {K : Type}.

Lemma receive_only (pool : BufferPool Q) b mode : only receive_call (receive_prog (K := K) size_of_request pool b mode).
Proof.
  assert (Honce : forall b id flags needed, only receive_call (receive_once_prog (K := K) b id flags needed)).
  { intros. split; [done|]. by intros [[[r ec] reported] [hdr m]]. }
  assert (Hsecond : forall b id needed mode, only receive_call (second_prog (K := K) size_of_request pool b id needed mode)).
  { intros. apply only_bind; [apply Honce|]. by intros [[r b'] n]. }
  unfold receive_prog. destruct (copy_body mode); [|apply Hsecond].
  apply only_bind; [apply Honce|]. intros [[[[]|[code| |]] b'] n]; try done.
  destruct (code =? ERROR_MORE_DATA); [apply Hsecond|done].
Qed.

(** Beside its handler's, a turn has the calls of its receive and of one response. *)
Lemma turn_only (P : forall X, Call K X -> Prop) (handlers : gmap Z (RequestBuffer -> Prog K Response))
    (buffers : BufferPool Q) mode :
  (forall id flags len target, P _ (CReceive id flags len target)) ->
  (forall id v policy, P _ (CSend id v policy)) ->
  map_Forall (fun _ h => forall b, only P (h b)) handlers ->
  only P (turn_prog size_of_request address handlers buffers mode).
Proof.
  intros Hr Hs Hh. unfold turn_prog. destruct (buffer_take size_of_request buffers) as [b0 pool].
  apply only_bind; [eapply only_impl; [|apply receive_only]; by intros X []|].
  assert (Hsend : forall id r, only P (send_prog address id r)).
  { intros id r. split; [apply Hs|]. by intros [[[res ?] ?] ?]. }
  intros [[r b] mode']. destruct r as [[]|[code|needed|]]; try done.
  - apply only_bind; [destruct (handlers !! url_context b) as [h|] eqn:E; [apply (Hh _ _ E)|done]|].
    intros response. by apply only_bind.
  - apply only_bind; [|done]. unfold reply_prog. destruct (negb _); [by apply only_bind|done].
Qed.

(** All turns under way are of such calls. *)
Definition busy_only (P : forall X, Call K X -> Prop) (sys : System (Q := Q) (K := K)) : Prop :=
  forall i t p, slots sys !! i = Some t -> rest_of_turn t = Some p -> only P p.

Lemma busy_only_insert P sh sh' sl tr tr' (i : nat) t :
  busy_only P (mkSystem sh sl tr) -> (forall p, rest_of_turn t = Some p -> only P p) ->
  busy_only P (mkSystem sh' (<[i := t]> sl) tr').
Proof.
  intros Hok Ht j t' p Hj. cbn [slots] in *.
  apply list_lookup_insert_Some in Hj as [(-> & <- & _)|[_ Hj]]; [by apply Ht|by apply (Hok j)].
Qed.

(** A move of a slot keeps them so. *)
Lemma busy_only_move P `{VecAlloc} `{HttpSys K (option View)} skip handlers i sys sys' :
  (forall buffers mode, only P (turn_prog size_of_request address handlers buffers mode)) ->
  busy_only P sys -> slot_move size_of_request skip address handlers i sys sys' -> busy_only P sys'.
Proof.
  intros Ht Hok Hs. destruct Hs as [sh sl tr bufs mode Hi|sh sl tr bufs mode stop Hi _
    |sh sl tr X c f Hi _|sh sl tr X c f x sh' Hi _|sh sl tr go bufs mode Hi];
    (eapply busy_only_insert; [exact Hok|]); intros q Hq; cbn in Hq.
  - done.
  - destruct stop; [done|]. by injection Hq as <-.
  - injection Hq as <-. by apply (Hok i _ _ Hi).
  - injection Hq as <-. destruct Hi as [Hi|Hi]; apply (Hok i _ _ Hi eq_refl).
  - by destruct go.
Qed.
End turn_calls.

Lemma slots_step_mono `{ArrayQueue Q} `{VecAlloc} `{HttpSys K (option View)} size_of_request skip address handlers
    (ks ks' : K -> K -> Prop) (sys sys' : System (Q := Q) (K := K)) :
  (forall k k', ks k k' -> ks' k k') ->
  slots_step size_of_request skip address handlers ks sys sys' ->
  slots_step size_of_request skip address handlers ks' sys sys'.
Proof.
  intros Hk Hs. destruct Hs; [apply step_kernel; auto|by eapply step_slot].
Qed.

(** ** What a slot owes *)

(** To whom a slot owes a response after its calls so far: to nobody; perhaps to a
    request whose headers did not fit; to a request it received, under exactly that
    id or, after a receive without its body, under that id or under 0; or it has
    gone wrong: it sent what it did not owe, or received while it owed. *)
Inductive Owed :=
  | Free
  | Maybe (id : Z)
  | Owes (id : Z) (exact : bool)
  | Wrong.

(** A receive that found the headers too large; an overlapped call ends with a
    [Win32] error only. *)
Definition too_large (e : Error) : bool :=
  match e with
  | Win32 code => code =? ERROR_MORE_DATA
  | HeadersTooLarge _ => true
  | QueueClosed => false
  end.

Definition after_call {K X} (c : Call K X) : X -> Owed -> Owed :=
  match c in Call _ X return X -> Owed -> Owed with
  | CReceive _ flags _ _ => fun '(r, _, _, (hdr, _)) m =>
      match m with
      | Owes _ _ | Wrong => Wrong
      | _ =>
          match r with
          | Ok _ => Owes (RequestId hdr) (flags =? HTTP_RECEIVE_REQUEST_FLAG_COPY_BODY)
          | Err e => if too_large e then Maybe (RequestId hdr) else Free
          end
      end
  | CSend id _ _ => fun _ m =>
      match m with
      | Owes id' exact => if (id =? id') || negb exact && (id =? 0) then Free else Wrong
      | Maybe id' => if id =? id' then Free else Wrong
      | _ => Wrong
      end
  | _ => fun _ m => m
  end.

Definition settled (m : Owed) : Prop := match m with Free | Maybe _ => True | _ => False end.

(** However the calls are answered, the program never goes wrong, and what it ends
    with is as asked. *)
Fixpoint ensures {K A} (p : Prog K A) (m : Owed) (R : A -> Owed -> Prop) : Prop :=
  match p with
  | Ret a => R a m
  | Do c k => forall x, after_call c x m <> Wrong /\ ensures (k x) (after_call c x m) R
  end.

Lemma ensures_bind {K A B} (p : Prog K A) (f : A -> Prog K B) m R :
  ensures p m (fun a m => ensures (f a) m R) -> ensures (pbind p f) m R.
Proof.
  revert m. induction p as [a|X c k IH]; intros m Hp; [done|]. cbn [pbind ensures] in *.
  intros x. destruct (Hp x) as [Hw Hk]. split; [done|]. by apply IH.
Qed.

Lemma ensures_impl {K A} (p : Prog K A) m (R R' : A -> Owed -> Prop) :
  ensures p m R -> (forall a m, R a m -> R' a m) -> ensures p m R'.
Proof.
  revert m. induction p as [a|X c k IH]; intros m Hp HR; cbn [ensures] in *; [auto|].
  intros x. destruct (Hp x) as [Hw Hk]. split; [done|]. by apply IH.
Qed.

(** A program that neither receives nor sends. *)
Definition keeps {K A} (p : Prog K A) : Prop := forall m, m <> Wrong -> ensures p m (fun _ m' => m' = m).

Lemma keeps_ret {K A} (a : A) : keeps (K := K) (Ret a).
Proof. by intros m Hm. Qed.

Lemma keeps_bind {K A B} (p : Prog K A) (f : A -> Prog K B) :
  keeps p -> (forall a, keeps (f a)) -> keeps (pbind p f).
Proof.
  intros Hp Hf m Hm. apply ensures_bind. eapply ensures_impl; [by apply Hp|]. intros a m' ->. by apply Hf.
Qed.

Lemma handler_keeps {K A} (p : Prog K A) : only handler_call p -> keeps p.
Proof.
  intros Hp. induction p as [a|X c k IH]; [apply keeps_ret|]. destruct Hp as [Hc Hk].
  intros m Hm x. replace (after_call c x m) with m by by destruct c.
  split; [done|]. by apply IH.
Qed.

Section owed_facts.
Context `{ArrayQueue Q} (size_of_request : Z) (skip : bool) (address : Z) `{VecAlloc} {K : Type}.

Lemma body_prog_body fuel b : only (K := K) body_call (body_prog fuel b).
Proof.
  assert (Hread : forall id len, only (K := K) body_call (read_body_prog id len)).
  { intros id len. unfold read_body_prog. destruct (len =? 0); [done|]. split; [done|].
    by intros [[[r ?] ?] data]. }
  assert (Hall : forall id v, only (K := K) body_call (read_remaining_prog fuel id v)).
  { intros id. induction fuel as [|n IH]; intros v; cbn [read_remaining_prog]; [done|].
    apply only_bind; [|by intros [[r|] v']]. by apply only_bind; [|intros [r data]]. }
  unfold body_prog. destruct (negb _); [done|]. split; [done|]. intros v. cbn [pbind].
  apply only_bind; [apply Hall|]. by intros [[[[]|e]|] v'].
Qed.

Lemma fit_body_inline_id (pool : BufferPool Q) b :
  let b' := (fit_body_inline size_of_request pool b).2 in
  buffer_request_id b' = buffer_request_id b \/ buffer_request_id b' = 0.
Proof.
  destruct (fit_body_inline size_of_request pool b) as [ok b'] eqn:E.
  destruct (fit_body_inline_contents size_of_request pool b ok b' E) as [->|(_ & Hh & _)]; [by left|right].
  cbn. unfold buffer_request_id. by rewrite Hh.
Qed.

(** What a turn has received when it comes to its answer. *)
Definition received (r : result unit) (b : RequestBuffer) (m : Owed) : Prop :=
  match r with
  | Ok _ => exists id exact, m = Owes id exact /\
      (buffer_request_id b = id \/ exact = false /\ buffer_request_id b = 0)
  | Err (HeadersTooLarge _) => m = Maybe (buffer_request_id b)
  | Err _ => settled m
  end.

Lemma receive_once_ensures b id flags needed m :
  settled m ->
  ensures (K := K) (receive_once_prog b id flags needed) m (fun '(r, b', _) m' =>
    match r with
    | Ok _ => m' = Owes (buffer_request_id b') (flags =? HTTP_RECEIVE_REQUEST_FLAG_COPY_BODY)
    | Err e => m' = if too_large e then Maybe (buffer_request_id b') else Free
    end).
Proof.
  intros Hm [[[r ec] reported] [hdr mm]]. cbn [after_call].
  destruct m; try done; destruct r as [n|e]; cbn [result_map ensures pbind]; try destruct (too_large e); done.
Qed.

Lemma second_ensures (pool : BufferPool Q) b id needed mode m :
  settled m ->
  ensures (K := K) (second_prog size_of_request pool b id needed mode) m (fun '(r, b', _) m' => received r b' m').
Proof.
  intros Hm. unfold second_prog. apply ensures_bind.
  eapply ensures_impl; [by apply receive_once_ensures|]. intros [[[[]|e] b'] needed'] m'; cbn [ensures].
  - intros ->. pose proof (fit_body_inline_id pool b') as Hid. cbn zeta in Hid.
    destruct (fit_body_inline size_of_request pool b') as [fits b'']. cbn [snd] in Hid. cbn.
    eexists _, _. split; [done|]. destruct Hid as [->| ->]; auto.
  - destruct e as [code|n|]; cbn; intros ->; try done. by destruct (code =? ERROR_MORE_DATA).
Qed.

Lemma receive_ensures (pool : BufferPool Q) b mode m :
  settled m ->
  ensures (K := K) (receive_prog size_of_request pool b mode) m (fun '(r, b', _) m' => received r b' m').
Proof.
  intros Hm. unfold receive_prog. destruct (copy_body mode); [|by apply second_ensures].
  apply ensures_bind. eapply ensures_impl; [by apply receive_once_ensures|].
  intros [[[[]|e] b'] needed'] m'.
  - intros ->. cbn. eauto 10.
  - intros ->. destruct e as [code|n|]; cbn [too_large]; try done.
    destruct (code =? ERROR_MORE_DATA); [by apply second_ensures|done].
Qed.

(** One turn, whatever it is answered. *)
Lemma turn_ensures (handlers : gmap Z (RequestBuffer -> Prog K Response)) (buffers : BufferPool Q) mode m :
  map_Forall (fun _ h => forall b, only handler_call (h b)) handlers -> settled m ->
  ensures (turn_prog size_of_request address handlers buffers mode) m (fun _ m' => settled m').
Proof.
  intros Hh Hm. unfold turn_prog. destruct (buffer_take size_of_request buffers) as [b0 pool].
  apply ensures_bind. eapply ensures_impl; [by apply receive_ensures|].
  intros [[r b] mode'] m' Hr. destruct r as [[]|[code|needed|]]; cbn [received] in Hr; [|done| |done].
  - destruct Hr as (id & exact & -> & Hid). apply ensures_bind.
    assert (Hk : keeps match handlers !! url_context b with
        | Some handler => handler b
        | None => Ret (response_new status.NOT_FOUND)
        end).
    { destruct (handlers !! url_context b) as [h|] eqn:E; [apply handler_keeps, (Hh _ _ E)|apply keeps_ret]. }
    eapply ensures_impl; [by apply Hk|]. intros response m'' ->. cbn.
    intros [[[res ?] ?] ?].
    assert (Hs : (buffer_request_id b =? id) || negb exact && (buffer_request_id b =? 0) = true).
    { destruct Hid as [->|[-> ->]]; [by rewrite Z.eqb_refl|by rewrite orb_true_r]. }
    rewrite Hs. done.
  - subst m'. unfold reply_prog. destruct (negb _); [|done]. cbn.
    intros [[[res ?] ?] ?]. by rewrite Z.eqb_refl.
Qed.
End owed_facts.

(** ** Every request is answered once *)

Section monitor.
Context {K : Type}.

Definition after_event (m : Owed) (e : Event K) : Owed := after_call (fst (projT2 e)) (snd (projT2 e)) m.

(** The events of one slot, and what it owes after them. *)
Definition slot_events (i : nat) (tr : list (nat * Event K)) : list (Event K) :=
  map snd (List.filter (fun e => fst e =? i)%nat tr).
Definition owed (i : nat) (tr : list (nat * Event K)) : Owed := foldl after_event Free (slot_events i tr).

Lemma slot_events_snoc i tr j e :
  slot_events i (tr ++ [(j, e)]) = slot_events i tr ++ (if (j =? i)%nat then [e] else []).
Proof.
  unfold slot_events. rewrite List.filter_app, map_app. cbn. by destruct (j =? i)%nat.
Qed.

Lemma owed_snoc i tr j e :
  owed i (tr ++ [(j, e)]) = if (j =? i)%nat then after_event (owed i tr) e else owed i tr.
Proof.
  unfold owed. rewrite slot_events_snoc, foldl_app. by destruct (j =? i)%nat.
Qed.

(** Sends to a request, and receives that gave its id. *)
Definition sends (id : Z) (e : Event K) : bool :=
  match projT2 e with
  | (CSend id' _ _, _) => id' =? id
  | _ => false
  end.
Definition receives (id : Z) (e : Event K) : bool :=
  (match fst (projT2 e) in Call _ X return X -> bool with
   | CReceive _ _ _ _ => fun '(r, _, _, (hdr, _)) =>
       (RequestId hdr =? id) && match r with Ok _ => true | Err e => too_large e end
   | _ => fun _ => false
   end) (snd (projT2 e)).
(** Receives that gave it with the flag that asks for the body. *)
Definition receives_whole (id : Z) (e : Event K) : bool :=
  (match fst (projT2 e) in Call _ X return X -> bool with
   | CReceive _ flags _ _ => fun '(r, _, _, (hdr, _)) =>
       (RequestId hdr =? id) && (flags =? HTTP_RECEIVE_REQUEST_FLAG_COPY_BODY) && is_ok r
   | _ => fun _ => false
   end) (snd (projT2 e)).
Definition count (f : Event K -> bool) (l : list (Event K)) : nat := length (List.filter f l).

Definition owes (id : Z) (m : Owed) : bool :=
  match m with Owes id' _ | Maybe id' => id' =? id | _ => false end.

(** A slot that has not gone wrong has sent to an id at most as often as it received
    it. *)
Lemma count_sends id l :
  id <> 0 -> foldl after_event Free l <> Wrong ->
  (count (sends id) l + (if owes id (foldl after_event Free l) then 1 else 0) <= count (receives id) l)%nat.
Proof.
  intros Hid. unfold count. induction l as [|e l IH] using rev_ind; [cbn; lia|].
  rewrite !List.filter_app, !length_app, foldl_app. cbn [foldl].
  set (m := foldl after_event Free l) in *. clearbody m.
  set (ns := length (List.filter (sends id) l)) in *. set (nr := length (List.filter (receives id) l)) in *.
  clearbody ns nr. destruct e as [X [c x]]. unfold after_event, sends, receives. cbn [projT2 fst snd List.filter].
  destruct c as [rid flags len target|rid len|rid v policy| |cap|v|Y f]; cbn [after_call length].
  - destruct x as [[[r ec] rep] [hdr mm]]. destruct m; try done; intros _; specialize (IH ltac:(done));
      cbn [owes] in IH; destruct r as [n|e]; cbn [owes]; rewrite ?andb_true_r;
      try destruct (too_large e); cbn [owes]; rewrite ?andb_true_r, ?andb_false_r;
      repeat match goal with |- context [?a =? id] => destruct (a =? id) end; cbn in *;
      try destruct (_ =? id); lia.
  - intros Hw. specialize (IH Hw). lia.
  - destruct m as [|i'|i' exact|]; try done; intros Hw; specialize (IH ltac:(done)); cbn [owes] in IH.
    + destruct (Z.eqb_spec rid i') as [->|]; [|done]. cbn [owes]. destruct (i' =? id); cbn in *; lia.
    + destruct (Z.eqb_spec rid i') as [->|]; cbn [orb] in *.
      * cbn [owes]. destruct (i' =? id); cbn in *; lia.
      * destruct (negb exact && (rid =? 0)) eqn:E; [|done]. apply andb_prop in E as [_ E].
        apply Z.eqb_eq in E as ->. rewrite (proj2 (Z.eqb_neq 0 id)) by congruence. cbn in *.
        destruct (i' =? id); lia.
  - intros Hw. specialize (IH Hw). lia.
  - intros Hw. specialize (IH Hw). lia.
  - intros Hw. specialize (IH Hw). lia.
  - intros Hw. specialize (IH Hw). lia.
Qed.

Definition owes_exactly (id : Z) (m : Owed) : bool :=
  match m with Owes id' true => id' =? id | _ => false end.

(** It has sent to an id as often as it received it whole, but for the one it owes. *)
Lemma count_whole id l :
  foldl after_event Free l <> Wrong ->
  (count (receives_whole id) l <=
   count (sends id) l + (if owes_exactly id (foldl after_event Free l) then 1 else 0))%nat.
Proof.
  unfold count. induction l as [|e l IH] using rev_ind; [cbn; lia|].
  rewrite !List.filter_app, !length_app, foldl_app. cbn [foldl].
  set (m := foldl after_event Free l) in *. clearbody m.
  set (ns := length (List.filter (sends id) l)) in *. set (nr := length (List.filter (receives_whole id) l)) in *.
  clearbody ns nr. destruct e as [X [c x]]. unfold after_event, sends, receives_whole.
  cbn [projT2 fst snd List.filter].
  destruct c as [rid flags len target|rid len|rid v policy| |cap|v|Y f]; cbn [after_call length];
    try (intros Hw; specialize (IH Hw); lia).
  - destruct x as [[[r ec] rep] [hdr mm]]. destruct m; try done; intros _; specialize (IH ltac:(done));
      cbn [owes_exactly] in IH; destruct r as [n|e]; cbn [is_ok owes_exactly]; rewrite ?andb_true_r, ?andb_false_r;
      try destruct (too_large e); cbn [owes_exactly length]; try lia;
      destruct (flags =? _); rewrite ?andb_true_r, ?andb_false_r; cbn [length]; try lia;
      destruct (RequestId hdr =? id); cbn [length]; lia.
  - destruct m as [|i'|i' exact|]; try done; intros Hw; specialize (IH ltac:(done)); cbn [owes_exactly] in IH.
    + destruct (Z.eqb_spec rid i') as [->|]; [|done]. cbn [owes_exactly]. destruct (i' =? id); cbn in *; lia.
    + destruct (Z.eqb_spec rid i') as [->|]; cbn [orb] in *.
      * cbn [owes_exactly]. destruct exact, (i' =? id); cbn in *; lia.
      * destruct exact; [done|]. destruct (negb false && (rid =? 0)); [|done]. cbn. destruct (rid =? id); cbn; lia.
Qed.

(** Counting slot by slot. *)
Lemma count_slots f n tr :
  Forall (fun e => fst e < n)%nat tr ->
  count f (map snd tr) = sum_list_with (fun i => count f (slot_events i tr)) (seq 0 n).
Proof.
  unfold count, slot_events. induction 1 as [|[j e] tr Hj _ IH]; cbn [map List.filter].
  - induction (seq 0 n) as [|i l IH]; [done|exact IH].
  - cbn [fst snd] in *. transitivity ((if f e then 1 else 0) + length (List.filter f (map snd tr)))%nat;
      [by destruct (f e)|]. rewrite IH. clear IH.
    assert (Hsum : forall l, NoDup l ->
      sum_list_with (fun i => length (List.filter f (map snd (if (j =? i)%nat then
        (j, e) :: List.filter (fun e => fst e =? i)%nat tr else List.filter (fun e => fst e =? i)%nat tr)))) l =
      ((if bool_decide (j ∈ l) then if f e then 1 else 0 else 0) +
      sum_list_with (fun i => length (List.filter f (map snd (List.filter (fun e => fst e =? i)%nat tr)))) l)%nat).
    { induction 1 as [|i l Hi Hl IH]; [done|]. cbn [sum_list_with]. rewrite IH. clear IH.
      destruct (Nat.eqb_spec j i) as [->|Hne].
      - rewrite (bool_decide_eq_true_2 (i ∈ i :: l)) by set_solver.
        rewrite (bool_decide_eq_false_2 (i ∈ l)) by done. cbn [map List.filter snd]. destruct (f e); cbn; lia.
      - rewrite (bool_decide_ext (j ∈ i :: l) (j ∈ l)) by set_solver. lia. }
    rewrite Hsum by apply NoDup_seq. by rewrite bool_decide_eq_true_2 by (apply elem_of_seq; lia).
Qed.
End monitor.

Section concurrent.
Context `{ArrayQueue Q} `{VecAlloc} `{HttpSys K (option View)}.
Context (size_of_request : Z) (skip : bool) (address : Z).
Context (handlers : gmap Z (RequestBuffer -> Prog K Response)) (kernel_step : K -> K -> Prop).
Hypothesis handlers_ok : map_Forall (fun _ h => forall b, only handler_call (h b)) handlers.

Definition slot_ok (sl : SlotState (Q := Q) (K := K)) (m : Owed) : Prop :=
  m <> Wrong /\
  match sl with
  | Busy p => ensures p m (fun _ m => settled m)
  | Waiting c k => ensures (Do c k) m (fun _ m => settled m)
  | Dropped => True
  | _ => settled m
  end.

Definition slots_inv (s : System (Q := Q) (K := K)) : Prop :=
  Forall (fun e => fst e < length (slots s))%nat (trace s) /\
  forall i sl, slots s !! i = Some sl -> slot_ok sl (owed i (trace s)).

Lemma settled_right m : settled m -> m <> Wrong.
Proof. by destruct m. Qed.

(** One slot moved; the others see its event and are not concerned. *)
Lemma inv_update s s' sl tr i old new l :
  slots_inv (mkSystem s sl tr) -> sl !! i = Some old -> Forall (fun e => fst e = i) l ->
  slot_ok new (owed i (tr ++ l)) -> slots_inv (mkSystem s' (<[i := new]> sl) (tr ++ l)).
Proof.
  intros [Htr Hsl] Hi Hl Hnew. cbn [slots trace] in *. pose proof (lookup_lt_Some _ _ _ Hi) as Hlt.
  split; cbn [slots trace].
  - rewrite length_insert. apply Forall_app. split; [done|]. eapply Forall_impl; [exact Hl|]. cbn. lia.
  - intros j sl' Hj. apply list_lookup_insert_Some in Hj as [(-> & <- & _)|[Hne Hj]]; [done|].
    specialize (Hsl j sl' Hj). replace (owed j (tr ++ l)) with (owed j tr); [done|].
    unfold owed, slot_events. rewrite List.filter_app.
    replace (List.filter (fun e => fst e =? j)%nat l) with (@nil (nat * Event K)); [by rewrite app_nil_r|].
    clear -Hl Hne. induction Hl as [|e l He _ IH]; [done|]. cbn.
    by rewrite (proj2 (Nat.eqb_neq (fst e) j)) by congruence.
Qed.

Lemma slot_move_inv i s s' :
  slots_inv s -> slot_move size_of_request skip address handlers i s s' -> slots_inv s'.
Proof.
  intros Hinv Hstep.
  assert (Hsame : forall sh sl tr old new, slots_inv (mkSystem sh sl tr) -> sl !! i = Some old ->
    slot_ok new (owed i tr) -> slots_inv (mkSystem sh (<[i := new]> sl) tr)).
  { intros sh sl tr old new Hok Hi Hn. rewrite <- (app_nil_r tr). eapply inv_update; [exact Hok|exact Hi|by constructor|].
    by rewrite app_nil_r. }
  destruct Hstep as [sh sl tr bufs mode Hi|sh sl tr bufs mode stop Hi _
    |sh sl tr X c k Hi _|sh sl tr X c k x sh' Hi _|sh sl tr go bufs mode Hi].
  - pose proof (proj2 Hinv i _ Hi) as [Hw Hok]. by eapply Hsame.
  - pose proof (proj2 Hinv i _ Hi) as [Hw Hok]. cbn [trace] in Hw, Hok.
    eapply inv_update; [exact Hinv|exact Hi|by repeat constructor|].
    rewrite owed_snoc, Nat.eqb_refl. unfold after_event. cbn. split; [done|].
    destruct stop; [done|]. by apply turn_ensures.
  - pose proof (proj2 Hinv i _ Hi) as [Hw Hok]. by eapply Hsame.
  - assert (exists old, sl !! i = Some old /\ owed i tr <> Wrong /\
      ensures (Do c k) (owed i tr) (fun _ m => settled m)) as (old & Hold & Hw & Hok).
    { destruct Hi as [Hi|Hi]; pose proof (proj2 Hinv i _ Hi) as [Hw Hok]; by eexists. }
    eapply inv_update; [exact Hinv|exact Hold|by repeat constructor|].
    rewrite owed_snoc, Nat.eqb_refl. cbn [ensures] in Hok. exact (Hok x).
  - pose proof (proj2 Hinv i _ Hi) as [Hw Hok]. eapply Hsame; [done|done|]. split; [done|]. by destruct go.
Qed.

Lemma slots_step_inv s s' :
  slots_inv s -> slots_step size_of_request skip address handlers kernel_step s s' -> slots_inv s'.
Proof. intros Hinv Hstep. destruct Hstep as [k k' p sl tr _|i s s' Hs]; [exact Hinv|]. by eapply slot_move_inv. Qed.

Lemma slot_drop_inv i s s' : slots_inv s -> slot_drop i s s' -> slots_inv s'.
Proof.
  intros Hinv Hstep. destruct Hstep as [k p p' sl tr t Hi Ht _].
  pose proof (proj2 Hinv i _ Hi) as [Hw Hok]; cbn [trace] in Hw, Hok.
  rewrite <- (app_nil_r tr). eapply inv_update; [exact Hinv|exact Hi|by constructor|].
  by rewrite app_nil_r.
Qed.

Lemma slots_init_inv s : slots_init s -> slots_inv s.
Proof.
  intros [Ht Hs]. unfold slots_inv. rewrite Ht. split; [constructor|].
  intros i sl Hi. rewrite Forall_forall in Hs.
  destruct (Hs sl) as (bufs & mode & [-> | ->]); [by eapply list_elem_of_lookup_2|done|done].
Qed.

(** What is true of a system of slots at any moment.  A slot is at rest when it is not
    polled yet, between two turns, or over. *)
Definition at_rest (sl : SlotState (Q := Q) (K := K)) : Prop :=
  match sl with Busy _ | Waiting _ _ | Dropped => False | _ => True end.

Definition answers_once (s : System (Q := Q) (K := K)) : Prop :=
  (forall i sl, slots s !! i = Some sl ->
     owed i (trace s) <> Wrong /\
     (at_rest sl -> settled (owed i (trace s)) /\
        forall id, (count (receives_whole id) (slot_events i (trace s)) <= count (sends id) (slot_events i (trace s)))%nat)) /\
  forall id, id <> 0 ->
    (count (sends id) (map snd (trace s)) <= count (receives id) (map snd (trace s)))%nat.

Lemma inv_answers_once s : slots_inv s -> answers_once s.
Proof.
  intros [Htr Hsl]. split.
  - intros i sl Hi. destruct (Hsl i sl Hi) as [Hw Hok]. split; [done|]. intros Hrest.
    assert (Hset : settled (owed i (trace s))) by by destruct sl. split; [done|]. intros id.
    pose proof (count_whole id (slot_events i (trace s)) Hw) as Hc. revert Hc. unfold owed in Hset.
    destruct (foldl after_event Free (slot_events i (trace s))); cbn [owes_exactly]; [lia..|done|done].
  - intros id Hid. rewrite !(count_slots _ (length (slots s))) by done.
    assert (Hall : forall i, (i < length (slots s))%nat ->
      (count (sends id) (slot_events i (trace s)) <= count (receives id) (slot_events i (trace s)))%nat).
    { intros i Hi. destruct (slots s !! i) as [sl|] eqn:E; [|apply lookup_ge_None in E; lia].
      destruct (Hsl i sl E) as [Hw _]. pose proof (count_sends id (slot_events i (trace s)) Hid Hw). lia. }
    assert (Hl : Forall (fun i => i < length (slots s))%nat (seq 0 (length (slots s)))).
    { apply Forall_forall. intros i Hi%elem_of_seq. lia. }
    induction Hl as [|i l Hi _ IH]; [done|]. cbn [sum_list_with]. specialize (Hall i Hi). lia.
Qed.

(** Any number of slots over one kernel, their calls interleaved in any order,
    each call answered in any way, the kernel moving by itself in between, and any
    slot's task dropped at any moment.  No slot ever goes wrong: it sends only to
    the request it owes a response, and it does not receive again before it has;
    at rest it has answered every request it received whole, under its id.  For a
    request received without its body the slot may have lost the id and sends to
    0.  Over all slots together, no request is sent more responses than the kernel
    handed it out. *)
Theorem slots_answer_once s :
  reachable slots_init
    (fun s s' => slots_step size_of_request skip address handlers kernel_step s s' \/ exists i, slot_drop i s s') s ->
  answers_once s.
Proof.
  intros Hr. apply inv_answers_once. revert s Hr. apply reachable_invariant; [apply slots_init_inv|].
  intros a b Ha [Hs|[i Hs]]; [by eapply slots_step_inv|by eapply slot_drop_inv].
Qed.
End concurrent.

(** ** Schedules, for witnesses: the slots named in a list move in that order *)

Section schedule.
Context `{ArrayQueue Q} `{VecAlloc} `{HttpSys K (option View)}.
Context (size_of_request : Z) (skip : bool) (address : Z).
Context (handlers : gmap Z (RequestBuffer -> Prog K Response)).

(** A slot sees the flag as it is and is not suspended at a call. *)
Definition move (s : System (Q := Q) (K := K)) (i : nat) : System :=
  match slots s !! i with
  | Some (Spawned buffers mode) => mkSystem (shared s) (<[i := Idle buffers mode]> (slots s)) (trace s)
  | Some (Idle buffers mode) =>
      let stop := stop_requested (fst (shared s)) in
      mkSystem (shared s)
        (<[i := if stop then Over else Busy (turn_prog size_of_request address handlers buffers mode)]> (slots s))
        (trace s ++ [(i, event CStop stop)])
  | Some (Busy (Do c k) | Waiting c k) =>
      let '(x, sh) := exec skip c (shared s) in
      mkSystem sh (<[i := Busy (k x)]> (slots s)) (trace s ++ [(i, event c x)])
  | Some (Busy (Ret (go, buffers, mode))) =>
      mkSystem (shared s) (<[i := if go then Idle buffers mode else Over]> (slots s)) (trace s)
  | _ => s
  end.

Lemma move_step s i : move s i = s \/ slot_move size_of_request skip address handlers i s (move s i).
Proof.
  unfold move. destruct s as [sh sl tr]. cbn [slots shared trace].
  destruct (sl !! i) as [[bufs mode|bufs mode|[[[go bufs] mode]|X c k]|X c k| |]|] eqn:Hi;
    try (by left); right.
  - by apply step_start.
  - by apply step_check.
  - by eapply step_turn.
  - destruct (exec skip c sh) as [x sh'] eqn:E. by eapply step_call; [left|].
  - destruct (exec skip c sh) as [x sh'] eqn:E. by eapply step_call; [right|].
Qed.

Lemma moves_reachable s order :
  slots_init s ->
  reachable slots_init (fun s s' =>
    slots_step size_of_request skip address handlers (fun _ _ => False) s s' \/ exists i, slot_drop i s s')
    (foldl move s order).
Proof.
  intros Hs. induction order as [|i order IH] using rev_ind; [by apply reachable_init|].
  rewrite foldl_app. cbn [foldl]. destruct (move_step (foldl move s order) i) as [->|Hm]; [done|].
  eapply reachable_step; [exact IH|]. left. by eapply step_slot.
Qed.
End schedule.

(** A handler that reads the whole body and says it back. *)
Definition echo_prog {K} (fuel : nat) : RequestBuffer -> Prog K Response := fun b =>
  prog! r := body_prog fuel b in
  match r with
  | Some (Ok body) =>
      prog! _ := body_value_drop_prog body in
      Ret (with_body (response_new status.OK) (deref body))
  | _ => Ret (response_new status.INTERNAL_SERVER_ERROR)
  end.

Lemma echo_body {K} fuel b : only (K := K) body_call (echo_prog fuel b).
Proof.
  apply only_bind; [apply body_prog_body|]. intros [[[inline [v|]]|e]|]; by repeat split.
Qed.

(** Two slots, and two requests; the first has a body to be read. *)
Definition two_requests : Script :=
  let request flags id := (io_now 0 500, (mkRequestV2 flags 0 id 7 HttpVerbPOST 0 0 None None
    (replicate HttpHeaderRequestMaximum zero_header) 0 None, ∅)) in
  mkScript [request HTTP_REQUEST_FLAG_MORE_ENTITY_BODY_EXISTS 41; request 0 42]
    [(io_later None 2, [8; 9]); (io_now ERROR_HANDLE_EOF 0, [])] [].
Definition two_slots : System (Q := list_queue) (K := Script) :=
  mkSystem (two_requests, body_pool_new 2 1048576)
    (replicate 2 (Spawned demo_empty receive_mode_default)) [].
(** Both receive before either answers; the second answers while the first reads. *)
Definition demo_schedule : list nat := [0; 1; 0; 1; 0; 1; 1; 0; 0; 1; 0; 0; 0; 0]%nat.

Lemma slots_answer_once_witness :
  let s := foldl (move 1000 true 64 {[7 := echo_prog 4]}) two_slots demo_schedule in
  owed 0 (trace s) = Free /\ count (sends 41) (map snd (trace s)) = 1%nat /\
  (count (sends 42) (map snd (trace s)) <= 1)%nat.
Proof.
  intros s. split; [vm_compute; reflexivity|]. split; [vm_compute; reflexivity|].
  assert (Hr : count (receives 42) (map snd (trace s)) = 1%nat) by (vm_compute; reflexivity).
  rewrite <- Hr.
  refine (proj2 (slots_answer_once 1000 true 64 {[7 := echo_prog 4]} (fun _ _ => False) _ s _) 42 _);
    [|apply moves_reachable|discriminate].
  - intros i h Hi b. apply lookup_singleton_Some in Hi as [_ <-].
    eapply only_impl; [|apply echo_body]. by intros X [].
  - split; [done|]. repeat constructor; eauto.
Defined.

Lemma slot_turn_refines_witness :
  let handlers := {[7 := echo_prog 4]} in
  let '(x, (k, p)) := prun true (turn_prog 1000 64 handlers demo_empty (mkMode true))
    (two_requests, body_pool_new 2 1048576) in
  exists h, slot_turn 1000 true 64 (interp_handlers true handlers) demo_empty (mkMode true)
    (demo_world two_requests) = (x, mkWorld k h p).
Proof.
  intros handlers.
  pose proof (slot_turn_refines tt 1000 true 64 handlers demo_empty (mkMode true)
    (demo_world two_requests) (demo_quiescent two_requests)) as Hi.
  cbn [w_kern w_bodies demo_world] in Hi.
  destruct (prun true _ (two_requests, body_pool_new 2 1048576)) as [x [k p]].
  destruct Hi as (h & Hi & _). exists h. exact Hi.
Defined.
