(* ===== verification/Serving.v ===== *)
(** * A server from run to join (crates/httpsys/src/server.rs)

    [serve] with its slots as they are in [Slots], call by call, the stop flag, the
    queue and the shared body pool; the drop of the handles with the port's; and
    the owner.  Seen through [view] it is the system of [Shutdown], whose slots have
    no more than a place. *)

From S2P Require Import Prelude RustStd Errors Crates HttpApi Buffer Overlapped Iocp Response Queue.
From S2P Require Import Request Init Server Shutdown Slots.
Set Warnings "-clear-no-such-hyp".

(** ** The stop flag

    A word of the server that the driver knows nothing of. *)
Class StopFlag K `{HttpSys K (option View)} := {
  set_stop : K -> K;
  set_stop_requested k : stop_requested (set_stop k) = true;
  receive_flag k id flags len target :
    stop_requested (snd (HttpReceiveHttpRequest k id flags len target)) = stop_requested k;
  read_flag k id len : stop_requested (snd (HttpReceiveRequestEntityBody k id len)) = stop_requested k;
  send_flag k id v policy : stop_requested (snd (HttpSendHttpResponse k id v policy)) = stop_requested k;
  shutdown_flag k : stop_requested (snd (HttpShutdownRequestQueue k)) = stop_requested k;
}.

(** Any driver beside a flag. *)
#[export] Instance flagged_http_sys `{HttpSys K R} : HttpSys (K * bool) R := {
  HttpReceiveHttpRequest '(k, f) id flags len target :=
    let '(x, k) := HttpReceiveHttpRequest k id flags len target in (x, (k, f));
  HttpReceiveRequestEntityBody '(k, f) id n :=
    let '(x, k) := HttpReceiveRequestEntityBody k id n in (x, (k, f));
  HttpSendHttpResponse '(k, f) id r policy :=
    let '(x, k) := HttpSendHttpResponse k id r policy in (x, (k, f));
  HttpShutdownRequestQueue '(k, f) := let '(x, k) := HttpShutdownRequestQueue k in (x, (k, f));
  stop_requested kf := snd kf;
}.

#[export] Program Instance flagged_stop `{HttpSys K (option View)} : StopFlag (K * bool) := {
  set_stop kf := (fst kf, true);
}.
Next Obligation. done. Qed.
Next Obligation. intros K ? [k f] *. cbn. by destruct (HttpReceiveHttpRequest _ _ _ _ _). Qed.
Next Obligation. intros K ? [k f] *. cbn. by destruct (HttpReceiveRequestEntityBody _ _ _). Qed.
Next Obligation. intros K ? [k f] *. cbn. by destruct (HttpSendHttpResponse _ _ _ _). Qed.
Next Obligation. intros K ? [k f]. cbn. by destruct (HttpShutdownRequestQueue _). Qed.

(** ** The system *)

Section serving.
Context `{ArrayQueue Q} `{VecAlloc} `{StopFlag K} `{Broadcast C}.
Context (size_of_request : Z) (skip : bool) (address : Z).
Context (handlers : gmap Z (RequestBuffer -> Prog K Response)) (kernel_step : K -> K -> Prop).
Context (config : ServerConfig).

Record Serving := mkServing {
  s_chan : C;
  s_worker : WorkerPc;
  s_owner : OwnerPc;
  s_down : bool;
  s_sys : System (Q := Q) (K := K);
}.

(** [run]; the kernel is as the builder left it. *)
Definition serving_init (s : Serving) : Prop :=
  exists k, stop_requested k = false /\
    s = mkServing bc_channel (Spawning (Z.to_nat (concurrency config))) Owning false
          (mkSystem (k, body_pool_new (Z.min (concurrency config) 64) (max_pooled_body_bytes config)) [] []).

(** The threads of the queue's port, as [RequestQueue::new] has it made. *)
Definition port_size : nat := Z.to_nat (Z.max (io_threads config) 1).

(** A slot as [serve] spawns it. *)
Definition new_slot : SlotState (Q := Q) (K := K) :=
  Spawned (buffer_pool_new 1 (request_buffer_bytes config) (max_request_buffer_bytes config)) receive_mode_default.

(** Every task has ended. *)
Definition all_ended (sys : System (Q := Q) (K := K)) : Prop := Forall (fun t => live t = false) (slots sys).

(** The server thread and the runtime. *)
Inductive serving_thread : Serving -> Serving -> Prop :=
  | sv_spawn c n o d sh sl tr :
      serving_thread (mkServing c (Spawning (S n)) o d (mkSystem sh sl tr))
        (mkServing c (Spawning n) o d (mkSystem sh (sl ++ [new_slot]) tr))
  | sv_spawned c o d sys :
      serving_thread (mkServing c (Spawning 0) o d sys) (mkServing c Subscribing o d sys)
  | sv_subscribe c o d sys :
      serving_thread (mkServing c Subscribing o d sys) (mkServing (bc_subscribe c) AwaitingShutdown o d sys)
  | sv_recv c o d sys :
      bc_ready c = true ->
      serving_thread (mkServing c AwaitingShutdown o d sys) (mkServing c SettingStop o d sys)
  | sv_stop c o d k p sl tr :
      serving_thread (mkServing c SettingStop o d (mkSystem (k, p) sl tr))
        (mkServing c ShuttingQueue o d (mkSystem (set_stop k, p) sl tr))
  | sv_shutdown c o d k p sl tr ec k' :
      HttpShutdownRequestQueue k = (ec, k') ->
      serving_thread (mkServing c ShuttingQueue o d (mkSystem (k, p) sl tr))
        (mkServing c Draining o (d || (ec =? 0)) (mkSystem (k', p) sl tr))
  | sv_drained c o d sys :
      all_ended sys -> serving_thread (mkServing c Draining o d sys) (mkServing c Exited o d sys)
  | sv_timeout c o d sys :
      serving_thread (mkServing c Draining o d sys) (mkServing c Aborting o d sys)
  | sv_aborted c o d sys :
      all_ended sys -> serving_thread (mkServing c Aborting o d sys) (mkServing c Exited o d sys)
  (* an aborted task ends where it is suspended *)
  | sv_abort c o d sys sys' i t :
      slots sys !! i = Some t -> suspended t = true -> slot_drop i sys sys' ->
      serving_thread (mkServing c Aborting o d sys) (mkServing c Aborting o d sys')
  (* [drop(handles)]: the queue is closed and its port dropped *)
  | sv_close c o d sys p :
      open_port port_size p ->
      serving_thread (mkServing c Exited o d sys) (mkServing c (Closing p) o d sys)
  | sv_closing c o d sys p p' :
      port_step p p' ->
      serving_thread (mkServing c (Closing p) o d sys) (mkServing c (Closing p') o d sys)
  | sv_closed c o d sys p :
      dropper p = Closed ->
      serving_thread (mkServing c (Closing p) o d sys) (mkServing c Gone o d sys)
  | sv_joined c d sys :
      serving_thread (mkServing c Gone Joining d sys) (mkServing c Gone Joined d sys).

(** What a place of [Shutdown] says of a slot.  In a turn that has ended the slot is
    still in its receive when it will stop, and at the loop's test when it goes on. *)
Definition place (t : SlotState (Q := Q) (K := K)) : SlotPc :=
  match t with
  | Spawned _ _ => Unpolled
  | Idle _ _ | Busy (Ret (true, _, _)) => Testing
  | Busy (Ret (false, _, _)) | Busy (Do (CReceive _ _ _ _) _) => Receiving false
  | Waiting (CReceive _ _ _ _) _ => Receiving true
  | Busy (Do _ _) => Handling false
  | Waiting _ _ => Handling true
  | Over | Dropped => Ended
  end.

(** The slots, the kernel, and a handler's panic, which ends its task. *)
Inductive serving_slot : Serving -> Serving -> Prop :=
  | sv_slot c w o d sys sys' :
      slots_step size_of_request skip address handlers kernel_step sys sys' ->
      serving_slot (mkServing c w o d sys) (mkServing c w o d sys')
  | sv_panicked c w o d sys sys' i t :
      slots sys !! i = Some t -> place t = Handling false -> slot_drop i sys sys' ->
      serving_slot (mkServing c w o d sys) (mkServing c w o d sys').

(** The owner. *)
Inductive serving_owner : Serving -> Serving -> Prop :=
  | sv_owner_shutdown c w d sys :
      serving_owner (mkServing c w Owning d sys) (mkServing (bc_send c) w Owning d sys)
  | sv_owner_join c w d sys :
      serving_owner (mkServing c w Owning d sys) (mkServing c w Joining d sys)
  | sv_owner_drop c w d sys :
      serving_owner (mkServing c w Owning d sys) (mkServing (bc_send c) w Joining d sys).

Definition serving_step (s s' : Serving) : Prop :=
  serving_thread s s' \/ serving_slot s s' \/ serving_owner s s'.

(** The system of [Shutdown] that this one is. *)
Definition flag (s : Serving) : bool := stop_requested (fst (shared (s_sys s))).
Definition view (s : Serving) : Running C :=
  mkRunning (s_chan s) (s_worker s) (s_owner s) (flag s) (s_down s) (place <$> slots (s_sys s)).
End serving.

(** ** Seen from [Shutdown] *)

Section serving_facts.
Context `{ArrayQueue Q} `{VecAlloc} `{StopFlag K} `{BroadcastLaws C}.
Context (size_of_request : Z) (skip : bool) (address : Z).
Context (handlers : gmap Z (RequestBuffer -> Prog K Response)) (kernel_step : K -> K -> Prop).
Context (config : ServerConfig).

(** What handlers do outside leaves the flag alone, and so does the kernel. *)
Definition flag_call X (c : Call K X) : Prop :=
  handler_call X c /\
  match c in Call _ X return Prop with
  | COther f => forall k, stop_requested (snd (f k)) = stop_requested k
  | _ => True
  end.
Hypothesis handlers_ok : map_Forall (fun _ h => forall b, only flag_call (h b)) handlers.
Hypothesis kernel_flag : forall k k', kernel_step k k' -> stop_requested k' = stop_requested k.

Abbreviation step := (serving_step size_of_request skip address handlers kernel_step config).
Abbreviation init := (serving_init (Q := Q) config).
Implicit Types (s : Serving (Q := Q) (K := K) (C := C)).

(** The rest of a turn: in its handler or response, after which the slot goes on; or
    in a receive. *)
Fixpoint handling (p : Prog K (bool * BufferPool Q * ReceiveMode)) : Prop :=
  match p with
  | Ret (go, _, _) => go = true
  | Do c k =>
      match c with
      | CReceive _ _ _ _ | CStop => False
      | COther f => forall k', stop_requested (snd (f k')) = stop_requested k'
      | _ => True
      end /\ forall x, handling (k x)
  end.
Fixpoint turning (p : Prog K (bool * BufferPool Q * ReceiveMode)) : Prop :=
  match p with
  | Ret _ => True
  | Do (CReceive _ _ _ _) k => forall x, turning (k x)
  | _ => handling p
  end.

Lemma handling_turning p : handling p -> turning p.
Proof. destruct p as [a|X c k]; [done|]. intros Hp. by destruct c; [destruct Hp|..]. Qed.

Lemma handling_bind {A} (p : Prog K A) f :
  only flag_call p -> (forall a, handling (f a)) -> handling (pbind p f).
Proof.
  intros Hp Hf. induction p as [a|X c k IH]; [apply Hf|]. destruct Hp as [[Hc Hx] Hk].
  split; [by destruct c|]. intros x. by apply IH.
Qed.

Lemma turning_bind {A} (p : Prog K A) f :
  only receive_call p -> (forall a, turning (f a)) -> turning (pbind p f).
Proof.
  intros Hp Hf. induction p as [a|X c k IH]; [apply Hf|]. destruct Hp as [Hc Hk].
  destruct c; try done. intros x. by apply IH.
Qed.

Lemma turn_turning (buffers : BufferPool Q) mode : turning (turn_prog size_of_request address handlers buffers mode).
Proof.
  unfold turn_prog. destruct (buffer_take size_of_request buffers) as [b0 pool].
  apply turning_bind; [apply receive_only|]. intros [[r b] mode'].
  destruct r as [[]|[code|needed|]]; try done; apply handling_turning.
  - apply handling_bind.
    + destruct (handlers !! url_context b) as [h|] eqn:E; [apply (handlers_ok _ _ E)|done].
    + intros response. split; [done|]. by intros [[[res ?] ?] ?].
  - unfold reply_prog. destruct (negb _); [|done]. split; [done|]. by intros [[[res ?] ?] ?].
Qed.

Lemma turn_place (buffers : BufferPool Q) mode :
  place (Busy (turn_prog size_of_request address handlers buffers mode)) = Receiving false.
Proof.
  unfold turn_prog. destruct (buffer_take size_of_request buffers) as [b0 pool].
  unfold receive_prog. by destruct (copy_body mode).
Qed.

(** No call of a turn changes the flag. *)
Lemma exec_flag {X} (c : Call K X) k p :
  match c in Call _ X return Prop with
  | COther f => forall k, stop_requested (snd (f k)) = stop_requested k
  | _ => True
  end ->
  stop_requested (fst (snd (exec skip c (k, p)))) = stop_requested k.
Proof.
  destruct c as [id flags len target|id len|id v policy| |capacity|v|X f]; intros Hf; cbn [exec]; try done.
  - pose proof (receive_flag k id flags len target) as Hk.
    destruct (HttpReceiveHttpRequest _ _ _ _ _) as [[a out] k']. exact Hk.
  - pose proof (read_flag k id len) as Hk. destruct (HttpReceiveRequestEntityBody _ _ _) as [[a out] k'].
    exact Hk.
  - pose proof (send_flag k id v policy) as Hk. destruct (HttpSendHttpResponse _ _ _ _) as [a k']. exact Hk.
  - by destruct (body_take p capacity).
  - specialize (Hf k). by destruct (f k).
Qed.

(** Every slot in a turn is at a point that a turn comes to. *)
Definition turns_ok (sys : System (Q := Q) (K := K)) : Prop :=
  forall i t p, slots sys !! i = Some t -> rest_of_turn t = Some p -> turning p.

Lemma turns_ok_insert sh sh' sl tr tr' (i : nat) t :
  turns_ok (mkSystem sh sl tr) -> (forall p, rest_of_turn t = Some p -> turning p) ->
  turns_ok (mkSystem sh' (<[i := t]> sl) tr').
Proof.
  intros Hok Ht j t' p Hj. cbn [slots] in *.
  apply list_lookup_insert_Some in Hj as [(-> & <- & _)|[_ Hj]]; [by apply Ht|by apply (Hok j)].
Qed.

(** One slot of the view goes to another place, or stays. *)
Lemma view_moves (c : C) w o d sh sh' (sl : list (SlotState (Q := Q) (K := K))) tr tr' (i : nat) t t' :
  sl !! i = Some t -> stop_requested (fst sh') = stop_requested (fst sh) ->
  place t' = place t \/
    slot_step (mkRunning c w o (stop_requested (fst sh)) d (place <$> sl))
      (mkRunning c w o (stop_requested (fst sh)) d (<[i := place t']> (place <$> sl))) ->
  let v := view (mkServing c w o d (mkSystem sh sl tr)) in
  let v' := view (mkServing c w o d (mkSystem sh' (<[i := t']> sl) tr')) in
  v' = v \/ slot_step v v'.
Proof.
  intros Hi Hf Hm. cbn zeta. unfold view, flag. cbn [s_sys shared slots s_chan s_worker s_owner s_down].
  rewrite Hf, list_fmap_insert. destruct Hm as [Hp|Hm]; [left|by right].
  rewrite Hp, list_insert_id; [done|]. by rewrite list_lookup_fmap, Hi.
Qed.

(** The place of a slot after a call, and the step of [Shutdown] that takes it there. *)
Lemma call_place (c : C) w o st d (sl : list SlotPc) (i : nat) X (cl : Call K X) f x t :
  t = Busy (Do cl f) \/ t = Waiting cl f -> turning (Do cl f) -> sl !! i = Some (place t) ->
  place (Busy (f x)) = place t \/
  slot_step (mkRunning c w o st d sl) (mkRunning c w o st d (<[i := place (Busy (f x))]> sl)).
Proof.
  intros Ht Hturn Hi.
  destruct cl as [id flags len target|id len|id v policy| |capacity|v|Y g]; cbn in Hturn;
    (specialize (Hturn x) || (destruct Hturn as [Hc Hturn]; specialize (Hturn x)));
    try done; destruct Ht as [-> | ->]; cbn in Hi;
    destruct (f x) as [[[[] ?] ?]|Z [] ?]; cbn [handling turning place] in *; try done; try (exfalso; tauto);
    eauto using slot_received, slot_receive_failed, slot_replied, slot_woken, slot_resumed.
Qed.

Lemma slot_move_view (c : C) w o d i sys sys' :
  turns_ok sys -> slot_move size_of_request skip address handlers i sys sys' ->
  turns_ok sys' /\
  let v := view (mkServing c w o d sys) in
  let v' := view (mkServing c w o d sys') in v' = v \/ slot_step v v'.
Proof.
  intros Hok Hs.
  assert (Hpl : forall sl t, sl !! i = Some t -> (place (Q := Q) (K := K) <$> sl) !! i = Some (place t))
    by by intros sl t Ht; rewrite list_lookup_fmap, Ht.
  destruct Hs as [sh sl tr bufs mode Hi|[k p] sl tr bufs mode stop Hi Hseen
    |sh sl tr X cl f Hi Haw|[k p] sl tr X cl f x [k' p'] Hi He|sh sl tr go bufs mode Hi].
  - split; [by eapply turns_ok_insert|].
    apply (view_moves c w o d sh sh sl tr _ i _ _ Hi eq_refl). right. by apply slot_start, (Hpl _ _ Hi).
  - split.
    + eapply turns_ok_insert; [exact Hok|]. intros q Hq. destruct stop; [done|]. injection Hq as <-. apply turn_turning.
    + apply (view_moves c w o d (k, p) (k, p) sl tr _ i _ _ Hi eq_refl). right.
      replace (place _) with (if stop then Ended else Receiving false) by by destruct stop; [|symmetry; apply turn_place].
      by apply slot_test; [apply (Hpl _ _ Hi)|].
  - pose proof (Hok i _ _ Hi eq_refl) as Ht. split.
    + eapply turns_ok_insert; [exact Hok|]. intros q [= <-]. exact Ht.
    + apply (view_moves c w o d sh sh sl tr _ i _ _ Hi eq_refl). specialize (Hpl _ _ Hi). right.
      destruct cl; cbn [place] in *; try done; auto using slot_receives, slot_awaits.
  - assert (exists t, sl !! i = Some t /\ (t = Busy (Do cl f) \/ t = Waiting cl f) /\ turning (Do cl f))
      as (t & Ht & Hor & Hturn).
    { destruct Hi as [Hi|Hi]; eexists; (split; [exact Hi|]); (split; [by auto|]); by apply (Hok i _ _ Hi). }
    assert (Hf : stop_requested k' = stop_requested k).
    { pose proof (exec_flag cl k p) as Hf. rewrite He in Hf. apply Hf. destruct cl; try done. apply Hturn. }
    split.
    + eapply turns_ok_insert; [exact Hok|]. intros q [= <-].
      destruct cl; try exact (Hturn x); by apply handling_turning, Hturn.
    + apply (view_moves c w o d (k, p) (k', p') sl tr _ i t _ Ht Hf). cbn [fst].
      by eapply call_place; [exact Hor|exact Hturn|apply (Hpl _ _ Ht)].
  - split.
    + eapply turns_ok_insert; [exact Hok|]. intros q. by destruct go.
    + apply (view_moves c w o d sh sh sl tr _ i _ _ Hi eq_refl). specialize (Hpl _ _ Hi).
      destruct go; [by left|right]. by apply slot_receive_ended.
Qed.

Lemma slots_step_view (c : C) w o d sys sys' :
  turns_ok sys -> slots_step size_of_request skip address handlers kernel_step sys sys' ->
  turns_ok sys' /\
  let v := view (mkServing c w o d sys) in
  let v' := view (mkServing c w o d sys') in v' = v \/ slot_step v v'.
Proof.
  intros Hok Hs. destruct Hs as [k k' p sl tr Hk|i s s' Hs]; [|by eapply slot_move_view].
  split; [done|left]. unfold view, flag. cbn. by rewrite (kernel_flag _ _ Hk).
Qed.

Lemma live_place t : live t = true <-> place (Q := Q) (K := K) t <> Ended.
Proof. by destruct t as [? ?|? ?|[[[[] ?] ?]|X [] k]|X [] k| |]. Qed.

Lemma parked_place t : parked (place (Q := Q) (K := K) t) = suspended t.
Proof. by destruct t as [? ?|? ?|[[[[] ?] ?]|X [] k]|X [] k| |]. Qed.

Lemma suspended_live t : suspended (Q := Q) (K := K) t = true -> live t = true.
Proof. by destruct t. Qed.

Lemma all_ended_view sys :
  all_ended (Q := Q) (K := K) sys <-> Forall (fun t => t = Ended) (place <$> slots sys).
Proof.
  unfold all_ended. rewrite Forall_fmap. apply Forall_iff. intros t. unfold compose.
  pose proof (live_place t). destruct (live t), (place t); naive_solver.
Qed.

Lemma slot_drop_view (c : C) w o d sys sys' i :
  turns_ok sys -> slot_drop i sys sys' ->
  turns_ok sys' /\ exists t, slots sys !! i = Some t /\ place t <> Ended /\
    view (mkServing c w o d sys') =
    mkRunning c w o (flag (mkServing c w o d sys)) d (<[i := Ended]> (place <$> slots sys)).
Proof.
  intros Hok Hs. destruct Hs as [k p p' sl tr t Hi Ht _]. split; [by eapply turns_ok_insert|].
  exists t. split; [done|]. split; [by apply live_place|]. unfold view. cbn. by rewrite list_fmap_insert.
Qed.

Lemma serving_thread_view s s' :
  turns_ok (s_sys s) -> serving_thread config s s' ->
  turns_ok (s_sys s') /\ thread_step (port_size config) (view s) (view s').
Proof.
  intros Hok Hs. destruct Hs as [c n o d sh sl tr|c o d sys|c o d sys|c o d sys Hr|c o d k p sl tr
    |c o d k p sl tr ec k' Hk|c o d sys Ha|c o d sys|c o d sys Ha|c o d sys sys' i t Hi Hsus Hd
    |c o d sys p Hp|c o d sys p p' Hp|c o d sys p Hp|c d sys]; cbn [s_sys] in *.
  - split.
    + intros i t p Hi. cbn [slots] in Hi. apply lookup_app_Some in Hi as [Hi|[_ Hi]]; [by apply (Hok i)|].
      by apply list_lookup_singleton_Some in Hi as [_ <-].
    + unfold view, flag. cbn. rewrite fmap_app. apply serve_spawn.
  - split; [done|]. apply serve_spawned.
  - split; [done|]. apply serve_subscribe.
  - split; [done|]. by apply serve_recv.
  - split; [done|]. unfold view, flag. cbn. rewrite set_stop_requested. apply serve_stop.
  - split; [done|]. unfold view, flag. cbn.
    pose proof (shutdown_flag k) as Hf. rewrite Hk in Hf. cbn in Hf. rewrite Hf. apply serve_shutdown.
  - split; [done|]. by apply serve_drained, all_ended_view.
  - split; [done|]. apply serve_timeout.
  - split; [done|]. by apply serve_aborted, all_ended_view.
  - destruct (slot_drop_view c Aborting o d sys sys' i Hok Hd) as (Hok' & t' & Hi' & _ & ->).
    rewrite Hi in Hi'. injection Hi' as <-. split; [done|].
    apply (slot_abort _ _ _ _ _ _ i (place t)); [|by rewrite parked_place].
    rewrite list_lookup_fmap; cbn [s_sys]; by rewrite Hi.
  - split; [done|]. by apply serve_close.
  - split; [done|]. by apply serve_closing.
  - split; [done|]. by apply serve_closed.
  - split; [done|]. apply owner_joined.
Qed.

(** The server thread is as free as it is there. *)
Lemma serving_thread_enabled s r :
  thread_step (port_size config) (view s) r -> exists s', serving_thread config s s'.
Proof.
  destruct s as [c w o d [[k p] sl tr]]. unfold view. cbn. intros Hs.
  inversion Hs as [? n|?|?|? ? ? ? ? Hr|?|? ? ? ? ? ok|? ? ? ? ? Hf|?|? ? ? ? ? Hf|? ? ? ? ? i t Hi Ht
    |? ? ? ? ? q Hq|? ? ? ? ? q q' Hq|? ? ? ? ? q Hq|?]; subst.
  - eexists. apply sv_spawn.
  - eexists. apply sv_spawned.
  - eexists. apply sv_subscribe.
  - eexists. by apply sv_recv.
  - eexists. apply sv_stop.
  - destruct (HttpShutdownRequestQueue k) as [ec k'] eqn:E. eexists. by eapply sv_shutdown.
  - eexists. by apply sv_drained, all_ended_view.
  - eexists. apply sv_timeout.
  - eexists. by apply sv_aborted, all_ended_view.
  - rewrite list_lookup_fmap in Hi. destruct (sl !! i) as [t'|] eqn:E; [|done].
    injection Hi as <-. rewrite parked_place in Ht. eexists. eapply sv_abort; [exact E|done|].
    econstructor; [exact E|by apply suspended_live|by left].
  - eexists. by apply sv_close.
  - eexists. by apply sv_closing.
  - eexists. by apply sv_closed.
  - eexists. apply sv_joined.
Qed.

Lemma serving_step_view s s' :
  turns_ok (s_sys s) -> step s s' ->
  turns_ok (s_sys s') /\ (view s' = view s \/ serve_step (port_size config) (view s) (view s')).
Proof.
  intros Hok [Hs|[Hs|Hs]].
  - apply serving_thread_view in Hs as [Hok' Hs]; [|done]. split; [done|]. by right; left.
  - destruct Hs as [c w o d sys sys' Hs|c w o d sys sys' i t Hi Ht Hd]; cbn [s_sys] in *.
    + destruct (slots_step_view c w o d sys sys' Hok Hs) as [Hok' [Hv|Hv]]; split; auto. by right; right; left.
    + destruct (slot_drop_view c w o d sys sys' i Hok Hd) as (Hok' & t' & Hi' & _ & Hv).
      simplify_eq. split; [done|right; right; left]. rewrite Hv. apply slot_panicked.
      by rewrite list_lookup_fmap, Hi, <- Ht.
  - destruct Hs as [c w d sys|c w d sys|c w d sys]; (split; [done|]); right; right; right;
      [apply owner_shutdown|apply owner_join|apply owner_drop].
Qed.

Lemma serving_init_view s :
  init s -> turns_ok (s_sys s) /\ run_init (Z.to_nat (concurrency config)) (view s).
Proof.
  intros (k & Hk & ->). split; [by intros i p Hi|]. unfold run_init, view, flag. cbn. by rewrite Hk.
Qed.

Lemma reachable_view s :
  reachable init step s ->
  turns_ok (s_sys s) /\ reachable (run_init (Z.to_nat (concurrency config))) (serve_step (port_size config)) (view s).
Proof.
  apply (reachable_invariant init step (fun s =>
    turns_ok (s_sys s) /\ reachable (run_init (Z.to_nat (concurrency config))) (serve_step (port_size config)) (view s))).
  - intros a [Hok Hi]%serving_init_view. split; [done|]. by apply reachable_init.
  - intros a b [Hok Hr] Hs. destruct (serving_step_view a b Hok Hs) as [Hok' Hv]. split; [done|].
    destruct Hv as [->|Hv]; [done|]. by eapply reachable_step.
Qed.

(** C15. [Shutdown] is what a server does.  With the slots of [Slots] in it, call by call,
    any number of requests, handlers that do what they like outside and a kernel
    that answers as it likes, every step of the server is a step of [Shutdown]'s
    system between the two views, or none that it can see; a step of the server
    thread is always one of its thread's; and where its thread can go on, the
    server thread can. *)
Theorem serving_refines s :
  reachable init step s ->
  reachable (run_init (Z.to_nat (concurrency config))) (serve_step (port_size config)) (view s) /\
  (forall s', step s s' -> view s' = view s \/ serve_step (port_size config) (view s) (view s')) /\
  (forall s', serving_thread config s s' -> thread_step (port_size config) (view s) (view s')) /\
  (forall r, thread_step (port_size config) (view s) r -> exists s', serving_thread config s s').
Proof.
  intros [Hok Hr]%reachable_view. split; [done|]. split; [|split].
  - intros s' Hs. by apply serving_step_view.
  - intros s' Hs. by apply serving_thread_view.
  - apply serving_thread_enabled.
Qed.

(** ** Requests are answered, to the end *)

(** A slot that is not there has no events. *)
Lemma slot_events_none (tr : list (nat * Event K)) n i :
  Forall (fun e => fst e < n)%nat tr -> (n <= i)%nat -> slot_events i tr = [].
Proof.
  intros Htr Hi. unfold slot_events. induction Htr as [|e l He _ IH]; [done|]. cbn [List.filter].
  by rewrite (proj2 (Nat.eqb_neq (fst e) i)) by lia.
Qed.

Lemma inv_spawn (sys : System (Q := Q) (K := K)) buffers mode :
  slots_inv sys -> slots_inv (mkSystem (shared sys) (slots sys ++ [Spawned buffers mode]) (trace sys)).
Proof.
  intros [Htr Hsl]. split; cbn [slots trace].
  - eapply Forall_impl; [exact Htr|]. intros e He. cbn in *. rewrite length_app. lia.
  - intros i sl [Hi|[Hge Hi]]%lookup_app_Some; [by apply Hsl|].
    apply list_lookup_singleton_Some in Hi as [_ <-].
    replace (owed i (trace sys)) with Free; [by split|].
    unfold owed. by rewrite slot_events_none with (n := length (slots sys)).
Qed.

Lemma handlers_answer : map_Forall (fun _ h => forall b, only handler_call (h b)) handlers.
Proof. intros i h Hi b. eapply only_impl; [|apply (handlers_ok _ _ Hi)]. by intros X c []. Qed.

Lemma serving_step_inv s s' : slots_inv (s_sys s) -> step s s' -> slots_inv (s_sys s').
Proof.
  intros Hinv [Hs|[Hs|Hs]].
  - destruct Hs; cbn [s_sys] in *; try exact Hinv; [|by eapply slot_drop_inv].
    by apply (inv_spawn (mkSystem sh sl tr)).
  - destruct Hs; cbn [s_sys] in *; [|by eapply slot_drop_inv].
    by eapply slots_step_inv; [apply handlers_answer|..].
  - by destruct Hs.
Qed.

(** Nothing is left to do for the slots of a server whose thread has left [serve]. *)
Definition quiet (tr : list (nat * Event K)) s : Prop :=
  left_serve (s_worker s) /\ all_ended (s_sys s) /\ trace (s_sys s) = tr.

Lemma ended_lookup_live (sys : System (Q := Q) (K := K)) (i : nat) t :
  all_ended sys -> slots sys !! i = Some t -> live t = false.
Proof. intros Ha Hi. by eapply Forall_lookup_1 in Ha. Qed.

(** What is over stays over. *)
Lemma slot_move_ended i sys sys' :
  all_ended sys -> ~ slot_move size_of_request skip address handlers i sys sys'.
Proof.
  intros Ha Hs. destruct Hs as [sh sl tr bufs mode Hi|sh sl tr bufs mode stop Hi _
    |sh sl tr X cl f Hi _|sh sl tr X cl f x sh' [Hi|Hi] _|sh sl tr go bufs mode Hi];
    by pose proof (ended_lookup_live _ _ _ Ha Hi).
Qed.

Lemma slot_drop_ended (sys sys' : System (Q := Q) (K := K)) i : all_ended sys -> ~ slot_drop i sys sys'.
Proof.
  intros Ha Hs. destruct Hs as [k p p' sl tr t Hi Hl _]. pose proof (ended_lookup_live _ _ _ Ha Hi). congruence.
Qed.

Lemma quiet_step tr s s' : quiet tr s -> step s s' -> quiet tr s'.
Proof.
  intros (Hw & Ha & Ht) [Hs|[Hs|Hs]].
  - destruct Hs; cbn in Hw; try done; by split.
  - destruct Hs as [c w o d sys sys' Hs|c w o d sys sys' i t Hi _ Hd]; cbn [s_sys s_worker] in *.
    + destruct Hs as [k k' p sl tr'|i sys sys' Hs]; [done|]. by destruct (slot_move_ended _ _ _ Ha Hs).
    + by destruct (slot_drop_ended _ _ _ Ha Hd).
  - by destruct Hs.
Qed.

Lemma view_run_ok s : reachable init step s -> run_ok (port_size config) (view s).
Proof. intros [_ Hr]%reachable_view. by eapply reachable_run_ok. Qed.

Lemma left_ended s : reachable init step s -> left_serve (s_worker s) -> all_ended (s_sys s).
Proof. intros Hr Hw. by apply all_ended_view, (rok_ended _ _ (view_run_ok s Hr)). Qed.

(** C13. From [run] to after the join, however slots, kernel, handlers, timeout and
    owner interleave: no slot sends what it does not owe or receives while it owes.
    A slot that is not polled yet, is between two turns or is over owes nothing,
    and it has sent a response under the id of every request that it received
    with its body, as often as it received it; only of a request received without
    its body the slot may have lost the id, and what it then sends goes to 0.  No
    request is sent more responses than the kernel handed it out.  When the server
    thread has left [serve], before it closes the queue, every slot has ended, so
    that no call is ever made on the closed queue; and the owner's join has not
    returned before that thread has dropped its handles and is gone. *)
Theorem serving_answers s :
  reachable init step s ->
  answers_once (s_sys s) /\
  (s_owner s = Joined -> s_worker s = Gone) /\
  (left_serve (s_worker s) -> all_ended (s_sys s) /\
     forall s', rtc step s s' -> trace (s_sys s') = trace (s_sys s)).
Proof.
  intros Hr. split; [|split].
  - apply (inv_answers_once (s_sys s)). revert s Hr. apply reachable_invariant; [|apply serving_step_inv].
    intros s (k & _ & ->). by split; [constructor|intros i sl Hi].
  - apply (rok_joined _ _ (view_run_ok s Hr)).
  - intros Hw. assert (Ha : all_ended (s_sys s)) by by apply left_ended.
    split; [done|]. intros s' Hs'.
    by apply (rtc_invariant step (quiet (trace (s_sys s))) s s' (quiet_step _) Hs').
Qed.

(** ** What the slots do once the flag is seen *)

(** The rest of a turn after its first call. *)
Definition after_first {A} (p p' : Prog K A) : Prop :=
  match p with Do _ k => exists x, p' = k x | Ret _ => False end.

(** A slot's next moves when it sees the flag set: what is left of its turn. *)
Inductive slot_next : SlotState (Q := Q) (K := K) -> SlotState (Q := Q) (K := K) -> Prop :=
  | next_start buffers mode : slot_next (Idle buffers mode) (Spawned buffers mode)
  | next_over buffers mode : slot_next Over (Idle buffers mode)
  | next_park X (c : Call K X) k : slot_next (Waiting c k) (Busy (Do c k))
  | next_call t p p' : rest_of_turn t = Some p -> after_first p p' -> slot_next (Busy p') t
  | next_turn (go : bool) buffers mode :
      slot_next (if go then Idle buffers mode else Over) (Busy (Ret (go, buffers, mode)))
  | next_dropped t : live t = true -> slot_next Dropped t.

Lemma slot_next_ended t t' : live t = false -> ~ slot_next t' t.
Proof. intros Hl Hn. destruct Hn as [| | |t ? ? Ht| |]; try done; [by destruct t|congruence]. Qed.

Lemma slot_next_turn t t' p :
  slot_next t' t -> rest_of_turn t = Some p ->
  live t' = false \/ (exists p', after_first p p' /\ t' = Busy p') \/
  (t = Busy p /\ rest_of_turn t' = Some p /\ t' <> Busy p) \/ exists buffers mode, t' = Idle buffers mode.
Proof.
  intros Hn Hp. destruct Hn as [? ?|? ?|X c k|t q q' Hq Ha|go buffers mode|t Hl]; cbn in Hp; try discriminate Hp.
  - injection Hp as <-. right; right; left. by split_and!.
  - rewrite Hq in Hp. injection Hp as ->. right; left. by exists q'.
  - destruct go; [right; right; right; eauto|by left].
  - by left.
Qed.

(** However a slot goes on, it ends. *)
Lemma slot_next_acc t : Acc slot_next t.
Proof.
  assert (Hend : forall t, live t = false -> Acc slot_next t).
  { intros u Hl. constructor. intros u' Hn. by apply slot_next_ended in Hn. }
  assert (Hidle : forall buffers mode, Acc slot_next (Idle buffers mode)).
  { intros buffers mode. constructor. intros t' Hn. inversion Hn; subst; [by apply Hend|discriminate|by apply Hend]. }
  assert (Hcases : forall p, (forall p', after_first p p' -> Acc slot_next (Busy p')) ->
    forall u, rest_of_turn u = Some p -> Acc slot_next u).
  { intros p Hbusy. assert (Hwait : forall v, rest_of_turn v = Some p -> v <> Busy p -> Acc slot_next v).
    { intros v Hv Hb. constructor. intros v' Hn.
      destruct (slot_next_turn _ _ _ Hn Hv) as [|[(p' & Ha & ->)|[(-> & _)|(bufs & mode & ->)]]]; auto; done. }
    intros u Hu. constructor. intros u' Hn.
    destruct (slot_next_turn _ _ _ Hn Hu) as [|[(p' & Ha & ->)|[(_ & Hr & Hb)|(bufs & mode & ->)]]]; auto. }
  assert (Hturn : forall p u, rest_of_turn u = Some p -> Acc slot_next u).
  { intros p. induction p as [a|X c k IH]; apply Hcases; [by intros p' []|]. intros p' [x ->]. by eapply IH. }
  destruct t as [bufs mode|bufs mode|p|X c k| |]; [|apply Hidle|by eapply Hturn|by eapply Hturn|by apply Hend..].
  constructor. intros t' Hn. inversion Hn; subst; [apply Hidle|discriminate|by apply Hend].
Qed.

(** A test of a slot that misses that the flag is set; and an execution in which none
    does from some moment on.  A relaxed store is seen after a finite time. *)
Definition stale_check s s' : Prop :=
  flag s = true /\ exists i, trace (s_sys s') = trace (s_sys s) ++ [(i, event CStop false)].
Definition seen_from (m : nat) (e : nat -> Serving (Q := Q) (K := K) (C := C)) : Prop :=
  forall j, (m <= j)%nat -> ~ stale_check (e j) (e (1 + j)%nat).

Lemma slot_move_less i (sys sys' : System (Q := Q) (K := K)) :
  slot_move size_of_request skip address handlers i sys sys' ->
  (stop_requested (fst (shared sys)) = true -> trace sys' <> trace sys ++ [(i, event CStop false)]) ->
  stop_requested (fst (shared sys)) = true -> one_less slot_next (slots sys') (slots sys).
Proof.
  intros Hs Hseen Hst. destruct Hs as [sh sl tr bufs mode Hi|sh sl tr bufs mode stop Hi _
    |sh sl tr X cl f Hi _|sh sl tr X cl f x sh' Hi _|sh sl tr go bufs mode Hi]; cbn [slots shared trace] in *.
  - eexists i, _, _. split; [exact Hi|]. split; [apply next_start|done].
  - destruct stop; [|by specialize (Hseen Hst)].
    eexists i, _, _. split; [exact Hi|]. split; [apply next_over|done].
  - eexists i, _, _. split; [exact Hi|]. split; [apply next_park|done].
  - assert (exists t, sl !! i = Some t /\ rest_of_turn t = Some (Do cl f)) as (t & Ht & Hor)
      by (destruct Hi as [Hi|Hi]; eauto).
    exists i, t, (Busy (f x)). split; [exact Ht|]. split; [|done]. eapply next_call; [exact Hor|]. by exists x.
  - eexists i, _, _. split; [exact Hi|]. split; [apply next_turn|done].
Qed.

Lemma slot_drop_less sys sys' i : slot_drop (Q := Q) i sys sys' -> one_less slot_next (slots sys') (slots sys).
Proof.
  intros Hs. destruct Hs as [k p p' sl tr t Hi Hl _]. eexists i, _, _. split; [exact Hi|]. by split; [apply next_dropped|].
Qed.

Definition not_spawning (w : WorkerPc) : Prop := match w with Spawning _ => False | _ => True end.

Lemma serving_step_less s s' :
  flag s = true -> not_spawning (s_worker s) -> ~ stale_check s s' -> step s s' ->
  slots (s_sys s') = slots (s_sys s) \/ one_less slot_next (slots (s_sys s')) (slots (s_sys s)).
Proof.
  intros Hf Hw Hstale [Hs|[Hs|Hs]].
  - destruct Hs; cbn in *; try done; try by left. right. by eapply slot_drop_less.
  - destruct Hs as [c w o d sys sys' Hs|c w o d sys sys' i t _ _ Hd]; cbn [s_sys] in *.
    + destruct Hs as [k k' p sl tr Hk|i sys sys' Hs]; [by left|right].
      eapply slot_move_less; [exact Hs| |exact Hf]. intros _ Ht. apply Hstale. split; [done|]. by exists i.
    + right. by eapply slot_drop_less.
  - left. by destruct Hs.
Qed.

(** The flag stays up. *)
Lemma flag_stays e i : execution step e -> reachable init step (e 0%nat) -> flag (e i) = true ->
  forall j, (i <= j)%nat -> flag (e j) = true /\ not_spawning (s_worker (e j)).
Proof.
  intros He Hi Hflag.
  assert (Hre : forall j, reachable init step (e j)).
  { intros j. by apply execution_reachable. }
  assert (Hw : forall j, flag (e j) = true -> not_spawning (s_worker (e j))).
  { intros j Hj. pose proof (proj1 (rok_stop _ _ (view_run_ok _ (Hre j))) Hj) as Hw. cbn in Hw. by destruct (s_worker (e j)). }
  induction 1 as [|j Hj [IH _]]; [by split; [|apply Hw]|].
  assert (Hn : flag (e (S j)) = true); [|by split; [|apply Hw]].
  destruct (He j) as [Heq|Hs]; cbn in *; [by rewrite Heq|].
  apply serving_step_view in Hs as [_ [Hv|Hv]]; [| |apply reachable_view, Hre].
  - change (stop (view (e (S j))) = true). by rewrite Hv.
  - exact (stop_step _ (view (e j)) _ IH Hv).
Qed.

(** Later states of a slot, by what is left of its turn alone. *)
Definition winds_down : SlotState (Q := Q) (K := K) -> SlotState (Q := Q) (K := K) -> Prop :=
  rtc (fun t t' => slot_next t' t).

Lemma one_less_winds (l l' l0 : list (SlotState (Q := Q) (K := K))) :
  Forall2 winds_down l0 l -> l' = l \/ one_less slot_next l' l -> Forall2 winds_down l0 l'.
Proof.
  intros Hl [->|(i & x & x' & Hi & Hn & ->)]; [done|].
  destruct (Forall2_lookup_r _ _ _ _ _ Hl Hi) as (x0 & Hi0 & Hx).
  rewrite <- (list_insert_id l0 i x0) by done. apply Forall2_insert; [done|]. by eapply rtc_r.
Qed.

Lemma slots_wind_down e i m :
  execution step e -> reachable init step (e 0%nat) -> flag (e i) = true -> (i <= m)%nat -> seen_from m e ->
  forall j, (m <= j)%nat ->
    (slots (s_sys (e (1 + j)%nat)) = slots (s_sys (e j)) \/
     one_less slot_next (slots (s_sys (e (1 + j)%nat))) (slots (s_sys (e j)))) /\
    Forall2 winds_down (slots (s_sys (e m))) (slots (s_sys (e j))).
Proof.
  intros He Hi Hflag Him Hseen.
  assert (Hone : forall j, (m <= j)%nat -> slots (s_sys (e (1 + j)%nat)) = slots (s_sys (e j)) \/
     one_less slot_next (slots (s_sys (e (1 + j)%nat))) (slots (s_sys (e j)))).
  { intros j Hj. destruct (He j) as [->|Hs]; [by left|].
    destruct (flag_stays e i He Hi Hflag j ltac:(lia)) as [Hf Hw].
    apply serving_step_less; [done|done|by apply Hseen|done]. }
  intros j Hj. split; [by apply Hone|]. induction Hj as [|j Hj IH].
  - apply Forall_Forall2_diag, Forall_true. intros t. apply rtc_refl.
  - eapply one_less_winds; [exact IH|]. by apply Hone.
Qed.

(** A move of a slot, not of the kernel. *)
Definition own_move s s' : Prop :=
  exists i, slot_move size_of_request skip address handlers i (s_sys s) (s_sys s').

(** A slot that has not ended can go on. *)
Lemma slot_move_live sys i t :
  slots sys !! i = Some t -> live t = true ->
  exists sys', slot_move size_of_request skip address handlers i sys sys'.
Proof.
  destruct sys as [sh sl tr]. cbn [slots]. intros Hi Ht.
  destruct t as [bufs mode|bufs mode|[[[go bufs] mode]|X cl f]|X cl f| |]; try done.
  - eexists. by apply step_start.
  - eexists. by apply (step_check _ _ _ _ _ sh sl tr bufs mode false).
  - eexists. by eapply step_turn.
  - destruct (exec skip cl sh) as [x sh'] eqn:E. eexists. by eapply step_call; [left|].
  - destruct (exec skip cl sh) as [x sh'] eqn:E. eexists. by eapply step_call; [right|].
Qed.

(** Not everything has ended: some slot is live. *)
Lemma not_ended_live (sys : System (Q := Q) (K := K)) :
  all_ended sys \/ exists i t, slots sys !! i = Some t /\ live t = true.
Proof.
  unfold all_ended. destruct (decide (Forall (fun t => live t = false) (slots sys))) as [Hf|Hf]; [by left|right].
  apply not_Forall_Exists in Hf; [|apply _]. apply Exists_exists in Hf as (t & Hin & Ht).
  apply list_elem_of_lookup in Hin as (i & Hi). exists i, t. split; [done|]. by apply not_false_is_true.
Qed.

Lemma own_move_live s : all_ended (s_sys s) \/ exists s', own_move s s'.
Proof.
  destruct (not_ended_live (s_sys s)) as [|(i & t & Hi & Ht)]; [by left|right].
  destruct (slot_move_live _ _ _ Hi Ht) as (sys' & Hs). destruct s as [c w o d sys].
  exists (mkServing c w o d sys'). by exists i.
Qed.

(** C16. The slots drain.  Take an execution in which the slots' calls are answered and
    the slots are not stopped for ever between them, and a moment [m] at or after
    the one the stop flag was set from which no slot misses it: the flag is
    relaxed, and its store is seen after a finite time.  From [m] on each slot does
    nothing but wind down: what is left of its turn, call by call, and then its
    end; none begins another turn and no slot is added.  And after finitely many
    steps all have ended for good, whether or not the timeout strikes and however
    many requests still arrive. *)
Theorem serving_drains e i m :
  execution step e -> init (e 0%nat) -> weakly_fair own_move e ->
  flag (e i) = true -> (i <= m)%nat -> seen_from m e ->
  (forall j, (m <= j)%nat -> Forall2 winds_down (slots (s_sys (e m))) (slots (s_sys (e j)))) /\
  exists k, (m <= k)%nat /\ forall j, (k <= j)%nat -> all_ended (s_sys (e j)).
Proof.
  intros He Hi Hf Hflag Him Hseen. apply (reachable_init _ step) in Hi.
  pose proof (slots_wind_down e i m He Hi Hflag Him Hseen) as Hw.
  split; [intros j Hj; by apply Hw|].
  assert (Hk : exists k, (m <= k)%nat /\ all_ended (s_sys (e k))).
  { apply (fair_leads own_move (one_less slot_next) (fun s => slots (s_sys s)) (fun _ => True)
      (fun s => all_ended (s_sys s)) e m Hf); [|done|..].
    - apply Acc_one_less, Forall_true. apply slot_next_acc.
    - intros j Hj _. right. split; [done|]. by apply Hw.
    - intros j Hj _. apply own_move_live.
    - intros j Hj _ [x Hs]. right. destruct (flag_stays e i He Hi Hflag j ltac:(lia)) as [Hst _].
      apply (slot_move_less x _ _ Hs); [|exact Hst]. intros _ Ht. destruct (Hseen j Hj). split; [done|by exists x]. }
  destruct Hk as (k & Hk & Hend). exists k. split; [done|]. induction 1 as [|j Hj IH]; [done|].
  destruct (Hw j ltac:(lia)) as [Hone _]. unfold all_ended in *. cbn in Hone. destruct Hone as [->|(x & t & t' & Hx & Hn & _)]; [done|].
  apply slot_next_ended in Hn; [done|]. by eapply Forall_lookup_1 in IH.
Qed.

(** ** The join *)

(** A shutdown that was heard. *)
Definition heard s : Prop :=
  ~ before_subscribe (s_worker s) /\ (s_worker s = AwaitingShutdown -> bc_ready (s_chan s) = true).

(** A move of a slot whose task is not suspended: it waits for nobody. *)
Definition slot_runs s s' : Prop :=
  exists i t, slots (s_sys s) !! i = Some t /\ live t = true /\ suspended t = false /\
    slot_move size_of_request skip address handlers i (s_sys s) (s_sys s').

(** The drop of a port that does not return: a join of a thread that is blocked, of two
    or more, or after a sentinel that could not be posted. *)
Definition drop_hung (p : Port) : Prop :=
  join_blocked p /\ exists k a, dropper p = Iocp.Joining k a /\ ((2 <= port_size config)%nat \/ (a < port_size config)%nat).

(** Only the server thread moves itself. *)
Lemma step_worker s s' : step s s' -> serving_thread config s s' \/ s_worker s' = s_worker s.
Proof. intros [Hs|[Hs|Hs]]; [by left|right; by destruct Hs..]. Qed.

Lemma heard_step s s' : reachable init step s -> heard s -> step s s' -> heard s'.
Proof.
  intros Hre [Hw Hr] Hs. pose proof (rok_subscribed _ _ (view_run_ok s Hre)) as Hsub.
  destruct Hs as [Hs|[Hs|Hs]]; destruct Hs; cbn in *; split; cbn; try done; try tauto.
  all: intros _; apply bc_send_ready; destruct (bc_subscribed c); tauto.
Qed.

(** What a fair execution of the server comes to from a shutdown that was heard. *)
Section joining.
Context (e : nat -> Serving (Q := Q) (K := K) (C := C)) (m : nat).
Hypothesis He : execution step e.
Hypothesis e_reach : reachable init step (e 0%nat).
Hypothesis thread_fair : weakly_fair (serving_thread config) e.
Hypothesis slots_fair : weakly_fair slot_runs e.
Hypothesis Hseen : seen_from m e.

Lemma joining_reachable j : reachable init step (e j).
Proof. by apply execution_reachable. Qed.

(** To the drain and out of it. *)
Definition stage (w : WorkerPc) : nat :=
  match w with AwaitingShutdown => 4 | SettingStop => 3 | ShuttingQueue => 2 | Draining => 1 | _ => 0 end.

Lemma thread_stage s s' :
  heard s -> serving_thread config s s' ->
  s_worker s' = Aborting \/ left_serve (s_worker s') \/ (stage (s_worker s') < stage (s_worker s))%nat.
Proof. intros [Hw _] Hs. destruct Hs; cbn in *; auto; tauto || lia. Qed.

Lemma drain_ends i :
  heard (e i) -> exists k, (i <= k)%nat /\ (s_worker (e k) = Aborting \/ left_serve (s_worker (e k))).
Proof.
  intros Hi. apply (fair_leads (serving_thread config) lt (fun s => stage (s_worker s)) heard
    (fun s => s_worker s = Aborting \/ left_serve (s_worker s)) e i thread_fair); [apply lt_wf|done|..].
  - intros j _ Hj. destruct (He j) as [->|Hs]; [auto|]. pose proof (heard_step _ _ (joining_reachable j) Hj Hs).
    destruct (step_worker _ _ Hs) as [Ht|Hw]; [|rewrite Hw; auto].
    destruct (thread_stage _ _ Hj Ht) as [?|[?|?]]; auto.
  - intros j _ [Hw Hr]. destruct (e j) as [c w o d [[k p] sl tr]]. cbn in *. destruct w; try tauto; try (by left; auto); try (by left; right); right.
    + eexists. by apply sv_recv, Hr.
    + eexists. apply sv_stop.
    + destruct (HttpShutdownRequestQueue k) as [ec k'] eqn:E. eexists. by apply sv_shutdown.
    + eexists. apply sv_timeout.
  - intros j _ Hj Hs. destruct (thread_stage _ _ Hj Hs) as [?|[?|?]]; auto.
Qed.

(** Once the slots see the flag, the abort ends them: one that is not suspended runs
    on, to its end or to where it is. *)
(** The slots a thread in [Aborting] waits for, and what it waits for of them. *)
Definition aborting (sl : list SlotState) (s : Serving (Q := Q) (K := K) (C := C)) : Prop :=
  s_worker s = Aborting /\ slots (s_sys s) = sl.
Definition one_fewer (sl : list SlotState) (s : Serving (Q := Q) (K := K) (C := C)) : Prop :=
  left_serve (s_worker s) \/ s_worker s = Aborting /\ one_less slot_next (slots (s_sys s)) sl.

Lemma abort_thread sl s s' : serving_thread config s s' -> aborting sl s -> one_fewer sl s'.
Proof.
  intros Hs [Hw Hsl]. destruct Hs; cbn in *; try done; [by left|right]. split; [done|]. subst sl.
  by eapply slot_drop_less.
Qed.

Lemma abort_keep i sl j :
  (m <= i)%nat -> (i <= j)%nat -> flag (e i) = true -> aborting sl (e j) ->
  one_fewer sl (e (1 + j)%nat) \/ aborting sl (e (1 + j)%nat).
Proof.
  intros Hm Hj Hflag [Hwj Hsj].
  destruct (slots_wind_down e i i He e_reach Hflag (le_n i) (fun j Hj => Hseen j ltac:(lia)) j Hj) as [Hone _].
  rewrite Hsj in Hone. unfold one_fewer, aborting. destruct (He j) as [Heq|Hs]; [right; by rewrite Heq|].
  destruct (step_worker _ _ Hs) as [Ht|Hw'].
  - revert Ht Hone Hwj. generalize (e (1 + j)%nat), (e j). intros s' s Ht Hone Hwj.
    destruct Ht; cbn in *; try done; [by left; left|]. destruct Hone as [Hone|Hone]; auto.
  - rewrite Hw', Hwj. destruct Hone; auto.
Qed.

Lemma abort_moves i sl :
  (m <= i)%nat -> s_worker (e i) = Aborting -> slots (s_sys (e i)) = sl ->
  exists k, (i <= k)%nat /\ one_fewer sl (e k).
Proof.
  intros Hm Hw Hsl.
  assert (Hflag : flag (e i) = true) by by apply (rok_stop _ _ (view_run_ok _ (joining_reachable i))); cbn; rewrite Hw.
  assert (Hkeep := fun j Hj => abort_keep i sl j Hm Hj Hflag). assert (HP : aborting sl (e i)) by done.
  assert (Hthread := fun j (_ : (i <= j)%nat) HP Hs => abort_thread sl (e j) (e (1 + j)%nat) Hs HP).
  destruct (decide (Exists (fun t => suspended t = true) sl)) as [Hsus|Hsus].
  { apply Exists_exists in Hsus as (t & Hin & Ht). apply list_elem_of_lookup in Hin as [x Hx].
    apply (fair_ensures (serving_thread config) (aborting sl) (one_fewer sl) e i thread_fair HP Hkeep); [|done].
    intros j _ [Hwj Hsj]. destruct (e j) as [c w o d [[k p] sl' tr]]. cbn in *. subst. eexists.
    eapply sv_abort; [exact Hx|done|]. econstructor; [exact Hx|by apply suspended_live|by left]. }
  destruct (not_ended_live (s_sys (e i))) as [Hend|(x & t & Hx & Ht)].
  - unfold all_ended in Hend. rewrite Hsl in Hend.
    apply (fair_ensures (serving_thread config) (aborting sl) (one_fewer sl) e i thread_fair HP Hkeep); [|done].
    intros j _ [Hwj Hsj]. destruct (e j) as [c w o d sys]. cbn in *. subst. eexists. apply sv_aborted.
    unfold all_ended. by rewrite Hsj.
  - rewrite Hsl in Hx. assert (Hrun : suspended t = false).
    { destruct (suspended t) eqn:E; [|done]. destruct Hsus. apply Exists_exists. exists t. split; [|done].
      by eapply list_elem_of_lookup_2. }
    apply (fair_ensures slot_runs (aborting sl) (one_fewer sl) e i slots_fair HP Hkeep).
    + intros j _ [Hwj Hsj]. rewrite <- Hsj in Hx. destruct (slot_move_live _ _ _ Hx Ht) as (sys' & Hs).
      destruct (e j) as [c w o d sys]. exists (mkServing c w o d sys'). by exists x, t.
    + intros j Hj [Hwj Hsj] (y & u & _ & _ & _ & Hs). unfold one_fewer. rewrite <- Hsj.
      assert (Hless : one_less slot_next (slots (s_sys (e (1 + j)%nat))) (slots (s_sys (e j)))).
      2: { destruct (Hkeep j Hj (conj Hwj Hsj)) as [[Hl|[Hwj' _]]|[Hwj' _]]; auto. }
      apply (slot_move_less y _ _ Hs).
      * intros Hst Htr. destruct (Hseen j ltac:(lia)). split; [done|by exists y].
      * by destruct (flag_stays e i He e_reach Hflag j Hj).
Qed.

Lemma abort_ends i : s_worker (e i) = Aborting -> exists k, (i <= k)%nat /\ left_serve (s_worker (e k)).
Proof.
  intros Hw.
  assert (Hfrom : forall j sl, (m <= j)%nat -> s_worker (e j) = Aborting -> slots (s_sys (e j)) = sl ->
    exists k, (j <= k)%nat /\ left_serve (s_worker (e k))).
  { intros j sl. assert (Hacc : Acc (one_less slot_next) sl) by (apply Acc_one_less, Forall_true, slot_next_acc).
    revert j. induction Hacc as [sl _ IH]. intros j Hj Hwj Hsl.
    destruct (abort_moves j sl Hj Hwj Hsl) as (k & Hk & [Hl|[Hwk Hone]]); [by exists k|].
    destruct (IH _ Hone k ltac:(lia) Hwk eq_refl) as (k' & Hk' & Hl). exists k'. split; [lia|done]. }
  assert (Hlater : forall j, (i <= j)%nat ->
    (exists k, (i <= k)%nat /\ left_serve (s_worker (e k))) \/ s_worker (e j) = Aborting).
  { induction 1 as [|j Hj [IH|IH]]; [by right|by left|]. destruct (He j) as [Heq|Hs]; [right; by rewrite <- IH, <- Heq|].
    destruct (step_worker _ _ Hs) as [Ht|Hw']; [|right; by rewrite <- IH, <- Hw'].
    assert (Hor : left_serve (s_worker (e (1 + j)%nat)) \/ s_worker (e (1 + j)%nat) = Aborting).
    { revert Ht IH. generalize (e (1 + j)%nat), (e j). intros s' s Ht IH. by destruct Ht; cbn in *; auto. }
    destruct Hor as [Hl|]; [left|by right]. exists (1 + j)%nat. split; [lia|done]. }
  destruct (Hlater (Nat.max i m) ltac:(lia)) as [|Hmax]; [done|].
  destruct (Hfrom (Nat.max i m) _ ltac:(lia) Hmax eq_refl) as (k & Hk & Hl). exists k. split; [lia|done].
Qed.

(** The drop of the handles ends, or hangs in the join of the port. *)
Definition closed_or_hung s : Prop :=
  s_worker s = Gone \/ exists p, s_worker s = Closing p /\ join_blocked p.

Lemma closing_ends i p :
  s_worker (e i) = Closing p -> exists k, (i <= k)%nat /\ closed_or_hung (e k).
Proof.
  intros Hp. apply (fair_leads (serving_thread config) lt
    (fun s => match s_worker s with Closing p => port_weight p | _ => 0%nat end)
    (fun s => exists p, s_worker s = Closing p) closed_or_hung e i thread_fair); [apply lt_wf|eauto|..].
  - intros j _ [q Hq]. destruct (He j) as [->|Hs]; [eauto|].
    destruct (step_worker _ _ Hs) as [Ht|Hw]; [|rewrite Hw; eauto].
    revert Ht Hq. generalize (e (1 + j)%nat), (e j). intros s' s Ht Hq.
    destruct Ht as [| | | | | | | | | | |c o d sys p1 p2 Hps|c o d sys p1 Hps|]; cbn in *; simplify_eq; [right|by left; left].
    split; [eauto|right]. by apply port_step_weight.
  - intros j _ [q Hq]. destruct (rok_port _ _ (view_run_ok _ (joining_reachable j)) q Hq) as (pending & Hreal & Hre).
    destruct (port_progress _ _ _ (reachable_port_ok _ _ _ Hreal Hre)) as [Hc|[[q' Hs]|Hb]]; [right|right|left; right; eauto].
    + destruct (e j) as [c w o d sys]. cbn in Hq. subst. eexists. by apply sv_closed.
    + destruct (e j) as [c w o d sys]. cbn in Hq. subst. eexists. by apply sv_closing.
  - intros j _ [q Hq] Ht. revert Ht Hq. generalize (e (1 + j)%nat), (e j). intros s' s Ht Hq.
    destruct Ht as [| | | | | | | | | | |c o d sys p1 p2 Hps|c o d sys p1 Hps|]; cbn in *; simplify_eq; [right|by left; left].
    by apply port_step_weight.
Qed.

Lemma drop_starts i :
  left_serve (s_worker (e i)) -> exists k, (i <= k)%nat /\ closed_or_hung (e k).
Proof.
  intros Hl. destruct (s_worker (e i)) eqn:Hw; try done; [|by eapply closing_ends|exists i; by split; [|left]].
  destruct (fair_ensures (serving_thread config) (fun s => s_worker s = Exited)
    (fun s => exists p, s_worker s = Closing p) e i thread_fair Hw) as (k & Hk & p & Hp).
  - intros j _ Hj. destruct (He j) as [->|Hs]; [by right|].
    destruct (step_worker _ _ Hs) as [Ht|Hw']; [|right; by rewrite Hw'].
    revert Ht Hj. generalize (e (1 + j)%nat), (e j). intros s' s Ht Hj. left. destruct Ht; cbn in *; by eauto.
  - intros j _ Hj. destruct (e j) as [c w o d sys]. cbn in Hj. subst. eexists.
    apply (sv_close config c o d sys (mkPort [] [] (replicate (port_size config) Dequeuing) NotDropped [])).
    split; [done|]. exists []. split; [by apply Forall_nil|]. by apply reachable_init.
  - intros j _ Hj Ht. revert Ht Hj. generalize (e (1 + j)%nat), (e j). intros s' s Ht Hj. destruct Ht; cbn in *; by eauto.
  - destruct (closing_ends k p Hp) as (k' & Hk' & Hc). exists k'. split; [lia|done].
Qed.

(** The owner stays in its join until the thread is gone. *)
Lemma owner_waits i j :
  s_owner (e i) = Joining -> (i <= j)%nat -> s_owner (e j) = Joining \/ s_owner (e j) = Joined.
Proof.
  intros Ho. induction 1 as [|j Hj IH]; [by left|]. destruct (He j) as [Heq|Hs]; [by rewrite <- Heq in IH|].
  revert Hs IH. change (S j) with (1 + j)%nat. generalize (e (1 + j)%nat), (e j). intros s' s Hs IH.
  destruct Hs as [Hs|[Hs|Hs]]; destruct Hs; cbn in *; auto; by destruct IH.
Qed.

Lemma gone_joins i :
  s_worker (e i) = Gone -> s_owner (e i) = Joining -> exists k, (i <= k)%nat /\ s_owner (e k) = Joined.
Proof.
  intros Hw Ho. apply (fair_ensures (serving_thread config) (fun s => s_worker s = Gone /\ s_owner s = Joining)
    (fun s => s_owner s = Joined) e i thread_fair); [done|..].
  - intros j _ [Hwj Hoj]. destruct (He j) as [->|Hs]; [by right|]. revert Hs Hwj Hoj.
    generalize (e (1 + j)%nat), (e j). intros s' s Hs Hwj Hoj.
    destruct Hs as [Hs|[Hs|Hs]]; destruct Hs; cbn in *; by auto.
  - intros j _ [Hwj Hoj]. destruct (e j) as [c w o d sys]. cbn in *. subst. eexists. apply sv_joined.
  - intros j _ [Hwj Hoj] Ht. revert Ht Hwj Hoj. generalize (e (1 + j)%nat), (e j). intros s' s Ht Hwj Hoj.
    by destruct Ht; cbn in *.
Qed.

Lemma hung_stays i p : s_worker (e i) = Closing p -> join_blocked p -> forall j, (i <= j)%nat -> s_worker (e j) = Closing p.
Proof.
  intros Hw Hb. induction 1 as [|j Hj IH]; [done|]. destruct (He j) as [Heq|Hs]; [by rewrite <- IH, <- Heq|].
  destruct (step_worker _ _ Hs) as [Ht|Hw']; [|by rewrite <- IH, <- Hw'].
  revert Ht IH. change (S j) with (1 + j)%nat. generalize (e (1 + j)%nat), (e j). intros s' s Ht IH.
  destruct Ht as [| | | | | | | | | | |c o d sys p1 p2 Hps|c o d sys p1 Hps|]; cbn in *; simplify_eq.
  - destruct (join_blocked_stuck p Hb). by exists p2.
  - destruct Hb as (k & a & Hd & _). congruence.
Qed.

Lemma heard_ends i :
  heard (e i) -> s_owner (e i) = Joining ->
  (exists k, (i <= k)%nat /\ s_owner (e k) = Joined /\ all_ended (s_sys (e k))) \/
  (exists k p, (i <= k)%nat /\ drop_hung p /\ forall j, (k <= j)%nat ->
     s_worker (e j) = Closing p /\ s_owner (e j) = Joining /\ all_ended (s_sys (e j))).
Proof.
  intros Hh Ho.
  assert (Hl : exists k, (i <= k)%nat /\ left_serve (s_worker (e k))).
  { destruct (drain_ends i Hh) as (k & Hk & [Ha|Hl]); [|by exists k].
    destruct (abort_ends k Ha) as (k' & Hk' & Hl). exists k'. split; [lia|done]. }
  destruct Hl as (k1 & Hk1 & Hl). destruct (drop_starts k1 Hl) as (k2 & Hk2 & Hc).
  pose proof (fun j Hj => owner_waits i j Ho Hj) as How. destruct Hc as [Hg|(p & Hp & Hb)]; [left|right].
  - assert (exists k, (k2 <= k)%nat /\ s_owner (e k) = Joined) as (k & Hk & Hj).
    { destruct (How k2 ltac:(lia)) as [Ho2|Ho2]; [by apply gone_joins|by exists k2]. }
    exists k. split; [lia|]. split; [done|]. apply left_ended; [apply joining_reachable|].
    pose proof (rok_joined _ _ (view_run_ok _ (joining_reachable k)) Hj) as Hw. cbn in Hw. by rewrite Hw.
  - exists k2, p. split; [lia|]. split.
    + split; [done|]. destruct (rok_port _ _ (view_run_ok _ (joining_reachable k2)) p Hp) as (pending & Hreal & Hre).
      destruct Hb as (x & a & Hd & Hx & Hq & _). exists x, a. split; [done|].
      eapply port_stuck_why; [unfold port_size; lia|by eapply reachable_port_ok|done..].
    + intros j Hj. pose proof (hung_stays k2 p Hp Hb j Hj) as Hw. split; [done|].
      split; [|apply left_ended; [apply joining_reachable|by rewrite Hw]].
      destruct (How j ltac:(lia)) as [|Hoj]; [done|].
      pose proof (rok_joined _ _ (view_run_ok _ (joining_reachable j)) Hoj) as Hg. cbn in Hg. congruence.
Qed.
End joining.

(** C14. The shutdown of a whole server.  Take an execution in which the server thread,
    the runtime and the port's threads are not stopped for ever where they could
    go on, tasks that are not suspended are run, and from some moment on no slot
    misses the stop flag.  If the owner is in its join and the value it sent is in
    the channel, or the thread has already taken it, then, however slow clients
    are and whether or not the queue could be shut down, every slot ends, and one
    of two things happens: the join returns; or the server thread stays for ever in
    [drop(handles)], in the [IoPort::drop] of its queue, joining a completion
    thread that is blocked on an empty port, and the owner waits for ever with it.
    The second takes a port of two threads or more, or a sentinel that could not
    be posted: with one thread and every post successful the join returns. *)
Theorem serving_joins e i m :
  execution step e -> init (e 0%nat) -> weakly_fair (serving_thread config) e -> weakly_fair slot_runs e ->
  seen_from m e -> s_owner (e i) = Joining -> heard (e i) ->
  (exists k, (i <= k)%nat /\ s_owner (e k) = Joined /\ all_ended (s_sys (e k))) \/
  (exists k p, (i <= k)%nat /\ drop_hung p /\ forall j, (k <= j)%nat ->
     s_worker (e j) = Closing p /\ s_owner (e j) = Joining /\ all_ended (s_sys (e j))).
Proof.
  intros He Hi Hft Hfs Hseen Ho Hh. apply (heard_ends e m); auto. by apply reachable_init.
Qed.
End serving_facts.

(** ** An executable server, for witnesses *)

Section schedule.
Context `{ArrayQueue Q} `{VecAlloc} `{StopFlag K} `{Broadcast C}.
Context (size_of_request : Z) (skip : bool) (address : Z).
Context (handlers : gmap Z (RequestBuffer -> Prog K Response)) (config : ServerConfig).

(** The server thread goes on, without a timeout. *)
Definition serving_go (s : Serving (Q := Q) (K := K) (C := C)) : Serving :=
  let '(mkServing c w o d sys) := s in
  match w with
  | Spawning (S n) =>
      mkServing c (Spawning n) o d (mkSystem (shared sys) (slots sys ++ [new_slot config]) (trace sys))
  | Spawning 0 => mkServing c Subscribing o d sys
  | Subscribing => mkServing (bc_subscribe c) AwaitingShutdown o d sys
  | AwaitingShutdown => if bc_ready c then mkServing c SettingStop o d sys else s
  | SettingStop =>
      let '(k, p) := shared sys in
      mkServing c ShuttingQueue o d (mkSystem (set_stop k, p) (slots sys) (trace sys))
  | ShuttingQueue =>
      let '(k, p) := shared sys in
      let '(ec, k) := HttpShutdownRequestQueue k in
      mkServing c Draining o (d || (ec =? 0)) (mkSystem (k, p) (slots sys) (trace sys))
  | Draining => if forallb (fun t => negb (live t)) (slots sys) then mkServing c Exited o d sys else s
  | Aborting => s
  | Exited => mkServing c (Closing (port_start (port_size config))) o d sys
  | Closing p =>
      if bool_decide (dropper p = Closed) then mkServing c Gone o d sys else mkServing c (Closing (port_go p)) o d sys
  | Gone => match o with Joining => mkServing c Gone Joined d sys | _ => s end
  end.

Lemma serving_go_step s : serving_go s = s \/ serving_thread config s (serving_go s).
Proof.
  destruct s as [c w o d [[k p] sl tr]]. destruct w as [[|n]| | | | | | | |q|]; cbn [serving_go shared slots trace].
  - right. apply sv_spawned.
  - right. apply sv_spawn.
  - right. apply sv_subscribe.
  - destruct (bc_ready c) eqn:E; [right; by apply sv_recv|by left].
  - right. apply sv_stop.
  - destruct (HttpShutdownRequestQueue k) as [ec k'] eqn:E. right. by apply sv_shutdown.
  - destruct (forallb _ sl) eqn:E; [right|by left]. apply sv_drained.
    apply Forall_forall. intros t Ht. rewrite forallb_forall in E.
    specialize (E t ltac:(by apply list_elem_of_In)). by apply negb_true_iff.
  - by left.
  - right. apply sv_close. split; [done|]. exists []. split; [by apply Forall_nil|by apply reachable_init].
  - case_bool_decide; [right; by apply sv_closed|].
    destruct (port_go_step q) as [->|Hq]; [by left|right; by apply sv_closing].
  - destruct o; [by left|right; apply sv_joined|by left].
Qed.

(** The server thread goes on; slot [i] makes its next move; the owner drops the
    server. *)
Inductive Move := MThread | MSlot (i : nat) | MDrop.

Definition serving_move (s : Serving (Q := Q) (K := K) (C := C)) (m : Move) : Serving :=
  let '(mkServing c w o d sys) := s in
  match m with
  | MThread => serving_go s
  | MSlot i => mkServing c w o d (move size_of_request skip address handlers sys i)
  | MDrop => match o with Owning => mkServing (bc_send c) w Joining d sys | _ => s end
  end.

Lemma slot_move_step c w o d sys i (ks : K -> K -> Prop) :
  let s := mkServing (C := C) c w o d sys in
  let s' := mkServing c w o d (move size_of_request skip address handlers sys i) in
  s' = s \/ serving_slot size_of_request skip address handlers ks s s'.
Proof.
  cbn zeta. destruct (move_step size_of_request skip address handlers sys i) as [->|Hm]; [by left|right].
  apply sv_slot. by eapply step_slot.
Qed.

Lemma serving_move_step s m :
  serving_move s m = s \/
  serving_step size_of_request skip address handlers (fun _ _ => False) config s (serving_move s m).
Proof.
  destruct s as [c w o d sys]. destruct m as [|i|]; cbn [serving_move].
  - destruct (serving_go_step (mkServing c w o d sys)) as [->|Hs]; [by left|by right; left].
  - destruct (slot_move_step c w o d sys i (fun _ _ => False)) as [->|Hs]; [by left|by right; right; left].
  - destruct o; [right; right; right; apply sv_owner_drop|by left..].
Qed.
End schedule.

(** One slot, one request with a body to read; the owner drops the server while the
    handler reads it.  The port has two threads. *)
Definition demo_config : ServerConfig := mkConfig 1 2 16384 131072 3000 1048576 30.
Definition demo_handlers {K} : gmap Z (RequestBuffer -> Prog K Response) := {[7 := echo_prog 4]}.
Definition demo_serving : Serving (Q := list_queue) (K := Script * bool) (C := option bool) :=
  mkServing bc_channel (Spawning 1) Owning false (mkSystem ((two_requests, false), body_pool_new 1 1048576) [] []).
Definition demo_moves : list Move :=
  [MThread; MThread; MThread; MSlot 0; MSlot 0; MSlot 0; MSlot 0; MDrop; MThread; MThread; MThread;
   MSlot 0; MSlot 0; MSlot 0; MSlot 0; MSlot 0; MSlot 0] ++ replicate 18 MThread.
Definition demo_life : nat -> Serving :=
  run_moves (serving_move 1000 true 64 demo_handlers demo_config) demo_serving demo_moves.

Definition demo_last : Serving := foldl (serving_move 1000 true 64 demo_handlers demo_config) demo_serving demo_moves.
Lemma demo_last_rests :
  s_worker demo_last = Gone /\ s_owner demo_last = Joined /\ all_ended (s_sys demo_last).
Proof. split_and!; [vm_compute; reflexivity..|]. vm_compute. by repeat constructor. Qed.

Abbreviation demo_step :=
  (serving_step 1000 true 64 demo_handlers (fun _ _ : Script * bool => False) demo_config).
Abbreviation demo_init := (serving_init demo_config).

Lemma demo_handlers_ok :
  map_Forall (fun _ (h : RequestBuffer -> Prog (Script * bool) Response) => forall b, only flag_call (h b))
    demo_handlers.
Proof.
  intros i h Hi b. unfold demo_handlers in Hi. apply lookup_singleton_Some in Hi as [_ <-].
  eapply only_impl; [|apply echo_body]. by intros X [].
Qed.

Lemma demo_life_init : demo_init (demo_life 0).
Proof. by exists (two_requests, false). Qed.

Lemma demo_life_execution : execution demo_step demo_life.
Proof. apply execution_moves, serving_move_step. Qed.

Lemma demo_life_ends i : (35 <= i)%nat -> demo_life i = demo_last.
Proof. apply (run_moves_end _ _ demo_moves). Qed.

Lemma demo_life_reachable i : reachable demo_init demo_step (demo_life i).
Proof. apply execution_reachable, reachable_init, demo_life_init. apply demo_life_execution. Qed.

Lemma demo_last_reachable : reachable demo_init demo_step demo_last.
Proof. rewrite <- (demo_life_ends 35) by lia. apply demo_life_reachable. Qed.

Lemma serving_refines_witness :
  reachable (run_init 1) (serve_step 2) (view demo_last) /\ stop (view demo_last) = true.
Proof.
  split; [|vm_compute; reflexivity].
  exact (proj1 (serving_refines 1000 true 64 demo_handlers (fun _ _ => False) demo_config demo_handlers_ok
    (fun _ _ (H : False) => match H with end) demo_last demo_last_reachable)).
Defined.

(** Request 41 was received with its body and has been answered once when the join
    returns. *)
Lemma serving_answers_witness :
  let tr := map snd (trace (s_sys demo_last)) in
  count (receives_whole 41) tr = 1%nat /\ (1 <= count (sends 41) (slot_events 0 (trace (s_sys demo_last))))%nat /\
  (count (sends 41) tr <= 1)%nat /\ all_ended (s_sys demo_last).
Proof.
  intros tr. split; [vm_compute; reflexivity|].
  destruct (serving_answers 1000 true 64 demo_handlers (fun _ _ => False) demo_config demo_handlers_ok
    (fun _ _ (H : False) => match H with end) demo_last demo_last_reachable) as ((Hs & Hc) & _ & Hx).
  assert (Hover : exists t, slots (s_sys demo_last) !! O = Some t /\ at_rest t).
  { destruct (slots (s_sys demo_last)) as [|t l] eqn:E; [by vm_compute in E|]. exists t. split; [done|].
    assert (Hr : match slots (s_sys demo_last) with Over :: _ => true | _ => false end = true)
      by (vm_compute; reflexivity). rewrite E in Hr. by destruct t. }
  destruct Hover as (t & Hover & Hrest).
  split; [|split].
  - destruct (Hs _ _ Hover) as [_ [_ Hw]]; [exact Hrest|]. specialize (Hw 41).
    assert (Hr : count (receives_whole 41) (slot_events 0 (trace (s_sys demo_last))) = 1%nat) by (vm_compute; reflexivity).
    by rewrite Hr in Hw.
  - assert (Hr : count (receives 41) tr = 1%nat) by (vm_compute; reflexivity). rewrite <- Hr. by apply Hc.
  - apply Hx. by rewrite (proj1 demo_last_rests).
Defined.

(** What has come to its end has nothing left to do. *)
Lemma demo_rests_thread : ~ exists s', serving_thread demo_config demo_last s'.
Proof. destruct demo_last_rests as (Hw & Ho & _). intros (s' & Hs). by destruct Hs; cbn in Hw, Ho. Qed.
Lemma demo_rests_slots i sys : ~ slot_move 1000 true 64 demo_handlers i (s_sys demo_last) sys.
Proof. apply slot_move_ended, demo_last_rests. Qed.

(** In the demonstration a test sees the flag as it is. *)
Definition found_down {K} (e : nat * Event K) : bool :=
  (match fst (projT2 (snd e)) in Call _ X return X -> bool with CStop => negb | _ => fun _ => false end)
    (snd (projT2 (snd e))).
Definition fresh_at (i : nat) : bool :=
  flag (demo_life i) && negb (existsb found_down
    (drop (length (trace (s_sys (demo_life i)))) (trace (s_sys (demo_life (1 + i)))))).

Lemma demo_fresh i : (11 <= i)%nat -> fresh_at i = true.
Proof.
  intros Hi. destruct (decide (i < 36)%nat) as [Hlt|Hge].
  - assert (Hall : forallb fresh_at (seq 11 25) = true) by (vm_compute; reflexivity).
    rewrite forallb_forall in Hall. apply Hall, in_seq. lia.
  - unfold fresh_at. rewrite !demo_life_ends by lia. rewrite drop_all. vm_compute. reflexivity.
Qed.

Lemma demo_seen : seen_from 11 demo_life.
Proof.
  intros i Hi [_ [x Ht]]. pose proof (demo_fresh i Hi) as Hd. unfold fresh_at in Hd.
  rewrite Ht, drop_app_length in Hd. apply andb_prop in Hd as [_ Hd]. done.
Qed.

(** The owner has just dropped the server. *)
Lemma serving_joins_witness :
  (exists k, (8 <= k)%nat /\ s_owner (demo_life k) = Joined /\ all_ended (s_sys (demo_life k))) \/
  exists k p, (8 <= k)%nat /\ drop_hung demo_config p /\ forall j, (k <= j)%nat ->
    s_worker (demo_life j) = Closing p /\ s_owner (demo_life j) = Joining /\ all_ended (s_sys (demo_life j)).
Proof.
  apply (serving_joins 1000 true 64 demo_handlers (fun _ _ => False) demo_config demo_handlers_ok
    (fun _ _ (H : False) => match H with end) demo_life 8 11 demo_life_execution demo_life_init);
    [..|apply demo_seen|vm_compute; reflexivity|by split; vm_compute].
  - apply (execution_rests _ _ 35 demo_last demo_life_ends), demo_rests_thread.
  - apply (execution_rests _ _ 35 demo_last demo_life_ends). intros (s' & i & t & _ & _ & _ & Hs).
    by apply demo_rests_slots in Hs.
Defined.

(** The flag has just been set; the slot is reading. *)
Lemma serving_drains_witness :
  flag (demo_life 11) = true /\ exists k, (11 <= k)%nat /\ forall j, (k <= j)%nat -> all_ended (s_sys (demo_life j)).
Proof.
  split; [vm_compute; reflexivity|].
  apply (serving_drains 1000 true 64 demo_handlers (fun _ _ => False) demo_config demo_handlers_ok
    (fun _ _ (H : False) => match H with end) demo_life 11 11 demo_life_execution demo_life_init);
    [|vm_compute; reflexivity|lia|intros i Hi; apply demo_seen; lia].
  apply (execution_rests _ _ 35 demo_last demo_life_ends). intros (s' & i & Hs). by apply demo_rests_slots in Hs.
Defined.
