(* ===== verification/BenchFmt.v ===== *)
(** * Text for humans (tools/httpbench/src/fmt.rs)

    The formatting functions of the console report and of the charts, and the
    parser of byte sizes on the command line. *)

From S2P Require Import Prelude RustStd Float64.
Set Warnings "-clear-no-such-hyp".

(** ** Formatting *)

Module fmt.
Definition KIB : f64 := f64_of 1024.
Definition MIB : f64 := f64_mul KIB (f64_of 1024).

Definition bytes (value : f64) : str :=
  if f64_le MIB value then show_fixed 0 (f64_div value MIB) ++ lit " MiB"
  else if f64_le KIB value then show_fixed 0 (f64_div value KIB) ++ lit " KiB"
  else show_fixed 0 value ++ lit " B".

Definition millis (value : f64) : str :=
  if f64_le (f64_of 100) value then show_fixed 0 value ++ lit " ms"
  else if f64_le (f64_of 10) value then show_fixed 1 value ++ lit " ms"
  else show_fixed 2 value ++ lit " ms".

Definition rate (value : f64) : str :=
  if f64_le (f64_of 1000000) value then show_fixed 1 (f64_div value (f64_of 1000000)) ++ lit "M"
  else if f64_le (f64_of 1000) value then show_fixed 0 (f64_div value (f64_of 1000)) ++ lit "k"
  else show_fixed 0 value.

Definition count (value : f64) : str := show_fixed 0 value.
Definition cores (value : f64) : str := show_fixed 2 value.
Definition mib_per_second (value : f64) : str := show_fixed 0 value.
End fmt.

(** ** Parsing *)

Definition strip_suffix (text : str) : str := trim_end_matches is_ascii_alphabetic text.

Definition parse_bytes (text : str) : Result str Z :=
  let trimmed := trim text in
  let t := to_ascii_lowercase trimmed in
  let '(digits, multiplier) :=
    if ends_with (lit "gib") t || ends_with (lit "g") t
    then (strip_suffix trimmed, 1024 * 1024 * 1024)
    else if ends_with (lit "mib") t || ends_with (lit "m") t
    then (strip_suffix trimmed, 1024 * 1024)
    else if ends_with (lit "kib") t || ends_with (lit "k") t
    then (strip_suffix trimmed, 1024)
    else if ends_with (lit "b") t
    then (strip_suffix trimmed, 1)
    else (trimmed, 1) in
  match parse_uint 64 (trim digits) with
  | Some n => Ok (wrap64 (n * multiplier))
  | None => Err (lit "'" ++ text ++ lit "' is not a byte size")
  end.

(** ** What it accepts *)

(** The multiplier of a suffix made of letters, if it has one. *)
Definition unit_of (s : str) : option Z :=
  let t := to_ascii_lowercase s in
  if bool_decide (s = []) then Some 1
  else if ends_with (lit "gib") t || ends_with (lit "g") t then Some (2 ^ 30)
  else if ends_with (lit "mib") t || ends_with (lit "m") t then Some (2 ^ 20)
  else if ends_with (lit "kib") t || ends_with (lit "k") t then Some (2 ^ 10)
  else if ends_with (lit "b") t then Some 1
  else None.

Definition is_decimal (c : Z) : bool := (48 <=? c) && (c <=? 57).
Abbreviation all p s := (Forall (fun c => p c = true) s).

Lemma decimal_facts c :
  is_decimal c = true -> is_whitespace c = false /\ is_ascii_alphabetic c = false /\ c < 65.
Proof.
  unfold is_decimal, is_whitespace, is_ascii_alphabetic. intros H. reflect_bools. ztests; auto; lia.
Qed.

Lemma letter_not_space c : is_ascii_alphabetic c = true -> is_whitespace c = false.
Proof. unfold is_whitespace, is_ascii_alphabetic. intros H. ztests; try done; lia. Qed.

Lemma trim_start_keep p s : Forall (fun c => p c = false) (take 1 s) -> trim_start_matches p s = s.
Proof. destruct s as [|c s]; [done|]. cbn. intros [Hc _]%Forall_cons. by rewrite Hc. Qed.

Lemma trim_start_all p s t :
  all p s -> Forall (fun c => p c = false) (take 1 t) -> trim_start_matches p (s ++ t) = t.
Proof.
  intros Hs Ht. induction Hs as [|c s Hc Hs IH]; cbn; [by apply trim_start_keep|by rewrite Hc].
Qed.

Lemma take_1_rev {A} (P : A -> Prop) l : Forall P l -> Forall P (take 1 (rev l)).
Proof. intros Hl. apply Forall_take. by apply Forall_rev in Hl. Qed.

Lemma trim_keep s :
  Forall (fun c => is_whitespace c = false) (take 1 s) ->
  Forall (fun c => is_whitespace c = false) (take 1 (rev s)) -> trim s = s.
Proof.
  intros Hs Hr. unfold trim, trim_end_matches. rewrite (trim_start_keep _ s) by done.
  rewrite trim_start_keep by done. apply rev_involutive.
Qed.

(** Nothing below the upper case letters is one. *)
Abbreviation low d := (Forall (fun c => c < 65) d).

Lemma low_not_alphabetic c : c < 65 -> is_ascii_alphabetic c = false.
Proof. intros Hc. unfold is_ascii_alphabetic. by ztests. Qed.

Lemma strip_suffix_app d s : low d -> all is_ascii_alphabetic s -> strip_suffix (d ++ s) = d.
Proof.
  intros Hd Hs. unfold strip_suffix, trim_end_matches. rewrite rev_app_distr, trim_start_all.
  - apply rev_involutive.
  - by apply Forall_rev.
  - apply take_1_rev. eapply Forall_impl; [exact Hd|]. intros c. apply low_not_alphabetic.
Qed.

(** Digits in front of letters do not change what the letters end with. *)
Lemma ends_with_digits suf d l :
  all is_ascii_alphabetic suf -> low d -> ends_with suf (d ++ l) = ends_with suf l.
Proof.
  intros Hsuf Hd. unfold ends_with. rewrite length_app.
  destruct (decide (length suf <= length l)%nat) as [Hle|Hgt].
  - rewrite drop_app_ge by lia.
    by replace (length d + length l - length suf - length d)%nat with (length l - length suf)%nat by lia.
  - replace (length l - length suf)%nat with O by lia. rewrite drop_0.
    rewrite (bool_decide_eq_false_2 (l = suf)) by (intros ->; lia).
    apply bool_decide_eq_false_2. intros E.
    destruct (decide (length d + length l < length suf)%nat) as [|Hge].
    { apply (f_equal length) in E. rewrite length_drop, length_app in E. lia. }
    rewrite drop_app_le in E by lia.
    destruct (drop (length d + length l - length suf) d) as [|c d'] eqn:Hdrop.
    { apply (f_equal length) in Hdrop. rewrite length_drop in Hdrop. cbn in Hdrop. lia. }
    apply (Forall_drop _ (length d + length l - length suf)) in Hd. rewrite Hdrop in Hd.
    apply Forall_cons in Hd as [Hc _]. rewrite <- E in Hsuf. cbn in Hsuf.
    apply Forall_cons in Hsuf as [Hc' _]. apply low_not_alphabetic in Hc. congruence.
Qed.

Lemma lowercase_digits d s :
  low d -> to_ascii_lowercase (d ++ s) = d ++ to_ascii_lowercase s.
Proof.
  intros Hd. unfold to_ascii_lowercase. rewrite map_app. f_equal.
  induction Hd as [|c d Hc Hd IH]; [done|]. cbn. rewrite IH. f_equal.
  by rewrite (proj2 (Z.leb_gt 65 c)) by lia.
Qed.

(** A number followed by anything but a digit does not parse. *)
Lemma parse_uint_trailing w d x s :
  all is_decimal d -> d <> [] -> digit x = None -> parse_uint w (d ++ x :: s) = None.
Proof.
  intros Hd Hd0 Hx. destruct d as [|c d]; [done|]. cbn [app parse_uint].
  assert (Hc : c <> 43).
  { apply Forall_cons in Hd as [Hc _]. unfold is_decimal in Hc. reflect_bools. lia. }
  rewrite (proj2 (Z.eqb_neq _ _) Hc). cbn [andb]. rewrite app_comm_cons, parse_digits_app.
  destruct (parse_digits w 0 (c :: d)); [|done]. cbn. by rewrite Hx.
Qed.

Lemma letter_not_digit x : is_ascii_alphabetic x = true -> digit x = None.
Proof.
  intros Hx. destruct (digit x) as [y|] eqn:Hy; [|done].
  apply digit_Some in Hy. unfold is_ascii_alphabetic in Hx. ztests; done || lia.
Qed.

(** A number, blanks if a unit follows, and a unit. *)
Lemma parse_bytes_parts d k s :
  all is_decimal d -> d <> [] -> all is_ascii_alphabetic s -> (s <> [] \/ k = O) ->
  let text := d ++ replicate k 32 ++ s in
  parse_bytes text =
    match unit_of s, parse_uint 64 d with
    | Some m, Some n => Ok (wrap64 (n * m))
    | _, _ => Err (lit "'" ++ text ++ lit "' is not a byte size")
    end.
Proof.
  intros Hd Hd0 Hs Hk. cbn zeta. set (text := d ++ replicate k 32 ++ s).
  assert (Hdw : Forall (fun c => is_whitespace c = false) d)
    by (eapply Forall_impl; [exact Hd|]; intros c Hc; apply (decimal_facts c Hc)).
  assert (Hsw : Forall (fun c => is_whitespace c = false) s)
    by (eapply Forall_impl; [exact Hs|]; intros c Hc; by apply letter_not_space).
  assert (Hstart : Forall (fun c => is_whitespace c = false) (take 1 d)) by (by apply Forall_take).
  assert (Hlow : low (d ++ replicate k 32)).
  { apply Forall_app. split; [|by apply Forall_replicate].
    eapply Forall_impl; [exact Hd|]. intros c Hc. apply (decimal_facts c Hc). }
  assert (Htext : trim text = text).
  { apply trim_keep; [by destruct d|]. unfold text. rewrite !rev_app_distr.
    destruct Hk as [Hs0| ->].
    - assert (Hr : rev s <> []) by (intros E; apply Hs0; rewrite <- (rev_involutive s); by rewrite E).
      pose proof (take_1_rev _ s Hsw). by destruct (rev s).
    - cbn [replicate rev]. rewrite app_nil_r.
      pose proof (take_1_rev _ (d ++ s) ltac:(by apply Forall_app)) as Ht. by rewrite rev_app_distr in Ht. }
  assert (Hnum : trim (d ++ replicate k 32) = d).
  { unfold trim, trim_end_matches. rewrite (trim_start_keep _ (d ++ _)) by (by destruct d).
    rewrite rev_app_distr, trim_start_all.
    - apply rev_involutive.
    - apply Forall_rev. by apply Forall_replicate.
    - by apply take_1_rev. }
  unfold parse_bytes. rewrite Htext. unfold text at 1 2 3 4 5 6 7 8 9 10 11.
  rewrite (assoc_L (++) d), lowercase_digits by done.
  rewrite !ends_with_digits by (done || (vm_compute; by repeat constructor)).
  rewrite strip_suffix_app by done. unfold unit_of. case_bool_decide as Hs0.
  - subst s. destruct Hk as [|Hk]; [done|]. subst k. unfold text. cbn [replicate app] in *. rewrite !app_nil_r in *.
    repeat match goal with |- context [ends_with ?x (to_ascii_lowercase [])] =>
      change (ends_with x (to_ascii_lowercase [])) with false end.
    cbn [orb]. by rewrite Hnum.
  - repeat match goal with |- context [if ?b then (_, _) else _] => destruct b end; rewrite ?Hnum; try done.
    rewrite Htext. unfold text. destruct k as [|k]; cbn [replicate app].
    + destruct s as [|x s]; [done|]. rewrite parse_uint_trailing; [done..|].
      apply Forall_cons in Hs as [Hx _]. by apply letter_not_digit.
    + by rewrite parse_uint_trailing.
Qed.

(** [parse_bytes] on a number followed by any letters, upper or lower case.  The
    unit is read off the end of the letters alone: g or GiB, m or MiB, k or KiB,
    and otherwise a final b means bytes, whatever stands before it, so that KB,
    MB and GB are read as bytes; letters with no such end are refused.  The
    number may have leading zeros and must fit sixty-four bits; the product is
    kept modulo 2^64, so a size that does not fit comes out small instead of
    being refused. *)
Theorem parse_bytes_spec d s :
  all is_decimal d -> d <> [] -> all is_ascii_alphabetic s ->
  parse_bytes (d ++ s) =
    match unit_of s, parse_uint 64 d with
    | Some m, Some n => Ok (wrap64 (n * m))
    | _, _ => Err (lit "'" ++ (d ++ s) ++ lit "' is not a byte size")
    end.
Proof. intros Hd Hd0 Hs. apply (parse_bytes_parts d 0 s); auto. Qed.

Example parse_bytes_tests :
  parse_bytes (lit "1024") = Ok 1024 /\ parse_bytes (lit "4k") = Ok 4096 /\
  parse_bytes (lit "4KiB") = Ok 4096 /\ parse_bytes (lit "8MiB") = Ok (8 * 1024 * 1024) /\
  parse_bytes (lit " 2 m ") = Ok (2 * 1024 * 1024) /\ is_ok (parse_bytes (lit "banana")) = false.
Proof. vm_compute. done. Qed.

Lemma parse_bytes_spec_witness :
  parse_bytes (lit "4" ++ lit "KB") = Ok 4 /\
  parse_bytes (lit "17179869184" ++ lit "g") = Ok 0.
Proof.
  split; (rewrite parse_bytes_spec; [vm_compute; reflexivity|by repeat constructor|discriminate|
    by repeat constructor]).
Defined.

(** ** Formatting and parsing *)

Example fmt_tests :
  fmt.bytes (f64_of 512) = lit "512 B" /\ fmt.bytes (f64_of 65536) = lit "64 KiB" /\
  fmt.bytes (f64_of (8 * 1024 * 1024)) = lit "8 MiB" /\ fmt.millis (f64_lit 15 100) = lit "0.15 ms" /\
  fmt.millis (f64_of 12) = lit "12.0 ms" /\ fmt.millis (f64_of 250) = lit "250 ms" /\
  fmt.rate (f64_of 950) = lit "950" /\ fmt.rate (f64_of 125000) = lit "125k" /\
  fmt.rate (f64_of 2500000) = lit "2.5M".
Proof. vm_compute. repeat split. Qed.

Lemma dec_digits_decimal fuel n : 0 <= n -> all is_decimal (dec_digits fuel n []).
Proof.
  revert n. induction fuel as [|fuel IH]; intros n Hn; cbn [dec_digits]; [constructor|].
  assert (Hd : is_decimal (48 + n mod 10) = true) by (unfold is_decimal; ztests; done).
  destruct (n <? 10); [by repeat constructor|]. rewrite dec_digits_app. apply Forall_app.
  split; [apply IH; zarith|by repeat constructor].
Qed.

Lemma show_uint_decimal n : 0 <= n -> all is_decimal (show_uint n).
Proof. apply dec_digits_decimal. Qed.

Lemma show_uint_nonempty n : 0 <= n -> show_uint n <> [].
Proof.
  intros Hn. unfold show_uint. destruct (dec_digits_head (S (Z.to_nat (Z.log2 n))) n) as (c & s & -> & _);
    [done|lia|done].
Qed.


(** The unit [fmt.bytes] chooses. *)
Definition fmt_unit (n : Z) : Z := if 2 ^ 20 <=? n then 2 ^ 20 else if 1024 <=? n then 1024 else 1.

Lemma fmt_bytes_shape n :
  0 <= n < 2 ^ 53 ->
  exists u x, fmt.bytes (f64_of n) = show_uint (rne n (fmt_unit n)) ++ replicate 1 32 ++ u ++ [x] /\
    all is_ascii_alphabetic (u ++ [x]) /\ unit_of (u ++ [x]) = Some (fmt_unit n).
Proof.
  intros Hn. unfold fmt.bytes, fmt_unit.
  change fmt.MIB with (f64_of (2 ^ 20)). change fmt.KIB with (f64_of 1024).
  rewrite !f64_of_le by lia.
  assert (Hdiv : forall j, 0 <= j <= 52 -> 0 < n ->
    show_fixed 0 (f64_div (f64_of n) (f64_of (2 ^ j))) = show_uint (rne n (2 ^ j))).
  { intros j Hj Hn0. destruct (is_val_units _ _ (f64_div_pow2 n j ltac:(lia) Hj)) as (Hu & Hf & Hs).
    rewrite (show_fixed_0 _ _ Hu Hs Hf) by (apply Z.mul_nonneg_nonneg; [lia|apply Z.pow_nonneg; lia]).
    f_equal. rewrite <- (rne_scale n (2 ^ j) (2 ^ (1074 - j))) by (apply Z.pow_pos_nonneg; lia).
    f_equal. rewrite <- Z.pow_add_r by lia. unfold UNIT. f_equal. lia. }
  destruct (Z.leb_spec (2 ^ 20) n); [|destruct (Z.leb_spec 1024 n)].
  - exists (lit "Mi"), 66. rewrite (Hdiv 20) by lia. split; [done|]. split; [by repeat constructor|done].
  - exists (lit "Ki"), 66. change 1024 with (2 ^ 10). rewrite (Hdiv 10) by lia.
    split; [done|]. split; [by repeat constructor|done].
  - exists [], 66. destruct (f64_of_rank n Hn) as (_ & _ & _ & Hu & Hs & Hf).
    rewrite (show_fixed_0 _ _ Hu Hs Hf) by (unfold UNIT; nia).
    replace (rne (n * UNIT) UNIT) with (rne n 1).
    2: { rewrite <- (rne_scale n 1 UNIT) by reflexivity. by rewrite Z.mul_1_l. }
    split; [done|]. split; [by repeat constructor|done].
Qed.

(** C40. What [bytes] prints, [parse_bytes] reads.  For every whole number of bytes
    below 2^53 the text is accepted, the size read back is within half of the
    unit that was printed, and it is the same size whenever the size is a whole
    number of those units, as in every sweep of powers of two. *)
Theorem bytes_parse_roundtrip n :
  0 <= n < 2 ^ 53 ->
  exists m, parse_bytes (fmt.bytes (f64_of n)) = Ok m /\
    2 * Z.abs (m - n) <= fmt_unit n /\ (n mod fmt_unit n = 0 -> m = n).
Proof.
  intros Hn. destruct (fmt_bytes_shape n Hn) as (u & x & -> & Ha & Hu).
  assert (Hunit : 0 < fmt_unit n <= 2 ^ 20 /\ (fmt_unit n = 1 \/ fmt_unit n <= n)).
  { unfold fmt_unit. destruct (Z.leb_spec (2 ^ 20) n); [|destruct (Z.leb_spec 1024 n)]; lia. }
  set (g := fmt_unit n) in *. set (q := rne n g).
  pose proof (rne_nonneg n g ltac:(lia) ltac:(lia)) as Hq. pose proof (rne_near n g ltac:(lia)) as Hnear.
  fold q in Hq, Hnear.
  assert (Hq64 : in_u 64 q) by (unfold in_u; nia).
  rewrite parse_bytes_parts; [|by apply show_uint_decimal|by apply show_uint_nonempty|done|].
  2: { left. by destruct u. }
  rewrite Hu, parse_show_uint by done. exists (q * g).
  rewrite wrap_small by (unfold in_u in *; nia). split; [done|]. split; [lia|].
  intros Hmod. unfold q. pose proof (Z.div_mod n g ltac:(lia)) as Hdm. rewrite Hmod in Hdm.
  replace n with (n / g * g) at 1 by lia. rewrite rne_exact by lia. lia.
Qed.

Lemma bytes_parse_roundtrip_witness :
  exists m, parse_bytes (fmt.bytes (f64_of 4194304)) = Ok m /\ m = 4194304.
Proof.
  destruct (bytes_parse_roundtrip 4194304) as (m & Hm & _ & He); [lia|].
  exists m. split; [exact Hm|]. apply He. reflexivity.
Defined.
