(* ===== verification/BenchLoad.v ===== *)
(** * The load generator (tools/httpbench/src/load.rs)

    The requests of one connection and the readiness probe over an interface for
    the network, the merge of the connections' results, and the statistics of a
    run. *)

From stdpp Require Import sorting.
From S2P Require Import Prelude RustStd Float64.
Set Warnings "-clear-no-such-hyp".
#[local] Open Scope Z_scope.
#[local] Open Scope rust_scope.

(** ** Results *)

(** A duration is its nanoseconds. *)
Record LoadResult := mkLoad { elapsed : Z; errors : Z; latencies_ns : list Z }.
Definition load_result_default : LoadResult := mkLoad 0 0 [].

Definition requests (r : LoadResult) : Z := wrap64 (zlen (latencies_ns r)).

Definition requests_per_second (r : LoadResult) : f64 :=
  let seconds := as_secs_f64 (elapsed r) in
  if f64_le seconds (f64_of 0) then f64_of 0
  else f64_div (f64_of (requests r)) seconds.

(** [percentile_ms]; the outer [None]: the index panics. *)
Definition percentile_ms (r : LoadResult) (quantile : f64) : option f64 :=
  match latencies_ns r with
  | [] => Some (f64_of 0)
  | _ =>
      let len := zlen (latencies_ns r) in
      let last := len - 1 in
      let index := Z.min (f64_as_usize (f64_mul (f64_of len) quantile)) last in
      match latencies_ns r !! Z.to_nat index with
      | Some n => Some (f64_div (f64_of n) (f64_of 1000000))
      | None => None
      end
  end.

(** [mean_ms]; the sum is kept in a [u128]. *)
Definition mean_ms (r : LoadResult) : f64 :=
  match latencies_ns r with
  | [] => f64_of 0
  | l =>
      f64_div (f64_div (f64_of (wrap 128 (foldr Z.add 0 l))) (f64_of (zlen l))) (f64_of 1000000)
  end.

(** ** Outcomes *)

(** How a piece of the tool ends without a result: an error; a panic, which drops
    the same values on its way out; or never, when it waits for something that does
    not happen. *)
Inductive Failure := Failed (text : str) | Panicked | Never.

Definition or_failed {A} (r : Result str A) : Result Failure A :=
  match r with Ok x => Ok x | Err e => Err (Failed e) end.
Definition failing {W A} (m : M W (Result str A)) : M W (Result Failure A) := let! r := m in mret (or_failed r).
(** An operation that may never return: [None]. *)
Definition returned {W A} (m : M W (option A)) : M W (Result Failure A) :=
  let! r := m in mret (match r with Some x => Ok x | None => Err Never end).
(** Awaiting an operation that can fail. *)
Definition await {W A} (m : M W (option (Result str A))) : M W (Result Failure A) :=
  let? r := returned m in mret (or_failed r).

(** ** The network *)

Record LoadSpec := mkSpec {
  host : str; port : Z; path : str; body : bytes; connections : Z; duration : Z;
}.

Definition authority (spec : LoadSpec) : str := host spec ++ lit ":" ++ show_uint (port spec).

Inductive HyperMethod := GET | POST.
Record HyperRequest := mkHyper { hy_method : HyperMethod; hy_uri : str; hy_host : str; hy_body : bytes }.

(** Tokio and hyper, as [load.rs] uses them: a state [N] and one operation per call
    that can wait or fail; an error is its text.  Nothing limits how long the peer
    takes: an operation that depends on it gives [None] when it never returns. *)
Class Network (N : Type) := {
  (** [Instant::now]. *)
  instant_now : N -> Z * N;
  sleep : Z -> N -> unit * N;
  tcp_connect : str -> N -> option (Result str unit) * N;
  set_nodelay : N -> Result str unit * N;
  (** the handshake, and the task that drives the connection *)
  http_handshake : N -> option (Result str unit) * N;
  (** [Request::builder] fails for a path that is not a URI. *)
  request_build : HyperRequest -> N -> Result str unit * N;
  send_request : HyperRequest -> N -> option (Result str Z) * N;
  (** the whole body of the response *)
  collect_body : N -> option (Result str unit) * N;
  (** [drop(sender)], then the end of the connection's task *)
  hang_up : N -> option unit * N;
}.

(** What is known of time: a clock that never goes back, and a sleep that lasts. *)
Class NetworkLaws N `{Network N} := {
  time : N -> Z;
  instant_now_time n : time n <= fst (instant_now n) <= time (snd (instant_now n));
  sleep_time d n : 0 <= d -> time n + d <= time (snd (sleep d n));
  tcp_connect_time a n : time n <= time (snd (tcp_connect a n));
  set_nodelay_time n : time n <= time (snd (set_nodelay n));
  http_handshake_time n : time n <= time (snd (http_handshake n));
  request_build_time r n : time n <= time (snd (request_build r n));
  send_request_time r n : time n <= time (snd (send_request r n));
  collect_body_time n : time n <= time (snd (collect_body n));
  hang_up_time n : time n <= time (snd (hang_up n));
}.

(** [StatusCode::is_success]. *)
Definition is_success (status : Z) : bool := (200 <=? status) && (status <? 300).

Section network.
Context `{Network Net}.
(** The text of a status code. *)
Context (show_status : Z -> str).

Definition request_for (spec : LoadSpec) : HyperRequest :=
  mkHyper (match body spec with [] => GET | _ => POST end) (path spec) (authority spec) (body spec).

(** One turn of the loop of [connection_loop]: the latency of a request. *)
Definition one_request (spec : LoadSpec) : M Net (Result Failure Z) :=
  let? _ := failing (request_build (request_for spec)) in
  let! sent := instant_now in
  let? status := await (send_request (request_for spec)) in
  let? _ := await collect_body in
  if negb (is_success status) then mret (Err (Failed (lit "server replied " ++ show_status status)))
  else
    let! answered := instant_now in
    mret (Ok (wrap64 (saturating_sub answered sent))).

(** The loop; it has not returned when its turns are used up. *)
Fixpoint request_loop (fuel : nat) (spec : LoadSpec) (deadline : Z) (latencies : list Z) :
    M Net (Result Failure (list Z)) :=
  match fuel with
  | O => mret (Err Never)
  | S fuel =>
      let! t := instant_now in
      if t <? deadline then
        let? latency := one_request spec in
        request_loop fuel spec deadline (latencies ++ [latency])
      else
        let? _ := returned hang_up in
        mret (Ok latencies)
  end.

Definition open_connection (spec : LoadSpec) : M Net (Result Failure unit) :=
  let? _ := await (tcp_connect (authority spec)) in
  let? _ := failing set_nodelay in
  await http_handshake.

Definition connection_loop (fuel : nat) (spec : LoadSpec) (deadline : Z) : M Net (Result Failure (list Z)) :=
  let? _ := open_connection spec in
  request_loop fuel spec deadline [].

(** [single_request]; it leaves Nagle's algorithm on. *)
Definition single_request (spec : LoadSpec) : M Net (Result Failure unit) :=
  let? _ := await (tcp_connect (authority spec)) in
  let? _ := await http_handshake in
  let request := mkHyper GET (path spec) (authority spec) [] in
  let? _ := failing (request_build request) in
  let? status := await (send_request request) in
  let? _ := await collect_body in
  let? _ := returned hang_up in
  mret (if is_success status then Ok tt else Err (Failed (lit "readiness probe got " ++ show_status status))).

Definition PROBE_INTERVAL : Z := 25000000.

Definition not_ready (spec : LoadSpec) (last : option str) : str :=
  lit "server on port " ++ show_uint (port spec) ++ lit " did not become ready: " ++
  default (lit "no response") last.

Fixpoint ready_loop (fuel : nat) (spec probe : LoadSpec) (deadline : Z) (last : option str) :
    M Net (Result Failure unit) :=
  match fuel with
  | O => mret (Err Never)
  | S fuel =>
      let! t := instant_now in
      if t <? deadline then
        let! r := single_request probe in
        match r with
        | Err (Failed e) =>
            let! _ := sleep PROBE_INTERVAL in
            ready_loop fuel spec probe deadline (Some e)
        | r => mret r
        end
      else mret (Err (Failed (not_ready spec last)))
  end.

(** The sum of an instant and a duration panics when it does not fit. *)
Definition wait_until_ready (fuel : nat) (spec : LoadSpec) (timeout : Z) : M Net (Result Failure unit) :=
  let! t := instant_now in
  if DURATION_MAX <? t + timeout then mret (Err Panicked)
  else
    let probe := mkSpec (host spec) (port spec) (path spec) [] 1 0 in
    ready_loop fuel spec probe (t + timeout) None.
End network.

(** ** Merging *)

(** What awaiting a connection's task gives: [None] when it panicked. *)
Definition JoinOutcome : Type := option (Result str (list Z)).

(** One turn of the loop over the tasks in [run]. *)
Definition merge_one (result : LoadResult) (c : JoinOutcome) : LoadResult :=
  match c with
  | Some (Ok samples) => mkLoad (elapsed result) (errors result) (latencies_ns result ++ samples)
  | Some (Err _) | None => mkLoad (elapsed result) (wrap64 (errors result + 1)) (latencies_ns result)
  end.

(** The end of [run]: [taken] is the time since it started. *)
Definition load_run (connections : list JoinOutcome) (taken : Z) : LoadResult :=
  let result := foldl merge_one load_result_default connections in
  mkLoad taken (errors result) (merge_sort Z.le (latencies_ns result)).

(** The number of tasks [run] spawns. *)
Definition spawned (connections : Z) : Z := Z.max connections 1.

(** [Vec::with_capacity] of values of [size] bytes panics when they take more than
    [isize::MAX] bytes. *)
Definition capacity_overflow (size capacity : Z) : bool := 2 ^ 63 <=? size * capacity.
(** The size of a [JoinHandle]: a pointer. *)
Definition HANDLE_SIZE : Z := 8.

(** Spawning the tasks of a run and awaiting them all: the network the [i]th
    connection meets, whether its task panics, and a number of turns that is enough
    for every connection that ends. *)
Record LoadTasks (N : Type) := mkTasks { turns : nat; meets : nat -> N; panics : nat -> bool }.
Arguments mkTasks {N}.
Arguments turns {N}.
Arguments meets {N}.
Arguments panics {N}.
Class LoadHost (N : Type) := load_tasks : LoadSpec -> Z -> N -> LoadTasks N * N.

Section run.
Context `{Network Net, LoadHost Net} (show_status : Z -> str).

(** What the task of the [i]th connection comes to; the outer [None]: it never ends. *)
Definition task_outcome (spec : LoadSpec) (deadline : Z) (t : LoadTasks Net) (i : nat) : option JoinOutcome :=
  if panics t i then Some None
  else
    match fst (connection_loop show_status (turns t) spec deadline (meets t i)) with
    | Ok samples => Some (Some (Ok samples))
    | Err (Failed e) => Some (Some (Err e))
    | Err Panicked => Some None
    | Err Never => None
    end.

Definition outcomes (spec : LoadSpec) (deadline : Z) (t : LoadTasks Net) : option (list JoinOutcome) :=
  all_some (map (task_outcome spec deadline t) (seq 0 (Z.to_nat (spawned (connections spec))))).

(** [run], which returns no errors of its own.  It awaits the tasks in turn, so that
    one that never ends holds it up. *)
Definition run_load (spec : LoadSpec) : M Net (Result Failure LoadResult) :=
  let! started := instant_now in
  let deadline := started + duration spec in
  if (DURATION_MAX <? deadline) || capacity_overflow HANDLE_SIZE (connections spec) then mret (Err Panicked)
  else
    let! t := load_tasks spec deadline in
    match outcomes spec deadline t with
    | None => mret (Err Never)
    | Some joined =>
        let! ended := instant_now in
        mret (Ok (load_run joined (saturating_sub ended started)))
    end.
End run.

(** ** Facts *)

Lemma f64_as_usize_nonneg x : 0 <= f64_as_usize x.
Proof.
  destruct x as [s|[]| |[] m e]; try (vm_compute; congruence).
  cbn [f64_as_usize]. apply Z.min_glb; [vm_compute; congruence|].
  destruct (Z.leb_spec 0 e).
  - apply Z.mul_nonneg_nonneg; [lia|]. by apply Z.pow_nonneg.
  - apply Z.div_pos; [lia|]. apply Z.pow_pos_nonneg; lia.
Qed.

(** The samples of the connections that finished. *)
Definition finished (connections : list JoinOutcome) : list Z :=
  connections ≫= (fun c => match c with Some (Ok samples) => samples | _ => [] end).
Definition failed (c : JoinOutcome) : bool :=
  match c with Some (Ok _) => false | _ => true end.
Definition failures (connections : list JoinOutcome) : Z := zlen (List.filter failed connections).

Lemma merge_latencies connections r :
  latencies_ns (foldl merge_one r connections) = latencies_ns r ++ finished connections.
Proof.
  revert r. induction connections as [|c l IH]; intros r; cbn [foldl]; [by rewrite app_nil_r|].
  rewrite IH. destruct c as [[s|e]|]; [|done..]. cbn. by rewrite <- (assoc_L (++)).
Qed.

Lemma merge_errors connections r :
  in_u 64 (errors r + failures connections) -> 0 <= errors r ->
  errors (foldl merge_one r connections) = errors r + failures connections.
Proof.
  revert r. induction connections as [|c l IH]; intros r Hin Hr; unfold failures in *; cbn [List.filter foldl] in *.
  { change (zlen []) with 0. lia. }
  pose proof (zlen_nonneg (List.filter failed l)) as Hpos.
  assert (Hs : forall c, failed c = true -> merge_one r c = mkLoad (elapsed r) (wrap64 (errors r + 1)) (latencies_ns r))
    by (by intros [[]|]).
  destruct (failed c) eqn:Hc; rewrite ?zlen_cons in *.
  - rewrite (Hs c Hc), wrap_small by (unfold in_u in *; lia).
    rewrite IH; cbn [errors]; unfold in_u in *; lia.
  - destruct c as [[s|e]|]; [|done..]. by apply (IH (mkLoad (elapsed r) (errors r) (latencies_ns r ++ s))).
Qed.

(** A latency in milliseconds. *)
Definition ms (n : Z) : f64 := f64_div (f64_of n) (f64_of 1000000).

Lemma ms_mono a b : 0 <= a <= b -> b < 2 ^ 64 -> f64_le (ms a) (ms b) = true.
Proof.
  intros Hab Hb. assert (Hk : is_val (1000000 * UNIT) (f64_of 1000000)) by (apply f64_of_val; lia).
  assert (Hnum : forall n, 0 <= n < 2 ^ 64 -> number (ms n) /\ 0 <= rank (ms n)).
  { intros n Hn. destruct (Z.eq_dec n 0) as [->|Hn0]; [by vm_compute|].
    destruct (f64_of_u64 n ltac:(lia)) as (u & Hu & _).
    by destruct (f64_div_le _ _ _ _ Hu Hk ltac:(unfold UNIT; lia)) as (? & ? & ? & _). }
  destruct (Hnum a ltac:(lia)) as [[Va Na] Ra]. destruct (Hnum b ltac:(lia)) as [[Vb Nb] Rb].
  rewrite f64_le_rank by done. apply Z.leb_le. destruct (Z.eq_dec a 0) as [->|Ha0]; [done|].
  destruct (f64_of_u64 a ltac:(lia)) as (ua & Ha & _). destruct (f64_of_u64 b ltac:(lia)) as (ub & Hb' & _).
  apply (f64_div_mono ua ub _ _ _ _ Ha Hb' Hk).
  apply is_val_rank in Ha as [<- _], Hb' as [<- _]. apply f64_of_mono. lia.
Qed.

Lemma percentile_lookup r quantile :
  latencies_ns r <> [] ->
  let i := Z.min (f64_as_usize (f64_mul (f64_of (zlen (latencies_ns r))) quantile)) (zlen (latencies_ns r) - 1) in
  exists n, latencies_ns r !! Z.to_nat i = Some n /\ percentile_ms r quantile = Some (ms n).
Proof.
  intros Hne i.
  assert (Hp : percentile_ms r quantile = ms <$> (latencies_ns r !! Z.to_nat i)).
  { unfold percentile_ms, i. destruct (latencies_ns r); [done|]. by destruct (_ !! _). }
  assert (Hlen : 0 < zlen (latencies_ns r)).
  { destruct (latencies_ns r) as [|x l]; [done|]. rewrite zlen_cons. pose proof (zlen_nonneg l). lia. }
  pose proof (f64_as_usize_nonneg (f64_mul (f64_of (zlen (latencies_ns r))) quantile)) as Hi.
  destruct (lookup_lt_is_Some_2 (latencies_ns r) (Z.to_nat i)) as [n Hn]; [unfold i, zlen in *; lia|].
  exists n. split; [done|]. by rewrite Hp, Hn.
Qed.

Lemma Sorted_lookup_le l i j a b : Sorted Z.le l -> l !! i = Some a -> l !! j = Some b -> (i <= j)%nat -> a <= b.
Proof.
  intros Hs%Sorted_StronglySorted; [|intros x y z; lia]. revert i j.
  induction Hs as [|x l Hs IH Hx]; intros i j Hi Hj Hij; [done|].
  destruct i as [|i], j as [|j]; cbn in *; simplify_eq; [done| |lia|].
  - rewrite Forall_lookup in Hx. eauto.
  - eapply IH; eauto. lia.
Qed.

(** The two percentiles of a sample: the sample half way up, and the one with
    ninety-nine in a hundred below it. *)
Lemma percentiles_exact r :
  0 < zlen (latencies_ns r) < 2 ^ 46 -> Sorted Z.le (latencies_ns r) -> Forall (in_u 64) (latencies_ns r) ->
  let l := latencies_ns r in
  exists a b, l !! Z.to_nat (zlen l / 2) = Some a /\ l !! Z.to_nat (99 * zlen l / 100) = Some b /\
    percentile_ms r (f64_lit 1 2) = Some (ms a) /\ percentile_ms r (f64_lit 99 100) = Some (ms b) /\
    f64_le (ms a) (ms b) = true.
Proof.
  intros Hlen Hsort Hu l. fold l in Hlen, Hsort, Hu. assert (Hne : l <> []) by (intros E; rewrite E in Hlen; by destruct Hlen).
  destruct (percentile_lookup r (f64_lit 1 2) Hne) as (a & Ha & Pa).
  destruct (percentile_lookup r (f64_lit 99 100) Hne) as (b & Hb & Pb). fold l in Ha, Hb.
  exists a, b. rewrite f64_99_percent in Hb by done.
  rewrite f64_as_usize_half in Ha by lia. pose proof (Z.div_lt_upper_bound (zlen l) 2 (zlen l)).
  pose proof (Z.div_lt_upper_bound (99 * zlen l) 100 (zlen l)).
  rewrite Z.min_l in Ha, Hb by lia. do 4 (split; [done|]).
  rewrite Forall_lookup in Hu. pose proof (Hu _ _ Ha) as Ua. pose proof (Hu _ _ Hb) as Ub.
  assert (Hi : zlen l / 2 <= 99 * zlen l / 100).
  { apply Z.div_le_lower_bound; [lia|]. pose proof (Z.div_mod (zlen l) 2). pose proof (Z.mod_pos_bound (zlen l) 2). lia. }
  apply ms_mono; [|apply Ub]. split; [apply Ua|]. apply (Sorted_lookup_le l _ _ _ _ Hsort Ha Hb).
  apply Z2Nat.inj_le; [apply Z.div_pos; lia|apply Z.div_pos; lia|done].
Qed.

Lemma sum_between a b l : Forall (fun n => a <= n <= b) l -> a * zlen l <= foldr Z.add 0 l <= b * zlen l.
Proof.
  induction 1 as [|n l Hn _ IH]; [unfold zlen; cbn; lia|]. unfold zlen in *. cbn [foldr length]. lia.
Qed.

(** The mean is not rounded out of the range of the samples. *)
Lemma mean_between r a b :
  latencies_ns r <> [] -> 0 < a -> b < 2 ^ 53 -> Forall (fun n => a <= n <= b) (latencies_ns r) ->
  foldr Z.add 0 (latencies_ns r) < 2 ^ 53 ->
  f64_le (ms a) (mean_ms r) = true /\ f64_le (mean_ms r) (ms b) = true.
Proof.
  intros Hne Ha Hb Hl Hsum. pose proof (sum_between _ _ _ Hl) as Hbt. set (total := foldr Z.add 0 _) in *.
  assert (Hlen : 0 < zlen (latencies_ns r)) by (destruct (latencies_ns r); [done|unfold zlen; cbn [length]; lia]).
  set (len := zlen (latencies_ns r)) in *. assert (Hab : a <= b) by nia.
  assert (Emean : mean_ms r = f64_div (f64_div (f64_of total) (f64_of len)) (f64_of 1000000)).
  { assert (Ew : wrap 128 total = total) by (apply wrap_small; unfold in_u; nia).
    unfold mean_ms, total, len in *. destruct (latencies_ns r); [done|]. by rewrite Ew. }
  rewrite Emean. assert (HU : 0 < UNIT) by (unfold UNIT; lia).
  pose proof (f64_of_val total ltac:(nia)) as Ht. pose proof (f64_of_val len ltac:(nia)) as Hn.
  pose proof (f64_of_val a ltac:(lia)) as Va. pose proof (f64_of_val b ltac:(lia)) as Vb.
  pose proof (f64_of_val 1000000 ltac:(lia)) as Vk.
  destruct (f64_div_between _ _ _ _ _ _ Ht Hn Va) as [_ Hlo]. destruct (f64_div_between _ _ _ _ _ _ Ht Hn Vb) as [Hhi _].
  specialize (Hlo ltac:(nia)). specialize (Hhi ltac:(nia)).
  destruct (f64_div_le _ _ _ _ Ht Hn ltac:(nia)) as (Hv & Hnn & _).
  set (q := f64_div (f64_of total) (f64_of len)) in *.
  destruct (number_pos q (conj Hv Hnn) ltac:(nia)) as [E|Hq].
  { exfalso. rewrite E in Hhi. change (rank INFINITY) with (2 ^ 1024 * UNIT) in Hhi. nia. }
  destruct (f64_div_le _ _ _ _ Hq Vk ltac:(lia)) as (Vq & Nq & _).
  destruct (f64_div_le _ _ _ _ Va Vk ltac:(lia)) as (Va' & Na & _). destruct (f64_div_le _ _ _ _ Vb Vk ltac:(lia)) as (Vb' & Nb & _).
  unfold ms. rewrite !f64_le_rank by done. split; apply Z.leb_le.
  - by apply (f64_div_mono _ _ _ _ _ _ Va Hq Vk).
  - by apply (f64_div_mono _ _ _ _ _ _ Hq Vb Vk).
Qed.

Lemma load_run_facts connections taken :
  zlen connections < 2 ^ 64 ->
  let r := load_run connections taken in
  latencies_ns r ≡ₚ finished connections /\ Sorted Z.le (latencies_ns r) /\
  errors r = failures connections /\ elapsed r = taken.
Proof.
  intros Hlen. cbn zeta. unfold load_run.
  assert (Hf : 0 <= failures connections <= zlen connections).
  { split; [apply zlen_nonneg|]. unfold failures, zlen. pose proof (List.filter_length_le failed connections). lia. }
  rewrite merge_latencies, merge_errors by (unfold in_u; cbn; lia). cbn [latencies_ns errors elapsed load_result_default app].
  split; [apply merge_sort_Permutation|]. split; [apply (Sorted_merge_sort _)|done].
Qed.

Example percentile_p50 :
  percentile_ms (mkLoad 1000000000 0 (map (fun n => n * 1000000) (seqZ 1 100))) (f64_div (f64_of 1) (f64_of 2)) =
    Some (f64_of 51).
Proof. vm_compute. reflexivity. Qed.
(** ** What a connection measures *)

Section latencies.
Context `{Network Net, LoadHost Net} (show_status : Z -> str).

Definition samples_of (r : Result Failure (list Z)) : list Z :=
  match r with Ok l => l | _ => [] end.

Lemma request_loop_u64 fuel spec deadline l n :
  Forall (in_u 64) l -> Forall (in_u 64) (samples_of (fst (request_loop show_status fuel spec deadline l n))).
Proof.
  revert l n. induction fuel as [|fuel IH]; intros l n Hl; [by constructor|]. cbn [request_loop]. unfold mbind.
  destruct (instant_now n) as [t n1]. destruct (t <? deadline).
  - unfold mtry at 1, mbind at 1.
    destruct (one_request show_status spec n1) as [[x|e] n2] eqn:E; [|by constructor].
    apply IH, Forall_app. split; [done|]. constructor; [|done]. revert E.
    unfold one_request, await, returned, failing, mtry, mbind, mret.
    repeat (case_match; simplify_eq/=; try done). intros. simplify_eq. by apply wrap_in_u.
  - unfold returned, mtry, mbind, mret. by destruct (hang_up n1) as [[]].
Qed.

Lemma outcomes_u64 spec deadline t joined :
  outcomes show_status spec deadline t = Some joined -> Forall (in_u 64) (finished joined).
Proof.
  intros Hj%all_some_Some. apply Forall_forall. intros x (c & Hx & Hc)%list_elem_of_bind.
  assert (Hc' : Some c ∈ map Some joined) by by apply list_elem_of_fmap_2.
  rewrite <- Hj in Hc'. apply list_elem_of_fmap in Hc' as (i & Hi & _). unfold task_outcome in Hi.
  destruct (panics t i); [by injection Hi as ->; inversion Hx|].
  assert (Hf : Forall (in_u 64) (samples_of (fst (connection_loop show_status (turns t) spec deadline (meets t i))))).
  { unfold connection_loop, mtry, mbind. destruct (open_connection spec (meets t i)) as [[u|e] n1]; [|by constructor].
    apply request_loop_u64. by constructor. }
  destruct (fst _) as [l|[]]; simplify_eq; [|by inversion Hx..].
  cbn in Hf. rewrite Forall_forall in Hf. by apply Hf.
Qed.
End latencies.

(** ** Waiting for the server *)

Section ready_facts.
Context `{NetworkLaws Net} (show_status : Z -> str).

(** Time goes on through a composition. *)
Definition monotone {A} (m : M Net A) : Prop := forall n, time n <= time (snd (m n)).

Lemma monotone_ret {A} (x : A) : monotone (mret x).
Proof. intros n. cbn. lia. Qed.

Lemma monotone_bind {A B} (m : M Net A) (f : A -> M Net B) :
  monotone m -> (forall x, monotone (f x)) -> monotone (mbind m f).
Proof.
  intros Hm Hf n. unfold mbind. specialize (Hm n). destruct (m n) as [x n1]. cbn in Hm.
  specialize (Hf x n1). lia.
Qed.

Lemma monotone_returned {A} (m : M Net (option A)) : monotone m -> monotone (returned m).
Proof. intros Hm. apply monotone_bind; [done|]. intros r. apply monotone_ret. Qed.

Lemma monotone_failing {A} (m : M Net (Result str A)) : monotone m -> monotone (failing m).
Proof. intros Hm. apply monotone_bind; [done|]. intros r. apply monotone_ret. Qed.

Lemma monotone_try {E A B} (m : M Net (Result E A)) (f : A -> M Net (Result E B)) :
  monotone m -> (forall x, monotone (f x)) -> monotone (mtry m f).
Proof. intros Hm Hf. apply monotone_bind; [done|]. intros [x|e]; [done|apply monotone_ret]. Qed.

Lemma monotone_await {A} (m : M Net (option (Result str A))) : monotone m -> monotone (await m).
Proof. intros Hm. apply monotone_try; [by apply monotone_returned|]. intros r. apply monotone_ret. Qed.

Lemma single_request_monotone spec : monotone (single_request show_status spec).
Proof.
  unfold single_request.
  repeat first [apply monotone_ret|apply monotone_await|apply monotone_failing|apply monotone_returned
    |apply monotone_try; [|intros ?]|apply monotone_bind; [|intros ?]];
    intros n; first [apply tcp_connect_time|apply http_handshake_time|apply request_build_time
                    |apply send_request_time|apply collect_body_time|apply hang_up_time].
Qed.

Lemma single_request_calm spec n : fst (single_request show_status spec n) <> Err Panicked.
Proof.
  unfold single_request, await, returned, failing, or_failed, mtry, mbind, mret.
  repeat (case_match; simplify_eq/=; try done).
Qed.

(** A run of failed probes, each begun before the deadline, with their errors. *)
Inductive failed_probes (probe : LoadSpec) (deadline : Z) : Net -> list str -> Net -> Prop :=
  | no_probe n : failed_probes probe deadline n [] n
  | one_more n t n1 e n2 n3 errs n4 :
      instant_now n = (t, n1) -> t < deadline ->
      single_request show_status probe n1 = (Err (Failed e), n2) -> sleep PROBE_INTERVAL n2 = (tt, n3) ->
      failed_probes probe deadline n3 errs n4 ->
      failed_probes probe deadline n (e :: errs) n4.

(** How the loop ends when the clock shows [t]: by a probe, which answers or never
    returns, or past the deadline; [last] is the last error. *)
Definition probed (spec probe : LoadSpec) (deadline : Z) (last : option str) (t : Z) (n : Net)
    (r : Result Failure unit) (n' : Net) : Prop :=
  match r with
  | Ok _ | Err Never => t < deadline /\ single_request show_status probe n = (r, n')
  | Err (Failed e) => deadline <= t /\ n' = n /\ e = not_ready spec last
  | Err Panicked => False
  end.

Lemma ready_loop_turn fuel spec probe deadline last n t n1 :
  instant_now n = (t, n1) ->
  ready_loop show_status (S fuel) spec probe deadline last n =
    if t <? deadline then
      let '(r, n2) := single_request show_status probe n1 in
      match r with
      | Err (Failed e) =>
          ready_loop show_status fuel spec probe deadline (Some e) (snd (sleep PROBE_INTERVAL n2))
      | r => (r, n2)
      end
    else (Err (Failed (not_ready spec last)), n1).
Proof.
  intros Hnow. cbn [ready_loop]. unfold mbind at 1. rewrite Hnow. destruct (t <? deadline); [|done].
  unfold mbind at 1. destruct (single_request show_status probe n1) as [[u|[e| |]] n2]; try done.
  unfold mbind. by destruct (sleep PROBE_INTERVAL n2).
Qed.

Lemma ready_loop_spec fuel spec probe deadline last0 n :
  deadline <= time n + Z.of_nat fuel * PROBE_INTERVAL ->
  exists errs n1 t n2 r n',
    failed_probes probe deadline n errs n1 /\ instant_now n1 = (t, n2) /\
    ready_loop show_status (S fuel) spec probe deadline last0 n = (r, n') /\
    (errs <> [] -> (zlen errs - 1) * PROBE_INTERVAL < deadline - time n) /\
    probed spec probe deadline (match last errs with Some e => Some e | None => last0 end) t n2 r n'.
Proof.
  revert last0 n. induction fuel as [|fuel IH]; intros last0 n Hfuel;
    destruct (instant_now n) as [t n1] eqn:Hnow; pose proof (instant_now_time n) as Ht;
    rewrite Hnow in Ht; cbn [fst snd] in Ht.
  - exists [], n, t, n1, (Err (Failed (not_ready spec last0))), n1.
    split; [constructor|]. split; [done|]. rewrite (ready_loop_turn _ _ _ _ _ _ _ _ Hnow).
    rewrite (proj2 (Z.ltb_ge _ _)) by lia. repeat split; try done. lia.
  - destruct (Z.ltb_spec t deadline) as [Hlt|Hge].
    2: { exists [], n, t, n1, (Err (Failed (not_ready spec last0))), n1.
         split; [constructor|]. split; [done|]. rewrite (ready_loop_turn _ _ _ _ _ _ _ _ Hnow).
         by rewrite (proj2 (Z.ltb_ge _ _)) by lia. }
    pose proof (single_request_calm probe n1) as Hc. pose proof (single_request_monotone probe n1) as Hr.
    pose proof (ready_loop_turn (S fuel) spec probe deadline last0 n t n1 Hnow) as Hturn.
    rewrite (proj2 (Z.ltb_lt _ _) Hlt) in Hturn.
    destruct (single_request show_status probe n1) as [r n2] eqn:Hreq. cbn [fst snd] in Hc, Hr.
    destruct r as [[]|[e| |]]; [by exists [], n, t, n1, (Ok tt), n2; repeat split; try constructor| |done
      |by exists [], n, t, n1, (Err Never), n2; repeat split; try constructor].
    pose proof (sleep_time PROBE_INTERVAL n2 ltac:(done)) as Hs.
    destruct (sleep PROBE_INTERVAL n2) as [[] n3] eqn:Hsleep. cbn [snd] in Hs, Hturn.
    destruct (IH (Some e) n3) as (errs & n4 & t' & n5 & r & n' & Hp & Hn & Hrun & Hb & Hres);
      [rewrite Nat2Z.inj_succ in Hfuel; lia|].
    exists (e :: errs), n4, t', n5, r, n'. split; [by eapply one_more|]. split; [done|].
    split; [by rewrite Hturn|]. split.
    + intros _. rewrite zlen_cons. destruct errs as [|e' errs]; [change (zlen []) with 0; lia|].
      specialize (Hb ltac:(done)). lia.
    + rewrite last_cons. by destruct (last errs).
Qed.

(** When it ends in neither of the ways it reports. *)
Lemma wait_until_ready_done fuel spec timeout n :
  0 <= timeout <= Z.of_nat fuel * PROBE_INTERVAL ->
  match fst (wait_until_ready show_status (S fuel) spec timeout n) with
  | Ok _ | Err (Failed _) => True
  | Err Panicked => DURATION_MAX < fst (instant_now n) + timeout
  | Err Never => exists probe n1, fst (single_request show_status probe n1) = Err Never
  end.
Proof.
  intros Hfuel. pose proof (instant_now_time n) as Ht. unfold wait_until_ready, mbind.
  destruct (instant_now n) as [start n0]. cbn [fst snd] in *.
  destruct (Z.ltb_spec DURATION_MAX (start + timeout)); [done|]. cbv zeta.
  destruct (ready_loop_spec fuel spec (mkSpec (host spec) (port spec) (path spec) [] 1 0) (start + timeout) None n0)
    as (errs & n1 & t & n2 & r & n' & _ & _ & -> & _ & Hres); [lia|].
  cbn [fst]. destruct r as [|[]]; try done. destruct Hres as [_ Hs]. eexists _, n2. by rewrite Hs.
Qed.

(** C36. What the readiness probe waits for.  A timeout that reaches beyond what a
    clock can show panics.  Otherwise it makes a run of failed probes, fewer than
    one per 25 ms of the timeout and one more, each begun before the deadline, and
    then either the clock is past the deadline, and the answer is the error with
    the text of the last failure, or "no response" when no probe was made; or a
    probe begun before the deadline decides: when it succeeds the answer is [Ok],
    and when it never returns, since nothing limits the time of a request, neither
    does the wait.  It ends in every other case: the turns given are enough. *)
Theorem wait_until_ready_spec fuel spec timeout n :
  0 <= timeout <= Z.of_nat fuel * PROBE_INTERVAL ->
  let probe := mkSpec (host spec) (port spec) (path spec) [] 1 0 in
  exists start n0 r n',
    instant_now n = (start, n0) /\
    wait_until_ready show_status (S fuel) spec timeout n = (r, n') /\
    if DURATION_MAX <? start + timeout then r = Err Panicked /\ n' = n0
    else
      exists errs n1 t n2,
        failed_probes probe (start + timeout) n0 errs n1 /\ instant_now n1 = (t, n2) /\
        (zlen errs - 1) * PROBE_INTERVAL < Z.max timeout 1 /\
        match r with
        | Ok _ => t < start + timeout /\ single_request show_status probe n2 = (Ok tt, n')
        | Err (Failed e) => start + timeout <= t /\ n' = n2 /\ e = not_ready spec (last errs)
        | Err Never => t < start + timeout /\ single_request show_status probe n2 = (Err Never, n')
        | Err Panicked => False
        end.
Proof.
  intros Hfuel probe. destruct (instant_now n) as [start n0] eqn:Hnow.
  pose proof (instant_now_time n) as Ht. rewrite Hnow in Ht. cbn [fst snd] in Ht.
  unfold wait_until_ready, mbind at 1. rewrite Hnow. exists start, n0.
  destruct (DURATION_MAX <? start + timeout); [by exists (Err Panicked), n0|].
  destruct (ready_loop_spec fuel spec probe (start + timeout) None n0 ltac:(lia))
    as (errs & n1 & t & n2 & r & n' & Hp & Hn & Hrun & Hb & Hres).
  exists r, n'. split; [done|]. split; [exact Hrun|]. exists errs, n1, t, n2. do 2 (split; [done|]). split.
  { destruct errs as [|e errs]; [change (zlen []) with 0; unfold PROBE_INTERVAL; lia|].
    specialize (Hb ltac:(done)). lia. }
  destruct r as [[]|[e| |]]; cbn [probed] in Hres; try done.
  destruct Hres as (? & ? & ->). repeat split; try done. by destruct (last errs).
Qed.
End ready_facts.

(** ** A scripted network, for witnesses

    The clock moves one millisecond per call; what each call answers is read from a
    list, [None] for one that never returns, and everything succeeds when the list is
    empty. *)
Record ScriptNet := mkNet { net_time : Z; net_answers : list (option (Result str Z)) }.

Definition tick (n : ScriptNet) : ScriptNet := mkNet (net_time n + 1000000) (net_answers n).
Definition answer (n : ScriptNet) : option (Result str Z) * ScriptNet :=
  match net_answers n with
  | [] => (Some (Ok 200), tick n)
  | a :: l => (a, mkNet (net_time n + 1000000) l)
  end.
Definition answer_unit (n : ScriptNet) : option (Result str unit) * ScriptNet :=
  let '(r, n) := answer n in (result_map (fun _ => tt) <$> r, n).

#[export] Instance script_network : Network ScriptNet := {
  instant_now n := (net_time n, n);
  sleep d n := (tt, mkNet (net_time n + d) (net_answers n));
  tcp_connect _ := answer_unit;
  set_nodelay n := (Ok tt, n);
  http_handshake n := (Some (Ok tt), n);
  request_build _ n := (Ok tt, n);
  send_request _ := answer;
  collect_body n := (Some (Ok tt), n);
  hang_up n := (Some tt, n);
}.

Lemma answer_time n : net_time (answer n).2 = net_time n + 1000000.
Proof. unfold answer. by destruct (net_answers n). Qed.

#[export] Instance script_network_laws : NetworkLaws ScriptNet.
Proof.
  refine {| time := net_time |}; intros; cbn; try lia; unfold answer_unit;
    pose proof (answer_time n); try destruct (answer n); cbn in *; lia.
Defined.

Definition demo_spec : LoadSpec := mkSpec (lit "127.0.0.1") 8080 (lit "/bench/") [] 1 0.

(** The server refuses twice, then answers; or it accepts and never answers. *)
Lemma wait_until_ready_spec_witness :
  (exists r n', wait_until_ready (fun _ => []) 5 demo_spec 100000000
     (mkNet 0 [Some (Err (lit "refused")); Some (Err (lit "refused"))]) = (r, n') /\ r = Ok tt) /\
  fst (wait_until_ready (fun _ => []) 5 demo_spec 100000000 (mkNet 0 [Some (Ok 0); None])) = Err Never.
Proof.
  split; [|reflexivity].
  destruct (wait_until_ready_spec (fun _ => []) 4 demo_spec 100000000
    (mkNet 0 [Some (Err (lit "refused")); Some (Err (lit "refused"))]) ltac:(vm_compute; split; congruence))
    as (s & n0 & r & n' & _ & Hrun & _).
  exists r, n'. split; [exact Hrun|]. vm_compute in Hrun. congruence.
Defined.

(** ** A whole run *)

(** The turns are enough for every connection that ends. *)
Class LoadHostLaws N `{Network N, LoadHost N} :=
  load_turns show_status spec deadline n i fuel :
    let t := fst (load_tasks spec deadline n) in
    let c turns := fst (connection_loop show_status turns spec deadline (meets t i)) in
    Z.of_nat i < spawned (connections spec) -> c fuel <> Err Never -> c (turns t) = c fuel.

Section run_facts.
Context `{Network Net, LoadHost Net} (show_status : Z -> str).

Lemma run_load_ok spec n r n' :
  run_load show_status spec n = (Ok r, n') ->
  exists started n1 t n2 ended joined,
    instant_now n = (started, n1) /\ load_tasks spec (started + duration spec) n1 = (t, n2) /\ instant_now n2 = (ended, n') /\
    outcomes show_status spec (started + duration spec) t = Some joined /\
    r = load_run joined (saturating_sub ended started).
Proof.
  unfold run_load, mbind. destruct (instant_now n) as [started n1] eqn:E1.
  destruct (_ || _); [done|].
  destruct (load_tasks spec _ n1) as [t n2] eqn:E2. destruct (outcomes _ _ _ _) as [joined|] eqn:E4; [|done].
  destruct (instant_now n2) as [ended n3] eqn:E3. intros [= <- <-].
  by exists started, n1, t, n2, ended, joined.
Qed.

Lemma outcomes_length spec deadline t joined :
  outcomes show_status spec deadline t = Some joined -> zlen joined = spawned (connections spec).
Proof.
  intros Hj%all_some_Some%(f_equal length). rewrite !length_map, length_seq in Hj.
  unfold zlen, spawned in *. lia.
Qed.

Lemma outcomes_lookup spec deadline t joined i c :
  outcomes show_status spec deadline t = Some joined -> joined !! i = Some c ->
  task_outcome show_status spec deadline t i = Some c.
Proof.
  intros Hj Hi. apply all_some_Some in Hj. apply (f_equal (fun l => l !! i)) in Hj.
  rewrite !list_lookup_fmap, Hi in Hj.
  destruct (seq _ _ !! i) as [j|] eqn:Ei; [|done]. apply lookup_seq in Ei as [-> _]. by injection Hj.
Qed.

(** A task that never ends: it does not panic, and no number of turns is enough for
    its connection. *)
Definition never_ends (spec : LoadSpec) (deadline : Z) (t : LoadTasks Net) (i : nat) : Prop :=
  panics t i = false /\
  forall fuel, fst (connection_loop show_status fuel spec deadline (meets t i)) = Err Never.

Lemma outcomes_never `{!LoadHostLaws Net} spec deadline n t n' :
  load_tasks spec deadline n = (t, n') -> outcomes show_status spec deadline t = None ->
  exists i, Z.of_nat i < spawned (connections spec) /\ never_ends spec deadline t i.
Proof.
  intros Ht Hnone%all_some_None. apply list_elem_of_fmap in Hnone as (i & Hi & [_ Hlt]%elem_of_seq). exists i. split; [unfold spawned in *; lia|].
  symmetry in Hi. unfold task_outcome in Hi. unfold never_ends. destruct (panics t i); [done|]. split; [done|].
  intros fuel. pose proof (load_turns show_status spec deadline n i fuel) as Hl. rewrite Ht in Hl. cbn [fst] in Hl.
  destruct (fst (connection_loop show_status fuel spec deadline (meets t i))) as [x|[]] eqn:E; [..|done];
    rewrite Hl in Hi; unfold spawned in *; done || lia.
Qed.

(** When a run ends without a report. *)
Lemma run_load_fails `{!LoadHostLaws Net} spec n :
  match fst (run_load show_status spec n) with
  | Ok _ => True
  | Err (Failed _) => False
  | Err Panicked => DURATION_MAX < fst (instant_now n) + duration spec \/ 2 ^ 63 <= 8 * connections spec
  | Err Never => exists deadline n' i, Z.of_nat i < spawned (connections spec) /\
      never_ends spec deadline (fst (load_tasks spec deadline n')) i
  end.
Proof.
  unfold run_load, mbind, capacity_overflow, HANDLE_SIZE. destruct (instant_now n) as [started n1]. cbn [fst].
  destruct (Z.ltb_spec DURATION_MAX (started + duration spec)); [by left|].
  destruct (Z.leb_spec (2 ^ 63) (8 * connections spec)); [by right|]. cbn [orb].
  destruct (load_tasks spec (started + duration spec) n1) as [t n2] eqn:Ht.
  destruct (outcomes _ _ _ _) eqn:Hj; [by destruct (instant_now n2)|]. cbn [fst].
  destruct (outcomes_never _ _ _ _ _ Ht Hj) as (i & Hlt & Hi). exists (started + duration spec), n1, i. by rewrite Ht.
Qed.

(** What the report of a run says of what its connections came to. *)
Definition reports (joined : list JoinOutcome) (r : LoadResult) : Prop :=
  latencies_ns r ≡ₚ finished joined /\ Sorted Z.le (latencies_ns r) /\ errors r = failures joined /\
  (forall quantile, finished joined <> [] ->
     exists n, n ∈ finished joined /\ percentile_ms r quantile = Some (ms n)) /\
  (forall a b, finished joined <> [] -> 0 < a -> b < 2 ^ 53 -> Forall (fun n => a <= n <= b) (finished joined) ->
     foldr Z.add 0 (finished joined) < 2 ^ 53 ->
     f64_le (ms a) (mean_ms r) = true /\ f64_le (mean_ms r) (ms b) = true) /\
  let size := zlen (finished joined) in
  0 < size < 2 ^ 46 ->
  exists a b, latencies_ns r !! Z.to_nat (size / 2) = Some a /\
    latencies_ns r !! Z.to_nat (99 * size / 100) = Some b /\
    percentile_ms r (f64_lit 1 2) = Some (ms a) /\ percentile_ms r (f64_lit 99 100) = Some (ms b) /\
    f64_le (ms a) (ms b) = true.

Lemma load_run_reports joined taken :
  zlen joined < 2 ^ 64 -> Forall (in_u 64) (finished joined) -> reports joined (load_run joined taken).
Proof.
  intros Hlen Hu. destruct (load_run_facts joined taken Hlen) as (Hp & Hs & He & _). do 3 (split; [done|]).
  assert (Hz : zlen (latencies_ns (load_run joined taken)) = zlen (finished joined)) by (unfold zlen; by rewrite Hp).
  assert (Hnil : finished joined <> [] -> latencies_ns (load_run joined taken) <> []).
  { intros Hne E. rewrite E in Hp. by apply Permutation_nil_l in Hp. }
  split; [|split; [|intros size; subst size; rewrite <- Hz; intros Hsize; apply percentiles_exact; by rewrite ?Hp]].
  - intros q Hne. destruct (percentile_lookup (load_run joined taken) q) as (x & Hx & Hq); [by apply Hnil|].
    exists x. split; [|done]. rewrite <- Hp. by eapply list_elem_of_lookup_2.
  - intros a b Hne Ha Hb Hl Hsum. rewrite <- Hp in Hl.
    rewrite <- (foldr_permutation_proper' (=) Z.add 0 _ _ Hp) in Hsum. by apply mean_between; [apply Hnil|..].
Qed.

(** C35. A run, from the network to its report, whatever the network does.  It
    panics exactly when its deadline is beyond what a clock can show or the handles
    of its connections are more bytes than a vector can hold.  It never returns
    exactly when one of its [max(connections, 1)] connections, each a run of
    [connection_loop] of its own, never ends.  Otherwise it reports: the latencies
    are those of the connections that finished, each exactly once, in ascending
    order; every other connection, failed or panicked, adds one to the errors and
    nothing else, however many of its requests had been answered before; no
    connection is unaccounted for.  The percentile of a run with samples is one
    of its samples, in milliseconds, for every quantile, even one above 1,
    infinite or not a number; and the two the tool reports are, of up to 2^46
    samples, exactly the one half way up and the one ninety-nine hundredths of the
    way up, for all the rounding on the way, and the first is not above the second
    as a number.  The mean of samples of at least a nanosecond that add up to less
    than 2^53 of them lies between the least and the greatest, two roundings
    included; for larger sums nothing is said of it. *)
Theorem load_run_spec `{!LoadHostLaws Net} spec n :
  exists started n1,
    instant_now n = (started, n1) /\
    let deadline := started + duration spec in
    let '(t, n2) := load_tasks spec deadline n1 in
    let '(result, n') := run_load show_status spec n in
    let overflows := DURATION_MAX < deadline \/ 2 ^ 63 <= 8 * connections spec in
    match result with
    | Err Panicked => overflows /\ n' = n1
    | Err (Failed _) => False
    | Err Never => ~ overflows /\
        exists i, Z.of_nat i < Z.max (connections spec) 1 /\ never_ends spec deadline t i
    | Ok r => ~ overflows /\
        exists joined ended,
          instant_now n2 = (ended, n') /\ elapsed r = saturating_sub ended started /\
          zlen joined = Z.max (connections spec) 1 /\
          (forall i c, joined !! i = Some c -> task_outcome show_status spec deadline t i = Some c) /\
          reports joined r
    end.
Proof.
  destruct (instant_now n) as [started n1] eqn:Hnow. exists started, n1. split; [done|]. cbn zeta.
  destruct (load_tasks spec (started + duration spec) n1) as [t n2] eqn:Ht. unfold run_load, mbind. rewrite Hnow.
  unfold capacity_overflow, HANDLE_SIZE. destruct (Z.ltb_spec DURATION_MAX (started + duration spec)); [by cbn; auto|].
  destruct (Z.leb_spec (2 ^ 63) (8 * connections spec)); [by cbn; auto|]. cbn [orb]. rewrite Ht.
  assert (Hno : ~ (DURATION_MAX < started + duration spec \/ 2 ^ 63 <= 8 * connections spec)) by lia.
  destruct (outcomes show_status spec (started + duration spec) t) as [joined|] eqn:Hj.
  - destruct (instant_now n2) as [ended n3] eqn:He. cbn. split; [done|]. exists joined, ended.
    pose proof (outcomes_length _ _ _ _ Hj) as Hlen. do 3 (split; [done|]). split.
    { intros i c. by apply outcomes_lookup. }
    apply load_run_reports; [unfold spawned in Hlen; lia|by eapply outcomes_u64].
  - cbn. split; [done|]. by eapply outcomes_never.
Qed.
End run_facts.

(** ** Turns that are enough *)

Section turns.
Context `{NetworkLaws Net} (show_status : Z -> str).

Lemma open_connection_monotone spec : monotone (open_connection spec).
Proof.
  unfold open_connection.
  repeat first [apply monotone_await|apply monotone_failing|apply monotone_try; [|intros ?]];
    intros n; first [apply tcp_connect_time|apply set_nodelay_time|apply http_handshake_time].
Qed.

(** When each request takes at least [q], a turn per [q] is enough. *)
Context (q : Z).
Context (one_request_takes : forall spec n, time n + q <= time (snd (one_request show_status spec n))).

Lemma request_loop_turn fuel spec deadline l n t n1 :
  instant_now n = (t, n1) ->
  request_loop show_status (S fuel) spec deadline l n =
    if t <? deadline then
      let '(r, n2) := one_request show_status spec n1 in
      match r with
      | Ok x => request_loop show_status fuel spec deadline (l ++ [x]) n2
      | Err e => (Err e, n2)
      end
    else mtry (returned hang_up) (fun _ => mret (Ok l)) n1.
Proof.
  intros Hnow. cbn [request_loop]. unfold mbind at 1. rewrite Hnow. destruct (t <? deadline); [|done].
  unfold mtry, mbind. by destruct (one_request show_status spec n1) as [[x|e] n2].
Qed.

Lemma request_loop_turns fuel fuel' spec deadline latencies n :
  deadline <= time n + Z.of_nat fuel * q ->
  fst (request_loop show_status fuel' spec deadline latencies n) <> Err Never ->
  fst (request_loop show_status (S fuel) spec deadline latencies n) =
    fst (request_loop show_status fuel' spec deadline latencies n).
Proof.
  revert fuel' latencies n. induction fuel as [|fuel IH]; intros fuel' latencies n Hd Hne;
    (destruct fuel' as [|fuel']; [by destruct Hne|]); revert Hne;
    pose proof (instant_now_time n) as Ht; destruct (instant_now n) as [t n1] eqn:Hnow; cbn [fst snd] in Ht;
    rewrite !(request_loop_turn _ _ _ _ _ _ _ Hnow); destruct (Z.ltb_spec t deadline) as [|_]; try done; [lia|].
  pose proof (one_request_takes spec n1) as Htakes.
  destruct (one_request show_status spec n1) as [[x|e] n2]; [|done]. cbn [snd] in Htakes.
  rewrite Nat2Z.inj_succ in Hd. apply IH. lia.
Qed.

Lemma connection_loop_turns fuel fuel' spec deadline n :
  deadline <= time n + Z.of_nat fuel * q ->
  fst (connection_loop show_status fuel' spec deadline n) <> Err Never ->
  fst (connection_loop show_status (S fuel) spec deadline n) = fst (connection_loop show_status fuel' spec deadline n).
Proof.
  intros Hd. unfold connection_loop, mtry, mbind. pose proof (open_connection_monotone spec n) as Hm.
  destruct (open_connection spec n) as [[u|e] n1]; [|done]. cbn [snd] in Hm. apply request_loop_turns. lia.
Qed.
End turns.

(** One connection gets an error after an answer, the others finish; on the path "/hung"
    the second is never answered.  A request takes a millisecond. *)
Definition script_meets (spec : LoadSpec) (i : nat) : ScriptNet :=
  mkNet 0 (match i with
           | O => [Some (Ok 0); Some (Ok 200); Some (Ok 500)]
           | 1%nat => if bool_decide (path spec = lit "/hung") then [Some (Ok 0); Some (Ok 200); None] else []
           | _ => []
           end).
#[export] Instance script_tasks : LoadHost ScriptNet := fun spec deadline n =>
  (mkTasks (S (Z.to_nat (deadline / 1000000 + 1))) (script_meets spec) (fun _ => false),
   mkNet (net_time n + 7) (net_answers n)).

Lemma one_request_tick show_status spec n :
  time n + 1000000 <= time (snd (one_request show_status spec n)).
Proof.
  pose proof (answer_time n) as Ht. unfold one_request, await, returned, failing, mtry, mbind, mret.
  cbn [request_build instant_now send_request collect_body script_network or_failed time script_network_laws].
  destruct (answer n) as [[[x|e]|] n1]; cbn in *; [|lia..]. destruct (is_success x); cbn; lia.
Qed.

#[export] Instance script_tasks_laws : LoadHostLaws ScriptNet.
Proof.
  intros show_status spec deadline n i fuel. cbn zeta. cbn [load_tasks script_tasks turns meets fst]. intros _.
  apply (connection_loop_turns show_status 1000000 (one_request_tick show_status)).
  cbn [time script_network_laws script_meets net_time].
  pose proof (Z.div_mod deadline 1000000). pose proof (Z.mod_pos_bound deadline 1000000). lia.
Qed.

Definition demo_load (p : str) : LoadSpec := mkSpec (lit "h") 80 p [] 2 5000000.

(** A run that reports, and one that is never answered. *)
Lemma load_run_spec_witness :
  (exists r n', run_load (fun _ => lit "500") (demo_load (lit "/")) (mkNet 0 []) = (Ok r, n') /\
    errors r = 1 /\ elapsed r = 7 /\ exists joined, zlen joined = 2 /\ reports joined r) /\
  fst (run_load (fun _ => lit "500") (demo_load (lit "/hung")) (mkNet 0 [])) = Err Never.
Proof.
  split; [|vm_compute; reflexivity].
  destruct (load_run_spec (fun _ => lit "500") (demo_load (lit "/")) (mkNet 0 [])) as (s & n1 & Hs & Hr).
  injection Hs as <- <-. cbn [load_tasks script_tasks] in Hr.
  destruct (run_load (fun _ => lit "500") (demo_load (lit "/")) (mkNet 0 [])) as [[r|[]] n'] eqn:E;
    [|vm_compute in E; discriminate..].
  destruct Hr as (_ & joined & ended & He & Hel & Hlen & _ & Hrep). injection He as <- _.
  exists r, n'. split; [reflexivity|]. split; [|split; [exact Hel|by exists joined]].
  vm_compute in E. injection E as <- _. reflexivity.
Defined.
