(* ===== verification/BenchCpu.v ===== *)
(** * CPU accounting (tools/httpbench/src/cpu.rs)

    The handle of the measured process, its snapshots, and what is computed from
    two of them.  The three calls to the system are an interface. *)

From S2P Require Import Prelude RustStd Float64.
Set Warnings "-clear-no-such-hyp".

Record FILETIME := mkFileTime { dwLowDateTime : Z; dwHighDateTime : Z }.

(** [GetProcessTimes] fills four counters. *)
Record ProcessTimes := mkTimes { pt_creation : FILETIME; pt_exit : FILETIME; pt_kernel : FILETIME; pt_user : FILETIME }.

(** A handle is its value; an error is its text. *)
Class ProcessApi (P : Type) := {
  OpenProcess : Z -> P -> Result str Z * P;
  GetProcessTimes : Z -> P -> Result str ProcessTimes * P;
  CloseHandle : Z -> P -> unit * P;
  process_clock : P -> Z * P;
}.

(** [at] and [cpu], in nanoseconds. *)
Record CpuSnapshot := mkSnapshot { snap_at : Z; snap_cpu : Z }.

(** Ticks of 100 ns; the product is a [u64]. *)
Definition filetime_ticks (t : FILETIME) : Z :=
  Z.lor (wrap64 (Z.shiftl (dwHighDateTime t) 32)) (dwLowDateTime t).
Definition as_duration (t : FILETIME) : Z := wrap64 (filetime_ticks t * 100).

Section process.
Context `{ProcessApi P}.

Definition cpu_open (pid : Z) : M P (Result str Z) := OpenProcess pid.

Definition snapshot (handle : Z) : M P (Result str CpuSnapshot) :=
  let? times := GetProcessTimes handle in
  let! now := process_clock in
  mret (Ok (mkSnapshot now (as_duration (pt_kernel times) + as_duration (pt_user times)))).

Definition cpu_drop (handle : Z) : M P unit := CloseHandle handle.
End process.

Definition cpu_between (start stop : CpuSnapshot) : Z := saturating_sub (snap_cpu stop) (snap_cpu start).

(** [Instant::duration_since] gives zero for an instant that is not earlier. *)
Definition cores_between (start stop : CpuSnapshot) : f64 :=
  let wall := as_secs_f64 (saturating_sub (snap_at stop) (snap_at start)) in
  if f64_le wall (f64_of 0) then f64_of 0
  else f64_div (as_secs_f64 (cpu_between start stop)) wall.

(** ** Facts *)

Definition filetime_wf (t : FILETIME) : Prop := in_u 32 (dwLowDateTime t) /\ in_u 32 (dwHighDateTime t).

Lemma filetime_ticks_spec t :
  filetime_wf t -> filetime_ticks t = dwHighDateTime t * 2 ^ 32 + dwLowDateTime t.
Proof.
  intros [Hl Hh]. unfold filetime_ticks, in_u in *. rewrite Z.shiftl_mul_pow2 by lia.
  rewrite wrap_small by (unfold in_u; lia). rewrite <- Z.add_lor_land.
  enough (Z.land (dwHighDateTime t * 2 ^ 32) (dwLowDateTime t) = 0) as -> by lia.
  apply Z.bits_inj'. intros n Hn. rewrite Z.land_spec, Z.bits_0.
  destruct (Z.lt_ge_cases n 32) as [Hlt|Hge].
  - by rewrite Z.mul_pow2_bits_low by lia.
  - rewrite andb_comm. apply andb_false_iff. left.
    apply (Z.testbit_false _ _ Hn). rewrite Z.div_small; [done|].
    pose proof (Z.pow_le_mono_r 2 32 n). lia.
Qed.

(** The CPU time between two snapshots.  Counters below 2^64 / 100 ticks (about
    5,800 years) are converted exactly, both words included, and two snapshots of
    counters that did not go back differ by exactly the ticks of kernel and user
    time in between, 100 ns each; snapshots in the wrong order give zero, not an
    overflow. *)
Theorem cpu_between_spec k1 u1 k2 u2 at1 at2 :
  Forall filetime_wf [k1; u1; k2; u2] ->
  Forall (fun t => filetime_ticks t * 100 < 2 ^ 64) [k1; u1; k2; u2] ->
  let s1 := mkSnapshot at1 (as_duration k1 + as_duration u1) in
  let s2 := mkSnapshot at2 (as_duration k2 + as_duration u2) in
  let ticks t := dwHighDateTime t * 2 ^ 32 + dwLowDateTime t in
  cpu_between s1 s2 = Z.max 0 (100 * ((ticks k2 + ticks u2) - (ticks k1 + ticks u1))).
Proof.
  intros Hwf Hb. cbn zeta.
  assert (Hd : Forall (fun t => as_duration t = 100 * (dwHighDateTime t * 2 ^ 32 + dwLowDateTime t))
    [k1; u1; k2; u2]).
  { apply Forall_forall. intros t Ht. rewrite Forall_forall in Hwf, Hb.
    specialize (Hwf t Ht). specialize (Hb t Ht). unfold as_duration.
    rewrite filetime_ticks_spec in * by done. rewrite wrap_small; [lia|].
    destruct Hwf as [Hl Hh]. unfold in_u in *. lia. }
  rewrite !Forall_cons in Hd. destruct Hd as (E1 & E2 & E3 & E4 & _).
  unfold cpu_between, saturating_sub. cbn [snap_cpu]. rewrite E1, E2, E3, E4. lia.
Qed.

Lemma cpu_between_spec_witness :
  cpu_between (mkSnapshot 0 (as_duration (mkFileTime 10 1) + as_duration (mkFileTime 5 0)))
    (mkSnapshot 9 (as_duration (mkFileTime 0 2) + as_duration (mkFileTime 6 0))) = 100 * (2 ^ 32 - 9).
Proof.
  rewrite (cpu_between_spec (mkFileTime 10 1) (mkFileTime 5 0) (mkFileTime 0 2) (mkFileTime 6 0) 0 9);
    [reflexivity| |]; repeat constructor; vm_compute; congruence.
Defined.

(** Two words of the counter, and three cores' worth of time over two seconds. *)
Example cpu_tests :
  as_duration (mkFileTime 10000000 0) = 1000000000 /\
  as_duration (mkFileTime 0 1) = 2 ^ 32 * 100 /\
  cores_between (mkSnapshot 5 0) (mkSnapshot 2000000005 3000000000) = f64_lit 3 2 /\
  cores_between (mkSnapshot 5 0) (mkSnapshot 5 7) = f64_of 0.
Proof. vm_compute. repeat split. Qed.
