(* ===== verification/BenchChart.v ===== *)
(** * Charts (tools/httpbench/src/chart.rs)

    [Series], [Chart], the ranges of the axes ([bounds], [pad]), and what is drawn,
    in order, over an interface for the plotters crate. *)

From Stdlib Require Import Floats.SpecFloat.
From S2P Require Import Prelude RustStd Float64.
Set Warnings "-clear-no-such-hyp".
#[local] Open Scope Z_scope.
#[local] Open Scope rust_scope.

(** [RGBColor]. *)
Record RGBColor := mkRGB { red : Z; green : Z; blue : Z }.
Definition HTTPSYS_COLOR : RGBColor := mkRGB 0 114 198.
Definition AXUM_COLOR : RGBColor := mkRGB 214 73 55.

Record Series := mkSeries {
  series_name : str; series_color : RGBColor; dashed : bool; points : list (f64 * f64);
}.

Record Chart := mkChart {
  caption : str; subtitle : str; x_desc : str; y_desc : str; y_log : bool;
  x_format : f64 -> str; y_format : f64 -> str; series : list Series;
}.

Definition pad (min max : f64) (logarithmic : bool) (fallback : f64) : f64 * f64 :=
  if negb (is_finite min) || negb (is_finite max) then (f64_of 0, fallback)
  else if logarithmic then
    let min := f64_max min MIN_POSITIVE in
    let max := f64_max max (f64_mul min (f64_of 2)) in
    (f64_div min (f64_lit 135 100), f64_mul max (f64_lit 135 100))
  else if f64_lt (f64_abs (f64_sub max min)) EPSILON then
    (f64_sub min fallback, f64_add max fallback)
  else
    let margin := f64_mul (f64_sub max min) (f64_lit 8 100) in
    (f64_sub min margin, f64_add max margin).

Definition all_points (c : Chart) : list (f64 * f64) := flat_map points (series c).

Definition bounds (c : Chart) : Result str (f64 * f64 * f64 * f64) :=
  match all_points c with
  | [] => Err (lit "chart '" ++ caption c ++ lit "' has no data points")
  | _ =>
      let x_min := foldl f64_min INFINITY (map fst (all_points c)) in
      let x_max := foldl f64_max NEG_INFINITY (map fst (all_points c)) in
      let y_max := foldl f64_max NEG_INFINITY (map snd (all_points c)) in
      let y_min := foldl f64_min INFINITY (map snd (all_points c)) in
      let '(x_min, x_max) := (f64_div x_min (f64_lit 135 100), f64_mul x_max (f64_lit 135 100)) in
      let '(y_min, y_max) :=
        if y_log c then pad y_min y_max true (f64_of 1)
        else (f64_of 0, f64_mul y_max (f64_lit 108 100)) in
      Ok (x_min, x_max, y_min, y_max)
  end.

(** ** Drawing *)

Definition WIDTH : Z := 1100.
Definition HEIGHT : Z := 620.
Definition FONT : str := lit "Segoe UI".
Definition BLACK : RGBColor := mkRGB 0 0 0.

(** One call to plotters that can fail; the styles of the mesh and of the legend,
    which are constants, are left out. *)
Inductive DrawCall :=
  | Fill
  | DrawText (text : str) (font : str) (size : Z) (bold : bool) (color : RGBColor) (position : Z * Z)
  | BuildCartesian (x_min x_max : f64) (x_base : f64) (y_min y_max : f64) (y_log : bool)
  | Mesh (x_desc y_desc : str) (x_format y_format : f64 -> str) (x_labels y_labels : Z)
  | DashedLine (points : list (f64 * f64)) (color : RGBColor) (width : Z)
  | SolidLine (points : list (f64 * f64)) (color : RGBColor) (width : Z)
  | Markers (points : list (f64 * f64)) (color : RGBColor) (radius : Z) (name : str)
  | SeriesLabels
  | Present.

(** The SVG file at a path, of a size; an error is its text. *)
Class Plotters (P : Type) := plot : str -> Z * Z -> DrawCall -> P -> Result str unit * P.

Definition draw_series (s : Series) : list DrawCall :=
  [ (if dashed s then DashedLine (points s) (series_color s) 2 else SolidLine (points s) (series_color s) 3);
    Markers (points s) (series_color s) 4 (series_name s) ].

Definition draw (c : Chart) (x_min x_max y_min y_max : f64) : list DrawCall :=
  [ BuildCartesian x_min x_max (f64_of 2) y_min y_max (y_log c);
    Mesh (x_desc c) (y_desc c) (x_format c) (y_format c) 9 8 ] ++
  flat_map draw_series (series c) ++ [SeriesLabels].

(** Calls one after the other, up to the first error. *)
Fixpoint plot_all `{Plotters P} (path : str) (calls : list DrawCall) : M P (Result str unit) :=
  match calls with
  | [] => mret (Ok tt)
  | c :: calls => let? _ := plot path (WIDTH, HEIGHT) c in plot_all path calls
  end.

Definition render `{Plotters P} (c : Chart) (path : str) : M P (Result str unit) :=
  let? b := mret (bounds c) in
  let '(x_min, x_max, y_min, y_max) := b in
  plot_all path
    ([ Fill;
       DrawText (caption c) FONT 24 true BLACK (20, 16);
       DrawText (subtitle c) FONT 13 false (mkRGB 110 110 110) (20, 48) ] ++
     draw c x_min x_max y_min y_max ++ [Present]).

(** ** Facts *)

(** A fold of [f64::min] or [f64::max]: one of the numbers, and the extreme one. *)
Lemma fold_extreme (f : f64 -> f64 -> f64) (le : Z -> Z -> Prop) `{!PreOrder le} l x0 :
  (forall x y, number x -> number y -> number (f x y) /\ le (rank (f x y)) (rank x) /\
     le (rank (f x y)) (rank y) /\ (f x y = x \/ f x y = y)) ->
  number x0 -> Forall number l ->
  let m := foldl f x0 l in
  m ∈ x0 :: l /\ Forall (fun x => le (rank m) (rank x)) (x0 :: l).
Proof.
  intros Hf. revert x0. induction l as [|x l IH]; intros x0 H0 Hl; cbn [foldl].
  - split; [by apply elem_of_cons; left|]. by repeat constructor.
  - apply Forall_cons in Hl as [Hx Hl]. destruct (Hf x0 x H0 Hx) as (Hn & L1 & L2 & Hc).
    destruct (IH (f x0 x) Hn Hl) as (Hin & HF). apply Forall_cons in HF as [L HF].
    split; [|repeat constructor; [by etrans|by etrans|done]].
    apply elem_of_cons in Hin as [->|Hin]; [|by do 2 (apply elem_of_cons; right)].
    destruct Hc as [->|Hc]; [by apply elem_of_cons; left|rewrite Hc].
    apply elem_of_cons; right; by apply elem_of_cons; left.
Qed.

Definition finite_number (x : f64) : Prop := number x /\ is_finite x = true.

(** The two folds of [bounds] over finite data: the least and the greatest. *)
Lemma fold_min l :
  Forall finite_number l -> l <> [] ->
  let m := foldl f64_min INFINITY l in m ∈ l /\ Forall (fun x => rank m <= rank x) l.
Proof.
  intros Hl Hl0. destruct l as [|x l]; [done|]. apply Forall_cons in Hl as [[Hx Fx] Hl].
  cbn [foldl]. assert (f64_min INFINITY x = x) as ->.
  { pose proof (number_finite_rank x Hx Fx) as Hr. destruct Hx as [Vx Nx]. unfold f64_min.
    rewrite Nx, f64_lt_rank by done. by rewrite (proj2 (Z.ltb_lt _ _)) by apply Hr. }
  apply (fold_extreme f64_min Z.le).
  - intros y z Hy Hz. destruct (f64_min_number y z Hy Hz) as (? & ? & ?). split; [done|].
    split; [lia|]. split; [lia|done].
  - done.
  - eapply Forall_impl; [exact Hl|]. by intros ? [? _].
Qed.

Lemma fold_max l :
  Forall finite_number l -> l <> [] ->
  let m := foldl f64_max NEG_INFINITY l in m ∈ l /\ Forall (fun x => rank x <= rank m) l.
Proof.
  intros Hl Hl0. destruct l as [|x l]; [done|]. apply Forall_cons in Hl as [[Hx Fx] Hl].
  cbn [foldl]. assert (f64_max NEG_INFINITY x = x) as ->.
  { pose proof (number_finite_rank x Hx Fx) as Hr. destruct Hx as [Vx Nx]. unfold f64_max.
    rewrite Nx, f64_lt_rank by done. by rewrite (proj2 (Z.ltb_lt _ _)) by apply Hr. }
  apply (fold_extreme f64_max (flip Z.le)).
  - intros y z Hy Hz. destruct (f64_max_number y z Hy Hz) as (? & ? & ?). unfold flip. split; [done|].
    split; [lia|]. split; [lia|done].
  - done.
  - eapply Forall_impl; [exact Hl|]. by intros ? [? _].
Qed.

Lemma lit_val x m e :
  x = S754_finite false m e -> bounded 53 1024 m e = true -> is_val (units x) x.
Proof. intros -> Hb. by exists m, e. Qed.

(** The two factors, between one and two. *)
Lemma factor_135 : exists v, is_val v (f64_lit 135 100) /\ UNIT <= v <= 2 * UNIT.
Proof.
  exists (units (f64_lit 135 100)). split; [|vm_compute; split; congruence].
  eapply lit_val; vm_compute; reflexivity.
Qed.
Lemma factor_108 : exists v, is_val v (f64_lit 108 100) /\ UNIT <= v <= 2 * UNIT.
Proof.
  exists (units (f64_lit 108 100)). split; [|vm_compute; split; congruence].
  eapply lit_val; vm_compute; reflexivity.
Qed.

Lemma MIN_POSITIVE_val : is_val (2 ^ 52) MIN_POSITIVE.
Proof. by exists (2 ^ 52)%positive, (-1074). Qed.

Lemma finite_pos_val x : finite_number x -> 0 < rank x -> is_val (rank x) x.
Proof. intros [Hn Hf] Hr. by destruct (number_pos x Hn Hr) as [->|]. Qed.

(** A logarithmic range of finite numbers: positive, and around every number that
    is not below the smallest normal one. *)
Lemma pad_log lo hi fallback :
  finite_number lo -> finite_number hi ->
  let '(a, b) := pad lo hi true fallback in
  number a /\ number b /\ 0 < rank a /\
  (forall y, rank lo <= rank y <= rank hi -> 2 ^ 52 <= rank y -> rank a <= rank y <= rank b).
Proof.
  intros [Hlo Flo] [Hhi Fhi]. unfold pad. rewrite Flo, Fhi. cbn [negb orb].
  destruct factor_135 as (v & Hv & Hv1).
  destruct (is_val_rank _ _ MIN_POSITIVE_val) as (Rm & Vm & Nm & _).
  destruct (f64_max_number lo MIN_POSITIVE Hlo ltac:(done)) as (Hlo' & Rlo & Clo).
  set (lo' := f64_max lo MIN_POSITIVE) in *. rewrite Rm in Rlo.
  assert (Flo' : finite_number lo') by (split; [done|]; by destruct Clo as [-> | ->]).
  pose proof (finite_pos_val lo' Flo' ltac:(lia)) as Vlo.
  destruct (f64_mul_ge_number (2 * UNIT) lo' (f64_of 2) Hlo' ltac:(lia)) as [Hdbl Rdbl];
    [apply (f64_of_val 2); lia|unfold UNIT; lia|].
  destruct (f64_max_number hi (f64_mul lo' (f64_of 2)) Hhi Hdbl) as (Hhi' & Rhi & _).
  set (hi' := f64_max hi (f64_mul lo' (f64_of 2))) in *.
  destruct (f64_mul_ge_number v hi' (f64_lit 135 100) Hhi' ltac:(lia) Hv ltac:(lia)) as [Hb Rb].
  destruct (f64_div_le _ _ lo' (f64_lit 135 100) Vlo Hv ltac:(lia)) as (Va & Na & Ra).
  pose proof (f64_div_ge _ _ lo' (f64_lit 135 100) Vlo Hv ltac:(lia) ltac:(lia)) as Hpos.
  split; [done|]. split; [done|]. split; [lia|]. intros y Hy Hmin. lia.
Qed.

(** The horizontal range, 1.35 times to either side of the data. *)
Lemma x_range_ok xs :
  xs <> [] -> Forall (fun x => finite_number x /\ 0 < rank x) xs ->
  Forall (fun x => rank (f64_div (foldl f64_min INFINITY xs) (f64_lit 135 100)) <= rank x <=
    rank (f64_mul (foldl f64_max NEG_INFINITY xs) (f64_lit 135 100))) xs.
Proof.
  intros Hne Hxs. assert (Hf : Forall finite_number xs) by (by eapply Forall_impl; [exact Hxs|intros ? []]).
  destruct (fold_min _ Hf Hne) as [Il Ll]. destruct (fold_max _ Hf Hne) as [Ih Lh].
  rewrite Forall_forall in Hxs. rewrite Forall_forall in Ll. rewrite Forall_forall in Lh.
  destruct factor_135 as (v & Hv & Hv1). destruct (Hxs _ Il) as [Fl Pl]. destruct (Hxs _ Ih) as [Fh Ph].
  destruct (f64_div_le _ _ _ _ (finite_pos_val _ Fl Pl) Hv ltac:(lia)) as (_ & _ & Hl).
  destruct (f64_mul_ge_number v _ (f64_lit 135 100) (proj1 Fh) Ph Hv ltac:(lia)) as [_ Hh].
  apply Forall_forall. intros x Hx. specialize (Ll _ Hx). specialize (Lh _ Hx). cbn beta in *. lia.
Qed.

(** The top of a linear vertical range, 1.08 times the data. *)
Lemma y_top_ok y : finite_number y -> 0 <= rank y -> rank y <= rank (f64_mul y (f64_lit 108 100)).
Proof.
  intros Hf Hr. destruct factor_108 as (v & Hv & Hv1). destruct (Z.eq_dec (rank y) 0) as [E|E].
  - destruct Hf as [[Vy _] Fy]. destruct y as [s| | |s m e]; try done.
    exfalso. apply bounded_spec in Vy as (_ & He & _). pose proof (units_pos m e ltac:(lia)).
    cbn [rank units] in E. destruct s; cbn [cond_Zopp] in E; lia.
  - apply (f64_mul_ge_number v y (f64_lit 108 100)); [apply Hf|lia|done|lia].
Qed.

(** The axes of a chart.  Without data there is an error and no panic.  With
    finite data, positive on the horizontal axis, the horizontal range has every
    point inside; a linear vertical axis starts at zero and, over data that is
    not negative, has every point inside; a logarithmic one stays above zero even
    when the data does not, and has every point inside that is not below the
    smallest normal number. *)
Theorem bounds_spec c :
  let ps := all_points c in
  Forall (fun p => finite_number p.1 /\ 0 < rank p.1 /\ finite_number p.2 /\ 0 <= rank p.2) ps ->
  match bounds c with
  | Err e => ps = [] /\ e = lit "chart '" ++ caption c ++ lit "' has no data points"
  | Ok (x0, x1, y0, y1) =>
      ps <> [] /\
      Forall (fun p => rank x0 <= rank p.1 <= rank x1) ps /\
      if y_log c then
        0 < rank y0 /\ Forall (fun p => 2 ^ 52 <= rank p.2 -> rank y0 <= rank p.2 <= rank y1) ps
      else rank y0 = 0 /\ Forall (fun p => rank y0 <= rank p.2 <= rank y1) ps
  end.
Proof.
  cbn zeta. intros Hps. unfold bounds. destruct (all_points c) as [|p0 ps'] eqn:Hall; [done|].
  rewrite <- Hall in Hps |- *. assert (Hne : all_points c <> []) by (rewrite Hall; done).
  set (ps := all_points c) in *. clearbody ps. clear Hall.
  rewrite Forall_forall in Hps.
  assert (Hmap : forall f : f64 * f64 -> f64, map f ps <> []) by (intros f; by destruct ps).
  assert (Hx : Forall (fun x => finite_number x /\ 0 < rank x) (map fst ps)).
  { change (map fst ps) with (fst <$> ps). apply Forall_fmap, Forall_forall. intros p Hp. by destruct (Hps p Hp) as (? & ? & _). }
  assert (Hfy : Forall finite_number (map snd ps)).
  { change (map snd ps) with (snd <$> ps). apply Forall_fmap, Forall_forall. intros p Hp. apply (Hps p Hp). }
  apply x_range_ok in Hx; [|apply Hmap]. change (map fst ps) with (fst <$> ps) in Hx. apply Forall_fmap in Hx.
  destruct (fold_min _ Hfy (Hmap _)) as [Iyl Lyl]. destruct (fold_max _ Hfy (Hmap _)) as [Iyh Lyh].
  set (yl := foldl f64_min INFINITY (map snd ps)) in *.
  set (yh := foldl f64_max NEG_INFINITY (map snd ps)) in *.
  rewrite Forall_forall in Hfy, Lyl, Lyh.
  assert (Hy : forall p, p ∈ ps -> rank yl <= rank p.2 <= rank yh).
  { intros p Hp. assert (p.2 ∈ map snd ps) as Hin by (by apply (list_elem_of_fmap_2 snd)).
    specialize (Lyl _ Hin). specialize (Lyh _ Hin). done. }
  destruct (y_log c).
  - pose proof (pad_log yl yh (f64_of 1) (Hfy _ Iyl) (Hfy _ Iyh)) as Hpad.
    destruct (pad yl yh true (f64_of 1)) as [a b]. destruct Hpad as (_ & _ & Ha & Hab).
    repeat (split; [done|]). apply Forall_forall. intros p Hp Hmin. apply Hab; [by apply Hy|done].
  - repeat (split; [done|]). apply Forall_forall. intros p Hp.
    change (rank (f64_of 0)) with 0. split; [apply (Hps p Hp)|]. etrans; [by apply Hy|].
    apply y_top_ok; [apply (Hfy _ Iyh)|]. apply list_elem_of_fmap in Iyh as (q & -> & Hq). apply (Hps q Hq).
Qed.

(** A chart over two points, with a logarithmic axis. *)
Definition demo_chart (log : bool) : Chart :=
  mkChart (lit "latency") [] [] [] log (fun _ => []) (fun _ => [])
    [mkSeries (lit "httpsys") HTTPSYS_COLOR false [(f64_of 1, f64_lit 1 2); (f64_of 8, f64_of 40)]].

Lemma bounds_spec_witness :
  exists x0 x1 y0 y1, bounds (demo_chart true) = Ok (x0, x1, y0, y1) /\ 0 < rank y0.
Proof.
  pose proof (bounds_spec (demo_chart true)) as Hb. cbn zeta in Hb.
  destruct (bounds (demo_chart true)) as [[[[x0 x1] y0] y1]|e] eqn:E; [|vm_compute in E; discriminate].
  exists x0, x1, y0, y1. split; [reflexivity|].
  destruct Hb as (_ & _ & Hy & _); [|exact Hy].
  repeat constructor; vm_compute; congruence.
Defined.

(** Data that is not finite puts a logarithmic axis at zero. *)
Lemma pad_not_finite lo hi fallback :
  is_finite lo = false \/ is_finite hi = false -> pad lo hi true fallback = (f64_of 0, fallback).
Proof. intros [H|H]; unfold pad; rewrite H; [done|]. by rewrite orb_true_r. Qed.
