(* ===== verification/BenchServers.v ===== *)
(** * The servers under test (tools/httpbench/src/servers.rs)

    The engines, the two paths, the server on the crate of this workspace composed
    from [Server] and [Request], and the application of the other one over an
    interface for axum and tokio. *)

From S2P Require Import Prelude RustStd Errors Crates HttpApi Buffer Overlapped Iocp Response Queue.
From S2P Require Import Request Init Server.
Set Warnings "-clear-no-such-hyp".

(** ** Engines and paths *)

Inductive Engine := Httpsys | Axum.
#[export] Instance Engine_eq_dec : EqDecision Engine.
Proof. solve_decision. Defined.

Definition label (e : Engine) : str :=
  match e with Httpsys => lit "httpsys" | Axum => lit "axum" end.

Definition BENCH_PATH : str := lit "/bench/".
Definition SLASH : Z := 47.

Definition shutdown_path (bench_path : str) : str :=
  let parent :=
    match rsplit_once SLASH (trim_end_matches (fun c => c =? SLASH) bench_path) with
    | Some (head, _) => head
    | None => []
    end in
  parent ++ lit "/shutdown/".

Definition ERROR_ACCESS_DENIED : Z := 5.

(** [url_acl_hint]; [show] is the error's [Display]. *)
Definition url_acl_hint (show : Error -> str) (error : Error) (port : Z) (path : str) : str :=
  let url := lit "http://+:" ++ show_uint port in
  if bool_decide (win32_code error = Some ERROR_ACCESS_DENIED) then
    lit "cannot reserve " ++ url ++ path ++ lit " (" ++ show error ++ lit ")." ++ [10] ++
    lit "Either run once as administrator:" ++ [10] ++
    lit "    netsh http add urlacl url=" ++ url ++ lit "/ user=Everyone" ++ [10] ++
    lit "or reuse the reservation every user already has:" ++ [10] ++
    lit "    --port 80 --path /Temporary_Listen_Addresses/bench/"
  else lit "cannot reserve " ++ url ++ path ++ lit ": " ++ show error.

Definition REPLY : str := lit "OK".
Definition REPLY_CONTENT_TYPE : str := lit "text/plain; charset=utf-8".

Record ServeOptions := mkServeOptions { so_request_buffer_bytes : Z; so_kernel_cache : bool }.

(** ** The httpsys handlers *)

(** The kernel, and the messages waiting in the channel that stops the server. *)
Record Outside (K : Type) := mkOutside { out_kern : K; stop_messages : nat }.
Arguments mkOutside {K}.
Arguments out_kern {K}.
Arguments stop_messages {K}.

(** A call to the kernel leaves the channel alone. *)
Definition on_kern {K X} (f : K -> X * K) (o : Outside K) : X * Outside K :=
  let '(x, k) := f (out_kern o) in (x, mkOutside k (stop_messages o)).

#[export] Instance outside_http_sys `{HttpSys K R} : HttpSys (Outside K) R := {
  HttpReceiveHttpRequest o id flags len target :=
    on_kern (fun k => HttpReceiveHttpRequest k id flags len target) o;
  HttpReceiveRequestEntityBody o id n := on_kern (fun k => HttpReceiveRequestEntityBody k id n) o;
  HttpSendHttpResponse o id r policy := on_kern (fun k => HttpSendHttpResponse k id r policy) o;
  HttpShutdownRequestQueue o := on_kern HttpShutdownRequestQueue o;
  stop_requested o := stop_requested (out_kern o);
}.

#[export] Program Instance outside_entity_body `{EntityBody K skip} : EntityBody (Outside K) skip := {
  remaining o id := remaining (out_kern o) id;
}.
Next Obligation.
  intros K ? skip ? [k c] id n Hn Hk. cbn in *.
  destruct (entity_body_end k id n Hn Hk) as (a & data & k' & Hc & Hr & Hk').
  exists a, data, (mkOutside k' c). unfold on_kern. cbn. by rewrite Hc.
Qed.
Next Obligation.
  intros K ? skip ? [k c] id n Hn Hk. cbn in *.
  destruct (entity_body_data k id n Hn Hk) as (a & m & k' & Hc & Hr).
  exists a, m, (mkOutside k' c). unfold on_kern. cbn. by rewrite Hc.
Qed.

Definition bench_response (kernel_cache : bool) : Response :=
  let response :=
    with_body (with_content_type (response_new status.OK) REPLY_CONTENT_TYPE) (as_bytes REPLY) in
  if kernel_cache then cache_in_kernel_for_secs response 60 else response.

Section handlers.
Context `{ArrayQueue Q} `{VecAlloc} `{AtomicWaker W AW} `{HttpSys K (option View)} (skip : bool).

(** The bench handler; a body that cannot be read is reported on the standard error
    stream only.  [None]: the body needs more turns. *)
Definition bench_request (fuel : nat) (kernel_cache : bool) (b : RequestBuffer) :
    M (World Q AW (Outside K)) (option Response) :=
  let! r := Request.body skip fuel b in
  match r with
  | None => mret None
  | Some r =>
      let! _ := match r with Ok x => body_value_drop x | Err _ => mret tt end in
      mret (Some (bench_response kernel_cache))
  end.

(** As a handler; where the fuel is not enough, it stands for any response. *)
Definition bench_handler (fuel : nat) (kernel_cache : bool) : Handler (Q := Q) (AW := AW) (K := Outside K) :=
  fun b => let! r := bench_request fuel kernel_cache b in mret (default response_default r).

(** [stop_tx.send(())]; the receiver outlives the server's threads. *)
Definition stop_send : M (World Q AW (Outside K)) unit :=
  mmodify (fun w => mkWorld (mkOutside (out_kern (w_kern w)) (S (stop_messages (w_kern w))))
    (w_heap w) (w_bodies w)).

Definition shutdown_handler : Handler (Q := Q) (AW := AW) (K := Outside K) :=
  fun _ => let! _ := stop_send in mret (ok_text (as_bytes REPLY)).
End handlers.

(** [stop_rx.recv()]: [None] while it has to wait. *)
Definition stop_recv {K} (o : Outside K) : option (Outside K) :=
  match stop_messages o with
  | O => None
  | S n => Some (mkOutside (out_kern o) n)
  end.

(** ** The httpsys server *)

Section serve.
Context {Hd : Type} (show : Error -> str).
Context (parallelism : option Z).

Definition bench_config (options : ServeOptions) : ServerConfig :=
  let d := config_default parallelism in
  mkConfig (concurrency d) (io_threads d) (so_request_buffer_bytes options) (max_request_buffer_bytes d)
    (queue_length d) (max_pooled_body_bytes d) (shutdown_timeout d).

(** One of the two routes: an error drops the builder. *)
Definition bench_route (b : ServerBuilder Hd) (port : Z) (path prefix : str) (handler : Hd) (ec : Z) :
    M Os (Result str (ServerBuilder Hd)) :=
  let! (r, b) := route b (lit "http://+:" ++ show_uint port ++ prefix) handler ec in
  match r with
  | Ok _ => mret (Ok b)
  | Err e =>
      let! _ := builder_drop b in mret (Err (url_acl_hint show e port path))
  end.

(** [serve_httpsys] up to [run]. *)
Definition serve_httpsys_build (port : Z) (path : str) (options : ServeOptions) (bench shutdown : Hd)
    (ba : BuildAnswers) (ec1 ec2 : Z) : M Os (Result str (ServerBuilder Hd)) :=
  let! r := with_config (bench_config options) ba in
  let? b := mret (match r with Ok b => Ok b | Err e => Err (show e) end) in
  let? b := bench_route b port path path bench ec1 in
  bench_route b port path (shutdown_path path) shutdown ec2.

(** The calls of [run] and of what ends it, in their order: the server's thread gives
    its reference to the queue back before [join] returns.  That the stop message
    comes and that the joins return is taken for granted here; [BenchServing] has the
    wait, and when it does not end. *)
Definition serve_httpsys (port : Z) (path : str) (options : ServeOptions) (bench shutdown : Hd)
    (ba : BuildAnswers) (ec1 ec2 : Z) : M Os (Result str unit) :=
  let? b := serve_httpsys_build port path options bench shutdown ba ec1 ec2 in
  let! _ := run_start b in
  let! _ := serve_end b in
  let! _ := handles_drop b in
  mret (Ok tt).
End serve.

(** ** The axum server *)

(** What a handler returns: a pair that implements [IntoResponse]. *)
Record AxumReply := mkAxumReply { ax_headers : list (str * str); ax_body : str }.
Definition CONTENT_TYPE : str := lit "content-type".
Definition axum_reply : AxumReply := mkAxumReply [(CONTENT_TYPE, REPLY_CONTENT_TYPE)] REPLY.

(** [bench] takes the whole body as an argument. *)
Definition axum_bench (body : bytes) : AxumReply := axum_reply.

(** The shutdown handler: the sender under its mutex, and whether it sends. *)
Definition axum_shutdown (stop_tx : option unit) : AxumReply * option unit * bool :=
  match stop_tx with
  | Some _ => (axum_reply, None, true)
  | None => (axum_reply, None, false)
  end.

Inductive AxumHandler := AxumBench | AxumShutdown.
Record AxumApp := mkApp { app_routes : list (str * AxumHandler); app_body_limit : bool }.
Definition axum_app (path : str) : AxumApp :=
  mkApp [(path, AxumBench); (shutdown_path path, AxumShutdown)] false.

(** Tokio and axum: an error is its text. *)
Class AxumHost (Host : Type) := {
  runtime_build : Host -> Result str unit * Host;
  tcp_bind : str -> Z -> Host -> Result str unit * Host;
  (** [axum::serve] on the listener until the stop message, with [TCP_NODELAY] set on
      every connection when the flag says so *)
  axum_run : AxumApp -> bool -> Host -> Result str unit * Host;
}.

Definition serve_axum `{AxumHost Host} (port : Z) (path : str) : M Host (Result str unit) :=
  let? _ := tcp_bind (lit "0.0.0.0") port in
  axum_run (axum_app path) true.

(** An operation on one half of a pair of worlds. *)
Definition on_fst {A B X} (m : M A X) : M (A * B) X := fun '(a, b) => let '(x, a) := m a in (x, (a, b)).
Definition on_snd {A B X} (m : M B X) : M (A * B) X := fun '(a, b) => let '(x, b) := m b in (x, (a, b)).

Definition serve {Hd} `{AxumHost Host} (show : Error -> str) (parallelism : option Z) (engine : Engine)
    (port : Z) (path : str) (options : ServeOptions) (bench shutdown : Hd) (ba : BuildAnswers)
    (ec1 ec2 : Z) : M (Os * Host) (Result str unit) :=
  match engine with
  | Httpsys => on_fst (serve_httpsys show parallelism port path options bench shutdown ba ec1 ec2)
  | Axum =>
      let? _ := on_snd runtime_build in
      on_snd (serve_axum port path)
  end.

(** ** The life of the httpsys server *)

Section serve_facts.
Context {Hd : Type} (show : Error -> str) (parallelism : option Z).
Implicit Type b : ServerBuilder Hd.

Lemma bench_route_spec b port path prefix handler ec s :
  in_state (built (sb_group b)) 2 1 s ->
  let '(r, s') := bench_route show b port path prefix handler ec s in
  if ec =? 0 then
    exists b', r = Ok b' /\ in_state (built (sb_group b')) 2 1 s' /\
      sb_session b' = sb_session b /\ sb_group b' = sb_group b /\
      sb_routes b' = <[sb_next_id b := handler]> (sb_routes b) /\
      sb_next_id b' = wrap64 (sb_next_id b + 1) /\
      os_log s' = os_log s ++ [(HttpAddUrlToUrlGroup (g_id (sb_group b))
        (normalize_prefix (lit "http://+:" ++ show_uint port ++ prefix)) (sb_next_id b), 0)]
  else r = Err (url_acl_hint show (Win32 ec) port path) /\ broken s'.
Proof.
  intros Hs. set (url := lit "http://+:" ++ show_uint port ++ prefix).
  destruct (route_state b url handler ec _ _ _ s Hs) as (Hs' & _).
  unfold bench_route, mbind at 1. fold url. rewrite route_eq in Hs' |- *. cbn [fst snd] in Hs'.
  unfold check. destruct (Z.eqb_spec ec 0) as [->|Hec].
  - eexists. split; [done|]. split; [exact Hs'|]. auto.
  - unfold mbind. set (b' := mkBuilder _ _ _ _ _ _) in *. set (s' := mkOs _ _ _) in *.
    pose proof (builder_drop_broken b' s' Hs') as Hb. by destruct (builder_drop b' s').
Qed.

(** C37. [serve_httpsys] on every branch.  When the server cannot be built the error is
    shown and nothing more is done.  When the kernel refuses a prefix, the first
    or the second, the hint is about the bench path and the builder is dropped,
    with the API terminated before the handles are closed.  Otherwise exactly the
    two prefixes are registered, the path of the caller with context 1 for the
    bench handler and its sibling with context 2 for the shutdown handler, and
    once the server has stopped every handle is closed, in order.  Whether it stops
    is the matter of [BenchServing]. *)
Theorem serve_httpsys_spec port path options (bench shutdown : Hd) ba ec1 ec2 :
  let build := serve_httpsys_build show parallelism port path options bench shutdown ba ec1 ec2 os_start in
  let '(r, s) := serve_httpsys show parallelism port path options bench shutdown ba ec1 ec2 os_start in
  match with_config (Hd := Hd) (bench_config parallelism options) ba os_start with
  | (Err e, s0) => r = Err (show e) /\ s = s0
  | (Ok b, s0) =>
      if negb (ec1 =? 0) then r = Err (url_acl_hint show (Win32 ec1) port path) /\ broken s
      else if negb (ec2 =? 0) then r = Err (url_acl_hint show (Win32 ec2) port path) /\ broken s
      else
        r = Ok tt /\ holds [] (os_log s) = Some [] /\
        let add path context := (HttpAddUrlToUrlGroup (g_id (sb_group b))
          (normalize_prefix (lit "http://+:" ++ show_uint port ++ path)) context, 0) in
        exists b', fst build = Ok b' /\ sb_routes b' = {[1 := bench; 2 := shutdown]} /\
          os_log (snd build) = os_log s0 ++ [add path 1; add (shutdown_path path) 2]
  end.
Proof.
  intros build. subst build.
  pose proof (with_config_spec (Hd := Hd) (bench_config parallelism options) ba os_start eq_refl) as Hf.
  unfold serve_httpsys, serve_httpsys_build, mtry, mbind.
  destruct (with_config _ ba os_start) as [[b|e] s0]; [|done].
  destruct Hf as (Hst & Hg & Hr & Hn & _). cbn [fst snd mret] in *.
  pose proof (bench_route_spec b port path path bench ec1 s0 Hst) as H1.
  destruct (bench_route show b port path path bench ec1 s0) as [r1 s1].
  destruct (ec1 =? 0); cbn [negb]; [|by destruct H1 as [-> ?]].
  destruct H1 as (b1 & -> & Hst1 & E1 & E2 & E3 & E4 & E5).
  pose proof (bench_route_spec b1 port path (shutdown_path path) shutdown ec2 s1 Hst1) as H2.
  destruct (bench_route show b1 port path (shutdown_path path) shutdown ec2 s1) as [r2 s2].
  destruct (ec2 =? 0); cbn [negb]; [|by destruct H2 as [-> ?]].
  destruct H2 as (b2 & -> & Hst2 & F1 & F2 & F3 & F4 & F5).
  assert (Hg2 : g_session (sb_group b2) = sb_session b2) by congruence.
  pose proof (run_teardown b2 Hg2 s2 Hst2) as Ht. unfold mbind in Ht.
  destruct (run_start b2 s2) as [[] s3]. destruct (serve_end b2 s3) as [[] s4].
  destruct (handles_drop b2 s4) as [[] s5]. cbn [fst snd] in *.
  split; [done|]. split; [apply Ht|]. exists b2. split; [done|].
  rewrite Hn in *. split.
  - rewrite F3, E3, E4, Hr. cbn. by rewrite insert_insert_ne.
  - rewrite F5, E5, E2, E4, <- (assoc_L (++)). done.
Qed.
End serve_facts.

(** ** A turn of a slot of the server under test *)

Section turn_facts.
Context `{ArrayQueueLaws Q} `{VecAllocLaws} `{!VecGrowth} `{AtomicWaker W AW}.
Context `{HttpSys K (option View)} (cx : W) (skip : bool) `{!EntityBody K skip}.
Context (size_of_request address : Z).
Implicit Types (w : World Q AW (Outside K)) (k : Outside K).

(** Reading a body sends no stop message. *)
Lemma body_reads_stop id k k' : body_reads id k k' -> stop_messages k' = stop_messages k.
Proof.
  induction 1 as [|k n x k1 k2 Hc _ IH]; [done|]. rewrite IH.
  cbn in Hc. unfold on_kern in Hc.
  destruct (HttpReceiveRequestEntityBody (out_kern k) id n) as [y k0]. by injection Hc as _ <-.
Qed.

(** The bench handler on a body that can be read. *)
Lemma bench_request_run fuel cache w b n cap :
  quiescent (w_heap w) -> body_pool_ok n cap (w_bodies w) -> 0 <= recycled_cap (w_bodies w) ->
  cap < GiB ->
  zlen (inline_body b) + zlen (remaining (w_kern w) (request_id b)) < GiB ->
  zlen (remaining (w_kern w) (request_id b)) < Z.of_nat fuel ->
  exists w', bench_request skip fuel cache b w = (Some (bench_response cache), w') /\
    quiescent (w_heap w') /\ body_pool_ok n cap (w_bodies w') /\
    stop_messages (w_kern w') = stop_messages (w_kern w) /\
    (has_more_body b = true -> remaining (w_kern w') (request_id b) = []).
Proof.
  intros Hq Hp Hc0 Hcap Hsum Hfuel.
  destruct (body_run cx skip fuel w b n cap Hq Hp Hc0 Hcap Hsum Hfuel)
    as (x & w' & Hrun & Hq' & Hp' & Hx).
  unfold bench_request. rewrite (mbind_run _ _ _ _ _ Hrun). cbv beta iota.
  destruct (has_more_body b).
  - destruct Hx as (Hin & _ & Hrem & Hreads). unfold is_inline in Hin.
    destruct (owned x) as [v|] eqn:Hown; [|done]. unfold mbind, body_value_drop. rewrite Hown.
    eexists. split; [done|]. cbn [w_kern w_heap w_bodies]. split; [done|].
    split; [by apply body_drop_ok|]. split; [by eapply body_reads_stop|done].
  - destruct Hx as (Hin & _ & ->). unfold is_inline in Hin.
    destruct (owned x) as [v|] eqn:Hown; [done|]. unfold mbind, body_value_drop. rewrite Hown.
    exists w. done.
Qed.

(** What the kernel is asked to send for a reply. *)
Definition ok_view : View :=
  mkView 200 (as_bytes (lit "OK")) (Some (as_bytes REPLY_CONTENT_TYPE)) [] (as_bytes REPLY).

Lemma answered_reply k id r :
  r_status r = 200 -> reason r = lit "OK" -> content_type r = Some REPLY_CONTENT_TYPE ->
  headers r = [] -> Response.body r = as_bytes REPLY ->
  answered address k id r =
    (HttpSendHttpResponse k id (Some ok_view) (mkPolicy <$> cache_seconds r)).2.
Proof.
  intros Es Er Ec Eh Eb. unfold answered. rewrite kernel_view_cut. unfold cut_view.
  by rewrite Es, Er, Ec, Eh, Eb.
Qed.

(** C30. A turn of the server under test, from a received request to its answer.  A
    request on the bench prefix has its whole body read first: nothing of it is
    left in the kernel, and the vector is back in the pool.  It is then answered,
    once, with 200 "OK" as plain text, to be kept by the kernel for a minute if
    caching was asked for, and no stop message is sent.  A request on the shutdown
    prefix is given the same answer, uncached, and leaves one stop message.  Any
    other context is answered 404. *)
Theorem bench_turn_spec fuel cache w pool mode b0 pool0 b mode' k1 n cap :
  quiescent (w_heap w) -> body_pool_ok n cap (w_bodies w) -> 0 <= recycled_cap (w_bodies w) ->
  cap < GiB ->
  buffer_take size_of_request pool = (b0, pool0) ->
  receive_spec size_of_request skip pool0 b0 mode (w_kern w) = ((Ok tt, b, mode'), k1) ->
  zlen (inline_body b) + zlen (remaining k1 (request_id b)) < GiB ->
  zlen (remaining k1 (request_id b)) < Z.of_nat fuel ->
  let routes := {[1 := bench_handler skip fuel cache; 2 := shutdown_handler]} in
  exists k2 p2 heap, quiescent heap /\ body_pool_ok n cap p2 /\
    slot_turn size_of_request skip address routes pool mode w =
      ((true, buffer_drop b pool0, mode'), mkWorld k2 heap p2) /\
    let send k view policy := (HttpSendHttpResponse k (request_id b) (Some view) policy).2 in
    if url_context b =? 1 then
      exists k, (has_more_body b = true -> remaining k (request_id b) = []) /\
        stop_messages k = stop_messages k1 /\
        k2 = send k ok_view (if cache then Some (mkPolicy 60) else None)
    else if url_context b =? 2 then
      k2 = send (mkOutside (out_kern k1) (S (stop_messages k1))) ok_view None
    else k2 = answered address k1 (request_id b) (response_new status.NOT_FOUND).
Proof.
  intros Hq Hp Hc0 Hcap Htake Hspec Hsum Hfuel routes.
  destruct (Z.eqb_spec (url_context b) 1) as [E1|E1]; [|destruct (Z.eqb_spec (url_context b) 2) as [E2|E2]].
  - destruct (slot_turn_handled cx size_of_request skip address routes w pool mode b0 pool0 b mode' k1
      (bench_handler skip fuel cache)
      (fun r k p => r = bench_response cache /\ body_pool_ok n cap p /\
        stop_messages k = stop_messages k1 /\
        (has_more_body b = true -> remaining k (request_id b) = [])) Hq Htake Hspec)
      as (r & k2 & p2 & heap & (-> & Hp2 & Hs & Hrem) & Hqh & Hturn).
    { by rewrite E1. }
    { intros h1 Hq1.
      destruct (bench_request_run fuel cache (mkWorld k1 h1 (w_bodies w)) b n cap)
        as (w' & Hrun & Hq' & Hp' & Hs & Hrem); [done..|].
      exists (bench_response cache), w'. split; [|auto]. unfold bench_handler.
      by rewrite (mbind_run _ _ _ _ _ Hrun). }
    eexists _, p2, heap. split; [done|]. split; [done|]. split; [exact Hturn|].
    exists k2. split; [done|]. split; [done|].
    change (buffer_request_id b) with (request_id b). rewrite answered_reply by by destruct cache.
    by destruct cache.
  - destruct (slot_turn_handled cx size_of_request skip address routes w pool mode b0 pool0 b mode' k1
      shutdown_handler (fun r k p => r = ok_text (as_bytes REPLY) /\ p = w_bodies w /\
        k = mkOutside (out_kern k1) (S (stop_messages k1))) Hq Htake Hspec)
      as (r & k2 & p2 & heap & (-> & -> & ->) & Hqh & Hturn).
    { by rewrite E2. }
    { intros h1 Hq1. eexists _, _. split; [done|]. split; [done|]. done. }
    eexists _, _, heap. split; [done|]. split; [done|]. split; [exact Hturn|].
    change (buffer_request_id b) with (request_id b). by rewrite answered_reply.
  - destruct (slot_turn_received cx size_of_request skip address routes w pool mode b0 pool0 b mode' k1
      (response_new status.NOT_FOUND) k1 (w_bodies w) Hq Htake Hspec) as (heap & Hqh & Hturn).
    { unfold dispatch. unfold routes. by rewrite lookup_insert_ne, lookup_singleton_ne by done. }
    eexists _, _, heap. split; [done|]. split; [done|]. split; [exact Hturn|]. done.
Qed.
End turn_facts.

(** ** A kernel with one request and its body, for witnesses *)

Record OneRequest := mkOne { waiting_request : option (HTTP_REQUEST_V2 * memory); waiting_body : bytes }.

Definition on_body {X} (f : bytes -> X * bytes) (k : OneRequest) : X * OneRequest :=
  let '(x, l) := f (waiting_body k) in (x, mkOne (waiting_request k) l).

#[export] Instance one_http_sys : HttpSys OneRequest (option View) := {
  HttpReceiveHttpRequest k _ _ _ target :=
    match waiting_request k with
    | Some r => ((io_now 0 500, r), mkOne None (waiting_body k))
    | None => ((io_now ERROR_OPERATION_ABORTED 0, target), k)
    end;
  HttpReceiveRequestEntityBody k id n := on_body (fun l => HttpReceiveRequestEntityBody l id n) k;
  HttpSendHttpResponse k _ _ _ := (io_now 0 0, k);
  HttpShutdownRequestQueue k := (0, k);
  stop_requested k := true;
}.

#[export] Program Instance one_entity_body : EntityBody OneRequest true := {
  remaining k id := remaining (EntityBody := stream_entity_body) (waiting_body k) id;
}.
Next Obligation.
  intros [r l] id n Hn Hl. destruct (entity_body_end l id n Hn Hl) as (a & data & k' & Hc & Hr).
  exists a, data, (mkOne r k'). cbn [HttpReceiveRequestEntityBody one_http_sys]. unfold on_body. cbn [waiting_body].
  by rewrite Hc.
Qed.
Next Obligation.
  intros [r l] id n Hn Hl. destruct (entity_body_data l id n Hn Hl) as (a & m & k' & Hc & Hr).
  exists a, m, (mkOne r k'). cbn [HttpReceiveRequestEntityBody one_http_sys]. unfold on_body. cbn [waiting_body].
  by rewrite Hc.
Qed.

(** [demo_request] for context 1, with four bytes of body in the kernel. *)
Definition bench_demo : OneRequest :=
  mkOne (Some (mkRequestV2 1 7 42 1 0 5 0 (Some 512) None
    (replicate HttpHeaderRequestMaximum zero_header) 0 None, write_at 512 (lit "PATCH") ∅)) (lit "body").

Lemma bench_turn_spec_witness :
  let w := mkWorld (mkOutside bench_demo 0) (op_pool_new (Q := list_queue) (AW := option unit) 4)
             (body_pool_new 2 1048576) in
  exists k pool mode heap p2,
    slot_turn 1000 true 64 {[1 := bench_handler true 5 true; 2 := shutdown_handler]} demo_empty
      (mkMode true) w = ((true, pool, mode), mkWorld k heap p2) /\ body_pool_ok 2 1048576 p2.
Proof.
  intros w.
  destruct (bench_turn_spec tt true 1000 64 5 true w demo_empty (mkMode true)
    (buffer_new 1000 16384) demo_empty
    (snd (fst (fst (receive_spec 1000 true demo_empty (buffer_new 1000 16384) (mkMode true) (w_kern w)))))
    (mkMode true) (mkOutside (mkOne None (lit "body")) 0) 2 1048576)
    as (k2 & p2 & heap & _ & Hp & Hturn & _);
    [apply op_pool_new_quiescent|apply body_pool_new_ok|vm_compute; congruence|vm_compute; reflexivity
    |reflexivity|vm_compute; reflexivity|vm_compute; reflexivity|vm_compute; reflexivity|].
  eexists k2, _, _, heap, p2. split; [exact Hturn|exact Hp].
Defined.

(** The server under test on an operating system that answers every call. *)
Example serve_httpsys_runs :
  fst (serve_httpsys (Hd := nat) (fun _ => []) (Some 8) 8080 BENCH_PATH (mkServeOptions 16384 false) 1%nat 2%nat
    demo_answers 0 0 os_start) = Ok tt /\
  fst (serve_httpsys (Hd := nat) (fun _ => lit "E") (Some 8) 8080 BENCH_PATH (mkServeOptions 16384 false) 1%nat
    2%nat demo_answers 0 183 os_start) = Err (lit "cannot reserve http://+:8080/bench/: E") /\
  shutdown_path (lit "/Temporary_Listen_Addresses/bench/") = lit "/Temporary_Listen_Addresses/shutdown/".
Proof. vm_compute. repeat split. Qed.
