(* ===== verification/BenchServing.v ===== *)
(** * The httpsys server under test, running (tools/httpbench/src/servers.rs)

    [serve_httpsys] from [run] on: its two handlers as programs of calls, the server
    of [Serving] with them, and the main thread, which waits for a stop message,
    shuts the server down and joins it. *)

From S2P Require Import Prelude RustStd Errors Crates HttpApi Buffer Overlapped Iocp Response Queue.
From S2P Require Import Request Init Server Shutdown Slots Serving BenchServers.
Set Warnings "-clear-no-such-hyp".

(** ** The handlers as programs *)

Section handlers.
Context `{VecAlloc} {K : Type}.

Definition bench_prog (fuel : nat) (kernel_cache : bool) : RequestBuffer -> Prog (Outside K) Response := fun b =>
  prog! r := body_prog fuel b in
  match r with
  | None => Ret response_default
  | Some r =>
      prog! _ := match r with Ok x => body_value_drop_prog x | Err _ => Ret tt end in
      Ret (bench_response kernel_cache)
  end.

Definition send_stop (o : Outside K) : unit * Outside K := (tt, mkOutside (out_kern o) (S (stop_messages o))).
Definition shutdown_prog : RequestBuffer -> Prog (Outside K) Response := fun _ =>
  prog! _ := ask (COther send_stop) in Ret (ok_text (as_bytes REPLY)).

(** The routes of [serve_httpsys]. *)
Definition bench_progs (fuel : nat) (kernel_cache : bool) : gmap Z (RequestBuffer -> Prog (Outside K) Response) :=
  {[1 := bench_prog fuel kernel_cache; 2 := shutdown_prog]}.
End handlers.

(** They are the handlers of [BenchServers]. *)
Section handlers_interp.
Context `{ArrayQueueLaws Q} `{VecAlloc} `{AtomicWaker W AW} `{HttpSys K (option View)} (skip : bool).
Implicit Type w : World Q AW (Outside K).

Lemma bench_prog_interp fuel cache b w :
  interp skip (bench_prog fuel cache b) w = bench_handler skip fuel cache b w.
Proof.
  unfold bench_prog, bench_handler, bench_request. rewrite interp_bind, mbind_assoc.
  apply mbind_ext; [apply body_interp|]. intros [[x|e]|] u; try done.
  rewrite interp_bind, mbind_assoc. apply mbind_ext; [|done].
  apply body_value_drop_interp.
Qed.

Lemma shutdown_prog_interp b w : interp skip (shutdown_prog b) w = shutdown_handler b w.
Proof. done. Qed.
End handlers_interp.

(** ** The main thread *)

#[export] Program Instance outside_stop `{StopFlag K} : StopFlag (Outside K) := {
  set_stop o := mkOutside (set_stop (out_kern o)) (stop_messages o);
}.
Next Obligation. intros. cbn. apply set_stop_requested. Qed.
Next Obligation.
  intros K ?? [k n] id flags len target. cbn. unfold on_kern. cbn.
  pose proof (receive_flag k id flags len target) as Hf. by destruct (HttpReceiveHttpRequest _ _ _ _ _).
Qed.
Next Obligation.
  intros K ?? [k n] id len. cbn. unfold on_kern. cbn.
  pose proof (read_flag k id len) as Hf. by destruct (HttpReceiveRequestEntityBody _ _ _).
Qed.
Next Obligation.
  intros K ?? [k n] id v policy. cbn. unfold on_kern. cbn.
  pose proof (send_flag k id v policy) as Hf. by destruct (HttpSendHttpResponse _ _ _ _).
Qed.
Next Obligation.
  intros K ?? [k n]. cbn. unfold on_kern. cbn.
  pose proof (shutdown_flag k) as Hf. by destruct (HttpShutdownRequestQueue _).
Qed.

(** [stop_rx.recv()], [server.shutdown()], [server.join()] and past it; the process
    ends when the join has returned. *)
Inductive MainPc := AtRecv | AtShutdown | AtJoin | InJoin.

Section bench.
Context `{ArrayQueue Q} `{VecAlloc} `{StopFlag K} `{Broadcast C}.
Context (size_of_request : Z) (skip : bool) (address : Z) (fuel : nat) (kernel_cache : bool).
Context (kernel_step : K -> K -> Prop) (config : ServerConfig).

Record Bench := mkBench { b_main : MainPc; b_server : Serving (Q := Q) (K := Outside K) (C := C) }.

Definition bench_init (b : Bench) : Prop :=
  b_main b = AtRecv /\ serving_init config (b_server b) /\
  stop_messages (fst (shared (s_sys (b_server b)))) = O.

(** The kernel leaves the channel alone. *)
Definition outside_step (o o' : Outside K) : Prop :=
  kernel_step (out_kern o) (out_kern o') /\ stop_messages o' = stop_messages o.

Inductive main_step : Bench -> Bench -> Prop :=
  | main_recv c w d k k' p sl tr :
      stop_recv k = Some k' ->
      main_step (mkBench AtRecv (mkServing c w Owning d (mkSystem (k, p) sl tr)))
        (mkBench AtShutdown (mkServing c w Owning d (mkSystem (k', p) sl tr)))
  | main_shutdown c w d sys :
      main_step (mkBench AtShutdown (mkServing c w Owning d sys))
        (mkBench AtJoin (mkServing (bc_send c) w Owning d sys))
  | main_join c w d sys :
      main_step (mkBench AtJoin (mkServing c w Owning d sys)) (mkBench InJoin (mkServing c w Joining d sys)).

Inductive bench_step : Bench -> Bench -> Prop :=
  | bench_main b b' : main_step b b' -> bench_step b b'
  | bench_thread m s s' : serving_thread config s s' -> bench_step (mkBench m s) (mkBench m s')
  | bench_slot m s s' :
      serving_slot size_of_request skip address (bench_progs fuel kernel_cache) outside_step s s' ->
      bench_step (mkBench m s) (mkBench m s').
End bench.

(** ** It is a server, with an owner that waits *)

Section bench_facts.
Context `{ArrayQueue Q} `{VecAlloc} `{StopFlag K} `{BroadcastLaws C}.
Context (size_of_request : Z) (skip : bool) (address : Z) (fuel : nat) (kernel_cache : bool).
Context (kernel_step : K -> K -> Prop) (config : ServerConfig).
Hypothesis kernel_flag : forall k k', kernel_step k k' -> stop_requested k' = stop_requested k.

Abbreviation bench := (Bench (Q := Q) (K := K) (C := C)).
Abbreviation init := (bench_init config).
Abbreviation step := (bench_step size_of_request skip address fuel kernel_cache kernel_step config).
(** Taking a message is a step of what is outside the server. *)
Definition outside_or_recv (o o' : Outside K) : Prop :=
  outside_step kernel_step o o' \/ stop_recv o = Some o'.
Abbreviation server_step :=
  (serving_step size_of_request skip address (bench_progs fuel kernel_cache) outside_or_recv config).
Implicit Type x : bench.

(** What the handlers do outside: they send messages. *)
Definition bench_call X (c : Call (Outside K) X) : Prop :=
  match c in Call _ X return Prop with
  | COther f => forall o, stop_requested (snd (f o)) = stop_requested o /\
      (stop_messages o <= stop_messages (snd (f o)))%nat
  | CStop => False
  | _ => True
  end.

Lemma bench_progs_only :
  map_Forall (fun _ h => forall b, only (fun X c => handler_call X c /\ bench_call X c) (h b))
    (bench_progs (K := K) fuel kernel_cache).
Proof.
  intros i h Hi b. unfold bench_progs in Hi.
  apply lookup_insert_Some in Hi as [[_ <-]|[_ [_ <-]%lookup_singleton_Some]].
  - unfold bench_prog. apply only_bind; [eapply only_impl; [|apply body_prog_body]; by intros X []|].
    intros [[x|e]|]; try done. apply only_bind; [|done]. unfold body_value_drop_prog. by destruct (owned x).
  - split; [|done]. split; [done|]. cbn. intros o. split; [done|lia].
Qed.

Lemma bench_progs_flag :
  map_Forall (fun _ h => forall b, only flag_call (h b)) (bench_progs (K := K) fuel kernel_cache).
Proof.
  intros i h Hi b. eapply only_impl; [|apply (bench_progs_only _ _ Hi)].
  intros X c [Hh Hc]. split; [done|]. destruct c; try done. intros k. apply Hc.
Qed.

Lemma outside_flag o o' : outside_or_recv o o' -> stop_requested o' = stop_requested o.
Proof.
  intros [[Hk _]|Hr]; [by apply (kernel_flag _ _ Hk)|].
  unfold stop_recv in Hr. destruct (stop_messages o); [done|]. by injection Hr as <-.
Qed.

Lemma bench_step_server x x' : step x x' -> server_step (b_server x) (b_server x').
Proof.
  intros Hs. destruct Hs as [b b' Hs|m s s' Hs|m s s' Hs]; cbn [b_server].
  - destruct Hs as [c w d k k' p sl tr Hr|c w d sys|c w d sys]; cbn [b_server].
    + right. left. apply sv_slot, step_kernel. by right.
    + right. right. apply sv_owner_shutdown.
    + right. right. apply sv_owner_join.
  - by left.
  - right. left. destruct Hs as [c w o d sys sys' Hs|c w o d sys sys' i t Hi Ht Hd].
    + apply sv_slot. eapply slots_step_mono; [|exact Hs]. by left.
    + by eapply sv_panicked.
Qed.

Lemma bench_reachable x :
  reachable init step x -> reachable (serving_init config) server_step (b_server x).
Proof.
  apply (reachable_invariant init step (fun x => reachable (serving_init config) server_step (b_server x))).
  - intros a (_ & Ha & _). by apply reachable_init.
  - intros a a' Ha Hs. eapply reachable_step; [exact Ha|]. by apply bench_step_server.
Qed.

(** What the view says of the channel and the owner. *)
Lemma bench_run_ok x : reachable init step x -> run_ok (port_size config) (view (b_server x)).
Proof.
  intros Hr%bench_reachable. by apply (view_run_ok size_of_request skip address
    (bench_progs fuel kernel_cache) outside_or_recv config bench_progs_flag outside_flag).
Qed.

(** ** Messages wait for the main thread *)

Definition messages (sys : System (Q := Q) (K := Outside K)) : nat := stop_messages (fst (shared sys)).

Lemma exec_messages {X} (c : Call (Outside K) X) o p :
  bench_call X c -> (stop_messages o <= stop_messages (fst (snd (exec skip c (o, p)))))%nat.
Proof.
  intros Hc. destruct c as [id flags len target|id len|id v policy| |capacity|v|Y f]; cbn [exec]; try done.
  - cbn. unfold on_kern. by destruct (HttpReceiveHttpRequest _ _ _ _ _) as [[a out] k].
  - cbn. unfold on_kern. by destruct (HttpReceiveRequestEntityBody _ _ _) as [[a out] k].
  - cbn. unfold on_kern. by destruct (HttpSendHttpResponse _ _ _ _) as [a k].
  - by destruct (body_take p capacity).
  - cbn in Hc. specialize (Hc o). destruct (f o). apply Hc.
Qed.

Lemma turn_calls_bench (buffers : BufferPool Q) mode :
  only bench_call (turn_prog size_of_request address (bench_progs fuel kernel_cache) buffers mode).
Proof.
  apply turn_only; [done..|]. intros j h Hj b. eapply only_impl; [|apply (bench_progs_only _ _ Hj)].
  by intros X c [].
Qed.

Lemma slots_step_messages sys sys' :
  busy_only bench_call sys ->
  slots_step size_of_request skip address (bench_progs fuel kernel_cache) (outside_step kernel_step) sys sys' ->
  busy_only bench_call sys' /\ (messages sys <= messages sys')%nat.
Proof.
  intros Hok Hs. destruct Hs as [k k' p sl tr [_ Hk]|i s s' Hs].
  { split; [done|]. unfold messages. cbn [shared fst]. by rewrite Hk. }
  split; [by eapply (busy_only_move size_of_request address); [apply turn_calls_bench|..]|].
  destruct Hs as [sh sl tr bufs mode Hi|sh sl tr bufs mode stop Hi _
    |sh sl tr X cl f Hi _|[k p] sl tr X cl f x [k' p'] Hi He|sh sl tr go bufs mode Hi];
    unfold messages; cbn [shared fst]; try done.
  assert (Hc : bench_call X cl).
  { destruct Hi as [Hi|Hi]; by apply (Hok i _ _ Hi eq_refl). }
  pose proof (exec_messages cl k p Hc) as Hm. by rewrite He in Hm.
Qed.

Lemma slot_drop_messages sys sys' i :
  busy_only bench_call sys -> slot_drop i sys sys' ->
  busy_only bench_call sys' /\ messages sys' = messages sys.
Proof.
  intros Hok Hs. destruct Hs as [k p p' sl tr t Hi _ _]. split; [|done]. by eapply busy_only_insert.
Qed.

Lemma thread_messages s s' :
  busy_only bench_call (s_sys s) -> serving_thread (C := C) config s s' ->
  busy_only bench_call (s_sys s') /\ (messages (s_sys s) <= messages (s_sys s'))%nat.
Proof.
  intros Hok Hs. destruct Hs as [c n o d sh sl tr|c o d sys|c o d sys|c o d sys Hr|c o d k p sl tr
    |c o d k p sl tr ec k' Hk|c o d sys Ha|c o d sys|c o d sys Ha|c o d sys sys' i t _ _ Hd
    |c o d sys p _|c o d sys p p' _|c o d sys p _|c d sys];
    cbn [s_sys] in *; try done.
  - split; [|done]. intros i t p [Hi|[_ Hi]]%lookup_app_Some; [by apply (Hok i)|].
    by apply list_lookup_singleton_Some in Hi as [_ <-].
  - split; [done|]. unfold messages. cbn. cbn in Hk. unfold on_kern in Hk.
    destruct (HttpShutdownRequestQueue (out_kern k)) as [x k2]. by injection Hk as _ <-.
  - destruct (slot_drop_messages sys sys' i Hok Hd) as [? ->]. by split.
Qed.

(** At any time. *)
Record bench_ok x : Prop := {
  bo_busy : busy_only bench_call (s_sys (b_server x));
  bo_owner : b_main x <> InJoin -> s_owner (b_server x) = Owning;
  bo_join : b_main x = InJoin -> s_owner (b_server x) <> Owning;
}.

(** From the moment a message is there and the server has subscribed. *)
Record coming x : Prop := {
  co_worker : ~ before_subscribe (s_worker (b_server x));
  co_message : b_main x = AtRecv -> (0 < messages (s_sys (b_server x)))%nat;
  co_heard : b_main x = AtJoin \/ b_main x = InJoin -> heard (b_server x);
}.

Lemma slot_messages s s' :
  busy_only bench_call (s_sys s) ->
  serving_slot (C := C) size_of_request skip address (bench_progs fuel kernel_cache) (outside_step kernel_step) s s' ->
  busy_only bench_call (s_sys s') /\ (messages (s_sys s) <= messages (s_sys s'))%nat.
Proof.
  intros Hb Hs. destruct Hs as [c w o d sys sys' Hs|c w o d sys sys' i t Hi Ht Hd]; cbn [s_sys] in *.
  - by apply slots_step_messages.
  - destruct (slot_drop_messages sys sys' i Hb Hd) as [? ->]. by split.
Qed.

Lemma bench_ok_step x x' : bench_ok x -> step x x' -> bench_ok x'.
Proof.
  intros [Hb Ho Hj] Hs. destruct Hs as [x x' Hs|m s s' Hs|m s s' Hs]; cbn [b_main b_server] in *.
  - by destruct Hs; split.
  - destruct (thread_messages s s' Hb Hs) as [Hb' _].
    split; cbn [b_main b_server]; [done|intros Hm; specialize (Ho Hm); by destruct Hs|intros Hm; specialize (Hj Hm); by destruct Hs].
  - destruct (slot_messages s s' Hb Hs) as [Hb' _].
    split; cbn [b_main b_server]; [done|intros Hm; specialize (Ho Hm); by destruct Hs|intros Hm; specialize (Hj Hm); by destruct Hs].
Qed.

Lemma bench_reachable_ok x : reachable init step x -> bench_ok x.
Proof.
  apply reachable_invariant; [|apply bench_ok_step].
  intros [m s] (Hm & (k & _ & Hs) & _). cbn in *. subst. by split.
Qed.

Lemma thread_heard s s' : serving_thread (K := Outside K) (C := C) config s s' -> heard s -> heard s'.
Proof. intros Hs [Hw Hr]. destruct Hs; cbn in *; split; cbn; tauto || done. Qed.

Lemma coming_step x x' : run_ok (port_size config) (view (b_server x)) -> bench_ok x -> coming x -> step x x' -> coming x'.
Proof.
  intros Hrun [Hb _ _] [Hw Hm Hh] Hs. destruct Hs as [x x' Hs|m s s' Hs|m s s' Hs]; cbn [b_main b_server] in *.
  - destruct Hs as [c w d k k' p sl tr Hr|c w d sys|c w d sys]; cbn in *; split; cbn; try done.
    + by intros [].
    + intros _. split; [done|]. intros _. apply bc_send_ready.
      destruct (bc_subscribed c) eqn:E; [done|]. by apply (rok_subscribed _ _ Hrun) in E.
    + intros _. apply Hh. by left.
  - destruct (thread_messages s s' Hb Hs) as [_ Hle]. split; cbn [b_main b_server].
    + by destruct Hs.
    + intros Hmain. specialize (Hm Hmain). lia.
    + intros Hmain. by eapply thread_heard, Hh.
  - destruct (slot_messages s s' Hb Hs) as [_ Hle]. split; cbn [b_main b_server].
    + by destruct Hs.
    + intros Hmain. specialize (Hm Hmain). lia.
    + intros Hmain. specialize (Hh Hmain). by destruct Hs.
Qed.

Definition pc_left (m : MainPc) : nat :=
  match m with AtRecv => 3 | AtShutdown => 2 | AtJoin => 1 | InJoin => 0 end.

Lemma main_step_left x x' : main_step x x' -> (pc_left (b_main x') < pc_left (b_main x))%nat.
Proof. intros Hs. destruct Hs; cbn; lia. Qed.

Lemma step_left x x' :
  step x x' -> pc_left (b_main x') = pc_left (b_main x) \/ (pc_left (b_main x') < pc_left (b_main x))%nat.
Proof. intros Hs. destruct Hs as [x x' Hs| |]; [right; by apply main_step_left|by left..]. Qed.

Lemma coming_live x : bench_ok x -> coming x -> b_main x = InJoin \/ exists x', main_step x x'.
Proof.
  intros [_ Ho _] [_ Hm _]. destruct x as [m [c w o d [[k p] sl tr]]]. cbn in *. destruct m; cbn in *.
  - right. rewrite Ho by done. specialize (Hm eq_refl). unfold messages in Hm. cbn in Hm.
    destruct (stop_recv k) as [k'|] eqn:E; [eexists; by apply main_recv|].
    unfold stop_recv in E. destruct (stop_messages k); [lia|done].
  - right. rewrite Ho by done. eexists. apply main_shutdown.
  - right. rewrite Ho by done. eexists. apply main_join.
  - by left.
Qed.

(** The server thread's steps, and those of its slots that wait for nobody, in the
    larger system. *)
Definition thread_move x x' : Prop := serving_thread config (b_server x) (b_server x').
Definition slot_runs_move x x' : Prop :=
  slot_runs size_of_request skip address (bench_progs fuel kernel_cache) (b_server x) (b_server x').

(** The main thread comes to its join. *)
Lemma main_joins e i :
  execution step e -> init (e 0%nat) -> weakly_fair main_step e ->
  b_main (e i) = AtRecv -> (0 < messages (s_sys (b_server (e i))))%nat ->
  ~ before_subscribe (s_worker (b_server (e i))) ->
  exists k, (i <= k)%nat /\ b_main (e k) = InJoin /\ heard (b_server (e k)).
Proof.
  intros He Hi Hfm Hmain Hmsg Hw.
  assert (Hre : forall j, reachable init step (e j)).
  { intros j. by apply execution_reachable, reachable_init. }
  assert (Hco : forall j, (i <= j)%nat -> coming (e j)).
  { induction 1 as [|j Hj IH]; [split; try done; rewrite Hmain; by intros []|].
    destruct (He j) as [Heq|Hs]; cbn in *; [by rewrite Heq|].
    apply (coming_step (e j)); [by apply bench_run_ok|by apply bench_reachable_ok|done..]. }
  destruct (fair_reaches main_step lt (fun x => pc_left (b_main x)) (fun x => b_main x = InJoin) e i Hfm)
    as (k & Hk & Hin).
  - apply lt_wf.
  - intros j Hj. destruct (He j) as [->|Hs]; [by left|by apply step_left].
  - intros j Hj. by apply coming_live, Hco; [apply bench_reachable_ok|].
  - intros j x' Hj. apply main_step_left.
  - exists k. split; [done|]. split; [done|]. apply (co_heard _ (Hco k Hk)). by right.
Qed.

(** C31. The server under test can be stopped from outside.  Take an execution in which
    the main thread, the server thread, the runtime and the port's threads are not
    stopped for ever where they could go on, tasks that are not suspended are run,
    and from some moment on no slot misses the stop flag.  If a stop message is
    waiting for the main thread when the server thread has subscribed, whenever a
    handler of the shutdown prefix sent it, then the shutdown is heard and every
    slot ends, whatever clients, slots and the kernel do meanwhile; and either the
    join of [serve_httpsys] returns and the process exits, or the server thread
    hangs for ever in the drop of its port, which takes a port of two threads or
    more or a sentinel that could not be posted. *)
Theorem bench_exits e i m :
  execution step e -> init (e 0%nat) -> weakly_fair main_step e -> weakly_fair thread_move e ->
  weakly_fair slot_runs_move e -> seen_from m (fun j => b_server (e j)) ->
  b_main (e i) = AtRecv -> (0 < messages (s_sys (b_server (e i))))%nat ->
  ~ before_subscribe (s_worker (b_server (e i))) ->
  (exists k, (i <= k)%nat /\ s_owner (b_server (e k)) = Joined /\ all_ended (s_sys (b_server (e k)))) \/
  (exists k p, (i <= k)%nat /\ drop_hung config p /\ forall j, (k <= j)%nat ->
     s_worker (b_server (e j)) = Closing p /\ s_owner (b_server (e j)) = Joining /\ all_ended (s_sys (b_server (e j)))).
Proof.
  intros He Hi Hfm Hft Hfs Hseen Hmain Hmsg Hw.
  destruct (main_joins e i He Hi Hfm Hmain Hmsg Hw) as (k & Hk & Hin & Hh).
  assert (Hre : forall j, reachable init step (e j)).
  { intros j. by apply execution_reachable, reachable_init. }
  assert (Hfair : forall (duty : Serving -> Serving -> Prop),
    weakly_fair (fun x x' : bench => duty (b_server x) (b_server x')) e -> weakly_fair duty (fun j => b_server (e j))).
  { intros duty Hf n. destruct (Hf n) as (j & Hj & [Hd|Hd]); exists j; (split; [done|]); [by left|right].
    intros (s' & Hs). apply Hd. by exists (mkBench InJoin s'). }
  pose proof (bo_join _ (bench_reachable_ok _ (Hre k)) Hin) as Ho.
  destruct (s_owner (b_server (e k))) eqn:Eo; [done| |].
  - destruct (heard_ends size_of_request skip address (bench_progs fuel kernel_cache) outside_or_recv config
      bench_progs_flag outside_flag (fun j => b_server (e j)) m) with (i := k)
      as [(k' & Hk' & Hx)|(k' & p & Hk' & Hx)]; try done.
    + eapply execution_map; [exact He|]. intros j Hs. right. by apply bench_step_server.
    + apply bench_reachable, Hre.
    + by apply Hfair.
    + by apply Hfair.
    + left. exists k'. split; [lia|done].
    + right. exists k', p. split; [lia|done].
  - left. exists k. split; [done|]. split; [done|].
    apply (left_ended size_of_request skip address (bench_progs fuel kernel_cache) outside_or_recv config
      bench_progs_flag outside_flag); [apply bench_reachable, Hre|].
    pose proof (rok_joined _ _ (bench_run_ok _ (Hre k)) Eo) as Hg. cbn in Hg. by rewrite Hg.
Qed.

(** The main thread has passed on a message that the server will not hear. *)
Definition unheard x : Prop :=
  (b_main x = AtJoin \/ b_main x = InJoin) /\ s_owner (b_server x) <> Joined /\
  (bc_subscribed (s_chan (b_server x)) = false /\ before_subscribe (s_worker (b_server x)) \/
   s_worker (b_server x) = AwaitingShutdown /\ bc_ready (s_chan (b_server x)) = false).

Lemma unheard_step x x' : unheard x -> step x x' -> unheard x'.
Proof.
  intros (Hm & Ho & Hw) Hs. destruct Hs as [x x' Hs|m s s' Hs|m s s' Hs]; cbn [b_main b_server] in *.
  - destruct Hs; cbn in *; [by destruct Hm..|]. split; [by right|]. by split.
  - split; [done|]. destruct Hs; cbn in *; destruct Hw as [[Hc Hw]|[Hw Hr]]; try done;
      (split; [done|]); try (by left); try (by right).
    + right. split; [done|]. by apply bc_subscribe_ready.
    + congruence.
  - split; [done|]. by destruct Hs.
Qed.

(** C32. A stop that comes too early is lost.  If the main thread has already taken the
    stop message and called [shutdown] while the server thread is still spawning
    slots or has not yet subscribed, then whatever happens afterwards
    [serve_httpsys] does not return.  What counts is when [shutdown] is called, not
    when the request came: a message sent early and taken after the subscription
    is heard. *)
Theorem bench_hangs x :
  reachable init step x -> b_main x = AtJoin -> before_subscribe (s_worker (b_server x)) ->
  forall x', rtc step x x' -> s_owner (b_server x') <> Joined.
Proof.
  intros Hr Hm Hw x' Hs.
  assert (Hu : unheard x).
  { split; [by left|]. split; [by rewrite (bo_owner _ (bench_reachable_ok _ Hr)) by by rewrite Hm|left].
    split; [|done]. by apply (rok_subscribed _ _ (bench_run_ok _ Hr)). }
  by apply (rtc_invariant step unheard x x' unheard_step Hs Hu).
Qed.
End bench_facts.

(** ** Two lives of the server under test *)

Section schedule.
Context `{ArrayQueue Q} `{VecAlloc} `{StopFlag K} `{Broadcast C}.
Context (size_of_request : Z) (skip : bool) (address : Z) (fuel : nat) (kernel_cache : bool) (config : ServerConfig).

(** The main thread goes on; the server's thread does; slot [i] makes a move. *)
Inductive BenchMove := BMain | BThread | BSlot (i : nat).

Definition bench_move (x : Bench (Q := Q) (K := K) (C := C)) (m : BenchMove) : Bench :=
  let '(mkBench pc (mkServing c w o d sys as s)) := x in
  match m with
  | BMain =>
      match pc, o with
      | AtRecv, Owning =>
          match stop_recv (fst (shared sys)) with
          | Some k =>
              mkBench AtShutdown (mkServing c w o d (mkSystem (k, snd (shared sys)) (slots sys) (trace sys)))
          | None => x
          end
      | AtShutdown, Owning => mkBench AtJoin (mkServing (bc_send c) w o d sys)
      | AtJoin, Owning => mkBench InJoin (mkServing c w Joining d sys)
      | _, _ => x
      end
  | BThread => mkBench pc (serving_go config s)
  | BSlot i =>
      mkBench pc (mkServing c w o d
        (move size_of_request skip address (bench_progs fuel kernel_cache) sys i))
  end.

Lemma bench_move_step x m :
  bench_move x m = x \/
  bench_step size_of_request skip address fuel kernel_cache (fun _ _ => False) config x (bench_move x m).
Proof.
  destruct x as [pc [c w o d sys]], m as [| |i]; cbn [bench_move].
  - destruct pc, o; try (by left); [|right; apply bench_main; constructor..].
    destruct (stop_recv _) as [k|] eqn:E; [right|by left]. apply bench_main. destruct sys as [[k0 p] sl tr].
    by apply main_recv.
  - destruct (serving_go_step config (mkServing c w o d sys)) as [->|Hs]; [by left|right]. by apply bench_thread.
  - destruct (slot_move_step size_of_request skip address (bench_progs fuel kernel_cache) c w o d sys i
      (outside_step (fun _ _ => False))) as [->|Hs]; [by left|right]. by apply bench_slot.
Qed.
End schedule.

(** Two slots; the one request is for the shutdown prefix. *)
Definition stop_config : ServerConfig := mkConfig 2 2 16384 131072 3000 1048576 30.
Definition stop_script : Script :=
  mkScript [(io_now 0 500, (mkRequestV2 0 0 41 2 HttpVerbGET 0 0 None None
    (replicate HttpHeaderRequestMaximum zero_header) 0 None, ∅))] [] [].
Definition stop_start : Bench (Q := list_queue) (K := Script * bool) (C := option bool) :=
  mkBench AtRecv (mkServing bc_channel (Spawning 2) Owning false
    (mkSystem (mkOutside (stop_script, false) 0, body_pool_new 2 1048576) [] [])).
Abbreviation stop_move := (bench_move 1000 true 64 4 false stop_config).
Abbreviation stop_step := (bench_step 1000 true 64 4 false (fun _ _ => False) stop_config).

Lemma stop_start_init : bench_init stop_config stop_start.
Proof. split; [done|]. split; [|done]. by exists (mkOutside (stop_script, false) 0). Qed.

Lemma stop_execution ms : execution stop_step (run_moves stop_move stop_start ms).
Proof. apply execution_moves, bench_move_step. Qed.

Lemma stop_reachable ms i : reachable (bench_init stop_config) stop_step (run_moves stop_move stop_start ms i).
Proof. apply execution_reachable, reachable_init, stop_start_init. apply stop_execution. Qed.

(** The first slot takes the request when both run; the second is in its receive when
    the queue is shut down. *)
Definition good_moves : list BenchMove :=
  [BThread; BThread; BThread; BThread; BSlot 0; BSlot 0; BSlot 0; BSlot 1; BSlot 1; BSlot 0; BMain; BSlot 0; BMain; BMain;
   BThread; BThread; BThread; BSlot 0; BSlot 0; BSlot 1; BSlot 1] ++ replicate 18 BThread.
Definition good_end : Bench := foldl stop_move stop_start good_moves.
Definition good_life : nat -> Bench := run_moves stop_move stop_start good_moves.

Lemma good_end_rests :
  b_main good_end = InJoin /\ s_worker (b_server good_end) = Gone /\ s_owner (b_server good_end) = Joined /\
  all_ended (s_sys (b_server good_end)).
Proof. split_and!; [vm_compute; reflexivity..|]. vm_compute. by repeat constructor. Qed.

Lemma good_life_ends i : (39 <= i)%nat -> good_life i = good_end.
Proof. apply (run_moves_end _ _ good_moves). Qed.

Definition good_fresh_at (i : nat) : bool :=
  let sys j := s_sys (b_server (good_life j)) in
  negb (existsb found_down (drop (length (trace (sys i))) (trace (sys (1 + i)%nat)))).

(** From the moment the flag is set no test misses it. *)
Lemma good_seen : seen_from 16 (fun j => b_server (good_life j)).
Proof.
  assert (Hfresh : forall i, (16 <= i)%nat -> good_fresh_at i = true).
  { intros i Hi. destruct (decide (i < 40)%nat) as [Hlt|Hge].
    - assert (Hall : forallb good_fresh_at (seq 16 24) = true) by (vm_compute; reflexivity).
      rewrite forallb_forall in Hall. apply Hall, in_seq. lia.
    - unfold good_fresh_at. rewrite !good_life_ends by lia. by rewrite drop_all. }
  intros i Hi [_ [x Ht]]. pose proof (Hfresh i Hi) as Hd. unfold good_fresh_at in Hd.
  rewrite Ht, drop_app_length in Hd. done.
Qed.

Lemma bench_exits_witness :
  (exists k, (10 <= k)%nat /\ s_owner (b_server (good_life k)) = Joined /\ all_ended (s_sys (b_server (good_life k)))) \/
  exists k p, (10 <= k)%nat /\ drop_hung stop_config p /\ forall j, (k <= j)%nat ->
    s_worker (b_server (good_life j)) = Closing p /\ s_owner (b_server (good_life j)) = Joining /\
    all_ended (s_sys (b_server (good_life j))).
Proof.
  destruct good_end_rests as (Hm & Hw & Ho & Ha).
  apply (bench_exits 1000 true 64 4 false (fun _ _ => False) stop_config (fun _ _ (H : False) => match H with end)
    good_life 10 16 (stop_execution good_moves) stop_start_init);
    [..|apply good_seen|vm_compute; reflexivity|vm_compute; lia|by vm_compute].
  - apply (execution_rests _ _ 39 good_end good_life_ends). intros (x' & Hs). by destruct Hs; cbn in Hm.
  - apply (execution_rests _ _ 39 good_end good_life_ends). intros (x' & Hs).
    unfold thread_move in Hs. by destruct Hs; cbn in Hw, Ho.
  - apply (execution_rests _ _ 39 good_end good_life_ends). intros (x' & i & t & _ & _ & _ & Hs).
    by apply slot_move_ended in Hs.
Defined.

(** The first slot takes it before the second is spawned, and answers it. *)
Definition early_moves : list BenchMove :=
  [BThread; BSlot 0; BSlot 0; BSlot 0; BSlot 0; BSlot 0; BMain; BMain].
Definition early : Bench := foldl stop_move stop_start early_moves.
Definition late_moves : list BenchMove := [BMain; BThread; BThread; BThread; BThread].

Lemma bench_hangs_witness :
  count (sends 41) (map snd (trace (s_sys (b_server early)))) = 1%nat /\
  s_worker (b_server (foldl stop_move early late_moves)) = AwaitingShutdown /\
  s_owner (b_server (foldl stop_move early late_moves)) <> Joined.
Proof.
  split; [vm_compute; reflexivity|]. split; [vm_compute; reflexivity|].
  assert (Hm : b_main early = AtJoin) by (vm_compute; reflexivity).
  assert (Hw : before_subscribe (s_worker (b_server early))) by (vm_compute; exact I).
  assert (Hr : reachable (bench_init stop_config) stop_step early).
  { unfold early. rewrite <- (run_moves_end stop_move stop_start early_moves 8) by done. apply stop_reachable. }
  apply (bench_hangs 1000 true 64 4 false (fun _ _ => False) stop_config
    (fun _ _ (H : False) => match H with end) early Hr Hm Hw).
  generalize early, late_moves. clear. intros x ms. revert x.
  induction ms as [|m ms IH]; intros x; [apply rtc_refl|]. cbn [foldl].
  destruct (bench_move_step 1000 true 64 4 false stop_config x m) as [->|Hs]; [apply IH|].
  eapply rtc_l; [exact Hs|apply IH].
Defined.
