(* ===== verification/BenchSweep.v ===== *)
(** * What the sweep measures and writes (tools/httpbench/src/sweep.rs)

    The options, the samples, the payload, the selection of series and of best
    samples, the rows of results.csv, the console report and the charts.  The
    processes and the measuring loops are in [BenchRun]. *)

From stdpp Require Import sorting.
From Stdlib Require Import Floats.SpecFloat.
From S2P Require Import Prelude RustStd Float64 BenchFmt BenchLoad BenchChart BenchServers.
Set Warnings "-clear-no-such-hyp".
#[local] Open Scope Z_scope.
#[local] Open Scope rust_scope.

Definition ENGINES : list Engine := [Httpsys; Axum].

(** ** Options *)

Record SweepOptions := mkOptions {
  o_ports : list Z; o_path : str; o_duration : Z; o_warmup : Z; o_connections : list Z;
  o_sizes : list Z; o_size_sweep_connections : Z; o_concurrency_sweep_bytes : Z; o_out_dir : str;
  o_kernel_cache : bool;
}.

(** [SweepOptions::port_for]; the error says how many ports there were. *)
Definition port_for (ports : list Z) (index : nat) : Result str Z :=
  match ports !! index with
  | Some p => Ok p
  | None =>
      Err (lit "expected " ++ show_uint (zlen ENGINES) ++ lit " ports, one per engine, got " ++
           show_uint (zlen ports))
  end.

(** [SweepOptions::spec]. *)
Definition load_spec (o : SweepOptions) (port : Z) (body : bytes) (connections : Z) : LoadSpec :=
  mkSpec (lit "127.0.0.1") port (o_path o) body connections (o_duration o).

(** ** Samples *)

Record Sample := mkSample {
  s_engine : Engine; s_x : f64; s_body_bytes : Z; s_connections : Z; s_requests : Z; s_rps : f64;
  s_mean_ms : f64; s_p50_ms : f64; s_p99_ms : f64; s_cores : f64; s_cpu_us_per_request : f64;
}.

Definition mib_per_second (s : Sample) : f64 :=
  f64_div (f64_mul (s_rps s) (f64_of (s_body_bytes s))) (f64_mul (f64_of 1024) (f64_of 1024)).

(** ** The payload *)

(** One step of the generator, on 64-bit words. *)
Definition xorshift (s : Z) : Z :=
  let s := Z.lxor s (wrap64 (Z.shiftl s 13)) in
  let s := Z.lxor s (Z.shiftr s 7) in
  Z.lxor s (wrap64 (Z.shiftl s 17)).
Definition to_le_bytes (s : Z) : bytes :=
  map (fun i => Z.land (Z.shiftr s (8 * i)) 0xFF) (seqZ 0 8).
Definition SEED : Z := 0x2545F4914F6CDD1D.

(** The loop; [None] when [fuel] turns were not enough. *)
Fixpoint payload_loop (fuel : nat) (size state : Z) (buffer : bytes) : option bytes :=
  if zlen buffer <? size then
    match fuel with
    | O => None
    | S fuel =>
        let state := xorshift state in
        payload_loop fuel size state (buffer ++ to_le_bytes state)
    end
  else Some buffer.

(** One turn per eight bytes.  Making a vector of more than [isize::MAX] bytes
    panics. *)
Definition payload (size : Z) : Result Failure bytes :=
  if capacity_overflow 1 size then Err Panicked
  else
    match payload_loop (Z.to_nat (div_ceil size 8)) size SEED [] with
    | Some buffer => Ok (ztake size buffer)
    | None => Err Never
    end.

(** ** Selecting samples *)

Section select.
(** Where [total_cmp] puts a NaN: its sign is the hardware's. *)
Context (nan_key : Z).

(** [f64::total_cmp]: the numbers in order, and the negative zero below the other. *)
Definition total_key (x : f64) : Z :=
  if is_nan x then nan_key else if sign_of x then rank x - 1 else rank x.
Definition total_cmp (a b : f64) : comparison := total_key a ?= total_key b.

(** [Iterator::max_by]: the last of the greatest. *)
Definition max_by {A} (cmp : A -> A -> comparison) (l : list A) : option A :=
  match l with
  | [] => None
  | s :: l => Some (foldl (fun m s => match cmp m s with Gt => m | _ => s end) s l)
  end.

Definition of_engine (e : Engine) (l : list Sample) : list Sample :=
  List.filter (fun s => bool_decide (s_engine s = e)) l.

Definition best (samples : list Sample) (metric : Sample -> f64) : list Sample :=
  omap (fun e => max_by (fun a b => total_cmp (metric a) (metric b)) (of_engine e samples)) ENGINES.

(** The order of [sort_by]. *)
Definition point_le (p q : f64 * f64) : Prop := total_key (fst p) <= total_key (fst q).
#[export] Instance point_le_dec p q : Decision (point_le p q).
Proof. unfold point_le. apply _. Defined.

Definition series_for (samples : list Sample) (e : Engine) (value : Sample -> f64) : list (f64 * f64) :=
  merge_sort point_le (map (fun s => (s_x s, value s)) (of_engine e samples)).

(** ** Charts *)

Definition color_of (e : Engine) : RGBColor :=
  match e with Httpsys => HTTPSYS_COLOR | Axum => AXUM_COLOR end.

Definition engine_series (samples : list Sample) (value : Sample -> f64) (suffix : str) (dash : bool) :
    list Series :=
  map (fun e =>
    mkSeries (match suffix with [] => label e | _ => label e ++ lit " " ++ suffix end) (color_of e) dash
      (series_for samples e value)) ENGINES.

(** [machine_summary]; the architecture is a constant of the build. *)
Definition machine_summary (parallelism : option Z) (arch : str) : str :=
  show_uint (default 0 parallelism) ++ lit " logical cores, loopback, " ++ arch.

(** The charts of [write_charts], each with its file. *)
Definition charts (machine : str) (concurrency size : list Sample) : list (Chart * str) :=
  let cpu := lit "CPU cores burned by the server process alone. " ++ machine in
  [ (mkChart (lit "Latency vs concurrent requests") (lit "solid = median, dashed = p99. " ++ machine)
       (lit "Concurrent requests") (lit "Latency") true fmt.count fmt.millis
       (engine_series concurrency s_p50_ms (lit "p50") false ++
        engine_series concurrency s_p99_ms (lit "p99") true),
     lit "latency-vs-concurrency.svg");
    (mkChart (lit "Server CPU vs concurrent requests") cpu
       (lit "Concurrent requests") (lit "CPU cores in use") false fmt.count fmt.cores
       (engine_series concurrency s_cores [] false),
     lit "cpu-vs-concurrency.svg");
    (mkChart (lit "Throughput vs concurrent requests") machine
       (lit "Concurrent requests") (lit "Requests per second") false fmt.count fmt.rate
       (engine_series concurrency s_rps [] false),
     lit "throughput-vs-concurrency.svg");
    (mkChart (lit "Latency vs request size") (lit "solid = mean, dashed = p99. " ++ machine)
       (lit "Request body size") (lit "Latency") true fmt.bytes fmt.millis
       (engine_series size s_mean_ms (lit "mean") false ++ engine_series size s_p99_ms (lit "p99") true),
     lit "latency-vs-size.svg");
    (mkChart (lit "Server CPU vs request size") cpu
       (lit "Request body size") (lit "CPU cores in use") false fmt.bytes fmt.cores
       (engine_series size s_cores [] false),
     lit "cpu-vs-size.svg");
    (mkChart (lit "Ingest throughput vs request size") machine
       (lit "Request body size") (lit "MiB/s received") false fmt.bytes fmt.mib_per_second
       (engine_series size mib_per_second [] false),
     lit "throughput-vs-size.svg") ].

(** ** results.csv *)

Definition csv_header : str :=
  lit "sweep,engine,connections,body_bytes,requests,rps,mean_ms,p50_ms,p99_ms,cpu_cores,cpu_us_per_request".

Definition csv_row (sweep : str) (s : Sample) : str :=
  sweep ++ lit "," ++ label (s_engine s) ++ lit "," ++ show_uint (s_connections s) ++ lit "," ++
  show_uint (s_body_bytes s) ++ lit "," ++ show_uint (s_requests s) ++ lit "," ++
  show_fixed 1 (s_rps s) ++ lit "," ++ show_fixed 4 (s_mean_ms s) ++ lit "," ++
  show_fixed 4 (s_p50_ms s) ++ lit "," ++ show_fixed 4 (s_p99_ms s) ++ lit "," ++
  show_fixed 4 (s_cores s) ++ lit "," ++ show_fixed 2 (s_cpu_us_per_request s).

(** What [write_csv] writes. *)
Definition csv (concurrency size : list Sample) : str :=
  csv_header ++ [10] ++
  flat_map (fun s => csv_row (lit "concurrency") s ++ [10]) concurrency ++
  flat_map (fun s => csv_row (lit "size") s ++ [10]) size.

(** ** The report: the lines printed, and whether it panics after them *)

Definition Printed : Type := list str * bool.
Definition then_print (a b : Printed) : Printed :=
  let '(lines, panics) := a in
  if panics then (lines, true) else let '(lines', panics') := b in (lines ++ lines', panics').

(** [compare]; the slice [..1] of no samples panics. *)
Definition compare (title : str) (samples : list Sample) (describe : Sample -> str)
    (ratio : Sample -> Sample -> f64) : Printed :=
  let lines :=
    ([10] ++ title) ::
    map (fun s => lit "  " ++ pad_right 8 (label (s_engine s)) ++ lit " " ++ describe s) samples in
  match samples with
  | [] => (lines, true)
  | [httpsys; axum] =>
      let factor := ratio httpsys axum in
      let verdict := if f64_le (f64_of 1) factor then lit "faster" else lit "slower" in
      (lines ++ [lit "  -> httpsys is " ++ show_fixed 2 factor ++ lit "x " ++ verdict ++ lit " than axum"],
       false)
  | _ => (lines, false)
  end.

Definition cores_per_mib (s : Sample) : f64 := f64_div (s_cores s) (f64_max (mib_per_second s) MIN_POSITIVE).

Definition report (concurrency size : list Sample) : Printed :=
  then_print ([[10] ++ lit "=== Summary ==="], false)
  (then_print
    (compare (lit "Peak throughput (small requests)") (best concurrency s_rps)
      (fun s => fmt.rate (s_rps s) ++ lit " req/s @ " ++ show_uint (s_connections s) ++ lit " conns")
      (fun a b => f64_div (s_rps a) (s_rps b)))
  (then_print
    (compare (lit "Peak ingest throughput (large requests)") (best size mib_per_second)
      (fun s => fmt.mib_per_second (mib_per_second s) ++ lit " MiB/s @ " ++
        fmt.bytes (f64_of (s_body_bytes s)) ++ lit " body")
      (fun a b => f64_div (mib_per_second a) (mib_per_second b)))
  (then_print
    (compare (lit "CPU per request at peak load") (best concurrency s_rps)
      (fun s => show_fixed 1 (s_cpu_us_per_request s) ++ lit " us/req")
      (fun a b => f64_div (s_cpu_us_per_request b) (f64_max (s_cpu_us_per_request a) MIN_POSITIVE)))
    (compare (lit "CPU cost of the largest uploads") (best size (fun s => f64_of (s_body_bytes s)))
      (fun s => show_fixed 2 (s_cores s) ++ lit " cores for " ++ fmt.mib_per_second (mib_per_second s) ++
        lit " MiB/s at " ++ fmt.bytes (f64_of (s_body_bytes s)) ++ lit " body")
      (fun a b => f64_div (cores_per_mib b) (f64_max (cores_per_mib a) MIN_POSITIVE)))))).
End select.

(** ** Facts *)

(** The generator's output, [k] words of it. *)
Fixpoint words (k : nat) (state : Z) : bytes :=
  match k with
  | O => []
  | S k => to_le_bytes (xorshift state) ++ words k (xorshift state)
  end.

Lemma zlen_le_bytes s : zlen (to_le_bytes s) = 8.
Proof. reflexivity. Qed.

Lemma zlen_words k s : zlen (words k s) = 8 * Z.of_nat k.
Proof.
  revert s. induction k as [|k IH]; intros s; [done|]. cbn [words].
  rewrite zlen_app, zlen_le_bytes, IH. lia.
Qed.

Lemma words_bytes k s : Forall is_byte (words k s).
Proof.
  revert s. induction k as [|k IH]; intros s; [constructor|]. cbn [words]. apply Forall_app. split; [|done].
  unfold to_le_bytes. change (map ?f ?l) with (f <$> l). apply Forall_fmap, Forall_forall. intros i _.
  unfold compose, is_byte. change 0xFF with (Z.ones 8). rewrite Z.land_ones by lia.
  apply Z.mod_pos_bound. lia.
Qed.

Lemma words_prefix j k s : (j <= k)%nat -> ztake (8 * Z.of_nat j) (words k s) = words j s.
Proof.
  revert k s. induction j as [|j IH]; intros k s Hjk; [done|].
  destruct k as [|k]; [lia|]. cbn [words]. rewrite <- (IH k (xorshift s)) by lia.
  unfold ztake. rewrite take_app_ge by (change (length (to_le_bytes _)) with 8%nat; lia).
  do 2 f_equal. change (length (to_le_bytes _)) with 8%nat. lia.
Qed.

(** The loop stops as soon as there are enough bytes, and they are the
    generator's. *)
Lemma payload_loop_spec fuel size state buffer :
  size <= zlen buffer + 8 * Z.of_nat fuel ->
  exists j, (j <= fuel)%nat /\ payload_loop fuel size state buffer = Some (buffer ++ words j state) /\
    size <= zlen buffer + 8 * Z.of_nat j.
Proof.
  revert state buffer. induction fuel as [|fuel IH]; intros state buffer Hf; cbn [payload_loop];
    destruct (Z.ltb_spec (zlen buffer) size).
  - lia.
  - exists O. rewrite app_nil_r. split; [lia|]. split; [done|lia].
  - destruct (IH (xorshift state) (buffer ++ to_le_bytes (xorshift state))) as (j & Hj & -> & Hs).
    { rewrite zlen_app, zlen_le_bytes. lia. }
    exists (S j). split; [lia|]. cbn [words]. rewrite <- (assoc_L (++)). split; [done|].
    rewrite zlen_app, zlen_le_bytes in Hs. lia.
  - exists O. rewrite app_nil_r. split; [lia|]. split; [done|lia].
Qed.

Lemma payload_words size k :
  0 <= size <= 8 * Z.of_nat k -> size < 2 ^ 63 -> payload size = Ok (ztake size (words k SEED)).
Proof.
  intros Hs Hsmall. unfold payload, capacity_overflow. rewrite (proj2 (Z.leb_gt _ _)) by lia.
  pose proof (div_ceil_spec size 8 ltac:(lia) ltac:(lia)) as Hc.
  pose proof (div_ceil_nonneg size 8 ltac:(lia) ltac:(lia)).
  destruct (payload_loop_spec (Z.to_nat (div_ceil size 8)) size SEED []) as (j & Hj & -> & Hj2).
  { change (zlen (@nil Z)) with 0. lia. }
  change (zlen (@nil Z)) with 0 in Hj2. cbn. f_equal.
  assert (Hjk : (j <= k)%nat \/ (k <= j)%nat) by lia. unfold ztake. destruct Hjk as [Hjk|Hjk].
  - rewrite <- (words_prefix j k) by done. unfold ztake. rewrite take_take. f_equal. lia.
  - rewrite <- (words_prefix k j SEED) by done. unfold ztake. rewrite take_take. f_equal. lia.
Qed.

(** What making a payload comes to. *)
Lemma payload_cases size :
  0 <= size ->
  match payload size with
  | Ok p => zlen p = size
  | Err f => f = Panicked /\ 2 ^ 63 <= size
  end.
Proof.
  intros Hs. destruct (Z.ltb_spec size (2 ^ 63)).
  - rewrite (payload_words size (Z.to_nat size)) by lia.
    etransitivity; [apply zlen_ztake; lia|]. rewrite zlen_words. lia.
  - unfold payload, capacity_overflow. by rewrite (proj2 (Z.leb_le _ _)) by lia.
Qed.

(** The payload of any size a vector can have exists: the loop ends, within one turn
    per eight bytes.  It has exactly the size asked for, it is made of bytes, and it
    is the same in every run; payloads of different sizes are prefixes of one
    stream.  A larger size panics. *)
Theorem payload_spec size :
  0 <= size ->
  if size <? 2 ^ 63 then
    exists p, payload size = Ok p /\ zlen p = size /\ Forall is_byte p /\
      forall size', 0 <= size' <= size -> payload size' = Ok (ztake size' p)
  else payload size = Err Panicked.
Proof.
  intros Hs. destruct (Z.ltb_spec size (2 ^ 63)).
  2: { unfold payload, capacity_overflow. by rewrite (proj2 (Z.leb_le _ _)) by lia. }
  set (k := Z.to_nat size). exists (ztake size (words k SEED)).
  split; [apply payload_words; lia|]. split; [rewrite zlen_ztake, zlen_words by lia; lia|].
  split; [apply Forall_take, words_bytes|]. intros size' Hs'.
  rewrite (payload_words size' k) by lia. f_equal. unfold ztake. rewrite take_take. f_equal. lia.
Qed.

Lemma payload_spec_witness :
  exists p, payload 4097 = Ok p /\ zlen p = 4097.
Proof. destruct (payload_spec 4097) as (p & Hp & Hl & _); [lia|]. exists p. auto. Defined.

(** ** results.csv *)

(** The pieces of a text between the separators. *)
Fixpoint split_on (sep : Z) (s : str) : list str :=
  match s with
  | [] => [[]]
  | c :: s =>
      if c =? sep then [] :: split_on sep s
      else match split_on sep s with
           | piece :: l => (c :: piece) :: l
           | [] => [[c]]
           end
  end.

Lemma split_on_last sep a : Forall (fun c => c <> sep) a -> split_on sep a = [a].
Proof.
  induction 1 as [|c a Hc _ IH]; [done|]. cbn. by rewrite (proj2 (Z.eqb_neq _ _) Hc), IH.
Qed.

Lemma split_on_app sep a s :
  Forall (fun c => c <> sep) a -> split_on sep (a ++ sep :: s) = a :: split_on sep s.
Proof.
  induction 1 as [|c a Hc _ IH]; [cbn; by rewrite Z.eqb_refl|]. cbn.
  by rewrite (proj2 (Z.eqb_neq _ _) Hc), IH.
Qed.

(** Text with neither a comma nor the end of a line. *)
Definition plain (s : str) : Prop := Forall (fun c => c <> 44 /\ c <> 10) s.

Lemma plain_lit s : forallb (fun c => negb (c =? 44) && negb (c =? 10)) s = true -> plain s.
Proof.
  intros H. apply Forall_forall. intros c Hc. rewrite forallb_forall in H.
  specialize (H c ltac:(by apply list_elem_of_In)). lia.
Qed.

Lemma dec_digits_chars fuel n acc :
  Forall (fun c => 48 <= c <= 57) acc -> Forall (fun c => 48 <= c <= 57) (dec_digits fuel n acc).
Proof.
  revert n acc. induction fuel as [|fuel IH]; intros n acc Hacc; [done|]. cbn [dec_digits].
  pose proof (Z.mod_pos_bound n 10 ltac:(lia)).
  assert (Forall (fun c => 48 <= c <= 57) (48 + n mod 10 :: acc)) by (constructor; [lia|done]).
  destruct (n <? 10); [done|by apply IH].
Qed.

Lemma plain_uint n : plain (show_uint n).
Proof.
  eapply Forall_impl; [by apply dec_digits_chars|]. intros c Hc. cbn beta in Hc. lia.
Qed.

Lemma plain_app a b : plain a -> plain b -> plain (a ++ b).
Proof. intros. by apply Forall_app. Qed.

Lemma plain_fixed k x : plain (show_fixed k x).
Proof.
  unfold show_fixed. apply plain_app; [destruct (sign_of x); by apply plain_lit|].
  destruct x; try (by apply plain_lit);
    (apply plain_app; [apply plain_uint|]; destruct k; [constructor|];
     apply plain_app; [by apply plain_lit|]; unfold pad_zeros; apply plain_app; [|apply plain_uint];
     apply Forall_replicate; lia).
Qed.

Create HintDb csv discriminated.
#[export] Hint Resolve plain_uint plain_fixed : csv.

(** The columns of a row. *)
Definition csv_fields (sweep : str) (s : Sample) : list str :=
  [sweep; label (s_engine s); show_uint (s_connections s); show_uint (s_body_bytes s);
   show_uint (s_requests s); show_fixed 1 (s_rps s); show_fixed 4 (s_mean_ms s); show_fixed 4 (s_p50_ms s);
   show_fixed 4 (s_p99_ms s); show_fixed 4 (s_cores s); show_fixed 2 (s_cpu_us_per_request s)].

Lemma csv_fields_plain sweep s : plain sweep -> Forall plain (csv_fields sweep s).
Proof.
  intros Hs. repeat constructor; auto with csv. destruct (s_engine s); by apply plain_lit.
Qed.

(** Fields joined by commas. *)
Fixpoint join (fields : list str) : str :=
  match fields with
  | [] => []
  | [a] => a
  | a :: l => a ++ 44 :: join l
  end.

Lemma split_join a l : Forall plain (a :: l) -> split_on 44 (join (a :: l)) = a :: l.
Proof.
  assert (Hp : forall a, plain a -> Forall (fun c => c <> 44) a).
  { intros b Hb. eapply Forall_impl; [exact Hb|]. by intros c []. }
  revert a. induction l as [|b l IH]; intros a [Ha Hl]%Forall_cons; cbn [join].
  - apply split_on_last. auto.
  - rewrite split_on_app by auto. f_equal. by apply IH.
Qed.

Lemma join_lines a l : Forall plain (a :: l) -> Forall (fun c => c <> 10) (join (a :: l)).
Proof.
  assert (Hp : forall a, plain a -> Forall (fun c => c <> 10) a).
  { intros b Hb. eapply Forall_impl; [exact Hb|]. by intros c []. }
  revert a. induction l as [|b l IH]; intros a [Ha Hl]%Forall_cons; cbn [join]; [auto|].
  apply Forall_app. split; [auto|]. constructor; [lia|]. by apply IH.
Qed.

Lemma csv_row_join sweep s : csv_row sweep s = join (csv_fields sweep s).
Proof. reflexivity. Qed.

Lemma split_lines sweep l tail :
  plain sweep ->
  split_on 10 (flat_map (fun s => csv_row sweep s ++ [10]) l ++ tail) =
    map (csv_row sweep) l ++ split_on 10 tail.
Proof.
  intros Hs. induction l as [|s l IH]; [done|]. cbn [flat_map map]. rewrite <- !(assoc_L (++)).
  cbn [app]. rewrite split_on_app; [by rewrite IH|]. rewrite csv_row_join.
  apply join_lines, csv_fields_plain, Hs.
Qed.

(** C38. results.csv reads back.  Cut at the ends of lines and at the commas, it is
    the header, one row per sample, the concurrency sweep's before the size
    sweep's and each in the order measured, and the empty rest of the last line.
    Every row has exactly the eleven columns the header names, whatever the
    numbers, infinite ones included; and the three integer columns parse back to
    the sample's connections, body bytes and requests. *)
Theorem csv_wellformed concurrency size :
  let rows := map (csv_fields (lit "concurrency")) concurrency ++ map (csv_fields (lit "size")) size in
  map (split_on 44) (split_on 10 (csv concurrency size)) = (split_on 44 csv_header :: rows) ++ [[[]]] /\
  Forall (fun row => length row = length (split_on 44 csv_header)) rows /\
  forall sweep s, in_u 64 (s_connections s) -> in_u 64 (s_body_bytes s) -> in_u 64 (s_requests s) ->
    map (parse_uint 64) (take 3 (drop 2 (csv_fields sweep s))) =
      [Some (s_connections s); Some (s_body_bytes s); Some (s_requests s)].
Proof.
  cbn zeta. split; [|split].
  - unfold csv. cbn [app]. rewrite split_on_app by by repeat (constructor; [discriminate|]).
    rewrite (split_lines (lit "concurrency") concurrency) by by apply plain_lit.
    rewrite <- (app_nil_r (flat_map _ size)).
    rewrite (split_lines (lit "size") size) by by apply plain_lit. cbn [map app].
    rewrite !map_app, !map_map. f_equal. rewrite <- (assoc_L (++)). f_equal; [|f_equal];
      apply map_ext; intros s; rewrite csv_row_join; apply split_join, csv_fields_plain; by apply plain_lit.
  - apply Forall_forall. intros row [Hr|Hr]%elem_of_app; apply list_elem_of_fmap in Hr as (s & -> & _);
      reflexivity.
  - intros sweep s Hc Hb Hr. cbn [csv_fields drop take map]. by rewrite !parse_show_uint by done.
Qed.

Lemma csv_wellformed_witness :
  let s := mkSample Axum (f64_of 8) 1024 8 7 INFINITY (f64_lit 1 3) (f64_of 0) (f64_of 9) (f64_of 0) (f64_of 1) in
  map (parse_uint 64) (take 3 (drop 2 (csv_fields (lit "size") s))) = [Some 8; Some 1024; Some 7].
Proof. intros s. apply (csv_wellformed [] [s]); vm_compute; split; congruence. Defined.

(** ** Selecting *)

Section select_facts.
Context (nan_key : Z).

Lemma max_by_spec {A} (metric : A -> f64) l s0 :
  let m := foldl (fun m s =>
    match total_cmp nan_key (metric m) (metric s) with Gt => m | _ => s end) s0 l in
  m ∈ s0 :: l /\
  Forall (fun s => total_key nan_key (metric s) <= total_key nan_key (metric m)) (s0 :: l).
Proof.
  revert s0. induction l as [|s l IH]; intros s0; cbn zeta; cbn [foldl].
  - split; [set_solver|]. by repeat constructor.
  - set (m := match total_cmp nan_key (metric s0) (metric s) with Gt => s0 | _ => s end).
    assert (Hm : m ∈ [s0; s] /\ total_key nan_key (metric s0) <= total_key nan_key (metric m) /\
      total_key nan_key (metric s) <= total_key nan_key (metric m)).
    { unfold m, total_cmp.
      destruct (Z.compare_spec (total_key nan_key (metric s0)) (total_key nan_key (metric s)));
        (split; [set_solver|lia]). }
    destruct Hm as (Hin & H1 & H2). destruct (IH m) as [Hf Hall].
    apply Forall_cons in Hall as [H3 Hall]. split.
    { change (s0 :: s :: l) with ([s0; s] ++ l). apply elem_of_app.
      apply elem_of_cons in Hf as [->|Hf]; auto. }
    repeat constructor; [lia|lia|done].
Qed.

Lemma sign_rank x : is_nan x = false -> if sign_of x then rank x <= 0 else 0 <= rank x.
Proof.
  intros Hn. destruct x as [s|s| |s m e]; try done.
  - by destruct s.
  - destruct s; vm_compute; congruence.
  - cbn [sign_of rank units]. pose proof (Z.pow_nonneg 2 (e + 1074) ltac:(lia)).
    destruct s; cbn [cond_Zopp]; nia.
Qed.

(** [total_cmp] agrees with the order of the numbers. *)
Lemma total_key_le x y :
  number x -> number y -> total_key nan_key x <= total_key nan_key y -> f64_le x y = true.
Proof.
  intros [Vx Nx] [Vy Ny] Hle. rewrite f64_le_rank by done. apply Z.leb_le. revert Hle.
  pose proof (sign_rank x Nx). pose proof (sign_rank y Ny). unfold total_key. rewrite Nx, Ny.
  destruct (sign_of x), (sign_of y); lia.
Qed.

Definition has_engine (samples : list Sample) (e : Engine) : bool :=
  existsb (fun s => bool_decide (s_engine s = e)) samples.

Lemma of_engine_elem e samples s : s ∈ of_engine e samples <-> s ∈ samples /\ s_engine s = e.
Proof.
  unfold of_engine. rewrite !list_elem_of_In, filter_In, bool_decide_eq_true. done.
Qed.

Lemma of_engine_none e samples : of_engine e samples = [] <-> has_engine samples e = false.
Proof.
  unfold of_engine, has_engine. induction samples as [|s l IH]; [done|]. cbn.
  by destruct (bool_decide _).
Qed.

(** The best sample of one engine. *)
Lemma max_by_engine metric e samples :
  match max_by (fun a b => total_cmp nan_key (metric a) (metric b)) (of_engine e samples) with
  | Some s => has_engine samples e = true /\ s ∈ samples /\ s_engine s = e /\
      Forall (fun s' => s_engine s' = e -> total_key nan_key (metric s') <= total_key nan_key (metric s)) samples
  | None => has_engine samples e = false
  end.
Proof.
  pose proof (of_engine_none e samples) as Hnone.
  destruct (of_engine e samples) as [|s0 l] eqn:Hof; [by apply Hnone|]. cbn [max_by].
  destruct (max_by_spec metric l s0) as [Hin Hall]. set (m := foldl _ s0 l) in *.
  rewrite <- Hof in Hin, Hall. apply of_engine_elem in Hin as [Hin He].
  split; [destruct (has_engine samples e); [done|by destruct Hnone as [_ Hn]; discriminate Hn]|].
  do 2 (split; [done|]). apply Forall_forall. intros s' Hs' Heng. rewrite Forall_forall in Hall.
  apply Hall, of_engine_elem. done.
Qed.

Lemma best_engines samples metric :
  map s_engine (best nan_key samples metric) = List.filter (has_engine samples) ENGINES.
Proof.
  unfold best, ENGINES. cbn [omap list_omap List.filter].
  pose proof (max_by_engine metric Httpsys samples) as H1.
  pose proof (max_by_engine metric Axum samples) as H2.
  destruct (max_by _ (of_engine Httpsys samples)) as [s1|], (max_by _ (of_engine Axum samples)) as [s2|];
    cbn [map]; repeat match goal with H : _ /\ _ |- _ => destruct H end;
    repeat match goal with H : has_engine _ _ = _ |- _ => rewrite H; clear H end; congruence.
Qed.

Lemma best_nil samples metric : best nan_key samples metric = [] <-> samples = [].
Proof.
  split; [|by intros ->]. intros Hb. pose proof (best_engines samples metric) as He. rewrite Hb in He.
  destruct samples as [|s l]; [done|]. cbn [map ENGINES List.filter has_engine existsb] in He.
  destruct (s_engine s); cbn in He; repeat case_match; done.
Qed.

(** The best samples, for any metric that is a number: one per engine that was
    measured at all, in the order of the engines, a sample of the run whose metric
    no other sample of that engine exceeds. *)
Theorem best_spec samples metric :
  Forall (fun s => number (metric s)) samples ->
  map s_engine (best nan_key samples metric) = List.filter (has_engine samples) ENGINES /\
  forall s, s ∈ best nan_key samples metric ->
    s ∈ samples /\
    Forall (fun s' => s_engine s' = s_engine s -> f64_le (metric s') (metric s) = true) samples.
Proof.
  intros Hnum. split; [apply best_engines|]. intros s (e & _ & Hs)%list_elem_of_omap.
  pose proof (max_by_engine metric e samples) as Hm. rewrite Hs in Hm.
  destruct Hm as (_ & Hin & He & Hall). split; [done|]. rewrite Forall_forall in Hnum, Hall.
  apply Forall_forall. intros s' Hs' Heng. apply total_key_le; [by apply Hnum|by apply Hnum|].
  apply Hall; [done|congruence].
Qed.

(** ** The report *)

Lemma compare_panics title samples describe ratio :
  snd (compare title samples describe ratio) = bool_decide (samples = []).
Proof. by destruct samples as [|? [|? [|]]]. Qed.

Lemma then_print_panics a b : snd (then_print a b) = snd a || snd b.
Proof. by destruct a as [l []], b. Qed.

Lemma report_panic_eq concurrency size :
  snd (report nan_key concurrency size) = bool_decide (concurrency = [] \/ size = []).
Proof.
  unfold report. rewrite !then_print_panics, !compare_panics. cbn [snd orb].
  rewrite !(bool_decide_ext _ _ (best_nil _ _)). rewrite bool_decide_or.
  by destruct (bool_decide (concurrency = [])), (bool_decide (size = [])).
Qed.
End select_facts.

(** Two engines, two points each. *)
Definition demo_sample (e : Engine) (x rps : Z) : Sample :=
  mkSample e (f64_of x) 1024 x 100 (f64_of rps) (f64_of 1) (f64_of 1) (f64_of 2) (f64_lit 1 2) (f64_of 10).
Definition demo_samples : list Sample :=
  [demo_sample Httpsys 1 10; demo_sample Httpsys 2 90; demo_sample Axum 1 50].

Lemma best_spec_witness :
  map s_engine (best 0 demo_samples s_rps) = ENGINES /\ map s_rps (best 0 demo_samples s_rps) = [f64_of 90; f64_of 50].
Proof.
  split; [|vm_compute; reflexivity].
  rewrite (proj1 (best_spec 0 demo_samples s_rps ltac:(repeat constructor))). reflexivity.
Defined.

Example sweep_tests :
  series_for 0 [demo_sample Httpsys 8 80; demo_sample Axum 4 40; demo_sample Httpsys 2 20] Httpsys s_rps =
    [(f64_of 2, f64_of 20); (f64_of 8, f64_of 80)] /\
  csv_row (lit "size") (demo_sample Axum 8 80) =
    lit "size,axum,8,1024,100,80.0,1.0000,1.0000,2.0000,0.5000,10.00" /\
  map (fun s => result_map zlen (payload s)) [0; 1; 7; 8; 4097] = [Ok 0; Ok 1; Ok 7; Ok 8; Ok 4097] /\
  payload (2 ^ 63) = Err Panicked /\
  last (fst (compare (lit "t") (best 0 demo_samples s_rps) (fun _ => []) (fun a b => f64_div (s_rps a) (s_rps b)))) =
    Some (lit "  -> httpsys is 1.80x faster than axum").
Proof. vm_compute. repeat split. Qed.
