(* ===== verification/BenchRun.v ===== *)
(** * The sweep over child processes (tools/httpbench/src/sweep.rs)

    [ServerProcess], the measuring loops and [run], over an interface for the
    system.  The interface counts on nothing but what it leaves in the log of
    process events, so that the theorems say which processes are started, killed
    and waited for on every path.  A measurement is a run of [BenchLoad]. *)

From stdpp Require Import sorting.
From S2P Require Import Prelude RustStd Float64 BenchFmt BenchLoad BenchCpu BenchChart BenchServers.
From S2P Require Import BenchSweep.
Set Warnings "-clear-no-such-hyp".
#[local] Open Scope Z_scope.
#[local] Open Scope rust_scope.

(** ** The system *)

Record ChildCommand := mkCommand { program : str; args : list str }.

(** The operations of the sweep that wait or fail, beside those of the network and
    of CPU accounting; an error is its text, a child is its id. *)
Class Harness (Sy : Type) := {
  (** [println!] with its text *)
  println : str -> Sy -> unit * Sy;
  create_dir_all : str -> Sy -> Result str unit * Sy;
  (** the tokio runtime *)
  runtime_new : Sy -> Result str unit * Sy;
  write_file : str -> str -> Sy -> Result str unit * Sy;
  current_exe : Sy -> Result str str * Sy;
  child_spawn : ChildCommand -> Sy -> Result str Z * Sy;
  (** [Ok true]: the child is gone *)
  child_try_wait : Z -> Sy -> Result str bool * Sy;
  child_kill : Z -> Sy -> Result str unit * Sy;
  child_wait : Z -> Sy -> Result str unit * Sy;
  (** [Path::join] *)
  path_join : str -> str -> str;
}.

Record ServerProcess := mkProcess { child : Z; cpu : Z }.

Section sweep.
Context `{Network Sy, LoadHost Sy, ProcessApi Sy, Plotters Sy, Harness Sy} (show_status : Z -> str) (nan_key : Z).
Context (parallelism : option Z) (arch : str).

(** ** [ServerProcess] *)

Definition READY_TIMEOUT : Z := 20 * NANOS.
(** One turn per 25 ms, and two. *)
Definition READY_FUEL : nat := 802.

(** It returns unless a probe does not, by [ready_done] below. *)
Definition wait_ready (o : SweepOptions) (port : Z) : M Sy (Result Failure unit) :=
  wait_until_ready show_status READY_FUEL (load_spec o port [] 1) READY_TIMEOUT.

(** [Drop for ServerProcess], then its fields. *)
Definition process_drop (server : ServerProcess) : M Sy unit :=
  let! _ := child_kill (child server) in
  let! _ := child_wait (child server) in
  cpu_drop (cpu server).

(** Leaving a place that owns the server: an error and a panic drop it; who never
    returns does not. *)
Definition abandon {A} (server : ServerProcess) (f : Failure) : M Sy (Result Failure A) :=
  match f with
  | Never => mret (Err Never)
  | Failed _ | Panicked => let! _ := process_drop server in mret (Err f)
  end.

Definition server_command (exe : str) (e : Engine) (port : Z) (o : SweepOptions) : ChildCommand :=
  mkCommand exe
    ([lit "serve"; lit "--engine"; label e; lit "--port"; show_uint port; lit "--path"; o_path o] ++
     (if o_kernel_cache o && bool_decide (e = Httpsys) then [lit "--kernel-cache"] else [])).

(** [ServerProcess::spawn]: an error after the value exists drops it; before that
    the child alone is dropped, which neither kills it nor waits for it. *)
Definition process_spawn (e : Engine) (port : Z) (o : SweepOptions) : M Sy (Result Failure ServerProcess) :=
  let? exe := failing current_exe in
  let? pid := failing (child_spawn (server_command exe e port o)) in
  let? handle := failing (cpu_open pid) in
  let server := mkProcess pid handle in
  let! ready := wait_ready o port in
  match ready with
  | Ok _ => mret (Ok server)
  | Err f => abandon server f
  end.

Definition POLL_INTERVAL : Z := 50000000.

(** The polling loop of [stop]; [true] when it saw the child gone. *)
Fixpoint poll_child (polls : nat) (pid : Z) : M Sy bool :=
  match polls with
  | O => mret false
  | S polls =>
      let! a := child_try_wait pid in
      match a with
      | Ok true => mret true
      | Ok false => let! _ := sleep POLL_INTERVAL in poll_child polls pid
      | Err _ => mret false
      end
  end.

(** [ServerProcess::stop]: it owns the process, which is dropped when it returns.  The
    answer to the request does not matter, but that there is one does. *)
Definition process_stop (server : ServerProcess) (o : SweepOptions) (port : Z) : M Sy (Result Failure unit) :=
  let s := load_spec o port [] 1 in
  let spec := mkSpec (host s) (BenchLoad.port s) (shutdown_path (o_path o)) (body s) (connections s) 0 in
  let! r := single_request show_status spec in
  match r with
  | Err Panicked => abandon server Panicked
  | Err Never => abandon server Never
  | Ok _ | Err (Failed _) =>
      let! gone := poll_child 40 (child server) in
      let! _ :=
        if gone then mret tt
        else
          let! _ := child_kill (child server) in
          let! _ := child_wait (child server) in
          mret tt in
      let! _ := process_drop server in
      mret (Ok tt)
  end.

(** ** The measuring loops *)

Definition sample_of (e : Engine) (x : f64) (spec : LoadSpec) (before after : CpuSnapshot) (r : LoadResult) :
    Sample :=
  mkSample e x (zlen (body spec)) (connections spec) (requests r) (requests_per_second r) (mean_ms r)
    (default (f64_of 0) (percentile_ms r (f64_lit 1 2)))
    (default (f64_of 0) (percentile_ms r (f64_lit 99 100)))
    (cores_between before after)
    (if requests r =? 0 then f64_of 0
     else f64_div (f64_mul (as_secs_f64 (cpu_between before after)) (f64_of 1000000)) (f64_of (requests r))).

Definition measure (server : ServerProcess) (e : Engine) (x : f64) (spec : LoadSpec) (o : SweepOptions) :
    M Sy (Result Failure Sample) :=
  let? _ :=
    if o_warmup o =? 0 then mret (Ok load_result_default)
    else
      run_load show_status
        (mkSpec (host spec) (port spec) (path spec) (body spec) (connections spec) (o_warmup o)) in
  let? before := failing (snapshot (cpu server)) in
  let? result := run_load show_status spec in
  let? after := failing (snapshot (cpu server)) in
  mret (Ok (sample_of e x spec before after result)).

(** The loop of both sweeps over the values of the axis: the load at a value, and
    the line printed for its sample. *)
Fixpoint measure_all (server : ServerProcess) (e : Engine) (o : SweepOptions) (spec : Z -> Result Failure LoadSpec)
    (line : Z -> Sample -> str) (values : list Z) (samples : list Sample) : M Sy (Result Failure (list Sample)) :=
  match values with
  | [] => mret (Ok samples)
  | v :: values =>
      let? spec_v := mret (spec v) in
      let? sample := measure server e (f64_of v) spec_v o in
      let! _ := println (line v sample) in
      measure_all server e o spec line values (samples ++ [sample])
  end.

(** A sweep, once its server runs: [specs] is what is made before the loop, the load
    at a value.  An error or a panic on the way drops the server. *)
Definition sweep_with (e : Engine) (port : Z) (o : SweepOptions)
    (specs : Result Failure (Z -> Result Failure LoadSpec)) (line : Z -> Sample -> str) (values : list Z) :
    M Sy (Result Failure (list Sample)) :=
  let? server := process_spawn e port o in
  let! r := (let? spec := mret specs in measure_all server e o spec line values []) in
  match r with
  | Ok samples => let? _ := process_stop server o port in mret (Ok samples)
  | Err f => abandon server f
  end.

Definition concurrency_line (v : Z) (s : Sample) : str :=
  lit "  conn " ++ pad_left 4 (show_uint v) ++ lit "  " ++ pad_left 9 (fmt.rate (s_rps s)) ++
  lit " req/s  p50 " ++ pad_left 9 (fmt.millis (s_p50_ms s)) ++ lit "  p99 " ++
  pad_left 9 (fmt.millis (s_p99_ms s)) ++ lit "  cpu " ++ pad_left 5 (fmt.cores (s_cores s)) ++ lit " cores".

Definition size_line (v : Z) (s : Sample) : str :=
  lit "  body " ++ pad_left 8 (fmt.bytes (f64_of v)) ++ lit "  " ++ pad_left 9 (fmt.rate (s_rps s)) ++
  lit " req/s  " ++ pad_left 6 (fmt.mib_per_second (mib_per_second s)) ++ lit " MiB/s  mean " ++
  pad_left 9 (fmt.millis (s_mean_ms s)) ++ lit "  cpu " ++ pad_left 5 (fmt.cores (s_cores s)) ++ lit " cores".

(** The body is made once, before the loop. *)
Definition concurrency_sweep (e : Engine) (port : Z) (o : SweepOptions) : M Sy (Result Failure (list Sample)) :=
  sweep_with e port o
    (result_map (fun body v => Ok (load_spec o port body v)) (payload (o_concurrency_sweep_bytes o)))
    concurrency_line (o_connections o).

(** A body for every size. *)
Definition size_sweep (e : Engine) (port : Z) (o : SweepOptions) : M Sy (Result Failure (list Sample)) :=
  sweep_with e port o
    (Ok (fun v => result_map (fun body => load_spec o port body (o_size_sweep_connections o)) (payload v)))
    size_line (o_sizes o).

(** ** [run] *)

(** The loop over the engines, from [index] on. *)
Fixpoint engines_loop (o : SweepOptions) (index : nat) (engines : list Engine) (concurrency size : list Sample) :
    M Sy (Result Failure (list Sample * list Sample)) :=
  match engines with
  | [] => mret (Ok (concurrency, size))
  | e :: engines =>
      let? port := failing (mret (port_for (o_ports o) index)) in
      let! _ := println ([10] ++ lit "=== " ++ label e ++ lit " on http://127.0.0.1:" ++ show_uint port ++
        o_path o ++ lit " ===") in
      let? c := concurrency_sweep e port o in
      let? s := size_sweep e port o in
      engines_loop o (S index) engines (concurrency ++ c) (size ++ s)
  end.

Fixpoint print_all (lines : list str) : M Sy unit :=
  match lines with
  | [] => mret tt
  | l :: lines => let! _ := println l in print_all lines
  end.

Fixpoint render_all (dir : str) (cs : list (Chart * str)) : M Sy (Result str unit) :=
  match cs with
  | [] => mret (Ok tt)
  | (c, file) :: cs => let? _ := render c (path_join dir file) in render_all dir cs
  end.

Definition write_charts (dir : str) (concurrency size : list Sample) : M Sy (Result str unit) :=
  render_all dir (charts nan_key (machine_summary parallelism arch) concurrency size).

Definition write_csv (path : str) (concurrency size : list Sample) : M Sy (Result str unit) :=
  write_file path (csv concurrency size).

(** The end of [run], the report first. *)
Definition write_results (o : SweepOptions) (concurrency size : list Sample) : M Sy (Result Failure unit) :=
  let '(lines, panics) := report nan_key concurrency size in
  let! _ := print_all lines in
  if panics then mret (Err Panicked)
  else
    failing
      (let? _ := write_csv (path_join (o_out_dir o) (lit "results.csv")) concurrency size in
       let? _ := write_charts (o_out_dir o) concurrency size in
       let! _ := println ([10] ++ lit "Charts and results.csv written to " ++ o_out_dir o) in
       mret (Ok tt)).

Definition run (o : SweepOptions) : M Sy (Result Failure unit) :=
  let? _ := failing (create_dir_all (o_out_dir o)) in
  let? _ := failing runtime_new in
  let? samples := engines_loop o 0 ENGINES [] [] in
  write_results o (fst samples) (snd samples).
End sweep.

(** ** What is known of the system: the events it logs *)

Inductive Event :=
  | Started (pid : Z)
  | Opened (handle : Z)
  | Killed (pid : Z)
  | Waited (pid : Z)
  | Closed (handle : Z).

(** An operation that logs nothing. *)
Definition silent {Sy A} (events : Sy -> list Event) (m : M Sy A) : Prop :=
  forall n, events (snd (m n)) = events n.
(** An operation that logs [l] when it gives [x]. *)
Definition logs {Sy A} (events : Sy -> list Event) (m : M Sy A) (l : A -> list Event) : Prop :=
  forall n, events (snd (m n)) = events n ++ l (fst (m n)).

Class HarnessLaws Sy `{Network Sy, LoadHost Sy, ProcessApi Sy, Plotters Sy, Harness Sy} := {
  events : Sy -> list Event;
  child_spawn_logs c :
    logs events (child_spawn c) (fun r => match r with Ok pid => [Started pid] | Err _ => [] end);
  OpenProcess_logs pid :
    logs events (OpenProcess pid) (fun r => match r with Ok h => [Opened h] | Err _ => [] end);
  child_kill_logs pid : logs events (child_kill pid) (fun _ => [Killed pid]);
  child_wait_logs pid : logs events (child_wait pid) (fun _ => [Waited pid]);
  CloseHandle_logs h : logs events (CloseHandle h) (fun _ => [Closed h]);
  instant_now_silent : silent events instant_now;
  sleep_silent d : silent events (sleep d);
  tcp_connect_silent a : silent events (tcp_connect a);
  http_handshake_silent : silent events http_handshake;
  request_build_silent r : silent events (request_build r);
  send_request_silent r : silent events (send_request r);
  collect_body_silent : silent events collect_body;
  hang_up_silent : silent events hang_up;
  GetProcessTimes_silent h : silent events (GetProcessTimes h);
  process_clock_silent : silent events process_clock;
  println_silent s : silent events (println s);
  create_dir_all_silent d : silent events (create_dir_all d);
  runtime_new_silent : silent events runtime_new;
  write_file_silent f s : silent events (write_file f s);
  plot_silent f size c : silent events (plot f size c);
  current_exe_silent : silent events current_exe;
  child_try_wait_silent pid : silent events (child_try_wait pid);
  load_tasks_silent s d : silent events (load_tasks s d);
}.

Create HintDb silent discriminated.
#[export] Hint Resolve instant_now_silent sleep_silent tcp_connect_silent http_handshake_silent
  request_build_silent send_request_silent collect_body_silent hang_up_silent GetProcessTimes_silent
  process_clock_silent println_silent create_dir_all_silent runtime_new_silent write_file_silent
  plot_silent current_exe_silent child_try_wait_silent load_tasks_silent : silent.

Section emits.
Context `{HarnessLaws Sy} (show_status : Z -> str) (nan_key : Z) (parallelism : option Z) (arch : str).

(** The result of a run and the events it adds. *)
Definition emits {A} (m : M Sy A) (R : A -> list Event -> Prop) : Prop :=
  forall n, exists l, events (snd (m n)) = events n ++ l /\ R (fst (m n)) l.

Lemma emits_ret {A} (x : A) (R : A -> list Event -> Prop) : R x [] -> emits (mret x) R.
Proof. intros HR n. exists []. by rewrite app_nil_r. Qed.

Lemma emits_bind {A B} (m : M Sy A) (f : A -> M Sy B) R R' :
  emits m R -> (forall x l, R x l -> emits (f x) (fun y l' => R' y (l ++ l'))) -> emits (mbind m f) R'.
Proof.
  intros Hm Hf n. destruct (Hm n) as (l & El & HR). unfold mbind. destruct (m n) as [x n1].
  destruct (Hf x l HR n1) as (l' & El' & HR'). exists (l ++ l'). cbn [fst snd] in *.
  by rewrite El', El, (assoc_L (++)).
Qed.

Lemma emits_logs {A} (m : M Sy A) l : logs events m l -> emits m (fun x l' => l' = l x).
Proof. intros Hm n. exists (l (fst (m n))). by rewrite Hm. Qed.

Lemma emits_silent {A} (m : M Sy A) : silent events m -> emits m (fun _ l => l = []).
Proof. intros Hm n. exists []. by rewrite Hm, app_nil_r. Qed.

Lemma emits_after {A B} (m : M Sy A) (f : A -> M Sy B) R :
  silent events m -> (forall x, emits (f x) R) -> emits (mbind m f) R.
Proof. intros Hm Hf. eapply emits_bind; [by apply emits_silent|]. by intros x l ->. Qed.

Lemma emits_impl {A} (m : M Sy A) (R R' : A -> list Event -> Prop) :
  emits m R -> (forall x l, R x l -> R' x l) -> emits m R'.
Proof. intros Hm HR n. destruct (Hm n) as (l & ? & ?). eauto. Qed.

Lemma silent_ret {A} (x : A) : silent events (mret x).
Proof. by intros n. Qed.

Lemma silent_bind {A B} (m : M Sy A) (f : A -> M Sy B) :
  silent events m -> (forall x, silent events (f x)) -> silent events (mbind m f).
Proof.
  intros Hm Hf n. unfold mbind. specialize (Hm n). destruct (m n) as [x n1]. by rewrite Hf.
Qed.

Lemma silent_try {E A B} (m : M Sy (Result E A)) (f : A -> M Sy (Result E B)) :
  silent events m -> (forall x, silent events (f x)) -> silent events (mtry m f).
Proof. intros Hm Hf. apply silent_bind; [done|]. intros [x|e]; [done|apply silent_ret]. Qed.

Lemma silent_failing {A} (m : M Sy (Result str A)) : silent events m -> silent events (failing m).
Proof. intros Hm. apply silent_bind; [done|intros r; apply silent_ret]. Qed.

Lemma silent_returned {A} (m : M Sy (option A)) : silent events m -> silent events (returned m).
Proof. intros Hm. apply silent_bind; [done|intros r; apply silent_ret]. Qed.

Lemma silent_await {A} (m : M Sy (option (Result str A))) : silent events m -> silent events (await m).
Proof. intros Hm. apply silent_try; [by apply silent_returned|intros r; apply silent_ret]. Qed.

Ltac silently :=
  repeat lazymatch goal with
  | |- silent _ (mret _) => apply silent_ret
  | |- silent _ (failing _) => apply silent_failing
  | |- silent _ (returned _) => apply silent_returned
  | |- silent _ (await _) => apply silent_await
  | |- silent _ (mtry _ _) => apply silent_try; [|intros ?]
  | |- silent _ (mbind _ _) => apply silent_bind; [|intros ?]
  | |- silent _ (let _ := _ in _) => cbv zeta
  | |- silent _ (match _ with _ => _ end) => case_match
  | |- _ => solve [auto with silent]
  end.

Lemma single_request_silent spec : silent events (single_request show_status spec).
Proof. unfold single_request. silently. Qed.

Lemma ready_loop_silent fuel spec probe deadline last :
  silent events (ready_loop show_status fuel spec probe deadline last).
Proof.
  revert last. induction fuel as [|fuel IH]; intros last; cbn [ready_loop]; [apply silent_ret|].
  silently; try apply single_request_silent; try apply IH.
Qed.

Lemma wait_ready_silent o port : silent events (wait_ready show_status o port).
Proof.
  unfold wait_ready, wait_until_ready. silently. apply ready_loop_silent.
Qed.

Lemma poll_child_silent polls pid : silent events (poll_child polls pid).
Proof.
  induction polls as [|polls IH]; cbn [poll_child]; [apply silent_ret|]. silently; apply IH.
Qed.

Lemma snapshot_silent h : silent events (snapshot h).
Proof. unfold snapshot. silently. Qed.

Lemma run_load_silent spec : silent events (run_load show_status spec).
Proof. unfold run_load. silently. Qed.

Lemma measure_silent server e x spec o : silent events (measure show_status server e x spec o).
Proof.
  unfold measure. apply silent_try; [destruct (o_warmup o =? 0); [apply silent_ret|apply run_load_silent]|].
  intros _. apply silent_try; [apply silent_failing, snapshot_silent|]. intros before.
  apply silent_try; [apply run_load_silent|]. intros r.
  apply silent_try; [apply silent_failing, snapshot_silent|]. intros after. apply silent_ret.
Qed.

Lemma measure_all_silent server e o spec line values samples :
  silent events (measure_all show_status server e o spec line values samples).
Proof.
  revert samples. induction values as [|v values IH]; intros samples; cbn [measure_all];
    [apply silent_ret|].
  apply silent_try; [apply silent_ret|]. intros spec_v. apply silent_try; [apply measure_silent|]. intros s.
  apply silent_bind; [apply println_silent|]. intros _. apply IH.
Qed.

Lemma print_all_silent lines : silent events (print_all lines).
Proof. induction lines as [|l lines IH]; cbn [print_all]; [apply silent_ret|]. silently; apply IH. Qed.

Lemma render_silent c path : silent events (render c path).
Proof.
  unfold render. apply silent_try; [apply silent_ret|]. intros [[[x0 x1] y0] y1].
  generalize (app [Fill; DrawText (caption c) FONT 24 true BLACK (20, 16);
    DrawText (subtitle c) FONT 13 false (mkRGB 110 110 110) (20, 48)] (draw c x0 x1 y0 y1 ++ [Present])).
  intros calls. induction calls as [|call calls IH]; cbn [plot_all]; [apply silent_ret|].
  apply silent_try; [apply plot_silent|]. intros _. apply IH.
Qed.

Lemma render_all_silent dir cs : silent events (render_all dir cs).
Proof.
  induction cs as [|[c f] cs IH]; cbn [render_all]; [apply silent_ret|].
  apply silent_try; [apply render_silent|]. intros _. apply IH.
Qed.

Lemma write_results_silent o concurrency size :
  silent events (write_results nan_key parallelism arch o concurrency size).
Proof.
  unfold write_results. destruct (report nan_key concurrency size) as [lines panics].
  apply silent_bind; [apply print_all_silent|]. intros _. destruct panics; [apply silent_ret|].
  unfold write_csv, write_charts. silently. apply render_all_silent.
Qed.

Lemma write_results_ends o concurrency size n :
  fst (write_results nan_key parallelism arch o concurrency size n) <> Err Never.
Proof.
  unfold write_results. destruct (report nan_key concurrency size) as [lines []]; unfold mbind at 1;
    destruct (print_all lines n) as [u n1]; [done|].
  unfold failing, mbind at 1. by destruct (mtry _ _ n1) as [[]].
Qed.

(** ** The life of a child *)

(** Started, opened, and at the end killed, waited for and closed; killed and waited
    for once more when [stop] did not see it go. *)
Inductive life : list Event -> Prop :=
  | life_quick pid h : life [Started pid; Opened h; Killed pid; Waited pid; Closed h]
  | life_slow pid h : life [Started pid; Opened h; Killed pid; Waited pid; Killed pid; Waited pid; Closed h].

Definition at_end (server : ServerProcess) (l : list Event) : Prop :=
  life ([Started (child server); Opened (cpu server)] ++ l).

Lemma process_drop_emits server :
  emits (process_drop server)
    (fun _ l => l = [Killed (child server); Waited (child server); Closed (cpu server)]).
Proof.
  unfold process_drop, cpu_drop.
  eapply emits_bind; [apply emits_logs, child_kill_logs|]. intros ? ? ->.
  eapply emits_bind; [apply emits_logs, child_wait_logs|]. intros ? ? ->.
  eapply emits_impl; [apply emits_logs, CloseHandle_logs|]. by intros ? ? ->.
Qed.

(** What becomes of a server whose owner is left with [r]: it is over, or its owner
    never returns and it goes on. *)
Definition over {A} (server : ServerProcess) (r : Result Failure A) (l : list Event) : Prop :=
  match r with
  | Err Never => l = []
  | Ok _ | Err (Failed _) | Err Panicked => at_end server l
  end.

Lemma abandon_emits {A} server f : emits (abandon (A := A) server f) (fun r l => r = Err f /\ over server r l).
Proof.
  destruct f; [..|by apply emits_ret]; (eapply emits_bind; [apply process_drop_emits|]; intros ? ? ->);
    apply emits_ret; (split; [done|]; rewrite app_nil_r; constructor).
Qed.

Lemma process_stop_emits server o port : emits (process_stop show_status server o port) (over server).
Proof.
  unfold process_stop. apply emits_after; [apply single_request_silent|].
  assert (Habandon : forall f, emits (abandon (A := unit) server f) (over server))
    by (intros f; eapply emits_impl; [apply abandon_emits|]; by intros r l [_ ?]).
  assert (Hstop : emits (let! gone := poll_child 40 (child server) in
      let! _ := if gone then mret tt else
        let! _ := child_kill (child server) in let! _ := child_wait (child server) in mret tt in
      let! _ := process_drop server in mret (Ok tt)) (over (A := unit) server));
    [|by intros [?|[]]; try apply Habandon].
  apply emits_after; [apply poll_child_silent|]. intros gone.
  eapply (emits_bind _ _ (fun _ l => l = if gone then [] else [Killed (child server); Waited (child server)])).
  - destruct gone; [by apply emits_ret|].
    eapply emits_bind; [apply emits_logs, child_kill_logs|]. intros ? ? ->.
    eapply emits_bind; [apply emits_logs, child_wait_logs|]. intros ? ? ->. by apply emits_ret.
  - intros ? ? ->. eapply emits_bind; [apply process_drop_emits|]. intros ? ? ->. apply emits_ret.
    rewrite app_nil_r. destruct gone; constructor.
Qed.

(** A child that goes on: whoever started it never returns. *)
Definition begun (l : list Event) : Prop := exists pid h, l = [Started pid; Opened h].
(** A child that was started and not looked after, or none. *)
Definition unattended (l : list Event) : Prop := l = [] \/ exists pid, l = [Started pid].

(** A sweep runs one child to its end, also in a panic; only when its handle could
    not be opened is a started child left alone, and only a sweep that never returns
    leaves its server running. *)
Definition swept {A} (r : Result Failure A) (l : list Event) : Prop :=
  match r with
  | Ok _ | Err Panicked => life l
  | Err (Failed _) => life l \/ unattended l
  | Err Never => begun l
  end.

Lemma over_swept {A} server (r : Result Failure A) l :
  over server r l -> swept r ([Started (child server); Opened (cpu server)] ++ l).
Proof. destruct r as [?|[]]; cbn [over swept]; [done|by left|done|]. intros ->. by eexists _, _. Qed.

Lemma emits_failing {A} (m : M Sy (Result str A)) R :
  emits m R -> emits (failing m) (fun r l => exists r0, r = or_failed r0 /\ R r0 l).
Proof.
  intros Hm. eapply emits_bind; [exact Hm|]. intros r l Hr. apply emits_ret. rewrite app_nil_r. eauto.
Qed.

Lemma process_spawn_emits e port o :
  emits (process_spawn show_status e port o) (fun r l =>
    match r with
    | Ok server => l = [Started (child server); Opened (cpu server)]
    | Err f => swept r l
    end).
Proof.
  unfold process_spawn. eapply emits_bind; [apply emits_failing, emits_silent, current_exe_silent|].
  intros ? ? ([exe|err] & -> & ->); [|by apply emits_ret; cbn; right; left].
  eapply emits_bind; [apply emits_failing, emits_logs, child_spawn_logs|].
  intros ? ? ([pid|err] & -> & ->); [|by apply emits_ret; cbn; right; left].
  eapply emits_bind; [apply emits_failing, emits_logs, OpenProcess_logs|].
  intros ? ? ([h|err] & -> & ->); [|by apply emits_ret; cbn; right; right; exists pid].
  apply emits_after; [apply wait_ready_silent|]. intros [u|f]; [by apply emits_ret|].
  eapply emits_impl; [apply abandon_emits|]. intros r l [-> Hl]. by apply (over_swept (mkProcess pid h)).
Qed.

Lemma sweep_with_emits e port o specs line values :
  emits (sweep_with show_status e port o specs line values) swept.
Proof.
  unfold sweep_with. eapply emits_bind; [apply process_spawn_emits|].
  intros [server|f] l Hl; [|by apply emits_ret; rewrite app_nil_r].
  subst l. apply emits_after; [apply silent_try; [apply silent_ret|intros; apply measure_all_silent]|].
  intros [samples|f].
  - eapply emits_bind; [apply process_stop_emits|]. intros [u|f] l Hl; apply emits_ret; rewrite app_nil_r;
      by apply (over_swept server) in Hl.
  - eapply emits_impl; [apply abandon_emits|]. intros r l [_ Hl]. by apply over_swept.
Qed.

(** A run of lives, one after the other. *)
Definition lives (k : nat) (l : list Event) : Prop :=
  exists ls, length ls = k /\ Forall life ls /\ l = concat ls.

Lemma lives_nil : lives 0 [].
Proof. by exists []. Qed.

Lemma lives_snoc k l l' : lives k l -> life l' -> lives (S k) (l ++ l').
Proof.
  intros (ls & <- & Hls & ->) Hl'. exists (ls ++ [l']). rewrite length_app, concat_app. cbn.
  rewrite app_nil_r. split; [lia|]. split; [|done]. apply Forall_app. by repeat constructor.
Qed.

(** What a run leaves behind: complete lives, and perhaps one child that was started
    and never looked after. *)
Definition all_ended (k : nat) (l : list Event) : Prop :=
  exists j, (j <= k)%nat /\ (lives j l \/ exists l' pid, lives j l' /\ (j < k)%nat /\ l = l' ++ [Started pid]).

Lemma all_ended_le k k' l : (k <= k')%nat -> all_ended k l -> all_ended k' l.
Proof.
  intros Hk (j & Hj & Hl). exists j. split; [lia|]. destruct Hl as [Hl|(l' & pid & ? & ? & ?)]; [by left|].
  right. exists l', pid. repeat split; try done. lia.
Qed.

Lemma lives_ended k l : lives k l -> all_ended k l.
Proof. intros Hl. exists k. auto. Qed.

(** What a failure leaves behind: a panic leaves nothing, and who never returns the
    server it was about. *)
Definition failed_after (k : nat) (f : Failure) (l : list Event) : Prop :=
  match f with
  | Failed _ => all_ended k l
  | Panicked => exists j, (j <= k)%nat /\ lives j l
  | Never => exists j l' l'', (j < k)%nat /\ lives j l' /\ begun l'' /\ l = l' ++ l''
  end.

Lemma failed_after_le k k' f l : (k <= k')%nat -> failed_after k f l -> failed_after k' f l.
Proof.
  intros Hk. destruct f; cbn; [by apply all_ended_le| |].
  - intros (j & ? & ?). exists j. split; [lia|done].
  - intros (j & l' & l'' & ? & ? & ? & ->). exists j, l', l''. repeat split; try done. lia.
Qed.

Lemma swept_failed k l l' {A} f : lives k l -> swept (A := A) (Err f) l' -> failed_after (S k) f (l ++ l').
Proof.
  intros Hl. destruct f; cbn.
  - intros [Hlife|[->|[pid ->]]]; [by apply lives_ended, lives_snoc| |].
    + rewrite app_nil_r. apply (all_ended_le k); [lia|by apply lives_ended].
    + exists k. split; [lia|]. right. exists l, pid. auto with lia.
  - intros Hlife. exists (S k). split; [done|]. by apply lives_snoc.
  - intros Hb. exists k, l, l'. auto with lia.
Qed.

(** A stretch of a run after the events [l0], to where [k] servers have ended or to a
    failure. *)
Definition stretch {A} (l0 : list Event) (k : nat) (r : Result Failure A) (l : list Event) : Prop :=
  match r with
  | Ok _ => lives k (l0 ++ l)
  | Err f => failed_after k f (l0 ++ l)
  end.

Lemma sweep_stretch e port o specs line values k l0 :
  lives k l0 -> emits (sweep_with show_status e port o specs line values) (stretch l0 (S k)).
Proof.
  intros Hl0. eapply emits_impl; [apply sweep_with_emits|]. intros [samples|f] l Hs;
    [by apply lives_snoc|by eapply swept_failed].
Qed.

Lemma failing_stretch {A B} (m : M Sy (Result str A)) (f : A -> M Sy (Result Failure B)) k l0 :
  lives 0 l0 -> silent events m -> (forall x, emits (f x) (stretch l0 k)) -> emits (mtry (failing m) f) (stretch l0 k).
Proof.
  intros Hl0 Hm Hf. eapply emits_bind; [by apply emits_failing, emits_silent|]. intros ? ? ([x|e] & -> & ->); [apply Hf|].
  apply emits_ret. cbn [stretch failed_after]. rewrite app_nil_r. apply (all_ended_le 0); [lia|by apply lives_ended].
Qed.

Lemma engines_loop_emits o engines k index l0 c s :
  lives k l0 ->
  emits (engines_loop show_status o index engines c s) (stretch l0 (k + 2 * length engines)).
Proof.
  revert k index l0 c s. induction engines as [|e engines IH]; intros k index l0 c s Hl0;
    cbn [engines_loop length].
  { apply emits_ret. cbn [stretch]. by rewrite Nat.mul_0_r, Nat.add_0_r, app_nil_r. }
  eapply emits_bind; [apply emits_failing, emits_silent, silent_ret|]. intros ? ? ([port|err] & -> & ->).
  2: { apply emits_ret. cbn. rewrite app_nil_r. apply (all_ended_le k); [lia|by apply lives_ended]. }
  apply emits_after; [apply println_silent|]. intros _.
  eapply emits_bind; [apply (sweep_stretch _ _ _ _ _ _ k l0 Hl0)|]. intros [c1|err1] l1 Hs1.
  2: { apply emits_ret. cbn [stretch app]. rewrite app_nil_r. apply (failed_after_le (S k)); [lia|done]. }
  eapply emits_bind; [apply (sweep_stretch _ _ _ _ _ _ (S k) (l0 ++ l1) Hs1)|]. intros [s2|err2] l2 Hs2.
  2: { apply emits_ret. cbn [stretch app]. rewrite app_nil_r, (assoc_L (++)). apply (failed_after_le (S (S k))); [lia|done]. }
  eapply emits_impl; [apply (IH (S (S k)) (S index) (l0 ++ l1 ++ l2))|].
  { by rewrite (assoc_L (++)). }
  intros r l Hr. replace (k + 2 * S (length engines))%nat with (S (S k) + 2 * length engines)%nat by lia.
  unfold stretch in *. destruct r; by rewrite <- !(assoc_L (++)) in Hr.
Qed.

(** C33. The processes of a run, whatever the system answers.  Servers are run one
    after the other, never two at a time.  Each was started, its handle opened,
    and it ends killed, waited for and with its handle closed: also when it never
    became ready, when a measurement failed or panicked, and a second time when it
    was already seen gone.  One exception ends the run with an error: a child
    whose handle cannot be opened is left running.  The other is a run that never
    returns, as when the server does not answer: its server is still there.  A run
    that gets as far as writing its results has run four servers to their end, and
    one that panics has run every server to its end that it had started. *)
Theorem run_children o :
  emits (run show_status nan_key parallelism arch o) (fun r l =>
    match r with
    | Ok _ => lives 4 l
    | Err (Failed _) => all_ended 4 l
    | Err Panicked => exists k, (k <= 4)%nat /\ lives k l
    | Err Never => exists k l' pid h, (k < 4)%nat /\ lives k l' /\ l = l' ++ [Started pid; Opened h]
    end).
Proof.
  eapply (emits_impl _ (stretch [] 4)).
  2: { intros [u|[]] l Hl; try done. cbn in Hl. destruct Hl as (k & l' & ? & Hk & Hl' & (pid & h & ->) & ->).
       by exists k, l', pid, h. }
  unfold run. apply failing_stretch; [apply lives_nil|apply create_dir_all_silent|]. intros _.
  apply failing_stretch; [apply lives_nil|apply runtime_new_silent|]. intros _.
  eapply emits_bind; [apply (engines_loop_emits o ENGINES 0 0 []), lives_nil|]. intros [[c s]|f] l Hl;
    [|by apply emits_ret; rewrite app_nil_r].
  intros n. destruct (write_results_silent o c s n). exists []. rewrite app_nil_r. split; [done|].
  pose proof (write_results_ends o c s n) as He. cbn [fst snd]. destruct (fst _) as [u|[]]; cbn;
    rewrite ?app_nil_r; [done|by apply lives_ended|by exists 4%nat|done].
Qed.
End emits.

(** ** What a run measures *)

(** A point of a sweep: an engine and its place among the engines, the value on the
    axis, the number of connections and the size of the body. *)
Record Point := mkPoint { pt_engine : Engine; pt_index : nat; pt_x : Z; pt_connections : Z; pt_size : Z }.

Definition concurrency_points (o : SweepOptions) (index : nat) (e : Engine) : list Point :=
  map (fun v => mkPoint e index v v (o_concurrency_sweep_bytes o)) (o_connections o).
Definition size_points (o : SweepOptions) (index : nat) (e : Engine) : list Point :=
  map (fun v => mkPoint e index v (o_size_sweep_connections o) v) (o_sizes o).

(** The points of the engines, from [index] on. *)
Fixpoint per_engine (points : nat -> Engine -> list Point) (index : nat) (engines : list Engine) : list Point :=
  match engines with
  | [] => []
  | e :: engines => points index e ++ per_engine points (S index) engines
  end.

(** The load of a point: to the port of its engine, on the path and for the duration
    of the options, the payload of its size as the body. *)
Definition point_spec (o : SweepOptions) (p : Point) (spec : LoadSpec) : Prop :=
  exists port body,
    port_for (o_ports o) (pt_index p) = Ok port /\ payload (pt_size p) = Ok body /\ zlen body = pt_size p /\
    spec = mkSpec (lit "127.0.0.1") port (o_path o) body (pt_connections p) (o_duration o).

(** What the figures of a sample say about the latencies of its run, in ascending
    order. *)
Definition figures (s : Sample) (latencies : list Z) : Prop :=
  Sorted Z.le latencies /\ s_requests s = wrap64 (zlen latencies) /\
  (latencies = [] -> s_mean_ms s = f64_of 0 /\ s_p50_ms s = f64_of 0 /\ s_p99_ms s = f64_of 0 /\
     s_cpu_us_per_request s = f64_of 0) /\
  (0 < zlen latencies < 2 ^ 46 -> exists a b,
     latencies !! Z.to_nat (zlen latencies / 2) = Some a /\ s_p50_ms s = ms a /\
     latencies !! Z.to_nat (99 * zlen latencies / 100) = Some b /\ s_p99_ms s = ms b /\
     f64_le (s_p50_ms s) (s_p99_ms s) = true).

(** There is an instant after which a duration of the options does not fit. *)
Definition too_long `{Network Sy} (o : SweepOptions) : Prop :=
  exists n, DURATION_MAX < fst (instant_now n) + Z.max READY_TIMEOUT (Z.max (o_duration o) (o_warmup o)).
(** The options ask for more bytes, or for the handles of more connections, than a
    vector can hold. *)
Definition too_big (o : SweepOptions) : Prop :=
  Exists (fun size => 2 ^ 63 <= size) (o_concurrency_sweep_bytes o :: o_sizes o) \/
  Exists (fun connections => 2 ^ 63 <= 8 * connections) (o_size_sweep_connections o :: o_connections o).
(** There is a request that is never answered, or a connection of a run that never
    ends. *)
Definition hung `{Network Sy, LoadHost Sy} (show_status : Z -> str) : Prop :=
  (exists spec n, fst (single_request show_status spec n) = Err Never) \/
  (exists spec deadline n i, Z.of_nat i < spawned (connections spec) /\
     never_ends show_status spec deadline (fst (load_tasks spec deadline n)) i).

Section gives.
Context `{NetworkLaws Sy, LoadHost Sy, !LoadHostLaws Sy, ProcessApi Sy, Plotters Sy, Harness Sy}.
Context (show_status : Z -> str) (nan_key : Z) (parallelism : option Z) (arch : str) (o : SweepOptions).

(** A sample is of a run of [spec], between two snapshots of the server's counters. *)
Definition measured (e : Engine) (x : f64) (spec : LoadSpec) (s : Sample) : Prop :=
  exists handle n0 before n1 r n2 after n3 deadline n4 joined,
    snapshot handle n0 = (Ok before, n1) /\ run_load show_status spec n1 = (Ok r, n2) /\
    snapshot handle n2 = (Ok after, n3) /\ s = sample_of e x spec before after r /\
    outcomes show_status spec deadline (fst (load_tasks spec deadline n4)) = Some joined /\
    latencies_ns r ≡ₚ finished joined /\ figures s (latencies_ns r).

(** A sample at a point of the sweep. *)
Definition at_point (p : Point) (s : Sample) : Prop :=
  s_engine s = pt_engine p /\ s_x s = f64_of (pt_x p) /\ s_connections s = pt_connections p /\
  s_body_bytes s = pt_size p /\
  exists spec, point_spec o p spec /\ measured (pt_engine p) (f64_of (pt_x p)) spec s.

(** Every result of a run. *)
Definition gives {A} (m : M Sy A) (R : A -> Prop) : Prop := forall n, R (fst (m n)).

Lemma gives_ret {A} (x : A) (R : A -> Prop) : R x -> gives (mret x) R.
Proof. by intros HR n. Qed.

Lemma gives_bind {A B} (m : M Sy A) (f : A -> M Sy B) R R' :
  gives m R -> (forall x, R x -> gives (f x) R') -> gives (mbind m f) R'.
Proof. intros Hm Hf n. unfold mbind. specialize (Hm n). destruct (m n) as [x n1]. by apply Hf. Qed.

Lemma gives_any {A B} (m : M Sy A) (f : A -> M Sy B) R' : (forall x, gives (f x) R') -> gives (mbind m f) R'.
Proof. intros Hf. by apply (gives_bind _ _ (fun _ => True)). Qed.

(** What is known when there is no result. *)
Definition excuse (f : Failure) : Prop :=
  match f with
  | Failed _ => True
  | Panicked => too_long o \/ too_big o
  | Never => hung show_status
  end.
Definition ok_such {A} (R : A -> Prop) (r : Result Failure A) : Prop :=
  match r with Ok x => R x | Err f => excuse f end.

Lemma gives_try {A B} (m : M Sy (Result Failure A)) (f : A -> M Sy (Result Failure B)) R R' :
  gives m (ok_such R) -> (forall x, R x -> gives (f x) (ok_such R')) -> gives (mtry m f) (ok_such R').
Proof.
  intros Hm Hf. eapply gives_bind; [exact Hm|]. intros [x|e]; [apply Hf|intros; by apply gives_ret].
Qed.

Lemma gives_failing {A B} (m : M Sy (Result str A)) (f : A -> M Sy (Result Failure B)) R' :
  (forall x, gives (f x) (ok_such R')) -> gives (mtry (failing m) f) (ok_such R').
Proof.
  intros Hf. apply (gives_try _ _ (fun _ => True)); [|auto]. apply gives_any. intros r. apply gives_ret. by destruct r.
Qed.

Lemma abandon_gives {A} server f (R : A -> Prop) : excuse f -> gives (abandon server f) (ok_such R).
Proof. intros Hf. destruct f; [apply gives_any; intros _..|]; by apply gives_ret. Qed.

(** *** A measurement *)

(** A load that the options allow. *)
Definition allowed (spec : LoadSpec) : Prop :=
  duration spec <= Z.max (o_duration o) (o_warmup o) /\
  connections spec ∈ o_size_sweep_connections o :: o_connections o.

Lemma run_load_gives spec : allowed spec -> gives (run_load show_status spec) (ok_such (fun _ => True)).
Proof.
  intros [Hd Hc] n. pose proof (run_load_fails show_status spec n) as Hf.
  destruct (fst (run_load show_status spec n)) as [r|[e| |]]; cbn; [done..| |].
  - destruct Hf as [Hf|Hf]; [left; exists n; lia|right; right]. apply Exists_exists. eauto.
  - right. by exists spec.
Qed.

Lemma sample_figures e x spec before after joined taken :
  Forall (in_u 64) (finished joined) ->
  let r := load_run joined taken in
  latencies_ns r ≡ₚ finished joined /\ figures (sample_of e x spec before after r) (latencies_ns r).
Proof.
  intros Hu r.
  assert (Hp : latencies_ns r ≡ₚ finished joined).
  { etransitivity; [apply merge_sort_Permutation|]. by rewrite merge_latencies. }
  assert (Hs : Sorted Z.le (latencies_ns r)) by apply (Sorted_merge_sort _).
  split; [done|]. do 2 (split; [done|]). split.
  - intros Hnil. assert (Hz : requests r = 0) by (unfold requests; by rewrite Hnil).
    unfold sample_of. cbn [s_mean_ms s_p50_ms s_p99_ms s_cpu_us_per_request]. rewrite Hz.
    unfold mean_ms, percentile_ms. by rewrite Hnil.
  - intros Hlen. destruct (percentiles_exact r Hlen Hs) as (a & b & Ha & Hb & Pa & Pb & Hab); [by rewrite Hp|].
    exists a, b. unfold sample_of. cbn [s_p50_ms s_p99_ms]. by rewrite Pa, Pb.
Qed.

Lemma measure_gives server e x spec :
  duration spec = o_duration o -> allowed spec ->
  gives (measure show_status server e x spec o) (ok_such (measured e x spec)).
Proof.
  intros Hd Ha. unfold measure. eapply (gives_try _ _ (fun _ => True)).
  { destruct (o_warmup o =? 0); [by apply gives_ret|]. apply run_load_gives. destruct Ha as [_ Ha]. split; [cbn; lia|done]. }
  intros _ _ n0. unfold mtry at 1, failing, mbind at 1 2. destruct (snapshot (cpu server) n0) as [[before|e1] n1] eqn:E1; [|done].
  cbn [or_failed mret]. unfold mtry at 1, mbind at 1. pose proof (run_load_gives spec Ha n1) as Hr.
  destruct (run_load show_status spec n1) as [[r|f] n2] eqn:E2; [|done]. unfold mtry, mbind, mret.
  destruct (snapshot (cpu server) n2) as [[after|e3] n3] eqn:E3; [|done]. cbn [or_failed fst ok_such].
  pose proof E2 as (started & n4 & t & n5 & ended & joined & _ & Ht & _ & Hj & ->)%run_load_ok.
  destruct (sample_figures e x spec before after joined (saturating_sub ended started)) as [Hp Hfig];
    [by eapply outcomes_u64|].
  exists (cpu server), n0, before, n1, (load_run joined (saturating_sub ended started)), n2, after, n3,
    (started + duration spec), n4, joined. by rewrite Ht.
Qed.

(** *** The loops *)

(** The loads of a sweep, by the value, are those of its points. *)
Definition specs_of (e : Engine) (point : Z -> Point) (values : list Z) (specs : Z -> Result Failure LoadSpec) : Prop :=
  Forall (fun v => pt_engine (point v) = e /\ pt_x (point v) = v /\
    pt_connections (point v) ∈ o_size_sweep_connections o :: o_connections o /\
    ok_such (point_spec o (point v)) (specs v)) values.

Lemma measure_all_gives server e specs line values samples point points :
  specs_of e point values specs -> Forall2 at_point points samples ->
  gives (measure_all show_status server e o specs line values samples)
    (ok_such (Forall2 at_point (points ++ map point values))).
Proof.
  intros Hv. revert samples points. induction Hv as [|v values (He & Hx & Hc & Hs) _ IH]; intros samples points Hsam;
    cbn [measure_all map].
  { apply gives_ret. cbn. by rewrite app_nil_r. }
  eapply gives_try; [by apply gives_ret|]. intros spec Hspec.
  pose proof Hspec as (port & body & _ & _ & Hb & ->).
  eapply gives_try; [apply measure_gives; [done|]; split; [cbn; lia|done]|]. intros s Hm. apply gives_any. intros _.
  rewrite (cons_middle _ points), (assoc_L (++)). apply IH. apply Forall2_app; [done|]. constructor; [|done].
  pose proof Hm as (h & n0 & before & n1 & r & n2 & after & n3 & d & n4 & joined & _ & _ & _ & Hs' & _).
  unfold at_point. rewrite He, Hx. do 4 (split; [by rewrite Hs'|]). by eexists.
Qed.

Lemma wait_ready_gives port : gives (wait_ready show_status o port) (ok_such (fun _ => True)).
Proof.
  intros n. unfold wait_ready. pose proof (wait_until_ready_done show_status 801 (load_spec o port [] 1) READY_TIMEOUT n
    ltac:(unfold READY_TIMEOUT, NANOS, PROBE_INTERVAL; lia)) as Hd.
  change (S 801) with READY_FUEL in Hd. destruct (fst _) as [u|[e| |]]; cbn; [done..| |].
  - left. exists n. lia.
  - destruct Hd as (probe & n1 & Hd). left. by exists probe, n1.
Qed.

Lemma process_spawn_gives e port : gives (process_spawn show_status e port o) (ok_such (fun _ => True)).
Proof.
  unfold process_spawn. do 3 (apply gives_failing; intros ?). eapply gives_bind; [apply wait_ready_gives|].
  intros [u|f] Hf; [by apply gives_ret|by apply abandon_gives].
Qed.

Lemma process_stop_gives server port : gives (process_stop show_status server o port) (ok_such (fun _ => True)).
Proof.
  unfold process_stop. cbv zeta. set (spec := mkSpec _ _ _ _ _ _).
  eapply (gives_bind _ _ (ok_such (fun _ => True))).
  { intros n. pose proof (single_request_calm show_status spec n) as Hc.
    destruct (fst _) as [u|[e| |]] eqn:E; cbn; [done..|]. left. by exists spec, n. }
  intros [u|[e| |]] Hr; try by apply abandon_gives.
  all: do 3 (apply gives_any; intros ?); by apply gives_ret.
Qed.

Lemma sweep_with_gives e port specs line values point :
  ok_such (specs_of e point values) specs ->
  gives (sweep_with show_status e port o specs line values) (ok_such (Forall2 at_point (map point values))).
Proof.
  intros Hs. unfold sweep_with. eapply gives_try; [apply process_spawn_gives|]. intros server _.
  eapply gives_bind.
  { eapply gives_try; [apply gives_ret, Hs|]. intros spec Hspec. by apply (measure_all_gives _ _ _ _ _ [] point []). }
  intros [l|f] Hl; [|by apply abandon_gives].
  eapply gives_try; [apply process_stop_gives|]. intros _ _. by apply gives_ret.
Qed.

Lemma payload_gives size (R : bytes -> Prop) :
  0 <= size -> size ∈ o_concurrency_sweep_bytes o :: o_sizes o ->
  (forall body, payload size = Ok body -> zlen body = size -> R body) -> ok_such R (payload size).
Proof.
  intros Hs Hin HR. pose proof (payload_cases size Hs) as Hp. destruct (payload size) as [body|f]; [by apply HR|].
  destruct Hp as [-> Hbig]. right. left. apply Exists_exists. eauto.
Qed.

Lemma ok_such_map {A B} (f : A -> B) (R : B -> Prop) r : ok_such (fun x => R (f x)) r -> ok_such R (result_map f r).
Proof. by destruct r. Qed.

Lemma concurrency_sweep_gives e index port :
  0 <= o_concurrency_sweep_bytes o -> port_for (o_ports o) index = Ok port ->
  gives (concurrency_sweep show_status e port o) (ok_such (Forall2 at_point (concurrency_points o index e))).
Proof.
  intros Hb Hp. apply sweep_with_gives, ok_such_map. apply payload_gives; [done|by left|]. intros body Hbody Hlen.
  apply Forall_forall. intros v Hv. do 2 (split; [done|]). split; [by right|]. by exists port, body.
Qed.

Lemma size_sweep_gives e index port :
  Forall (fun v => 0 <= v) (o_sizes o) -> port_for (o_ports o) index = Ok port ->
  gives (size_sweep show_status e port o) (ok_such (Forall2 at_point (size_points o index e))).
Proof.
  intros Hs Hp. apply sweep_with_gives. apply Forall_forall. intros v Hv. rewrite Forall_forall in Hs.
  do 2 (split; [done|]). split; [by left|]. apply ok_such_map. apply payload_gives; [auto|by right|].
  intros body Hbody Hlen. by exists port, body.
Qed.

Lemma engines_loop_gives engines index c s cp sp :
  0 <= o_concurrency_sweep_bytes o -> Forall (fun v => 0 <= v) (o_sizes o) ->
  Forall2 at_point cp c -> Forall2 at_point sp s ->
  gives (engines_loop show_status o index engines c s) (ok_such (fun '(c', s') =>
    Forall2 at_point (cp ++ per_engine (concurrency_points o) index engines) c' /\
    Forall2 at_point (sp ++ per_engine (size_points o) index engines) s' /\
    (engines <> [] -> index + length engines <= length (o_ports o))%nat)).
Proof.
  intros Hb Hsz. revert index c s cp sp. induction engines as [|e engines IH]; intros index c s cp sp Hc Hs;
    cbn [engines_loop per_engine].
  { apply gives_ret. cbn. by rewrite !app_nil_r. }
  eapply (gives_try _ _ (fun port => port_for (o_ports o) index = Ok port)).
  { intros n. cbn. by destruct (port_for (o_ports o) index). }
  intros port Hport. apply gives_any. intros _.
  eapply gives_try; [by apply concurrency_sweep_gives|]. intros c1 Hc1.
  eapply gives_try; [by apply size_sweep_gives|]. intros s1 Hs1 n. rewrite !(assoc_L (++)).
  pose proof (IH (S index) (c ++ c1) (s ++ s1) _ _ (Forall2_app Hc Hc1) (Forall2_app Hs Hs1) n) as He.
  revert He. destruct (fst _) as [[c' s']|f]; [|done].
  intros (Hc' & Hs' & Hp). split; [done|]. split; [done|]. intros _. cbn [length].
  assert (index < length (o_ports o))%nat.
  { unfold port_for in Hport. destruct (o_ports o !! index) eqn:E; [|done]. by apply lookup_lt_Some in E. }
  destruct engines as [|e' l]; [cbn; lia|]. specialize (Hp ltac:(done)). lia.
Qed.

Lemma results_panic c s n :
  Forall2 at_point (concurrency_points o 0 Httpsys ++ concurrency_points o 1 Axum) c ->
  Forall2 at_point (size_points o 0 Httpsys ++ size_points o 1 Axum) s ->
  fst (write_results nan_key parallelism arch o c s n) = Err Panicked <-> o_connections o = [] \/ o_sizes o = [].
Proof.
  intros Hc Hsz.
  assert (Hpc : o_connections o = [] <-> c = []).
  { apply Forall2_length in Hc. unfold concurrency_points in Hc.
    rewrite <- !length_zero_iff_nil, <- Hc, length_app, !length_map. lia. }
  assert (Hps : o_sizes o = [] <-> s = []).
  { apply Forall2_length in Hsz. unfold size_points in Hsz.
    rewrite <- !length_zero_iff_nil, <- Hsz, length_app, !length_map. lia. }
  rewrite Hpc, Hps, <- (bool_decide_eq_true (c = [] \/ s = [])), <- (report_panic_eq nan_key c s).
  unfold write_results. destruct (report nan_key c s) as [lines panics]. cbn [snd].
  unfold mbind at 1. destruct (print_all lines n) as [[] n2]. destruct panics; [done|].
  unfold failing, mbind at 1. by destruct (mtry _ _ n2) as [[]].
Qed.

End gives.

(** ** A scripted system, for witnesses

    Children get the ids 1, 2, and so on; the handles of those on a list cannot be
    opened.  The network is the scripted one. *)

Record System := mkSystem {
  sy_net : ScriptNet; sy_events : list Event; sy_pids : Z; sy_denied : list Z; sy_out : list str;
}.

Definition on_net {A} (f : ScriptNet -> A * ScriptNet) (s : System) : A * System :=
  let '(x, n) := f (sy_net s) in (x, mkSystem n (sy_events s) (sy_pids s) (sy_denied s) (sy_out s)).
Definition log (l : list Event) (s : System) : System :=
  mkSystem (sy_net s) (sy_events s ++ l) (sy_pids s) (sy_denied s) (sy_out s).

#[export] Instance system_network : Network System := {
  instant_now := on_net instant_now;
  sleep d := on_net (sleep d);
  tcp_connect a := on_net (tcp_connect a);
  set_nodelay := on_net set_nodelay;
  http_handshake := on_net http_handshake;
  request_build r := on_net (request_build r);
  send_request r := on_net (send_request r);
  collect_body := on_net collect_body;
  hang_up := on_net hang_up;
}.

#[export] Instance system_processes : ProcessApi System := {
  OpenProcess pid s :=
    if bool_decide (pid ∈ sy_denied s) then (Err (lit "denied"), s) else (Ok (pid + 1000), log [Opened (pid + 1000)] s);
  GetProcessTimes _ s := (Ok (mkTimes (mkFileTime 0 0) (mkFileTime 0 0) (mkFileTime 5 0) (mkFileTime 5 0)), s);
  CloseHandle h s := (tt, log [Closed h] s);
  process_clock s := (net_time (sy_net s), s);
}.

#[export] Instance system_plotters : Plotters System := fun _ _ _ s => (Ok tt, s).

#[export] Instance system_network_laws : NetworkLaws System.
Proof.
  refine {| time := fun s => net_time (sy_net s) |}; intros; cbn; try lia; unfold on_net, answer_unit;
    pose proof (answer_time (sy_net n)); try destruct (answer (sy_net n)); cbn in *; lia.
Defined.

(** A request takes a millisecond, and the tasks end at the deadline. *)
#[export] Instance system_tasks : LoadHost System := fun _ deadline s =>
  (mkTasks (S (Z.to_nat ((deadline - net_time (sy_net s)) / 1000000 + 1))) (fun _ => s) (fun _ => false),
   mkSystem (mkNet deadline (net_answers (sy_net s))) (sy_events s) (sy_pids s) (sy_denied s) (sy_out s)).

#[export] Instance system_harness : Harness System := {
  println l s := (tt, mkSystem (sy_net s) (sy_events s) (sy_pids s) (sy_denied s) (sy_out s ++ [l]));
  create_dir_all _ s := (Ok tt, s);
  runtime_new s := (Ok tt, s);
  write_file _ _ s := (Ok tt, s);
  current_exe s := (Ok (lit "httpbench"), s);
  child_spawn _ s :=
    let pid := sy_pids s + 1 in
    (Ok pid, mkSystem (sy_net s) (sy_events s ++ [Started pid]) pid (sy_denied s) (sy_out s));
  child_try_wait _ s := (Ok true, s);
  child_kill pid s := (Ok tt, log [Killed pid] s);
  child_wait pid s := (Ok tt, log [Waited pid] s);
  path_join a b := a ++ lit "/" ++ b;
}.

#[export] Instance system_laws : HarnessLaws System.
Proof.
  refine {| events := sy_events |}; intros; intros ?; cbn; rewrite ?app_nil_r; try done;
    unfold on_net, answer_unit; try (by destruct (answer _)).
  - case_bool_decide; [by rewrite app_nil_r|done].
Defined.

Definition demo_options : SweepOptions :=
  mkOptions [8080; 8081] BENCH_PATH 5000000 0 [1; 2] [64] 2 0 (lit "charts") false.
Definition demo_system (denied : list Z) : System := mkSystem (mkNet 0 []) [] 0 denied [].

Lemma run_children_witness :
  exists l, events (snd (run (fun _ => []) 0 (Some 8) (lit "x86_64") demo_options (demo_system []))) = l /\ lives 4 l.
Proof.
  destruct (run_children (Sy := System) (fun _ => []) 0 (Some 8) (lit "x86_64") demo_options (demo_system []))
    as (l & Hl & Hr).
  exists l. split; [exact Hl|].
  destruct (fst (run _ _ _ _ _ _)) as [u|[e| |]] eqn:E; [exact Hr|vm_compute in E; discriminate..].
Defined.

Lemma system_request_takes show_status spec (s : System) :
  time s + 1000000 <= time (snd (one_request show_status spec s)).
Proof.
  pose proof (answer_time (sy_net s)) as Ht. unfold one_request, await, returned, failing, mtry, mbind, mret.
  cbn [request_build instant_now send_request collect_body script_network system_network or_failed time
    system_network_laws on_net].
  unfold on_net. cbn. destruct (answer (sy_net s)) as [[[x|e]|] n1]; cbn in *; [|lia..]. destruct (is_success x); cbn; lia.
Qed.

#[export] Instance system_tasks_laws : LoadHostLaws System.
Proof.
  intros show_status spec deadline s i fuel. cbn zeta. cbn [load_tasks system_tasks turns meets fst]. intros _.
  apply (connection_loop_turns show_status 1000000 (system_request_takes show_status)).
  cbn [time system_network_laws]. set (d := deadline - net_time (sy_net s)).
  pose proof (Z.div_mod d 1000000). pose proof (Z.mod_pos_bound d 1000000). lia.
Qed.


(** The second child's handle is refused: it is left running. *)
Example run_leaks :
  sy_events (snd (run (fun _ => []) 0 (Some 8) (lit "x86_64") demo_options (demo_system [2]))) =
    [Started 1; Opened 1001; Killed 1; Waited 1; Closed 1001; Started 2].
Proof. vm_compute. reflexivity. Qed.

(** A duration beyond the clock, and a body beyond memory: the panic still stops the
    server it started. *)
Example run_panics :
  let panics o n :=
    let '(r, s) := run (fun _ => []) 0 (Some 8) (lit "x86_64") o (mkSystem (mkNet n []) [] 0 [] []) in
    r = Err Panicked /\ sy_events s = [Started 1; Opened 1001; Killed 1; Waited 1; Closed 1001] in
  panics (mkOptions [8080; 8081] BENCH_PATH DURATION_MAX 0 [1] [64] 2 0 (lit "charts") false) 1 /\
  panics (mkOptions [8080; 8081] BENCH_PATH 5 0 [1] [64] 2 (2 ^ 63) (lit "charts") false) 1 /\
  panics (mkOptions [8080; 8081] BENCH_PATH 5 0 [2 ^ 60] [64] 2 0 (lit "charts") false) 1.
Proof. vm_compute. repeat split. Qed.

(** A server that accepts the probe's connection and never answers: the run never
    ends, and the server stays. *)
Example run_waits :
  let '(r, s) := run (fun _ => []) 0 (Some 8) (lit "x86_64") demo_options
    (mkSystem (mkNet 1 [Some (Ok 0); None]) [] 0 [] []) in
  r = Err Never /\ sy_events s = [Started 1; Opened 1001].
Proof. vm_compute. split; reflexivity. Qed.
