(* ===== verification/BenchMain.v ===== *)
(** * The command line (tools/httpbench/src/main.rs)

    The three commands, their dispatch, the ad-hoc load and the parser of
    durations.  Splitting the command line into these records is the clap
    crate's. *)

From stdpp Require Import sorting.
From Stdlib Require Import Floats.SpecFloat.
From S2P Require Import Prelude RustStd Errors Init Server Float64 BenchFmt BenchLoad BenchCpu BenchChart.
From S2P Require Import BenchServers BenchSweep BenchRun.
Set Warnings "-clear-no-such-hyp".
#[local] Open Scope Z_scope.
#[local] Open Scope rust_scope.

(** ** Durations *)

(** [parse_seconds]; [None]: [Duration::from_secs_f64] panics. *)
Definition parse_seconds (text : str) : option (Result str Z) :=
  match parse_f64 (trim_end_matches (fun c => c =? 115) (trim text)) with
  | None => Some (Err (lit "'" ++ text ++ lit "' is not a number of seconds"))
  | Some s =>
      if is_finite s && f64_le (f64_of 0) s then
        match from_secs_f64 s with
        | Some d => Some (Ok d)
        | None => None
        end
      else Some (Err (lit "'" ++ text ++ lit "' is not a valid duration"))
  end.

(** ** Commands *)

Record BenchArgs := mkBenchArgs {
  ba_ports : list Z; ba_path : str; ba_duration : Z; ba_warmup : Z; ba_connections : list Z;
  ba_sizes : list Z; ba_size_sweep_connections : Z; ba_concurrency_sweep_bytes : Z; ba_out : str;
  ba_kernel_cache : bool;
}.
Record ServeArgs := mkServeArgs {
  sa_engine : Engine; sa_port : Z; sa_path : str; sa_request_buffer : Z; sa_kernel_cache : bool;
}.
Record LoadArgs := mkLoadArgs {
  la_host : str; la_port : Z; la_path : str; la_connections : Z; la_duration : Z; la_size : Z;
}.
Inductive Command := Bench (args : BenchArgs) | Serve (args : ServeArgs) | Load (args : LoadArgs).

Definition sweep_options (a : BenchArgs) : SweepOptions :=
  mkOptions (ba_ports a) (ba_path a) (ba_duration a) (ba_warmup a) (ba_connections a) (ba_sizes a)
    (ba_size_sweep_connections a) (ba_concurrency_sweep_bytes a) (ba_out a) (ba_kernel_cache a).
Definition serve_options (a : ServeArgs) : ServeOptions :=
  mkServeOptions (sa_request_buffer a) (sa_kernel_cache a).

(** The defaults of the lists of [BenchArgs], as clap hands them to the parsers. *)
Definition default_ports : list (option Z) := map (parse_uint 16) (split_on 44 (lit "8080,8081")).
Definition default_connections : list (option Z) :=
  map (parse_uint 64) (split_on 44 (lit "1,2,4,8,16,32,64,128,256")).
Definition default_sizes : list (Result str Z) :=
  map parse_bytes (split_on 44 (lit "1KiB,4KiB,16KiB,64KiB,256KiB,1MiB,4MiB,8MiB")).

Section main.
Context `{Network Sy, LoadHost Sy, ProcessApi Sy, Plotters Sy, Harness Sy, AxumHost Sy} {Hd : Type}.
Context (show_status : Z -> str) (nan_key : Z) (parallelism : option Z) (arch : str) (show : Error -> str).

Definition LOAD_TIMEOUT : Z := 5 * NANOS.
Definition LOAD_FUEL : nat := 202.

Definition load_lines (spec : LoadSpec) (r : LoadResult) : list str :=
  [ show_uint (requests r) ++ lit " requests in " ++ show_fixed 2 (as_secs_f64 (elapsed r)) ++ lit "s over " ++
    show_uint (connections spec) ++ lit " connections";
    lit "  throughput  " ++ fmt.rate (requests_per_second r) ++ lit " req/s";
    lit "  mean        " ++ fmt.millis (mean_ms r);
    lit "  p50         " ++ fmt.millis (default (f64_of 0) (percentile_ms r (f64_lit 1 2)));
    lit "  p99         " ++ fmt.millis (default (f64_of 0) (percentile_ms r (f64_lit 99 100))) ] ++
  (if 0 <? errors r then [lit "  errors      " ++ show_uint (errors r)] else []).

(** The body is made first, and panics when a vector cannot hold it. *)
Definition ad_hoc_load (a : LoadArgs) : M Sy (Result Failure unit) :=
  if capacity_overflow 1 (la_size a) then mret (Err Panicked)
  else
    let spec := mkSpec (la_host a) (la_port a) (la_path a) (replicate (Z.to_nat (la_size a)) 120)
      (la_connections a) (la_duration a) in
    let? _ := wait_until_ready show_status LOAD_FUEL spec LOAD_TIMEOUT in
    let? result := run_load show_status spec in
    let! _ := print_all (load_lines spec result) in
    mret (Ok tt).

(** [run].  The last arguments are the handlers of [serve_httpsys] and the answers of
    http.sys to it. *)
Definition run_command (c : Command) (bench shutdown : Hd) (ba : BuildAnswers) (ec1 ec2 : Z) :
    M (Os * Sy) (Result Failure unit) :=
  match c with
  | Bench a => on_snd (BenchRun.run show_status nan_key parallelism arch (sweep_options a))
  | Serve a =>
      failing (serve show parallelism (sa_engine a) (sa_port a) (sa_path a) (serve_options a) bench shutdown
        ba ec1 ec2)
  | Load a =>
      let? _ := failing (on_snd runtime_new) in
      on_snd (ad_hoc_load a)
  end.

(** The exit code of [main]; [None]: the process does not end. *)
Definition exit_code (r : Result Failure unit) : option Z :=
  match r with
  | Ok _ => Some 0
  | Err (Failed _) => Some 1
  | Err Panicked => Some 101
  | Err Never => None
  end.
Definition main (c : Command) (bench shutdown : Hd) (ba : BuildAnswers) (ec1 ec2 : Z) : M (Os * Sy) (option Z) :=
  let! r := run_command c bench shutdown ba ec1 ec2 in mret (exit_code r).
End main.

(** ** Facts *)

Lemma scan_digits_value w s a k n :
  parse_digits w a s = Some n -> scan_digits a k s = (n, (k + length s)%nat, []).
Proof.
  revert a k. induction s as [|c s IH]; intros a k; cbn [parse_digits scan_digits length].
  - intros [= ->]. by rewrite Nat.add_0_r.
  - destruct (digit c) as [d|]; [|done]. destruct (_ <=? _); [|done]. intros Hp.
    rewrite (IH _ (S k) Hp). do 2 f_equal. lia.
Qed.

(** A whole number parses to itself. *)
Lemma parse_f64_uint n : 0 <= n -> parse_f64 (show_uint n) = Some (f64_of n).
Proof.
  intros Hn. set (w := Z.log2 n + 1).
  assert (Hw : in_u w n).
  { unfold in_u, w. split; [lia|]. destruct (Z.eq_dec n 0) as [->|]; [done|]. apply Z.log2_spec. lia. }
  pose proof (parse_show_uint w n Hw) as Hp.
  destruct (dec_digits_head (S (Z.to_nat (Z.log2 n))) n Hn ltac:(lia)) as (c & s & Hs & Hc).
  fold (show_uint n) in Hs. rewrite Hs in Hp |- *. unfold parse_uint in Hp.
  rewrite (proj2 (Z.eqb_neq c 43)) in Hp by lia. cbn [andb] in Hp.
  unfold parse_f64, scan_sign. rewrite (proj2 (Z.eqb_neq c 45)), (proj2 (Z.eqb_neq c 43)) by lia. cbv iota beta.
  rewrite !bool_decide_eq_false_2.
  2,3,4: intros Hl%(f_equal head); cbn [to_ascii_lowercase map head] in Hl;
    rewrite (proj2 (Z.leb_gt 65 c)) in Hl by lia; vm_compute in Hl; injection Hl as ->; lia.
  cbn [orb]. rewrite (scan_digits_value w _ 0 0 n Hp). cbn [length Nat.add scan_exponent].
  f_equal. unfold f64_decimal, f64_of, binary_normalize.
  destruct n as [|p|p]; [done| |lia]. change (0 <=? 0 - 0) with true. change (Z.pos p <=? 0) with false. cbv iota.
  by rewrite Z.mul_1_r.
Qed.

Lemma decimal_not_space c : 48 <= c <= 57 -> is_whitespace c = false.
Proof. intros Hc. unfold is_whitespace. ztests; try done; lia. Qed.

Lemma show_uint_chars n : Forall (fun c => 48 <= c <= 57) (show_uint n).
Proof. by apply dec_digits_chars. Qed.

(** The text [parse_seconds] hands to the number parser. *)
Lemma seconds_number n k :
  trim_end_matches (fun c => c =? 115) (trim (show_uint n ++ replicate k 115)) = show_uint n.
Proof.
  assert (Hsp : Forall (fun c => is_whitespace c = false) (show_uint n ++ replicate k 115)).
  { apply Forall_app. split; [|by apply Forall_replicate].
    eapply Forall_impl; [apply show_uint_chars|apply decimal_not_space]. }
  rewrite (trim_keep _ (Forall_take _ 1 _ Hsp) (take_1_rev _ _ Hsp)).
  unfold trim_end_matches. rewrite rev_app_distr, trim_start_all; [apply rev_involutive| |].
  - apply Forall_rev, Forall_replicate. by apply Is_true_true.
  - apply take_1_rev. eapply Forall_impl; [apply show_uint_chars|]. intros c Hc. cbn beta in Hc.
    apply Z.eqb_neq. lia.
Qed.

Lemma from_secs_near x :
  is_finite x = true -> f64_le (f64_of 0) x = true ->
  match from_secs_f64 x with
  | Some d => units x < 2 ^ 64 * UNIT /\ 2 * Z.abs (d * UNIT - units x * NANOS) <= UNIT
  | None => 2 ^ 64 * UNIT <= units x
  end.
Proof.
  intros Hf Hle. destruct x as [s|s| |[] m e]; try done.
  cbn [from_secs_f64]. destruct (Z.ltb_spec (units (S754_finite false m e)) (2 ^ 64 * UNIT)) as [Hlt|Hge].
  - split; [done|]. pose proof (rne_near (units (S754_finite false m e) * NANOS) UNIT ltac:(done)) as Hr.
    rewrite (Z.mul_comm _ UNIT). replace (_ * _ - _) with (UNIT * rne (units (S754_finite false m e) * NANOS) UNIT -
      units (S754_finite false m e) * NANOS) by lia. lia.
  - done.
Qed.

(** C39. What [parse_seconds] accepts.  A whole number below 2^53, with or without
    the suffix, is that many seconds, exactly.  Any other text that is a finite
    number, not below zero, gives the nearest duration in nanoseconds, half a
    nanosecond off at most; but from 2^64 seconds on the parser does not refuse
    it, it panics. *)
Theorem parse_seconds_spec :
  (forall n k, 0 <= n < 2 ^ 53 ->
     parse_seconds (show_uint n ++ replicate k 115) = Some (Ok (n * NANOS))) /\
  (forall text x, parse_f64 (trim_end_matches (fun c => c =? 115) (trim text)) = Some x ->
     is_finite x = true -> f64_le (f64_of 0) x = true ->
     match parse_seconds text with
     | Some (Ok d) => units x < 2 ^ 64 * UNIT /\ 2 * Z.abs (d * UNIT - units x * NANOS) <= UNIT
     | Some (Err _) => False
     | None => 2 ^ 64 * UNIT <= units x
     end) /\
  parse_seconds (lit "1e30") = None.
Proof.
  split; [|split].
  - intros n k Hn. unfold parse_seconds. rewrite seconds_number, parse_f64_uint by lia.
    destruct (f64_of_rank n Hn) as (_ & _ & _ & Hu & Hs & Hf). rewrite Hf, f64_of_le by lia.
    rewrite (proj2 (Z.leb_le 0 n)) by lia. cbn [andb]. destruct (Z.eq_dec n 0) as [->|Hn0]; [done|].
    destruct (f64_of_val n ltac:(lia)) as (m & e & E & Hb & Hum). rewrite E in Hu |- *.
    cbn [from_secs_f64]. rewrite Hu. unfold UNIT at 1 2.
    rewrite (proj2 (Z.ltb_lt _ _)) by nia. do 2 f_equal.
    rewrite <- Z.mul_assoc, (Z.mul_comm _ NANOS), Z.mul_assoc. by apply rne_exact.
  - intros text x Hx Hf Hle. unfold parse_seconds. rewrite Hx, Hf, Hle. cbn [andb].
    pose proof (from_secs_near x Hf Hle) as Hn. by destruct (from_secs_f64 x).
  - vm_compute. reflexivity.
Qed.

Example parse_seconds_tests :
  parse_seconds (lit "3") = Some (Ok (3 * NANOS)) /\ parse_seconds (lit "2.5s") = Some (Ok 2500000000) /\
  is_ok (default (Ok 0) (parse_seconds (lit "-1"))) = false /\
  is_ok (default (Ok 0) (parse_seconds (lit "soon"))) = false /\
  parse_seconds (lit " 1e-9 ") = Some (Ok 1).
Proof. vm_compute. repeat split. Qed.

(** The probe of the ad-hoc load is always given enough turns: when it does not return,
    a request of it does not. *)
Lemma load_ready_done `{NetworkLaws Sy} show_status spec n :
  fst (wait_until_ready show_status LOAD_FUEL spec LOAD_TIMEOUT n) = Err Never ->
  exists probe n1, fst (single_request show_status probe n1) = Err Never.
Proof.
  intros Hn. pose proof (wait_until_ready_done show_status 201 spec LOAD_TIMEOUT n
    ltac:(unfold LOAD_TIMEOUT, NANOS, PROBE_INTERVAL; lia)) as Hd. change (S 201) with LOAD_FUEL in Hd. by rewrite Hn in Hd.
Qed.

(** The defaults of a sweep: one port per engine, and sizes that double twice. *)
Example defaults_tests :
  default_ports = [Some 8080; Some 8081] /\ last default_connections = Some (Some 256) /\
  default_sizes = map (fun k => Ok (1024 * k)) [1; 4; 16; 64; 256; 1024; 4096; 8192].
Proof. vm_compute. repeat split. Qed.

Lemma parse_seconds_spec_witness :
  parse_seconds (lit "15" ++ lit "s") = Some (Ok (15 * NANOS)).
Proof. exact (proj1 parse_seconds_spec 15 1%nat ltac:(split; [discriminate|reflexivity])). Defined.
